(* ===== verification/_CoqProject ===== *)
-Q . S2P
Prelude.v
Endian.v
StringView.v
StringViewTypes.v
Buffer.v
ForwardList.v
ForwardListAlgo.v
ForwardListRange.v
ForwardListSort.v
ChunkList.v
Stripes.v
XXHash.v
XXH64.v
XXH3.v
XXH128.v
XXH3Stream.v
Xxhsum.v
XxhsumMain.v
Codec.v
Codec2.v
Timer.v
Poller.v
EventLoop.v
Connection.v
EndToEnd.v
LengthCodec.v
FileTransfer.v
Connector.v
Client.v
Acceptor.v
Server.v
MemPool.v
ObjectPool.v
LinearPool.v
ReservedArray.v
RingBuffer.v
Any.v
UniqueAny.v
FixedBuffer.v
Convert.v
InetAddr.v
TimeStamp.v
LoopTimers.v
Logger.v
LogFile.v
AsyncLog.v
Rpc.v
Threads.v
Locks.v
