(* ===== verification/Prelude.v ===== *)
(** * A verification development of the kanon network library

    kanon is a C++11 network library: an event loop with timers and queued
    functors over poll(2) or epoll(7), connections with an input and an output
    buffer, servers and clients on top of them, codecs that frame protobuf
    messages, a remote procedure call layer over the codec, and a logger with an
    asynchronous back end.  This library models the parts below in Rocq and
    proves what makes them correct.  Sources are given relative to src/.

    ** How the program is modelled

    - Pure functions are Gallina functions; operations on an object are functions
      from the state of the object to the new one.  Undefined behaviour, a failed
      [assert], an uncaught exception and [abort] are [None]; a theorem that
      gives [Some] therefore says that none of them happens.
    - Unsigned integers are [Z]s with their wrap-around written out ([u8] to
      [u64] of Prelude); signed overflow is undefined where it can occur
      ([TimeStamp.sint]).  Memory is a list of bytes, read and written with
      bounds checked ([mem_read], [mem_write]), or a finite map from pointers to
      objects where pointers are shared (ForwardList, Timer, Poller, MemPool).
    - System calls, clocks, the allocator and third-party code (protobuf,
      kvarint, libc's calendar) are arguments: their results are given to the
      operation, or they are functions with named hypotheses or classes for what
      the code relies on.
    - Threads are transition systems whose steps are the actions between two
      points at which threads can interleave; a critical section is one step.
    - Loops that are not structural take fuel.  [Timer], [EventLoop] and the
      codecs compute it from the state (one unit per frame, timer or functor, all
      of which are consumed), the rendering of integers uses 20 rounds for at
      most 20 digits, the searches of StringView the size of the block.  Theorems
      are of the form "the result is [Some]", so fuel that ran out would falsify
      them; loops of the source that do not end are shown to run out of any fuel.

    ** The files

    Prelude: notations, tactics, hints, machine integers, slices of lists, memory.

    Containers and bytes.
    - Endian: conversions of kanon/linux/core/util/endian_api.h.
    - StringView: kanon/string/string_view.h; searches, comparison with and
      without case, split.
    - StringViewTypes: programs over its constructors, modifiers and queries,
      [split] and every search included, are type sound; the contract of each query
      is what its code relies on.
    - Buffer: kanon/buffer/buffer.h with the array it stores in
      (kanon/algo/reserved_array.h) and [BufferReadFromFd]; it refines a queue of
      bytes, and [ReserveWriteSpace] fails exactly where its subtraction wraps.
    - ForwardList, ForwardListAlgo, ForwardListRange, ForwardListSort:
      kanon/algo/forward_list.h and forward_list/*; the pointer representation,
      every algorithm on it, ranges over the class [InputIter], copies and moves,
      both sorts; runs of operations compute what they compute on lists of values.
    - ChunkList: kanon/buffer/chunk_list.h, the output buffer, over the values of
      the lists above, with [ChunkListWriteFd].
    - MemPool, LinearPool: kanon/mem/fixed_chunk_memory_pool.h and
      linear_fixed_memory_pool.h at the level of addresses: chunks in use never
      overlap and none is lost, for chunk sizes whose block does not wrap in size_t.
    - ObjectPool: kanon/mem/object_memory_pool.h and object_pool_allocator.h over
      MemPool, and the accesses of the pool one by one, by one thread and by two.
    - RingBuffer: kanon/buffer/ring_buffer.h with the mappings of its file; a queue
      under [emplace] and [AdvanceRead] as long as it stays in the first mapping,
      which is all it really has; [Append] writes over its oldest elements.
    - ReservedArray: kanon/algo/reserved_array.h over class types whose
      constructors may throw (Buffer has the array of chars), in a monad of
      exceptions and undefined behaviour; which operations undo what they did
      before an exception, for sizes in bytes that fit size_t.
    - Any, UniqueAny: kanon/util/any.h, unique_any.h and raw_any.h; objects with
      holders on the heap are values, each holder owned once.

    The reactor.
    - Timer: kanon/net/timer/*, kanon/linux/net/timer/timer_queue.cc; callers hold
      the handles that adding a timer gave them; no timer is used after it was
      deleted, expirations run the right callbacks in order.
    - Poller: kanon/linux/net/channel.cc, poller.cc, epoller.cc; both
      demultiplexers implement the contract [implements_PollerBase], which says what
      an update and a poll do and on which states they fail.
    - EventLoop: kanon/net/event_loop.cc; no wakeup is lost, functors run in
      order, and everything queued is run, whatever was queued before the loop starts.
    - LoopTimers: the timer entry points of event_loop.* over Timer and EventLoop;
      timers added by any thread reach the queue of the loop.
    - Connection: kanon/net/connection/connection_base.*; the byte stream, with
      the messages a failed write(2) loses set aside in [refused], the life cycle and
      the draining of the output.
    - Connector, Client, Acceptor, Server: kanon/net/connector.cc, tcp_client.cc,
      acceptor.cc, tcp_server.cc, event_loop_pool.cc; descriptors, the client's
      single connection (published and established in two steps, between which other
      threads may call [Disconnect] and [Stop]), the progress of the accept queue, the
      server's registry.
    - InetAddr: kanon/net/inet_addr.* and the addresses of sock_api.*; an address
      printed and parsed is the same address, over the class [AddrText] of what
      inet_ntop and inet_pton promise.
    - Threads: kanon/thread/thread.*, thread_pool.*, count_down_latch.h,
      condition.h and the handshake of kanon/net/event_loop_thread.cc.
    - Locks: kanon/thread/mutex_lock.h, rw_lock.*, condition.cc; writers exclude,
      and no wakeup of the read-write lock is lost.

    Messages.
    - Stripes, XXHash, XXH64: XXH32 and XXH64 of third-party/xxHash/xxhash.h,
      one-shot and streaming, over what they share.
    - XXH3, XXH128, XXH3Stream: XXH3 of the same file with the scalar kernels, of 64
      and 128 bits, its secrets and its streaming state; digests of an input in any
      pieces are the one-shot hashes.
    - Xxhsum, XxhsumMain: the checksum program third-party/xxHash/cli/xxhsum.c; the
      check of a checksum file decides what it promises, and the lines one run prints
      a second run verifies, for names without a newline other than [stdin].
    - Codec: kanon/protobuf/chunk_stream.cc and generic_pb_codec.cc; round trip in
      any segmentation, soundness on arbitrary bytes.
    - Codec2: kanon/protobuf/protobuf_codec2.cc, the same with a varint header, for
      segmentations that neither stop behind a header nor fill the limit.
    - EndToEnd: the codec over a pair of connections.
    - LengthCodec, FileTransfer: example/length_codec, the chat server and
      example/file_transfer; a file sent by the client arrives in any segmentation.
    - Rpc: kanon/rpc/*; [CallMethod] reads its id, counts up and submits in three
      steps; every call is answered at most once while ids of concurrent calls differ.

    Text and logging.
    - FixedBuffer: kanon/string/fixed_buffer.*, lexical_stream.h.
    - Convert: kanon/string/lexical_cast.h, string_view_util.*, fmt_stream.h,
      string_util.h; integers survive the way to text and back.
    - TimeStamp: kanon/util/time_stamp.*.
    - Logger: kanon/log/logger.*, kanon/thread/current_thread.h; the cached prefix
      of a line is the uncached one, and the text of an error is what [strerror_r]
      leaves in the thread's array.
    - LogFile, AsyncLog: kanon/log/append_file.*, log_file.*, async_log.*; the
      class [LogSink] is what a log file promises to the asynchronous log.

    ** The theorems

    Most components have an invariant kept by their operations ([buf_wf], [cl_wf],
    [tq_wf], [conn_inv], [rw_inv], [pool_inv], ...).  On top of them: refinement of
    the representations to queues, lists, values and lines of text (Buffer,
    RingBuffer, ForwardListSort, Poller, FixedBuffer, Logger, AsyncLog, Any); type
    soundness (StringViewTypes); safety of whole runs (Timer, LoopTimers, MemPool,
    LinearPool, Connection, Connector, Client, Server, LogFile, Rpc, Locks);
    exception safety (ReservedArray); progress (EventLoop, Connection, Acceptor)
    and termination (LengthCodec); round trips (Convert, InetAddr, Codec, Codec2,
    FileTransfer, XxhsumMain); and the compositions of codec and connections
    (EndToEnd) and of event loop and timers (LoopTimers).
    The codecs share one delivery lemma, [Codec.serve_room]: a receiver that
    handles whole frames and waits for the rest of a partial one handles a stream
    of frames however it is cut, as long as each segment fits. Sections called Defects prove behaviour of the
    code that its comments or callers do not expect; the hypotheses of the
    theorems keep clear of it, and say so.

    ** Not modelled

    - Windows: kanon/win and the Windows branches of shared files.
    - Wrappers of single system calls: socket, the socket options of sock_api,
      signal and process utilities.  Their results are arguments here.
    - Floating point: operators of TimeStamp that take a double, the text of a
      double, number bases other than ten.
    - Language utilities with no state of their own (noncopyable, macros, ptr.h),
      thin layers over the C++ library (atomics, thread-local storage, weak
      callbacks).
    - The vector kernels of XXH3, written in intrinsics, the benchmarks and messages of
      xxhsum, and the test programs of third-party/xxHash.
    - The memcache example, written against an interface the library no longer
      has, the examples of a few lines (echo, discard, daytime), tests, benchmarks
      and generated protobuf code.
*)

From Stdlib Require Import ZArith Lia Strings.Byte.
From Stdlib Require Export Init.Byte.
From stdpp Require Export base tactics list option numbers strings.
From stdpp Require Import countable.

#[export] Set Default Goal Selector "!".
#[export] Set Warnings "-clear-no-such-hyp".

(** ** Notations of the development

    An operation that may hit undefined behaviour, a failed [assert] or an
    uncaught exception returns [None]; sequencing is stdpp's option monad. *)

Declare Scope kanon_scope.
Delimit Scope kanon_scope with kanon.

Definition check (b : bool) : option unit := if b then Some tt else None.

Notation "'assert!' b ; k" := (mbind (fun _ : unit => k) (check b))
  (at level 20, b at level 100, k at level 200, right associativity) : kanon_scope.

Open Scope kanon_scope.
Open Scope Z_scope.

(** ** Hints and tactics *)

Create HintDb kanon.
Create Rewrite HintDb kanon_rw.

(** Consumes the hypotheses that say a monadic computation returned. *)
Ltac inv_monad :=
  repeat match goal with
  | H : check ?b ≫= _ = Some _ |- _ =>
      let E := fresh "Hchk" in destruct b eqn:E; cbn [check mbind option_bind] in H; [|discriminate H]
  | H : ?m ≫= _ = Some _ |- _ =>
      let E := fresh "Hrun" in destruct m eqn:E; cbn [mbind option_bind] in H; [|discriminate H]
  | H : Some _ = Some _ |- _ => injection H as H; try subst
  | H : (if ?b then _ else None) = Some _ |- _ =>
      let E := fresh "Hchk" in destruct b eqn:E; [|discriminate H]
  end.

(** Turns boolean comparisons of the context and the goal into propositions. *)
Ltac bool_prop :=
  repeat match goal with
  | H : (_ && _)%bool = true |- _ => apply andb_prop in H; destruct H
  | H : (_ || _)%bool = false |- _ => apply orb_false_elim in H; destruct H
  | H : negb _ = true |- _ => apply negb_true_iff in H
  | H : negb _ = false |- _ => apply negb_false_iff in H
  | H : (_ <=? _)%Z = true |- _ => apply Z.leb_le in H
  | H : (_ <=? _)%Z = false |- _ => apply Z.leb_gt in H
  | H : (_ <? _)%Z = true |- _ => apply Z.ltb_lt in H
  | H : (_ <? _)%Z = false |- _ => apply Z.ltb_ge in H
  | H : (_ =? _)%Z = true |- _ => apply Z.eqb_eq in H
  | H : (_ =? _)%Z = false |- _ => apply Z.eqb_neq in H
  | H : (_ <=? _)%nat = true |- _ => apply Nat.leb_le in H
  | H : (_ <=? _)%nat = false |- _ => apply Nat.leb_gt in H
  | H : (_ <? _)%nat = true |- _ => apply Nat.ltb_lt in H
  | H : (_ <? _)%nat = false |- _ => apply Nat.ltb_ge in H
  | H : (_ =? _)%nat = true |- _ => apply Nat.eqb_eq in H
  | H : (_ =? _)%nat = false |- _ => apply Nat.eqb_neq in H
  end.

(** Splits on the innermost boolean comparison of the goal. *)
Ltac case_bool :=
  match goal with
  | |- context [if ?b then _ else _] =>
      lazymatch b with
      | context [if _ then _ else _] => fail
      | _ => let E := fresh "Hb" in destruct b eqn:E; bool_prop
      end
  end.

(** Pushes [length] through concatenations, everywhere. *)
Ltac len_simpl :=
  repeat first [progress rewrite ?length_app in * | progress cbn [length] in *].

Lemma check_true (b : bool) : b = true -> check b = Some tt.
Proof. by intros ->. Qed.

Lemma check_bind_true {A} (b : bool) (k : option A) :
  b = true -> (assert! b; k) = k.
Proof. by intros ->. Qed.

(** ** Machine words *)

(** Reduction of an unsigned integer of [w] bits. *)
Definition wrap (w z : Z) : Z := z mod 2 ^ w.

Abbreviation u8 := (wrap 8).
Abbreviation u16 := (wrap 16).
Abbreviation u32 := (wrap 32).
Abbreviation u64 := (wrap 64).

(** Two's-complement reading of the low [w] bits. *)
Definition swrap (w z : Z) : Z := let half := 2 ^ (w - 1) in wrap w (z + half) - half.

(** [static_cast<size_type>(-1)] *)
Definition npos64 : Z := 2 ^ 64 - 1.

Lemma wrap_range w z : 0 <= w -> 0 <= wrap w z < 2 ^ w.
Proof. intros. apply Z.mod_pos_bound. lia. Qed.

Lemma wrap_id w z : 0 <= z < 2 ^ w -> wrap w z = z.
Proof. apply Z.mod_small. Qed.

Lemma wrap_wrap w z : 0 <= w -> wrap w (wrap w z) = wrap w z.
Proof. intros. apply Z.mod_mod. lia. Qed.

Lemma u64_id z : 0 <= z < 2 ^ 64 -> u64 z = z.
Proof. apply wrap_id. Qed.

Lemma u32_id z : 0 <= z < 2 ^ 32 -> u32 z = z.
Proof. apply wrap_id. Qed.

Lemma u64_neg z : - 2 ^ 64 <= z < 0 -> u64 z = z + 2 ^ 64.
Proof.
  intros. unfold wrap. rewrite <- (Z_mod_plus_full z 1).
  rewrite Z.mod_small; lia.
Qed.

Lemma wrap_add_l w x y : wrap w (wrap w x + y) = wrap w (x + y).
Proof. unfold wrap. by rewrite Zplus_mod_idemp_l. Qed.

Lemma wrap_add_r w x y : wrap w (x + wrap w y) = wrap w (x + y).
Proof. unfold wrap. by rewrite Zplus_mod_idemp_r. Qed.

Lemma wrap_mul_l w x y : wrap w (wrap w x * y) = wrap w (x * y).
Proof. unfold wrap. by rewrite Zmult_mod_idemp_l. Qed.

#[export] Hint Rewrite wrap_add_l wrap_add_r wrap_mul_l : kanon_rw.

(** ** Bytes *)

#[export] Instance byte_eq_dec : EqDecision byte := Byte.byte_eq_dec.

Definition byte_to_Z (b : byte) : Z := Z.of_N (Byte.to_N b).

(** The conversion of an integer to [unsigned char]. *)
Definition Z_to_byte (z : Z) : byte :=
  match Byte.of_N (Z.to_N (z mod 256)) with Some b => b | None => x00 end.

Lemma byte_to_Z_range b : 0 <= byte_to_Z b < 256.
Proof. unfold byte_to_Z. pose proof (Byte.to_N_bounded b). lia. Qed.

Lemma byte_to_Z_to_byte z : byte_to_Z (Z_to_byte z) = z mod 256.
Proof.
  unfold byte_to_Z, Z_to_byte.
  pose proof (Z.mod_pos_bound z 256 ltac:(lia)) as Hz.
  destruct (Byte.of_N _) as [b|] eqn:E.
  - apply Byte.to_of_N in E. rewrite E. lia.
  - apply Byte.of_N_None_iff in E. lia.
Qed.

Lemma Z_to_byte_to_Z b : Z_to_byte (byte_to_Z b) = b.
Proof.
  unfold Z_to_byte, byte_to_Z. pose proof (Byte.to_N_bounded b).
  rewrite Z.mod_small by lia. by rewrite N2Z.id, Byte.of_to_N.
Qed.

Lemma byte_to_Z_inj b c : byte_to_Z b = byte_to_Z c -> b = c.
Proof. intros H. rewrite <- (Z_to_byte_to_Z b), H. apply Z_to_byte_to_Z. Qed.

#[export] Instance byte_countable : Countable byte := inj_countable' byte_to_Z Z_to_byte Z_to_byte_to_Z.

#[export] Hint Rewrite byte_to_Z_to_byte Z_to_byte_to_Z : kanon_rw.

(** The bytes of a string literal, without the terminator. *)
Definition str (s : string) : list byte := String.list_byte_of_string s.
Arguments str s%_string.

(** ** Lists indexed by machine integers *)

Definition zlen {A} (l : list A) : Z := Z.of_nat (length l).

(** The [n] elements from offset [i] on. *)
Definition slice {A} (i n : Z) (l : list A) : list A :=
  take (Z.to_nat n) (drop (Z.to_nat i) l).

(** The list with the elements from offset [i] on replaced by [ys]. *)
Definition overwrite {A} (i : Z) (ys l : list A) : list A :=
  take (Z.to_nat i) l ++ ys ++ drop (Z.to_nat i + length ys) l.

(** Reading and writing a block of memory; outside of it the access is
    undefined. *)
Definition mem_read {A} (m : list A) (off n : Z) : option (list A) :=
  if (0 <=? off) && (0 <=? n) && (off + n <=? zlen m)
  then Some (slice off n m) else None.

Definition mem_write {A} (m : list A) (off : Z) (bs : list A) : option (list A) :=
  if (0 <=? off) && (off + zlen bs <=? zlen m)
  then Some (overwrite off bs m) else None.

(** [memmove]: also what [std::copy] does on bytes. *)
Definition mem_move {A} (m : list A) (src n dst : Z) : option (list A) :=
  bs ← mem_read m src n; mem_write m dst bs.

Section lists.
Context {A : Type}.
Implicit Types l m ys bs : list A.

Lemma zlen_nil : zlen (@nil A) = 0.
Proof. done. Qed.

Lemma zlen_cons (x : A) l : zlen (x :: l) = zlen l + 1.
Proof. unfold zlen. cbn. lia. Qed.

Lemma zlen_app l m : zlen (l ++ m) = zlen l + zlen m.
Proof. unfold zlen. rewrite length_app. lia. Qed.

Lemma zlen_nonneg l : 0 <= zlen l.
Proof. unfold zlen. lia. Qed.

Lemma zlen_take n l : zlen (take (Z.to_nat n) l) = Z.min (Z.max 0 n) (zlen l).
Proof. unfold zlen. rewrite length_take. lia. Qed.

Lemma zlen_drop n l : zlen (drop (Z.to_nat n) l) = Z.max 0 (zlen l - Z.max 0 n).
Proof. unfold zlen. rewrite length_drop. lia. Qed.

Lemma zlen_0_inv l : zlen l = 0 -> l = [].
Proof. destruct l; [done|]. unfold zlen. cbn. lia. Qed.

Lemma zlen_slice i n l :
  0 <= i -> 0 <= n -> i + n <= zlen l -> zlen (slice i n l) = n.
Proof. unfold zlen, slice. rewrite length_take, length_drop. lia. Qed.

Lemma slice_0 i l : slice i 0 l = [].
Proof. unfold slice. by rewrite take_0. Qed.

Lemma slice_full l n : n = zlen l -> slice 0 n l = l.
Proof.
  intros ->. unfold slice, zlen. rewrite Nat2Z.id. cbn. rewrite drop_0.
  by rewrite firstn_all.
Qed.

Lemma slice_split i n k l :
  0 <= i -> 0 <= k <= n -> slice i n l = slice i k l ++ slice (i + k) (n - k) l.
Proof.
  intros Hi Hk. unfold slice.
  replace (Z.to_nat n) with (Z.to_nat k + Z.to_nat (n - k))%nat by lia.
  rewrite <- take_take_drop, drop_drop. do 3 f_equal. lia.
Qed.

Lemma take_slice i n k l :
  0 <= k <= n -> take (Z.to_nat k) (slice i n l) = slice i k l.
Proof. intros. unfold slice. rewrite take_take. f_equal. lia. Qed.

Lemma drop_slice i n k l :
  0 <= i -> 0 <= k <= n -> drop (Z.to_nat k) (slice i n l) = slice (i + k) (n - k) l.
Proof.
  intros. unfold slice. rewrite skipn_firstn_comm.
  rewrite drop_drop. f_equal; [|f_equal]; lia.
Qed.

Lemma slice_slice i k b n l :
  0 <= b -> 0 <= i -> i + k <= n -> slice i k (slice b n l) = slice (b + i) k l.
Proof.
  intros. unfold slice. rewrite skipn_firstn_comm, take_take, drop_drop.
  f_equal; [|f_equal]; lia.
Qed.

Lemma drop_slice_eq i l : 0 <= i -> drop (Z.to_nat i) l = slice i (zlen l - i) l.
Proof.
  intros. unfold slice, zlen. rewrite take_ge; [done|]. rewrite length_drop. lia.
Qed.

Lemma slice_app_l i n l m :
  0 <= i -> 0 <= n -> i + n <= zlen l -> slice i n (l ++ m) = slice i n l.
Proof.
  unfold zlen, slice. intros.
  rewrite drop_app_le, take_app_le; [done| |lia].
  rewrite length_drop. lia.
Qed.

Lemma slice_take i n k l :
  0 <= i -> 0 <= n -> i + n <= k -> slice i n (take (Z.to_nat k) l) = slice i n l.
Proof.
  intros. unfold slice. rewrite skipn_firstn_comm, take_take. f_equal. lia.
Qed.

Lemma zlen_overwrite i ys l :
  0 <= i -> i + zlen ys <= zlen l -> zlen (overwrite i ys l) = zlen l.
Proof.
  unfold zlen, overwrite. intros.
  rewrite !length_app, length_take, length_drop. lia.
Qed.

Lemma slice_overwrite_eq i n ys l :
  0 <= i -> i + zlen ys <= zlen l -> n = zlen ys -> slice i n (overwrite i ys l) = ys.
Proof.
  unfold zlen, slice, overwrite. intros ? ? ->.
  rewrite drop_app_length' by (rewrite length_take; lia).
  rewrite take_app_length'; [done|lia].
Qed.

Lemma slice_overwrite_before i j n ys l :
  0 <= j -> 0 <= n -> j + n <= i -> i + zlen ys <= zlen l ->
  slice j n (overwrite i ys l) = slice j n l.
Proof.
  intros. pose proof (zlen_nonneg ys). unfold overwrite.
  rewrite slice_app_l; [apply slice_take; lia|lia|lia|].
  rewrite zlen_take. lia.
Qed.

Lemma slice_overwrite_after i j n ys l :
  0 <= i -> i + zlen ys <= j -> 0 <= n -> i + zlen ys <= zlen l ->
  slice j n (overwrite i ys l) = slice j n l.
Proof.
  unfold zlen, slice, overwrite. intros. f_equal.
  rewrite app_assoc, drop_app_ge; rewrite length_app, length_take; [|lia].
  rewrite drop_drop. f_equal. lia.
Qed.

Lemma mem_read_ok m off n :
  0 <= off -> 0 <= n -> off + n <= zlen m -> mem_read m off n = Some (slice off n m).
Proof.
  intros. unfold mem_read.
  by rewrite !(proj2 (Z.leb_le _ _)) by lia.
Qed.

Lemma mem_write_ok m off bs :
  0 <= off -> off + zlen bs <= zlen m -> mem_write m off bs = Some (overwrite off bs m).
Proof.
  intros. unfold mem_write. by rewrite !(proj2 (Z.leb_le _ _)) by lia.
Qed.

Lemma mem_read_Some m off n bs :
  mem_read m off n = Some bs ->
  0 <= off /\ 0 <= n /\ off + n <= zlen m /\ bs = slice off n m.
Proof. unfold mem_read. intros. inv_monad. bool_prop. auto. Qed.

Lemma mem_write_Some m off bs m' :
  mem_write m off bs = Some m' ->
  0 <= off /\ off + zlen bs <= zlen m /\ m' = overwrite off bs m.
Proof. unfold mem_write. intros. inv_monad. bool_prop. auto. Qed.

Lemma mem_move_ok m src n dst :
  0 <= src -> 0 <= n -> src + n <= zlen m -> 0 <= dst -> dst + n <= zlen m ->
  mem_move m src n dst = Some (overwrite dst (slice src n m) m).
Proof.
  intros. unfold mem_move. rewrite mem_read_ok by lia. cbn.
  rewrite mem_write_ok; [done|lia|]. rewrite zlen_slice; lia.
Qed.

End lists.

#[export] Hint Rewrite @zlen_nil @zlen_cons @zlen_app @zlen_take @zlen_drop : kanon_rw.
#[export] Hint Resolve zlen_nonneg byte_to_Z_range : kanon.
