(* ===== verification/Endian.v ===== *)
(** * Byte order: kanon/linux/core/util/endian_api.h

    The memory image of an unsigned integer on a little-endian host, and the
    conversions to and from network byte order that the buffers use.  [htobe*]
    and [be*toh] of <endian.h> reverse the bytes of their argument there. *)

From Stdlib Require Import ZArith Lia.
From S2P Require Import Prelude.

(** The object representation of an [n]-byte unsigned integer: what [memcpy]
    of the object copies. *)
Fixpoint le_bytes (n : nat) (z : Z) : list byte :=
  match n with
  | O => []
  | S n' => Z_to_byte z :: le_bytes n' (z / 256)
  end.

(** The integer an object representation stands for. *)
Fixpoint le_value (bs : list byte) : Z :=
  match bs with
  | [] => 0
  | b :: bs' => byte_to_Z b + 256 * le_value bs'
  end.

(** Big-endian image: the order on the wire. *)
Definition be_bytes (n : nat) (z : Z) : list byte := rev (le_bytes n z).
Definition be_value (bs : list byte) : Z := le_value (rev bs).

Definition bswap (n : nat) (z : Z) : Z := le_value (rev (le_bytes n z)).

Definition ToNetworkByteOrder8 (host8 : Z) : Z := host8.
Definition ToNetworkByteOrder16 (host16 : Z) : Z := bswap 2 host16.
Definition ToNetworkByteOrder32 (host32 : Z) : Z := bswap 4 host32.
Definition ToNetworkByteOrder64 (host64 : Z) : Z := bswap 8 host64.

Definition ToHostByteOrder8 (net8 : Z) : Z := net8.
Definition ToHostByteOrder16 (net16 : Z) : Z := bswap 2 net16.
Definition ToHostByteOrder32 (net32 : Z) : Z := bswap 4 net32.
Definition ToHostByteOrder64 (net64 : Z) : Z := bswap 8 net64.

(** ** Splitting and combining *)

Lemma length_le_bytes n z : length (le_bytes n z) = n.
Proof. revert z. induction n; intros; cbn; auto. Qed.

Lemma length_be_bytes n z : length (be_bytes n z) = n.
Proof. unfold be_bytes. by rewrite length_rev, length_le_bytes. Qed.

Lemma zlen_le_bytes n z : zlen (le_bytes n z) = Z.of_nat n.
Proof. unfold zlen. by rewrite length_le_bytes. Qed.

Lemma zlen_be_bytes n z : zlen (be_bytes n z) = Z.of_nat n.
Proof. unfold zlen. by rewrite length_be_bytes. Qed.

Lemma le_value_range bs : 0 <= le_value bs < 256 ^ zlen bs.
Proof.
  induction bs as [|b bs IH]; [cbv; split; congruence|]. cbn [le_value].
  rewrite zlen_cons, Z.pow_add_r, Z.pow_1_r by (try lia; apply zlen_nonneg).
  pose proof (byte_to_Z_range b). lia.
Qed.

Lemma le_value_bytes n z : le_value (le_bytes n z) = z mod 256 ^ Z.of_nat n.
Proof.
  revert z. induction n as [|n IH]; intros z; [cbn; by rewrite Z.mod_1_r|].
  cbn [le_bytes le_value]. rewrite IH, byte_to_Z_to_byte.
  rewrite Nat2Z.inj_succ, Z.pow_succ_r by lia.
  rewrite Z.rem_mul_r by lia. lia.
Qed.

Lemma le_bytes_value bs : le_bytes (length bs) (le_value bs) = bs.
Proof.
  induction bs as [|b bs IH]; [done|]. cbn [length le_bytes le_value].
  pose proof (byte_to_Z_range b).
  replace ((byte_to_Z b + 256 * le_value bs) / 256) with (le_value bs)
    by (Z.to_euclidean_division_equations; lia).
  rewrite IH. f_equal.
  apply byte_to_Z_inj. rewrite byte_to_Z_to_byte.
  rewrite Z.mul_comm, Z_mod_plus_full, Z.mod_small; lia.
Qed.

Lemma le_bytes_value' n bs : length bs = n -> le_bytes n (le_value bs) = bs.
Proof. intros <-. apply le_bytes_value. Qed.

Lemma le_value_app xs ys :
  le_value (xs ++ ys) = le_value xs + 256 ^ zlen xs * le_value ys.
Proof.
  induction xs as [|x xs IH]; [cbn [app le_value]; change (zlen []) with 0; lia|].
  cbn [app le_value]. rewrite IH, zlen_cons.
  rewrite Z.pow_add_r, Z.pow_1_r by (try lia; apply zlen_nonneg). lia.
Qed.

(** The bytes of the swapped integer are the bytes in reverse order. *)
Lemma le_bytes_bswap n z : le_bytes n (bswap n z) = be_bytes n z.
Proof.
  unfold bswap, be_bytes. apply le_bytes_value'.
  by rewrite length_rev, length_le_bytes.
Qed.

Lemma be_value_bytes n z : be_value (be_bytes n z) = z mod 256 ^ Z.of_nat n.
Proof. unfold be_value, be_bytes. by rewrite rev_involutive, le_value_bytes. Qed.

Lemma be_bytes_value n bs : length bs = n -> be_bytes n (be_value bs) = bs.
Proof.
  intros Hn. unfold be_value, be_bytes.
  rewrite le_bytes_value' by (by rewrite length_rev). apply rev_involutive.
Qed.

Lemma be_value_range bs : 0 <= be_value bs < 256 ^ zlen bs.
Proof.
  unfold be_value. pose proof (le_value_range (rev bs)).
  unfold zlen in *. by rewrite length_rev in *.
Qed.

Lemma bswap_le_value n bs : length bs = n -> bswap n (le_value bs) = be_value bs.
Proof. intros. unfold bswap, be_value. by rewrite le_bytes_value'. Qed.

Lemma bswap_involutive n z : bswap n (bswap n z) = z mod 256 ^ Z.of_nat n.
Proof.
  unfold bswap at 1. rewrite le_bytes_bswap. unfold be_bytes.
  by rewrite rev_involutive, le_value_bytes.
Qed.

#[export] Hint Rewrite zlen_le_bytes zlen_be_bytes : kanon_rw.

Lemma byte_order32_involutive z :
  0 <= z < 2 ^ 32 -> ToHostByteOrder32 (ToNetworkByteOrder32 z) = z.
Proof.
  intros. unfold ToHostByteOrder32, ToNetworkByteOrder32.
  rewrite bswap_involutive. by apply Z.mod_small.
Qed.
