(* ===== verification/StringView.v ===== *)
(** * kanon::StringView: kanon/string/string_view.h, string_view.cc

    A view is a pointer into a block of memory and a length.  The model keeps
    the block, the offset of [data_] in it and [len_], so that a read outside
    of the block is visible as [None].  The searches are the loops of the
    source; their specifications speak about the viewed bytes only. *)

From Stdlib Require Import ZArith Lia Sorted.
From S2P Require Import Prelude.

(** StringView::npos *)
Definition npos : Z := npos64.

Record StringView := mkView {
  block : list byte;   (** the object [data_] points into *)
  data_ : Z;           (** offset of [data_] in it *)
  len_ : Z
}.

(** The memory from [data_ + i] on, as the libc routines see it. *)
Definition ptr (v : StringView) (i : Z) : list byte :=
  drop (Z.to_nat (data_ v + i)) (block v).

(** [data_[i]] *)
Definition sv_at (v : StringView) (i : Z) : option byte :=
  if 0 <=? data_ v + i then block v !! Z.to_nat (data_ v + i) else None.

(** [at]: throws when the index is not below the length. *)
Definition at_ (v : StringView) (n : Z) : option byte :=
  if len_ v <=? n then None else sv_at v n.

Definition size (v : StringView) : Z := len_ v.
Definition empty (v : StringView) : bool := len_ v =? 0.
Definition front (v : StringView) : option byte := sv_at v 0.
Definition back (v : StringView) : option byte := sv_at v (u64 (len_ v - 1)).

Definition ToString (v : StringView) : option (list byte) :=
  mem_read (block v) (data_ v) (len_ v).

Definition remove_prefix (v : StringView) (n : Z) : StringView :=
  mkView (block v) (data_ v + n) (u64 (len_ v - n)).

Definition remove_suffix (v : StringView) (n : Z) : StringView :=
  mkView (block v) (data_ v) (u64 (len_ v - n)).

(** [copy] writes [count] bytes read from [data_ + pos] to [dst]. *)
Definition copy (v : StringView) (dst : list byte) (count pos : Z)
  : option (list byte * Z) :=
  if len_ v <=? pos then None else
  bs ← mem_read (block v) (data_ v + pos) count;
  dst' ← mem_write dst 0 bs;
  Some (dst', count).

Definition substr (v : StringView) (pos count : Z) : StringView :=
  mkView (block v) (data_ v + pos) (Z.min count (u64 (len_ v - pos))).

Definition substr_range (v : StringView) (begin end_ : Z) : StringView :=
  substr v begin (u64 (end_ - begin)).

(** ** libc comparisons *)

(** [strncmp(s1, s2, n) == 0] *)
Fixpoint strncmp_eq (n : nat) (s1 s2 : list byte) : option bool :=
  match n with
  | O => Some true
  | S n' =>
    match s1, s2 with
    | a :: s1', b :: s2' =>
      if decide (a = b)
      then if decide (a = x00) then Some true else strncmp_eq n' s1' s2'
      else Some false
    | _, _ => None
    end
  end.

(** The sign of [memcmp(s1, s2, n)]. *)
Fixpoint memcmp (n : nat) (s1 s2 : list byte) : option Z :=
  match n with
  | O => Some 0
  | S n' =>
    match s1, s2 with
    | a :: s1', b :: s2' =>
      if byte_to_Z a <? byte_to_Z b then Some (-1)
      else if byte_to_Z b <? byte_to_Z a then Some 1
      else memcmp n' s1' s2'
    | _, _ => None
    end
  end.

(** ** Search loops *)

(** [for (i = lo; i < hi; ++i) if (p(i)) return i; return npos;] with
    [fuel = hi - lo]. *)
Fixpoint scan_up (p : Z -> option bool) (fuel : nat) (i : Z) : option Z :=
  match fuel with
  | O => Some npos
  | S k => b ← p i; if (b : bool) then Some i else scan_up p k (i + 1)
  end.

(** [for (;; --i) { if (p(i)) return i; if (i == 0) break; } return npos;] *)
Fixpoint scan_down (p : Z -> option bool) (fuel : nat) (i : Z) : option Z :=
  match fuel with
  | O => None
  | S k =>
    b ← p i;
    if (b : bool) then Some i
    else if i =? 0 then Some npos else scan_down p k (i - 1)
  end.

(** [for (; i > 0; --i) if (p(i)) return i; return npos;] *)
Fixpoint scan_down_pos (p : Z -> option bool) (fuel : nat) (i : Z) : option Z :=
  match fuel with
  | O => None
  | S k =>
    if i <=? 0 then Some npos else
    b ← p i;
    if (b : bool) then Some i else scan_down_pos p k (i - 1)
  end.

(** Fuel that covers every index that can be read. *)
Definition down_fuel (v : StringView) : nat := (2 + length (block v))%nat.

Definition find (self v : StringView) (pos : Z) : option Z :=
  assert! (pos <=? len_ self);
  if len_ v <=? len_ self then
    let n := len_ self - len_ v + 1 in
    scan_up (fun i => strncmp_eq (Z.to_nat (len_ v)) (ptr self i) (ptr v 0))
      (Z.to_nat (n - pos)) pos
  else Some npos.

Definition find_char (self : StringView) (c : byte) (pos : Z) : option Z :=
  scan_up (fun i => x ← sv_at self i; Some (bool_decide (c = x)))
    (Z.to_nat (len_ self - pos)) pos.

Definition rfind (self v : StringView) (pos : Z) : option Z :=
  if empty v then Some npos else
  scan_down (fun len =>
      x ← sv_at self len; f ← front v;
      if bool_decide (x = f) && (len_ v <=? u64 (len_ self - len)) then
        r ← memcmp (Z.to_nat (len_ v)) (ptr self len) (ptr v 0);
        Some (r =? 0)
      else Some false)
    (down_fuel self) (Z.min (u64 (len_ self - 1)) pos).

Definition rfind_char (self : StringView) (c : byte) (pos : Z) : option Z :=
  scan_down (fun i => x ← sv_at self i; Some (bool_decide (x = c)))
    (down_fuel self) (Z.min (u64 (len_ self - 1)) pos).

Definition contains (self v : StringView) : option bool :=
  r ← find self v 0; Some (negb (r =? npos)).

Definition contains_char (self : StringView) (c : byte) : option bool :=
  r ← find_char self c 0; Some (negb (r =? npos)).

Definition starts_with (self v : StringView) : option bool :=
  if len_ v <=? len_ self then
    r ← memcmp (Z.to_nat (len_ v)) (ptr self 0) (ptr v 0); Some (r =? 0)
  else Some false.

Definition ends_with (self v : StringView) : option bool :=
  if len_ v <=? len_ self then
    r ← memcmp (Z.to_nat (len_ v)) (ptr self (len_ self - len_ v)) (ptr v 0);
    Some (r =? 0)
  else Some false.

Fixpoint in_range (c : byte) (bs : list byte) : bool :=
  match bs with
  | [] => false
  | x :: bs' => if decide (c = x) then true else in_range c bs'
  end.

Definition charInRange (c : byte) (sv : StringView) : option bool :=
  bs ← ToString sv; Some (in_range c bs).

Definition find_first_of (self v : StringView) (pos : Z) : option Z :=
  scan_up (fun i => x ← sv_at self i; charInRange x v)
    (Z.to_nat (len_ self - pos)) pos.

Definition find_first_not_of (self v : StringView) (pos : Z) : option Z :=
  scan_up (fun i => x ← sv_at self i; b ← charInRange x v; Some (negb b))
    (Z.to_nat (len_ self - pos)) pos.

(** [for (; i > 0;)]: the loop of [find_last_of(StringView)], whose index is
    never decremented; [None] stands for running out of [fuel]. *)
Fixpoint find_last_of_loop (p : Z -> option bool) (fuel : nat) (i : Z) : option Z :=
  match fuel with
  | O => None
  | S k =>
    if i <=? 0 then Some npos else
    b ← p i;
    if (b : bool) then Some i
    else if i =? 0 then Some npos else find_last_of_loop p k i
  end.

Definition find_last_of (fuel : nat) (self v : StringView) (pos : Z) : option Z :=
  if len_ self =? 0 then Some npos else
  find_last_of_loop (fun i => x ← sv_at self i; charInRange x v) fuel
    (Z.min (u64 (len_ self - 1)) pos).

(** [find_last_of(char)] returns its argument [pos], not the index. *)
Definition find_last_of_char (self : StringView) (c : byte) (pos : Z) : option Z :=
  if len_ self =? 0 then Some npos else
  r ← scan_down_pos (fun i => x ← sv_at self i; Some (bool_decide (x = c)))
        (down_fuel self) (Z.min (u64 (len_ self - 1)) pos);
  Some (if r =? npos then npos else pos).

Definition find_last_not_of (self v : StringView) (pos : Z) : option Z :=
  if len_ self =? 0 then Some npos else
  scan_down_pos (fun i => x ← sv_at self i; b ← charInRange x v; Some (negb b))
    (down_fuel self) (Z.min (u64 (len_ self - 1)) pos).

Definition find_last_not_of_char (self : StringView) (c : byte) (pos : Z) : option Z :=
  if len_ self =? 0 then Some npos else
  scan_down_pos (fun i => x ← sv_at self i; Some (bool_decide (x = c)))
    (down_fuel self) (Z.min (u64 (len_ self - 1)) pos).

(** ** Comparison *)

Definition compare (self v : StringView) : option Z :=
  let n := if len_ self <? len_ v then len_ self else len_ v in
  r ← memcmp (Z.to_nat n) (ptr self 0) (ptr v 0);
  Some (if r =? 0 then
          if len_ self <? len_ v then -1 else if len_ v <? len_ self then 1 else r
        else r).

(** operator==, operator< and operator<= *)
Definition sv_eq (lhs rhs : StringView) : option bool :=
  if len_ lhs =? len_ rhs then
    r ← memcmp (Z.to_nat (len_ lhs)) (ptr lhs 0) (ptr rhs 0); Some (r =? 0)
  else Some false.

Definition sv_lt (lhs rhs : StringView) : option bool :=
  r ← compare lhs rhs; Some (r <? 0).

Definition sv_le (lhs rhs : StringView) : option bool :=
  b ← sv_lt rhs lhs; Some (negb b).

Definition sv_ne (lhs rhs : StringView) : option bool := b ← sv_eq lhs rhs; Some (negb b).
Definition sv_gt (lhs rhs : StringView) : option bool := sv_lt rhs lhs.
Definition sv_ge (lhs rhs : StringView) : option bool := b ← sv_lt lhs rhs; Some (negb b).

(** ** Single characters *)

(** The value of a [char], which is signed. *)
Definition char_value (c : byte) : Z := swrap 8 (byte_to_Z c).

Definition starts_with_char (self : StringView) (c : byte) : option bool :=
  if 1 <=? len_ self then x ← sv_at self 0; Some (bool_decide (x = c)) else Some false.

Definition ends_with_char (self : StringView) (c : byte) : option bool :=
  if 1 <=? len_ self then x ← sv_at self (u64 (len_ self - 1)); Some (bool_decide (x = c)) else Some false.

Definition find_first_of_char (self : StringView) (c : byte) (pos : Z) : option Z :=
  scan_up (fun i => x ← sv_at self i; Some (bool_decide (x = c))) (Z.to_nat (len_ self - pos)) pos.

Definition find_first_not_of_char (self : StringView) (c : byte) (pos : Z) : option Z :=
  scan_up (fun i => x ← sv_at self i; Some (negb (bool_decide (x = c)))) (Z.to_nat (len_ self - pos)) pos.

Definition compare_char (self : StringView) (c : byte) : option Z :=
  if len_ self <? 1 then Some (-1) else
  x ← sv_at self 0;
  Some (if char_value x <? char_value c then -1
        else if char_value c <? char_value x then 1
        else if len_ self =? 1 then 0 else 1).

(** ** Upper and lower case, in the C locale *)

Definition toupper (z : Z) : Z := if (97 <=? z) && (z <=? 122) then z - 32 else z.
Definition tolower (z : Z) : Z := if (65 <=? z) && (z <=? 90) then z + 32 else z.
Definition byte_lower (c : byte) : byte := Z_to_byte (tolower (byte_to_Z c)).
Definition byte_upper (c : byte) : byte := Z_to_byte (toupper (byte_to_Z c)).

Definition ToUpperString (v : StringView) : option (list byte) := map byte_upper <$> ToString v.
Definition ToLowerString (v : StringView) : option (list byte) := map byte_lower <$> ToString v.

(** The sign of [strncasecmp(s1, s2, n)]. *)
Fixpoint StrNCaseCompare (n : nat) (s1 s2 : list byte) : option Z :=
  match n with
  | O => Some 0
  | S n' =>
    match s1, s2 with
    | a :: s1', b :: s2' =>
      if byte_to_Z (byte_lower a) <? byte_to_Z (byte_lower b) then Some (-1)
      else if byte_to_Z (byte_lower b) <? byte_to_Z (byte_lower a) then Some 1
      else if decide (a = x00) then Some 0 else StrNCaseCompare n' s1' s2'
    | _, _ => None
    end
  end.

Definition caseCompare (self v : StringView) : option Z :=
  let n := if len_ self <? len_ v then len_ self else len_ v in
  r ← StrNCaseCompare (Z.to_nat n) (ptr self 0) (ptr v 0);
  Some (if r =? 0 then
          if len_ self <? len_ v then -1 else if len_ v <? len_ self then 1 else r
        else r).

(** [caseCompare(char)]: the last test is against the character itself. *)
Definition caseCompare_char (self : StringView) (c : byte) : option Z :=
  x ← sv_at self 0;
  let data_0 := toupper (char_value x) in
  let c' := toupper (char_value c) in
  Some (if (len_ self <? 1) || (data_0 <? c') then -1
        else if c' <? data_0 then 1
        else if (data_0 =? char_value c) && (len_ self =? 1) then 0 else 1).

(** ** split *)

Fixpoint split_loop (fuel : nat) (self spliter : StringView)
    (indicator_begin indicator_end : Z) : option (list (list byte)) :=
  match fuel with
  | O => None
  | S k =>
    let indicator_end := if indicator_end =? npos then len_ self else indicator_end in
    str ← ToString (substr self indicator_begin (u64 (indicator_end - indicator_begin)));
    if indicator_end =? len_ self then Some [str] else
    let indicator_begin := indicator_end + size spliter in
    indicator_end ← find self spliter indicator_begin;
    ret ← split_loop k self spliter indicator_begin indicator_end;
    Some (str :: ret)
  end.

Definition split (fuel : nat) (self spliter : StringView) : option (list (list byte)) :=
  indicator_end ← find self spliter 0;
  split_loop fuel self spliter 0 indicator_end.

(** ** Well-formed views *)

Definition content (v : StringView) : list byte := slice (data_ v) (len_ v) (block v).

(** The view lies in its block, and the block in the address space. *)
Record view_wf (v : StringView) : Prop := {
  view_data : 0 <= data_ v;
  view_len : 0 <= len_ v;
  view_end : data_ v + len_ v <= zlen (block v);
  view_block : zlen (block v) < 2 ^ 63
}.

#[export] Instance view_wf_dec v : Decision (view_wf v).
Proof.
  refine (cast_if (decide (0 <= data_ v /\ 0 <= len_ v /\
    data_ v + len_ v <= zlen (block v) /\ zlen (block v) < 2 ^ 63)));
  abstract (first [split; lia | intros []; lia]).
Defined.

(** A view of a whole string. *)
Definition view_of (bs : list byte) : StringView := mkView bs 0 (zlen bs).

(** [needle] occurs in [hay] at offset [i]. *)
Definition occurs_at (needle hay : list byte) (i : Z) : Prop :=
  0 <= i /\ i + zlen needle <= zlen hay /\ slice i (zlen needle) hay = needle.

(** The result of a forward search of [P] in [[lo, hi)]. *)
Definition first_in (P : Z -> Prop) (lo hi r : Z) : Prop :=
  (r = npos /\ forall i, lo <= i < hi -> ~ P i) \/
  (lo <= r < hi /\ P r /\ forall i, lo <= i < r -> ~ P i).

(** The result of a backward search of [P] in [[lo, hi]]. *)
Definition last_in (P : Z -> Prop) (lo hi r : Z) : Prop :=
  (r = npos /\ forall i, lo <= i <= hi -> ~ P i) \/
  (lo <= r <= hi /\ P r /\ forall i, r < i <= hi -> ~ P i).

Lemma content_len v : view_wf v -> zlen (content v) = len_ v.
Proof. intros []. by apply zlen_slice. Qed.

Lemma ToString_content v : view_wf v -> ToString v = Some (content v).
Proof. intros []. by apply mem_read_ok. Qed.

Lemma view_of_wf bs : zlen bs < 2 ^ 63 -> view_wf (view_of bs).
Proof. intros. pose proof (zlen_nonneg bs). split; cbn; lia. Qed.

Lemma content_view_of bs : content (view_of bs) = bs.
Proof. by apply slice_full. Qed.

Lemma substr_wf v pos count :
  view_wf v -> 0 <= pos <= len_ v -> 0 <= count ->
  view_wf (substr v pos count) /\
  content (substr v pos count) = slice pos (Z.min count (len_ v - pos)) (content v).
Proof.
  intros [] Hp Hc. unfold substr, content. cbn [block data_ len_].
  rewrite u64_id by lia. split; [split; cbn; lia|].
  unfold slice. rewrite skipn_firstn_comm, drop_drop, take_take.
  f_equal; [lia|]. f_equal. lia.
Qed.

(** ** Element access *)

Lemma lookup_drop_take {A} (l : list A) (d n i : Z) :
  0 <= d -> 0 <= i < n -> l !! Z.to_nat (d + i) = slice d n l !! Z.to_nat i.
Proof.
  intros. unfold slice. rewrite lookup_take_lt by lia.
  rewrite lookup_drop. f_equal. lia.
Qed.

Lemma sv_at_content v i :
  view_wf v -> 0 <= i < len_ v -> sv_at v i = content v !! Z.to_nat i.
Proof.
  intros [] Hi. unfold sv_at. rewrite (proj2 (Z.leb_le _ _)) by lia.
  by apply lookup_drop_take.
Qed.

Lemma sv_at_Some v i :
  view_wf v -> 0 <= i < len_ v -> exists b, sv_at v i = Some b /\ content v !! Z.to_nat i = Some b.
Proof.
  intros Hv Hi. rewrite sv_at_content by done.
  destruct (lookup_lt_is_Some_2 (content v) (Z.to_nat i)) as [b Hb]; [|eauto].
  pose proof (content_len v Hv). unfold zlen in *. lia.
Qed.

Lemma take_ptr v i n :
  view_wf v -> 0 <= i -> 0 <= n -> i + n <= len_ v ->
  take (Z.to_nat n) (ptr v i) = slice i n (content v) /\
  (Z.to_nat n <= length (ptr v i))%nat.
Proof.
  intros [] Hi Hn Hin. unfold ptr, content, slice, zlen in *. split.
  - rewrite skipn_firstn_comm, drop_drop, take_take. f_equal; [lia|]. f_equal. lia.
  - rewrite length_drop. lia.
Qed.

(** ** libc comparisons against list equality *)

Lemma strncmp_eq_spec n xs ys :
  (n <= length xs)%nat -> (n <= length ys)%nat -> x00 ∉ take n ys ->
  strncmp_eq n xs ys = Some (bool_decide (take n xs = take n ys)).
Proof.
  revert xs ys. induction n as [|n IH]; intros xs ys Hx Hy Hnul; [done|].
  destruct xs as [|a xs], ys as [|b ys]; cbn [length] in *; try lia.
  cbn [strncmp_eq take] in *. rewrite not_elem_of_cons in Hnul. destruct Hnul as [Hb Hn].
  destruct (decide (a = b)) as [->|Hab].
  - destruct (decide (b = x00)) as [->|_]; [done|].
    rewrite IH by (lia || done). f_equal. apply bool_decide_ext.
    split; [by intros ->|by intros [=]].
  - rewrite bool_decide_false; [done|]. by intros [=].
Qed.

Fixpoint lex_cmp (xs ys : list byte) : comparison :=
  match xs with
  | [] => match ys with [] => Eq | _ => Lt end
  | x :: xs' =>
    match ys with
    | [] => Gt
    | y :: ys' => match Z.compare (byte_to_Z x) (byte_to_Z y) with Eq => lex_cmp xs' ys' | c => c end
    end
  end.

Definition sign (c : comparison) : Z :=
  match c with Lt => -1 | Eq => 0 | Gt => 1 end.

Lemma memcmp_spec n xs ys :
  (n <= length xs)%nat -> (n <= length ys)%nat ->
  memcmp n xs ys = Some (sign (lex_cmp (take n xs) (take n ys))).
Proof.
  revert xs ys. induction n as [|n IH]; intros xs ys Hx Hy; [done|].
  destruct xs as [|a xs], ys as [|b ys]; cbn [length] in *; try lia.
  cbn [memcmp take lex_cmp].
  destruct (Z.compare_spec (byte_to_Z a) (byte_to_Z b)); repeat case_bool; try lia; try done.
  apply IH; lia.
Qed.

Lemma lex_cmp_eq xs ys : lex_cmp xs ys = Eq <-> xs = ys.
Proof.
  revert ys. induction xs as [|x xs IH]; intros [|y ys]; cbn; try done.
  destruct (Z.compare_spec (byte_to_Z x) (byte_to_Z y)) as [E|E|E].
  - apply byte_to_Z_inj in E as ->. rewrite IH. split; [by intros ->|by intros [=]].
  - split; [done|]. intros [= -> _]. lia.
  - split; [done|]. intros [= -> _]. lia.
Qed.

Lemma lex_cmp_antisym xs ys : lex_cmp ys xs = CompOpp (lex_cmp xs ys).
Proof.
  revert ys. induction xs as [|x xs IH]; intros [|y ys]; cbn; try done.
  rewrite (Z.compare_antisym (byte_to_Z x)).
  destruct (Z.compare (byte_to_Z x) (byte_to_Z y)); cbn; auto.
Qed.

Lemma lex_cmp_trans xs ys zs :
  lex_cmp xs ys = Lt -> lex_cmp ys zs = Lt -> lex_cmp xs zs = Lt.
Proof.
  revert ys zs. induction xs as [|x xs IH]; intros [|y ys] [|z zs]; cbn; try done.
  destruct (Z.compare_spec (byte_to_Z x) (byte_to_Z y)) as [Ex|Ex|Ex]; try done;
  destruct (Z.compare_spec (byte_to_Z y) (byte_to_Z z)) as [Ey|Ey|Ey]; try done;
  destruct (Z.compare_spec (byte_to_Z x) (byte_to_Z z)) as [Ez|Ez|Ez];
    try done; try lia; eauto.
Qed.

(** Comparing the common prefix first and then the lengths is comparing. *)
Lemma lex_cmp_prefix xs ys n :
  n = Nat.min (length xs) (length ys) ->
  lex_cmp xs ys =
  match lex_cmp (take n xs) (take n ys) with
  | Eq => Nat.compare (length xs) (length ys)
  | c => c
  end.
Proof.
  intros ->. revert ys. induction xs as [|x xs IH]; intros [|y ys]; try done.
  cbn [lex_cmp length Nat.min take]. rewrite IH.
  by destruct (Z.compare (byte_to_Z x) (byte_to_Z y)).
Qed.

(** ** The search loops *)

Lemma scan_up_spec (p : Z -> option bool) (P : Z -> Prop) lo hi :
  (forall i, lo <= i < hi -> exists b, p i = Some b /\ (b = true <-> P i)) ->
  exists r, scan_up p (Z.to_nat (hi - lo)) lo = Some r /\ first_in P lo hi r.
Proof.
  remember (Z.to_nat (hi - lo)) as k eqn:Hk. revert lo Hk.
  induction k as [|k IH]; intros lo Hk Hp; cbn [scan_up].
  { exists npos. split; [done|]. left. split; [done|]. intros. lia. }
  destruct (Hp lo) as (b & -> & Hb); [lia|]. cbn. destruct b.
  { exists lo. split; [done|]. right. split; [lia|]. split; [by apply Hb|]. intros. lia. }
  destruct (IH (lo + 1)) as (r & -> & Hr); [lia|intros; apply Hp; lia|].
  assert (~ P lo) as Hlo by (intros HP; by apply Hb in HP).
  assert (forall i, lo <= i -> i = lo \/ lo + 1 <= i) as Hcase by lia.
  exists r. split; [done|]. destruct Hr as [[-> Hn]|(Hr & HP & Hn)].
  - left. split; [done|]. intros i Hi. destruct (Hcase i) as [->|]; [lia|done|]. apply Hn. lia.
  - right. split; [lia|]. split; [done|].
    intros i Hi. destruct (Hcase i) as [->|]; [lia|done|]. apply Hn. lia.
Qed.

Lemma scan_down_spec (p : Z -> option bool) (P : Z -> Prop) fuel hi :
  0 <= hi < Z.of_nat fuel ->
  (forall i, 0 <= i <= hi -> exists b, p i = Some b /\ (b = true <-> P i)) ->
  exists r, scan_down p fuel hi = Some r /\ last_in P 0 hi r.
Proof.
  revert hi. induction fuel as [|k IH]; intros hi Hf Hp; [lia|]. cbn [scan_down].
  destruct (Hp hi) as (b & -> & Hb); [lia|]. cbn. destruct b.
  { exists hi. split; [done|]. right. split; [lia|]. split; [by apply Hb|]. intros. lia. }
  assert (~ P hi) as Hhi by (intros HP; by apply Hb in HP).
  case_bool.
  { exists npos. split; [done|]. left. split; [done|].
    intros i Hi. by replace i with hi by lia. }
  destruct (IH (hi - 1)) as (r & -> & Hr); [lia|intros; apply Hp; lia|].
  assert (forall i, i <= hi -> i = hi \/ i <= hi - 1) as Hcase by lia.
  exists r. split; [done|]. destruct Hr as [[-> Hn]|(Hr & HP & Hn)].
  - left. split; [done|]. intros i Hi. destruct (Hcase i) as [->|]; [lia|done|]. apply Hn. lia.
  - right. split; [lia|]. split; [done|].
    intros i Hi. destruct (Hcase i) as [->|]; [lia|done|]. apply Hn. lia.
Qed.

Lemma scan_down_pos_spec (p : Z -> option bool) (P : Z -> Prop) fuel hi :
  0 <= hi < Z.of_nat fuel ->
  (forall i, 1 <= i <= hi -> exists b, p i = Some b /\ (b = true <-> P i)) ->
  exists r, scan_down_pos p fuel hi = Some r /\ last_in P 1 hi r.
Proof.
  revert hi. induction fuel as [|k IH]; intros hi Hf Hp; [lia|]. cbn [scan_down_pos].
  case_bool.
  { exists npos. split; [done|]. left. split; [done|]. intros. lia. }
  destruct (Hp hi) as (b & -> & Hbp); [lia|]. cbn. destruct b.
  { exists hi. split; [done|]. right. split; [lia|]. split; [by apply Hbp|]. intros. lia. }
  assert (~ P hi) as Hhi by (intros HP; by apply Hbp in HP).
  destruct (IH (hi - 1)) as (r & -> & Hr); [lia|intros; apply Hp; lia|].
  assert (forall i, i <= hi -> i = hi \/ i <= hi - 1) as Hcase by lia.
  exists r. split; [done|]. destruct Hr as [[-> Hn]|(Hr & HP & Hn)].
  - left. split; [done|]. intros i Hi. destruct (Hcase i) as [->|]; [lia|done|]. apply Hn. lia.
  - right. split; [lia|]. split; [done|].
    intros i Hi. destruct (Hcase i) as [->|]; [lia|done|]. apply Hn. lia.
Qed.

Lemma first_in_wider P lo hi hi' r :
  hi <= hi' -> (forall i, hi <= i < hi' -> ~ P i) ->
  first_in P lo hi r -> first_in P lo hi' r.
Proof.
  intros Hh HP [[-> Hn]|(Hr & HPr & Hn)].
  - left. split; [done|]. intros i Hi. destruct (Z_lt_le_dec i hi); [apply Hn|apply HP]; lia.
  - right. split; [lia|]. by split.
Qed.

(** One probe of [find] decides whether the needle is there. *)
(** Where the first [c] is. *)
Definition splits_at (c : byte) (v : StringView) (r : Z) : Prop :=
  (r = npos /\ c ∉ content v) \/
  (0 <= r < len_ v /\ exists pre post, content v = pre ++ c :: post /\ zlen pre = r /\ c ∉ pre).

Lemma first_char c v r :
  view_wf v -> first_in (fun i => content v !! Z.to_nat i = Some c) 0 (len_ v) r -> splits_at c v r.
Proof.
  intros Hv [[-> Hn]|(Hr & Hp & Hb)]; [left; split; [done|]|right; split; [done|]].
  - intros [i Hi]%list_elem_of_lookup. apply (Hn (Z.of_nat i)); [|by rewrite Nat2Z.id].
    apply lookup_lt_Some in Hi. pose proof (content_len v Hv). unfold zlen in *. lia.
  - exists (take (Z.to_nat r) (content v)), (drop (S (Z.to_nat r)) (content v)). split_and!.
    + by rewrite take_drop_middle.
    + rewrite zlen_take, content_len by done. lia.
    + intros (i & Hi & Hlt)%elem_of_take. apply (Hb (Z.of_nat i)); [lia|by rewrite Nat2Z.id].
Qed.

Lemma find_char_split v c : view_wf v -> exists r, find_char v c 0 = Some r /\ splits_at c v r.
Proof.
  intros Hv. unfold find_char.
  destruct (scan_up_spec (fun i => x ← sv_at v i; Some (bool_decide (c = x)))
    (fun i => content v !! Z.to_nat i = Some c) 0 (len_ v)) as (r & -> & Hr).
  - intros i Hi. destruct (sv_at_Some v i Hv Hi) as (b & -> & ->). eexists. split; [done|].
    rewrite bool_decide_eq_true. naive_solver.
  - exists r. split; [done|]. by apply first_char.
Qed.

Lemma find_probe self v i :
  view_wf self -> view_wf v -> x00 ∉ content v ->
  0 <= i -> i + len_ v <= len_ self ->
  strncmp_eq (Z.to_nat (len_ v)) (ptr self i) (ptr v 0) =
  Some (bool_decide (slice i (len_ v) (content self) = content v)).
Proof.
  intros Hs Hv Hnul Hi Hin. pose proof (view_len _ Hv).
  destruct (take_ptr self i (len_ v)) as [Et El]; [done|lia..|].
  destruct (take_ptr v 0 (len_ v)) as [Et' El']; [done|lia..|].
  rewrite (slice_full (content v)) in Et' by (by rewrite content_len).
  rewrite strncmp_eq_spec; [by rewrite Et, Et'|done|done|by rewrite Et'].
Qed.

Lemma find_spec self v pos :
  view_wf self -> view_wf v -> x00 ∉ content v -> 0 <= pos <= len_ self ->
  exists r, find self v pos = Some r /\
    first_in (occurs_at (content v) (content self)) pos (len_ self + 1) r.
Proof.
  intros Hs Hv Hnul Hpos. unfold find.
  rewrite check_bind_true by (apply Z.leb_le; lia).
  assert (forall i, len_ self < i + len_ v -> ~ occurs_at (content v) (content self) i) as Hout.
  { intros i Hi (? & Hle & _). rewrite !content_len in Hle by done. lia. }
  pose proof (view_len _ Hv). case_bool.
  - destruct (scan_up_spec
      (fun i => strncmp_eq (Z.to_nat (len_ v)) (ptr self i) (ptr v 0))
      (occurs_at (content v) (content self)) pos (len_ self - len_ v + 1))
      as (r & Hr & Hfirst).
    { intros i Hi. eexists. split; [apply find_probe; (done || lia)|].
      rewrite bool_decide_eq_true. unfold occurs_at. rewrite !content_len by done.
      intuition lia. }
    exists r. split; [done|]. eapply first_in_wider; [| |done]; [lia|].
    intros i Hi. apply Hout. lia.
  - exists npos. split; [done|]. left. split; [done|]. intros i Hi. apply Hout. lia.
Qed.

Lemma rfind_spec self v pos :
  view_wf self -> view_wf v -> 0 < len_ self -> 0 < len_ v -> 0 <= pos ->
  exists r, rfind self v pos = Some r /\
    last_in (occurs_at (content v) (content self)) 0 (Z.min (len_ self - 1) pos) r.
Proof.
  intros Hs Hv Hls Hlv Hpos. unfold rfind, empty.
  pose proof (view_end _ Hs). pose proof (view_data _ Hs). pose proof (view_block _ Hs).
  rewrite (proj2 (Z.eqb_neq _ _)) by lia. rewrite u64_id by lia.
  apply scan_down_spec.
  { unfold down_fuel, zlen in *. lia. }
  intros i Hi. destruct (sv_at_Some self i Hs) as (b & -> & Hb); [lia|].
  destruct (sv_at_Some v 0 Hv) as (f & Ef & Hf); [lia|]. unfold front. rewrite Ef. cbn.
  rewrite u64_id by lia.
  destruct (bool_decide (b = f) && (len_ v <=? len_ self - i)) eqn:E; bool_prop.
  - destruct (take_ptr self i (len_ v)) as [Et El]; [done|lia..|].
    destruct (take_ptr v 0 (len_ v)) as [Et' El']; [done|lia..|].
    rewrite (slice_full (content v)) in Et' by (by rewrite content_len).
    rewrite memcmp_spec by done. cbn. eexists. split; [done|].
    rewrite Et, Et'. unfold occurs_at. rewrite !content_len by done.
    rewrite Z.eqb_eq. rewrite <- lex_cmp_eq.
    destruct (lex_cmp _ _); cbn; split; intros; try done; try lia.
    all: destruct_and?; done || (repeat split; lia).
  - eexists. split; [done|]. split; [done|]. intros (Hi0 & Hle & Hsl). exfalso.
    rewrite !content_len in * by done. apply andb_false_iff in E as [E|E]; bool_prop; [|lia].
    apply bool_decide_eq_false in E. apply E.
    rewrite <- Hsl, <- lookup_drop_take in Hf by lia.
    rewrite Z.add_0_r in Hf. congruence.
Qed.

(** ** Ordering of views *)

(** The common part decides, and the lengths where it does not; [f] maps the
    bytes that are compared. *)
Lemma compare_common (f : byte -> byte) self v n r :
  view_wf self -> view_wf v -> n = (if len_ self <? len_ v then len_ self else len_ v) ->
  r = sign (lex_cmp (map f (take (Z.to_nat n) (content self))) (map f (take (Z.to_nat n) (content v)))) ->
  (if r =? 0 then if len_ self <? len_ v then -1 else if len_ v <? len_ self then 1 else r else r)
  = sign (lex_cmp (map f (content self)) (map f (content v))).
Proof.
  intros Hs Hv En ->. pose proof (view_len _ Hs). pose proof (view_len _ Hv).
  assert (n = Z.min (len_ self) (len_ v)) as Em by (rewrite En; case_bool; lia).
  pose proof (content_len self Hs) as Ls. pose proof (content_len v Hv) as Lv.
  rewrite (lex_cmp_prefix (map f (content self)) (map f (content v)) (Z.to_nat n))
    by (rewrite !length_map; unfold zlen in *; lia).
  rewrite <- !firstn_map, !length_map. unfold zlen in *.
  destruct (lex_cmp (take _ _) _); cbn; try done.
  destruct (Nat.compare_spec (length (content self)) (length (content v)));
    repeat case_bool; cbn; lia.
Qed.

(** What a comparison of the common part of two views reads. *)
Lemma common_bytes self v n :
  view_wf self -> view_wf v -> n = (if len_ self <? len_ v then len_ self else len_ v) ->
  take (Z.to_nat n) (ptr self 0) = take (Z.to_nat n) (content self) /\
  take (Z.to_nat n) (ptr v 0) = take (Z.to_nat n) (content v) /\
  (Z.to_nat n <= length (ptr self 0))%nat /\ (Z.to_nat n <= length (ptr v 0))%nat.
Proof.
  intros Hs Hv En. pose proof (view_len _ Hs). pose proof (view_len _ Hv).
  assert (0 <= n <= Z.min (len_ self) (len_ v)) as Em by (rewrite En; case_bool; lia).
  destruct (take_ptr self 0 n) as [-> El]; [done|lia..|].
  by destruct (take_ptr v 0 n) as [-> El']; [done|lia..|].
Qed.

Lemma compare_spec self v :
  view_wf self -> view_wf v ->
  compare self v = Some (sign (lex_cmp (content self) (content v))).
Proof.
  intros Hs Hv. unfold compare. destruct (common_bytes self v _ Hs Hv eq_refl) as (E1 & E2 & L1 & L2).
  rewrite memcmp_spec, E1, E2 by done. cbn [mbind option_bind]. f_equal.
  rewrite <- (map_id (content self)), <- (map_id (content v)). eapply compare_common; [done|done|done|].
  by rewrite !map_id.
Qed.

Lemma StrNCaseCompare_spec n xs ys :
  (n <= length xs)%nat -> (n <= length ys)%nat -> x00 ∉ take n xs ->
  StrNCaseCompare n xs ys = Some (sign (lex_cmp (map byte_lower (take n xs)) (map byte_lower (take n ys)))).
Proof.
  revert xs ys. induction n as [|n IH]; intros xs ys Hx Hy Hn; [done|].
  destruct xs as [|a xs], ys as [|b ys]; cbn [length] in *; try lia.
  cbn [take] in Hn. rewrite not_elem_of_cons in Hn. cbn [StrNCaseCompare take map lex_cmp].
  destruct (Z.compare_spec (byte_to_Z (byte_lower a)) (byte_to_Z (byte_lower b))); repeat case_bool; try lia; try done.
  all: try (subst; exfalso; tauto). apply IH; tauto || lia.
Qed.

(** Views without NUL are compared by their bytes in lower case. *)
Lemma caseCompare_spec self v :
  view_wf self -> view_wf v -> x00 ∉ content self ->
  caseCompare self v = Some (sign (lex_cmp (map byte_lower (content self)) (map byte_lower (content v)))).
Proof.
  intros Hs Hv Hn. unfold caseCompare. destruct (common_bytes self v _ Hs Hv eq_refl) as (E1 & E2 & L1 & L2).
  rewrite StrNCaseCompare_spec, E1, E2; [|done|done|].
  - cbn [mbind option_bind]. f_equal. by eapply compare_common.
  - rewrite E1. intros Hin. apply Hn. by eapply elem_of_take in Hin as (i & Hi & _); eapply list_elem_of_lookup_2.
Qed.

Lemma sv_eq_spec lhs rhs :
  view_wf lhs -> view_wf rhs ->
  sv_eq lhs rhs = Some (bool_decide (content lhs = content rhs)).
Proof.
  intros Hl Hr. unfold sv_eq.
  pose proof (content_len lhs Hl) as Ll. pose proof (content_len rhs Hr) as Lr.
  pose proof (view_len _ Hl). case_bool.
  - destruct (take_ptr lhs 0 (len_ lhs)) as [Et El]; [done|lia..|].
    destruct (take_ptr rhs 0 (len_ lhs)) as [Et' El']; [done|lia..|].
    rewrite memcmp_spec by done. cbn. rewrite Et, Et', !slice_full by lia.
    f_equal. destruct (lex_cmp _ _) eqn:E.
    + apply lex_cmp_eq in E. by rewrite bool_decide_true.
    + rewrite bool_decide_false; [done|]. intros E'. apply lex_cmp_eq in E'. congruence.
    + rewrite bool_decide_false; [done|]. intros E'. apply lex_cmp_eq in E'. congruence.
  - rewrite bool_decide_false; [done|]. intros E. rewrite E in Ll. lia.
Qed.

Lemma sv_lt_spec lhs rhs :
  view_wf lhs -> view_wf rhs ->
  sv_lt lhs rhs = Some (bool_decide (lex_cmp (content lhs) (content rhs) = Lt)).
Proof.
  intros Hl Hr. unfold sv_lt. rewrite compare_spec by done. cbn.
  by destruct (lex_cmp _ _).
Qed.

(** ** split *)

Fixpoint join (sep : list byte) (pieces : list (list byte)) : list byte :=
  match pieces with
  | [] => []
  | [p] => p
  | p :: ps => p ++ sep ++ join sep ps
  end.

Lemma join_cons sep p ps : ps <> [] -> join sep (p :: ps) = p ++ sep ++ join sep ps.
Proof. by destruct ps. Qed.

Lemma occurs_at_slice sep l b n i :
  0 <= b -> 0 <= n -> b + n <= zlen l ->
  occurs_at sep (slice b n l) i -> occurs_at sep l (b + i) /\ i + zlen sep <= n.
Proof.
  intros Hb Hn Hl (Hi & Hle & Hs). rewrite zlen_slice in Hle by lia.
  rewrite slice_slice in Hs by lia. unfold occurs_at. repeat split; (lia || done).
Qed.

Section split.
Context (self sp : StringView).
Context (Hself : view_wf self) (Hsp : view_wf sp).
Context (Hnonempty : 0 < len_ sp) (Hnul : x00 ∉ content sp).

(** No occurrence of the separator starts in [b, e) of the text, so there is
    none in that piece. *)
Lemma piece_clean b e :
  0 <= b <= e -> e <= len_ self ->
  (forall i, b <= i < e -> ~ occurs_at (content sp) (content self) i) ->
  forall i, ~ occurs_at (content sp) (slice b (e - b) (content self)) i.
Proof.
  intros Hb He Hno i Hocc. pose proof (content_len _ Hself). pose proof (content_len _ Hsp).
  pose proof Hocc as (Hi & _).
  apply occurs_at_slice in Hocc as [Hocc Hle]; [|lia..].
  apply (Hno (b + i)); [lia|done].
Qed.

Lemma split_piece b e :
  0 <= b <= e -> e <= len_ self ->
  ToString (substr self b (u64 (e - b))) = Some (slice b (e - b) (content self)).
Proof.
  intros Hb He. pose proof (view_end _ Hself). pose proof (view_data _ Hself).
  pose proof (view_block _ Hself). rewrite u64_id by lia.
  destruct (substr_wf self b (e - b)) as [Hw Hc]; [done|lia..|].
  rewrite ToString_content, Hc by done. do 2 f_equal. lia.
Qed.

Lemma split_loop_spec fuel b e :
  0 <= b <= len_ self -> len_ self - b < Z.of_nat fuel ->
  first_in (occurs_at (content sp) (content self)) b (len_ self + 1) e ->
  exists ps, split_loop fuel self sp b e = Some ps /\ ps <> [] /\
    join (content sp) ps = slice b (len_ self - b) (content self) /\
    Forall (fun p => forall i, ~ occurs_at (content sp) p i) ps.
Proof.
  pose proof (content_len _ Hself) as Ls. pose proof (content_len _ Hsp) as Lp.
  pose proof (view_end _ Hself). pose proof (view_data _ Hself). pose proof (view_block _ Hself).
  assert (len_ self < npos) as Hnp by (unfold npos, npos64; lia).
  revert b e. induction fuel as [|k IH]; intros b e Hb Hf He; [lia|].
  cbn [split_loop]. cbv zeta. destruct He as [[-> Hno]|(He & Hocc & Hno)].
  - rewrite (Z.eqb_refl npos). cbv iota. rewrite split_piece by lia. cbn. rewrite Z.eqb_refl.
    eexists. split; [done|]. split; [done|]. split; [done|].
    constructor; [|done]. apply piece_clean; [lia..|]. intros i Hi. apply Hno. lia.
  - pose proof Hocc as (_ & Hle & Heq). rewrite Ls, Lp in *.
    rewrite (proj2 (Z.eqb_neq e npos)) by lia. cbv iota.
    rewrite split_piece by lia. cbn. rewrite (proj2 (Z.eqb_neq e (len_ self))) by lia.
    unfold size. destruct (find_spec self sp (e + len_ sp)) as (e' & -> & He');
      [done|done|done|lia|]. cbn.
    destruct (IH (e + len_ sp) e') as (ps & -> & Hne & Hj & Hall); [lia..|done|].
    cbn. eexists. split; [done|]. split; [done|]. split.
    + rewrite join_cons, Hj by done.
      rewrite (slice_split b (len_ self - b) (e - b)) by lia. f_equal.
      rewrite (slice_split (b + (e - b)) (len_ self - b - (e - b)) (len_ sp)) by lia.
      replace (b + (e - b)) with e by lia. rewrite Heq. do 2 f_equal. lia.
    + constructor; [|done]. by apply piece_clean; [lia..|].
Qed.

Lemma split_spec fuel :
  len_ self < Z.of_nat fuel ->
  exists ps, split fuel self sp = Some ps /\ ps <> [] /\
    join (content sp) ps = content self /\
    Forall (fun p => forall i, ~ occurs_at (content sp) p i) ps.
Proof.
  intros Hf. pose proof (view_len _ Hself). unfold split.
  destruct (find_spec self sp 0) as (e & -> & He); [done|done|done|lia|]. cbn.
  destruct (split_loop_spec fuel 0 e) as (ps & Hps & Hne & Hj & Hall); [lia..|done|].
  rewrite slice_full in Hj by (rewrite content_len; [lia|done]). eauto 6.
Qed.

End split.

(** ** Properties *)

(** [StringView::split] with a non-empty separator that contains no NUL
    returns (it neither loops nor aborts): its pieces joined by the separator
    are the viewed bytes, and the separator occurs in none of the pieces. *)
Theorem split_join (self sp : StringView) (fuel : nat) :
  view_wf self -> view_wf sp -> 0 < len_ sp -> x00 ∉ content sp ->
  len_ self < Z.of_nat fuel ->
  exists ps, split fuel self sp = Some ps /\ ps <> [] /\
    join (content sp) ps = content self /\
    Forall (fun p => forall i, ~ occurs_at (content sp) p i) ps.
Proof. intros. by apply split_spec. Qed.

Lemma split_join_witness :
  exists ps, split 10 (view_of (str "a,,bc,")) (view_of (str ",")) = Some ps /\ ps <> [] /\
    join (content (view_of (str ","))) ps = content (view_of (str "a,,bc,")) /\
    Forall (fun p => forall i, ~ occurs_at (content (view_of (str ","))) p i) ps.
Proof.
  apply split_join.
  - by apply view_of_wf.
  - by apply view_of_wf.
  - done.
  - by apply (bool_decide_unpack _).
  - done.
Defined.

(** [StringView::find] returns the least index not below [pos] at which
    the (NUL-free) argument occurs in the view, and [npos] when there is
    none; [pos <= size()] is its only precondition. *)
Theorem find_first_occurrence (self v : StringView) (pos : Z) :
  view_wf self -> view_wf v -> x00 ∉ content v -> 0 <= pos <= len_ self ->
  exists r, find self v pos = Some r /\
    first_in (occurs_at (content v) (content self)) pos (len_ self + 1) r.
Proof. apply find_spec. Qed.

Lemma find_first_occurrence_witness :
  exists r, find (view_of (str "GET /x HTTP")) (view_of (str "x H")) 3 = Some r /\
    first_in (occurs_at (str "x H") (content (view_of (str "GET /x HTTP")))) 3 12 r.
Proof.
  apply (find_first_occurrence (view_of (str "GET /x HTTP")) (view_of (str "x H")) 3).
  - by apply view_of_wf.
  - by apply view_of_wf.
  - by apply (bool_decide_unpack _).
  - vm_compute. split; congruence.
Defined.

(** [StringView::rfind] on a non-empty view and a non-empty argument
    returns the greatest index not above [pos] at which the argument occurs,
    and [npos] when there is none; it never reads outside of the view. *)
Theorem rfind_last_occurrence (self v : StringView) (pos : Z) :
  view_wf self -> view_wf v -> 0 < len_ self -> 0 < len_ v -> 0 <= pos ->
  exists r, rfind self v pos = Some r /\
    last_in (occurs_at (content v) (content self)) 0 (Z.min (len_ self - 1) pos) r.
Proof. apply rfind_spec. Qed.

Lemma rfind_last_occurrence_witness :
  exists r, rfind (view_of (str "a/b/c")) (view_of (str "/")) npos = Some r /\
    last_in (occurs_at (str "/") (content (view_of (str "a/b/c")))) 0 4 r.
Proof.
  apply (rfind_last_occurrence (view_of (str "a/b/c")) (view_of (str "/")) npos);
    [by apply view_of_wf|by apply view_of_wf|done|done|done].
Defined.

(** The comparison operators of views are a total order on the viewed
    bytes: [==] is equality of the bytes, [<] is transitive, and exactly one
    of [a < b], [a == b] and [b < a] holds. *)
Theorem view_order (a b c : StringView) :
  view_wf a -> view_wf b -> view_wf c ->
  exists lt_ab eq_ab lt_ba lt_bc lt_ac,
    sv_lt a b = Some lt_ab /\ sv_eq a b = Some eq_ab /\ sv_lt b a = Some lt_ba /\
    sv_lt b c = Some lt_bc /\ sv_lt a c = Some lt_ac /\
    (eq_ab = true <-> content a = content b) /\
    (lt_ab && lt_bc = true -> lt_ac = true) /\
    ((lt_ab, eq_ab, lt_ba) = (true, false, false) \/
     (lt_ab, eq_ab, lt_ba) = (false, true, false) \/
     (lt_ab, eq_ab, lt_ba) = (false, false, true)).
Proof.
  intros Ha Hb Hc. rewrite !sv_lt_spec, sv_eq_spec by done.
  do 5 eexists. repeat (split; [reflexivity|]). split; [apply bool_decide_eq_true|]. split.
  - rewrite andb_true_iff, !bool_decide_eq_true. intros []. by eapply lex_cmp_trans.
  - rewrite (lex_cmp_antisym (content a) (content b)).
    pose proof (lex_cmp_eq (content a) (content b)) as He.
    destruct (lex_cmp (content a) (content b)); cbn.
    + rewrite (bool_decide_true (content a = _)) by tauto. tauto.
    + rewrite (bool_decide_false (content a = _)) by (intros E; by apply He in E). tauto.
    + rewrite (bool_decide_false (content a = _)) by (intros E; by apply He in E). tauto.
Qed.

Lemma view_order_witness :
  exists lt_ab eq_ab lt_ba lt_bc lt_ac,
    let a := view_of (str "ab") in let b := view_of (str "abc") in
    let c := view_of (str "b") in
    sv_lt a b = Some lt_ab /\ sv_eq a b = Some eq_ab /\ sv_lt b a = Some lt_ba /\
    sv_lt b c = Some lt_bc /\ sv_lt a c = Some lt_ac /\
    (eq_ab = true <-> content a = content b) /\
    (lt_ab && lt_bc = true -> lt_ac = true) /\
    ((lt_ab, eq_ab, lt_ba) = (true, false, false) \/
     (lt_ab, eq_ab, lt_ba) = (false, true, false) \/
     (lt_ab, eq_ab, lt_ba) = (false, false, true)).
Proof. apply view_order; by apply view_of_wf. Defined.

(** ** Defects *)

(** The loop of [find_last_of(StringView)] does not decrement its index: unless
    the character it starts at matches, it never returns. *)
Theorem find_last_of_diverges (self v : StringView) (c : byte) (fuel : nat) :
  view_wf self -> view_wf v -> 1 < len_ self ->
  sv_at self (len_ self - 1) = Some c -> in_range c (content v) = false ->
  find_last_of fuel self v npos = None.
Proof.
  intros Hs Hv Hlen Hc Hin. unfold find_last_of.
  pose proof (view_end _ Hs). pose proof (view_data _ Hs). pose proof (view_block _ Hs).
  rewrite (proj2 (Z.eqb_neq _ _)), u64_id by lia.
  rewrite Z.min_l by (unfold npos, npos64; lia).
  assert (charInRange c v = Some false) as Hci.
  { unfold charInRange. rewrite ToString_content by done. cbn. by rewrite Hin. }
  induction fuel as [|k IH]; cbn [find_last_of_loop]; [done|].
  rewrite (proj2 (Z.leb_gt _ _)) by lia. rewrite Hc. cbn.
  rewrite Hci. cbn. rewrite (proj2 (Z.eqb_neq _ _)) by lia. exact IH.
Qed.

Lemma find_last_of_diverges_witness :
  find_last_of 1000 (view_of (str "a/b")) (view_of (str "/")) npos = None.
Proof.
  apply (find_last_of_diverges _ _ "b"%byte); (by apply view_of_wf) || reflexivity.
Defined.

(** [find_last_of(char)] returns its argument [pos] ([npos] by default) instead
    of the index it found, and never looks at index 0. *)
Theorem find_last_of_char_wrong :
  find_last_of_char (view_of (str "a/b")) "/"%byte npos = Some npos /\
  find_last_of_char (view_of (str "a/b")) "/"%byte 2 = Some 2 /\
  find_last_of_char (view_of (str "/ab")) "/"%byte 2 = Some npos.
Proof. done. Qed.

(** [caseCompare(char)] never finds a lower-case letter equal to itself: its last
    test compares the upper-case character with the one it was given. *)
Theorem caseCompare_char_wrong :
  caseCompare_char (view_of (str "a")) "a"%byte = Some 1 /\ caseCompare_char (view_of (str "a")) "A"%byte = Some 0.
Proof. split; reflexivity. Qed.

(** The comparison with a character is of signed values, the one with a view of
    unsigned ones. *)
Theorem compare_char_signed :
  compare_char (view_of [xe4]) "a"%byte = Some (-1) /\ compare (view_of [xe4]) (view_of (str "a")) = Some 1.
Proof. split; reflexivity. Qed.

(** [find_last_not_of(char)] tests [==]: it finds the character it is asked to
    skip. *)
Theorem find_last_not_of_char_wrong :
  find_last_not_of_char (view_of (str "ab  ")) " "%byte npos = Some 3.
Proof. done. Qed.

(** [rfind] on an empty view reads [data_[(size_t)-1]]. *)
Theorem rfind_empty_view (v : StringView) :
  0 < len_ v -> rfind (view_of []) v npos = None.
Proof. intros. unfold rfind, empty. by rewrite (proj2 (Z.eqb_neq _ _)) by lia. Qed.

(** [find] stops comparing at a NUL, so it reports an occurrence where only the
    part of the argument before its NUL matches. *)
Theorem find_nul_wrong :
  find (view_of (str "ab" ++ [x00] ++ str "yy")) (view_of (str "b" ++ [x00] ++ str "x")) 0
  = Some 1.
Proof. done. Qed.

(** With an empty separator [split] never returns. *)
Theorem split_empty_diverges (fuel : nat) :
  split fuel (view_of (str "ab")) (view_of []) = None.
Proof.
  unfold split. change (find _ _ 0) with (Some 0). cbn [mbind option_bind].
  induction fuel as [|k IH]; [done|].
  change (split_loop (S k) (view_of (str "ab")) (view_of []) 0 0)
    with (ret ← split_loop k (view_of (str "ab")) (view_of []) 0 0; Some ([] :: ret)).
  by rewrite IH.
Qed.
