(* ===== verification/StringViewTypes.v ===== *)
(** * Programs over StringView: kanon/string/string_view.h

    The constructors of a view, the operations that change one, and the queries
    ([split] and both forms of every search included), as the commands of programs
    over view variables.  A command has the contract its code relies on without a
    check; the theorem is type soundness: a program that keeps the contracts gets an
    answer of the right kind from every command, and all its views stay inside the
    blocks they were made for.  [find_last_of(StringView)] returns on some inputs
    only: its contract is exactly those, see [find_last_of_stuck]. *)

From Stdlib Require Import ZArith Lia.
From stdpp Require Import sets.
From S2P Require Import Prelude StringView.

(** ** Constructors and modifiers *)

(** [strlen]: the index of the first NUL, which has to be in the block. *)
Fixpoint strlen (s : list byte) : option Z :=
  match s with
  | [] => None
  | c :: s' => if decide (c = x00) then Some 0 else n ← strlen s'; Some (n + 1)
  end.

(** The default constructor and [reset]: the literal with its NUL. *)
Definition StringView_default : StringView := mkView [x00] 0 0.

(** From a C string. *)
Definition StringView_cstr (s : list byte) : option StringView :=
  n ← strlen s; Some (mkView s 0 n).

(** From [str + off] with a length; also [set]. *)
Definition StringView_data (s : list byte) (off len : Z) : StringView := mkView s off len.

(** From a [std::string]: its bytes and the NUL [c_str()] ends with. *)
Definition StringView_string (s : list byte) : StringView := mkView (s ++ [x00]) 0 (zlen s).

Definition reset (_ : StringView) : StringView := StringView_default.
Definition set (_ : StringView) (s : list byte) (off n : Z) : StringView := StringView_data s off n.

Definition swap (lhs rhs : StringView) : StringView * StringView := (rhs, lhs).

(** ** Programs *)

(** Queries, asked of a view and answered with the help of another one where the
    source has such an argument. *)
Inductive query :=
  | QSize | QEmpty | QAt (n : Z) | QFront | QBack | QToString | QToUpperString | QToLowerString
  | QCopy (dst : list byte) (count pos : Z)
  | QFind (pos : Z) | QFindChar (c : byte) (pos : Z) | QRfind (pos : Z) | QRfindChar (c : byte) (pos : Z)
  | QContains | QContainsChar (c : byte)
  | QStartsWith | QStartsWithChar (c : byte) | QEndsWith | QEndsWithChar (c : byte)
  | QFindFirstOf (pos : Z) | QFindFirstOfChar (c : byte) (pos : Z)
  | QFindFirstNotOf (pos : Z) | QFindFirstNotOfChar (c : byte) (pos : Z)
  | QFindLastOf (pos : Z) | QFindLastOfChar (c : byte) (pos : Z)
  | QFindLastNotOf (pos : Z) | QFindLastNotOfChar (c : byte) (pos : Z)
  | QSplit
  | QCompare | QCompareChar (c : byte) | QCaseCompare | QCaseCompareChar (c : byte)
  | QEq | QNe | QLt | QLe | QGt | QGe.

Inductive answer :=
  | ABool (b : bool)
  | ANum (n : Z)
  | APos (r : Z)
  | ASign (z : Z)
  | AChar (c : byte)
  | AText (bs : list byte)
  | ATexts (ps : list (list byte))
  | ACopied (dst : list byte) (n : Z).

(** The loop of [find_last_of(StringView)] returns in its first round or never; a
    round of [split] moves past at least one byte. *)
Definition ask (self v : StringView) (q : query) : option answer :=
  match q with
  | QSize => Some (ANum (size self))
  | QEmpty => Some (ABool (empty self))
  | QAt n => AChar <$> at_ self n
  | QFront => AChar <$> front self
  | QBack => AChar <$> back self
  | QToString => AText <$> ToString self
  | QToUpperString => AText <$> ToUpperString self
  | QToLowerString => AText <$> ToLowerString self
  | QCopy dst count pos => '(dst, n) ← copy self dst count pos; Some (ACopied dst n)
  | QFind pos => APos <$> find self v pos
  | QFindChar c pos => APos <$> find_char self c pos
  | QRfind pos => APos <$> rfind self v pos
  | QRfindChar c pos => APos <$> rfind_char self c pos
  | QContains => ABool <$> contains self v
  | QContainsChar c => ABool <$> contains_char self c
  | QStartsWith => ABool <$> starts_with self v
  | QStartsWithChar c => ABool <$> starts_with_char self c
  | QEndsWith => ABool <$> ends_with self v
  | QEndsWithChar c => ABool <$> ends_with_char self c
  | QFindFirstOf pos => APos <$> find_first_of self v pos
  | QFindFirstOfChar c pos => APos <$> find_first_of_char self c pos
  | QFindFirstNotOf pos => APos <$> find_first_not_of self v pos
  | QFindFirstNotOfChar c pos => APos <$> find_first_not_of_char self c pos
  | QFindLastOf pos => APos <$> find_last_of 1 self v pos
  | QFindLastOfChar c pos => APos <$> find_last_of_char self c pos
  | QFindLastNotOf pos => APos <$> find_last_not_of self v pos
  | QFindLastNotOfChar c pos => APos <$> find_last_not_of_char self c pos
  | QSplit => ATexts <$> split (S (Z.to_nat (len_ self))) self v
  | QCompare => ASign <$> compare self v
  | QCompareChar c => ASign <$> compare_char self c
  | QCaseCompare => ASign <$> caseCompare self v
  | QCaseCompareChar c => ASign <$> caseCompare_char self c
  | QEq => ABool <$> sv_eq self v
  | QNe => ABool <$> sv_ne self v
  | QLt => ABool <$> sv_lt self v
  | QLe => ABool <$> sv_le self v
  | QGt => ABool <$> sv_gt self v
  | QGe => ABool <$> sv_ge self v
  end.

(** The inputs on which [find_last_of(StringView)] returns: the byte its search starts
    at is one of [v], or the search starts at index 0 or in an empty view. *)
Definition find_last_of_stops (self v : StringView) (pos : Z) : bool :=
  let i := Z.min (len_ self - 1) pos in
  (i <=? 0) || match sv_at self i with Some c => in_range c (content v) | None => true end.

(** What the code of a query takes for granted: an index that exists, a view that
    is not empty where it looks at its first or last byte, [size_t] positions, a
    separator [strncmp] can compare and, for [find_last_of(StringView)], an input it
    returns on. *)
Definition asked_well (self v : StringView) (q : query) : bool :=
  match q with
  | QAt n => (0 <=? n) && (n <? len_ self)
  | QFront | QBack | QCaseCompareChar _ => 0 <? len_ self
  | QCopy dst count pos =>
    (0 <=? pos) && (pos <? len_ self) && (0 <=? count) && (pos + count <=? len_ self) && (count <=? zlen dst)
  | QFind pos => (0 <=? pos) && (pos <=? len_ self)
  | QRfind pos => (0 <=? pos) && ((0 <? len_ self) || (len_ v =? 0))
  | QRfindChar _ pos => (0 <=? pos) && (0 <? len_ self)
  | QFindChar _ pos | QFindFirstOf pos | QFindFirstOfChar _ pos | QFindFirstNotOf pos | QFindFirstNotOfChar _ pos
  | QFindLastOfChar _ pos | QFindLastNotOf pos | QFindLastNotOfChar _ pos => 0 <=? pos
  | QFindLastOf pos => (0 <=? pos) && find_last_of_stops self v pos
  | QSplit => (0 <? len_ v) && bool_decide (x00 ∉ content v)
  | _ => true
  end.

(** The type of the answer. *)
Inductive kind := KBool | KNum | KPos | KSign | KChar | KText | KTexts | KCopied | KGiven.

Definition query_kind (q : query) : kind :=
  match q with
  | QSize => KNum
  | QAt _ | QFront | QBack => KChar
  | QToString | QToUpperString | QToLowerString => KText
  | QSplit => KTexts
  | QCopy _ _ _ => KCopied
  | QFindLastOfChar _ _ => KGiven
  | QFind _ | QFindChar _ _ | QRfind _ | QRfindChar _ _ | QFindFirstOf _ | QFindFirstOfChar _ _
  | QFindFirstNotOf _ | QFindFirstNotOfChar _ _ | QFindLastOf _ | QFindLastNotOf _ | QFindLastNotOfChar _ _ => KPos
  | QCompare | QCompareChar _ | QCaseCompare | QCaseCompareChar _ => KSign
  | _ => KBool
  end.

(** An answer of the type of the query: a position in the view or [npos], a byte of
    the view, a text as long as the view, pieces that the separator joins to the
    view, the bytes asked for.  [find_last_of(char)] answers with [npos] or with the
    position it was given, which need not be one of the view. *)
Definition answers (self v : StringView) (q : query) (a : answer) : Prop :=
  match query_kind q, a with
  | KBool, ABool _ => True
  | KNum, ANum n => n = zlen (content self)
  | KPos, APos r => r = npos \/ 0 <= r <= len_ self
  | KSign, ASign z => z = -1 \/ z = 0 \/ z = 1
  | KChar, AChar c => c ∈ content self
  | KText, AText bs => zlen bs = len_ self
  | KTexts, ATexts ps => ps <> [] /\ join (content v) ps = content self
  | KGiven, APos r => match q with QFindLastOfChar _ pos => r = npos \/ r = pos | _ => False end
  | KCopied, ACopied dst n =>
    match q with
    | QCopy dst0 count pos => n = count /\ dst = slice pos count (content self) ++ drop (Z.to_nat count) dst0
    | _ => False
    end
  | _, _ => False
  end.

(** Commands name their views by index in the store of variables. *)
Inductive command :=
  | CDefault
  | CCstr (s : list byte)
  | CString (s : list byte)
  | CReset (x : nat)
  | CSet (x : nat) (s : list byte) (off n : Z)
  | CRemovePrefix (x : nat) (n : Z)
  | CRemoveSuffix (x : nat) (n : Z)
  | CSubstr (x : nat) (pos count : Z)
  | CSubstrRange (x : nat) (begin end_ : Z)
  | CSwap (x y : nat)
  | CAsk (x y : nat) (q : query).

(** The store after a command, and what it printed. *)
Definition execute (vars : list StringView) (c : command) : option (list StringView * list answer) :=
  match c with
  | CDefault => Some (vars ++ [StringView_default], [])
  | CCstr s => v ← StringView_cstr s; Some (vars ++ [v], [])
  | CString s => Some (vars ++ [StringView_string s], [])
  | CReset x => v ← vars !! x; Some (<[x := reset v]> vars, [])
  | CSet x s off n => v ← vars !! x; Some (<[x := set v s off n]> vars, [])
  | CRemovePrefix x n => v ← vars !! x; Some (<[x := remove_prefix v n]> vars, [])
  | CRemoveSuffix x n => v ← vars !! x; Some (<[x := remove_suffix v n]> vars, [])
  | CSubstr x pos count => v ← vars !! x; Some (vars ++ [substr v pos count], [])
  | CSubstrRange x b e => v ← vars !! x; Some (vars ++ [substr_range v b e], [])
  | CSwap x y =>
    v ← vars !! x; w ← vars !! y;
    let '(v, w) := swap v w in Some (<[y := w]> (<[x := v]> vars), [])
  | CAsk x y q => v ← vars !! x; w ← vars !! y; a ← ask v w q; Some (vars, [a])
  end.

(** The contract of a command in a store: the variables exist, a string fits the
    address space, a C string ends, and what is cut off or selected is there. *)
Definition contract (vars : list StringView) (c : command) : bool :=
  let var x (P : StringView -> bool) := match vars !! x with Some v => P v | None => false end in
  match c with
  | CDefault => true
  | CCstr s => bool_decide (x00 ∈ s) && (zlen s <? 2 ^ 63)
  | CString s => zlen s + 1 <? 2 ^ 63
  | CReset x => var x (fun _ => true)
  | CSet x s off n => var x (fun _ => (0 <=? off) && (0 <=? n) && (off + n <=? zlen s) && (zlen s <? 2 ^ 63))
  | CRemovePrefix x n | CRemoveSuffix x n => var x (fun v => (0 <=? n) && (n <=? len_ v))
  | CSubstr x pos count => var x (fun v => (0 <=? pos) && (pos <=? len_ v) && (0 <=? count))
  | CSubstrRange x b e => var x (fun v => (0 <=? b) && (b <=? len_ v) && (b <=? e) && (e <=? npos))
  | CSwap x y => var x (fun _ => var y (fun _ => true))
  | CAsk x y q => var x (fun v => var y (fun w => asked_well v w q))
  end.

Fixpoint execute_all (vars : list StringView) (cs : list command) : option (list StringView * list answer) :=
  match cs with
  | [] => Some (vars, [])
  | c :: cs =>
    '(vars, out) ← execute vars c;
    '(vars, out') ← execute_all vars cs;
    Some (vars, out ++ out')
  end.

(** The program keeps every contract, as it goes. *)
Fixpoint keeps_contracts (vars : list StringView) (cs : list command) : bool :=
  match cs with
  | [] => true
  | c :: cs =>
    contract vars c &&
    match execute vars c with Some (vars, _) => keeps_contracts vars cs | None => true end
  end.

(** The blocks a command brings in. *)
Definition new_blocks (c : command) : list (list byte) :=
  match c with
  | CDefault | CReset _ => [[x00]]
  | CCstr s | CSet _ s _ _ => [s]
  | CString s => [s ++ [x00]]
  | _ => []
  end.

(** ** Reads stay inside *)

Lemma probes {A} (f : A -> option bool) (o : option A) :
  is_Some o -> (forall x, is_Some (f x)) -> is_Some (o ≫= f).
Proof. intros [x ->] H. apply H. Qed.

Lemma scan_up_inside p lo hi :
  (forall i, lo <= i < hi -> is_Some (p i)) ->
  exists r, scan_up p (Z.to_nat (hi - lo)) lo = Some r /\ (r = npos \/ lo <= r < hi).
Proof.
  intros H. destruct (scan_up_spec p (fun i => p i = Some true) lo hi) as (r & E & Hr).
  - intros i Hi. destruct (H i Hi) as [b Eb]. exists b. rewrite Eb. split; [done|]. naive_solver.
  - exists r. split; [done|]. destruct Hr as [[-> _]|(? & _)]; auto.
Qed.

Lemma scan_down_inside p fuel hi :
  0 <= hi < Z.of_nat fuel -> (forall i, 0 <= i <= hi -> is_Some (p i)) ->
  exists r, scan_down p fuel hi = Some r /\ (r = npos \/ 0 <= r <= hi).
Proof.
  intros Hf H. destruct (scan_down_spec p (fun i => p i = Some true) fuel hi Hf) as (r & E & Hr).
  - intros i Hi. destruct (H i Hi) as [b Eb]. exists b. rewrite Eb. split; [done|]. naive_solver.
  - exists r. split; [done|]. destruct Hr as [[-> _]|(? & _)]; auto.
Qed.

Lemma scan_down_pos_inside p fuel hi :
  0 <= hi < Z.of_nat fuel -> (forall i, 1 <= i <= hi -> is_Some (p i)) ->
  exists r, scan_down_pos p fuel hi = Some r /\ (r = npos \/ 1 <= r <= hi).
Proof.
  intros Hf H. destruct (scan_down_pos_spec p (fun i => p i = Some true) fuel hi Hf) as (r & E & Hr).
  - intros i Hi. destruct (H i Hi) as [b Eb]. exists b. rewrite Eb. split; [done|]. naive_solver.
  - exists r. split; [done|]. destruct Hr as [[-> _]|(? & _)]; auto.
Qed.

Lemma strncmp_eq_total n xs ys :
  (n <= length xs)%nat -> (n <= length ys)%nat -> is_Some (strncmp_eq n xs ys).
Proof.
  revert xs ys. induction n as [|n IH]; intros [|a xs] [|b ys]; cbn [length strncmp_eq]; intros; try lia; try done.
  repeat case_decide; try done. apply IH; lia.
Qed.

Lemma StrNCaseCompare_total n xs ys :
  (n <= length xs)%nat -> (n <= length ys)%nat ->
  exists z, StrNCaseCompare n xs ys = Some z /\ (z = -1 \/ z = 0 \/ z = 1).
Proof.
  revert xs ys. induction n as [|n IH]; intros [|a xs] [|b ys]; cbn [length StrNCaseCompare]; intros; try lia; eauto.
  repeat case_bool; eauto; apply IH; lia.
Qed.

Lemma sign_cases c : sign c = -1 \/ sign c = 0 \/ sign c = 1.
Proof. destruct c; cbn; auto. Qed.

Section wf.
Context (self v : StringView) (Hs : view_wf self) (Hv : view_wf v).

Lemma sv_at_is_Some i : 0 <= i < len_ self -> is_Some (sv_at self i).
Proof. intros Hi. destruct (sv_at_Some self i Hs Hi) as (b & -> & _). by eexists. Qed.

Lemma sv_at_elem i c : 0 <= i < len_ self -> sv_at self i = Some c -> c ∈ content self.
Proof.
  intros Hi E. destruct (sv_at_Some self i Hs Hi) as (b & E' & Hb). simplify_eq. by eapply list_elem_of_lookup_2.
Qed.

Lemma charInRange_total c : is_Some (charInRange c v).
Proof. unfold charInRange. rewrite ToString_content by done. by eexists. Qed.

(** [memcmp] on parts of the two views. *)
Lemma memcmp_inside i :
  0 <= i -> i + len_ v <= len_ self ->
  exists z, memcmp (Z.to_nat (len_ v)) (ptr self i) (ptr v 0) = Some z.
Proof.
  intros Hi Hl. pose proof (view_len _ Hv).
  destruct (take_ptr self i (len_ v)) as [_ El]; [done|lia..|].
  destruct (take_ptr v 0 (len_ v)) as [_ El']; [done|lia..|].
  rewrite memcmp_spec by done. by eexists.
Qed.

Lemma find_inside pos :
  0 <= pos <= len_ self -> exists r, find self v pos = Some r /\ (r = npos \/ 0 <= r <= len_ self).
Proof.
  intros Hp. unfold find. rewrite check_bind_true by (apply Z.leb_le; lia). pose proof (view_len _ Hv).
  case_bool; [|by eauto].
  destruct (scan_up_inside (fun i => strncmp_eq (Z.to_nat (len_ v)) (ptr self i) (ptr v 0)) pos
    (len_ self - len_ v + 1)) as (r & E & Hr).
  - intros i Hi. apply strncmp_eq_total.
    + by destruct (take_ptr self i (len_ v)) as [_ ?]; [done|lia..|].
    + by destruct (take_ptr v 0 (len_ v)) as [_ ?]; [done|lia..|].
  - exists r. split; [done|]. destruct Hr; [auto|right; lia].
Qed.

(** A forward search that tests the bytes of the view. *)
Lemma up_inside (f : byte -> option bool) pos :
  0 <= pos -> (forall x, is_Some (f x)) ->
  exists r, scan_up (fun i => x ← sv_at self i; f x) (Z.to_nat (len_ self - pos)) pos = Some r /\
    (r = npos \/ 0 <= r <= len_ self).
Proof.
  intros Hp Hf. destruct (scan_up_inside (fun i => x ← sv_at self i; f x) pos (len_ self)) as (r & E & Hr).
  - intros i Hi. apply probes; [apply sv_at_is_Some; lia|done].
  - exists r. split; [done|]. destruct Hr; [auto|right; lia].
Qed.

Lemma last_index pos :
  0 < len_ self -> 0 <= pos ->
  0 <= Z.min (u64 (len_ self - 1)) pos < Z.of_nat (down_fuel self) /\ Z.min (u64 (len_ self - 1)) pos < len_ self.
Proof.
  intros. pose proof (view_end _ Hs). pose proof (view_data _ Hs). pose proof (view_block _ Hs).
  rewrite u64_id by lia. unfold down_fuel, zlen in *. lia.
Qed.

(** A backward search; the second loop leaves out the first byte. *)
Lemma down_inside (f : byte -> option bool) pos :
  0 < len_ self -> 0 <= pos -> (forall x, is_Some (f x)) ->
  exists r, scan_down (fun i => x ← sv_at self i; f x) (down_fuel self) (Z.min (u64 (len_ self - 1)) pos) = Some r /\
    (r = npos \/ 0 <= r <= len_ self).
Proof.
  intros Hl Hp Hf. destruct (last_index pos Hl Hp) as [H1 H2].
  destruct (scan_down_inside (fun i => x ← sv_at self i; f x) _ _ H1) as (r & E & Hr).
  - intros i Hi. apply probes; [apply sv_at_is_Some; lia|done].
  - exists r. split; [done|]. destruct Hr; [auto|right; lia].
Qed.

Lemma down_pos_inside (f : byte -> option bool) pos :
  0 <= pos -> (forall x, is_Some (f x)) ->
  exists r, (if len_ self =? 0 then Some npos else
    scan_down_pos (fun i => x ← sv_at self i; f x) (down_fuel self) (Z.min (u64 (len_ self - 1)) pos)) = Some r /\
    (r = npos \/ 0 <= r <= len_ self).
Proof.
  intros Hp Hf. case_bool; [by eauto|]. pose proof (view_len _ Hs).
  destruct (last_index pos) as [H1 H2]; [lia|done|].
  destruct (scan_down_pos_inside (fun i => x ← sv_at self i; f x) _ _ H1) as (r & E & Hr).
  - intros i Hi. apply probes; [apply sv_at_is_Some; lia|done].
  - exists r. split; [done|]. destruct Hr; [auto|right; lia].
Qed.

Lemma rfind_inside pos :
  0 <= pos -> 0 < len_ self \/ len_ v = 0 ->
  exists r, rfind self v pos = Some r /\ (r = npos \/ 0 <= r <= len_ self).
Proof.
  intros Hp Hl. destruct (Z.eqb_spec (len_ v) 0) as [E|N].
  { unfold rfind, empty. rewrite E. cbn. eauto. }
  pose proof (view_len _ Hv). destruct (rfind_spec self v pos) as (r & -> & Hr); [done|done|lia..|].
  exists r. split; [done|]. destruct Hr as [[-> _]|(? & _)]; [auto|right; lia].
Qed.

Lemma copy_inside dst count pos :
  0 <= pos < len_ self -> 0 <= count -> pos + count <= len_ self -> count <= zlen dst ->
  copy self dst count pos = Some (slice pos count (content self) ++ drop (Z.to_nat count) dst, count).
Proof.
  intros Hp Hc Hl Hd. pose proof Hs as [? ? ? ?]. unfold copy. rewrite (proj2 (Z.leb_gt _ _)) by lia.
  rewrite mem_read_ok by lia. cbn [mbind option_bind].
  assert (slice (data_ self + pos) count (block self) = slice pos count (content self)) as ->.
  { unfold content, slice. rewrite skipn_firstn_comm, drop_drop, take_take. f_equal; [lia|]. f_equal. lia. }
  assert (zlen (slice pos count (content self)) = count) as El
    by (apply zlen_slice; rewrite ?content_len by done; lia).
  rewrite mem_write_ok by lia. cbn [mbind option_bind]. unfold overwrite.
  by replace (Z.to_nat 0 + length (slice pos count (content self)))%nat with (Z.to_nat count)
    by (unfold zlen in El; lia).
Qed.

Lemma compare_sign r : (r = -1 \/ r = 0 \/ r = 1) ->
  let z := if r =? 0 then if len_ self <? len_ v then -1 else if len_ v <? len_ self then 1 else r else r in
  z = -1 \/ z = 0 \/ z = 1.
Proof. intros H. repeat case_bool; auto. Qed.

Lemma caseCompare_inside : exists z, caseCompare self v = Some z /\ (z = -1 \/ z = 0 \/ z = 1).
Proof.
  unfold caseCompare. destruct (common_bytes self v _ Hs Hv eq_refl) as (_ & _ & L1 & L2).
  destruct (StrNCaseCompare_total _ _ _ L1 L2) as (z & -> & Hz). cbn [mbind option_bind].
  eexists. split; [done|]. by apply compare_sign.
Qed.

Lemma find_last_of_inside pos :
  0 <= pos -> find_last_of_stops self v pos = true ->
  exists r, find_last_of 1 self v pos = Some r /\ (r = npos \/ 0 <= r <= len_ self).
Proof.
  intros Hp Hr. unfold find_last_of. pose proof Hs as []. case_bool; [by eauto|]. rewrite u64_id by lia.
  unfold find_last_of_stops in Hr. cbn zeta in Hr. cbn [find_last_of_loop]. case_bool; [by eauto|].
  cbn [orb] in Hr.
  destruct (sv_at_is_Some (Z.min (len_ self - 1) pos)) as [c Ec]; [lia|]. rewrite Ec in Hr |- *.
  cbn [mbind option_bind]. unfold charInRange. rewrite ToString_content by done. cbn. rewrite Hr.
  eexists. split; [done|right; lia].
Qed.

(** On every other input it does not return. *)
Lemma find_last_of_stuck fuel pos :
  0 <= pos -> find_last_of_stops self v pos = false -> find_last_of fuel self v pos = None.
Proof.
  intros Hp Hr. unfold find_last_of_stops in Hr. cbn zeta in Hr. apply orb_false_iff in Hr as [Hi%Z.leb_gt Hr]. pose proof Hs as [].
  unfold find_last_of. rewrite (proj2 (Z.eqb_neq _ _)), u64_id by lia.
  destruct (sv_at_is_Some (Z.min (len_ self - 1) pos)) as [c Ec]; [lia|]. rewrite Ec in Hr.
  assert (charInRange c v = Some false) as Hci
    by (unfold charInRange; rewrite ToString_content by done; cbn; by rewrite Hr).
  induction fuel as [|k IH]; cbn [find_last_of_loop]; [done|]. rewrite (proj2 (Z.leb_gt _ _)) by lia.
  rewrite Ec. cbn [mbind option_bind]. rewrite Hci. by rewrite (proj2 (Z.eqb_neq _ _)) by lia.
Qed.

Lemma find_last_of_char_inside c pos :
  0 <= pos -> exists r, find_last_of_char self c pos = Some r /\ (r = npos \/ r = pos).
Proof.
  intros Hp. unfold find_last_of_char.
  destruct (down_pos_inside (fun x => Some (bool_decide (x = c))) pos) as (r & E & _); [done..|].
  case_bool; [by eauto|]. rewrite E. cbn. eexists. split; [done|]. case_bool; auto.
Qed.
End wf.

(** ** Soundness of a query, and of a command *)

(** Answers from what is known of the operation. *)
Lemma pos_answer self v q (o : option Z) :
  query_kind q = KPos ->
  (exists r, o = Some r /\ (r = npos \/ 0 <= r <= len_ self)) -> exists a, APos <$> o = Some a /\ answers self v q a.
Proof. intros Hq (r & -> & Hr). eexists. split; [done|]. unfold answers. by rewrite Hq. Qed.

Lemma bool_answer self v q (o : option bool) :
  query_kind q = KBool -> is_Some o -> exists a, ABool <$> o = Some a /\ answers self v q a.
Proof. intros Hq [b ->]. eexists. split; [done|]. unfold answers. by rewrite Hq. Qed.

Lemma sign_answer self v q (o : option Z) :
  query_kind q = KSign ->
  (exists z, o = Some z /\ (z = -1 \/ z = 0 \/ z = 1)) -> exists a, ASign <$> o = Some a /\ answers self v q a.
Proof. intros Hq (z & -> & Hz). eexists. split; [done|]. unfold answers. by rewrite Hq. Qed.

(** Answers of the queries about a single byte. *)
Lemma byte_inside self v i :
  view_wf self -> 0 <= i < len_ self -> exists a, AChar <$> sv_at self i = Some a /\ answers self v QFront a.
Proof.
  intros Hs Hi. destruct (sv_at_is_Some self Hs i Hi) as [c E]. rewrite E. eexists. split; [done|].
  by eapply sv_at_elem.
Qed.

Lemma text_inside self v (f : byte -> byte) :
  view_wf self -> exists a, AText <$> (map f <$> ToString self) = Some a /\ answers self v QToString a.
Proof.
  intros Hs. rewrite ToString_content by done. eexists. split; [done|]. cbn.
  unfold zlen. rewrite length_map. by apply content_len.
Qed.

Lemma ask_sound self v q :
  view_wf self -> view_wf v -> asked_well self v q = true ->
  exists a, ask self v q = Some a /\ answers self v q a.
Proof.
  intros Hs Hv Hq. pose proof (view_len _ Hs). pose proof (view_len _ Hv).
  assert (0 < len_ self -> u64 (len_ self - 1) = len_ self - 1) as Hlast.
  { pose proof Hs as []. intros. apply u64_id. lia. }
  destruct q; cbn [asked_well ask] in *; bool_prop; try (eexists; split; [reflexivity|done]).
  - eexists. split; [reflexivity|]. cbn. unfold size. by rewrite content_len.
  - unfold at_. rewrite (proj2 (Z.leb_gt _ _)) by lia. apply (byte_inside _ v); done || lia.
  - apply (byte_inside _ v); done || lia.
  - unfold back. rewrite Hlast by done. apply (byte_inside _ v); done || lia.
  - rewrite ToString_content by done. eexists. split; [reflexivity|]. by apply content_len.
  - by apply (text_inside _ v).
  - by apply (text_inside _ v).
  - rewrite copy_inside by (done || lia). eexists. split; [reflexivity|]. done.
  - apply pos_answer; [done|]. apply find_inside; done || lia.
  - apply pos_answer; [done|]. apply (up_inside self Hs (fun x => Some (bool_decide (c = x)))); done.
  - apply pos_answer; [done|]. apply rfind_inside; done || lia.
  - apply pos_answer; [done|]. apply (down_inside self Hs (fun x => Some (bool_decide (x = c)))); done.
  - apply bool_answer; [done|]. apply probes; [|done]. destruct (find_inside self v Hs Hv 0) as (r & -> & _); [lia|done].
  - apply bool_answer; [done|]. apply probes; [|done].
    by destruct (up_inside self Hs (fun x => Some (bool_decide (c = x))) 0) as (r & E & _); [lia|done|exists r].
  - apply bool_answer; [done|]. unfold starts_with. case_bool; [|done].
    apply probes; [by apply memcmp_inside|done].
  - apply bool_answer; [done|]. unfold starts_with_char. case_bool; [|done].
    apply probes; [apply sv_at_is_Some; done || lia|done].
  - apply bool_answer; [done|]. unfold ends_with. case_bool; [|done].
    apply probes; [apply memcmp_inside; done || lia|done].
  - apply bool_answer; [done|]. unfold ends_with_char. case_bool; [|done]. rewrite Hlast by lia.
    apply probes; [apply sv_at_is_Some; done || lia|done].
  - apply pos_answer; [done|]. apply (up_inside self Hs (fun x => charInRange x v)); [done|]. intros. by apply charInRange_total.
  - apply pos_answer; [done|]. apply (up_inside self Hs (fun x => Some (bool_decide (x = c)))); done.
  - apply pos_answer; [done|]. apply (up_inside self Hs (fun x => b ← charInRange x v; Some (negb b))); [done|].
    intros. apply probes; [by apply charInRange_total|done].
  - apply pos_answer; [done|]. apply (up_inside self Hs (fun x => Some (negb (bool_decide (x = c))))); done.
  - apply pos_answer; [done|]. by apply find_last_of_inside.
  - destruct (find_last_of_char_inside self Hs c pos) as (r & -> & ?); [done|]. eexists. by split.
  - apply pos_answer; [done|]. apply (down_pos_inside self Hs (fun x => b ← charInRange x v; Some (negb b))); [done|].
    intros. apply probes; [by apply charInRange_total|done].
  - apply pos_answer; [done|]. apply (down_pos_inside self Hs (fun x => Some (bool_decide (x = c)))); done.
  - match goal with H : bool_decide _ = true |- _ => apply bool_decide_eq_true in H end.
    edestruct (split_spec self v) as (ps & -> & ? & ? & _); [done..| |]; [lia|].
    eexists. by split.
  - apply sign_answer; [done|]. rewrite compare_spec by done. eexists. split; [done|]. apply sign_cases.
  - apply sign_answer; [done|]. unfold compare_char. case_bool; [eauto|].
    destruct (sv_at_is_Some self Hs 0) as [x ->]; [lia|]. cbn. eexists. split; [done|]. repeat case_bool; auto.
  - apply sign_answer; [done|]. by apply caseCompare_inside.
  - apply sign_answer; [done|]. unfold caseCompare_char. destruct (sv_at_is_Some self Hs 0) as [x ->]; [lia|].
    cbn. eexists. split; [done|]. repeat case_match; auto.
  - apply bool_answer; [done|]. by rewrite sv_eq_spec.
  - apply bool_answer; [done|]. unfold sv_ne. by rewrite sv_eq_spec.
  - apply bool_answer; [done|]. by rewrite sv_lt_spec.
  - apply bool_answer; [done|]. unfold sv_le. by rewrite sv_lt_spec.
  - apply bool_answer; [done|]. unfold sv_gt. by rewrite sv_lt_spec.
  - apply bool_answer; [done|]. unfold sv_ge. by rewrite sv_lt_spec.
Qed.

Lemma strlen_inside s : x00 ∈ s -> exists n, strlen s = Some n /\ 0 <= n < zlen s.
Proof.
  induction s as [|c s IH]; intros Hin; [by apply not_elem_of_nil in Hin|]. cbn [strlen]. rewrite zlen_cons.
  pose proof (zlen_nonneg s). case_decide; [exists 0; split; [done|lia]|].
  destruct IH as (n & -> & Hn); [by apply elem_of_cons in Hin as [<-|]|]. exists (n + 1). split; [done|lia].
Qed.

(** The views of a store, all well formed and in the given blocks. *)
Definition store_ok (blocks : list (list byte)) (vars : list StringView) : Prop :=
  Forall (fun v => view_wf v /\ block v ∈ blocks) vars.

Lemma store_add blocks new vars v :
  store_ok blocks vars -> view_wf v -> block v ∈ blocks ++ new -> store_ok (blocks ++ new) (vars ++ [v]).
Proof.
  intros H Hv Hb. apply Forall_app. split; [|by apply Forall_singleton].
  eapply Forall_impl; [exact H|]. intros w []. set_solver.
Qed.

Lemma store_set blocks new vars x v :
  store_ok blocks vars -> view_wf v -> block v ∈ blocks ++ new -> store_ok (blocks ++ new) (<[x := v]> vars).
Proof.
  intros H Hv Hb. apply Forall_insert; [|done]. eapply Forall_impl; [exact H|]. intros w []. set_solver.
Qed.

Lemma store_get blocks vars x v : store_ok blocks vars -> vars !! x = Some v -> view_wf v /\ block v ∈ blocks.
Proof. intros H E. by eapply Forall_lookup_1 in H. Qed.

Lemma substr_block v pos count : block (substr v pos count) = block v.
Proof. done. Qed.

Lemma remove_prefix_wf v n : view_wf v -> 0 <= n <= len_ v -> view_wf (remove_prefix v n).
Proof. intros [] Hn. unfold remove_prefix. split; cbn; rewrite ?u64_id; lia. Qed.

Lemma remove_suffix_wf v n : view_wf v -> 0 <= n <= len_ v -> view_wf (remove_suffix v n).
Proof. intros [] Hn. unfold remove_suffix. split; cbn; rewrite ?u64_id; lia. Qed.

(** What a command prints is an answer to the question it asks. *)
Definition printed (vars : list StringView) (c : command) (out : list answer) : Prop :=
  match c with
  | CAsk x y q => exists v w a, vars !! x = Some v /\ vars !! y = Some w /\ out = [a] /\ answers v w q a
  | _ => out = []
  end.

Lemma execute_sound blocks vars c :
  store_ok blocks vars -> contract vars c = true ->
  exists vars' out, execute vars c = Some (vars', out) /\ store_ok (blocks ++ new_blocks c) vars' /\ printed vars c out.
Proof.
  intros Hok Hc.
  assert (forall x v, vars !! x = Some v -> view_wf v /\ block v ∈ blocks) as Hget by (intros; by eapply store_get).
  destruct c as [|s|s|x|x s off n|x n|x n|x pos count|x b e|x y|x y q]; cbn [contract execute new_blocks] in *; unfold printed;
    repeat match type of Hc with context [vars !! ?z] => destruct (vars !! z) as [?w|] eqn:?E; [|done] end;
    cbn [mbind option_bind]; bool_prop;
    repeat match goal with E : vars !! _ = Some _ |- _ => apply Hget in E as [? ?] end.
  all: try (eexists _, _; split_and!; [reflexivity| |reflexivity]).
  - apply store_add; [done|by split|set_solver].
  - destruct (strlen_inside s) as (n & En & Hn); [by eapply bool_decide_eq_true|]. unfold StringView_cstr. rewrite En.
    eexists _, _. split_and!; [reflexivity| |done].
    apply store_add; [done|split; cbn; lia|set_solver].
  - apply store_add; [done|split; cbn; rewrite ?zlen_app; pose proof (zlen_nonneg s); change (zlen [x00]) with 1; lia|set_solver].
  - apply store_set; [done|by split|set_solver].
  - apply store_set; [done|split; cbn; lia|set_solver].
  - apply store_set; [done|by apply remove_prefix_wf|set_solver].
  - apply store_set; [done|by apply remove_suffix_wf|set_solver].
  - apply store_add; [done|by apply substr_wf|cbn; set_solver].
  - apply store_add; [done|apply substr_wf; [done|lia|apply wrap_range; lia]|cbn; set_solver].
  - rewrite app_nil_r. by apply Forall_insert; [apply Forall_insert|].
  - match goal with H : asked_well ?a ?b _ = true |- _ => destruct (ask_sound a b q) as (r & -> & ?); [done..|] end.
    cbn [mbind option_bind]. eexists _, _. split_and!; [reflexivity|by rewrite app_nil_r|eauto 10].
Qed.

(** The blocks a program brings in. *)
Definition program_blocks (cs : list command) : list (list byte) := concat (map new_blocks cs).

(** The output of a program is, in order, what its commands print in the stores they
    are run in. *)
Fixpoint all_printed (vars : list StringView) (cs : list command) (out : list answer) : Prop :=
  match cs with
  | [] => out = []
  | c :: cs =>
    exists vars' out1 out2, execute vars c = Some (vars', out1) /\ printed vars c out1 /\
      out = out1 ++ out2 /\ all_printed vars' cs out2
  end.

Lemma execute_all_sound blocks vars cs :
  store_ok blocks vars -> keeps_contracts vars cs = true ->
  exists vars' out, execute_all vars cs = Some (vars', out) /\ store_ok (blocks ++ program_blocks cs) vars' /\
    all_printed vars cs out.
Proof.
  revert blocks vars. induction cs as [|c cs IH]; intros blocks vars Hok Hk; cbn [execute_all keeps_contracts] in *.
  { exists vars, []. unfold program_blocks. cbn. by rewrite app_nil_r. }
  apply andb_true_iff in Hk as [Hc Hk].
  destruct (execute_sound blocks vars c Hok Hc) as (vars1 & out1 & E & Hok1 & Hp). rewrite E in Hk |- *. cbn [mbind option_bind].
  destruct (IH _ _ Hok1 Hk) as (vars2 & out2 & -> & Hok2 & Ho). cbn [mbind option_bind].
  eexists _, _. split_and!; [reflexivity| |].
  - unfold program_blocks in *. cbn [map concat]. by rewrite app_assoc.
  - cbn [all_printed]. exists vars1, out1, out2. done.
Qed.

(** ** Properties *)

(** C21 StringView is type sound: a program that starts with well-formed views and
    keeps the contract of every command runs to its end, every question is answered
    with a value of its type (a position is [npos] or lies in the view, a byte is
    one of the view, the pieces of [split] join to the view; [find_last_of(char)]
    answers with [npos] or the position it was given), and every view it leaves is well formed and lies in a block
    of an initial view or one the program brought in.  The contract of
    [find_last_of(StringView)] is that the search starts at a byte of the argument,
    at index 0 or in an empty view: the code returns on no other input
    ([find_last_of_stuck]). *)
Theorem views_type_sound (vars : list StringView) (cs : list command) :
  Forall view_wf vars -> keeps_contracts vars cs = true ->
  exists vars' out, execute_all vars cs = Some (vars', out) /\ all_printed vars cs out /\
    Forall (fun v => view_wf v /\ block v ∈ map block vars ++ program_blocks cs) vars'.
Proof.
  intros Hw Hk. destruct (execute_all_sound (map block vars) vars cs) as (vars' & out & E & Hok & Ho); [|done|eauto].
  apply Forall_forall. intros v Hv. split; [by eapply Forall_forall|].
  apply list_elem_of_fmap. by exists v.
Qed.

(** A header line is taken apart. *)
Definition header_program : list command :=
  [ CString (str "Content-Length: 42");
    CCstr (str ":" ++ [x00]);
    CAsk 0 1 (QFind 0);
    CSubstr 0 0 14;
    CSubstrRange 0 16 npos;
    CRemovePrefix 0 14;
    CSwap 0 2;
    CAsk 0 3 QLt;
    CAsk 3 1 (QFindFirstNotOf 0);
    CAsk 3 1 QToString;
    CCstr (str "42" ++ [x00]);
    CAsk 3 4 (QFindLastOf npos);
    CAsk 3 4 (QFindLastOfChar "2"%byte npos);
    CAsk 2 1 QSplit;
    CReset 1 ].

Lemma views_type_sound_witness :
  exists vars' out, execute_all [] header_program = Some (vars', out) /\ all_printed [] header_program out /\
    Forall (fun v => view_wf v /\ block v ∈ map block [] ++ program_blocks header_program) vars'.
Proof. apply (views_type_sound [] header_program); [constructor|vm_compute; reflexivity]. Defined.

Example header_output :
  (snd <$> execute_all [] header_program) =
  Some [APos 14; ABool false; APos 0; AText (str "42"); APos 1; APos npos; ATexts [[]; str " 42"]].
Proof. vm_compute. reflexivity. Qed.
