(* ===== verification/Buffer.v ===== *)
(** * kanon::Buffer: kanon/buffer/buffer.h, buffer.cc, kanon/linux/net/buffer.cc
    and the storage it is built on, kanon/algo/reserved_array.h

    A buffer is a block of bytes with a read and a write index.  The indices are
    [size_t]: their arithmetic wraps at 2^64, also where the source subtracts.
    The allocator is a parameter: which sizes it can serve, and what the fresh
    memory holds.  The refinement is to a byte queue: [content] is what is
    between the two indices. *)

From Stdlib Require Import ZArith Lia.
From S2P Require Import Prelude Endian StringView.

(** ** The C heap *)

(** [malloc]/[realloc]: what a block of [n] bytes needs to be served, and the
    indeterminate bytes of it.  No object is larger than [PTRDIFF_MAX]. *)
Class Heap := {
  can_alloc : Z -> bool;
  fresh : Z -> byte;
  can_alloc_bound n : can_alloc n = true -> n < 2 ^ 63
}.

(** Fresh bytes for the offsets [lo, hi). *)
Definition fresh_bytes `{Heap} (lo hi : Z) : list byte :=
  map (fun i => fresh (lo + Z.of_nat i)) (List.seq 0 (Z.to_nat (hi - lo))).

(** ** algo::ReservedArray<char> *)

(** The elements [data_ .. end_). *)
Definition ReservedArray := list byte.

Definition GetSize (a : ReservedArray) : Z := zlen a.

(** [Reallocate] for a type that may be reallocated. *)
Definition Reallocate `{Heap} (a : ReservedArray) (n : Z) : option ReservedArray :=
  if can_alloc n then Some (a ++ fresh_bytes (GetSize a) n) else None.

Definition Grow `{Heap} (a : ReservedArray) (n : Z) : option ReservedArray :=
  if n <=? GetSize a then Some a else Reallocate a n.

Definition Shrink_impl `{Heap} (a : ReservedArray) (n : Z) : option ReservedArray :=
  if n =? 0 then Some [] else
  if can_alloc n then Some (take (Z.to_nat n) a) else None.

Definition array_Shrink `{Heap} (a : ReservedArray) (n : Z) : option ReservedArray :=
  if GetSize a <=? n then Some a else Shrink_impl a n.

(** [operator[]] *)
Definition array_at (a : ReservedArray) (i : Z) : option byte :=
  if i <? GetSize a then a !! Z.to_nat i else None.

(** ** Buffer *)

Definition BUFFER_INIT_SIZE : Z := 1024.
Definition BUFFER_PREFIX_SIZE : Z := 8.

Record Buffer := mkBuffer {
  read_index_ : Z;
  write_index_ : Z;
  data_ : ReservedArray
}.

Definition GetPrependableSize (b : Buffer) : Z := read_index_ b.
Definition HasReadable (b : Buffer) : bool := negb (read_index_ b =? write_index_ b).
Definition GetReadableSize (b : Buffer) : Z := u64 (write_index_ b - read_index_ b).
Definition GetWritableSize (b : Buffer) : Z := u64 (GetSize (data_ b) - write_index_ b).
Definition GetCapacity (b : Buffer) : Z := GetSize (data_ b).

Definition ToStringView (b : Buffer) : StringView :=
  mkView (data_ b) (read_index_ b) (GetReadableSize b).

Definition make_Buffer `{Heap} (init_size : Z) : option Buffer :=
  d ← Grow [] (u64 (BUFFER_PREFIX_SIZE + init_size));
  let b := mkBuffer BUFFER_PREFIX_SIZE BUFFER_PREFIX_SIZE d in
  assert! (GetReadableSize b =? 0);
  Some b.

Definition ReserveWriteSpace `{Heap} (b : Buffer) (len : Z) : option Buffer :=
  if len <=? GetWritableSize b then Some b else
  if u64 (GetPrependableSize b - BUFFER_PREFIX_SIZE + GetWritableSize b) <? len then
    d ← Grow (data_ b) (u64 (write_index_ b + len));
    let b' := mkBuffer (read_index_ b) (write_index_ b) d in
    assert! (len <=? GetWritableSize b');
    Some b'
  else
    let readable := GetReadableSize b in
    d ← mem_move (data_ b) (read_index_ b) (write_index_ b - read_index_ b)
          BUFFER_PREFIX_SIZE;
    let b' := mkBuffer BUFFER_PREFIX_SIZE (BUFFER_PREFIX_SIZE + readable) d in
    assert! (readable =? GetReadableSize b');
    assert! (len <=? GetWritableSize b');
    Some b'.

Definition Shrink `{Heap} (b : Buffer) (n : Z) : option Buffer :=
  d ← (if read_index_ b =? BUFFER_PREFIX_SIZE then Some (data_ b)
       else mem_move (data_ b) (read_index_ b) (write_index_ b - read_index_ b)
              BUFFER_PREFIX_SIZE);
  assert! (if read_index_ b =? write_index_ b
           then read_index_ b =? BUFFER_PREFIX_SIZE else true);
  d' ← array_Shrink d (u64 (GetReadableSize b + n));
  Some (mkBuffer (read_index_ b) (write_index_ b) d').

(** *** Appending *)

Definition Append `{Heap} (b : Buffer) (bs : list byte) : option Buffer :=
  b' ← ReserveWriteSpace b (zlen bs);
  d ← mem_write (data_ b') (write_index_ b') bs;
  Some (mkBuffer (read_index_ b') (write_index_ b' + zlen bs) d).

Definition Append8 `{Heap} (b : Buffer) (i : Z) : option Buffer :=
  Append b (le_bytes 1 i).
Definition Append16 `{Heap} (b : Buffer) (i : Z) : option Buffer :=
  Append b (le_bytes 2 (ToNetworkByteOrder16 i)).
Definition Append32 `{Heap} (b : Buffer) (i : Z) : option Buffer :=
  Append b (le_bytes 4 (ToNetworkByteOrder32 i)).
Definition Append64 `{Heap} (b : Buffer) (i : Z) : option Buffer :=
  Append b (le_bytes 8 (ToNetworkByteOrder64 i)).

(** *** Prepending *)

Definition Prepend (b : Buffer) (bs : list byte) : option Buffer :=
  assert! (BUFFER_PREFIX_SIZE <=? read_index_ b);
  assert! (zlen bs <=? read_index_ b);
  let r := read_index_ b - zlen bs in
  d ← mem_write (data_ b) r bs;
  Some (mkBuffer r (write_index_ b) d).

Definition Prepend8 (b : Buffer) (i : Z) : option Buffer :=
  Prepend b (le_bytes 1 i).
Definition Prepend16 (b : Buffer) (i : Z) : option Buffer :=
  Prepend b (le_bytes 2 (ToNetworkByteOrder16 i)).
Definition Prepend32 (b : Buffer) (i : Z) : option Buffer :=
  Prepend b (le_bytes 4 (ToNetworkByteOrder32 i)).
Definition Prepend64 (b : Buffer) (i : Z) : option Buffer :=
  Prepend b (le_bytes 8 (ToNetworkByteOrder64 i)).

(** *** Advancing *)

Definition AdvanceRead (b : Buffer) (n : Z) : option Buffer :=
  assert! (n <=? GetReadableSize b);
  Some (if n =? GetReadableSize b
        then mkBuffer BUFFER_PREFIX_SIZE BUFFER_PREFIX_SIZE (data_ b)
        else mkBuffer (read_index_ b + n) (write_index_ b) (data_ b)).

Definition AdvanceAll (b : Buffer) : option Buffer := AdvanceRead b (GetReadableSize b).
Definition AdvanceRead8 (b : Buffer) : option Buffer := AdvanceRead b 1.
Definition AdvanceRead16 (b : Buffer) : option Buffer := AdvanceRead b 2.
Definition AdvanceRead32 (b : Buffer) : option Buffer := AdvanceRead b 4.
Definition AdvanceRead64 (b : Buffer) : option Buffer := AdvanceRead b 8.

Definition AdvanceWrite (b : Buffer) (n : Z) : option Buffer :=
  assert! (n <=? GetWritableSize b);
  Some (mkBuffer (read_index_ b) (write_index_ b + n) (data_ b)).

Definition SetWriteIndex (b : Buffer) (n : Z) : option Buffer :=
  assert! ((read_index_ b <=? n) && (n <=? GetCapacity b));
  Some (mkBuffer (read_index_ b) n (data_ b)).

(** *** Reading *)

Definition GetReadBegin8 (b : Buffer) : option Z :=
  i ← mem_read (data_ b) (read_index_ b) 1; Some (le_value i).
Definition GetReadBegin16 (b : Buffer) : option Z :=
  i ← mem_read (data_ b) (read_index_ b) 2; Some (ToHostByteOrder16 (le_value i)).
Definition GetReadBegin32 (b : Buffer) : option Z :=
  i ← mem_read (data_ b) (read_index_ b) 4; Some (ToHostByteOrder32 (le_value i)).
Definition GetReadBegin64 (b : Buffer) : option Z :=
  i ← mem_read (data_ b) (read_index_ b) 8; Some (ToHostByteOrder64 (le_value i)).

Definition Read8 (b : Buffer) : option (Z * Buffer) :=
  ret ← GetReadBegin8 b; b' ← AdvanceRead8 b; Some (ret, b').
Definition Read16 (b : Buffer) : option (Z * Buffer) :=
  ret ← GetReadBegin16 b; b' ← AdvanceRead16 b; Some (ret, b').
Definition Read32 (b : Buffer) : option (Z * Buffer) :=
  ret ← GetReadBegin32 b; b' ← AdvanceRead32 b; Some (ret, b').
Definition Read64 (b : Buffer) : option (Z * Buffer) :=
  ret ← GetReadBegin64 b; b' ← AdvanceRead64 b; Some (ret, b').

Definition RetrieveAsString (b : Buffer) (len : Z) : option (list byte * Buffer) :=
  assert! (len <=? GetReadableSize b);
  s ← mem_read (data_ b) (read_index_ b) len;
  b' ← AdvanceRead b len;
  Some (s, b').

Definition RetrieveAllAsString (b : Buffer) : option (list byte * Buffer) :=
  RetrieveAsString b (GetReadableSize b).

Definition RetrieveAsVector (b : Buffer) (len : Z) : option (list byte * Buffer) :=
  assert! (len <=? GetReadableSize b);
  arr ← mem_read (data_ b) (read_index_ b) len;
  b' ← AdvanceRead b len;
  Some (arr, b').

(** *** Searching: [Some None] is the result [false]. *)

Definition CRLF : StringView := view_of [x0d; x0a].
Definition LF : StringView := view_of [x0a].

Definition FindCrLf_view (b : Buffer) : option (option StringView) :=
  let tmp := ToStringView b in
  idx ← find tmp CRLF 0;
  Some (if idx =? npos then None else Some (substr tmp 0 idx)).

Definition FindLf_view (b : Buffer) : option (option StringView) :=
  let tmp := ToStringView b in
  idx ← find tmp LF 0;
  Some (if idx =? npos then None else Some (substr tmp 0 idx)).

Definition FindCrLf (b : Buffer) : option (Buffer * option (list byte)) :=
  found ← FindCrLf_view b;
  match found with
  | Some tmp =>
    s ← ToString tmp; b' ← AdvanceRead b (size tmp); Some (b', Some s)
  | None => Some (b, None)
  end.

Definition FindLf (b : Buffer) : option (Buffer * option (list byte)) :=
  found ← FindLf_view b;
  match found with
  | Some tmp =>
    s ← ToString tmp; b' ← AdvanceRead b (size tmp); Some (b', Some s)
  | None => Some (b, None)
  end.

(** *** Reading from a descriptor *)

(** [readv] fails with an errno or delivers bytes. *)
Inductive readv_result := ReadvError (errno : Z) | ReadvBytes (bs : list byte).

Definition extra_buf_size : Z := 65536.

(** The room the two [iovec]s offer to [readv]. *)
Definition readv_room (b : Buffer) : Z :=
  if GetWritableSize b <? extra_buf_size
  then GetWritableSize b + extra_buf_size else GetWritableSize b.

(** Returns the buffer, the result and the errno stored in [saved_errno].
    [readv] fills the writable region first, then [extra_buf]. *)
Definition BufferReadFromFd `{Heap} (b : Buffer) (rv : readv_result)
  : option (Buffer * Z * option Z) :=
  let cache_writable_size := GetWritableSize b in
  match rv with
  | ReadvError e => Some (b, u64 (-1), Some e)
  | ReadvBytes bs =>
    let head := take (Z.to_nat cache_writable_size) bs in
    let extra_buf := drop (Z.to_nat cache_writable_size) bs in
    d ← mem_write (data_ b) (write_index_ b) head;
    let b := mkBuffer (read_index_ b) (write_index_ b) d in
    if zlen bs <=? cache_writable_size then
      b' ← AdvanceWrite b (zlen bs); Some (b', zlen bs, None)
    else
      b' ← SetWriteIndex b (GetCapacity b);
      b'' ← Append b' extra_buf;
      Some (b'', zlen bs, None)
  end.

(** ** Invariant and abstraction *)

(** What is stored: the readable region. *)
Definition content (b : Buffer) : list byte :=
  slice (read_index_ b) (write_index_ b - read_index_ b) (data_ b).

Record buf_wf (b : Buffer) : Prop := {
  wf_read : 0 <= read_index_ b;
  wf_order : read_index_ b <= write_index_ b;
  wf_write : write_index_ b <= zlen (data_ b);
  wf_prefix : BUFFER_PREFIX_SIZE <= zlen (data_ b);
  wf_bound : zlen (data_ b) < 2 ^ 63
}.

(** Room for the readable region behind the prefix: it can be lost by
    prepending, and only then. *)
Definition compactable (b : Buffer) : Prop :=
  BUFFER_PREFIX_SIZE + (write_index_ b - read_index_ b) <= zlen (data_ b).

Ltac buf_unfold :=
  unfold GetReadableSize, GetWritableSize, GetPrependableSize, GetCapacity, GetSize,
    BUFFER_PREFIX_SIZE in *.

Ltac buf_wf H := let a := fresh "Hr" in let b := fresh "Ho" in let c := fresh "Hw" in
  let d := fresh "Hp" in let e := fresh "Hm" in
  pose proof (wf_read _ H) as a; pose proof (wf_order _ H) as b; pose proof (wf_write _ H) as c;
  pose proof (wf_prefix _ H) as d; pose proof (wf_bound _ H) as e.

Section buffer.
Context `{Heap}.

Lemma readable_size b : buf_wf b -> GetReadableSize b = write_index_ b - read_index_ b.
Proof. intros Hb. buf_wf Hb. buf_unfold. apply u64_id. lia. Qed.

Lemma writable_size b : buf_wf b -> GetWritableSize b = zlen (data_ b) - write_index_ b.
Proof. intros Hb. buf_wf Hb. buf_unfold. apply u64_id. lia. Qed.

Lemma content_size b : buf_wf b -> zlen (content b) = GetReadableSize b.
Proof. intros Hb. rewrite readable_size by done. buf_wf Hb. apply zlen_slice; lia. Qed.

Lemma zlen_fresh_bytes lo hi : lo <= hi -> zlen (fresh_bytes lo hi) = hi - lo.
Proof. intros. unfold zlen, fresh_bytes. rewrite length_map, length_seq. lia. Qed.

Lemma Grow_spec a n :
  (zlen a < n -> can_alloc n = true) -> zlen a < 2 ^ 63 ->
  exists a', Grow a n = Some (a ++ a') /\ zlen (a ++ a') = Z.max (zlen a) n /\
    zlen (a ++ a') < 2 ^ 63.
Proof.
  intros Hal Ha. unfold Grow, Reallocate, GetSize. case_bool.
  - exists []. rewrite app_nil_r. split; [done|lia].
  - rewrite Hal by lia. exists (fresh_bytes (zlen a) n). split; [done|].
    rewrite zlen_app, zlen_fresh_bytes by lia.
    pose proof (can_alloc_bound n (Hal ltac:(lia))). lia.
Qed.

Lemma make_Buffer_spec n :
  0 <= n -> can_alloc (8 + n) = true ->
  exists b, make_Buffer n = Some b /\ buf_wf b /\ content b = [] /\
    n <= GetWritableSize b /\ BUFFER_PREFIX_SIZE <= read_index_ b.
Proof.
  intros Hn Hal. pose proof (can_alloc_bound _ Hal). unfold make_Buffer.
  rewrite u64_id by (buf_unfold; lia).
  destruct (Grow_spec [] (BUFFER_PREFIX_SIZE + n)) as (d & -> & Hd & Hb); [done|done|].
  cbn [mbind option_bind app] in *.
  rewrite check_bind_true by (buf_unfold; cbn; by rewrite Z.sub_diag).
  eexists. split; [done|].
  assert (buf_wf (mkBuffer 8 8 d)) as Hwf by (split; cbn; buf_unfold; lia).
  split; [done|]. split; [apply slice_0|]. rewrite writable_size by done.
  buf_unfold. cbn. lia.
Qed.

(** The readable region survives the growth of the block. *)
Lemma content_grow b a' :
  buf_wf b -> content (mkBuffer (read_index_ b) (write_index_ b) (data_ b ++ a')) = content b.
Proof. intros Hb. buf_wf Hb. apply slice_app_l; cbn; lia. Qed.

Lemma ReserveWriteSpace_spec b len :
  buf_wf b -> 0 <= len ->
  (GetWritableSize b < len -> can_alloc (write_index_ b + len) = true) ->
  (len <= GetWritableSize b \/ compactable b) ->
  exists b', ReserveWriteSpace b len = Some b' /\ buf_wf b' /\ content b' = content b /\
    len <= GetWritableSize b' /\ zlen (data_ b') <= zlen (data_ b) + len /\
    (BUFFER_PREFIX_SIZE <= read_index_ b -> BUFFER_PREFIX_SIZE <= read_index_ b').
Proof.
  intros Hb Hlen Hal Hroom. buf_wf Hb.
  unfold ReserveWriteSpace, compactable in *.
  rewrite writable_size in * by done. case_bool.
  { exists b. rewrite writable_size by done. auto 8 with lia. }
  specialize (Hal ltac:(lia)). pose proof (can_alloc_bound _ Hal).
  assert (BUFFER_PREFIX_SIZE + (write_index_ b - read_index_ b) <= zlen (data_ b))
    as Hc by lia. clear Hroom.
  rewrite u64_id by (buf_unfold; lia). case_bool.
  - rewrite u64_id by lia.
    destruct (Grow_spec (data_ b) (write_index_ b + len)) as (a' & -> & Hsz & Hbd); [done|done|].
    cbn [mbind option_bind].
    assert (buf_wf (mkBuffer (read_index_ b) (write_index_ b) (data_ b ++ a'))) as Hwf.
    { split; cbn; rewrite ?zlen_app in *; pose proof (zlen_nonneg a'); buf_unfold; lia. }
    rewrite check_bind_true by (rewrite writable_size by done; cbn; lia).
    eexists. split; [done|]. split; [done|]. split; [by apply content_grow|].
    split; [rewrite writable_size by done; cbn; lia|split; [cbn; lia|done]].
  - rewrite readable_size by done. buf_unfold.
    rewrite mem_move_ok by lia. cbn [mbind option_bind].
    set (sl := slice (read_index_ b) (write_index_ b - read_index_ b) (data_ b)).
    assert (zlen sl = write_index_ b - read_index_ b) as Hsl by (apply zlen_slice; lia).
    set (b' := mkBuffer 8 _ _).
    assert (buf_wf b') as Hwf.
    { split; cbn; rewrite ?zlen_overwrite by lia; buf_unfold; lia. }
    pose proof (readable_size b' Hwf) as Er. pose proof (writable_size b' Hwf) as Ew.
    cbn in Er, Ew. rewrite zlen_overwrite in Ew by lia. buf_unfold. rewrite Er, Ew.
    rewrite !check_bind_true by lia. exists b'. split; [done|]. split; [done|].
    split; [|split; [unfold b' in *; cbn in *; lia|split; [|done]; cbn; rewrite zlen_overwrite; lia]].
    unfold content, b'. cbn. rewrite slice_overwrite_eq; [done|lia..].
Qed.

Lemma Append_spec b bs :
  buf_wf b -> (GetWritableSize b < zlen bs -> can_alloc (write_index_ b + zlen bs) = true) ->
  (zlen bs <= GetWritableSize b \/ compactable b) ->
  exists b', Append b bs = Some b' /\ buf_wf b' /\ content b' = content b ++ bs /\
    zlen (data_ b') <= zlen (data_ b) + zlen bs /\
    (BUFFER_PREFIX_SIZE <= read_index_ b -> BUFFER_PREFIX_SIZE <= read_index_ b').
Proof.
  intros Hb Hal Hroom. pose proof (zlen_nonneg bs).
  destruct (ReserveWriteSpace_spec b (zlen bs)) as (b' & E & Hb' & Hc & Hw & Hcap & Hpre); [done..|].
  unfold Append. rewrite E. cbn [mbind option_bind].
  rewrite writable_size in Hw by done. buf_wf Hb'.
  rewrite mem_write_ok by lia. cbn [mbind option_bind]. eexists. split; [done|].
  split; [split; cbn; rewrite ?zlen_overwrite by lia; buf_unfold; lia|].
  split; [|cbn; by rewrite zlen_overwrite by lia]. rewrite <- Hc. unfold content. cbn.
  rewrite (slice_split _ _ (write_index_ b' - read_index_ b')) by lia. f_equal.
  - apply slice_overwrite_before; lia.
  - replace (read_index_ b' + _) with (write_index_ b') by lia.
    apply slice_overwrite_eq; lia.
Qed.

Lemma Prepend_spec b bs :
  buf_wf b -> BUFFER_PREFIX_SIZE <= read_index_ b -> zlen bs <= read_index_ b ->
  exists b', Prepend b bs = Some b' /\ buf_wf b' /\ content b' = bs ++ content b.
Proof.
  intros Hb Hp Hlen. buf_wf Hb. pose proof (zlen_nonneg bs). unfold Prepend.
  rewrite !check_bind_true by lia. rewrite mem_write_ok by lia. cbn [mbind option_bind].
  eexists. split; [done|].
  split; [split; cbn; rewrite ?zlen_overwrite by lia; buf_unfold; lia|].
  unfold content. cbn. rewrite (slice_split _ _ (zlen bs)) by lia. f_equal.
  - apply slice_overwrite_eq; lia.
  - replace (read_index_ b - zlen bs + zlen bs) with (read_index_ b) by lia.
    rewrite slice_overwrite_after by lia. f_equal. lia.
Qed.

Lemma AdvanceRead_spec b n :
  buf_wf b -> 0 <= n <= GetReadableSize b ->
  exists b', AdvanceRead b n = Some b' /\ buf_wf b' /\
    content b' = drop (Z.to_nat n) (content b) /\
    (BUFFER_PREFIX_SIZE <= read_index_ b -> BUFFER_PREFIX_SIZE <= read_index_ b').
Proof.
  intros Hb Hn. pose proof (content_size b Hb) as Hcs. buf_wf Hb. unfold AdvanceRead.
  rewrite readable_size in * by done. rewrite check_bind_true by lia.
  eexists. split; [done|]. case_bool.
  - split; [split; cbn; buf_unfold; lia|]. split; [|by cbn].
    unfold content at 1. cbn. rewrite Z.sub_diag, slice_0, drop_ge; [done|].
    unfold zlen in *. lia.
  - split; [split; cbn; buf_unfold; lia|]. split; [|cbn; lia].
    unfold content. cbn. rewrite drop_slice by lia. f_equal; lia.
Qed.

(** An advance past the readable region stops at the assertion. *)
Lemma AdvanceRead_overrun b n :
  GetReadableSize b < n -> AdvanceRead b n = None.
Proof.
  intros Hn. unfold AdvanceRead. by rewrite (proj2 (Z.leb_gt _ _)) by lia.
Qed.

Lemma AdvanceAll_spec b :
  buf_wf b -> exists b', AdvanceAll b = Some b' /\ buf_wf b' /\ content b' = [] /\
    (BUFFER_PREFIX_SIZE <= read_index_ b -> BUFFER_PREFIX_SIZE <= read_index_ b').
Proof.
  intros Hb. pose proof (content_size b Hb) as Hcs. pose proof (zlen_nonneg (content b)).
  destruct (AdvanceRead_spec b (GetReadableSize b)) as (b' & E & Hwf & Hc & Hp); [done|lia|].
  exists b'. split; [done|]. split; [done|]. split; [|done].
  rewrite Hc, <- Hcs, drop_ge; [done|]. unfold zlen. lia.
Qed.

Lemma mem_read_content b n :
  buf_wf b -> 0 <= n <= GetReadableSize b ->
  mem_read (data_ b) (read_index_ b) n = Some (take (Z.to_nat n) (content b)).
Proof.
  intros Hb Hn. buf_wf Hb. rewrite readable_size in Hn by done.
  rewrite mem_read_ok by lia. f_equal. unfold content. by rewrite take_slice by lia.
Qed.

Lemma RetrieveAsString_spec b n :
  buf_wf b -> 0 <= n <= GetReadableSize b ->
  exists b', RetrieveAsString b n = Some (take (Z.to_nat n) (content b), b') /\ buf_wf b' /\
    content b' = drop (Z.to_nat n) (content b) /\
    (BUFFER_PREFIX_SIZE <= read_index_ b -> BUFFER_PREFIX_SIZE <= read_index_ b').
Proof.
  intros Hb Hn. destruct (AdvanceRead_spec b n) as (b' & E & Hwf & Hc & Hp); [done|done|].
  unfold RetrieveAsString. rewrite check_bind_true by lia.
  rewrite mem_read_content by done. cbn [mbind option_bind]. rewrite E. cbn. eauto.
Qed.

Lemma GetReadBegin32_spec b :
  buf_wf b -> 4 <= GetReadableSize b ->
  GetReadBegin32 b = Some (be_value (take 4 (content b))).
Proof.
  intros Hb Hn. unfold GetReadBegin32. rewrite mem_read_content by (done || lia).
  cbn [mbind option_bind]. f_equal. apply bswap_le_value.
  rewrite <- content_size in Hn by done. unfold zlen in Hn.
  rewrite length_take. lia.
Qed.

Lemma Append32_eq b i : Append32 b i = Append b (be_bytes 4 i).
Proof. unfold Append32, ToNetworkByteOrder32. by rewrite le_bytes_bswap. Qed.

Lemma Prepend32_eq b i : Prepend32 b i = Prepend b (be_bytes 4 i).
Proof. unfold Prepend32, ToNetworkByteOrder32. by rewrite le_bytes_bswap. Qed.

Lemma Read32_spec b i rest :
  buf_wf b -> content b = be_bytes 4 i ++ rest -> 0 <= i < 2 ^ 32 ->
  exists b', Read32 b = Some (i, b') /\ buf_wf b' /\ content b' = rest.
Proof.
  intros Hb Hc Hi. pose proof (content_size b Hb) as Hs. rewrite Hc in Hs.
  rewrite zlen_app, zlen_be_bytes in Hs. pose proof (zlen_nonneg rest).
  unfold Read32, AdvanceRead32. rewrite GetReadBegin32_spec by (done || lia).
  destruct (AdvanceRead_spec b 4) as (b' & -> & Hwf & Hc' & _); [done|lia|]. cbn.
  exists b'. rewrite Hc' , Hc. change (Z.to_nat 4) with 4%nat.
  rewrite take_app_length', drop_app_length' by (by rewrite length_be_bytes).
  rewrite be_value_bytes, Z.mod_small by lia. done.
Qed.

Lemma view_content b :
  buf_wf b -> view_wf (ToStringView b) /\ StringView.content (ToStringView b) = content b.
Proof.
  intros Hb. buf_wf Hb. unfold ToStringView. rewrite readable_size by done.
  split; [split; cbn; lia|done].
Qed.

(** What the search for a delimiter finds, and that the view of the line is
    the content up to it. *)
Lemma find_delim b v d :
  buf_wf b -> view_wf v -> StringView.content v = d -> x00 ∉ d ->
  exists r, find (ToStringView b) v 0 = Some r /\
    first_in (occurs_at d (content b)) 0 (GetReadableSize b + 1) r.
Proof.
  intros Hb Hv <- Hn. destruct (view_content b Hb) as [Hw <-].
  pose proof (view_len _ Hw). by apply (find_spec (ToStringView b) v 0).
Qed.

Lemma line_view b r :
  buf_wf b -> 0 <= r <= GetReadableSize b ->
  ToString (substr (ToStringView b) 0 r) = Some (take (Z.to_nat r) (content b)) /\
  size (substr (ToStringView b) 0 r) = r.
Proof.
  intros Hb Hr. destruct (view_content b Hb) as [Hw Hc]. buf_wf Hb.
  destruct (substr_wf (ToStringView b) 0 r) as [Hs Hsc]; [done|cbn; lia..|].
  rewrite ToString_content, Hsc, Hc by done. cbn.
  rewrite readable_size in * by done. rewrite Z.sub_0_r, u64_id by lia.
  split; [|lia]. unfold slice. rewrite drop_0. do 2 f_equal. lia.
Qed.

Lemma AdvanceRead_data b n b' : AdvanceRead b n = Some b' -> data_ b' = data_ b.
Proof. unfold AdvanceRead. intros E. inv_monad. by case_bool. Qed.

Lemma BufferReadFromFd_spec b bs :
  buf_wf b -> zlen bs <= readv_room b -> BUFFER_PREFIX_SIZE <= read_index_ b ->
  (GetWritableSize b < zlen bs -> can_alloc (write_index_ b + zlen bs) = true) ->
  exists b', BufferReadFromFd b (ReadvBytes bs) = Some (b', zlen bs, None) /\ buf_wf b' /\
    content b' = content b ++ bs /\ zlen (data_ b') <= zlen (data_ b) + zlen bs /\
    BUFFER_PREFIX_SIZE <= read_index_ b'.
Proof.
  intros Hb Hroom Hcomp Hal. buf_wf Hb. pose proof (zlen_nonneg bs). unfold BufferReadFromFd.
  rewrite writable_size in * by done.
  set (w := zlen (data_ b) - write_index_ b) in *.
  set (h := take (Z.to_nat w) bs).
  assert (zlen h = Z.min w (zlen bs)) as Hh by (unfold h; rewrite zlen_take; lia).
  rewrite mem_write_ok by lia. cbn [mbind option_bind].
  set (b1 := mkBuffer _ _ _).
  set (b2 := mkBuffer (read_index_ b) (write_index_ b + zlen h) (overwrite (write_index_ b) h (data_ b))).
  assert (zlen (data_ b1) = zlen (data_ b)) as Hd by (cbn; apply zlen_overwrite; lia).
  assert (buf_wf b2) as Hb2 by (split; cbn in *; rewrite ?Hd; buf_unfold; lia).
  assert (content b2 = content b ++ h) as Hc2.
  { unfold content. cbn. rewrite (slice_split _ _ (write_index_ b - read_index_ b)) by lia.
    f_equal; [apply slice_overwrite_before; lia|].
    replace (read_index_ b + _) with (write_index_ b) by lia. apply slice_overwrite_eq; lia. }
  case_bool.
  - unfold AdvanceWrite, GetWritableSize, GetSize. rewrite u64_id by (rewrite Hd; cbn; lia).
    rewrite Hd. rewrite check_bind_true by (cbn; lia). cbn [mbind option_bind].
    assert (h = bs) as Ehb by (apply take_ge; unfold zlen in *; lia).
    exists b2. rewrite Hc2. unfold b1, b2 in *. rewrite Ehb in *. cbn in *. rewrite Hd.
    split; [done|]. split; [done|]. split; [done|]. split; [lia|done].
  - unfold SetWriteIndex, GetCapacity, GetSize. rewrite Hd.
    rewrite check_bind_true by (cbn; lia). cbn [mbind option_bind].
    replace (mkBuffer _ (zlen (data_ b)) _) with b2 by (unfold b2, b1; cbn; f_equal; lia).
    assert (zlen (drop (Z.to_nat w) bs) = zlen bs - w) as He by (rewrite zlen_drop; lia).
    destruct (Append_spec b2 (drop (Z.to_nat w) bs)) as (b' & -> & Hwf & Hc & Hcap & Hpre); [done| | |].
    { intros _. rewrite He. cbn. rewrite Hh. rewrite <- Hal by lia. f_equal. lia. }
    { right. unfold compactable in *. cbn. cbn in Hd. rewrite Hd. lia. }
    exists b'. cbn. split; [done|]. split; [done|].
    rewrite Hc, Hc2, <- app_assoc. unfold h. rewrite take_drop. split; [done|].
    rewrite He in Hcap. cbn in Hcap, Hd. split; [lia|by apply Hpre].
Qed.

End buffer.

(** ** Sequences of operations against a byte queue *)

Inductive buf_op :=
  | OpAppend (bs : list byte)
  | OpReadFd (bs : list byte)    (** [readv] delivers [bs] *)
  | OpAdvance (n : Z)
  | OpRetrieve (n : Z)
  | OpAdvanceAll.

(** One call on a buffer; the bytes are what the caller gets back. *)
Definition buf_step `{Heap} (o : buf_op) (b : Buffer) : option (Buffer * list byte) :=
  match o with
  | OpAppend bs => b' ← Append b bs; Some (b', [])
  | OpReadFd bs => r ← BufferReadFromFd b (ReadvBytes bs); Some (r.1.1, [])
  | OpAdvance n => b' ← AdvanceRead b n; Some (b', [])
  | OpRetrieve n => r ← RetrieveAsString b n; Some (r.2, r.1)
  | OpAdvanceAll => b' ← AdvanceAll b; Some (b', [])
  end.

(** The same call on the queue of bytes the buffer stands for. *)
Definition queue_step (o : buf_op) (q : list byte) : option (list byte * list byte) :=
  match o with
  | OpAppend bs | OpReadFd bs => Some (q ++ bs, [])
  | OpAdvance n =>
    if (0 <=? n) && (n <=? zlen q) then Some (drop (Z.to_nat n) q, []) else None
  | OpRetrieve n =>
    if (0 <=? n) && (n <=? zlen q)
    then Some (drop (Z.to_nat n) q, take (Z.to_nat n) q) else None
  | OpAdvanceAll => Some ([], [])
  end.

Fixpoint run {S} (step : buf_op -> S -> option (S * list byte)) (ops : list buf_op) (s : S)
  : option (S * list byte) :=
  match ops with
  | [] => Some (s, [])
  | o :: ops' => r ← step o s; r' ← run step ops' r.1; Some (r'.1, r.2 ++ r'.2)
  end.

(** The bytes an operation brings in. *)
Definition op_bytes (o : buf_op) : Z :=
  match o with OpAppend bs | OpReadFd bs => zlen bs | _ => 0 end.

Definition ops_bytes (ops : list buf_op) : Z := foldr (fun o n => op_bytes o + n) 0 ops.

(** A read delivers at most what [extra_buf] guarantees room for. *)
Definition op_ok (o : buf_op) : Prop :=
  match o with OpReadFd bs => zlen bs <= extra_buf_size | _ => True end.

Section refinement.
Context `{Heap}.

Lemma op_bytes_nonneg o : 0 <= op_bytes o.
Proof. destruct o; cbn; apply zlen_nonneg || lia. Qed.

Lemma ops_bytes_nonneg ops : 0 <= ops_bytes ops.
Proof. induction ops as [|o ops IH]; cbn; [lia|]. pose proof (op_bytes_nonneg o). unfold ops_bytes in *. lia. Qed.

Lemma buf_step_refines o b q' out :
  buf_wf b -> BUFFER_PREFIX_SIZE <= read_index_ b -> op_ok o ->
  (forall n, n <= zlen (data_ b) + op_bytes o -> can_alloc n = true) ->
  queue_step o (content b) = Some (q', out) ->
  exists b', buf_step o b = Some (b', out) /\ buf_wf b' /\ content b' = q' /\
    BUFFER_PREFIX_SIZE <= read_index_ b' /\ zlen (data_ b') <= zlen (data_ b) + op_bytes o.
Proof.
  intros Hb Hp Hok Hal Hq. buf_wf Hb. pose proof (content_size b Hb) as Hcs.
  assert (compactable b) as Hcomp by (unfold compactable, BUFFER_PREFIX_SIZE in *; lia).
  destruct o as [bs|bs|n|n|]; cbn [buf_step queue_step op_bytes op_ok] in *; inv_monad; bool_prop.
  - destruct (Append_spec b bs) as (b' & -> & ? & ? & ? & ?); [done|intros; apply Hal; lia|by right|].
    exists b'. naive_solver lia.
  - destruct (BufferReadFromFd_spec b bs) as (b' & -> & ? & ? & ? & ?);
      [done| |done|intros; apply Hal; lia|].
    { unfold readv_room. rewrite writable_size by done. case_bool; lia. }
    exists b'. naive_solver lia.
  - destruct (AdvanceRead_spec b n) as (b' & E & ? & ? & ?); [done|lia|].
    rewrite E. apply AdvanceRead_data in E. exists b'. rewrite E. naive_solver lia.
  - destruct (RetrieveAsString_spec b n) as (b' & E & ? & ? & ?); [done|lia|].
    rewrite E. unfold RetrieveAsString in E. inv_monad. exists b'. cbn.
    rewrite (AdvanceRead_data _ _ _ Hrun0). naive_solver lia.
  - destruct (AdvanceAll_spec b) as (b' & E & ? & ? & ?); [done|]. rewrite E.
    apply AdvanceRead_data in E. exists b'. rewrite E. naive_solver lia.
Qed.

Lemma run_refines ops b q' out :
  buf_wf b -> BUFFER_PREFIX_SIZE <= read_index_ b -> Forall op_ok ops ->
  (forall n, n <= zlen (data_ b) + ops_bytes ops -> can_alloc n = true) ->
  run queue_step ops (content b) = Some (q', out) ->
  exists b', run buf_step ops b = Some (b', out) /\ buf_wf b' /\ content b' = q' /\
    zlen (data_ b') <= zlen (data_ b) + ops_bytes ops.
Proof.
  revert b out. induction ops as [|o ops IH]; intros b out Hb Hp Hok Hal Hq.
  { cbn in *. inv_monad. exists b. naive_solver lia. }
  cbn in Hq. inv_monad. destruct p as [q1 o1], p0 as [q2 o2]. cbn in *. inv_monad.
  inversion Hok as [|? ? Ho Hos]; subst.
  pose proof (ops_bytes_nonneg ops). pose proof (op_bytes_nonneg o).
  unfold ops_bytes in *. cbn in Hal.
  destruct (buf_step_refines o b q1 o1) as (b1 & -> & Hb1 & <- & Hp1 & Hc1);
    [done|done|done|intros; apply Hal; lia|done|].
  destruct (IH b1 o2) as (b2 & E & Hb2 & Hq2 & Hc2); [done|done|done|intros; apply Hal; lia|done|].
  cbn. rewrite E. cbn. exists b2. naive_solver lia.
Qed.

End refinement.

(** A heap that serves every request up to 2^62 bytes with zeroed memory. *)
#[refine] Definition zero_heap : Heap :=
  {| can_alloc n := n <? 2 ^ 62; fresh _ := x00 |}.
Proof. intros n Hn. bool_prop. lia. Defined.

Section integers.
Context `{Heap}.

Lemma append_be b n i :
  buf_wf b -> BUFFER_PREFIX_SIZE <= read_index_ b ->
  (forall k, k <= zlen (data_ b) + Z.of_nat n -> can_alloc k = true) ->
  exists b', Append b (be_bytes n i) = Some b' /\ buf_wf b' /\
    content b' = content b ++ be_bytes n i /\
    zlen (data_ b') <= zlen (data_ b) + Z.of_nat n /\ BUFFER_PREFIX_SIZE <= read_index_ b'.
Proof.
  intros Hb Hp Hal. buf_wf Hb.
  destruct (Append_spec b (be_bytes n i)) as (b' & E & Hb' & Hc & Hs & Hpre); [done| | |].
  - intros _. rewrite zlen_be_bytes. apply Hal. lia.
  - right. unfold compactable, BUFFER_PREFIX_SIZE in *. lia.
  - rewrite zlen_be_bytes in Hs. eauto 8.
Qed.

Lemma read_be b n i rest :
  buf_wf b -> content b = be_bytes n i ++ rest -> 0 <= i < 256 ^ Z.of_nat n ->
  (exists bs, mem_read (data_ b) (read_index_ b) (Z.of_nat n) = Some bs /\
     length bs = n /\ be_value bs = i) /\
  exists b', AdvanceRead b (Z.of_nat n) = Some b' /\ buf_wf b' /\ content b' = rest.
Proof.
  intros Hb Hc Hi. pose proof (content_size b Hb) as Hs. rewrite Hc in Hs.
  rewrite zlen_app, zlen_be_bytes in Hs. pose proof (zlen_nonneg rest). split.
  - rewrite mem_read_content by (done || lia). eexists. split; [done|].
    rewrite Hc, Nat2Z.id, take_app_length' by (by rewrite length_be_bytes).
    split; [apply length_be_bytes|]. rewrite be_value_bytes. apply Z.mod_small. lia.
  - destruct (AdvanceRead_spec b (Z.of_nat n)) as (b' & E & Hwf & Hc' & _); [done|lia|].
    exists b'. split; [done|]. split; [done|].
    by rewrite Hc', Hc, Nat2Z.id, drop_app_length' by (by rewrite length_be_bytes).
Qed.

Lemma Append64_eq b i : Append64 b i = Append b (be_bytes 8 i).
Proof. unfold Append64, ToNetworkByteOrder64. by rewrite le_bytes_bswap. Qed.
Lemma Append16_eq b i : Append16 b i = Append b (be_bytes 2 i).
Proof. unfold Append16, ToNetworkByteOrder16. by rewrite le_bytes_bswap. Qed.
Lemma Append8_eq b i : Append8 b i = Append b (be_bytes 1 i).
Proof. done. Qed.

Lemma Read64_spec b i rest :
  buf_wf b -> content b = be_bytes 8 i ++ rest -> 0 <= i < 2 ^ 64 ->
  exists b', Read64 b = Some (i, b') /\ buf_wf b' /\ content b' = rest.
Proof.
  intros Hb Hc Hi. destruct (read_be b 8 i rest Hb Hc Hi) as [(bs & E & Hl & Hv) (b' & Ea & Hx)].
  change (Z.of_nat 8) with 8 in *.
  unfold Read64, GetReadBegin64, AdvanceRead64. rewrite E, Ea. cbn [mbind option_bind].
  unfold ToHostByteOrder64. rewrite bswap_le_value, Hv by done. eauto.
Qed.

Lemma Read16_spec b i rest :
  buf_wf b -> content b = be_bytes 2 i ++ rest -> 0 <= i < 2 ^ 16 ->
  exists b', Read16 b = Some (i, b') /\ buf_wf b' /\ content b' = rest.
Proof.
  intros Hb Hc Hi. destruct (read_be b 2 i rest Hb Hc Hi) as [(bs & E & Hl & Hv) (b' & Ea & Hx)].
  change (Z.of_nat 2) with 2 in *.
  unfold Read16, GetReadBegin16, AdvanceRead16. rewrite E, Ea. cbn [mbind option_bind].
  unfold ToHostByteOrder16. rewrite bswap_le_value, Hv by done. eauto.
Qed.

Lemma Read8_spec b i rest :
  buf_wf b -> content b = be_bytes 1 i ++ rest -> 0 <= i < 2 ^ 8 ->
  exists b', Read8 b = Some (i, b') /\ buf_wf b' /\ content b' = rest.
Proof.
  intros Hb Hc Hi. destruct (read_be b 1 i rest Hb Hc Hi) as [(bs & E & Hl & Hv) (b' & Ea & Hx)].
  change (Z.of_nat 1) with 1 in *.
  unfold Read8, GetReadBegin8, AdvanceRead8. rewrite E, Ea. cbn [mbind option_bind].
  destruct bs as [|x [|]]; try done. unfold be_value in Hv. cbn in *. rewrite Hv. eauto.
Qed.

End integers.

(** ** Properties *)

(** C7 Refinement: any sequence of appends, reads from a descriptor, advances
    and retrievals on a buffer returns the bytes a queue returns, leaves the
    bytes the queue holds, and fails no assertion and touches no byte out of
    bounds when the queue does not underflow; the block never grows beyond its
    first size plus the bytes brought in.  A read from a descriptor brings at most
    64 KiB ([op_ok]). *)
Theorem buffer_refines_queue `{Heap} (ops : list buf_op) (b : Buffer) (q' out : list byte) :
  buf_wf b -> BUFFER_PREFIX_SIZE <= read_index_ b -> Forall op_ok ops ->
  (forall n, n <= zlen (data_ b) + ops_bytes ops -> can_alloc n = true) ->
  run queue_step ops (content b) = Some (q', out) ->
  exists b', run buf_step ops b = Some (b', out) /\ buf_wf b' /\ content b' = q' /\
    zlen (data_ b') <= zlen (data_ b) + ops_bytes ops.
Proof. apply run_refines. Qed.

Definition demo_ops : list buf_op :=
  [OpAppend (str "hello"); OpRetrieve 2; OpReadFd (str "world, and more"); OpAdvance 1;
   OpRetrieve 6; OpAdvanceAll].

Lemma buffer_refines_queue_witness :
  exists b', run (@buf_step zero_heap) demo_ops (mkBuffer 8 8 (repeat x00 12))
    = Some (b', str "heloworl") /\ buf_wf b' /\ content b' = [] /\
    zlen (data_ b') <= 12 + ops_bytes demo_ops.
Proof.
  apply (@buffer_refines_queue zero_heap demo_ops (mkBuffer 8 8 (repeat x00 12))).
  - by split.
  - done.
  - by repeat constructor.
  - intros n Hn. apply Z.ltb_lt. eapply Z.le_lt_trans; [exact Hn|reflexivity].
  - reflexivity.
Defined.

(** What [BufferReadFromFd] does with the bytes of [readv]: all of them are
    appended to the readable region, whether they fit in the writable region
    or spill over to the 64 KiB stack buffer, and their number is returned. *)
Theorem read_from_fd_appends `{Heap} (b : Buffer) (bs : list byte) :
  buf_wf b -> zlen bs <= readv_room b -> BUFFER_PREFIX_SIZE <= read_index_ b ->
  (GetWritableSize b < zlen bs -> can_alloc (write_index_ b + zlen bs) = true) ->
  exists b', BufferReadFromFd b (ReadvBytes bs) = Some (b', zlen bs, None) /\ buf_wf b' /\
    content b' = content b ++ bs.
Proof.
  intros. destruct (BufferReadFromFd_spec b bs) as (b' & ? & ? & ? & _); [done..|]. eauto.
Qed.

Lemma read_from_fd_appends_witness :
  exists b', @BufferReadFromFd zero_heap (mkBuffer 8 10 (repeat x41 12)) (ReadvBytes (str "xyz"))
    = Some (b', 3, None) /\ buf_wf b' /\ content b' = str "AAxyz".
Proof.
  apply (@read_from_fd_appends zero_heap (mkBuffer 8 10 (repeat x41 12)) (str "xyz"));
    [by split|done|done|done].
Defined.

(** Integers round-trip through a buffer in network byte order: what
    [Append64], [Append32], [Append16] and [Append8] wrote, [Read64], [Read32],
    [Read16] and [Read8] return in the same order, and the buffer is empty
    again. *)
Theorem integers_roundtrip `{Heap} (b : Buffer) (w x y z : Z) :
  buf_wf b -> content b = [] -> BUFFER_PREFIX_SIZE <= read_index_ b ->
  (forall n, n <= zlen (data_ b) + 15 -> can_alloc n = true) ->
  0 <= w < 2 ^ 64 -> 0 <= x < 2 ^ 32 -> 0 <= y < 2 ^ 16 -> 0 <= z < 2 ^ 8 ->
  exists b', (b ← Append64 b w; b ← Append32 b x; b ← Append16 b y; b ← Append8 b z;
    '(w', b) ← Read64 b; '(x', b) ← Read32 b; '(y', b) ← Read16 b; '(z', b) ← Read8 b;
    Some (w', x', y', z', b)) = Some (w, x, y, z, b') /\ buf_wf b' /\ content b' = [].
Proof.
  intros Hb Hc Hp Hal Hw Hx Hy Hz.
  rewrite Append64_eq. destruct (append_be b 8 w) as (b1 & -> & Hb1 & Hc1 & Hs1 & Hp1); [done|done| |].
  { intros n Hn. apply Hal. lia. }
  cbn [mbind option_bind]. rewrite Append32_eq.
  destruct (append_be b1 4 x) as (b2 & -> & Hb2 & Hc2 & Hs2 & Hp2); [done|done| |].
  { intros n Hn. apply Hal. lia. }
  cbn [mbind option_bind]. rewrite Append16_eq.
  destruct (append_be b2 2 y) as (b3 & -> & Hb3 & Hc3 & Hs3 & Hp3); [done|done| |].
  { intros n Hn. apply Hal. lia. }
  cbn [mbind option_bind]. rewrite Append8_eq.
  destruct (append_be b3 1 z) as (b4 & -> & Hb4 & Hc4 & Hs4 & Hp4); [done|done| |].
  { intros n Hn. apply Hal. lia. }
  cbn [mbind option_bind].
  assert (content b4 = be_bytes 8 w ++ be_bytes 4 x ++ be_bytes 2 y ++ be_bytes 1 z ++ []) as Hc5.
  { by rewrite Hc4, Hc3, Hc2, Hc1, Hc, app_nil_r, <- !app_assoc. }
  destruct (Read64_spec _ _ _ Hb4 Hc5 Hw) as (b5 & -> & Hb5 & Hc6). cbn [mbind option_bind].
  destruct (Read32_spec _ _ _ Hb5 Hc6 Hx) as (b6 & -> & Hb6 & Hc7). cbn [mbind option_bind].
  destruct (Read16_spec _ _ _ Hb6 Hc7 Hy) as (b7 & -> & Hb7 & Hc8). cbn [mbind option_bind].
  destruct (Read8_spec _ _ _ Hb7 Hc8 Hz) as (b8 & -> & Hb8 & Hc9). cbn [mbind option_bind].
  eauto.
Qed.

Lemma integers_roundtrip_witness :
  exists b', (b ← @Append64 zero_heap (mkBuffer 8 8 (repeat x00 16)) 305419896;
    b ← @Append32 zero_heap b 65537; b ← @Append16 zero_heap b 513; b ← @Append8 zero_heap b 7;
    '(w', b) ← Read64 b; '(x', b) ← Read32 b; '(y', b) ← Read16 b; '(z', b) ← Read8 b;
    Some (w', x', y', z', b)) = Some (305419896, 65537, 513, 7, b') /\ buf_wf b' /\ content b' = [].
Proof.
  apply (@integers_roundtrip zero_heap (mkBuffer 8 8 (repeat x00 16)));
    [by split|done|done| |lia|lia|lia|lia].
  intros n Hn. apply Z.ltb_lt. eapply Z.le_lt_trans; [exact Hn|reflexivity].
Defined.

(** C39 When reserving write space goes out of bounds: with memory available,
    [ReserveWriteSpace] on a well-formed buffer fails exactly when the request
    does not fit and the readable region with the 8-byte prefix does not fit in
    the block any more.  Then the unsigned difference
    [GetPrependableSize() - BUFFER_PREFIX_SIZE + GetWritableSize()] has wrapped
    and the region is moved past the end of the block. *)
Theorem reserve_overflow_iff `{Heap} (b : Buffer) (len : Z) :
  buf_wf b -> 0 <= len < 2 ^ 62 -> can_alloc (write_index_ b + len) = true ->
  ReserveWriteSpace b len = None <->
  GetWritableSize b < len /\ read_index_ b + GetWritableSize b < BUFFER_PREFIX_SIZE.
Proof.
  intros Hb Hlen Hal. buf_wf Hb. split.
  - intros E. destruct (decide (len <= GetWritableSize b \/ compactable b)) as [Hd|Hd].
    { destruct (ReserveWriteSpace_spec b len) as (b' & E' & _); [done|lia|done|done|]. congruence. }
    unfold compactable in Hd. rewrite writable_size in * by done. lia.
  - rewrite writable_size by done. intros [Hl Hrw].
    unfold ReserveWriteSpace. rewrite writable_size by done. buf_unfold.
    rewrite (proj2 (Z.leb_gt _ _)) by lia. rewrite u64_neg by lia.
    rewrite (proj2 (Z.ltb_ge _ _)) by lia. unfold mem_move.
    rewrite mem_read_ok by lia. cbn [mbind option_bind]. unfold mem_write.
    rewrite zlen_slice by lia. by rewrite (proj2 (Z.leb_gt (8 + _) _)) by lia.
Qed.

Lemma reserve_overflow_iff_witness :
  @ReserveWriteSpace zero_heap (mkBuffer 4 16 (repeat x00 16)) 1 = None <->
  GetWritableSize (mkBuffer 4 16 (repeat x00 16)) < 1 /\
  4 + GetWritableSize (mkBuffer 4 16 (repeat x00 16)) < 8.
Proof.
  apply (@reserve_overflow_iff zero_heap (mkBuffer 4 16 (repeat x00 16)) 1);
    [by split|lia|done].
Defined.

(** [FindCrLf(string&)] returns the bytes in front of the first CRLF and
    advances the read index to it; without a CRLF the buffer is unchanged. *)
Theorem find_crlf_line (b : Buffer) :
  buf_wf b ->
  (exists r b', 0 <= r /\ first_in (occurs_at [x0d; x0a] (content b)) 0 (GetReadableSize b + 1) r /\
     FindCrLf b = Some (b', Some (take (Z.to_nat r) (content b))) /\ buf_wf b' /\
     content b' = drop (Z.to_nat r) (content b) /\ r <> npos) \/
  (FindCrLf b = Some (b, None) /\
     forall i, ~ occurs_at [x0d; x0a] (content b) i).
Proof.
  intros Hb. buf_wf Hb. pose proof (content_size b Hb) as Hs.
  destruct (find_delim b CRLF [x0d; x0a]) as (r & Hf & Hfirst);
    [done|by apply view_of_wf|done|by apply (bool_decide_unpack _)|].
  unfold FindCrLf, FindCrLf_view. rewrite Hf. cbn [mbind option_bind].
  pose proof Hfirst as [[-> Hno]|(Hri & Hocc & _)].
  - right. cbn. split; [done|]. intros i Hocc. pose proof Hocc as (? & Hle & _).
    apply (Hno i); [|done]. cbn in Hle. rewrite !zlen_cons, zlen_nil in Hle. lia.
  - left. pose proof Hocc as (_ & Hle & _). rewrite !zlen_cons, zlen_nil in Hle.
    assert (r <> npos) by (unfold npos, npos64; rewrite readable_size in * by done; lia).
    rewrite (proj2 (Z.eqb_neq _ _)) by done.
    destruct (line_view b r) as [-> ->]; [done|lia|]. cbn [mbind option_bind].
    destruct (AdvanceRead_spec b r) as (b' & -> & Hwf & Hc & _); [done|lia|].
    exists r, b'. split_and!; done || lia.
Qed.

Lemma find_crlf_line_witness :
  let b := mkBuffer 8 14 (repeat x00 8 ++ str "ab" ++ [x0d; x0a] ++ str "cd") in
  (exists r b', 0 <= r /\ first_in (occurs_at [x0d; x0a] (content b)) 0 (GetReadableSize b + 1) r /\
     FindCrLf b = Some (b', Some (take (Z.to_nat r) (content b))) /\ buf_wf b' /\
     content b' = drop (Z.to_nat r) (content b) /\ r <> npos) \/
  (FindCrLf b = Some (b, None) /\
     forall i, ~ occurs_at [x0d; x0a] (content b) i).
Proof. intros b. apply find_crlf_line. by split. Defined.

(** ** Defects *)

(** A message of exactly the initial size, its 4-byte length prepended, and one
    more byte appended: the public API alone writes past the heap block, where
    the comment in [ReserveWriteSpace] promises that one may append after the
    size header has been prepended. *)
Theorem append_after_prepend_overflows :
  (b ← @make_Buffer zero_heap 16; b ← @Append zero_heap b (repeat x41 16);
   b ← Prepend32 b 16; @Append zero_heap b [x42]) = None.
Proof. reflexivity. Qed.

(** [Shrink] neither resets the indices to the moved region nor keeps the
    prefix: a buffer from which two bytes were consumed has its write index
    past its block afterwards. *)
Theorem shrink_breaks_buffer :
  exists b b', buf_wf b /\ @Shrink zero_heap b 0 = Some b' /\ ~ buf_wf b' /\
    (b ← @make_Buffer zero_heap 16; b ← @Append zero_heap b (str "abcdef");
     AdvanceRead b 2) = Some b.
Proof.
  eexists _, _. split; [|split; [|split; [|reflexivity]]].
  - by split.
  - reflexivity.
  - intros [_ _ Hw _ _]. vm_compute in Hw. congruence.
Qed.

(** [FindCrLf(string&)] leaves the CRLF in the buffer: the next call returns an
    empty line without advancing, and so does every later one. *)
Theorem find_crlf_keeps_delimiter :
  exists b1, FindCrLf (mkBuffer 8 14 (repeat x00 8 ++ str "ab" ++ [x0d; x0a] ++ str "cd"))
      = Some (b1, Some (str "ab")) /\ FindCrLf b1 = Some (b1, Some []).
Proof. eexists. split; reflexivity. Qed.
