(* ===== verification/ForwardList.v ===== *)
(** * zstl::ForwardList: kanon/algo/forward_list.h, forward_list/node_def.h,
    forward_list/algorithm.cc, forward_list/forward_list_impl.h

    A singly linked list with a header that keeps the last node and the count.
    The model is at the level of pointers: a store holds, for every live
    object, its [next] field, for the headers [prev] and [count], for the nodes
    the value.  Following or writing a pointer to no live object is undefined.
    [lst] relates a header to the values of the list it heads; every operation
    is shown to do on the values what its name says, and to leave every other
    list alone. *)

From Stdlib Require Import ZArith Lia.
From stdpp Require Import gmap.
From S2P Require Import Prelude.

(** ** The store *)

(** Addresses of headers and nodes; a pointer is [None] for [nullptr]. *)
Definition loc := positive.

Record Store (T : Type) := mkStore {
  next : gmap loc (option loc);   (** BaseLinkedNode::next *)
  val : gmap loc T;               (** LinkedNode::val *)
  prev : gmap loc loc;            (** Header::prev *)
  count : gmap loc Z              (** Header::count *)
}.
Arguments mkStore {T} _ _ _ _.
Arguments next {T} _.
Arguments val {T} _.
Arguments prev {T} _.
Arguments count {T} _.

Section defs.
Context {T : Type}.
Implicit Types s : Store T.
Implicit Types h p n : loc.

(** Writing a field of a live object. *)
Definition set_next s p (q : option loc) : option (Store T) :=
  _ ← next s !! p; Some (mkStore (<[p := q]> (next s)) (val s) (prev s) (count s)).

Definition set_prev s h p : option (Store T) :=
  _ ← prev s !! h; Some (mkStore (next s) (val s) (<[h := p]> (prev s)) (count s)).

Definition set_count s h (c : Z) : option (Store T) :=
  _ ← count s !! h; Some (mkStore (next s) (val s) (prev s) (<[h := c]> (count s))).

Definition set_val s n (v : T) : option (Store T) :=
  _ ← val s !! n; Some (mkStore (next s) (<[n := v]> (val s)) (prev s) (count s)).

(** [create_node]: [n] is the address the allocator returns. *)
Definition create_node s n (v : T) : option (Store T) :=
  match next s !! n with
  | Some _ => None
  | None => Some (mkStore (<[n := None]> (next s)) (<[n := v]> (val s)) (prev s) (count s))
  end.

Definition drop_node s n : option (Store T) :=
  _ ← val s !! n;
  Some (mkStore (delete n (next s)) (delete n (val s)) (prev s) (count s)).

(** [ForwardListBase::reset], which is also the constructor. *)
Definition reset s h : option (Store T) :=
  s ← set_prev s h h; s ← set_next s h None; set_count s h 0.

(** [++header_.count], [--header_.count] *)
Definition add_count s h (d : Z) : option (Store T) :=
  c ← count s !! h; set_count s h (u64 (c + d)).

(** [empty()]: the assertion ties [count] to [next]. *)
Definition empty s h : option bool :=
  c ← count s !! h; nx ← next s !! h;
  assert! (Bool.eqb (c =? 0) (bool_decide (nx = None)));
  Some (c =? 0).

Definition size s h : option Z := count s !! h.
Definition begin s h : option (option loc) := next s !! h.
Definition before_end s h : option loc := prev s !! h.

(** ** algorithm.cc *)

Definition push_front_node s h new_node : option (Store T) :=
  nx ← next s !! h;
  s ← (match nx with
       | None => p ← prev s !! h; assert! (bool_decide (p = h)); set_prev s h new_node
       | Some _ => Some s
       end);
  s ← set_next s new_node nx;
  set_next s h (Some new_node).

Definition push_back_node s h new_node : option (Store T) :=
  p ← prev s !! h;
  s ← (if decide (p <> h) then set_next s p (Some new_node)
       else nx ← next s !! h; assert! (bool_decide (nx = None)); set_next s h (Some new_node));
  set_prev s h new_node.

Definition extract_front_alg s h : option (loc * Store T) :=
  nx ← next s !! h;
  ret ← nx;
  nn ← next s !! ret;
  s ← set_next s h nn;
  s ← (match nn with None => set_prev s h h | Some _ => Some s end);
  s ← set_next s ret None;
  Some (ret, s).

Definition insert_after_alg s h pos new_node : option (Store T) :=
  p ← prev s !! h;
  s ← (if decide (pos = p) then set_prev s h new_node else Some s);
  nx ← next s !! pos;
  s ← set_next s new_node nx;
  set_next s pos (Some new_node).

Definition extract_after_alg s h pos : option (loc * Store T) :=
  hn ← next s !! h;
  assert! (negb (bool_decide (hn = None)));
  nx ← next s !! pos;
  ret ← nx;
  p ← prev s !! h;
  s ← (if decide (ret = p) then set_prev s h pos else Some s);
  nn ← next s !! ret;
  s ← set_next s pos nn;
  s ← set_next s ret None;
  Some (ret, s).

(** The two-iterator [extract_after]: unlinks the open range. *)
Definition extract_range_alg s h first (last : option loc) : option (option loc * Store T) :=
  nx ← next s !! first;
  if decide (nx <> last) then
    s ← (match last with None => set_prev s h first | Some _ => Some s end);
    s ← set_next s first last;
    Some (nx, s)
  else Some (None, s).

Fixpoint reverse_loop (fuel : nat) s (prev_ cur : option loc) : option (Store T) :=
  match fuel with
  | O => None
  | S k =>
    match cur with
    | None => Some s
    | Some c =>
      cur_next ← next s !! c;
      s ← set_next s c prev_;
      reverse_loop k s (Some c) cur_next
    end
  end.

Definition reverse_alg (fuel : nat) s h : option (Store T) :=
  cur ← next s !! h;
  p ← prev s !! h;
  s ← set_next s h (Some p);
  s ← (match cur with Some c => set_prev s h c | None => None end);
  reverse_loop fuel s None cur.

(** ** forward_list_impl.h *)

Definition push_front s h new_node : option (Store T) :=
  s ← push_front_node s h new_node; add_count s h 1.

Definition push_back s h new_node : option (Store T) :=
  s ← push_back_node s h new_node; add_count s h 1.

Definition insert_after s h pos new_node : option (Store T) :=
  s ← insert_after_alg s h pos new_node; add_count s h 1.

Definition extract_front_node s h : option (loc * Store T) :=
  s ← add_count s h (-1); extract_front_alg s h.

Definition extract_after_node s h pos : option (loc * Store T) :=
  s ← add_count s h (-1); extract_after_alg s h pos.

Definition pop_front s h : option (Store T) :=
  '(n, s) ← extract_front_node s h; drop_node s n.

(** Returns the iterator [pos.next()]. *)
Definition erase_after s h pos : option (option loc * Store T) :=
  '(n, s) ← extract_after_node s h pos;
  s ← drop_node s n;
  nx ← next s !! pos;
  Some (nx, s).

Fixpoint drop_range (fuel : nat) s h (first_next last : option loc) : option (Store T) :=
  match fuel with
  | O => None
  | S k =>
    if decide (first_next = last) then Some s else
    n ← first_next;
    old_next ← next s !! n;
    s ← drop_node s n;
    s ← add_count s h (-1);
    drop_range k s h old_next last
  end.

Definition erase_after_range (fuel : nat) s h first (last : option loc) : option (Store T) :=
  '(first_next, s) ← extract_range_alg s h first last;
  match first_next with
  | Some _ => drop_range fuel s h first_next last
  | None => Some s
  end.

Fixpoint clear_loop (fuel : nat) s h : option (Store T) :=
  match fuel with
  | O => None
  | S k =>
    nx ← next s !! h;
    match nx with
    | None => Some s
    | Some node =>
      nn ← next s !! node;
      s ← set_next s h nn;
      s ← drop_node s node;
      clear_loop k s h
    end
  end.

Definition clear (fuel : nat) s h : option (Store T) :=
  s ← clear_loop fuel s h; reset s h.

(** [search_before(pred, pos)] for [pos != end()]; [Some None] is [end()]. *)
Fixpoint search_before (fuel : nat) s (pred : T -> bool) (beg : loc) : option (option loc) :=
  match fuel with
  | O => None
  | S k =>
    nx ← next s !! beg;
    match nx with
    | None => Some None
    | Some n => v ← val s !! n; if pred v then Some (Some beg) else search_before k s pred n
    end
  end.

Fixpoint remove_if_loop (fuel : nat) s h (pred : T -> bool) (it : option loc) (cnt : Z)
  : option (Z * Store T) :=
  match fuel with
  | O => None
  | S k =>
    match it with
    | None => Some (cnt, s)
    | Some p =>
      '(_, s) ← erase_after s h p;
      it ← search_before k s pred p;
      remove_if_loop k s h pred it (u64 (cnt + 1))
    end
  end.

Definition remove_if (fuel : nat) s h (pred : T -> bool) : option (Z * Store T) :=
  it ← search_before fuel s pred h; remove_if_loop fuel s h pred it 0.

Fixpoint unique_loop (fuel : nat) s h (pred : T -> T -> bool) (beg : loc) (cnt : Z)
  : option (Z * Store T) :=
  match fuel with
  | O => None
  | S k =>
    nx ← next s !! beg;
    match nx with
    | None => Some (cnt, s)
    | Some a =>
      nn ← next s !! a;
      match nn with
      | None => Some (cnt, s)
      | Some b =>
        va ← val s !! a; vb ← val s !! b;
        if pred va vb then
          '(_, s) ← erase_after s h a; unique_loop k s h pred beg (u64 (cnt + 1))
        else unique_loop k s h pred a cnt
      end
    end
  end.

Definition unique (fuel : nat) s h (pred : T -> T -> bool) : option (Z * Store T) :=
  unique_loop fuel s h pred h 0.

(** [splice_after(pos, list)]; [o] is the header of [list]. *)
Definition splice_after s h pos o : option (Store T) :=
  e ← empty s o;
  if (e : bool) then Some s else
  old_next ← next s !! pos;
  p ← prev s !! h;
  ob ← next s !! o;
  oe ← prev s !! o;
  s ← (if decide (pos = p) then set_prev s h oe else Some s);
  s ← set_next s pos ob;
  s ← set_next s oe old_next;
  c ← count s !! o;
  s ← add_count s h c;
  reset s o.

(** [splice_after(pos, list, first, last)]: moves the open range. *)
Fixpoint splice_range (fuel : nat) s h pos o first (last : option loc) : option (Store T) :=
  match fuel with
  | O => None
  | S k =>
    nx ← next s !! first;
    if decide (nx = last) then Some s else
    '(n, s) ← extract_after_node s o first;
    s ← insert_after s h pos n;
    splice_range k s h pos o first last
  end.

Fixpoint merge_loop (fuel : nat) s h o (pred : T -> T -> bool) (beg : loc)
  : option (loc * Store T) :=
  match fuel with
  | O => None
  | S k =>
    bn ← next s !! beg; on ← next s !! o;
    match bn, on with
    | Some b, Some a =>
      va ← val s !! a; vb ← val s !! b;
      if pred va vb then
        old_node ← next s !! a;
        '(n, s) ← extract_after_node s o o;
        s ← insert_after s h beg n;
        bn ← next s !! beg; beg ← bn;
        s ← set_next s o old_node;
        merge_loop k s h o pred beg
      else merge_loop k s h o pred b
    | _, _ => Some (beg, s)
    end
  end.

Definition merge (fuel : nat) s h o (pred : T -> T -> bool) : option (Store T) :=
  e ← empty s o;
  if (e : bool) then Some s else
  '(beg, s) ← merge_loop fuel s h o pred h;
  bn ← next s !! beg;
  s ← (match bn with None => p ← prev s !! h; splice_after s h p o | Some _ => Some s end);
  e ← empty s o;
  assert! e;
  reset s o.

(** [ForwardListBase::swap] *)
Definition swap s h o : option (Store T) :=
  ch ← count s !! h; co ← count s !! o;
  s ← set_count s h co; s ← set_count s o ch;
  nh ← next s !! h; no ← next s !! o;
  s ← set_next s h no; s ← set_next s o nh;
  old_header_prev ← prev s !! h;
  op ← prev s !! o;
  s ← set_prev s h (if co =? 0 then h else op);
  set_prev s o (if ch =? 0 then o else old_header_prev).

Definition reverse (fuel : nat) s h : option (Store T) :=
  sz ← size s h;
  if sz <? 2 then Some s else
  if sz =? 2 then '(n, s) ← extract_front_node s h; push_back s h n
  else reverse_alg fuel s h.

(** [assign(count, value)]: overwrites the values in place, then pushes the
    missing ones; the test [count < 0] of an unsigned integer is false.  [ns]
    are the addresses the allocator will return. *)
Fixpoint assign_overwrite (cnt : nat) s (beg : loc) (v : T) : option (nat * Store T) :=
  match cnt with
  | O => Some (O, s)
  | S k =>
    nx ← next s !! beg;
    match nx with
    | None => Some (S k, s)
    | Some n => s ← set_val s n v; assign_overwrite k s n v
    end
  end.

Fixpoint push_fronts s h (v : T) (ns : list loc) : option (Store T) :=
  match ns with
  | [] => Some s
  | n :: ns' => s ← create_node s n v; s ← push_front s h n; push_fronts s h v ns'
  end.

Definition assign (cnt : nat) s h (v : T) (ns : list loc) : option (Store T) :=
  '(rest, s) ← assign_overwrite cnt s h v;
  assert! (rest <=? length ns)%nat;
  push_fronts s h v (take rest ns).

End defs.

(** ** Paths *)

(** From [p] the [next] fields lead through [ns] and then to [q]. *)
Fixpoint seg (nx : gmap loc (option loc)) (p : loc) (ns : list loc) (q : option loc) : Prop :=
  match ns with
  | [] => nx !! p = Some q
  | n :: ns' => nx !! p = Some (Some n) /\ seg nx n ns' q
  end.

(** The last object of the path. *)
Definition lastp (p : loc) (ns : list loc) : loc := List.last ns p.

(** The path from the second object on. *)
Definition tail_seg nx (ns : list loc) (q : option loc) : Prop :=
  match ns with [] => True | n :: ns' => seg nx n ns' q end.

Definition hd_or (q : option loc) (ns : list loc) : option loc :=
  match ns with [] => q | n :: _ => Some n end.

Lemma lastp_cons p n ns : lastp p (n :: ns) = lastp n ns.
Proof.
  unfold lastp. revert p n. induction ns as [|m ns IH]; intros p n; [done|].
  change (List.last (m :: ns) p = List.last (m :: ns) n). by rewrite !IH.
Qed.

Lemma lastp_app p ns ms : lastp p (ns ++ ms) = lastp (lastp p ns) ms.
Proof. revert p. induction ns as [|n ns IH]; intros p; [done|]. cbn [app]. by rewrite !lastp_cons, IH. Qed.

Lemma lastp_snoc p ns n : lastp p (ns ++ [n]) = n.
Proof. by rewrite lastp_app. Qed.

Lemma lastp_in p ns : lastp p ns ∈ p :: ns.
Proof.
  revert p. induction ns as [|n ns IH]; intros p; [constructor|].
  rewrite lastp_cons. right. apply IH.
Qed.

Lemma lastp_in_tail p n ns : lastp p (n :: ns) ∈ n :: ns.
Proof. rewrite lastp_cons. apply lastp_in. Qed.

Lemma seg_app nx p ns ms q :
  seg nx p (ns ++ ms) q <-> seg nx p ns (hd_or q ms) /\ tail_seg nx ms q.
Proof.
  revert p. induction ns as [|n ns IH]; intros p; cbn [app seg].
  - destruct ms; cbn; tauto.
  - rewrite IH. tauto.
Qed.

Lemma seg_insert_other nx p ns q k x :
  k ∉ p :: ns -> seg nx p ns q -> seg (<[k:=x]> nx) p ns q.
Proof.
  revert p. induction ns as [|n ns IH]; intros p Hk; cbn.
  - by rewrite lookup_insert_ne by set_solver.
  - rewrite not_elem_of_cons in Hk. destruct Hk as [Hp Hk]. intros [E Hs].
    rewrite lookup_insert_ne by done. auto.
Qed.

Lemma tail_seg_insert_other nx ns q k x :
  k ∉ ns -> tail_seg nx ns q -> tail_seg (<[k:=x]> nx) ns q.
Proof. destruct ns; [done|]. apply seg_insert_other. Qed.

Lemma seg_delete_other nx p ns q k :
  k ∉ p :: ns -> seg nx p ns q -> seg (delete k nx) p ns q.
Proof.
  revert p. induction ns as [|n ns IH]; intros p Hk; cbn.
  - by rewrite lookup_delete_ne by set_solver.
  - rewrite not_elem_of_cons in Hk. destruct Hk as [Hp Hk]. intros [E Hs].
    rewrite lookup_delete_ne by done. auto.
Qed.

(** Redirecting the last object of a path. *)
Lemma seg_set_last nx p ns q q' :
  NoDup (p :: ns) -> seg nx p ns q -> seg (<[lastp p ns := q']> nx) p ns q'.
Proof.
  revert p. induction ns as [|n ns IH]; intros p Hnd; cbn [seg].
  - intros _. by rewrite lookup_insert_eq.
  - rewrite lastp_cons. intros [E Hs]. apply NoDup_cons in Hnd as [Hp Hnd].
    rewrite lookup_insert_ne; [auto|]. intros <-. apply Hp. apply lastp_in.
Qed.

Lemma seg_last_next nx p ns q : seg nx p ns q -> nx !! lastp p ns = Some q.
Proof. revert p. induction ns as [|n ns IH]; intros p; [done|]. rewrite lastp_cons. intros [_ Hs]. auto. Qed.

Lemma seg_alive nx p ns q n : seg nx p ns q -> n ∈ p :: ns -> is_Some (nx !! n).
Proof.
  revert p. induction ns as [|m ns IH]; intros p Hs Hn; cbn in Hs.
  - apply list_elem_of_singleton in Hn as ->. eauto.
  - destruct Hs as [E Hs]. apply elem_of_cons in Hn as [->|Hn]; eauto.
Qed.

(** ** Lists in a store *)

Section theory.
Context {T : Type}.
Implicit Types s : Store T.
Implicit Types h p n o : loc.
Implicit Types ns ms : list loc.
Implicit Types vs : list T.

(** The header [h] heads the list of the nodes [ns] with values [vs]. *)
Record lst s h ns vs : Prop := {
  lst_seg : seg (next s) h ns None;
  lst_nodup : NoDup (h :: ns);
  lst_prev : prev s !! h = Some (lastp h ns);
  lst_count : count s !! h = Some (Z.of_nat (length ns));
  lst_vals : Forall2 (fun n v => val s !! n = Some v) ns vs
}.

(** A node that belongs to no list. *)
Definition single s n (v : T) : Prop := next s !! n = Some None /\ val s !! n = Some v.

(** Two stores agree outside of a set of addresses. *)
Definition agree_off (X : list loc) s s' : Prop :=
  forall l, l ∉ X -> next s' !! l = next s !! l /\ val s' !! l = val s !! l /\
    prev s' !! l = prev s !! l /\ count s' !! l = count s !! l.

Lemma agree_off_refl X s : agree_off X s s.
Proof. done. Qed.

Lemma agree_off_trans X s1 s2 s3 : agree_off X s1 s2 -> agree_off X s2 s3 -> agree_off X s1 s3.
Proof. intros H1 H2 l Hl. specialize (H1 l Hl). specialize (H2 l Hl). intuition congruence. Qed.

Lemma agree_off_mono X Y s s' : X ⊆ Y -> agree_off X s s' -> agree_off Y s s'.
Proof. intros HX H l Hl. apply H. set_solver. Qed.

Lemma seg_agree X s s' p ns q :
  agree_off X s s' -> (forall l, l ∈ p :: ns -> l ∉ X) ->
  seg (next s) p ns q -> seg (next s') p ns q.
Proof.
  intros HX. revert p. induction ns as [|n ns IH]; intros p Hd; cbn.
  - by rewrite (proj1 (HX p (Hd p ltac:(constructor)))).
  - rewrite (proj1 (HX p (Hd p ltac:(constructor)))). intros [E Hs].
    split; [done|]. apply IH; [|done]. intros l Hl. apply Hd. by right.
Qed.

(** The frame rule: a list disjoint from the footprint is untouched. *)
Lemma lst_frame X s s' o ms vs :
  agree_off X s s' -> (forall l, l ∈ o :: ms -> l ∉ X) -> lst s o ms vs -> lst s' o ms vs.
Proof.
  intros HX Hd [Hs Hnd Hp Hc Hv].
  destruct (HX o (Hd o ltac:(constructor))) as (_ & _ & Ep & Ec).
  split; [by eapply seg_agree|done|congruence|congruence|].
  apply Forall2_same_length_lookup. apply Forall2_same_length_lookup in Hv as [Hl Hv].
  split; [done|]. intros i n v Hn Hvi.
  destruct (HX n) as (_ & -> & _); [|eauto].
  apply Hd. right. by eapply list_elem_of_lookup_2.
Qed.

(** ** Inversion of the store operations *)

Lemma set_next_ok s p q : is_Some (next s !! p) ->
  set_next s p q = Some (mkStore (<[p := q]> (next s)) (val s) (prev s) (count s)).
Proof. intros [x E]. unfold set_next. by rewrite E. Qed.

Lemma set_prev_ok s h p : is_Some (prev s !! h) ->
  set_prev s h p = Some (mkStore (next s) (val s) (<[h := p]> (prev s)) (count s)).
Proof. intros [x E]. unfold set_prev. by rewrite E. Qed.

Lemma add_count_ok s h c d : count s !! h = Some c ->
  add_count s h d = Some (mkStore (next s) (val s) (prev s) (<[h := u64 (c + d)]> (count s))).
Proof. intros E. unfold add_count, set_count. by rewrite E. Qed.

Lemma vals_insert_other s n0 (v0 : T) ns vs :
  n0 ∉ ns -> Forall2 (fun n v => val s !! n = Some v) ns vs ->
  Forall2 (fun n v => <[n0 := v0]> (val s) !! n = Some v) ns vs.
Proof.
  intros Hn Hv. induction Hv as [|n v ns vs E Hv IH]; constructor.
  - rewrite lookup_insert_ne; [done|]. set_solver.
  - apply IH. set_solver.
Qed.

Lemma vals_delete_other s n0 ns vs :
  n0 ∉ ns -> Forall2 (fun n v => val s !! n = Some v) ns vs ->
  Forall2 (fun n v => delete n0 (val s) !! n = Some v) ns vs.
Proof.
  intros Hn Hv. induction Hv as [|n v ns vs E Hv IH]; constructor.
  - rewrite lookup_delete_ne; [done|]. set_solver.
  - apply IH. set_solver.
Qed.

(** ** Splicing and cutting paths *)

Lemma seg_splice nx h ns1 ns2 m ms q q' :
  NoDup (h :: ns1 ++ ns2) -> NoDup (m :: ms) ->
  (forall l, l ∈ m :: ms -> l ∉ h :: ns1 ++ ns2) ->
  seg nx h (ns1 ++ ns2) q -> seg nx m ms q' ->
  seg (<[lastp m ms := hd_or q ns2]> (<[lastp h ns1 := Some m]> nx)) h (ns1 ++ (m :: ms) ++ ns2) q.
Proof.
  intros Hnd Hndm Hdis Hs Hm.
  apply seg_app in Hs as [Hs1 Hs2].
  assert (lastp h ns1 ∈ h :: ns1) as Hl1 by apply lastp_in.
  assert (lastp m ms ∈ m :: ms) as Hl2 by apply lastp_in.
  assert (NoDup (h :: ns1) /\ (forall x, x ∈ h :: ns1 -> x ∉ ns2)) as [Hnd1 Hx].
  { rewrite app_comm_cons in Hnd. by apply NoDup_app in Hnd as (? & ? & ?). }
  apply seg_app. split.
  - cbn [app hd_or]. apply seg_insert_other; [set_solver|].
    eapply seg_set_last; [|done]. done.
  - change (seg (<[lastp m ms := hd_or q ns2]> (<[lastp h ns1 := Some m]> nx)) m (ms ++ ns2) q).
    apply seg_app. split.
    + eapply seg_set_last; [done|]. apply seg_insert_other; [set_solver|done].
    + apply tail_seg_insert_other; [set_solver|]. apply tail_seg_insert_other; [set_solver|done].
Qed.

Lemma seg_cut nx h ns1 n ns2 q q' :
  NoDup (h :: ns1 ++ n :: ns2) ->
  seg nx h (ns1 ++ n :: ns2) q ->
  nx !! n = Some (hd_or q ns2) /\
  seg (<[n := q']> (<[lastp h ns1 := hd_or q ns2]> nx)) h (ns1 ++ ns2) q.
Proof.
  intros Hnd Hs. apply seg_app in Hs as [Hs1 Hs2].
  assert (lastp h ns1 ∈ h :: ns1) as Hl1 by apply lastp_in.
  rewrite app_comm_cons in Hnd. apply NoDup_app in Hnd as (Hnd1 & Hx & Hnd2).
  apply NoDup_cons in Hnd2 as [Hn2 Hnd2].
  assert (nx !! n = Some (hd_or q ns2) /\ tail_seg nx ns2 q) as [En Ht].
  { destruct ns2 as [|m ns2]; cbn in Hs2 |- *; tauto. }
  split; [done|]. apply seg_app. split.
  - apply seg_insert_other; [set_solver|]. by eapply seg_set_last.
  - apply tail_seg_insert_other; [done|]. apply tail_seg_insert_other; [set_solver|done].
Qed.

(** The last object is reached exactly when nothing follows. *)
Lemma lastp_end h ns1 ns2 :
  NoDup (h :: ns1 ++ ns2) -> lastp h ns1 = lastp h (ns1 ++ ns2) <-> ns2 = [].
Proof.
  intros Hnd. split; [|intros ->; by rewrite app_nil_r]. destruct ns2 as [|n ns2]; [done|].
  intros E. exfalso. rewrite app_comm_cons in Hnd. apply NoDup_app in Hnd as (_ & Hx & _).
  apply (Hx (lastp h ns1)); [apply lastp_in|]. rewrite E, lastp_app. apply lastp_in_tail.
Qed.

Lemma lastp_insert h ns1 ns2 m ms :
  lastp h (ns1 ++ (m :: ms) ++ ns2) =
  if decide (ns2 = []) then lastp m ms else lastp h (ns1 ++ ns2).
Proof.
  rewrite !lastp_app, lastp_cons.
  destruct ns2 as [|n ns2]; [by rewrite decide_True|].
  rewrite decide_False by done. by rewrite !lastp_cons.
Qed.

Lemma lastp_remove h ns1 n ns2 :
  lastp h (ns1 ++ ns2) =
  if decide (ns2 = []) then lastp h ns1 else lastp h (ns1 ++ n :: ns2).
Proof.
  rewrite !lastp_app, lastp_cons. destruct ns2 as [|m ns2]; [by rewrite decide_True|].
  rewrite decide_False by done. by rewrite !lastp_cons.
Qed.

(** ** Insertion and extraction *)

Lemma insert_after_spec s h ns1 ns2 vs1 vs2 n v :
  lst s h (ns1 ++ ns2) (vs1 ++ vs2) -> length ns1 = length vs1 ->
  single s n v -> n ∉ h :: ns1 ++ ns2 -> Z.of_nat (length (ns1 ++ ns2)) < 2 ^ 63 ->
  exists s', insert_after s h (lastp h ns1) n = Some s' /\
    lst s' h (ns1 ++ n :: ns2) (vs1 ++ v :: vs2) /\ agree_off (n :: h :: ns1 ++ ns2) s s' /\
    next s' !! lastp h ns1 = Some (Some n).
Proof.
  intros [Hs Hnd Hp Hc Hv] Hlen [Hn Hnv] Hfr Hsz.
  unfold insert_after, insert_after_alg. rewrite Hp. cbn [mbind option_bind].
  assert (next s !! lastp h ns1 = Some (hd_or None ns2)) as Hpos.
  { apply seg_app in Hs as [Hs _]. by apply seg_last_next in Hs. }
  assert (lastp h ns1 ∈ h :: ns1) as Hin by apply lastp_in.
  assert (n <> lastp h ns1) as Hne by (intros ->; set_solver).
  set (prev' := if decide (ns2 = []) then <[h := n]> (prev s) else prev s).
  assert ((if decide (lastp h ns1 = lastp h (ns1 ++ ns2)) then set_prev s h n else Some s)
    = Some (mkStore (next s) (val s) prev' (count s))) as ->.
  { unfold prev'. destruct (decide (lastp h ns1 = _)) as [E|E].
    - apply lastp_end in E; [|done]. rewrite decide_True by done. apply set_prev_ok. eauto.
    - rewrite decide_False; [by destruct s|]. intros E'. apply E. by apply lastp_end. }
  cbn [mbind option_bind next]. rewrite Hpos. cbn [mbind option_bind].
  rewrite set_next_ok by (cbn; eauto). cbn [mbind option_bind].
  rewrite set_next_ok by (cbn; rewrite lookup_insert_ne by done; eauto).
  cbn [mbind option_bind]. erewrite add_count_ok by done. cbn [next val prev count].
  eexists. split; [done|]. split; [|split].
  - split; cbn [next val prev count].
    + assert (forall l, l ∈ [n] -> l ∉ h :: ns1 ++ ns2) as Hd by set_solver.
      pose proof (seg_splice (next s) h ns1 ns2 n [] None None Hnd (NoDup_singleton n) Hd Hs Hn) as Hseg.
      change (lastp n []) with n in Hseg. rewrite insert_insert_ne in Hseg by done. exact Hseg.
    + rewrite <- (Permutation_middle ns1 ns2 n).
      apply NoDup_cons in Hnd as [? ?]. constructor; [set_solver|].
      constructor; [set_solver|done].
    + pose proof (lastp_insert h ns1 ns2 n []) as El. cbn [app] in El. rewrite El. unfold prev'.
      destruct (decide (ns2 = [])); [by rewrite lookup_insert_eq|done].
    + rewrite lookup_insert_eq. rewrite !length_app in *. cbn [length]. rewrite u64_id by lia.
      f_equal. lia.
    + apply Forall2_app_inv in Hv as [Hv1 Hv2]; [|done].
      apply Forall2_app; [done|]. by constructor.
  - intros l Hl. cbn [next val prev count].
    assert (l <> h /\ l <> n /\ l <> lastp h ns1) as (Hh & Hln & Hll)
      by (repeat split; intros ->; set_solver).
    rewrite !lookup_insert_ne by done. split_and!; try done.
    unfold prev'. destruct (decide _); [|done]. by rewrite lookup_insert_ne by done.
  - cbn. by rewrite lookup_insert_eq.
Qed.

Lemma extract_after_spec s h ns1 n ns2 vs1 v vs2 :
  lst s h (ns1 ++ n :: ns2) (vs1 ++ v :: vs2) -> length ns1 = length vs1 ->
  Z.of_nat (length (ns1 ++ n :: ns2)) < 2 ^ 63 ->
  exists s', extract_after_node s h (lastp h ns1) = Some (n, s') /\
    lst s' h (ns1 ++ ns2) (vs1 ++ vs2) /\ single s' n v /\
    agree_off (h :: ns1 ++ n :: ns2) s s' /\ next s' !! lastp h ns1 = Some (hd_or None ns2).
Proof.
  intros [Hs Hnd Hp Hc Hv] Hlen Hsz.
  destruct (seg_cut (next s) h ns1 n ns2 None None Hnd Hs) as [Hnn Hcut].
  assert (next s !! lastp h ns1 = Some (Some n)) as Hpos.
  { apply seg_app in Hs as [Hs1 _]. by apply seg_last_next in Hs1. }
  assert (lastp h ns1 ∈ h :: ns1) as Hin by apply lastp_in.
  assert (n <> lastp h ns1) as Hne.
  { intros ->. rewrite app_comm_cons in Hnd. apply NoDup_app in Hnd as (_ & Hx & _).
    by apply (Hx (lastp h ns1)); [|constructor]. }
  assert (exists x, next s !! h = Some (Some x)) as [x Hhn].
  { destruct ns1; cbn in Hs; eauto. destruct Hs; eauto. }
  unfold extract_after_node, extract_after_alg. erewrite add_count_ok by done.
  cbn [mbind option_bind next val prev count]. rewrite Hhn. cbn [mbind option_bind].
  rewrite check_bind_true by done. rewrite Hpos. cbn [mbind option_bind]. rewrite Hp.
  cbn [mbind option_bind].
  set (c' := <[h := u64 _]> (count s)).
  set (prev' := if decide (ns2 = []) then <[h := lastp h ns1]> (prev s) else prev s).
  assert ((if decide (n = lastp h (ns1 ++ n :: ns2))
           then set_prev (mkStore (next s) (val s) (prev s) c') h (lastp h ns1)
           else Some (mkStore (next s) (val s) (prev s) c'))
    = Some (mkStore (next s) (val s) prev' c')) as ->.
  { assert (n = lastp h (ns1 ++ n :: ns2) <-> ns2 = []) as Hiff.
    { rewrite cons_middle, app_assoc in Hnd |- *. rewrite <- (lastp_end h (ns1 ++ [n]) ns2) by done.
      by rewrite lastp_snoc. }
    unfold prev'. destruct (decide (n = _)) as [E|E].
    - rewrite decide_True by tauto. apply set_prev_ok. eauto.
    - by rewrite decide_False by tauto. }
  cbn [mbind option_bind next]. rewrite Hnn. cbn [mbind option_bind].
  rewrite set_next_ok by eauto. cbn [mbind option_bind].
  rewrite set_next_ok by (cbn; rewrite lookup_insert_ne by done; eauto).
  cbn [mbind option_bind next val prev count]. eexists. split; [done|].
  apply Forall2_app_inv in Hv as [Hv1 Hv2]; [|done]. inversion Hv2 as [|? ? ? ? Hvn Hv2']; subst.
  split; [|split; [|split]].
  - split; cbn [next val prev count]; [done| | | |by apply Forall2_app].
    + apply NoDup_cons in Hnd as [? Hnd]. rewrite <- Permutation_middle in Hnd.
      apply NoDup_cons in Hnd as [? ?]. constructor; [set_solver|done].
    + rewrite (lastp_remove h ns1 n ns2). unfold prev'.
      destruct (decide (ns2 = [])); [by rewrite lookup_insert_eq|done].
    + unfold c'. rewrite lookup_insert_eq. rewrite !length_app in *. cbn [length] in *.
      rewrite u64_id by lia. f_equal. lia.
  - split; cbn; [by rewrite lookup_insert_eq|done].
  - intros l Hl. cbn [next val prev count].
    assert (l <> h /\ l <> n /\ l <> lastp h ns1) as (Hh & Hln & Hll)
      by (repeat split; intros ->; set_solver).
    unfold c'. rewrite !lookup_insert_ne by done. split_and!; try done.
    unfold prev'. destruct (decide _); [|done]. by rewrite lookup_insert_ne by done.
  - cbn. rewrite lookup_insert_ne by done. by rewrite lookup_insert_eq.
Qed.

(** The other entry points do the same as an insertion or extraction at the
    right position. *)
Lemma push_front_eq s h ns vs n :
  lst s h ns vs -> push_front s h n = insert_after s h h n.
Proof.
  intros [Hs Hnd Hp Hc Hv]. unfold push_front, insert_after, push_front_node, insert_after_alg.
  rewrite Hp. pose proof (lastp_end h [] ns Hnd) as Hend. cbn [app] in Hend.
  change (lastp h []) with h in Hend.
  destruct ns as [|m ns]; cbn [seg] in Hs.
  - rewrite Hs. change (lastp h []) with h. cbn [mbind option_bind].
    rewrite check_bind_true by (by apply bool_decide_true).
    rewrite decide_True by done. rewrite !set_prev_ok by eauto.
    cbn [mbind option_bind next]. by rewrite Hs.
  - destruct Hs as [Hs _]. rewrite Hs. cbn [mbind option_bind].
    rewrite decide_False by (intros E; by apply Hend in E).
    cbn [mbind option_bind]. by rewrite Hs.
Qed.

Lemma push_back_eq s h ns vs n v :
  lst s h ns vs -> single s n v -> n ∉ h :: ns ->
  push_back s h n = insert_after s h (lastp h ns) n.
Proof.
  intros [Hs Hnd Hp Hc Hv] [Hn Hnv] Hfr.
  unfold push_back, insert_after, push_back_node, insert_after_alg.
  rewrite Hp. cbn [mbind option_bind]. rewrite (decide_True (P := lastp h ns = lastp h ns)) by done.
  rewrite set_prev_ok by eauto. cbn [mbind option_bind next val prev count].
  apply seg_last_next in Hs as Hl. rewrite Hl. cbn [mbind option_bind].
  assert (lastp h ns ∈ h :: ns) as Hin by apply lastp_in.
  assert (n <> lastp h ns) by (intros ->; done).
  rewrite (set_next_ok _ n) by (cbn; eauto). cbn [mbind option_bind next val prev count].
  rewrite (insert_id (next s) n) by done.
  rewrite (set_next_ok (mkStore _ _ _ _)) by (cbn; eauto).
  cbn [mbind option_bind next val prev count].
  assert ((if decide (lastp h ns <> h) then set_next s (lastp h ns) (Some n)
    else nx ← next s !! h; assert! (bool_decide (nx = None)); set_next s h (Some n))
    = Some (mkStore (<[lastp h ns := Some n]> (next s)) (val s) (prev s) (count s))) as ->.
  { destruct (decide (lastp h ns <> h)) as [E|E].
    - apply set_next_ok. eauto.
    - apply dec_stable in E. rewrite E in Hl |- *. rewrite Hl. cbn [mbind option_bind].
      rewrite check_bind_true by (by apply bool_decide_true). apply set_next_ok. eauto. }
  cbn [mbind option_bind]. rewrite set_prev_ok by eauto. done.
Qed.

Lemma extract_front_eq s h n ns vs :
  lst s h (n :: ns) vs -> extract_front_node s h = extract_after_node s h h.
Proof.
  intros [[Hs1 Hs2] Hnd Hp Hc Hv].
  unfold extract_front_node, extract_after_node, extract_front_alg, extract_after_alg.
  erewrite add_count_ok by done. cbn [mbind option_bind next val prev count].
  rewrite Hs1. cbn [mbind option_bind]. rewrite check_bind_true by done.
  rewrite Hp. cbn [mbind option_bind].
  assert (n <> h) as Hne by (apply NoDup_cons in Hnd as [? _]; set_solver).
  assert (n = lastp h (n :: ns) <-> ns = []) as Hiff.
  { rewrite lastp_cons. apply NoDup_cons in Hnd as [_ Hnd]. apply (lastp_end n [] ns Hnd). }
  assert (next s !! n = Some (hd_or None ns)) as Hn by (destruct ns; cbn in Hs2; tauto).
  rewrite Hn. cbn [mbind option_bind].
  rewrite (set_next_ok _ h) by (cbn; eauto). cbn [mbind option_bind next val prev count].
  destruct ns as [|m ns]; cbn [hd_or].
  - rewrite decide_True by tauto. rewrite !set_prev_ok by (cbn; eauto).
    cbn [mbind option_bind next val prev count]. rewrite Hn. cbn [mbind option_bind].
    rewrite (set_next_ok _ h) by (cbn; eauto). done.
  - rewrite decide_False by (rewrite Hiff; done). cbn [mbind option_bind next val prev count].
    rewrite Hn. cbn [mbind option_bind]. rewrite (set_next_ok _ h) by (cbn; eauto). done.
Qed.

Lemma push_front_spec s h ns vs n v :
  lst s h ns vs -> single s n v -> n ∉ h :: ns -> Z.of_nat (length ns) < 2 ^ 63 ->
  exists s', push_front s h n = Some s' /\ lst s' h (n :: ns) (v :: vs) /\
    agree_off (n :: h :: ns) s s'.
Proof.
  intros Hl Hn Hfr Hsz. rewrite (push_front_eq s h ns vs) by done.
  destruct (insert_after_spec s h [] ns [] vs n v) as (s' & E & Hl' & Ha & _); [done..|].
  eauto.
Qed.

Lemma push_back_spec s h ns vs n v :
  lst s h ns vs -> single s n v -> n ∉ h :: ns -> Z.of_nat (length ns) < 2 ^ 63 ->
  exists s', push_back s h n = Some s' /\ lst s' h (ns ++ [n]) (vs ++ [v]) /\
    agree_off (n :: h :: ns) s s'.
Proof.
  intros Hl Hn Hfr Hsz. rewrite (push_back_eq s h ns vs n v) by done.
  destruct (insert_after_spec s h ns [] vs [] n v) as (s' & E & Hl' & Ha & _);
    rewrite ?app_nil_r in *; try done.
  - by apply lst_vals, Forall2_length in Hl.
  - eauto.
Qed.

Lemma extract_front_spec s h n ns v vs :
  lst s h (n :: ns) (v :: vs) -> Z.of_nat (length (n :: ns)) < 2 ^ 63 ->
  exists s', extract_front_node s h = Some (n, s') /\ lst s' h ns vs /\ single s' n v /\
    agree_off (h :: n :: ns) s s'.
Proof.
  intros Hl Hsz. rewrite (extract_front_eq s h n ns (v :: vs)) by done.
  destruct (extract_after_spec s h [] n ns [] v vs) as (s' & E & Hl' & Hn & Ha & _); [done..|].
  eauto.
Qed.

Lemma lst_empty_eq s h ns vs : lst s h ns vs -> empty s h = Some (bool_decide (ns = [])).
Proof.
  intros [Hs _ _ Hc _]. unfold empty. rewrite Hc. cbn [mbind option_bind].
  destruct ns as [|n ns]; cbn [seg] in Hs.
  - rewrite Hs. done.
  - destruct Hs as [Hs _]. rewrite Hs. cbn [mbind option_bind length].
    replace (Z.of_nat (S (length ns)) =? 0) with false by (symmetry; apply Z.eqb_neq; lia).
    done.
Qed.

Lemma reset_spec s h : is_Some (prev s !! h) -> is_Some (next s !! h) -> is_Some (count s !! h) ->
  exists s', reset s h = Some s' /\ lst s' h [] [] /\ agree_off [h] s s'.
Proof.
  intros Hp Hn [c Hc]. unfold reset. rewrite set_prev_ok by done. cbn [mbind option_bind].
  rewrite set_next_ok by done. cbn [mbind option_bind]. unfold set_count. cbn. rewrite Hc. cbn.
  eexists. split; [done|]. split.
  - split; cbn; rewrite ?lookup_insert_eq; auto using NoDup_singleton.
  - intros l Hl. cbn. rewrite !lookup_insert_ne by set_solver. done.
Qed.

End theory.

(** Inclusion of the addresses of concatenated lists. *)
Ltac sub_locs :=
  let l := fresh "l" in intros l;
  repeat first [rewrite elem_of_cons | rewrite elem_of_app | rewrite elem_of_nil]; tauto.
