(* ===== verification/ForwardListAlgo.v ===== *)
(** * The algorithms of zstl::ForwardList: splice_after, merge, reverse, swap,
    clear, search_before, remove_if, unique, sort, sort2 of
    kanon/algo/forward_list/forward_list_impl.h

    Each algorithm runs on the pointer store of [ForwardList] and is related to
    a function on the lists of values.  [sort] and [sort2] call nothing but
    operations that are characterised by then, so they are written on the lists
    of values directly. *)

From Stdlib Require Import ZArith Lia.
From stdpp Require Import gmap sorting.
From S2P Require Import Prelude ForwardList.

Section theory.
Context {T : Type}.
Implicit Types s : Store T.
Implicit Types h p n o : loc.
Implicit Types ns ms : list loc.
Implicit Types vs : list T.

(** ** splice_after *)

Lemma splice_after_spec s h ns1 ns2 vs1 vs2 o ms ws :
  lst s h (ns1 ++ ns2) (vs1 ++ vs2) -> length ns1 = length vs1 -> lst s o ms ws ->
  (forall l, l ∈ h :: ns1 ++ ns2 -> l ∉ o :: ms) ->
  Z.of_nat (length (ns1 ++ ns2)) + Z.of_nat (length ms) < 2 ^ 63 ->
  exists s', splice_after s h (lastp h ns1) o = Some s' /\
    lst s' h (ns1 ++ ms ++ ns2) (vs1 ++ ws ++ vs2) /\ lst s' o [] [] /\
    agree_off (h :: ns1 ++ ns2 ++ o :: ms) s s'.
Proof.
  intros Hl Hlen Ho Hdis Hsz. unfold splice_after.
  rewrite (lst_empty_eq s o ms ws) by done. cbn [mbind option_bind].
  destruct ms as [|m ms].
  { inversion Ho as [_ _ _ _ Hv]. inversion Hv; subst. cbn. eauto using agree_off_refl. }
  rewrite bool_decide_false by done.
  destruct Hl as [Hs Hnd Hp Hc Hv], Ho as [[Ho1 Ho2] Hond Hop Hoc Hov].
  assert (lastp h ns1 ∈ h :: ns1) as Hin by apply lastp_in.
  assert (next s !! lastp h ns1 = Some (hd_or None ns2)) as Hpos.
  { apply seg_app in Hs as [Hs1 _]. by apply seg_last_next in Hs1. }
  rewrite Hpos, Hp, Ho1, Hop. cbn [mbind option_bind].
  assert (lastp m ms ∈ m :: ms) as Hinm by apply lastp_in.
  rewrite lastp_cons in *. apply seg_last_next in Ho2 as Hoe.
  assert (h <> o /\ lastp h ns1 <> lastp m ms /\ lastp m ms <> o /\ lastp h ns1 <> o)
    as (Hho & Hne & Hmo & Hlo).
  { apply NoDup_cons in Hond as [Hoo _]. pose proof (Hdis h ltac:(constructor)).
    pose proof (Hdis (lastp h ns1) ltac:(set_solver)).
    repeat split; intros E; rewrite ?E in *; set_solver. }
  set (prev' := if decide (ns2 = []) then <[h := lastp m ms]> (prev s) else prev s).
  assert ((if decide (lastp h ns1 = lastp h (ns1 ++ ns2)) then set_prev s h (lastp m ms) else Some s)
    = Some (mkStore (next s) (val s) prev' (count s))) as ->.
  { unfold prev'. destruct (decide (lastp h ns1 = _)) as [E|E].
    - apply lastp_end in E; [|done]. rewrite decide_True by done. apply set_prev_ok. eauto.
    - rewrite decide_False; [by destruct s|]. intros E'. apply E. by apply lastp_end. }
  cbn [mbind option_bind next val prev count].
  rewrite set_next_ok by eauto. cbn [mbind option_bind next val prev count].
  rewrite set_next_ok by (cbn; rewrite lookup_insert_ne by done; eauto).
  cbn [mbind option_bind next val prev count]. rewrite Hoc. cbn [mbind option_bind].
  erewrite add_count_ok by done. cbn [mbind option_bind next val prev count].
  set (s1 := mkStore _ _ _ _).
  assert (lst s1 h (ns1 ++ (m :: ms) ++ ns2) (vs1 ++ ws ++ vs2)) as Hl1.
  { split; cbn [next val prev count s1].
    - apply NoDup_cons in Hond as [? ?].
      eapply seg_splice; [done|done| |done|done]. intros l Hl Hl'. apply (Hdis l Hl'). by right.
    - apply NoDup_cons in Hond as [_ Hond]. apply NoDup_cons in Hnd as [Hh Hnd].
      rewrite (app_assoc ns1), (Permutation_app_comm ns1), <- app_assoc. constructor.
      + intros E. apply elem_of_app in E as [E|E]; [|done]. apply (Hdis h); [constructor|by right].
      + apply NoDup_app. split; [done|]. split; [|done].
        intros l Hl Hl'. apply (Hdis l); by right.
    - rewrite lastp_insert. unfold prev'.
      destruct (decide (ns2 = [])); [by rewrite lookup_insert_eq|done].
    - rewrite lookup_insert_eq. rewrite !length_app in *. cbn [length] in *.
      rewrite u64_id by lia. f_equal. lia.
    - apply Forall2_app_inv in Hv as [Hv1 Hv2]; [|done].
      apply Forall2_app; [done|]. by apply Forall2_app. }
  destruct (reset_spec s1 o) as (s' & -> & Hso & Ha); cbn.
  { unfold prev'. destruct (decide _); [rewrite lookup_insert_ne by done|]; eauto. }
  { rewrite !lookup_insert_ne by done. eauto. }
  { rewrite lookup_insert_ne by done. eauto. }
  exists s'. split; [done|]. split; [|split; [done|]].
  - eapply lst_frame; [done| |done]. intros l Hl E. apply list_elem_of_singleton in E as ->.
    apply NoDup_cons in Hond as [Hoo _].
    assert (o ∉ h :: ns1 ++ ns2) by (intros E; apply (Hdis o E); constructor). set_solver.
  - eapply agree_off_trans; [|eapply agree_off_mono; [|done]; set_solver].
    intros l Hl. cbn [next val prev count s1].
    assert (l <> h /\ l <> lastp m ms /\ l <> lastp h ns1) as (Hlh & Hln & Hll)
      by (repeat split; intros ->; set_solver).
    rewrite !lookup_insert_ne by done. split_and!; try done.
    unfold prev'. destruct (decide _); [|done]. by rewrite lookup_insert_ne by done.
Qed.

(** ** merge *)

(** What merging does on the values: an element of the second list goes first
    only if it is smaller. *)
Fixpoint lmerge (pred : T -> T -> bool) (xs : list T) {struct xs} : list T -> list T :=
  fix inner (ys : list T) : list T :=
    match xs, ys with
    | [], _ => ys
    | _, [] => xs
    | x :: xs', y :: ys' =>
      if pred y x then y :: inner ys' else x :: lmerge pred xs' ys
    end.

Lemma lmerge_nil_r pred xs : lmerge pred xs [] = xs.
Proof. by destruct xs. Qed.

Lemma lmerge_nil_l pred ys : lmerge pred [] ys = ys.
Proof. by destruct ys. Qed.

Lemma lmerge_cons pred x xs y ys :
  lmerge pred (x :: xs) (y :: ys) =
  if pred y x then y :: lmerge pred (x :: xs) ys else x :: lmerge pred xs (y :: ys).
Proof. done. Qed.

Lemma set_next_same s p q : next s !! p = Some q -> set_next s p q = Some s.
Proof.
  intros E. rewrite set_next_ok by eauto. rewrite insert_id by done. by destruct s.
Qed.

Lemma lst_first s o a ms ws :
  lst s o (a :: ms) ws -> exists w ws', ws = w :: ws' /\ next s !! o = Some (Some a) /\
    val s !! a = Some w /\ next s !! a = Some (hd_or None ms).
Proof.
  intros [[Hs1 Hs2] _ _ _ Hv]. inversion Hv; subst. do 2 eexists. split_and!; try done.
  destruct ms; cbn in Hs2; tauto.
Qed.

Lemma lst_at s h ns1 b ns2 vs1 vs2 :
  lst s h (ns1 ++ b :: ns2) (vs1 ++ vs2) -> length ns1 = length vs1 ->
  exists v vs2', vs2 = v :: vs2' /\ val s !! b = Some v.
Proof.
  intros [_ _ _ _ Hv] Hlen. apply Forall2_app_inv in Hv as [_ Hv]; [|done].
  inversion Hv; subst. eauto.
Qed.

Lemma merge_loop_spec fuel pred s h o ns1 ns2 vs1 vs2 ms ws :
  lst s h (ns1 ++ ns2) (vs1 ++ vs2) -> length ns1 = length vs1 -> lst s o ms ws ->
  (forall l, l ∈ h :: ns1 ++ ns2 -> l ∉ o :: ms) ->
  Z.of_nat (length (ns1 ++ ns2)) + Z.of_nat (length ms) < 2 ^ 63 ->
  (length ns2 + length ms < fuel)%nat ->
  exists s' ns1' ns2' vs1' vs2' ms' ws',
    merge_loop fuel s h o pred (lastp h ns1) = Some (lastp h ns1', s') /\
    lst s' h (ns1' ++ ns2') (vs1' ++ vs2') /\ length ns1' = length vs1' /\ lst s' o ms' ws' /\
    (ns2' = [] \/ ms' = []) /\ vs1' ++ vs2' ++ ws' = vs1 ++ lmerge pred vs2 ws /\
    ns1' ++ ns2' ++ ms' ≡ₚ ns1 ++ ns2 ++ ms /\
    agree_off (h :: ns1 ++ ns2 ++ o :: ms) s s'.
Proof.
  revert s ns1 ns2 vs1 vs2 ms ws.
  induction fuel as [|k IH]; intros s ns1 ns2 vs1 vs2 ms ws Hl Hlen Ho Hdis Hsz Hf; [lia|].
  cbn [merge_loop].
  assert (next s !! lastp h ns1 = Some (hd_or None ns2)) as Hpos.
  { pose proof (lst_seg _ _ _ _ Hl) as Hs. apply seg_app in Hs as [Hs1 _]. by apply seg_last_next in Hs1. }
  assert (next s !! o = Some (hd_or None ms)) as Hon.
  { pose proof (lst_seg _ _ _ _ Ho) as Hs. destruct ms; cbn in Hs; tauto. }
  rewrite Hpos, Hon. cbn [mbind option_bind].
  destruct ns2 as [|b ns2].
  { assert (vs2 = []) as ->.
    { pose proof (Forall2_length _ _ _ (lst_vals _ _ _ _ Hl)) as E. rewrite !length_app in E.
      destruct vs2; [done|]. cbn in E. lia. }
    exists s, ns1, [], vs1, [], ms, ws. cbn [hd_or]. rewrite lmerge_nil_l.
    split_and!; auto using agree_off_refl. }
  destruct ms as [|a ms].
  { assert (ws = []) as -> by (pose proof (lst_vals _ _ _ _ Ho) as Hv; by inversion Hv).
    exists s, ns1, (b :: ns2), vs1, vs2, [], []. cbn [hd_or]. rewrite lmerge_nil_r, !app_nil_r.
    split_and!; auto using agree_off_refl. }
  destruct (lst_first _ _ _ _ _ Ho) as (wa & ws' & -> & _ & Ha & Hna).
  destruct (lst_at _ _ _ _ _ _ _ Hl Hlen) as (vb & vs2' & -> & Hb).
  cbn [hd_or]. rewrite Ha, Hb, Hna. cbn [mbind option_bind]. rewrite lmerge_cons.
  destruct (pred wa vb).
  - rewrite !length_app in *. cbn [length] in *.
    destruct (extract_after_spec s o [] a ms [] wa ws') as (s1 & E1 & Ho1 & Hn1 & Ha1 & _);
      [done|done|cbn [app length]; lia|].
    change (lastp o []) with o in E1. rewrite E1. cbn [mbind option_bind app] in *.
    assert (lst s1 h (ns1 ++ b :: ns2) (vs1 ++ vb :: vs2')) as Hl1 by (by eapply lst_frame).
    destruct (insert_after_spec s1 h ns1 (b :: ns2) vs1 (vb :: vs2') a wa)
      as (s2 & E2 & Hl2 & Ha2 & Hb2); [done|done|done| | |].
    { intros E. apply (Hdis a E). set_solver. }
    { rewrite length_app. cbn [length]. lia. }
    rewrite E2. cbn [mbind option_bind]. rewrite Hb2. cbn [mbind option_bind].
    assert (lst s2 o ms ws') as Ho2.
    { eapply lst_frame; [done| |done]. intros l Hlo. pose proof (lst_nodup _ _ _ _ Ho) as Hnd.
      apply NoDup_cons in Hnd as [? Hnd]. apply NoDup_cons in Hnd as [? ?].
      assert (l <> a) by set_solver. assert (l ∈ o :: a :: ms) as Hlo' by set_solver.
      intros E. apply elem_of_cons in E as [->|E]; [done|]. by apply (Hdis l E). }
    rewrite set_next_same
      by (pose proof (lst_seg _ _ _ _ Ho2) as Hs; destruct ms; cbn in Hs |- *; tauto).
    cbn [mbind option_bind].
    destruct (IH s2 (ns1 ++ [a]) (b :: ns2) (vs1 ++ [wa]) (vb :: vs2') ms ws')
      as (s' & ns1' & ns2' & vs1' & vs2'' & ms' & ws'' & E & R1 & R2 & R3 & R4 & R5 & R6 & R7).
    { by rewrite <- !app_assoc. }
    { rewrite !length_app. cbn. lia. }
    { done. }
    { intros l Hll. rewrite <- app_assoc in Hll. cbn in Hll.
      pose proof (lst_nodup _ _ _ _ Ho) as Hnd. apply NoDup_cons in Hnd as [? Hnd].
      apply NoDup_cons in Hnd as [? ?]. destruct (decide (l = a)) as [->|]; [set_solver|].
      assert (l ∈ h :: ns1 ++ b :: ns2) as Hl' by set_solver. apply Hdis in Hl'. set_solver. }
    { rewrite !length_app. cbn [length]. lia. }
    { cbn [length]. lia. }
    rewrite lastp_snoc in E. exists s', ns1', ns2', vs1', vs2'', ms', ws''.
    split; [done|]. do 4 (split; [done|]). split; [by rewrite R5, <- app_assoc|]. split.
    + rewrite R6, <- app_assoc. apply Permutation_app_head.
      exact (Permutation_middle (b :: ns2) ms a).
    + eapply agree_off_trans; [eapply agree_off_mono; [|exact Ha1]; sub_locs|].
      eapply agree_off_trans; [eapply agree_off_mono; [|exact Ha2]; sub_locs|].
      eapply agree_off_mono; [|exact R7]. sub_locs.
  - destruct (IH s (ns1 ++ [b]) ns2 (vs1 ++ [vb]) vs2' (a :: ms) (wa :: ws'))
      as (s' & ns1' & ns2' & vs1' & vs2'' & ms' & ws'' & E & R1 & R2 & R3 & R4 & R5 & R6 & R7).
    { by rewrite <- !app_assoc. }
    { rewrite !length_app. cbn. lia. }
    { done. }
    { intros l Hll. apply Hdis. by rewrite <- app_assoc in Hll. }
    { rewrite <- app_assoc. done. }
    { cbn [length] in *. lia. }
    rewrite lastp_snoc in E. exists s', ns1', ns2', vs1', vs2'', ms', ws''.
    split; [done|]. do 4 (split; [done|]). split; [by rewrite R5, <- app_assoc|].
    split; [by rewrite R6, <- app_assoc|]. rewrite <- app_assoc in R7. exact R7.
Qed.

(** Two lists stay disjoint when nodes move from one to the other. *)
Lemma disjoint_perm h ns o ms ns1 ms1 :
  NoDup (h :: ns) -> NoDup (o :: ms) -> (forall l, l ∈ h :: ns -> l ∉ o :: ms) ->
  ns1 ++ ms1 ≡ₚ ns ++ ms -> forall l, l ∈ h :: ns1 -> l ∉ o :: ms1.
Proof.
  intros N1 N2 Hdis Hperm l Hll Hlo.
  apply NoDup_cons in N1 as [Hh N1]. apply NoDup_cons in N2 as [Ho N2].
  assert (NoDup (h :: o :: ns1 ++ ms1)) as N.
  { rewrite Hperm. constructor; [|constructor].
    - rewrite elem_of_cons, elem_of_app. intros [->|[?|?]]; [|done|].
      + apply (Hdis o); constructor.
      + apply (Hdis h); [constructor|by right].
    - rewrite elem_of_app. intros [?|?]; [|done]. apply (Hdis o); [by right|constructor].
    - apply NoDup_app. split_and!; try done. intros x Hx Hx'. apply (Hdis x); by right. }
  apply NoDup_cons in N as [Nh N]. apply NoDup_cons in N as [No N].
  apply NoDup_app in N as (_ & Nx & _). specialize (Nx l).
  rewrite elem_of_cons in Hll, Hlo. rewrite elem_of_cons, elem_of_app in Nh.
  rewrite elem_of_app in No. naive_solver.
Qed.

Lemma merge_spec fuel pred s h o ns vs ms ws :
  lst s h ns vs -> lst s o ms ws -> (forall l, l ∈ h :: ns -> l ∉ o :: ms) ->
  Z.of_nat (length ns) + Z.of_nat (length ms) < 2 ^ 63 ->
  (length ns + length ms < fuel)%nat ->
  exists s' ns', merge fuel s h o pred = Some s' /\
    lst s' h ns' (lmerge pred vs ws) /\ lst s' o [] [] /\ ns' ≡ₚ ns ++ ms /\
    agree_off (h :: ns ++ o :: ms) s s'.
Proof.
  intros Hl Ho Hdis Hsz Hf. unfold merge. rewrite (lst_empty_eq s o ms ws) by done.
  cbn [mbind option_bind]. destruct (decide (ms = [])) as [->|Hms].
  { assert (ws = []) as -> by (pose proof (lst_vals _ _ _ _ Ho) as Hv; by inversion Hv).
    rewrite bool_decide_true by done. exists s, ns. rewrite lmerge_nil_r, app_nil_r.
    split_and!; auto using agree_off_refl. }
  rewrite bool_decide_false by done.
  destruct (merge_loop_spec fuel pred s h o [] ns [] vs ms ws)
    as (s1 & ns1 & ns2 & vs1 & vs2 & ms1 & ws1 & E & Hl1 & Hlen & Ho1 & Hend & Hvs & Hperm & Ha);
    [done..|].
  change (lastp h []) with h in E. rewrite E. cbn [mbind option_bind app] in *.
  assert (next s1 !! lastp h ns1 = Some (hd_or None ns2)) as Hpos.
  { pose proof (lst_seg _ _ _ _ Hl1) as Hs. apply seg_app in Hs as [Hs _]. by apply seg_last_next in Hs. }
  rewrite Hpos. cbn [mbind option_bind].
  assert (exists s2 ns', (match hd_or None ns2 with
      | None => p ← prev s1 !! h; splice_after s1 h p o | Some _ => Some s1 end) = Some s2 /\
      lst s2 h ns' (lmerge pred vs ws) /\ lst s2 o [] [] /\ ns' ≡ₚ ns ++ ms /\
      agree_off (h :: ns ++ o :: ms) s s2) as (s2 & ns' & -> & Hl2 & Ho2 & Hp2 & Ha2).
  { destruct ns2 as [|b ns2]; cbn [hd_or].
    - assert (vs2 = []) as ->.
      { pose proof (Forall2_length _ _ _ (lst_vals _ _ _ _ Hl1)) as Hle. rewrite !length_app in Hle.
        destruct vs2; [done|]. cbn in Hle. lia. }
      rewrite (lst_prev _ _ _ _ Hl1). cbn [mbind option_bind app] in *. rewrite !app_nil_r.
      destruct (splice_after_spec s1 h ns1 [] vs1 [] o ms1 ws1) as (s2 & E2 & Hl2 & Ho2 & Ha2);
        [done|done|done| | |].
      { rewrite app_nil_r. apply (disjoint_perm h ns o ms);
          [exact (lst_nodup _ _ _ _ Hl)|exact (lst_nodup _ _ _ _ Ho)|done|done]. }
      { apply Permutation_length in Hperm. rewrite !length_app in *. cbn [length] in *. lia. }
      exists s2, (ns1 ++ ms1). rewrite !app_nil_r in *. rewrite <- Hvs. split_and!; try done.
      eapply agree_off_trans; [exact Ha|]. eapply agree_off_mono; [|exact Ha2].
      intros l. repeat first [rewrite elem_of_cons | rewrite elem_of_app | rewrite elem_of_nil].
      intros Hin. assert (l ∈ ns1 ++ ms1 -> l ∈ ns ++ ms) as Hp by (rewrite Hperm; done).
      rewrite !elem_of_app in Hp. tauto.
    - destruct Hend as [?| ->]; [done|].
      assert (ws1 = []) as -> by (pose proof (lst_vals _ _ _ _ Ho1) as Hv; by inversion Hv).
      rewrite app_nil_r in *. exists s1, (ns1 ++ b :: ns2). rewrite <- Hvs. split_and!; done. }
  cbn [mbind option_bind]. rewrite (lst_empty_eq s2 o [] []) by done. cbn [mbind option_bind].
  rewrite check_bind_true by done.
  destruct Ho2 as [Hos Hon Hop Hoc Hov].
  destruct (reset_spec s2 o) as (s3 & E3 & Ho3 & Ha3); [eauto..|].
  rewrite E3. exists s3, ns'. split_and!; try done.
  - eapply lst_frame; [exact Ha3| |done]. intros l Hll E'. apply list_elem_of_singleton in E' as ->.
    rewrite elem_of_cons, Hp2, elem_of_app in Hll. pose proof (lst_nodup _ _ _ _ Ho) as N2.
    apply NoDup_cons in N2 as [? _]. destruct Hll as [->|[Hll|Hll]]; [|by apply (Hdis o); [right|constructor]|done].
    apply (Hdis h); constructor.
  - eapply agree_off_trans; [exact Ha2|]. eapply agree_off_mono; [|exact Ha3]. sub_locs.
Qed.

(** ** swap *)

Lemma seg_header nx h ns q :
  seg nx h ns q <-> nx !! h = Some (hd_or q ns) /\ tail_seg nx ns q.
Proof. apply (seg_app nx h [] ns q). Qed.

Lemma lastp_header h o ns : ns <> [] -> lastp h ns = lastp o ns.
Proof. destruct ns; [done|]. intros _. by rewrite !lastp_cons. Qed.

(** Moving a list under another header. *)
Lemma lst_move s s' h o ns vs :
  lst s h ns vs -> o ∉ ns ->
  next s' !! o = next s !! h -> (forall n, n ∈ ns -> next s' !! n = next s !! n) ->
  val s' = val s -> count s' !! o = count s !! h ->
  prev s' !! o = Some (lastp o ns) -> lst s' o ns vs.
Proof.
  intros [Hs Hnd Hp Hc Hv] Ho En Ens Ev Ec Ep. split; [| |done|congruence|by rewrite Ev].
  - apply seg_header in Hs as [Hh Ht]. apply seg_header. rewrite En. split; [done|].
    destruct ns as [|n ns]; [done|]. cbn [tail_seg] in *.
    clear -Ht Ens. revert n Ht Ens. induction ns as [|m ns IH]; intros n Ht Ens; cbn in *.
    + by rewrite Ens by constructor.
    + destruct Ht as [Ht1 Ht2]. rewrite Ens by constructor. split; [done|].
      apply IH; [done|]. intros k Hk. apply Ens. by right.
  - apply NoDup_cons in Hnd as [_ ?]. by constructor.
Qed.

Lemma swap_spec s h o ns vs ms ws :
  lst s h ns vs -> lst s o ms ws -> (forall l, l ∈ h :: ns -> l ∉ o :: ms) ->
  exists s', swap s h o = Some s' /\ lst s' h ms ws /\ lst s' o ns vs /\ agree_off [h; o] s s'.
Proof.
  intros Hl Ho Hdis. destruct (Hl) as [Hs Hnd Hp Hc Hv], (Ho) as [Hos Hond Hop Hoc Hov].
  apply seg_header in Hs as [Hh _]. apply seg_header in Hos as [Hoh _].
  assert (h <> o) as Hho by (intros ->; apply (Hdis o); constructor).
  assert (h ∉ ms) as Hhm by (intros E; apply (Hdis h); [constructor|by right]).
  assert (o ∉ ns) as Hon by (intros E; apply (Hdis o); [by right|constructor]).
  apply NoDup_cons in Hnd as [Hnd _]. apply NoDup_cons in Hond as [Hond _].
  unfold swap, set_count. rewrite Hc, Hoc. cbn [mbind option_bind next val prev count].
  rewrite lookup_insert_ne, Hoc by done. cbn [mbind option_bind next val prev count].
  rewrite Hh, Hoh. cbn [mbind option_bind].
  rewrite set_next_ok by (cbn; eauto). cbn [mbind option_bind next val prev count].
  rewrite set_next_ok by (cbn; rewrite lookup_insert_ne by done; eauto).
  cbn [mbind option_bind next val prev count]. rewrite Hp, Hop. cbn [mbind option_bind].
  rewrite set_prev_ok by (cbn; eauto). cbn [mbind option_bind next val prev count].
  rewrite set_prev_ok by (cbn; rewrite lookup_insert_ne by done; eauto).
  eexists. split; [done|]. split; [|split].
  - eapply lst_move; [exact Ho|done|..]; cbn [next val prev count].
    + rewrite lookup_insert_ne, lookup_insert_eq by done. done.
    + intros n Hn. rewrite !lookup_insert_ne by (intros ->; done). done.
    + done.
    + rewrite lookup_insert_ne, lookup_insert_eq by done. done.
    + rewrite lookup_insert_ne, lookup_insert_eq by done. f_equal.
      destruct ms as [|m ms]; [done|]. cbn [length].
      rewrite (proj2 (Z.eqb_neq _ _)) by lia. by apply lastp_header.
  - eapply lst_move; [exact Hl|done|..]; cbn [next val prev count].
    + by rewrite lookup_insert_eq, Hh.
    + intros n Hn. rewrite !lookup_insert_ne by (intros ->; done). done.
    + done.
    + by rewrite lookup_insert_eq.
    + rewrite lookup_insert_eq. f_equal. destruct ns as [|n ns]; [done|]. cbn [length].
      rewrite (proj2 (Z.eqb_neq _ _)) by lia. by apply lastp_header.
  - intros l Hll. cbn [next val prev count]. rewrite !lookup_insert_ne by set_solver. done.
Qed.

(** ** reverse *)

Lemma tail_seg_cons nx n ns q :
  tail_seg nx (n :: ns) q <-> nx !! n = Some (hd_or q ns) /\ tail_seg nx ns q.
Proof. apply seg_header. Qed.

Lemma reverse_loop_spec fuel s ds rs :
  tail_seg (next s) ds None -> tail_seg (next s) rs None -> NoDup (rs ++ ds) ->
  (length rs < fuel)%nat ->
  exists nx', reverse_loop fuel s (hd_or None ds) (hd_or None rs)
      = Some (mkStore nx' (val s) (prev s) (count s)) /\
    tail_seg nx' (rev rs ++ ds) None /\ (forall l, l ∉ rs -> nx' !! l = next s !! l).
Proof.
  revert s ds rs. induction fuel as [|k IH]; intros s ds rs Hd Hr Hnd Hf; [lia|].
  cbn [reverse_loop]. destruct rs as [|c rs]; cbn [hd_or].
  { exists (next s). destruct s. cbn. done. }
  apply tail_seg_cons in Hr as [Hc Hr]. rewrite Hc. cbn [mbind option_bind].
  rewrite set_next_ok by eauto. cbn [mbind option_bind].
  cbn [app] in Hnd. apply NoDup_cons in Hnd as [Hcn Hnd]. rewrite elem_of_app in Hcn.
  destruct (IH (mkStore (<[c := hd_or None ds]> (next s)) (val s) (prev s) (count s)) (c :: ds) rs)
    as (nx' & E & Ht & Hoff); cbn [next val prev count] in *.
  - apply tail_seg_cons. rewrite lookup_insert_eq. split; [done|].
    apply tail_seg_insert_other; [tauto|done].
  - apply tail_seg_insert_other; [tauto|done].
  - rewrite <- Permutation_middle. constructor; [rewrite elem_of_app; tauto|done].
  - cbn [length] in Hf. lia.
  - exists nx'. split; [exact E|]. split; [cbn [rev]; by rewrite <- app_assoc|].
    intros l Hl. rewrite elem_of_cons in Hl. rewrite Hoff by tauto.
    rewrite lookup_insert_ne by (intros ->; tauto). done.
Qed.

Lemma rev_hd_or ns h : ns <> [] -> hd_or None (rev ns) = Some (lastp h ns).
Proof.
  destruct ns as [|n ns _] using rev_ind; [done|]. intros _.
  rewrite rev_app_distr, lastp_snoc. done.
Qed.

Lemma rev_lastp n ns h : lastp h (rev (n :: ns)) = n.
Proof. cbn [rev]. apply lastp_snoc. Qed.

Lemma Forall2_rev {A B} (P : A -> B -> Prop) xs ys :
  Forall2 P xs ys -> Forall2 P (rev xs) (rev ys).
Proof. induction 1; cbn; [constructor|]. apply Forall2_app; auto. Qed.

Lemma reverse_alg_spec fuel s h ns vs :
  lst s h ns vs -> ns <> [] -> (length ns < fuel)%nat ->
  exists s', reverse_alg fuel s h = Some s' /\ lst s' h (rev ns) (rev vs) /\
    agree_off (h :: ns) s s'.
Proof.
  intros [Hs Hnd Hp Hc Hv] Hne Hf. unfold reverse_alg.
  apply seg_header in Hs as [Hh Ht]. rewrite Hh, Hp. cbn [mbind option_bind].
  rewrite set_next_ok by eauto. cbn [mbind option_bind].
  destruct ns as [|n ns]; [done|]. cbn [hd_or]. rewrite set_prev_ok by (cbn; eauto).
  cbn [mbind option_bind next val prev count].
  set (s1 := mkStore _ _ _ _). apply NoDup_cons in Hnd as [Hhn Hnd].
  destruct (reverse_loop_spec fuel s1 [] (n :: ns)) as (nx' & E & Ht' & Hoff); cbn [s1 next].
  - done.
  - by apply tail_seg_insert_other.
  - by rewrite app_nil_r.
  - done.
  - cbn [hd_or] in E. rewrite E. eexists. split; [done|]. rewrite app_nil_r in Ht'. split.
    + split; cbn [next val prev count s1].
      * apply seg_header. split; [|done]. rewrite Hoff by done. cbn [s1 next].
        rewrite lookup_insert_eq. f_equal. by rewrite (rev_hd_or _ h).
      * apply NoDup_cons. rewrite <- (Permutation_rev (n :: ns)). done.
      * by rewrite lookup_insert_eq, rev_lastp.
      * rewrite length_rev. done.
      * by apply Forall2_rev.
    + intros l Hl. rewrite elem_of_cons in Hl. cbn [next val prev count s1].
      rewrite Hoff by tauto. cbn [s1 next]. rewrite !lookup_insert_ne by (intros ->; tauto). done.
Qed.

Lemma reverse_spec fuel s h ns vs :
  lst s h ns vs -> Z.of_nat (length ns) < 2 ^ 63 -> (length ns < fuel)%nat ->
  exists s', reverse fuel s h = Some s' /\ lst s' h (rev ns) (rev vs) /\ agree_off (h :: ns) s s'.
Proof.
  intros Hl Hsz Hf. unfold reverse, size. rewrite (lst_count _ _ _ _ Hl). cbn [mbind option_bind].
  pose proof (Forall2_length _ _ _ (lst_vals _ _ _ _ Hl)) as Hlen.
  destruct ns as [|a [|b [|c ns]]].
  - destruct vs; [|done]. exists s. auto using agree_off_refl.
  - destruct vs as [|? []]; try done. exists s. auto using agree_off_refl.
  - destruct vs as [|va [|vb []]]; try done. cbn [length Z.of_nat]. change (2 <? 2) with false.
    cbv iota. change (Z.pos (Pos.of_succ_nat 1) =? 2) with true. cbv iota.
    destruct (extract_front_spec s h a [b] va [vb]) as (s1 & E1 & Hl1 & Hn1 & Ha1); [done|done|].
    cbn. rewrite E1. cbn.
    destruct (push_back_spec s1 h [b] [vb] a va) as (s2 & E2 & Hl2 & Ha2); [done|done| |done|].
    { pose proof (lst_nodup _ _ _ _ Hl) as N. inversion N; subst. inversion H2; subst. set_solver. }
    rewrite E2. exists s2. split_and!; [done|done|].
    eapply agree_off_trans; [exact Ha1|]. eapply agree_off_mono; [|exact Ha2]. sub_locs.
  - rewrite (proj2 (Z.ltb_ge _ _)) by (cbn [length]; lia).
    rewrite (proj2 (Z.eqb_neq _ _)) by (cbn [length]; lia).
    by apply reverse_alg_spec.
Qed.

(** ** Erasing *)

Lemma drop_node_spec s n (v : T) :
  single s n v ->
  drop_node s n = Some (mkStore (delete n (next s)) (delete n (val s)) (prev s) (count s)).
Proof. intros [_ Hv]. unfold drop_node. by rewrite Hv. Qed.

Lemma erase_after_spec s h ns1 n ns2 vs1 v vs2 :
  lst s h (ns1 ++ n :: ns2) (vs1 ++ v :: vs2) -> length ns1 = length vs1 ->
  Z.of_nat (length (ns1 ++ n :: ns2)) < 2 ^ 63 ->
  exists s', erase_after s h (lastp h ns1) = Some (hd_or None ns2, s') /\
    lst s' h (ns1 ++ ns2) (vs1 ++ vs2) /\ next s' !! n = None /\
    agree_off (h :: ns1 ++ n :: ns2) s s'.
Proof.
  intros Hl Hlen Hsz. unfold erase_after.
  destruct (extract_after_spec s h ns1 n ns2 vs1 v vs2) as (s1 & E1 & Hl1 & Hn1 & Ha1 & Hp1); [done..|].
  rewrite E1. cbn [mbind option_bind]. rewrite (drop_node_spec s1 n v) by done. cbn [mbind option_bind next].
  pose proof (lst_nodup _ _ _ _ Hl) as Hnd. rewrite app_comm_cons, <- Permutation_middle in Hnd.
  apply NoDup_cons in Hnd as [Hnn _].
  assert (lastp h ns1 ∈ h :: ns1) as Hin by apply lastp_in.
  rewrite lookup_delete_ne by (intros ->; apply Hnn; set_solver).
  rewrite Hp1. cbn [mbind option_bind]. eexists. split; [done|]. split; [|split].
  - destruct Hl1 as [Hs Hnd Hp Hc Hv]. split; cbn [next val prev count]; try done.
    + by apply seg_delete_other.
    + apply vals_delete_other; [|done]. intros E. apply Hnn. by right.
  - cbn. by rewrite lookup_delete_eq.
  - eapply agree_off_trans; [exact Ha1|]. intros l Hl'. cbn [next val prev count].
    rewrite !lookup_delete_ne by (intros ->; set_solver). done.
Qed.

(** ** clear *)

Lemma clear_loop_spec fuel s h ns :
  seg (next s) h ns None -> NoDup (h :: ns) -> Forall (fun n => is_Some (val s !! n)) ns ->
  (length ns < fuel)%nat ->
  exists s', clear_loop fuel s h = Some s' /\ next s' !! h = Some None /\
    prev s' = prev s /\ count s' = count s /\
    (forall n, n ∈ ns -> next s' !! n = None) /\
    (forall l, l ∉ h :: ns -> next s' !! l = next s !! l /\ val s' !! l = val s !! l).
Proof.
  revert s ns. induction fuel as [|k IH]; intros s ns Hs Hnd Hv Hf; [lia|]. cbn [clear_loop].
  apply seg_header in Hs as [Hh Ht]. rewrite Hh. cbn [mbind option_bind].
  destruct ns as [|n ns]; cbn [hd_or] in *; [exists s; split_and!; set_solver|].
  apply tail_seg_cons in Ht as [Hn Ht]. rewrite Hn. cbn [mbind option_bind].
  rewrite set_next_ok by eauto. cbn [mbind option_bind].
  inversion Hv as [|? ? [v Hvn] Hv']; subst. unfold drop_node. cbn [val]. rewrite Hvn.
  cbn [mbind option_bind next val prev count].
  apply NoDup_cons in Hnd as [Hhn Hnd]. apply NoDup_cons in Hnd as [Hnn Hnd].
  rewrite elem_of_cons in Hhn.
  set (s1 := mkStore _ _ _ _).
  destruct (IH s1 ns) as (s' & E & R1 & R2 & R3 & R4 & R5).
  - apply seg_delete_other; [set_solver|]. apply seg_header. rewrite lookup_insert_eq.
    split; [done|]. apply tail_seg_insert_other; [tauto|done].
  - constructor; tauto.
  - apply Forall_forall. intros m Hm. cbn. rewrite Forall_forall in Hv'.
    rewrite lookup_delete_ne by (intros ->; done). auto.
  - cbn [length] in Hf. lia.
  - exists s'. split_and!; try done.
    + intros m Hm. apply elem_of_cons in Hm as [->|Hm]; [|by apply R4].
      rewrite (proj1 (R5 n ltac:(set_solver))). cbn. by rewrite lookup_delete_eq.
    + intros l Hl. rewrite !elem_of_cons in Hl.
      destruct (R5 l) as [-> ->]; [rewrite elem_of_cons; tauto|]. cbn.
      rewrite !lookup_delete_ne, lookup_insert_ne by (intros ->; tauto). done.
Qed.

Lemma clear_spec fuel s h ns vs :
  lst s h ns vs -> (length ns < fuel)%nat ->
  exists s', clear fuel s h = Some s' /\ lst s' h [] [] /\
    (forall n, n ∈ ns -> next s' !! n = None) /\ agree_off (h :: ns) s s'.
Proof.
  intros [Hs Hnd Hp Hc Hv] Hf. unfold clear.
  destruct (clear_loop_spec fuel s h ns) as (s1 & -> & R1 & R2 & R3 & R4 & R5); [done|done| |done|].
  { clear -Hv. induction Hv; constructor; eauto. }
  cbn [mbind option_bind]. destruct (reset_spec s1 h) as (s2 & -> & Hl2 & Ha2);
    [rewrite R2; eauto|eauto|rewrite R3; eauto|].
  exists s2. split_and!; try done.
  - intros n Hn. rewrite (proj1 (Ha2 n ltac:(apply NoDup_cons in Hnd as [? _]; set_solver))). by apply R4.
  - eapply agree_off_trans; [|eapply agree_off_mono; [|exact Ha2]; sub_locs].
    intros l Hl. rewrite R2, R3. destruct (R5 l Hl). done.
Qed.

(** ** search_before, remove_if, unique *)

Lemma lst_pos_next s h ns1 ns2 vs :
  lst s h (ns1 ++ ns2) vs -> next s !! lastp h ns1 = Some (hd_or None ns2).
Proof.
  intros Hl. pose proof (lst_seg _ _ _ _ Hl) as Hs.
  apply seg_app in Hs as [Hs _]. by apply seg_last_next in Hs.
Qed.

(** The search stops in front of the first value that satisfies [pred]. *)
Lemma search_before_spec fuel (pred : T -> bool) s h ns1 ns2 vs1 vs2 :
  lst s h (ns1 ++ ns2) (vs1 ++ vs2) -> length ns1 = length vs1 -> (length ns2 < fuel)%nat ->
  (search_before fuel s pred (lastp h ns1) = Some None /\ Forall (fun v => pred v = false) vs2) \/
  (exists na n nb va v vb, ns2 = na ++ n :: nb /\ vs2 = va ++ v :: vb /\ length na = length va /\
     Forall (fun v => pred v = false) va /\ pred v = true /\
     search_before fuel s pred (lastp h ns1) = Some (Some (lastp h (ns1 ++ na)))).
Proof.
  revert ns1 ns2 vs1 vs2. induction fuel as [|k IH]; intros ns1 ns2 vs1 vs2 Hl Hlen Hf; [lia|].
  cbn [search_before]. rewrite (lst_pos_next _ _ _ _ _ Hl). cbn [mbind option_bind].
  destruct ns2 as [|n ns2]; cbn [hd_or].
  { left. split; [done|]. pose proof (Forall2_length _ _ _ (lst_vals _ _ _ _ Hl)) as E.
    rewrite !length_app in E. destruct vs2; [constructor|]. cbn in E. lia. }
  destruct (lst_at _ _ _ _ _ _ _ Hl Hlen) as (v & vs2' & -> & Hv). rewrite Hv. cbn [mbind option_bind].
  destruct (pred v) eqn:Ep.
  { right. exists [], n, ns2, [], v, vs2'. rewrite app_nil_r. split_and!; auto. }
  cbn [length] in Hf.
  destruct (IH (ns1 ++ [n]) ns2 (vs1 ++ [v]) vs2') as [[E Hall]|(na & m & nb & va & w & vb & -> & -> & Hlv & Hall & Hp & E)].
  - by rewrite <- !app_assoc.
  - rewrite !length_app. cbn. lia.
  - lia.
  - rewrite lastp_snoc in E. left. auto.
  - rewrite lastp_snoc in E. right. exists (n :: na), m, nb, (v :: va), w, vb.
    rewrite E, <- app_assoc. split_and!; cbn; auto.
Qed.

Definition keep (pred : T -> bool) (vs : list T) : list T := List.filter (fun v => negb (pred v)) vs.

Lemma keep_none (pred : T -> bool) vs : Forall (fun v => pred v = false) vs -> keep pred vs = vs.
Proof. induction 1 as [|v vs Hp _ IH]; [done|]. cbn. rewrite Hp. cbn. by f_equal. Qed.

Lemma keep_app (pred : T -> bool) vs ws : keep pred (vs ++ ws) = keep pred vs ++ keep pred ws.
Proof. unfold keep. apply List.filter_app. Qed.

(** The loop of [remove_if], standing in front of a value to remove. *)
Lemma remove_if_loop_spec fuel (pred : T -> bool) s h ns1 n ns2 vs1 v vs2 c :
  lst s h (ns1 ++ n :: ns2) (vs1 ++ v :: vs2) -> length ns1 = length vs1 -> pred v = true ->
  Z.of_nat (length (ns1 ++ n :: ns2)) < 2 ^ 63 -> 0 <= c -> c + Z.of_nat (length (n :: ns2)) < 2 ^ 63 ->
  (length (n :: ns2) < fuel)%nat ->
  exists s' ns', remove_if_loop fuel s h pred (Some (lastp h ns1)) c
      = Some (c + 1 + Z.of_nat (length vs2 - length (keep pred vs2)), s') /\
    lst s' h ns' (vs1 ++ keep pred vs2) /\ (forall x, x ∈ ns' -> x ∈ ns1 ++ ns2) /\
    agree_off (h :: ns1 ++ n :: ns2) s s'.
Proof.
  revert s ns1 n ns2 vs1 v vs2 c. induction fuel as [|k IH];
    intros s ns1 n ns2 vs1 v vs2 c Hl Hlen Hv Hsz Hc Hcs Hf; [lia|].
  cbn [remove_if_loop].
  destruct (erase_after_spec s h ns1 n ns2 vs1 v vs2) as (s1 & E1 & Hl1 & _ & Ha1); [done..|].
  rewrite E1. cbn [mbind option_bind]. cbn [length] in *. rewrite u64_id by lia.
  destruct (search_before_spec k pred s1 h ns1 ns2 vs1 vs2)
    as [[Es Hall]|(na & m & nb & va & w & vb & -> & -> & Hlv & Hall & Hp & Es)]; [done|done|lia| |];
    rewrite Es; cbn [mbind option_bind].
  - destruct k as [|k]; [lia|]. cbn [remove_if_loop]. exists s1, (ns1 ++ ns2).
    rewrite keep_none by done. replace (length vs2 - length vs2)%nat with 0%nat by lia.
    rewrite Z.add_0_r. auto.
  - len_simpl.
    destruct (IH s1 (ns1 ++ na) m nb (vs1 ++ va) w vb (c + 1)) as (s' & ns' & E & Hl' & Hin & Ha').
    + by rewrite <- !app_assoc.
    + rewrite !length_app. lia.
    + done.
    + len_simpl. lia.
    + lia.
    + len_simpl. lia.
    + len_simpl. lia.
    + rewrite E. exists s', ns'. split_and!.
      * do 2 f_equal. rewrite keep_app, (keep_none _ va) by done. cbn [keep List.filter]. rewrite Hp. cbn [negb].
        fold (keep pred vb). len_simpl.
        assert (length (keep pred vb) <= length vb)%nat by apply List.filter_length_le. lia.
      * rewrite keep_app, (keep_none _ va) by done. cbn [keep List.filter]. rewrite Hp. cbn [negb].
        by rewrite <- app_assoc in Hl'.
      * intros x Hx. apply Hin in Hx. rewrite <- app_assoc in Hx.
        rewrite !elem_of_app in *. rewrite elem_of_cons. tauto.
      * eapply agree_off_trans; [exact Ha1|]. eapply agree_off_mono; [|exact Ha']. sub_locs.
Qed.

Lemma remove_if_spec fuel (pred : T -> bool) s h ns vs :
  lst s h ns vs -> Z.of_nat (length ns) < 2 ^ 62 -> (length ns < fuel)%nat ->
  exists s' ns', remove_if fuel s h pred
      = Some (Z.of_nat (length vs - length (keep pred vs)), s') /\
    lst s' h ns' (keep pred vs) /\ (forall x, x ∈ ns' -> x ∈ ns) /\ agree_off (h :: ns) s s'.
Proof.
  intros Hl Hsz Hf. unfold remove_if.
  destruct (search_before_spec fuel pred s h [] ns [] vs)
    as [[Es Hall]|(na & m & nb & va & w & vb & -> & -> & Hlv & Hall & Hp & Es)]; [done|done|done| |];
    change (lastp h []) with h in Es; rewrite Es; cbn [mbind option_bind].
  - destruct fuel as [|k]; [lia|]. cbn [remove_if_loop]. exists s, ns.
    rewrite keep_none by done. replace (length vs - length vs)%nat with 0%nat by lia.
    auto using agree_off_refl.
  - cbn [app] in *. len_simpl.
    destruct (remove_if_loop_spec fuel pred s h na m nb va w vb 0) as (s' & ns' & E & Hl' & Hin & Ha');
      [done|done|done|len_simpl; lia|lia|cbn [length]; lia|cbn [length]; lia|].
    rewrite E. exists s', ns'. rewrite keep_app, (keep_none _ va) by done.
    cbn [keep List.filter]. rewrite Hp. cbn [negb]. fold (keep pred vb). split_and!; try done.
    + do 2 f_equal. len_simpl.
      assert (length (keep pred vb) <= length vb)%nat by apply List.filter_length_le. lia.
    + intros x Hx. apply Hin in Hx. rewrite !elem_of_app in *. rewrite elem_of_cons. tauto.
Qed.

(** [unique] on the values: drops a value that the last one kept is related
    to. *)
Fixpoint luniq_from (pred : T -> T -> bool) (x : T) (vs : list T) : list T :=
  match vs with
  | [] => [x]
  | y :: vs' => if pred x y then luniq_from pred x vs' else x :: luniq_from pred y vs'
  end.

Definition luniq (pred : T -> T -> bool) (vs : list T) : list T :=
  match vs with [] => [] | x :: vs' => luniq_from pred x vs' end.

Lemma luniq_from_length pred x vs : (1 <= length (luniq_from pred x vs) <= S (length vs))%nat.
Proof.
  revert x. induction vs as [|y vs IH]; intros x; cbn; [lia|].
  destruct (pred x y); [specialize (IH x)|specialize (IH y); cbn]; lia.
Qed.

Lemma unique_loop_spec fuel (pred : T -> T -> bool) s h ns1 a ns2 vs1 v vs2 c :
  lst s h (ns1 ++ a :: ns2) (vs1 ++ v :: vs2) -> length ns1 = length vs1 ->
  Z.of_nat (length (ns1 ++ a :: ns2)) < 2 ^ 63 -> 0 <= c -> c + Z.of_nat (length ns2) < 2 ^ 63 ->
  (length ns2 < fuel)%nat ->
  exists s' ns', unique_loop fuel s h pred (lastp h ns1) c
      = Some (c + Z.of_nat (S (length vs2) - length (luniq_from pred v vs2)), s') /\
    lst s' h ns' (vs1 ++ luniq_from pred v vs2) /\ (forall x, x ∈ ns' -> x ∈ ns1 ++ a :: ns2) /\
    agree_off (h :: ns1 ++ a :: ns2) s s'.
Proof.
  revert s ns1 a ns2 vs1 v vs2 c. induction fuel as [|k IH];
    intros s ns1 a ns2 vs1 v vs2 c Hl Hlen Hsz Hc Hcs Hf; [lia|].
  cbn [unique_loop]. rewrite (lst_pos_next _ _ _ _ _ Hl). cbn [mbind option_bind hd_or].
  assert (lst s h ((ns1 ++ [a]) ++ ns2) ((vs1 ++ [v]) ++ vs2)) as Hl' by (by rewrite <- !app_assoc).
  assert (length (ns1 ++ [a]) = length (vs1 ++ [v])) as Hlen' by (rewrite !length_app; cbn; lia).
  pose proof (lst_pos_next _ _ _ _ _ Hl') as Ha. rewrite lastp_snoc in Ha. rewrite Ha.
  cbn [mbind option_bind]. destruct ns2 as [|b ns2]; cbn [hd_or].
  { assert (vs2 = []) as ->.
    { pose proof (Forall2_length _ _ _ (lst_vals _ _ _ _ Hl)) as E. rewrite !length_app in E.
      destruct vs2; [done|]. cbn in E. lia. }
    exists s, (ns1 ++ [a]). cbn. rewrite Z.add_0_r. auto using agree_off_refl. }
  destruct (lst_at _ _ _ _ _ _ _ Hl Hlen) as (v' & vs2' & Ev & Hva). injection Ev as <- <-.
  destruct (lst_at _ _ _ _ _ _ _ Hl' Hlen') as (w & vs2' & -> & Hvb).
  rewrite Hva, Hvb. cbn [mbind option_bind luniq_from]. len_simpl.
  destruct (pred v w) eqn:Ep.
  - destruct (erase_after_spec s h (ns1 ++ [a]) b ns2 (vs1 ++ [v]) w vs2') as (s1 & E1 & Hl1 & _ & Ha1);
      [done|len_simpl; lia|len_simpl; lia|].
    rewrite lastp_snoc in E1. rewrite E1. cbn [mbind option_bind]. rewrite u64_id by lia.
    rewrite <- !app_assoc in Hl1. cbn [app] in Hl1.
    destruct (IH s1 ns1 a ns2 vs1 v vs2' (c + 1)) as (s' & ns' & E & HL & HI & HA);
      [by rewrite <- ?app_assoc in *|len_simpl; lia|len_simpl; lia|lia|lia|lia|].
    rewrite E. exists s', ns'. split_and!; [|done| |].
    + do 2 f_equal. pose proof (luniq_from_length pred v vs2'). lia.
    + intros x Hx. apply HI in Hx. revert Hx. rewrite !elem_of_app, !elem_of_cons. tauto.
    + eapply agree_off_trans; [eapply agree_off_mono; [|exact Ha1]; sub_locs|].
      eapply agree_off_mono; [|exact HA]. sub_locs.
  - destruct (IH s (ns1 ++ [a]) b ns2 (vs1 ++ [v]) w vs2' c) as (s' & ns' & E & HL & HI & HA);
      [by rewrite <- ?app_assoc in *|len_simpl; lia|len_simpl; lia|lia|lia|lia|].
    rewrite lastp_snoc in E. rewrite E. exists s', ns'. split_and!.
    + done.
    + by rewrite <- app_assoc in HL.
    + intros x Hx. apply HI in Hx. by rewrite <- app_assoc in Hx.
    + eapply agree_off_mono; [|exact HA]. sub_locs.
Qed.

Lemma unique_spec fuel (pred : T -> T -> bool) s h ns vs :
  lst s h ns vs -> Z.of_nat (length ns) < 2 ^ 63 -> (length ns < fuel)%nat ->
  exists s' ns', unique fuel s h pred
      = Some (Z.of_nat (length vs - length (luniq pred vs)), s') /\
    lst s' h ns' (luniq pred vs) /\ (forall x, x ∈ ns' -> x ∈ ns) /\ agree_off (h :: ns) s s'.
Proof.
  intros Hl Hsz Hf. unfold unique. pose proof (lst_vals _ _ _ _ Hl) as Hv.
  destruct Hv as [|a v ns vs Hav Hv].
  - destruct fuel as [|k]; [lia|]. cbn [unique_loop].
    pose proof (lst_pos_next s h [] [] [] Hl) as Hn. change (lastp h []) with h in Hn.
    rewrite Hn. exists s, []. auto using agree_off_refl.
  - cbn [length] in *.
    destruct (unique_loop_spec fuel pred s h [] a ns [] v vs 0) as (s' & ns' & E & HL & HI & HA);
      [done|done|cbn [length app]; lia|lia|lia|lia|].
    exists s', ns'. by split_and!.
Qed.

End theory.
