(* ===== verification/ForwardListRange.v ===== *)
(** * Ranges, copies and moves of zstl::ForwardList

    The members of kanon/algo/forward_list.h and
    forward_list/forward_list_impl.h that read a range through an iterator of
    the caller (range [insert_after] and [assign], copy construction and copy
    assignment), [resize], the constructors and the move operations, over the
    pointer store of ForwardList.  The requirements of an input iterator are a
    class; iterators over values and iterators over the nodes of another list
    are its instances. *)

From Stdlib Require Import ZArith Lia.
From stdpp Require Import gmap.
From S2P Require Import Prelude ForwardList ForwardListAlgo.

(** ** Input iterators *)

(** [*it], [++it] and [it == last]; dereferencing reads the store, since an
    iterator may point into another list. *)
Class InputIter (T It : Type) := {
  deref : Store T -> It -> option T;
  incr : Store T -> It -> option It;
  at_end : It -> bool
}.

(** An iterator over values the list does not own. *)
#[export] Instance values_iter (T : Type) : InputIter T (list T) := {
  deref _ vs := head vs;
  incr _ vs := match vs with [] => None | _ :: vs' => Some vs' end;
  at_end vs := match vs with [] => true | _ => false end
}.

(** ForwardListConstIterator; [nullptr] is the end. *)
Definition iterator_deref {T} (s : Store T) (p : option loc) : option T := n ← p; val s !! n.
Definition iterator_incr {T} (s : Store T) (p : option loc) : option (option loc) := n ← p; next s !! n.

#[export] Instance node_iter (T : Type) : InputIter T (option loc) := {
  deref := iterator_deref;
  incr := iterator_incr;
  at_end p := match p with None => true | Some _ => false end
}.

Section ops.
Context {T : Type}.
Implicit Types s : Store T.
Implicit Types h o p pos : loc.

(** The allocator: any function that returns an unused address. *)
Context (alloc : Store T -> loc).

(** [advance_iter(before_begin(), i)] *)
Fixpoint advance_iter s p (i : nat) : option loc :=
  match i with
  | O => Some p
  | S i' => nx ← next s !! p; q ← nx; advance_iter s q i'
  end.

Definition new_node s (v : T) : option (loc * Store T) :=
  let n := alloc s in s ← create_node s n v; Some (n, s).

(** [insert_after(pos, create_node(v)); ++pos;] *)
Definition insert_next s h pos (v : T) : option (loc * Store T) :=
  '(n, s) ← new_node s v;
  s ← insert_after s h pos n;
  nx ← next s !! pos;
  pos ← nx;
  Some (pos, s).

(** [insert_after(pos, count, val)] *)
Fixpoint insert_copies (cnt : nat) s h pos (v : T) : option (Store T) :=
  match cnt with
  | O => Some s
  | S k => '(pos, s) ← insert_next s h pos v; insert_copies k s h pos v
  end.

(** [push_back(val)] repeated. *)
Fixpoint push_backs (cnt : nat) s h (v : T) : option (Store T) :=
  match cnt with
  | O => Some s
  | S k => '(n, s) ← new_node s v; s ← push_back s h n; push_backs k s h v
  end.

(** [while (it.next() != end()) erase_after(it);] *)
Fixpoint erase_tail (fuel : nat) s h p : option (Store T) :=
  match fuel with
  | O => None
  | S k =>
    nx ← next s !! p;
    match nx with
    | None => Some s
    | Some _ => '(_, s) ← erase_after s h p; erase_tail k s h p
    end
  end.

Definition resize (fuel : nat) s h (n : nat) (v : T) : option (Store T) :=
  sz ← size s h;
  if sz <=? Z.of_nat n then push_backs (Z.to_nat (Z.of_nat n - sz)) s h v
  else it ← advance_iter s h n; erase_tail fuel s h it.

(** [AllocTraits::destroy]: the memory of the node stays, its value is gone. *)
Definition destroy s n : option (Store T) :=
  _ ← val s !! n; Some (mkStore (next s) (delete n (val s)) (prev s) (count s)).

(** [AllocTraits::construct] in the memory of a node. *)
Definition construct s n (v : T) : option (Store T) :=
  _ ← next s !! n; Some (mkStore (next s) (<[n := v]> (val s)) (prev s) (count s)).

Section iter.
Context {It : Type} `{!InputIter T It}.

(** [insert_after(pos, first, last)] *)
Fixpoint insert_range (fuel : nat) s h pos (first : It) : option (Store T) :=
  match fuel with
  | O => None
  | S k =>
    if at_end first then Some s else
    v ← deref s first;
    '(pos, s) ← insert_next s h pos v;
    first ← incr s first;
    insert_range k s h pos first
  end.

(** The loop of [assign(first, last)] over the nodes that exist. *)
Fixpoint assign_range_over (fuel : nat) s (beg : loc) (first : It) : option (loc * It * Store T) :=
  match fuel with
  | O => None
  | S k =>
    nx ← next s !! beg;
    match nx with
    | None => Some (beg, first, s)
    | Some n =>
      if at_end first then Some (beg, first, s) else
      s ← destroy s n;
      v ← deref s first;
      s ← construct s n v;
      first ← incr s first;
      assign_range_over k s n first
    end
  end.

(** [while (first != last) push_back( *first++);] *)
Fixpoint push_back_range (fuel : nat) s h (first : It) : option (Store T) :=
  match fuel with
  | O => None
  | S k =>
    if at_end first then Some s else
    v ← deref s first;
    first ← incr s first;
    '(n, s) ← new_node s v;
    s ← push_back s h n;
    push_back_range k s h first
  end.

(** [assign(first, last)] *)
Definition assign_range (fuel : nat) s h (first : It) : option (Store T) :=
  '(beg, first, s) ← assign_range_over fuel s h first;
  nx ← next s !! beg;
  match nx with
  | None => push_back_range fuel s h first
  | Some _ => if at_end first then erase_tail fuel s h beg else Some s
  end.
End iter.

(** [ForwardList(n, val)] on memory whose header is [h]. *)
Definition fill_construct (n : nat) s h (v : T) : option (Store T) :=
  s ← reset s h; insert_copies n s h h v.

(** [ForwardList(first, last)] *)
Definition range_construct {It} `{!InputIter T It} (fuel : nat) s h (first : It) : option (Store T) :=
  s ← reset s h; insert_range fuel s h h first.

(** [ForwardList(ForwardList const &)] *)
Definition copy_construct (fuel : nat) s h o : option (Store T) :=
  s ← reset s h; first ← begin s o; insert_range fuel s h h first.

(** [operator=(Self const &)] *)
Definition copy_assign (fuel : nat) s h o : option (Store T) :=
  first ← begin s o; assign_range fuel s h first.

(** [ForwardListBase(ForwardListBase &&)] *)
Definition move_construct s h o : option (Store T) :=
  c ← count s !! o; nx ← next s !! o; p ← prev s !! o;
  s ← set_count s h c;
  s ← set_next s h nx;
  s ← set_prev s h (if c =? 0 then h else p);
  reset s o.

(** [operator=(Self &&)] *)
Definition move_assign s h o : option (Store T) := swap s h o.

(** [splice_after(pos, list, it)] *)
Definition splice_one s h pos o it : option (Store T) :=
  '(n, s) ← extract_after_node s o it; insert_after s h pos n.

Definition front s h : option T :=
  e ← empty s h; assert! negb e; nx ← next s !! h; n ← nx; val s !! n.

Definition back s h : option T :=
  e ← empty s h; assert! negb e; n ← prev s !! h; val s !! n.
End ops.

(** ** What operations leave alone *)

Section framing.
Context {T : Type}.
Implicit Types s : Store T.

Lemma lst_alive s h ns vs l : lst s h ns vs -> l ∈ h :: ns -> is_Some (next s !! l).
Proof. intros [Hs _ _ _ _]. by apply seg_alive with (q := None). Qed.

Lemma lst_length s h ns vs : lst s h ns vs -> length ns = length vs.
Proof. intros Hl. apply (Forall2_length _ _ _ (lst_vals _ _ _ _ Hl)). Qed.

(** A step on the list [h] leaves every disjoint list alone and disjoint. *)
Definition framed s h ns s' ns' : Prop :=
  forall o ms ws, lst s o ms ws -> (forall l, l ∈ h :: ns -> l ∉ o :: ms) ->
    lst s' o ms ws /\ (forall l, l ∈ h :: ns' -> l ∉ o :: ms).

Lemma framed_refl s h ns : framed s h ns s ns.
Proof. by intros o ms ws. Qed.

Lemma framed_trans s1 s2 s3 h ns1 ns2 ns3 :
  framed s1 h ns1 s2 ns2 -> framed s2 h ns2 s3 ns3 -> framed s1 h ns1 s3 ns3.
Proof. intros H1 H2 o ms ws Ho Hd. destruct (H1 o ms ws Ho Hd). by apply H2. Qed.

(** What a step touches beyond its list is fresh. *)
Lemma framed_intro D s h ns s' ns' :
  (forall l, l ∈ D -> next s !! l = None) -> agree_off (D ++ h :: ns) s s' ->
  (forall l, l ∈ ns' -> l ∈ D ++ ns) -> framed s h ns s' ns'.
Proof.
  intros HD Ha Hin o ms ws Ho Hdis.
  assert (forall l, l ∈ o :: ms -> l ∉ D) as HD'.
  { intros l Hl Hl'. destruct (lst_alive _ _ _ _ _ Ho Hl) as [x Hx]. by rewrite HD in Hx. }
  split.
  - eapply lst_frame; [done| |done]. intros l Hl Hx.
    apply elem_of_app in Hx as [Hx|Hx]; [by apply (HD' l)|by apply (Hdis l)].
  - intros l Hl Hx. apply elem_of_cons in Hl as [->|Hl]; [by apply (Hdis h); [constructor|]|].
    apply Hin, elem_of_app in Hl as [Hl|Hl]; [by apply (HD' l)|by apply (Hdis l); [right|]].
Qed.

Lemma framed_own s h ns s' ns' :
  agree_off (h :: ns) s s' -> (forall l, l ∈ ns' -> l ∈ ns) -> framed s h ns s' ns'.
Proof. intros Ha Hin. apply (framed_intro []); [intros l Hl; by apply elem_of_nil in Hl|done|done]. Qed.

Lemma advance_iter_spec s h ns vs i :
  lst s h ns vs -> (i <= length ns)%nat -> advance_iter s h i = Some (lastp h (take i ns)).
Proof.
  intros [Hs _ _ _ _]. clear vs. revert h ns Hs. induction i as [|i IH]; intros h ns Hs Hi; [done|].
  destruct ns as [|n ns]; [cbn in Hi; lia|]. destruct Hs as [Hs1 Hs2].
  cbn [advance_iter take]. rewrite Hs1. cbn [mbind option_bind]. rewrite lastp_cons.
  apply IH; [done|]. cbn in Hi. lia.
Qed.

Lemma lst_split_at s h ns vs i :
  lst s h ns vs -> (i <= length vs)%nat ->
  lst s h (take i ns ++ drop i ns) (take i vs ++ drop i vs) /\
  length (take i ns) = length (take i vs) /\ (i <= length ns)%nat.
Proof.
  intros Hl Hi. pose proof (lst_length _ _ _ _ Hl) as Hlen.
  rewrite !take_drop, !length_take. split_and!; (done || lia).
Qed.

End framing.

(** [reads s h ns it xs]: from [it] on, outside of the list [h] with its nodes
    [ns], the values [xs] are read, also after steps on that list. *)
Class IterReads (T It : Type) `{InputIter T It} := {
  reads : Store T -> loc -> list loc -> It -> list T -> Prop;
  reads_nil s h ns it : reads s h ns it [] -> at_end it = true;
  reads_cons s h ns it x xs : reads s h ns it (x :: xs) ->
    at_end it = false /\ deref s it = Some x /\
    exists it', incr s it = Some it' /\ reads s h ns it' xs;
  reads_frame s h ns s' ns' it xs :
    framed s h ns s' ns' -> reads s h ns it xs -> reads s' h ns' it xs
}.

#[export, refine] Instance values_reads (T : Type) : IterReads T (list T) := {
  reads _ _ _ it xs := it = xs
}.
Proof.
  - by intros s h ns it ->.
  - intros s h ns it x xs ->. cbn. eauto.
  - done.
Defined.

(** An iterator into another list, which shares no node with [h]. *)
Definition node_reads {T} (s : Store T) (h : loc) (ns : list loc) (it : option loc) (xs : list T) : Prop :=
  exists o ms1 ms2 ws1, lst s o (ms1 ++ ms2) (ws1 ++ xs) /\ length ms1 = length ws1 /\
    it = hd_or None ms2 /\ (forall l, l ∈ h :: ns -> l ∉ o :: ms1 ++ ms2).

#[export, refine] Instance nodes_reads (T : Type) : IterReads T (option loc) := {
  reads := node_reads
}.
Proof.
  - intros s h ns it (o & ms1 & ms2 & ws1 & Ho & Hlen & -> & _).
    pose proof (lst_length _ _ _ _ Ho) as E. rewrite !length_app in E.
    destruct ms2; [done|]. cbn in E. lia.
  - intros s h ns it x xs (o & ms1 & ms2 & ws1 & Ho & Hlen & -> & Hd).
    destruct ms2 as [|m ms2].
    { pose proof (lst_length _ _ _ _ Ho) as E. rewrite !length_app in E. cbn in E. lia. }
    destruct (lst_at _ _ _ _ _ _ _ Ho Hlen) as (v & vs & E & Hv). simplify_eq.
    split; [done|]. split; [done|]. exists (hd_or None ms2). split.
    + change (m :: ms2) with ([m] ++ ms2) in Ho. rewrite app_assoc in Ho.
      pose proof (lst_pos_next _ _ _ _ _ Ho) as En. rewrite lastp_snoc in En. done.
    + exists o, (ms1 ++ [m]), ms2, (ws1 ++ [v]). rewrite <- !app_assoc, !length_app.
      split_and!; [done|cbn; lia|done|done].
  - intros s h ns s' ns' it xs Hf (o & ms1 & ms2 & ws1 & Ho & Hlen & -> & Hd).
    destruct (Hf _ _ _ Ho Hd). by exists o, ms1, ms2, ws1.
Defined.

(** ** Specifications *)

Section specs.
Context {T : Type}.
Implicit Types s : Store T.
Context (alloc : Store T -> loc).
Context (alloc_fresh : forall s, next s !! alloc s = None).

Lemma new_node_spec s (v : T) :
  exists s', new_node alloc s v = Some (alloc s, s') /\ single s' (alloc s) v /\ agree_off [alloc s] s s'.
Proof using alloc_fresh.
  unfold new_node, create_node. rewrite alloc_fresh. cbn. eexists. split; [done|]. split.
  - split; cbn; by rewrite lookup_insert_eq.
  - intros l Hl. cbn. rewrite !lookup_insert_ne by set_solver. done.
Qed.

Lemma new_node_lst s s' h ns vs :
  agree_off [alloc s] s s' -> lst s h ns vs -> lst s' h ns vs /\ alloc s ∉ h :: ns.
Proof using alloc_fresh.
  intros Ha Hl. assert (alloc s ∉ h :: ns) as Hn.
  { intros E. destruct (lst_alive _ _ _ _ _ Hl E) as [x Hx]. by rewrite alloc_fresh in Hx. }
  split; [|done]. eapply lst_frame; [done| |done]. intros l Hl' E.
  apply list_elem_of_singleton in E as ->. done.
Qed.

Lemma framed_new s s1 s2 h ns ns' :
  agree_off [alloc s] s s1 -> agree_off (alloc s :: h :: ns) s1 s2 ->
  (forall l, l ∈ ns' -> l ∈ alloc s :: ns) -> framed s h ns s2 ns'.
Proof using alloc_fresh.
  intros Ha1 Ha2 Hin. apply (framed_intro [alloc s]); [|cbn|done].
  - intros l Hl. apply list_elem_of_singleton in Hl as ->. apply alloc_fresh.
  - eapply agree_off_trans; [eapply agree_off_mono; [|exact Ha1]; sub_locs|done].
Qed.

Lemma insert_next_spec s h ns1 ns2 vs1 vs2 v :
  lst s h (ns1 ++ ns2) (vs1 ++ vs2) -> length ns1 = length vs1 ->
  Z.of_nat (length (vs1 ++ vs2)) < 2 ^ 62 ->
  exists s' n, insert_next alloc s h (lastp h ns1) v = Some (n, s') /\
    lst s' h (ns1 ++ n :: ns2) (vs1 ++ v :: vs2) /\ framed s h (ns1 ++ ns2) s' (ns1 ++ n :: ns2).
Proof using alloc_fresh.
  intros Hl Hlen Hb. rewrite <- (lst_length _ _ _ _ Hl) in Hb. unfold insert_next.
  destruct (new_node_spec s v) as (s1 & -> & Hn & Ha). cbn [mbind option_bind].
  destruct (new_node_lst s s1 h _ _ Ha Hl) as [Hl1 Hfr].
  destruct (insert_after_spec s1 h ns1 ns2 vs1 vs2 (alloc s) v)
    as (s2 & -> & Hl2 & Ha2 & Hpos); [done..|lia|].
  cbn [mbind option_bind]. rewrite Hpos. cbn [mbind option_bind].
  eexists _, _. split; [done|]. split; [done|]. eapply framed_new; [done..|]. sub_locs.
Qed.

Lemma push_front_new s h ns vs v :
  lst s h ns vs -> Z.of_nat (length vs) < 2 ^ 62 ->
  exists s' n, ('(n, s) ← new_node alloc s v; push_front s h n) = Some s' /\
    lst s' h (n :: ns) (v :: vs) /\ framed s h ns s' (n :: ns).
Proof using alloc_fresh.
  intros Hl Hb. rewrite <- (lst_length _ _ _ _ Hl) in Hb.
  destruct (new_node_spec s v) as (s1 & -> & Hn & Ha). cbn [mbind option_bind].
  destruct (new_node_lst s s1 h ns vs Ha Hl) as [Hl1 Hfr].
  destruct (push_front_spec s1 h ns vs (alloc s) v) as (s2 & E & Hl2 & Ha2); [done..|lia|].
  eexists _, _. split; [done|]. split; [done|]. by eapply framed_new.
Qed.

Lemma push_back_new s h ns vs v :
  lst s h ns vs -> Z.of_nat (length vs) < 2 ^ 62 ->
  exists s' n, ('(n, s) ← new_node alloc s v; push_back s h n) = Some s' /\
    lst s' h (ns ++ [n]) (vs ++ [v]) /\ framed s h ns s' (ns ++ [n]).
Proof using alloc_fresh.
  intros Hl Hb. rewrite <- (lst_length _ _ _ _ Hl) in Hb.
  destruct (new_node_spec s v) as (s1 & -> & Hn & Ha). cbn [mbind option_bind].
  destruct (new_node_lst s s1 h ns vs Ha Hl) as [Hl1 Hfr].
  destruct (push_back_spec s1 h ns vs (alloc s) v) as (s2 & E & Hl2 & Ha2); [done..|lia|].
  eexists _, _. split; [done|]. split; [done|]. eapply framed_new; [done..|]. sub_locs.
Qed.

Lemma insert_copies_spec cnt s h ns1 ns2 vs1 vs2 v :
  lst s h (ns1 ++ ns2) (vs1 ++ vs2) -> length ns1 = length vs1 ->
  Z.of_nat (length (vs1 ++ vs2)) + Z.of_nat cnt < 2 ^ 62 ->
  exists s' ms, insert_copies alloc cnt s h (lastp h ns1) v = Some s' /\
    lst s' h (ns1 ++ ms ++ ns2) (vs1 ++ repeat v cnt ++ vs2) /\
    framed s h (ns1 ++ ns2) s' (ns1 ++ ms ++ ns2).
Proof using alloc_fresh.
  revert s ns1 vs1. induction cnt as [|k IH]; intros s ns1 vs1 Hl Hlen Hb; cbn [insert_copies repeat].
  { exists s, []. split; [done|]. split; [done|apply framed_refl]. }
  destruct (insert_next_spec s h ns1 ns2 vs1 vs2 v) as (s1 & n & -> & Hl1 & Hf1); [done..|lia|].
  cbn [mbind option_bind]. rewrite <- (lastp_snoc h ns1 n).
  destruct (IH s1 (ns1 ++ [n]) (vs1 ++ [v])) as (s2 & ms & -> & Hl2 & Hf2).
  - by rewrite <- !app_assoc.
  - rewrite !length_app. cbn. lia.
  - rewrite !length_app in *. cbn [length] in *. lia.
  - rewrite <- !app_assoc in Hl2, Hf2. exists s2, (n :: ms). split; [done|]. split; [done|].
    by eapply framed_trans.
Qed.

Lemma push_backs_spec cnt s h ns vs v :
  lst s h ns vs -> Z.of_nat (length vs) + Z.of_nat cnt < 2 ^ 62 ->
  exists s' ns', push_backs alloc cnt s h v = Some s' /\
    lst s' h ns' (vs ++ repeat v cnt) /\ framed s h ns s' ns'.
Proof using alloc_fresh.
  revert s ns vs. induction cnt as [|k IH]; intros s ns vs Hl Hb; cbn [push_backs repeat].
  { exists s, ns. rewrite app_nil_r. split; [done|]. split; [done|apply framed_refl]. }
  destruct (push_back_new s h ns vs v) as (s1 & n & E & Hl1 & Hf1); [done|lia|].
  destruct (new_node alloc s v) as [[m sm]|]; [|done]. cbn [mbind option_bind] in *. rewrite E.
  destruct (IH s1 (ns ++ [n]) (vs ++ [v])) as (s2 & ns2 & E2 & Hl2 & Hf2);
    [done|rewrite length_app; cbn [length]; lia|].
  rewrite <- app_assoc in Hl2. exists s2, ns2. split; [done|]. split; [done|by eapply framed_trans].
Qed.

Lemma erase_tail_spec fuel s h ns1 ns2 vs1 vs2 :
  lst s h (ns1 ++ ns2) (vs1 ++ vs2) -> length ns1 = length vs1 ->
  Z.of_nat (length (vs1 ++ vs2)) < 2 ^ 62 -> (length ns2 < fuel)%nat ->
  exists s', erase_tail fuel s h (lastp h ns1) = Some s' /\ lst s' h ns1 vs1 /\
    framed s h (ns1 ++ ns2) s' ns1.
Proof.
  revert s ns2 vs2. induction fuel as [|k IH]; intros s ns2 vs2 Hl Hlen Hb Hf; [lia|].
  pose proof (lst_length _ _ _ _ Hl) as E. rewrite !length_app in E.
  cbn [erase_tail]. rewrite (lst_pos_next _ _ _ _ _ Hl). cbn [mbind option_bind].
  destruct ns2 as [|n ns2], vs2 as [|v vs2]; cbn [length] in E; try lia; cbn [hd_or].
  { rewrite !app_nil_r in *. exists s. split; [done|]. split; [done|apply framed_refl]. }
  destruct (erase_after_spec s h ns1 n ns2 vs1 v vs2) as (s1 & -> & Hl1 & _ & Ha1); [done..| |].
  { rewrite !length_app in *. cbn [length] in *. lia. }
  cbn [mbind option_bind]. cbn [length] in Hf. rewrite length_app in Hb. cbn [length] in Hb.
  destruct (IH s1 ns2 vs2) as (s2 & -> & Hl2 & Hf2); [done|done|rewrite length_app; lia|lia|].
  exists s2. split; [done|]. split; [done|]. eapply framed_trans; [|done].
  apply framed_own; [done|]. sub_locs.
Qed.

Lemma resize_spec fuel s h n ns vs v :
  lst s h ns vs -> Z.of_nat (length vs) + Z.of_nat n < 2 ^ 62 -> (length vs < fuel)%nat ->
  exists s' ns', resize alloc fuel s h n v = Some s' /\
    lst s' h ns' (take n vs ++ repeat v (n - length vs)) /\ framed s h ns s' ns'.
Proof using alloc_fresh.
  intros Hl Hb Hf. pose proof (lst_length _ _ _ _ Hl) as Hlen. unfold resize, size.
  rewrite (lst_count _ _ _ _ Hl). cbn [mbind option_bind]. case_bool.
  - replace (Z.to_nat _) with (n - length vs)%nat by lia. rewrite take_ge by lia.
    apply push_backs_spec; [done|lia].
  - destruct (lst_split_at s h ns vs n) as (Hl0 & Hlt & Hi); [done|lia|].
    rewrite (advance_iter_spec s h ns vs) by done. cbn [mbind option_bind].
    replace (n - length vs)%nat with 0%nat by lia. cbn [repeat]. rewrite app_nil_r.
    destruct (erase_tail_spec fuel s h _ _ _ _ Hl0) as (s1 & -> & Hl1 & Hf1);
      [done|rewrite take_drop; lia|rewrite length_drop; lia|].
    rewrite take_drop in Hf1. by eexists _, _.
Qed.

Section iter.
Context {It : Type} `{!InputIter T It} `{!IterReads T It}.

Lemma insert_range_spec fuel s h ns1 ns2 vs1 vs2 (first : It) xs :
  lst s h (ns1 ++ ns2) (vs1 ++ vs2) -> length ns1 = length vs1 ->
  reads s h (ns1 ++ ns2) first xs ->
  Z.of_nat (length (vs1 ++ vs2)) + Z.of_nat (length xs) < 2 ^ 62 -> (length xs < fuel)%nat ->
  exists s' ms, insert_range alloc fuel s h (lastp h ns1) first = Some s' /\
    lst s' h (ns1 ++ ms ++ ns2) (vs1 ++ xs ++ vs2) /\
    framed s h (ns1 ++ ns2) s' (ns1 ++ ms ++ ns2).
Proof using alloc_fresh.
  revert s ns1 vs1 first xs. induction fuel as [|k IH]; intros s ns1 vs1 first xs Hl Hlen Hr Hb Hf; [lia|].
  cbn [insert_range]. destruct xs as [|x xs].
  { rewrite (reads_nil _ _ _ _ Hr). exists s, []. split; [done|]. split; [done|apply framed_refl]. }
  destruct (reads_cons _ _ _ _ _ _ Hr) as (-> & -> & _). cbn [mbind option_bind length] in *.
  destruct (insert_next_spec s h ns1 ns2 vs1 vs2 x) as (s1 & n & -> & Hl1 & Hf1); [done..|lia|].
  cbn [mbind option_bind]. apply (reads_frame _ _ _ _ _ _ _ Hf1) in Hr.
  destruct (reads_cons _ _ _ _ _ _ Hr) as (_ & _ & it' & -> & Hr'). cbn [mbind option_bind].
  rewrite <- (lastp_snoc h ns1 n).
  destruct (IH s1 (ns1 ++ [n]) (vs1 ++ [x]) it' xs) as (s2 & ms & -> & Hl2 & Hf2).
  - by rewrite <- !app_assoc.
  - rewrite !length_app. cbn. lia.
  - by rewrite <- !app_assoc.
  - rewrite !length_app in *. cbn [length] in *. lia.
  - lia.
  - rewrite <- !app_assoc in Hl2, Hf2. exists s2, (n :: ms). split; [done|]. split; [done|].
    by eapply framed_trans.
Qed.

Lemma push_back_range_spec fuel s h ns vs (first : It) xs :
  lst s h ns vs -> reads s h ns first xs ->
  Z.of_nat (length vs) + Z.of_nat (length xs) < 2 ^ 62 -> (length xs < fuel)%nat ->
  exists s' ns', push_back_range alloc fuel s h first = Some s' /\
    lst s' h ns' (vs ++ xs) /\ framed s h ns s' ns'.
Proof using alloc_fresh.
  revert s ns vs first xs. induction fuel as [|k IH]; intros s ns vs first xs Hl Hr Hb Hf; [lia|].
  cbn [push_back_range]. destruct xs as [|x xs].
  { rewrite (reads_nil _ _ _ _ Hr), app_nil_r. exists s, ns. split; [done|]. split; [done|apply framed_refl]. }
  destruct (reads_cons _ _ _ _ _ _ Hr) as (-> & -> & it' & -> & Hr'). cbn [mbind option_bind length] in *.
  destruct (push_back_new s h ns vs x) as (s1 & n & E & Hl1 & Hf1); [done|lia|].
  destruct (new_node alloc s x) as [[m sm]|]; [|done]. cbn [mbind option_bind] in *. rewrite E.
  destruct (IH s1 (ns ++ [n]) (vs ++ [x]) it' xs) as (s2 & ns2 & E2 & Hl2 & Hf2);
    [done|by eapply reads_frame|rewrite length_app; cbn [length]; lia|lia|].
  rewrite <- app_assoc in Hl2. exists s2, ns2. split; [done|]. split; [done|by eapply framed_trans].
Qed.

(** Replacing the value of a node: destroyed, then constructed again. *)
Lemma replace_value s h ns1 n ns2 vs1 v vs2 :
  lst s h (ns1 ++ n :: ns2) (vs1 ++ v :: vs2) -> length ns1 = length vs1 ->
  exists s1, destroy s n = Some s1 /\
    framed s h (ns1 ++ n :: ns2) s1 (ns1 ++ n :: ns2) /\
    forall x, exists s2, construct s1 n x = Some s2 /\
      lst s2 h (ns1 ++ n :: ns2) (vs1 ++ x :: vs2) /\
      framed s1 h (ns1 ++ n :: ns2) s2 (ns1 ++ n :: ns2).
Proof.
  intros Hl Hlen. destruct (Hl) as [Hs Hnd Hp Hc Hv]. unfold destroy, construct.
  apply Forall2_app_inv in Hv as [Hv1 Hv2]; [|done]. inversion_clear Hv2 as [|? ? ? ? Hn Hv2'].
  rewrite Hn. cbn [mbind option_bind]. eexists. split; [done|]. split.
  { apply framed_own; [|done]. intros l Hl'. cbn [next val prev count].
    rewrite lookup_delete_ne by (intros ->; set_solver). done. }
  intros x. destruct (seg_alive _ _ _ _ n Hs) as [nx En]; [set_solver|]. cbn [next]. rewrite En.
  cbn [mbind option_bind next val prev count]. eexists. split; [done|]. split.
  - split; cbn [next val prev count]; try done. rewrite insert_delete_eq.
    rewrite app_comm_cons, <- Permutation_middle in Hnd. apply NoDup_cons in Hnd as [Hnn _].
    apply Forall2_app; [|constructor; [by rewrite lookup_insert_eq|]];
      apply (vals_insert_other s n x); try done; set_solver.
  - apply framed_own; [|done]. intros l Hl'. cbn [next val prev count].
    rewrite lookup_insert_ne by (intros ->; set_solver). done.
Qed.

Lemma assign_range_over_spec fuel s h ns1 ns2 vs1 vs2 (first : It) xs :
  lst s h (ns1 ++ ns2) (vs1 ++ vs2) -> length ns1 = length vs1 ->
  reads s h (ns1 ++ ns2) first xs -> (length ns2 < fuel)%nat ->
  exists s' first', assign_range_over fuel s (lastp h ns1) first
      = Some (lastp h (ns1 ++ take (length xs) ns2), first', s') /\
    lst s' h (ns1 ++ ns2) (vs1 ++ take (length ns2) xs ++ drop (length xs) vs2) /\
    reads s' h (ns1 ++ ns2) first' (drop (length ns2) xs) /\
    framed s h (ns1 ++ ns2) s' (ns1 ++ ns2).
Proof.
  revert s ns1 ns2 vs1 vs2 first xs.
  induction fuel as [|k IH]; intros s ns1 ns2 vs1 vs2 first xs Hl Hlen Hr Hf; [lia|].
  cbn [assign_range_over]. rewrite (lst_pos_next _ _ _ _ _ Hl). cbn [mbind option_bind].
  pose proof (lst_length _ _ _ _ Hl) as E. rewrite !length_app in E.
  destruct ns2 as [|n ns2], vs2 as [|v vs2]; cbn [length] in E; try lia; cbn [hd_or].
  { rewrite take_nil, drop_nil, !app_nil_r in *. exists s, first. split; [done|].
    split; [done|]. split; [done|apply framed_refl]. }
  destruct xs as [|x xs].
  { rewrite (reads_nil _ _ _ _ Hr). cbn [length take drop app]. rewrite app_nil_r.
    exists s, first. split; [done|]. split; [done|]. split; [done|apply framed_refl]. }
  destruct (reads_cons _ _ _ _ _ _ Hr) as (-> & _).
  destruct (replace_value s h ns1 n ns2 vs1 v vs2 Hl Hlen) as (s1 & -> & Hf1 & Hc).
  cbn [mbind option_bind]. apply (reads_frame _ _ _ _ _ _ _ Hf1) in Hr.
  destruct (reads_cons _ _ _ _ _ _ Hr) as (_ & -> & _). cbn [mbind option_bind].
  destruct (Hc x) as (s2 & -> & Hl2 & Hf2). cbn [mbind option_bind].
  apply (reads_frame _ _ _ _ _ _ _ Hf2) in Hr.
  destruct (reads_cons _ _ _ _ _ _ Hr) as (_ & _ & it' & -> & Hr'). cbn [mbind option_bind length] in *.
  change (n :: ns2) with ([n] ++ ns2) in *.
  rewrite app_assoc in Hr', Hl2, Hf1, Hf2. change (x :: vs2) with ([x] ++ vs2) in *. rewrite (app_assoc vs1) in Hl2.
  destruct (IH s2 (ns1 ++ [n]) ns2 (vs1 ++ [x]) vs2 it' xs) as (s3 & it3 & E3 & Hl3 & Hr3 & Hf3);
    [done|rewrite !length_app; cbn; lia|done|lia|]. rewrite lastp_snoc in E3. rewrite E3.
  exists s3, it3. clear IH. rewrite <- !app_assoc in *. cbn [take drop app length] in *. split; [done|].
  split; [done|]. split; [done|]. eapply framed_trans; [done|]. by eapply framed_trans.
Qed.

Lemma assign_range_spec fuel s h ns vs (first : It) xs :
  lst s h ns vs -> reads s h ns first xs ->
  Z.of_nat (length vs) + Z.of_nat (length xs) < 2 ^ 62 -> (length vs + length xs < fuel)%nat ->
  exists s' ns', assign_range alloc fuel s h first = Some s' /\
    lst s' h ns' xs /\ framed s h ns s' ns'.
Proof using alloc_fresh.
  intros Hl Hr Hb Hf. pose proof (lst_length _ _ _ _ Hl) as Hlen. unfold assign_range.
  destruct (assign_range_over_spec fuel s h [] ns [] vs first xs) as (s1 & it1 & E & Hl1 & Hr1 & Hf1);
    [done..|lia|].
  cbn [app] in *. change (lastp h []) with h in E. rewrite E. cbn [mbind option_bind].
  rewrite <- (take_drop (length xs) ns) in Hl1 at 1.
  rewrite (lst_pos_next _ _ _ _ _ Hl1). cbn [mbind option_bind].
  destruct (decide (length ns <= length xs)%nat) as [Hle|Hgt].
  - rewrite (drop_ge ns) in * by lia. cbn [hd_or]. rewrite app_nil_r, (take_ge ns) in Hl1 by lia.
    rewrite (drop_ge vs), app_nil_r in Hl1 by lia.
    destruct (push_back_range_spec fuel s1 h ns (take (length ns) xs) it1 (drop (length ns) xs))
      as (s2 & ns2 & -> & Hl2 & Hf2); [done|done|..]; rewrite ?length_take, ?length_drop; try lia.
    rewrite take_drop in Hl2. exists s2, ns2. split; [done|]. split; [done|by eapply framed_trans].
  - rewrite (drop_ge xs) in Hr1 by lia. rewrite (take_ge xs) in Hl1 by lia.
    destruct (drop (length xs) ns) as [|m ms] eqn:Em.
    { apply (f_equal length) in Em. rewrite length_drop in Em. cbn in Em. lia. }
    cbn [hd_or]. rewrite (reads_nil _ _ _ _ Hr1).
    assert (length ns = length (take (length xs) ns ++ m :: ms)) as El by (by rewrite <- Em, take_drop).
    rewrite length_app, length_take in El.
    destruct (erase_tail_spec fuel s1 h (take (length xs) ns) (m :: ms) xs (drop (length xs) vs))
      as (s2 & -> & Hl2 & Hf2); [done|..]; rewrite ?length_app, ?length_take, ?length_drop; try lia.
    rewrite <- Em, take_drop in Hf2. eexists _, _. split; [done|]. split; [done|by eapply framed_trans].
Qed.
End iter.

(** The memory of a header that is being constructed. *)
Definition header_at s h : Prop :=
  is_Some (prev s !! h) /\ is_Some (next s !! h) /\ is_Some (count s !! h).

Lemma node_reads_begin s h ns o ms ws :
  lst s o ms ws -> (forall l, l ∈ h :: ns -> l ∉ o :: ms) ->
  exists first, begin s o = Some first /\ node_reads s h ns first ws.
Proof.
  intros Ho Hd. exists (hd_or None ms). split.
  - apply (lst_pos_next s o [] ms ws Ho).
  - by exists o, [], ms, [].
Qed.

Lemma copy_construct_spec fuel s h o ms ws :
  header_at s h -> h ∉ o :: ms -> lst s o ms ws ->
  Z.of_nat (length ws) < 2 ^ 62 -> (length ws < fuel)%nat ->
  exists s' ns', copy_construct alloc fuel s h o = Some s' /\ lst s' h ns' ws /\ lst s' o ms ws /\
    (forall l, l ∈ h :: ns' -> l ∉ o :: ms).
Proof using alloc_fresh.
  intros (Hp & Hn & Hc) Hh Ho Hb Hf. unfold copy_construct.
  destruct (reset_spec s h) as (s1 & -> & Hl1 & Ha1); [done..|]. cbn [mbind option_bind].
  assert (lst s1 o ms ws) as Ho1.
  { eapply lst_frame; [done| |done]. intros l Hl E. by apply list_elem_of_singleton in E as ->. }
  assert (forall l, l ∈ [h] -> l ∉ o :: ms) as Hd by (intros l E; by apply list_elem_of_singleton in E as ->).
  destruct (node_reads_begin s1 h [] o ms ws Ho1 Hd) as (first & -> & Hr). cbn [mbind option_bind].
  destruct (insert_range_spec fuel s1 h [] [] [] [] first ws) as (s2 & ns & E & Hl2 & Hf2); [done..|].
  rewrite !app_nil_r in *. destruct (Hf2 o ms ws Ho1 Hd) as [Ho2 Hd2].
  by exists s2, ns.
Qed.

Lemma copy_assign_spec fuel s h ns vs o ms ws :
  lst s h ns vs -> lst s o ms ws -> (forall l, l ∈ h :: ns -> l ∉ o :: ms) ->
  Z.of_nat (length vs) + Z.of_nat (length ws) < 2 ^ 62 -> (length vs + length ws < fuel)%nat ->
  exists s' ns', copy_assign alloc fuel s h o = Some s' /\ lst s' h ns' ws /\ lst s' o ms ws /\
    (forall l, l ∈ h :: ns' -> l ∉ o :: ms).
Proof using alloc_fresh.
  intros Hl Ho Hd Hb Hf. unfold copy_assign.
  destruct (node_reads_begin s h ns o ms ws Ho Hd) as (first & -> & Hr). cbn [mbind option_bind].
  destruct (assign_range_spec fuel s h ns vs first ws) as (s1 & ns1 & -> & Hl1 & Hf1); [done..|].
  destruct (Hf1 o ms ws Ho Hd). by exists s1, ns1.
Qed.

Lemma move_construct_spec s h o ms ws :
  header_at s h -> h ∉ o :: ms -> lst s o ms ws ->
  exists s', move_construct s h o = Some s' /\ lst s' h ms ws /\ lst s' o [] [] /\ agree_off [h; o] s s'.
Proof using.
  clear alloc_fresh alloc.
  intros (Hp & Hn & Hc) Hh Ho. destruct (Ho) as [Hs Hnd Hop Hoc _].
  apply seg_header in Hs as [Hoh _]. apply NoDup_cons in Hnd as [Hom Hnd].
  rewrite elem_of_cons in Hh. unfold move_construct, set_count.
  rewrite Hoc, Hoh, Hop. cbn [mbind option_bind]. destruct Hc as [c ->]. cbn [mbind option_bind].
  rewrite set_next_ok by done. cbn [mbind option_bind].
  rewrite set_prev_ok by done. cbn [mbind option_bind next val prev count].
  match goal with |- context [reset ?s1 o] => set (s1' := s1) end.
  destruct (reset_spec s1' o) as (s2 & -> & Ho2 & Ha2);
    [cbn; rewrite lookup_insert_ne by tauto; eauto..|].
  exists s2. split; [done|]. split; [|split; [done|]].
  - apply (lst_frame [o] s1'); [done|set_solver|].
    eapply lst_move; [exact Ho|tauto|..]; cbn [s1' next val prev count].
    + by rewrite lookup_insert_eq.
    + intros n Hnn. by rewrite lookup_insert_ne by (intros ->; tauto).
    + done.
    + by rewrite lookup_insert_eq, Hoc.
    + rewrite lookup_insert_eq. destruct ms as [|m ms]; [done|]. cbn [length].
      destruct (Z.eqb_spec (Z.of_nat (S (length ms))) 0); [lia|]. by rewrite !lastp_cons.
  - eapply agree_off_trans; [|eapply agree_off_mono; [|exact Ha2]; sub_locs].
    intros l Hl. rewrite !elem_of_cons in Hl. cbn [s1' next val prev count].
    by rewrite !lookup_insert_ne by (intros ->; tauto).
Qed.

End specs.

(** ** Concrete stores *)

(** A store with nothing but empty lists at the given headers. *)
Definition empty_lists (T : Type) (hs : list loc) : Store T :=
  mkStore (list_to_map (map (fun h => (h, None)) hs)) ∅
          (list_to_map (map (fun h => (h, h)) hs)) (list_to_map (map (fun h => (h, 0)) hs)).

(** An allocator. *)
Definition first_free {T} (s : Store T) : loc := fresh (dom (next s)).

Lemma first_free_fresh {T} (s : Store T) : next s !! first_free s = None.
Proof. apply not_elem_of_dom, is_fresh. Qed.

(** Two lists without a common node. *)
Definition listed_pair : option (Store Z) :=
  s ← range_construct first_free 50 (empty_lists Z [1%positive; 2%positive]) 1%positive [1; 4];
  range_construct first_free 50 s 2%positive [2; 3; 9].

(** ** Properties *)

(** Copying and moving lists that share no node: copy construction and copy
    assignment give the receiver the values of the other list in nodes of its
    own and leave the other list as it was; move construction hands over the
    very nodes and leaves the other list empty; move assignment exchanges the
    two lists.  Every header stays well formed. *)
Theorem list_copies_and_moves {T} (alloc : Store T -> loc) (fuel : nat) (s : Store T)
    (h o : loc) (ns ms : list loc) (vs ws : list T) :
  (forall s, next s !! alloc s = None) ->
  lst s o ms ws -> Z.of_nat (length vs) + Z.of_nat (length ws) < 2 ^ 62 ->
  (length vs + length ws < fuel)%nat ->
  (header_at s h -> h ∉ o :: ms ->
    (exists s' ns', copy_construct alloc fuel s h o = Some s' /\ lst s' h ns' ws /\
       lst s' o ms ws /\ (forall l, l ∈ h :: ns' -> l ∉ o :: ms)) /\
    (exists s', move_construct s h o = Some s' /\ lst s' h ms ws /\ lst s' o [] [] /\
       agree_off [h; o] s s')) /\
  (lst s h ns vs -> (forall l, l ∈ h :: ns -> l ∉ o :: ms) ->
    (exists s' ns', copy_assign alloc fuel s h o = Some s' /\ lst s' h ns' ws /\
       lst s' o ms ws /\ (forall l, l ∈ h :: ns' -> l ∉ o :: ms)) /\
    (exists s', move_assign s h o = Some s' /\ lst s' h ms ws /\ lst s' o ns vs /\
       agree_off [h; o] s s')).
Proof.
  intros Ha Ho Hb Hf. split.
  - intros Hh Hn. split; [|by apply move_construct_spec].
    apply copy_construct_spec; (done || lia).
  - intros Hl Hd. split; [by eapply copy_assign_spec|by apply swap_spec].
Qed.

Lemma list_copies_and_moves_witness :
  exists s, listed_pair = Some s /\
    (exists s' ns', copy_assign first_free 50 s 1%positive 2%positive = Some s' /\
       lst s' 1%positive ns' [2; 3; 9] /\ lst s' 2%positive [5; 6; 7]%positive [2; 3; 9] /\
       (forall l, l ∈ 1%positive :: ns' -> l ∉ [2; 5; 6; 7]%positive)) /\
    (exists s', move_assign s 1%positive 2%positive = Some s' /\
       lst s' 1%positive [5; 6; 7]%positive [2; 3; 9] /\ lst s' 2%positive [3; 4]%positive [1; 4] /\
       agree_off [1; 2]%positive s s').
Proof.
  eexists. split; [vm_compute; reflexivity|].
  apply (list_copies_and_moves first_free 50 _ 1%positive 2%positive [3; 4]%positive
           [5; 6; 7]%positive [1; 4] [2; 3; 9]).
  - apply first_free_fresh.
  - split; [cbn; auto|by apply (bool_decide_unpack _)|done|done|by repeat constructor].
  - done.
  - cbn. lia.
  - split; [cbn; auto|by apply (bool_decide_unpack _)|done|done|by repeat constructor].
  - intros l H1 H2. set_solver.
Defined.
