(* ===== verification/ForwardListSort.v ===== *)
(** * Sorting and whole runs of zstl::ForwardList

    [sort] (bottom-up merge sort over 64 lists) and [sort2] (one quick-sort
    partition) of kanon/algo/forward_list/forward_list_impl.h, on the lists of
    values, and the properties of the container: a run of public operations on
    a list in the pointer store does what the same run does on a list of
    values. *)

From Stdlib Require Import ZArith Lia Sorting.Sorted.
From stdpp Require Import gmap.
From S2P Require Import Prelude ForwardList ForwardListAlgo ForwardListRange.

Section sort.
Context {T : Type} (cmp : T -> T -> bool).

(** [Self lists[64]] *)
Definition num_lists : nat := 64.

(** The inner loop of [sort]: carry [list] up through [lists]. *)
Fixpoint carry (fuel : nat) (i : nat) (lists : list (list T)) (list_ : list T) (end_of_lists : nat)
  : option (list (list T) * nat) :=
  match fuel with
  | O => None
  | S k =>
    li ← lists !! i;
    if decide (length li = 0)%nat then
      Some (<[i := list_]> lists, if decide (i = end_of_lists) then S end_of_lists else end_of_lists)
    else if (length list_ <? length li)%nat then
      carry k (S i) (<[i := []]> lists) (lmerge cmp li list_) end_of_lists
    else
      carry k (S i) (<[i := []]> lists) (lmerge cmp list_ li) end_of_lists
  end.

(** The outer loop: [list.push_front(extract_front())] until empty. *)
Fixpoint sort_loop (self : list T) (lists : list (list T)) (end_of_lists : nat)
  : option (list (list T) * nat) :=
  match self with
  | [] => Some (lists, end_of_lists)
  | x :: self' =>
    '(lists, e) ← carry (S num_lists) 0 lists [x] end_of_lists;
    sort_loop self' lists e
  end.

(** [for (int i = end_of_lists - 1; i >= 0; --i) list.merge(lists[i], cmp);] *)
Fixpoint sort_collect (i : nat) (lists : list (list T)) (list_ : list T) : option (list T) :=
  match i with
  | O => Some list_
  | S i' => li ← lists !! i'; sort_collect i' lists (lmerge cmp list_ li)
  end.

Definition sort (self : list T) : option (list T) :=
  '(lists, e) ← sort_loop self (repeat [] num_lists) 0;
  sort_collect e lists [].

(** [sort2] with [operator<] as [cmp]. *)
Fixpoint partition3 (pivot : T) (vs less equal larger : list T) : list T * list T * list T :=
  match vs with
  | [] => (less, equal, larger)
  | v :: vs' =>
    if cmp v pivot then partition3 pivot vs' (less ++ [v]) equal larger
    else if cmp pivot v then partition3 pivot vs' less equal (larger ++ [v])
    else partition3 pivot vs' less (equal ++ [v]) larger
  end.

Definition sort2 (self : list T) : option (list T) :=
  match self with
  | [] | [_] => Some self
  | [a; b] => Some (if negb (cmp a b) then [b; a] else self)
  | pivot :: rest =>
    let '(less, equal, larger) := partition3 pivot rest [] [pivot] [] in
    less ← sort less; larger ← sort larger;
    Some (less ++ equal ++ larger)
  end.

(** ** Correctness of the sorts *)

(** [cmp] is a strict weak order. *)
Context (cmp_asym : forall x y, cmp x y = true -> cmp y x = false).
Context (cmp_le_trans : forall x y z, cmp y x = false -> cmp z y = false -> cmp z x = false).

Definition le (x y : T) : Prop := cmp y x = false.

Lemma lmerge_Permutation xs ys : lmerge cmp xs ys ≡ₚ xs ++ ys.
Proof.
  revert ys. induction xs as [|x xs IHx]; intros ys; [by rewrite lmerge_nil_l|].
  induction ys as [|y ys IHy]; [by rewrite lmerge_nil_r, app_nil_r|].
  rewrite lmerge_cons. destruct (cmp y x).
  - rewrite IHy. apply (Permutation_middle (x :: xs)).
  - by rewrite IHx.
Qed.

Lemma lmerge_length xs ys : length (lmerge cmp xs ys) = (length xs + length ys)%nat.
Proof. rewrite (Permutation_length (lmerge_Permutation xs ys)). apply length_app. Qed.

Lemma lmerge_Forall (P : T -> Prop) xs ys : Forall P xs -> Forall P ys -> Forall P (lmerge cmp xs ys).
Proof. intros Hx Hy. rewrite lmerge_Permutation. by apply Forall_app. Qed.

Lemma lmerge_sorted xs ys :
  StronglySorted le xs -> StronglySorted le ys -> StronglySorted le (lmerge cmp xs ys).
Proof.
  revert ys. induction xs as [|x xs IHx]; intros ys Hx Hy; [by rewrite lmerge_nil_l|].
  induction ys as [|y ys IHy]; [by rewrite lmerge_nil_r|].
  apply StronglySorted_inv in Hx as Hx'. destruct Hx' as [Hxs Hxa].
  apply StronglySorted_inv in Hy as Hy'. destruct Hy' as [Hys Hya].
  assert (forall z w l, le z w -> Forall (le w) l -> Forall (le z) (w :: l)) as Hcons.
  { intros z w l Hzw Hl. constructor; [done|]. eapply Forall_impl; [done|].
    intros u. by apply cmp_le_trans. }
  rewrite lmerge_cons. destruct (cmp y x) eqn:E.
  - constructor; [auto|]. apply lmerge_Forall; [|done]. apply Hcons; [|done]. by apply cmp_asym.
  - constructor; [by apply IHx|]. apply lmerge_Forall; [done|]. by apply Hcons.
Qed.

(** The invariant of [sort]: the list at index [i] is empty or has [2 ^ i]
    elements, all are sorted, and those from [end_of_lists] on are empty. *)
Record sort_inv (lists : list (list T)) (e : nat) : Prop := {
  inv_len : length lists = num_lists;
  inv_size : forall i l, lists !! i = Some l -> l = [] \/ Z.of_nat (length l) = 2 ^ Z.of_nat i;
  inv_sorted : forall i l, lists !! i = Some l -> StronglySorted le l;
  inv_end : forall i l, (e <= i)%nat -> lists !! i = Some l -> l = [];
  inv_le : (e <= num_lists)%nat
}.

Lemma concat_insert (lists : list (list T)) i old new :
  lists !! i = Some old -> concat (<[i := new]> lists) ++ old ≡ₚ new ++ concat lists.
Proof.
  revert i. induction lists as [|l lists IH]; intros [|i] Hi; cbn in *; try done.
  - injection Hi as ->. rewrite <- app_assoc. apply Permutation_app_head, Permutation_app_comm.
  - rewrite <- app_assoc, IH by done. rewrite !app_assoc. apply Permutation_app_tail, Permutation_app_comm.
Qed.

Lemma sort_inv_clear lists e i :
  sort_inv lists e -> sort_inv (<[i := []]> lists) e.
Proof.
  intros [H1 H2 H3 H4 H5]. split; [by rewrite length_insert|..|done].
  all: intros j l; rewrite list_lookup_insert; case_decide; [|eauto].
  all: try (intros Hj; injection Hj as <-; (by left) || constructor).
  intros Hle Hj. by injection Hj as <-.
Qed.

Lemma carry_spec fuel i lists l e :
  sort_inv lists e -> (i <= e)%nat -> StronglySorted le l ->
  Z.of_nat (length l) = 2 ^ Z.of_nat i ->
  Z.of_nat (length (concat lists)) + Z.of_nat (length l) < 2 ^ 63 ->
  (num_lists - i < fuel)%nat ->
  exists lists' e', carry fuel i lists l e = Some (lists', e') /\ sort_inv lists' e' /\
    concat lists' ≡ₚ l ++ concat lists.
Proof.
  revert i lists l. induction fuel as [|k IH]; intros i lists l Hinv Hie Hs Hl Hb Hf; [lia|].
  cbn [carry]. pose proof Hinv as [H1 H2 H3 H4 H5].
  assert (i < num_lists)%nat as Hi.
  { unfold num_lists in *. destruct (decide (i < 64)%nat); [done|]. exfalso.
    assert (2 ^ 64 <= 2 ^ Z.of_nat i) by (apply Z.pow_le_mono_r; lia). lia. }
  destruct (lookup_lt_is_Some_2 lists i) as [li Hli]; [lia|]. rewrite Hli. cbn [mbind option_bind].
  pose proof (concat_insert lists i li [] Hli) as Hcl.
  assert (length li = 0 -> li = [])%nat as Hnil by (by destruct li).
  destruct (decide (length li = 0)%nat) as [E|E].
  - apply Hnil in E as ->. pose proof (concat_insert lists i [] l Hli) as Hp. rewrite app_nil_r in Hp.
    eexists _, _. split; [done|]. split; [|done]. split.
    + by rewrite length_insert.
    + intros j x. rewrite list_lookup_insert. case_decide; [|eauto].
      intros Hx. injection Hx as <-. right. destruct_and!; subst. done.
    + intros j x. rewrite list_lookup_insert. case_decide; [|eauto]. by intros [= <-].
    + intros j x Hj.
      assert (e <= j /\ (i = e -> S e <= j))%nat as [Hj1 Hj2] by (destruct (decide (i = e)); lia).
      clear Hj. rewrite list_lookup_insert. case_decide; [|eauto]. lia.
    + destruct (decide (i = e)); lia.
  - destruct (H2 i li Hli) as [->|Hsz]; [done|].
    assert (exists lists' e', carry k (S i) (<[i := []]> lists)
       (if (length l <? length li)%nat then lmerge cmp li l else lmerge cmp l li) e = Some (lists', e') /\
       sort_inv lists' e' /\ concat lists' ≡ₚ l ++ concat lists) as (lists' & e' & Ec & R).
    { set (l' := if (length l <? length li)%nat then _ else _).
      assert (l' ≡ₚ l ++ li) as Hl'.
      { unfold l'. case_bool; rewrite lmerge_Permutation; [apply Permutation_app_comm|done]. }
      assert (Z.of_nat (length l') = 2 ^ Z.of_nat (S i)) as Hlen.
      { rewrite (Permutation_length Hl'), length_app, Nat2Z.inj_add, Hl, Hsz.
        rewrite Nat2Z.inj_succ, Z.pow_succ_r by lia. lia. }
      assert (concat (<[i := []]> lists) ++ li ≡ₚ concat lists) as Hc' by done.
      pose proof (Permutation_length Hc') as Hcln. rewrite length_app in Hcln.
      destruct (IH (S i) (<[i := []]> lists) l') as (lists' & e' & Ec & Hinv' & Hp').
      - by apply sort_inv_clear.
      - destruct (decide (i = e)) as [->|]; [|lia].
        rewrite (H4 e li ltac:(lia) Hli) in E. done.
      - unfold l'. case_bool; apply lmerge_sorted; eauto.
      - done.
      - rewrite (Permutation_length Hl'), length_app. lia.
      - lia.
      - exists lists', e'. split; [done|]. split; [done|].
        rewrite Hp', Hl', <- app_assoc, (Permutation_app_comm li), Hc'. done. }
    destruct (length l <? length li)%nat; eauto.
Qed.

Lemma sort_loop_spec self lists e :
  sort_inv lists e -> Z.of_nat (length (concat lists)) + Z.of_nat (length self) < 2 ^ 63 ->
  exists lists' e', sort_loop self lists e = Some (lists', e') /\ sort_inv lists' e' /\
    concat lists' ≡ₚ self ++ concat lists.
Proof.
  revert lists e. induction self as [|x self IH]; intros lists e Hinv Hb; cbn [sort_loop]; [eauto|].
  cbn [length] in Hb.
  destruct (carry_spec (S num_lists) 0 lists [x] e) as (l1 & e1 & -> & Hinv1 & Hp1);
    [done|lia|repeat constructor|done|cbn [length]; lia|lia|].
  cbn [mbind option_bind]. pose proof (Permutation_length Hp1) as Hl1. cbn [length app] in Hl1.
  destruct (IH l1 e1) as (l2 & e2 & -> & Hinv2 & Hp2); [done|lia|].
  eexists _, _. split; [done|]. split; [done|]. rewrite Hp2, Hp1. cbn.
  by rewrite <- Permutation_middle.
Qed.

Lemma sort_collect_spec e lists l :
  (e <= length lists)%nat -> (forall i x, lists !! i = Some x -> StronglySorted le x) ->
  StronglySorted le l ->
  exists r, sort_collect e lists l = Some r /\ StronglySorted le r /\ r ≡ₚ l ++ concat (take e lists).
Proof.
  revert l. induction e as [|e IH]; intros l He Hs Hl; cbn [sort_collect].
  { exists l. cbn. by rewrite app_nil_r. }
  destruct (lookup_lt_is_Some_2 lists e) as [x Hx]; [lia|]. rewrite Hx. cbn [mbind option_bind].
  destruct (IH (lmerge cmp l x)) as (r & -> & Hr & Hp); [lia|done|apply lmerge_sorted; eauto|].
  exists r. split; [done|]. split; [done|].
  rewrite Hp, lmerge_Permutation, (take_S_r _ _ _ Hx), concat_app. cbn. rewrite app_nil_r.
  rewrite <- app_assoc. apply Permutation_app_head, Permutation_app_comm.
Qed.

Lemma concat_repeat_nil n : concat (repeat (@nil T) n) = [].
Proof. by induction n. Qed.

Lemma concat_take_empty e (lists : list (list T)) :
  (forall i l, (e <= i)%nat -> lists !! i = Some l -> l = []) -> concat (take e lists) = concat lists.
Proof.
  revert e. induction lists as [|l lists IH]; intros [|e] He; try done; cbn.
  - rewrite (He 0%nat l) by (done || lia). cbn.
    rewrite <- (IH 0%nat); [done|]. intros i x _ Hx. apply (He (S i) x); [lia|done].
  - f_equal. apply IH. intros i x Hi Hx. apply (He (S i) x); [lia|done].
Qed.

Lemma sort_spec self :
  Z.of_nat (length self) < 2 ^ 63 ->
  exists r, sort self = Some r /\ StronglySorted le r /\ r ≡ₚ self.
Proof.
  intros Hb. unfold sort.
  destruct (sort_loop_spec self (repeat [] num_lists) 0) as (lists & e & -> & [H1 H2 H3 H4 H5] & Hp).
  { assert (forall i l, repeat (@nil T) num_lists !! i = Some l -> l = []) as Hr.
    { intros i l Hi. apply list_elem_of_lookup_2, list_elem_of_In, repeat_spec in Hi. done. }
    split; [done|..|lia]; intros i l; eauto.
    - intros Hi. rewrite (Hr i l Hi). constructor. }
  { rewrite concat_repeat_nil. cbn [length]. lia. }
  cbn [mbind option_bind]. rewrite concat_repeat_nil, app_nil_r in Hp.
  destruct (sort_collect_spec e lists []) as (r & -> & Hr & Hpr); [lia|done|constructor|].
  exists r. split; [done|]. split; [done|]. rewrite Hpr. cbn. by rewrite concat_take_empty.
Qed.


Lemma partition3_spec p vs l e g :
  Forall (fun v => cmp v p = true) l -> Forall (fun v => cmp v p = false /\ cmp p v = false) e ->
  Forall (fun v => cmp p v = true) g ->
  let '(l', e', g') := partition3 p vs l e g in
  Forall (fun v => cmp v p = true) l' /\ Forall (fun v => cmp v p = false /\ cmp p v = false) e' /\
  Forall (fun v => cmp p v = true) g' /\ l' ++ e' ++ g' ≡ₚ vs ++ l ++ e ++ g.
Proof.
  revert l e g. induction vs as [|v vs IH]; intros l e g Hl He Hg; cbn [partition3]; [done|].
  destruct (cmp v p) eqn:E1; [|destruct (cmp p v) eqn:E2].
  - specialize (IH (l ++ [v]) e g). destruct (partition3 _ _ _ _ _) as [[l' e'] g'].
    destruct IH as (? & ? & ? & Hp); [apply Forall_app; auto|done|done|]. split_and!; try done.
    rewrite Hp. rewrite <- app_assoc. cbn. symmetry. rewrite !(app_assoc vs). apply Permutation_middle.
  - specialize (IH l e (g ++ [v])). destruct (partition3 _ _ _ _ _) as [[l' e'] g'].
    destruct IH as (? & ? & ? & Hp); [done|done|apply Forall_app; auto|]. split_and!; try done.
    rewrite Hp. rewrite !app_assoc. rewrite (Permutation_app_comm _ [v]). done.
  - specialize (IH l (e ++ [v]) g). destruct (partition3 _ _ _ _ _) as [[l' e'] g'].
    destruct IH as (? & ? & ? & Hp); [done|apply Forall_app; auto|done|]. split_and!; try done.
    rewrite Hp. rewrite <- !app_assoc. cbn. symmetry. rewrite !app_assoc. apply Permutation_middle.
Qed.

Lemma StronglySorted_app2 (l m : list T) :
  StronglySorted le l -> StronglySorted le m -> Forall (fun x => Forall (le x) m) l ->
  StronglySorted le (l ++ m).
Proof.
  intros Hl Hm H. induction Hl as [|x l Hl IH Hx]; [done|]. inversion H; subst. cbn.
  constructor; [by apply IH|]. by apply Forall_app.
Qed.

Lemma sorted_equal p (l : list T) :
  Forall (fun v => cmp v p = false /\ cmp p v = false) l -> StronglySorted le l.
Proof.
  induction 1 as [|x l [H1 H2] Hl IH]; [constructor|]. constructor; [done|].
  eapply Forall_impl; [done|]. intros y [Hy1 Hy2]. apply (cmp_le_trans x p y); auto.
Qed.

Lemma sort2_spec self :
  Z.of_nat (length self) < 2 ^ 63 ->
  exists r, sort2 self = Some r /\ StronglySorted le r /\ r ≡ₚ self.
Proof.
  intros Hb. unfold sort2. destruct self as [|a [|b [|c rest]]].
  - exists []. repeat constructor.
  - exists [a]. repeat constructor.
  - destruct (cmp a b) eqn:E; cbn [negb]; eexists; (split; [done|]); split.
    + repeat constructor. unfold le. auto.
    + done.
    + repeat constructor. unfold le. auto.
    + apply Permutation_swap.
  - assert (cmp a a = false) as Haa.
    { destruct (cmp a a) eqn:E; [|done]. by rewrite (cmp_asym _ _ E) in E. }
    pose proof (partition3_spec a (b :: c :: rest) [] [a] []) as Hpart.
    destruct (partition3 _ _ _ _ _) as [[l e] g].
    destruct Hpart as (Hl & He & Hg & Hp); [constructor|repeat constructor; done|constructor|].
    pose proof (Permutation_length Hp) as Hlen. cbn [length app] in Hb, Hlen. len_simpl.
    destruct (sort_spec l) as (l' & -> & Hsl & Hpl); [lia|].
    destruct (sort_spec g) as (g' & -> & Hsg & Hpg); [lia|]. cbn [mbind option_bind].
    eexists. split; [done|]. rewrite <- Hpl in Hl. rewrite <- Hpg in Hg. split.
    + apply StronglySorted_app2; [done|apply StronglySorted_app2; [by eapply sorted_equal|done|]|].
      * eapply Forall_impl; [exact He|]. intros x [Hx1 Hx2]. eapply Forall_impl; [exact Hg|].
        intros y Hy. apply (cmp_le_trans x a y); auto.
      * eapply Forall_impl; [exact Hl|]. intros x Hx. apply Forall_app. split.
        -- eapply Forall_impl; [exact He|]. intros y [Hy1 Hy2]. apply (cmp_le_trans x a y); auto.
        -- eapply Forall_impl; [exact Hg|]. intros y Hy. apply (cmp_le_trans x a y); auto.
    + rewrite Hpl, Hpg, Hp. symmetry.
      apply (Permutation_cons_append (b :: c :: rest) a).
Qed.

End sort.

(** ** Runs of operations *)

Inductive list_op (T : Type) :=
  | OpPushFront (v : T)
  | OpPushBack (v : T)
  | OpPopFront
  | OpInsertAfter (i : nat) (v : T)   (** after the [i]-th element, 0 is the front *)
  | OpInsertCopies (i cnt : nat) (v : T)
  | OpInsertRange (i : nat) (ws : list T)
  | OpAssign (ws : list T)
  | OpResize (n : nat) (v : T)
  | OpEraseAfter (i : nat)
  | OpReverse
  | OpRemoveIf (pred : T -> bool)
  | OpUnique (pred : T -> T -> bool)
  | OpClear.
Arguments OpPushFront {T} v.
Arguments OpPushBack {T} v.
Arguments OpPopFront {T}.
Arguments OpInsertAfter {T} i v.
Arguments OpInsertCopies {T} i cnt v.
Arguments OpInsertRange {T} i ws.
Arguments OpAssign {T} ws.
Arguments OpResize {T} n v.
Arguments OpEraseAfter {T} i.
Arguments OpReverse {T}.
Arguments OpRemoveIf {T} pred.
Arguments OpUnique {T} pred.
Arguments OpClear {T}.

Section runs.
Context {T : Type}.
Implicit Types s : Store T.

(** The allocator: any function that returns an unused address. *)
Context (alloc : Store T -> loc).
Context (alloc_fresh : forall s, next s !! alloc s = None).

Definition store_step (fuel : nat) (h : loc) (o : list_op T) s : option (Store T) :=
  match o with
  | OpPushFront v => '(n, s) ← new_node alloc s v; push_front s h n
  | OpPushBack v => '(n, s) ← new_node alloc s v; push_back s h n
  | OpPopFront => pop_front s h
  | OpInsertAfter i v => p ← advance_iter s h i; '(n, s) ← new_node alloc s v; insert_after s h p n
  | OpInsertCopies i cnt v => p ← advance_iter s h i; insert_copies alloc cnt s h p v
  | OpInsertRange i ws => p ← advance_iter s h i; insert_range alloc fuel s h p ws
  | OpAssign ws => assign_range alloc fuel s h ws
  | OpResize n v => resize alloc fuel s h n v
  | OpEraseAfter i => p ← advance_iter s h i; r ← erase_after s h p; Some r.2
  | OpReverse => reverse fuel s h
  | OpRemoveIf pred => r ← remove_if fuel s h pred; Some r.2
  | OpUnique pred => r ← unique fuel s h pred; Some r.2
  | OpClear => clear fuel s h
  end.

Definition values_step (o : list_op T) (vs : list T) : option (list T) :=
  match o with
  | OpPushFront v => Some (v :: vs)
  | OpPushBack v => Some (vs ++ [v])
  | OpPopFront => match vs with [] => None | _ :: vs' => Some vs' end
  | OpInsertAfter i v =>
    if decide (i <= length vs)%nat then Some (take i vs ++ v :: drop i vs) else None
  | OpInsertCopies i cnt v =>
    if decide (i <= length vs)%nat then Some (take i vs ++ repeat v cnt ++ drop i vs) else None
  | OpInsertRange i ws =>
    if decide (i <= length vs)%nat then Some (take i vs ++ ws ++ drop i vs) else None
  | OpAssign ws => Some ws
  | OpResize n v => Some (take n vs ++ repeat v (n - length vs))
  | OpEraseAfter i =>
    if decide (i < length vs)%nat then Some (take i vs ++ drop (S i) vs) else None
  | OpReverse => Some (rev vs)
  | OpRemoveIf pred => Some (keep pred vs)
  | OpUnique pred => Some (luniq pred vs)
  | OpClear => Some []
  end.

(** How many nodes an operation may create. *)
Definition op_size (o : list_op T) : nat :=
  match o with
  | OpInsertCopies _ cnt _ => cnt
  | OpInsertRange _ ws | OpAssign ws => length ws
  | OpResize n _ => n
  | _ => 1
  end.

Definition ops_size (ops : list (list_op T)) : nat := sum_list_with op_size ops.

Fixpoint run_list {S} (step : list_op T -> S -> option S) (ops : list (list_op T)) (x : S) : option S :=
  match ops with
  | [] => Some x
  | o :: ops' => x' ← step o x; run_list step ops' x'
  end.

Lemma pop_front_spec s h n ns v vs :
  lst s h (n :: ns) (v :: vs) -> Z.of_nat (length (n :: ns)) < 2 ^ 63 ->
  exists s', pop_front s h = Some s' /\ lst s' h ns vs /\ agree_off (h :: n :: ns) s s'.
Proof.
  intros Hl Hb. unfold pop_front.
  destruct (extract_front_spec s h n ns v vs) as (s1 & -> & Hl1 & Hn & Ha); [done|done|].
  cbn [mbind option_bind]. rewrite (drop_node_spec s1 n v) by done. eexists. split; [done|].
  pose proof (lst_nodup _ _ _ _ Hl) as Hnd. apply NoDup_cons in Hnd as [Hh Hnd].
  apply NoDup_cons in Hnd as [Hnn _]. rewrite elem_of_cons in Hh. split.
  - destruct Hl1 as [Hs1 ? ? ? Hv1]. split; cbn [next val prev count]; try done.
    + apply seg_delete_other; [|done]. rewrite elem_of_cons. intros [->|?]; tauto.
    + by apply vals_delete_other.
  - eapply agree_off_trans; [exact Ha|]. intros l Hl'. rewrite !elem_of_cons in Hl'.
    cbn [next val prev count]. rewrite !lookup_delete_ne by (intros ->; tauto). done.
Qed.

(** One operation on the store is one on the values. *)
Lemma store_step_refines fuel h o s ns vs vs' :
  lst s h ns vs -> Z.of_nat (length vs) + Z.of_nat (op_size o) < 2 ^ 62 ->
  (length vs + op_size o < fuel)%nat -> values_step o vs = Some vs' ->
  exists s' ns', store_step fuel h o s = Some s' /\ lst s' h ns' vs' /\ framed s h ns s' ns'.
Proof using alloc_fresh.
  intros Hl Hb Hf Hv. pose proof (lst_length _ _ _ _ Hl) as Hlen.
  destruct o; cbn [store_step values_step op_size] in *.
  - inv_monad. destruct (push_front_new alloc alloc_fresh s h ns vs v) as (s' & n & E & ?); [done|lia|].
    by eexists _, _.
  - inv_monad. destruct (push_back_new alloc alloc_fresh s h ns vs v) as (s' & n & E & ?); [done|lia|].
    by eexists _, _.
  - destruct vs as [|v vs]; [done|]. inv_monad. destruct ns as [|n ns]; [done|]. cbn [length] in *.
    destruct (pop_front_spec s h n ns v vs') as (s1 & E & Hl1 & Ha1); [done|cbn [length]; lia|].
    eexists _, _. split; [done|]. split; [done|]. apply framed_own; [done|]. intros l Hx. by right.
  - case_decide; [|done]. inv_monad. destruct (lst_split_at s h ns vs i) as (Hl0 & Hlt & Hi); [done..|].
    rewrite (advance_iter_spec s h ns vs) by done. cbn [mbind option_bind].
    destruct (new_node_spec alloc alloc_fresh s v) as (s1 & -> & Hn & Ha). cbn [mbind option_bind].
    destruct (new_node_lst alloc alloc_fresh s s1 h _ _ Ha Hl0) as [Hl1 Hfr].
    destruct (insert_after_spec s1 h (take i ns) (drop i ns) (take i vs) (drop i vs) (alloc s) v)
      as (s2 & E & Hl2 & Ha2 & _); [done|done|done|done|rewrite take_drop; lia|].
    rewrite take_drop in Ha2. eexists _, _. split; [done|]. split; [done|].
    eapply framed_new; [done..|]. intros l Hx. rewrite <- (take_drop i ns). revert l Hx. sub_locs.
  - case_decide; [|done]. inv_monad. destruct (lst_split_at s h ns vs i) as (Hl0 & Hlt & Hi); [done..|].
    rewrite (advance_iter_spec s h ns vs) by done. cbn [mbind option_bind].
    destruct (insert_copies_spec alloc alloc_fresh cnt s h _ _ _ _ v Hl0 Hlt) as (s' & ms & -> & Hl' & Hf');
      [rewrite take_drop; lia|]. rewrite take_drop in Hf'. by eexists _, _.
  - case_decide; [|done]. inv_monad. destruct (lst_split_at s h ns vs i) as (Hl0 & Hlt & Hi); [done..|].
    rewrite (advance_iter_spec s h ns vs) by done. cbn [mbind option_bind].
    destruct (insert_range_spec alloc alloc_fresh fuel s h _ _ _ _ ws ws Hl0 Hlt) as (s' & ms & -> & Hl' & Hf');
      [done|rewrite take_drop; lia|lia|]. rewrite take_drop in Hf'. by eexists _, _.
  - inv_monad. destruct (assign_range_spec alloc alloc_fresh fuel s h ns vs vs' vs') as (s' & ns' & ?);
      [done..|]. by exists s', ns'.
  - inv_monad. destruct (resize_spec alloc alloc_fresh fuel s h n ns vs v) as (s' & ns' & ?);
      [done|lia|lia|]. by exists s', ns'.
  - case_decide; [|done]. inv_monad.
    destruct (lst_split_at s h ns vs i) as (Hl0 & Hlt & Hi); [done|lia|].
    rewrite (advance_iter_spec s h ns vs) by done. cbn [mbind option_bind].
    destruct (drop i ns) as [|n ns2] eqn:En.
    { apply (f_equal length) in En. rewrite length_drop in En. cbn in En. lia. }
    destruct (drop i vs) as [|v vs2] eqn:Ev.
    { apply (f_equal length) in Ev. rewrite length_drop in Ev. cbn in Ev. lia. }
    assert (drop (S i) vs = vs2) as -> by (by rewrite <- (Nat.add_1_r i), <- drop_drop, Ev).
    destruct (erase_after_spec s h (take i ns) n ns2 (take i vs) v vs2)
      as (s2 & -> & Hl2 & _ & Ha2); [done|done|rewrite <- En, take_drop; lia|].
    rewrite <- En, take_drop in Ha2. eexists _, _. split; [done|]. split; [done|].
    apply framed_own; [done|]. intros l Hx. rewrite <- (take_drop i ns), En. revert l Hx. sub_locs.
  - inv_monad. destruct (reverse_spec fuel s h ns vs) as (s2 & -> & Hl2 & Ha2); [done|lia|lia|].
    eexists _, _. split; [done|]. split; [done|]. apply framed_own; [done|].
    intros l. by rewrite <- Permutation_rev.
  - inv_monad. destruct (remove_if_spec fuel pred s h ns vs) as (s2 & ns2 & -> & Hl2 & Hin & Ha2); [done|lia|lia|].
    eexists _, _. split; [done|]. split; [done|]. by apply framed_own.
  - inv_monad. destruct (unique_spec fuel pred s h ns vs) as (s2 & ns2 & -> & Hl2 & Hin & Ha2); [done|lia|lia|].
    eexists _, _. split; [done|]. split; [done|]. by apply framed_own.
  - inv_monad. destruct (clear_spec fuel s h ns vs) as (s2 & -> & Hl2 & _ & Ha2); [done|lia|].
    eexists _, _. split; [done|]. split; [done|]. apply framed_own; [done|]. intros l Hx. by apply elem_of_nil in Hx.
Qed.

Lemma luniq_length (pred : T -> T -> bool) vs : (length (luniq pred vs) <= length vs)%nat.
Proof. destruct vs; [done|]. cbn. pose proof (luniq_from_length pred t vs). lia. Qed.

Lemma values_step_length o vs vs' :
  values_step o vs = Some vs' -> (length vs' <= length vs + op_size o)%nat.
Proof.
  destruct o; cbn [values_step op_size]; intros Hv; try case_decide; try (destruct vs; [done|]);
    try done; inv_monad; len_simpl;
    rewrite ?length_app, ?length_take, ?length_drop, ?length_rev, ?repeat_length; len_simpl; try lia.
  - assert (length (keep pred vs) <= length vs)%nat by apply List.filter_length_le. lia.
  - pose proof (luniq_length pred vs). lia.
Qed.

Lemma run_list_refines fuel h ops s ns vs vs' :
  lst s h ns vs -> Z.of_nat (length vs) + Z.of_nat (ops_size ops) < 2 ^ 62 ->
  (length vs + ops_size ops < fuel)%nat -> run_list values_step ops vs = Some vs' ->
  exists s' ns', run_list (store_step fuel h) ops s = Some s' /\ lst s' h ns' vs' /\
    framed s h ns s' ns'.
Proof.
  revert s ns vs. induction ops as [|o ops IH]; intros s ns vs Hl Hb Hf Hr; cbn [run_list] in *.
  { inv_monad. eexists _, _. split; [done|]. split; [done|apply framed_refl]. }
  inv_monad. change (ops_size (o :: ops)) with (op_size o + ops_size ops)%nat in *. pose proof (values_step_length _ _ _ Hrun).
  destruct (store_step_refines fuel h o s ns vs l) as (s1 & ns1 & -> & Hl1 & Hf1); [done|lia|lia|done|].
  cbn [mbind option_bind].
  destruct (IH s1 ns1 l) as (s2 & ns2 & -> & Hl2 & Hf2); [done|lia|lia|done|].
  eexists _, _. split; [done|]. split; [done|by eapply framed_trans].
Qed.

End runs.

(** ** Concrete stores *)

(** The values of the list at [h]. *)
Fixpoint values_from {T} (fuel : nat) (s : Store T) (p : option loc) : list T :=
  match fuel, p with
  | S k, Some n =>
    match val s !! n, next s !! n with
    | Some v, Some nx => v :: values_from k s nx
    | _, _ => []
    end
  | _, _ => []
  end.

(** ** Properties *)

(** C18 A run of public operations (push_front, push_back, pop_front,
    insert_after of one value, of copies and of a range, assign, resize,
    erase_after, reverse, remove_if, unique, clear) on a list in the pointer store succeeds whenever the same run is defined on the list of
    values, and ends with a well-formed list that holds those values; every
    list that shares no node with it keeps its nodes and values. *)
Theorem forward_list_refines_values {T} (alloc : Store T -> loc) (fuel : nat) (h : loc)
    (ops : list (list_op T)) (s : Store T) (ns : list loc) (vs vs' : list T) :
  (forall s, next s !! alloc s = None) ->
  lst s h ns vs -> Z.of_nat (length vs) + Z.of_nat (ops_size ops) < 2 ^ 62 ->
  (length vs + ops_size ops < fuel)%nat -> run_list values_step ops vs = Some vs' ->
  exists s' ns', run_list (store_step alloc fuel h) ops s = Some s' /\ lst s' h ns' vs' /\
    forall o ms ws, lst s o ms ws -> (forall l, l ∈ h :: ns -> l ∉ o :: ms) ->
      lst s' o ms ws /\ (forall l, l ∈ h :: ns' -> l ∉ o :: ms).
Proof. intros Ha. by apply run_list_refines. Qed.

Definition demo_list_ops : list (list_op Z) :=
  [OpPushBack 3; OpPushFront 1; OpPushBack 3; OpInsertAfter 1 2; OpReverse;
   OpInsertRange 4 [5; 5]; OpInsertCopies 0 2 8; OpResize 7 0; OpAssign [3; 3; 2; 1];
   OpUnique Z.eqb; OpRemoveIf (fun v => v =? 1); OpEraseAfter 1].

Lemma forward_list_refines_values_witness :
  exists s' ns', run_list (store_step first_free 50 1%positive) demo_list_ops (empty_lists Z [1%positive])
    = Some s' /\ lst s' 1%positive ns' [3] /\
    forall o ms ws, lst (empty_lists Z [1%positive]) o ms ws ->
      (forall l, l ∈ 1%positive :: [] -> l ∉ o :: ms) ->
      lst s' o ms ws /\ (forall l, l ∈ 1%positive :: ns' -> l ∉ o :: ms).
Proof.
  apply (forward_list_refines_values first_free 50 1%positive demo_list_ops
           (empty_lists Z [1%positive]) [] [] [3]).
  - apply first_free_fresh.
  - split; try reflexivity; constructor; [set_solver|constructor].
  - vm_compute. reflexivity.
  - vm_compute. lia.
  - reflexivity.
Defined.

(** Merging two sorted lists by relinking their nodes: with a strict weak
    order the first list ends up sorted with exactly the values and the nodes
    of both, the second is empty, and every other list is untouched. *)
Theorem merge_sorted_lists {T} (cmp : T -> T -> bool) (fuel : nat) (s : Store T)
    (h o : loc) (ns ms : list loc) (vs ws : list T) :
  (forall x y, cmp x y = true -> cmp y x = false) ->
  (forall x y z, cmp y x = false -> cmp z y = false -> cmp z x = false) ->
  lst s h ns vs -> lst s o ms ws -> (forall l, l ∈ h :: ns -> l ∉ o :: ms) ->
  StronglySorted (le cmp) vs -> StronglySorted (le cmp) ws ->
  Z.of_nat (length ns) + Z.of_nat (length ms) < 2 ^ 63 -> (length ns + length ms < fuel)%nat ->
  exists s' ns' vs', merge fuel s h o cmp = Some s' /\
    lst s' h ns' vs' /\ StronglySorted (le cmp) vs' /\ vs' ≡ₚ vs ++ ws /\ ns' ≡ₚ ns ++ ms /\
    lst s' o [] [] /\ agree_off (h :: ns ++ o :: ms) s s'.
Proof.
  intros Has Htr Hl Ho Hd Hsv Hsw Hb Hf.
  destruct (merge_spec fuel cmp s h o ns vs ms ws) as (s' & ns' & E & Hl' & Ho' & Hp & Ha); [done..|].
  exists s', ns', (lmerge cmp vs ws). split_and!; try done.
  - by apply lmerge_sorted.
  - apply lmerge_Permutation.
Qed.

Definition two_lists : option (Store Z) :=
  run_list (store_step first_free 50 1%positive) [OpPushBack 1; OpPushBack 4]
    (empty_lists Z [1%positive; 2%positive])
  ≫= run_list (store_step first_free 50 2%positive) [OpPushBack 2; OpPushBack 3; OpPushBack 9].

Lemma merge_sorted_lists_witness :
  exists s, two_lists = Some s /\
  exists s' ns' vs', merge 50 s 1%positive 2%positive Z.ltb = Some s' /\
    lst s' 1%positive ns' vs' /\ StronglySorted (le Z.ltb) vs' /\ vs' ≡ₚ [1; 4] ++ [2; 3; 9] /\
    ns' ≡ₚ [3; 4]%positive ++ [5; 6; 7]%positive /\
    lst s' 2%positive [] [] /\ agree_off (1%positive :: [3; 4]%positive ++ 2%positive :: [5; 6; 7]%positive) s s'.
Proof.
  eexists. split; [vm_compute; reflexivity|].
  apply (merge_sorted_lists Z.ltb).
  - intros x y. rewrite Z.ltb_lt, Z.ltb_ge. lia.
  - intros x y z. rewrite !Z.ltb_ge. lia.
  - split; [cbn; auto|by apply (bool_decide_unpack _)|done|done|by repeat constructor].
  - split; [cbn; auto|by apply (bool_decide_unpack _)|done|done|by repeat constructor].
  - intros l H1 H2. set_solver.
  - repeat constructor.
  - repeat constructor.
  - done.
  - cbn. lia.
Defined.

(** Both sorts return (no index of the 64 auxiliary lists is ever out of
    range) a sorted permutation of the list, for a strict weak order and any
    list that fits in memory. *)
Theorem sorts_sort {T} (cmp : T -> T -> bool) (self : list T) :
  (forall x y, cmp x y = true -> cmp y x = false) ->
  (forall x y z, cmp y x = false -> cmp z y = false -> cmp z x = false) ->
  Z.of_nat (length self) < 2 ^ 63 ->
  (exists r, sort cmp self = Some r /\ StronglySorted (le cmp) r /\ r ≡ₚ self) /\
  (exists r, sort2 cmp self = Some r /\ StronglySorted (le cmp) r /\ r ≡ₚ self).
Proof. intros Has Htr Hb. split; [by apply sort_spec|by apply sort2_spec]. Qed.

Lemma sorts_sort_witness :
  (exists r, sort Z.ltb [3; 1; 2; 3; 0] = Some r /\ StronglySorted (le Z.ltb) r /\ r ≡ₚ [3; 1; 2; 3; 0]) /\
  (exists r, sort2 Z.ltb [3; 1; 2; 3; 0] = Some r /\ StronglySorted (le Z.ltb) r /\ r ≡ₚ [3; 1; 2; 3; 0]).
Proof.
  apply sorts_sort.
  - intros x y. rewrite Z.ltb_lt, Z.ltb_ge. lia.
  - intros x y z. rewrite !Z.ltb_ge. lia.
  - done.
Defined.

(** ** Defects *)

(** [assign(count, value)] with [count] below the size keeps the old tail: the
    branch that should erase it tests [count < 0] on an unsigned integer. *)
Theorem assign_keeps_tail :
  (s ← run_list (store_step first_free 50 1%positive) [OpPushBack 1; OpPushBack 2; OpPushBack 3]
         (empty_lists Z [1%positive]);
   s ← assign 1 s 1%positive 7 [];
   nx ← begin s 1%positive; Some (values_from 10 s nx)) = Some [7; 2; 3].
Proof. reflexivity. Qed.

(** [operator=(Self const &)] does not test for [this == &other]: assigning a
    list to itself destroys each value before it is read as the new value, which
    is undefined for a class with a destructor. *)
Theorem self_assign_reads_destroyed :
  (s ← run_list (store_step first_free 50 1%positive) [OpPushBack 1; OpPushBack 2]
         (empty_lists Z [1%positive]);
   Some (copy_assign first_free 50 s 1%positive 1%positive)) = Some None.
Proof. vm_compute. reflexivity. Qed.

(** [splice_after(pos, list, first, last)] inserts every moved node after the
    same [pos]: the range arrives in reverse order. *)
Theorem splice_range_reverses :
  (s ← two_lists;
   s ← splice_range 50 s 1%positive 1%positive 2%positive 2%positive None;
   nx ← begin s 1%positive; Some (values_from 10 s nx)) = Some [9; 3; 2; 1; 4].
Proof. reflexivity. Qed.

(** [sort] is not a stable sort: equal elements come out in reverse. *)
Theorem sort_reverses_equals :
  sort (fun x y : Z * Z => x.1 <? y.1) [(1, 0); (1, 1)] = Some [(1, 1); (1, 0)].
Proof. reflexivity. Qed.
