(* ===== verification/ChunkList.v ===== *)
(** * kanon::ChunkList: kanon/buffer/chunk_list.h, chunk_list.cc and
    kanon/linux/net/chunk_list.cc

    The output buffer of a connection: a list of 4096-byte chunks, the first of
    which keeps 8 bytes in front for a length header, and a list of free chunks
    for reuse.  Both lists are zstl::ForwardLists of chunks; their operations are
    those of [ForwardList], written here on the lists of values they are shown
    to implement.  The refinement is to a byte queue. *)

From Stdlib Require Import ZArith Lia.
From S2P Require Import Prelude Endian Buffer.

(** ** Chunk *)

(** Indices are [unsigned int]; the bytes follow the object in its node. *)
Record Chunk := mkChunk {
  c_read : Z;
  c_write : Z;
  max_size_ : Z;
  c_buf : list byte
}.

Definition CHUNK_SIZE : Z := 4096.
Definition CHUNK_HEADER_SIZE : Z := CHUNK_SIZE.
Definition sizeof_size_t : Z := 8.

(** [sizeof(LinkedNode<Chunk>)]; [create_node_size] asks the allocator of nodes
    for [sizeof(Node) + sz] nodes. *)
Definition sizeof_node : Z := 24.
Definition chunk_node_bytes : Z := (sizeof_node + CHUNK_SIZE) * sizeof_node.

Definition chunk_readable (c : Chunk) : Z := u32 (c_write c - c_read c).
Definition chunk_writable (c : Chunk) : Z := u32 (max_size_ c - c_write c).

Definition SetToHeader (c : Chunk) : Chunk :=
  mkChunk sizeof_size_t sizeof_size_t (max_size_ c) (c_buf c).

Definition Reset (c : Chunk) : Chunk := mkChunk 0 0 (max_size_ c) (c_buf c).

Definition chunk_AdvanceRead (c : Chunk) (len : Z) : option Chunk :=
  assert! (c_read c <=? c_write c);
  let r := u32 (c_read c + len) in
  assert! (r <=? c_write c);
  Some (mkChunk r (c_write c) (max_size_ c) (c_buf c)).

Definition chunk_AdvanceWrite (c : Chunk) (len : Z) : option Chunk :=
  assert! (c_write c <=? max_size_ c);
  let w := u32 (c_write c + len) in
  assert! (w <=? max_size_ c);
  Some (mkChunk (c_read c) w (max_size_ c) (c_buf c)).

Definition chunk_Append (c : Chunk) (bs : list byte) : option Chunk :=
  assert! (zlen bs <=? chunk_writable c);
  buf ← mem_write (c_buf c) (c_write c) bs;
  Some (mkChunk (c_read c) (u32 (c_write c + zlen bs)) (max_size_ c) buf).

Definition chunk_Prepend (c : Chunk) (bs : list byte) : option Chunk :=
  assert! (sizeof_size_t <=? c_read c);
  assert! (sizeof_size_t <=? c_write c);
  assert! (zlen bs <=? sizeof_size_t);
  let r := c_read c - zlen bs in
  buf ← mem_write (c_buf c) r bs;
  Some (mkChunk r (c_write c) (max_size_ c) buf).

Definition IsHeaderInitState (c : Chunk) : bool :=
  (sizeof_size_t =? c_read c) && (c_read c =? c_write c).

(** The readable bytes of a chunk ([ToStringView]). *)
Definition chunk_view (c : Chunk) : list byte :=
  slice (c_read c) (c_write c - c_read c) (c_buf c).

(** ** ChunkList *)

Record ChunkList := mkChunkList {
  buffers_ : list Chunk;
  free_buffers_ : list Chunk
}.

Definition empty_ChunkList : ChunkList := mkChunkList [] [].

Definition GetChunkSize (l : ChunkList) : Z := zlen (buffers_ l).
Definition GetFreeChunkSize (l : ChunkList) : Z := zlen (free_buffers_ l).
Definition IsEmpty (l : ChunkList) : bool := GetChunkSize l =? 0.
Definition HasReadable (l : ChunkList) : bool := negb (IsEmpty l).

(** [create_node_size(CHUNK_SIZE)] *)
Definition create_chunk `{Heap} : option Chunk :=
  if can_alloc chunk_node_bytes
  then Some (mkChunk 0 0 CHUNK_SIZE (fresh_bytes 0 CHUNK_SIZE)) else None.

(** The chunks with the last one replaced: what writing through the pointer
    that [before_end] or [AddChunk] returned does. *)
Definition set_last (cs : list Chunk) (c : Chunk) : list Chunk := removelast cs ++ [c].

(** The new chunk is the last one of the result. *)
Definition AddChunk `{Heap} (l : ChunkList) : option ChunkList :=
  '(c, free) ← (match free_buffers_ l with
                | c :: free => Some (c, free)
                | [] => c ← create_chunk; Some (c, [])
                end);
  let cs := buffers_ l ++ [c] in
  if zlen cs =? 1 then
    let h := SetToHeader c in
    assert! (CHUNK_HEADER_SIZE =? max_size_ h);
    assert! (IsHeaderInitState h);
    Some (mkChunkList [h] free)
  else Some (mkChunkList cs free).

Definition Prepend `{Heap} (l : ChunkList) (bs : list byte) : option ChunkList :=
  l ← (if IsEmpty l then AddChunk l else Some l);
  match buffers_ l with
  | [] => None
  | c :: cs => c ← chunk_Prepend c bs; Some (mkChunkList (c :: cs) (free_buffers_ l))
  end.

(** The [while (len > 0)] loop of [Append]; the flag says that it returned from
    inside. *)
Fixpoint append_loop `{Heap} (fuel : nat) (l : ChunkList) (buf : list byte)
  : option (ChunkList * bool) :=
  match fuel with
  | O => None
  | S k =>
    if zlen buf =? 0 then Some (l, false) else
    l ← AddChunk l;
    free_buffer ← last (buffers_ l);
    let wsize := chunk_writable free_buffer in
    if wsize <=? zlen buf then
      c ← chunk_Append free_buffer (take (Z.to_nat wsize) buf);
      append_loop k (mkChunkList (set_last (buffers_ l) c) (free_buffers_ l))
        (drop (Z.to_nat wsize) buf)
    else
      c ← chunk_Append free_buffer buf;
      Some (mkChunkList (set_last (buffers_ l) c) (free_buffers_ l), true)
  end.

Definition append_rest `{Heap} (l : ChunkList) (buf : list byte) : option ChunkList :=
  '(l, returned) ← append_loop (S (length buf)) l buf;
  if (returned : bool) then Some l else
  c ← last (buffers_ l);
  assert! (negb (chunk_writable c =? CHUNK_SIZE));
  Some l.

Definition Append `{Heap} (l : ChunkList) (buf : list byte) : option ChunkList :=
  match last (buffers_ l) with
  | None => append_rest l buf
  | Some last_block =>
    let last_block_wsize := chunk_writable last_block in
    if 0 <? last_block_wsize then
      if zlen buf <=? last_block_wsize then
        c ← chunk_Append last_block buf;
        assert! (chunk_writable c =? last_block_wsize - zlen buf);
        Some (mkChunkList (set_last (buffers_ l) c) (free_buffers_ l))
      else
        c ← chunk_Append last_block (take (Z.to_nat last_block_wsize) buf);
        append_rest (mkChunkList (set_last (buffers_ l) c) (free_buffers_ l))
          (drop (Z.to_nat last_block_wsize) buf)
    else append_rest l buf
  end.

Definition Append8 `{Heap} (l : ChunkList) (i : Z) : option ChunkList :=
  Append l (le_bytes 1 i).
Definition Append16 `{Heap} (l : ChunkList) (i : Z) : option ChunkList :=
  Append l (le_bytes 2 (ToNetworkByteOrder16 i)).
Definition Append32 `{Heap} (l : ChunkList) (i : Z) : option ChunkList :=
  Append l (le_bytes 4 (ToNetworkByteOrder32 i)).
Definition Append64 `{Heap} (l : ChunkList) (i : Z) : option ChunkList :=
  Append l (le_bytes 8 (ToNetworkByteOrder64 i)).

Definition Prepend8 `{Heap} (l : ChunkList) (i : Z) : option ChunkList :=
  Prepend l (le_bytes 1 (ToNetworkByteOrder8 i)).
Definition Prepend16 `{Heap} (l : ChunkList) (i : Z) : option ChunkList :=
  let ni := ToNetworkByteOrder16 i in
  assert! (ToHostByteOrder16 ni =? i); Prepend l (le_bytes 2 ni).
Definition Prepend32 `{Heap} (l : ChunkList) (i : Z) : option ChunkList :=
  let ni := ToNetworkByteOrder32 i in
  assert! (ToHostByteOrder32 ni =? i); Prepend l (le_bytes 4 ni).
Definition Prepend64 `{Heap} (l : ChunkList) (i : Z) : option ChunkList :=
  let ni := ToNetworkByteOrder64 i in
  assert! (ToHostByteOrder64 ni =? i); Prepend l (le_bytes 8 ni).

(** [PutToFreeChunk]: the flag is its result. *)
Definition PutToFreeChunk (l : ChunkList) : option (bool * ChunkList) :=
  match buffers_ l with
  | [] => None
  | c :: cs =>
    if max_size_ c =? CHUNK_SIZE
    then Some (true, mkChunkList cs (Reset c :: free_buffers_ l))
    else Some (false, l)
  end.

Fixpoint AdvanceRead_loop (fuel : nat) (l : ChunkList) (len : Z) : option ChunkList :=
  match fuel with
  | O => None
  | S k =>
    match buffers_ l with
    | [] => Some l
    | c :: cs =>
      let rsize := chunk_readable c in
      if rsize <=? len then
        '(_, l) ← PutToFreeChunk l; AdvanceRead_loop k l (u64 (len - rsize))
      else
        c ← chunk_AdvanceRead c len; Some (mkChunkList (c :: cs) (free_buffers_ l))
    end
  end.

(** Every pass frees a chunk or returns. *)
Definition AdvanceRead (l : ChunkList) (len : Z) : option ChunkList :=
  AdvanceRead_loop (S (length (buffers_ l))) l len.

Definition GetReadableSize (l : ChunkList) : option Z :=
  match buffers_ l with
  | [] => Some 0
  | [c] => Some (chunk_readable c)
  | [c; d] => Some (u32 (chunk_readable c + chunk_readable d))
  | c :: d :: cs =>
    last_chunk ← last cs;
    Some (u64 (u32 (chunk_readable c + chunk_readable d)
               + (GetChunkSize l - 3) * CHUNK_SIZE + chunk_readable last_chunk))
  end.

Definition AdvanceReadAll (l : ChunkList) : option ChunkList :=
  n ← GetReadableSize l; AdvanceRead l n.

Definition GetReadBegin8 (l : ChunkList) : option Z :=
  c ← head (buffers_ l);
  assert! (1 <=? chunk_readable c);
  bs ← mem_read (c_buf c) (c_read c) 1;
  Some (le_value bs).

Definition GetReadBegin16 (l : ChunkList) : option Z :=
  c ← head (buffers_ l);
  assert! (2 <=? chunk_readable c);
  bs ← mem_read (c_buf c) (c_read c) 2;
  Some (ToHostByteOrder16 (le_value bs)).

Definition GetReadBegin32 (l : ChunkList) : option Z :=
  c ← head (buffers_ l);
  assert! (4 <=? chunk_readable c);
  bs ← mem_read (c_buf c) (c_read c) 4;
  Some (ToHostByteOrder32 (le_value bs)).

Definition GetReadBegin64 (l : ChunkList) : option Z :=
  c ← head (buffers_ l);
  assert! (8 <=? chunk_readable c);
  bs ← mem_read (c_buf c) (c_read c) 8;
  Some (ToHostByteOrder64 (le_value bs)).

Definition Read8 (l : ChunkList) : option (Z * ChunkList) :=
  ret ← GetReadBegin8 l; l ← AdvanceRead l 1; Some (ret, l).
Definition Read16 (l : ChunkList) : option (Z * ChunkList) :=
  ret ← GetReadBegin16 l; l ← AdvanceRead l 2; Some (ret, l).
Definition Read32 (l : ChunkList) : option (Z * ChunkList) :=
  ret ← GetReadBegin32 l; l ← AdvanceRead l 4; Some (ret, l).
Definition Read64 (l : ChunkList) : option (Z * ChunkList) :=
  ret ← GetReadBegin64 l; l ← AdvanceRead l 8; Some (ret, l).

(** Removes from the front of the free list until [chunk_size] are left. *)
Definition Shrink (l : ChunkList) (chunk_size : Z) : option ChunkList :=
  if GetFreeChunkSize l <=? chunk_size then Some l else
  let free := drop (Z.to_nat (GetFreeChunkSize l - chunk_size)) (free_buffers_ l) in
  assert! (zlen free =? chunk_size);
  Some (mkChunkList (buffers_ l) free).

Fixpoint create_chunks `{Heap} (n : nat) : option (list Chunk) :=
  match n with
  | O => Some []
  | S n' => c ← create_chunk; cs ← create_chunks n'; Some (c :: cs)
  end.

Definition ReserveFreeChunk `{Heap} (l : ChunkList) (chunk_size : Z) : option ChunkList :=
  if chunk_size <=? GetFreeChunkSize l then Some l else
  cs ← create_chunks (Z.to_nat (chunk_size - GetFreeChunkSize l));
  Some (mkChunkList (buffers_ l) (free_buffers_ l ++ cs)).

Definition ReserveChunk `{Heap} (l : ChunkList) (chunk_size : Z) : option ChunkList :=
  cs ← create_chunks (Z.to_nat chunk_size);
  Some (mkChunkList (buffers_ l ++ cs) (free_buffers_ l)).

(** The [for] loop of [ReserveWriteSpace]: [None] when it returned. *)
Fixpoint reserve_scan (cs : list Chunk) (size : Z) : option Z :=
  match cs with
  | [] => Some size
  | c :: cs' =>
    if size <=? chunk_writable c then None else reserve_scan cs' (size - chunk_writable c)
  end.

Definition ReserveWriteSpace `{Heap} (l : ChunkList) (size : Z) : option ChunkList :=
  match reserve_scan (buffers_ l) size with
  | None => Some l
  | Some size =>
    assert! (1 <=? size);
    ReserveFreeChunk l (Z.shiftr (size - 1) 12 + 1)
  end.

(** [splice_after(buffers_.end(), rhs->buffers_)]: [end()] is a null pointer,
    which [splice_after] follows unless the other list is empty. *)
Definition AppendChunkList (l rhs : ChunkList) : option (ChunkList * ChunkList) :=
  match buffers_ rhs with [] => Some (l, rhs) | _ :: _ => None end.

Definition GetFreeChunk (l : ChunkList) : option Chunk * ChunkList :=
  match free_buffers_ l with
  | c :: free => (Some c, mkChunkList (buffers_ l) free)
  | [] => (None, l)
  end.

Definition swap (l rhs : ChunkList) : ChunkList * ChunkList :=
  (mkChunkList (buffers_ rhs) (free_buffers_ rhs), mkChunkList (buffers_ l) (free_buffers_ l)).

(** ** Copies

    The lists copy their elements with the copy constructor of [Chunk], into
    nodes of the plain size: the indices are copied, the bytes behind the object
    are not, and there is room for 552 of them. *)
Definition plain_node_room : Z := sizeof_node * sizeof_node - sizeof_node.

Definition copy_chunk `{Heap} (c : Chunk) : option Chunk :=
  if can_alloc (sizeof_node * sizeof_node)
  then Some (mkChunk (c_read c) (c_write c) (max_size_ c) (fresh_bytes 0 plain_node_room)) else None.

Fixpoint copy_chunks `{Heap} (cs : list Chunk) : option (list Chunk) :=
  match cs with
  | [] => Some []
  | c :: cs => c ← copy_chunk c; cs ← copy_chunks cs; Some (c :: cs)
  end.

(** [operator=] of the list: the chunks that exist take the indices over. *)
Fixpoint assign_chunks `{Heap} (cs src : list Chunk) : option (list Chunk) :=
  match cs, src with
  | c :: cs, s :: src =>
    cs ← assign_chunks cs src; Some (mkChunk (c_read s) (c_write s) (max_size_ s) (c_buf c) :: cs)
  | [], src => copy_chunks src
  | _, [] => Some []
  end.

Definition Clone `{Heap} (l : ChunkList) : option ChunkList :=
  bs ← copy_chunks (buffers_ l); free ← copy_chunks (free_buffers_ l); Some (mkChunkList bs free).

Definition CopyAssign `{Heap} (l rhs : ChunkList) : option ChunkList :=
  bs ← assign_chunks (buffers_ l) (buffers_ rhs);
  free ← assign_chunks (free_buffers_ l) (free_buffers_ rhs);
  Some (mkChunkList bs free).

(** ** Writing to a descriptor *)

Definition IOVEC_MAX : Z := 1024.

Definition RoundUpDivideIn2 (x y : Z) : Z := if x =? 0 then 0 else (x - 1) / y + 1.

Inductive write_result := WriteError (errno : Z) | WriteBytes (n : Z).

Section write.
(** The system calls: what [write] and [writev] do with the blocks passed. *)
Context (sys_write : list byte -> write_result) (sys_writev : list (list byte) -> write_result).

(** One [iovec] per chunk from the iterator on; past the end it is null. *)
Fixpoint fill_iovecs (n : nat) (it : list Chunk) : option (list (list byte) * list Chunk) :=
  match n with
  | O => Some ([], it)
  | S n' =>
    match it with
    | [] => None
    | c :: it' => '(v, it) ← fill_iovecs n' it'; Some (chunk_view c :: v, it)
    end
  end.

Fixpoint writev_loop (cnt : nat) (n : nat) (first_chunk : list Chunk) (ret : Z)
  : option (Z * option Z) :=
  match cnt with
  | O => Some (ret, None)
  | S cnt' =>
    '(iovecs, first_chunk) ← fill_iovecs n first_chunk;
    match sys_writev iovecs with
    | WriteBytes k => writev_loop cnt' n first_chunk (ret + k)
    | WriteError e => Some (ret, Some e)
    end
  end.

(** The result and what is stored in [saved_errno]. *)
Definition ChunkListWriteFd (l : ChunkList) : option (Z * option Z) :=
  match buffers_ l with
  | [c] =>
    match sys_write (chunk_view c) with
    | WriteBytes n => Some (n, None)
    | WriteError _ => Some (u64 (-1), None)
    end
  | cs =>
    writev_loop (Z.to_nat (RoundUpDivideIn2 (zlen cs) IOVEC_MAX)) (length cs) cs 0
  end.

End write.

(** ** Invariant and abstraction *)

Record chunk_wf (c : Chunk) : Prop := {
  chunk_read_nonneg : 0 <= c_read c;
  chunk_read_write : c_read c <= c_write c;
  chunk_write_max : c_write c <= CHUNK_SIZE;
  chunk_max : max_size_ c = CHUNK_SIZE;
  chunk_len : zlen (c_buf c) = CHUNK_SIZE
}.

Definition full (c : Chunk) : Prop := c_write c = CHUNK_SIZE.

(** All chunks but the last are full, all but the first are unread; the free
    chunks are reset. *)
Record cl_wf (l : ChunkList) : Prop := {
  cl_chunks : Forall chunk_wf (buffers_ l);
  cl_unread : Forall (fun c => c_read c = 0) (tail (buffers_ l));
  cl_full : Forall full (removelast (buffers_ l));
  cl_free : Forall (fun c => chunk_wf c /\ c_read c = 0 /\ c_write c = 0) (free_buffers_ l)
}.

(** No chunk is empty. A list built by the operations of [ChunkList] alone has
    no empty chunk; one that a stream writes to can end in one. *)
Definition tight (l : ChunkList) : Prop := Forall (fun c => c_read c < c_write c) (buffers_ l).

(** The header position of the first chunk is free. *)
Definition roomy (l : ChunkList) : Prop :=
  forall c cs, buffers_ l = c :: cs -> sizeof_size_t <= c_read c.

Definition views (cs : list Chunk) : list byte := concat (map chunk_view cs).

(** The bytes of the queue. *)
Definition content (l : ChunkList) : list byte := views (buffers_ l).

Definition total_chunks (l : ChunkList) : Z := zlen (buffers_ l) + zlen (free_buffers_ l).

Ltac chunk_facts H :=
  let a := fresh "Hr" in let b := fresh "Hw" in let c := fresh "Hx" in
  let d := fresh "Hm" in let e := fresh "Hl" in
  pose proof (chunk_read_nonneg _ H) as a; pose proof (chunk_read_write _ H) as b;
  pose proof (chunk_write_max _ H) as c; pose proof (chunk_max _ H) as d;
  pose proof (chunk_len _ H) as e; unfold CHUNK_SIZE, CHUNK_HEADER_SIZE in *.

Lemma readable_spec c : chunk_wf c -> chunk_readable c = c_write c - c_read c.
Proof. intros H. chunk_facts H. unfold chunk_readable. apply u32_id. lia. Qed.

Lemma writable_spec c : chunk_wf c -> chunk_writable c = CHUNK_SIZE - c_write c.
Proof. intros H. chunk_facts H. unfold chunk_writable. rewrite Hm. apply u32_id. lia. Qed.

Lemma zlen_chunk_view c : chunk_wf c -> zlen (chunk_view c) = c_write c - c_read c.
Proof. intros H. chunk_facts H. unfold chunk_view. apply zlen_slice; lia. Qed.

Lemma chunk_Append_spec c bs :
  chunk_wf c -> zlen bs <= CHUNK_SIZE - c_write c ->
  exists c', chunk_Append c bs = Some c' /\ chunk_wf c' /\ c_read c' = c_read c /\
    c_write c' = c_write c + zlen bs /\ chunk_view c' = chunk_view c ++ bs.
Proof.
  intros H Hlen. pose proof (zlen_nonneg bs). unfold chunk_Append.
  rewrite writable_spec by done. rewrite check_bind_true by lia. chunk_facts H.
  rewrite mem_write_ok by lia. cbn [mbind option_bind]. eexists. split; [done|]. cbn [c_read c_write].
  rewrite u32_id by lia. split_and!; try done.
  - split; cbn; rewrite ?zlen_overwrite by lia; unfold CHUNK_SIZE; (done || lia).
  - unfold chunk_view. cbn [c_read c_write c_buf].
    rewrite (slice_split _ _ (c_write c - c_read c)) by lia. f_equal.
    + apply slice_overwrite_before; lia.
    + replace (c_read c + _) with (c_write c) by lia. apply slice_overwrite_eq; lia.
Qed.

Lemma views_app cs ds : views (cs ++ ds) = views cs ++ views ds.
Proof. unfold views. by rewrite map_app, concat_app. Qed.

Lemma views_cons c cs : views (c :: cs) = chunk_view c ++ views cs.
Proof. done. Qed.

Lemma views_singleton c : views [c] = chunk_view c.
Proof. unfold views. cbn. apply app_nil_r. Qed.

Lemma chunk_view_empty c : c_read c = c_write c -> chunk_view c = [].
Proof. intros E. unfold chunk_view. rewrite E, Z.sub_diag. apply slice_0. Qed.

Lemma set_last_snoc cs c c' : set_last (cs ++ [c]) c' = cs ++ [c'].
Proof. unfold set_last. by rewrite removelast_last. Qed.

Section chunk_list.
Context `{Heap}.
Context (Halloc : can_alloc chunk_node_bytes = true).

Lemma create_chunk_spec :
  exists c, create_chunk = Some c /\ chunk_wf c /\ c_read c = 0 /\ c_write c = 0.
Proof.
  unfold create_chunk. rewrite Halloc. eexists. split; [done|]. split; [|done].
  split; cbn; unfold CHUNK_SIZE; try lia. rewrite zlen_fresh_bytes; lia.
Qed.

Lemma create_chunks_spec n :
  exists cs, create_chunks n = Some cs /\ length cs = n /\
    Forall (fun c => chunk_wf c /\ c_read c = 0 /\ c_write c = 0) cs.
Proof.
  induction n as [|n (cs & E & Hl & Hf)]; cbn [create_chunks]; [by exists []|].
  destruct create_chunk_spec as (c & -> & Hc & Hr & Hw). cbn [mbind option_bind]. rewrite E.
  exists (c :: cs). cbn. split_and!; auto.
Qed.

(** A new chunk at the end: the header position if it is the only one. *)
Lemma AddChunk_spec l :
  cl_wf l ->
  exists c free, AddChunk l = Some (mkChunkList (buffers_ l ++ [c]) free) /\
    chunk_wf c /\ c_read c = c_write c /\
    c_write c = (if decide (buffers_ l = []) then sizeof_size_t else 0) /\
    Forall (fun c => chunk_wf c /\ c_read c = 0 /\ c_write c = 0) free /\
    (free = [] \/ zlen free + 1 = zlen (free_buffers_ l)).
Proof.
  intros [_ _ _ Hfree]. unfold AddChunk.
  assert (exists c free, (match free_buffers_ l with
      | c :: free => Some (c, free) | [] => c ← create_chunk; Some (c, []) end) = Some (c, free) /\
      (chunk_wf c /\ c_read c = 0 /\ c_write c = 0) /\
      Forall (fun c => chunk_wf c /\ c_read c = 0 /\ c_write c = 0) free /\
      (free = [] \/ zlen free + 1 = zlen (free_buffers_ l)))
    as (c & free & -> & (Hc & Hr & Hw) & Hf & Hlen).
  { destruct (free_buffers_ l) as [|c free].
    - destruct create_chunk_spec as (c & -> & Hc). exists c, []. cbn. auto.
    - inversion Hfree; subst. exists c, free. rewrite zlen_cons. auto. }
  cbn [mbind option_bind]. rewrite zlen_app, zlen_cons, zlen_nil.
  pose proof (zlen_nonneg (buffers_ l)) as Hbl. case_bool.
  - assert (buffers_ l = []) as El by (apply zlen_0_inv; lia). rewrite El.
    chunk_facts Hc. rewrite check_bind_true by (apply Z.eqb_eq; symmetry; apply (chunk_max _ Hc)).
    rewrite check_bind_true by done.
    exists (SetToHeader c), free. split; [done|]. by split_and!.
  - assert (buffers_ l <> []) as El by (intros E; rewrite E, zlen_nil in *; lia).
    exists c, free. rewrite decide_False by done. split_and!; try done. lia.
Qed.

Lemma roomy_snoc l c' free :
  roomy l -> (buffers_ l = [] -> sizeof_size_t <= c_read c') ->
  roomy (mkChunkList (buffers_ l ++ [c']) free).
Proof.
  unfold roomy. cbn [buffers_]. intros R N c cs E. destruct (buffers_ l) as [|d ds] eqn:El.
  - injection E as <- _. auto.
  - injection E as <- _. by eapply R.
Qed.

(** Filling the chunk just added. *)
Lemma fill_last_wf l pre c c' free :
  Forall chunk_wf pre ->
  Forall (fun c => c_read c = 0) (tail pre) -> Forall full pre ->
  Forall (fun c => chunk_wf c /\ c_read c = 0 /\ c_write c = 0) free ->
  chunk_wf c' -> (pre <> [] -> c_read c' = 0) ->
  l = mkChunkList (set_last (pre ++ [c]) c') free -> cl_wf l.
Proof.
  intros H1 H3 H4 H5 H6 H8 ->. rewrite set_last_snoc. split; cbn [buffers_ free_buffers_]; try done.
  - by apply Forall_app; auto.
  - destruct pre as [|p pre]; [constructor|]. cbn in *. apply Forall_app. auto.
  - by rewrite removelast_last.
Qed.

Lemma append_loop_spec fuel l buf :
  cl_wf l -> Forall full (buffers_ l) -> (length buf < fuel)%nat ->
  exists l' returned, append_loop fuel l buf = Some (l', returned) /\ cl_wf l' /\
    content l' = content l ++ buf /\ (tight l -> tight l') /\ (roomy l -> roomy l') /\
    (returned = false -> Forall full (buffers_ l')) /\
    (buffers_ l <> [] \/ buf <> [] -> buffers_ l' <> []).
Proof.
  revert l buf. induction fuel as [|k IH]; intros l buf Hwf Hfull Hf; [lia|]. cbn [append_loop].
  case_bool.
  { apply zlen_0_inv in Hb as ->. exists l, false. rewrite app_nil_r. split_and!; auto. tauto. }
  assert (buf <> []) as Hne by (intros ->; by rewrite zlen_nil in Hb).
  destruct (AddChunk_spec l Hwf) as (c & free & -> & Hc & Hcr & Hcw & Hfree & _).
  cbn [mbind option_bind buffers_ free_buffers_]. rewrite last_snoc. cbn [mbind option_bind].
  pose proof Hwf as [W1 W3 W4 W5]. rewrite writable_spec by done. chunk_facts Hc.
  assert (c_write c <= 8) as Hc8 by (rewrite Hcw; destruct (decide _); unfold sizeof_size_t; lia).
  assert (buffers_ l <> [] -> c_read c = 0) as Hr0 by (intros E; rewrite Hcr, Hcw, decide_False; done).
  assert (buffers_ l = [] -> sizeof_size_t <= c_read c) as Hr8
    by (intros E; rewrite Hcr, Hcw, decide_True; done).
  pose proof (chunk_view_empty c Hcr) as Hve.
  case_bool.
  - set (w := 4096 - c_write c) in *.
    assert (zlen (take (Z.to_nat w) buf) = w) as Hzt by (rewrite zlen_take; lia).
    destruct (chunk_Append_spec c (take (Z.to_nat w) buf)) as (c' & -> & Hc' & Er & Ew & Ev);
      [done|unfold CHUNK_SIZE; lia|].
    cbn [mbind option_bind]. set (l1 := mkChunkList _ free).
    assert (full c') as Hfc by (unfold full, CHUNK_SIZE; lia).
    assert (cl_wf l1) as Hwf1.
    { apply (fill_last_wf l1 (buffers_ l) c c' free); try done. intros E. rewrite Er. auto. }
    destruct (IH l1 (drop (Z.to_nat w) buf)) as (l' & ret & E & R1 & R2 & R5 & R6 & R3 & R4).
    { done. }
    { unfold l1. cbn. rewrite set_last_snoc. apply Forall_app. auto. }
    { rewrite length_drop. unfold zlen in *. lia. }
    exists l', ret. split_and!; try done.
    + rewrite R2. unfold content, l1. cbn [buffers_]. rewrite set_last_snoc, views_app, views_singleton, Ev, Hve.
      rewrite <- app_assoc. cbn [app]. by rewrite take_drop.
    + intros Ht. apply R5. unfold tight, l1. cbn [buffers_]. rewrite set_last_snoc.
      apply Forall_app. split; [done|]. constructor; [lia|done].
    + intros Hro. apply R6. unfold l1. rewrite set_last_snoc. apply roomy_snoc; [done|].
      intros E0. rewrite Er. auto.
    + intros _. apply R4. left. unfold l1. cbn. rewrite set_last_snoc. by destruct (buffers_ l).
  - pose proof (zlen_nonneg buf).
    assert (zlen buf <> 0) as Hz by (intros E0; apply zlen_0_inv in E0; done).
    destruct (chunk_Append_spec c buf) as (c' & -> & Hc' & Er & Ew & Ev); [done|unfold CHUNK_SIZE; lia|].
    cbn [mbind option_bind]. eexists _, true. split; [done|]. split_and!; try done.
    + apply (fill_last_wf _ (buffers_ l) c c' free); try done. intros E. rewrite Er. auto.
    + unfold content. cbn [buffers_]. by rewrite set_last_snoc, views_app, views_singleton, Ev, Hve.
    + intros Ht. unfold tight. cbn [buffers_]. rewrite set_last_snoc.
      apply Forall_app. split; [done|]. constructor; [lia|done].
    + intros Hro. rewrite set_last_snoc. apply roomy_snoc; [done|]. intros E0. rewrite Er. auto.
    + intros _. cbn. rewrite set_last_snoc. by destruct (buffers_ l).
Qed.

Lemma append_rest_spec l buf :
  cl_wf l -> Forall full (buffers_ l) -> buffers_ l <> [] \/ buf <> [] ->
  exists l', append_rest l buf = Some l' /\ cl_wf l' /\ content l' = content l ++ buf /\
    (tight l -> tight l') /\ (roomy l -> roomy l').
Proof.
  intros Hwf Hfull Hne. unfold append_rest.
  destruct (append_loop_spec (S (length buf)) l buf) as (l' & ret & -> & Hwf' & Hc & Ht & Hro & Hret & Hne');
    [done|done|lia|]. cbn [mbind option_bind].
  exists l'. split; [|auto]. destruct ret; [done|].
  specialize (Hret eq_refl). specialize (Hne' Hne).
  destruct (exists_last Hne') as (cs & c & E). rewrite E in *. rewrite last_snoc.
  cbn [mbind option_bind]. apply Forall_app in Hret as [_ Hfc]. rewrite Forall_singleton in Hfc.
  pose proof (cl_chunks _ Hwf') as W. rewrite E in W. apply Forall_app in W as [_ W].
  rewrite Forall_singleton in W. rewrite check_bind_true; [done|].
  rewrite writable_spec by done. unfold full in Hfc. rewrite Hfc. done.
Qed.

(** Appending in the last chunk keeps the invariant. *)
Lemma set_last_wf l cs c c' :
  cl_wf l -> buffers_ l = cs ++ [c] -> chunk_wf c' -> c_read c' = c_read c -> c_write c <= c_write c' ->
  cl_wf (mkChunkList (set_last (buffers_ l) c') (free_buffers_ l)).
Proof.
  intros [W1 W3 W4 W5] E Hc' Er Ew. rewrite E in *. rewrite set_last_snoc.
  rewrite removelast_last in W4. apply Forall_app in W1 as [W1 _].
  split; cbn [buffers_ free_buffers_]; try done.
  - apply Forall_app. auto.
  - destruct cs as [|d cs]; [constructor|]. cbn in *. apply Forall_app in W3 as [W3 Wr].
    rewrite Forall_singleton in Wr. apply Forall_app. split; [done|]. constructor; [lia|done].
  - by rewrite removelast_last.
Qed.

Lemma set_last_tight l cs c c' :
  tight l -> buffers_ l = cs ++ [c] -> c_read c' = c_read c -> c_write c <= c_write c' ->
  tight (mkChunkList (set_last (buffers_ l) c') (free_buffers_ l)).
Proof.
  unfold tight. cbn [buffers_]. intros Ht E Er Ew. rewrite E in *. rewrite set_last_snoc.
  apply Forall_app in Ht as [Ht Hc]. rewrite Forall_singleton in Hc.
  apply Forall_app. split; [done|]. constructor; [lia|done].
Qed.

Lemma set_last_roomy l cs c c' :
  roomy l -> buffers_ l = cs ++ [c] -> c_read c' = c_read c ->
  roomy (mkChunkList (set_last (buffers_ l) c') (free_buffers_ l)).
Proof.
  unfold roomy. cbn [buffers_]. intros R E Er d ds. rewrite E, set_last_snoc. intros E'.
  destruct cs as [|e cs]; injection E' as <- _.
  - rewrite Er. by apply (R c []).
  - by apply (R e (cs ++ [c])).
Qed.

Lemma chunks_Append_spec l buf :
  cl_wf l -> buffers_ l <> [] \/ buf <> [] ->
  exists l', Append l buf = Some l' /\ cl_wf l' /\ content l' = content l ++ buf /\
    (tight l -> tight l') /\ (roomy l -> roomy l').
Proof.
  intros Hwf Hne. unfold Append. destruct (last (buffers_ l)) as [c|] eqn:El.
  - apply last_Some in El as [cs El].
    assert (chunk_wf c) as Hc.
    { pose proof (cl_chunks _ Hwf) as W. rewrite El in W. apply Forall_app in W as [_ W].
      by rewrite Forall_singleton in W. }
    pose proof (zlen_nonneg buf). rewrite writable_spec by done. chunk_facts Hc.
    case_bool; [case_bool|].
    + destruct (chunk_Append_spec c buf) as (c' & -> & Hc' & Er & Ew & Ev); [done|unfold CHUNK_SIZE; lia|].
      cbn [mbind option_bind]. rewrite check_bind_true
        by (rewrite writable_spec by done; apply Z.eqb_eq; unfold CHUNK_SIZE; lia).
      eexists. split; [done|]. split; [eapply set_last_wf; (done || lia)|].
      split; [|split; [intros Ht; eapply set_last_tight; (done || lia)|
        intros Hro; by eapply set_last_roomy]]. unfold content. cbn [buffers_]. rewrite El, set_last_snoc, !views_app, !views_singleton, Ev.
      by rewrite app_assoc.
    + set (w := 4096 - c_write c) in *.
      assert (zlen (take (Z.to_nat w) buf) = w) as Hzt by (rewrite zlen_take; lia).
      destruct (chunk_Append_spec c (take (Z.to_nat w) buf)) as (c' & -> & Hc' & Er & Ew & Ev);
        [done|unfold CHUNK_SIZE; lia|].
      cbn [mbind option_bind].
      destruct (append_rest_spec (mkChunkList (set_last (buffers_ l) c') (free_buffers_ l))
        (drop (Z.to_nat w) buf)) as (l' & -> & Hwf' & Hc'' & Ht & Hro).
      * eapply set_last_wf; (done || lia).
      * cbn. pose proof (cl_full _ Hwf) as W. rewrite El, removelast_last in W.
        rewrite El, set_last_snoc. apply Forall_app. split; [done|].
        constructor; [unfold full, CHUNK_SIZE; lia|done].
      * left. cbn. rewrite El, set_last_snoc. by destruct cs.
      * exists l'. split; [done|]. split; [done|].
        split; [|split; [intros Htl; apply Ht; eapply set_last_tight; (done || lia)|
          intros Hrl; apply Hro; by eapply set_last_roomy]]. rewrite Hc''. unfold content. cbn [buffers_].
        rewrite El, set_last_snoc, !views_app, !views_singleton, Ev.
        rewrite <- !app_assoc. by rewrite take_drop.
    + apply append_rest_spec; [done| |done]. pose proof (cl_full _ Hwf) as W.
      rewrite El, removelast_last in W. rewrite El. apply Forall_app. split; [done|].
      constructor; [unfold full, CHUNK_SIZE; lia|done].
  - apply last_None in El. apply append_rest_spec; [done|rewrite El; constructor|done].
Qed.

(** An empty append to an empty list stops at the assertion that looks at the
    last chunk. *)
Lemma Append_empty_fails free : Append (mkChunkList [] free) [] = None.
Proof. done. Qed.

(** *** AdvanceRead *)

Lemma cl_wf_tail c cs free :
  cl_wf (mkChunkList (c :: cs) free) -> cl_wf (mkChunkList cs (Reset c :: free)).
Proof.
  intros [W1 W3 W4 W5]. cbn in *. inversion W1 as [|? ? Hc W1']; subst.
  split; cbn; try done.
  - destruct cs; [constructor|]. cbn in *. by inversion W3.
  - destruct cs; [constructor|]. by inversion W4.
  - constructor; [|done]. chunk_facts Hc. split; [|done].
    split; cbn; unfold CHUNK_SIZE; (done || lia).
Qed.

Lemma AdvanceRead_loop_spec fuel cs free len :
  cl_wf (mkChunkList cs free) -> 0 <= len < 2 ^ 63 -> (length cs < fuel)%nat ->
  exists l', AdvanceRead_loop fuel (mkChunkList cs free) len = Some l' /\ cl_wf l' /\
    content l' = drop (Z.to_nat len) (views cs) /\ total_chunks l' = zlen cs + zlen free /\
    (tight (mkChunkList cs free) -> tight l').
Proof.
  revert cs free len. induction fuel as [|k IH]; intros cs free len Hwf Hlen Hf; [lia|].
  cbn [AdvanceRead_loop buffers_]. destruct cs as [|c cs].
  { eexists. split; [done|]. split; [done|]. split; [|done]. change (views []) with (@nil byte). by rewrite drop_nil. }
  pose proof (cl_chunks _ Hwf) as W. inversion W as [|? ? Hc W']; subst.
  pose proof (zlen_chunk_view c Hc) as Hv. chunk_facts Hc. rewrite readable_spec by done.
  rewrite views_cons. case_bool.
  - unfold PutToFreeChunk. cbn [buffers_ free_buffers_]. rewrite Hm. cbn [mbind option_bind].
    change (4096 =? CHUNK_SIZE) with true. cbn [mbind option_bind]. rewrite u64_id by lia.
    destruct (IH cs (Reset c :: free) (len - (c_write c - c_read c))) as (l' & E & R1 & R2 & R3 & R4).
    + by apply cl_wf_tail.
    + lia.
    + cbn in Hf. lia.
    + exists l'. split_and!; try done.
      * rewrite R2, drop_app_ge by (unfold zlen in Hv; lia). f_equal. unfold zlen in Hv. lia.
      * rewrite R3, !zlen_cons. lia.
      * intros Ht. apply R4. by inversion Ht.
  - unfold chunk_AdvanceRead. rewrite check_bind_true by lia. rewrite u32_id by lia.
    rewrite check_bind_true by lia. cbn [mbind option_bind free_buffers_]. eexists. split; [done|].
    destruct Hwf as [W1 W3 W4 W5]. cbn [buffers_ free_buffers_] in *. split; [|split; [|split]].
    + split; cbn [buffers_ free_buffers_]; try done.
      * constructor; [|done]. split; cbn; unfold CHUNK_SIZE; (done || lia).
      * destruct cs; [constructor|]. inversion W4; subst. constructor; done.
    + unfold content. cbn [buffers_]. rewrite views_cons.
      rewrite drop_app_le by (unfold zlen in Hv; lia). f_equal. unfold chunk_view. cbn [c_read c_write c_buf].
      rewrite drop_slice by lia. f_equal. lia.
    + unfold total_chunks. cbn [buffers_ free_buffers_]. by rewrite !zlen_cons.
    + intros Ht. inversion Ht; subst. constructor; [cbn; lia|done].
Qed.

Lemma chunks_AdvanceRead_spec l len :
  cl_wf l -> 0 <= len < 2 ^ 63 ->
  exists l', AdvanceRead l len = Some l' /\ cl_wf l' /\
    content l' = drop (Z.to_nat len) (content l) /\ total_chunks l' = total_chunks l /\
    (tight l -> tight l').
Proof. destruct l as [cs free]. intros Hwf Hlen. apply AdvanceRead_loop_spec; [done|done|cbn; lia]. Qed.

(** *** GetReadableSize *)

Lemma zlen_views_full cs c :
  Forall chunk_wf (cs ++ [c]) -> Forall full cs -> Forall (fun c => c_read c = 0) (cs ++ [c]) ->
  zlen (views (cs ++ [c])) = zlen cs * CHUNK_SIZE + (c_write c - c_read c).
Proof.
  induction cs as [|d cs IH]; cbn [app]; intros W F R.
  - inversion W; subst. rewrite views_singleton, zlen_chunk_view by done. change (zlen [] * CHUNK_SIZE) with 0. lia.
  - inversion W; inversion F; inversion R; subst. rewrite views_cons, zlen_app, IH by done.
    rewrite zlen_chunk_view by done. rewrite zlen_cons. unfold full in *. lia.
Qed.

Lemma GetReadableSize_spec l :
  cl_wf l -> zlen (content l) < 2 ^ 63 -> GetReadableSize l = Some (zlen (content l)).
Proof.
  intros [W1 W3 W4 _] Hb. unfold GetReadableSize, content, GetChunkSize in *.
  destruct (buffers_ l) as [|c [|d cs]]; [done| |].
  { inversion W1; subst. rewrite views_singleton, zlen_chunk_view, readable_spec by done. done. }
  inversion W1 as [|? ? Hc W1']; subst. inversion W1' as [|? ? Hd W1'']; subst.
  rewrite !readable_spec by done. pose proof (zlen_chunk_view c Hc) as Vc.
  pose proof (zlen_chunk_view d Hd) as Vd. chunk_facts Hc. chunk_facts Hd.
  rewrite u32_id by lia. cbn [tail] in W3. inversion W3 as [|? ? Rd W3']; subst.
  destruct cs as [|e cs] using rev_ind.
  { rewrite views_cons, views_singleton, zlen_app, Vc, Vd. done. }
  clear IHcs. rewrite app_comm_cons, app_comm_cons, removelast_last in W4.
  inversion W4 as [|? ? Fc W4']; subst. inversion W4' as [|? ? Fd W4'']; subst.
  rewrite last_snoc. cbn [mbind option_bind]. rewrite !views_cons, !zlen_app in Hb |- *.
  rewrite zlen_views_full in Hb |- * by done.
  apply Forall_app in W1'' as [_ We]. rewrite Forall_singleton in We.
  rewrite readable_spec by done. rewrite !zlen_cons, zlen_app, zlen_cons, zlen_nil. 
  pose proof (zlen_nonneg cs). chunk_facts We.
  destruct (cs ++ [e]) eqn:Ecs; [by destruct cs|].
  f_equal. rewrite u64_id by lia. lia.
Qed.

(** *** Prepend *)

Lemma chunks_Prepend_spec l bs :
  cl_wf l -> 0 < zlen bs <= sizeof_size_t ->
  roomy l ->
  exists l', Prepend l bs = Some l' /\ cl_wf l' /\ content l' = bs ++ content l /\
    (tight l -> tight l') /\
    exists c cs, buffers_ l' = c :: cs /\ zlen bs <= c_write c - c_read c.
Proof.
  intros Hwf Hlen Hhead. unfold Prepend.
  assert (exists c cs free, (if IsEmpty l then AddChunk l else Some l) = Some (mkChunkList (c :: cs) free) /\
     Forall chunk_wf (c :: cs) /\ (tight l -> Forall (fun c => c_read c < c_write c) cs) /\
     Forall (fun c => c_read c = 0) cs /\ Forall full (removelast (c :: cs)) /\
     Forall (fun c => chunk_wf c /\ c_read c = 0 /\ c_write c = 0) free /\
     sizeof_size_t <= c_read c /\ views (c :: cs) = content l)
    as (c & cs & free & -> & W1 & W2 & W3 & W4 & W5 & Hc & Hv).
  { unfold IsEmpty, GetChunkSize. case_bool.
    - apply zlen_0_inv in Hb as E.
      destruct (AddChunk_spec l Hwf) as (c & free & -> & Hc & Er & Ew & Hfree & _).
      rewrite E in *. rewrite decide_True in Ew by done. exists c, [], free.
      unfold content. rewrite E, views_singleton, chunk_view_empty by done. cbn. split_and!; auto; lia.
    - destruct (buffers_ l) as [|c cs] eqn:E; [by rewrite zlen_nil in Hb|].
      destruct Hwf as [V1 V3 V4 V5]. rewrite E in *. exists c, cs, (free_buffers_ l).
      split; [by rewrite <- E; destruct l|]. unfold content. rewrite E.
      split_and!; try done; [|by eapply Hhead]. unfold tight. rewrite E. intros Ht. by inversion Ht. }
  cbn [mbind option_bind buffers_ free_buffers_]. inversion W1 as [|? ? Hwc W1']; subst.
  unfold chunk_Prepend. chunk_facts Hwc. unfold sizeof_size_t in *.
  rewrite !check_bind_true by lia. rewrite mem_write_ok by lia. cbn [mbind option_bind].
  eexists. split; [done|]. split; [|split; [|split; [|eexists _, _; split; [done|cbn; lia]]]].
  - split; cbn [buffers_ free_buffers_]; try done.
    + constructor; [|done]. split; cbn; rewrite ?zlen_overwrite by lia; unfold CHUNK_SIZE; (done || lia).
    + destruct cs; [constructor|]. inversion W4; subst. by constructor.
  - rewrite <- Hv. unfold content. cbn [buffers_]. rewrite !views_cons, app_assoc. f_equal.
    unfold chunk_view. cbn [c_read c_write c_buf].
    rewrite (slice_split _ _ (zlen bs)) by lia. f_equal.
    + apply slice_overwrite_eq; lia.
    + replace (c_read c - zlen bs + zlen bs) with (c_read c) by lia.
      rewrite slice_overwrite_after by lia. f_equal. lia.
  - intros Ht. constructor; [cbn; lia|auto].
Qed.

End chunk_list.

(** ** Writing *)

Lemma fill_iovecs_all cs : fill_iovecs (length cs) cs = Some (map chunk_view cs, []).
Proof. induction cs as [|c cs IH]; [done|]. cbn [length fill_iovecs]. by rewrite IH. Qed.

(** With at most [IOVEC_MAX] chunks there is one call, and it is given the
    content. *)
Lemma ChunkListWriteFd_spec sys_write sys_writev l :
  1 < GetChunkSize l <= IOVEC_MAX ->
  ChunkListWriteFd sys_write sys_writev l =
  match sys_writev (map chunk_view (buffers_ l)) with
  | WriteBytes n => Some (n, None)
  | WriteError e => Some (0, Some e)
  end.
Proof.
  unfold GetChunkSize, IOVEC_MAX, ChunkListWriteFd. intros Hn.
  destruct (buffers_ l) as [|c [|d cs]]; [by destruct Hn|rewrite zlen_cons, zlen_nil in Hn; lia|].
  assert (RoundUpDivideIn2 (zlen (c :: d :: cs)) IOVEC_MAX = 1) as ->.
  { unfold RoundUpDivideIn2, IOVEC_MAX. rewrite (proj2 (Z.eqb_neq _ _)) by lia.
    rewrite Z.div_small; lia. }
  change (Z.to_nat 1) with 1%nat. cbn [writev_loop]. rewrite fill_iovecs_all.
  cbn [mbind option_bind]. destruct (sys_writev _) as [e|n]; [done|].
  by rewrite Z.add_0_l.
Qed.

(** ** Properties *)

(** [Append] on a chunk list adds the bytes at the end, however they fall
    on the free space of the last chunk, on recycled chunks and on new ones;
    [GetReadableSize] is the number of bytes stored although it adds up only
    three chunks. *)
Theorem chunk_append_spec `{Heap} (l : ChunkList) (bs : list byte) :
  can_alloc chunk_node_bytes = true -> cl_wf l -> tight l -> bs <> [] ->
  zlen (content l) + zlen bs < 2 ^ 63 ->
  exists l', Append l bs = Some l' /\ (cl_wf l' /\ tight l') /\ content l' = content l ++ bs /\
    GetReadableSize l' = Some (zlen (content l) + zlen bs).
Proof.
  intros Hal Hwf Ht Hne Hb. destruct (chunks_Append_spec Hal l bs) as (l' & E & Hwf' & Hc & Ht' & _); [done|by right|].
  exists l'. split_and!; auto. rewrite GetReadableSize_spec; rewrite ?Hc, ?zlen_app; auto.
Qed.

Lemma chunk_append_spec_witness :
  exists l', @Append zero_heap empty_ChunkList (repeat x41 (Z.to_nat 10000)) = Some l' /\ (cl_wf l' /\ tight l') /\
    content l' = repeat x41 (Z.to_nat 10000) /\ GetReadableSize l' = Some 10000.
Proof.
  apply (@chunk_append_spec zero_heap empty_ChunkList (repeat x41 (Z.to_nat 10000))).
  - reflexivity.
  - repeat constructor.
  - constructor.
  - discriminate.
  - vm_compute. reflexivity.
Defined.

(** [AdvanceRead] drops the first [len] bytes (all of them when there are
    fewer) and moves the chunks it emptied to the free list: no chunk is lost
    or freed. *)
Theorem chunk_advance_spec (l : ChunkList) (len : Z) :
  cl_wf l -> tight l -> 0 <= len < 2 ^ 63 ->
  exists l', AdvanceRead l len = Some l' /\ (cl_wf l' /\ tight l') /\
    content l' = drop (Z.to_nat len) (content l) /\ total_chunks l' = total_chunks l /\
    (HasReadable l' = true <-> content l' <> []).
Proof.
  intros Hwf Hti Hlen. destruct (chunks_AdvanceRead_spec l len) as (l' & E & Hwf' & Hc & Ht & Ht'); [done|done|].
  specialize (Ht' Hti). exists l'. split_and!; try done.
  unfold HasReadable, IsEmpty, GetChunkSize, content. destruct Hwf' as [W1 _ _ _].
  unfold tight in Ht'.
  destruct (buffers_ l') as [|c cs]; [done|]. rewrite zlen_cons, views_cons. pose proof (zlen_nonneg cs).
  rewrite (proj2 (Z.eqb_neq _ _)) by lia. split; [|done]. intros _ E'.
  inversion W1 as [|? ? Hcw _]; subst. inversion Ht'; subst.
  apply app_nil in E' as [E' _]. pose proof (zlen_chunk_view c Hcw) as V. rewrite E', zlen_nil in V. lia.
Qed.

Lemma chunk_advance_spec_witness :
  let l := mkChunkList [mkChunk 8 4096 4096 (repeat x41 (Z.to_nat 4096)); mkChunk 0 5 4096 (repeat x42 (Z.to_nat 4096))] [] in
  exists l', AdvanceRead l 4090 = Some l' /\ (cl_wf l' /\ tight l') /\
    content l' = drop (Z.to_nat 4090) (content l) /\ total_chunks l' = total_chunks l /\
    (HasReadable l' = true <-> content l' <> []).
Proof.
  intros l. apply chunk_advance_spec; [| |lia].
  - split; repeat constructor; cbn; unfold CHUNK_SIZE; try lia; reflexivity.
  - repeat constructor.
Defined.

(** [Prepend32] puts the number in network byte order in front of the
    content, as long as the header room of the first chunk is still there: on
    an empty list, and on one from which nothing was consumed but bytes of the
    first chunk. *)
Theorem chunk_prepend32_spec `{Heap} (l : ChunkList) (i : Z) :
  can_alloc chunk_node_bytes = true -> cl_wf l -> 0 <= i < 2 ^ 32 ->
  roomy l ->
  exists l', Prepend32 l i = Some l' /\ cl_wf l' /\ content l' = be_bytes 4 i ++ content l /\
    GetReadBegin32 l' = Some i.
Proof.
  intros Hal Hwf Hi Hh. unfold Prepend32.
  rewrite check_bind_true by (apply Z.eqb_eq; by apply byte_order32_involutive).
  unfold ToNetworkByteOrder32. rewrite le_bytes_bswap.
  destruct (chunks_Prepend_spec Hal l (be_bytes 4 i)) as (l' & E & Hwf' & Hc & _ & c & cs & E' & Hle); [done| |done|].
  { rewrite zlen_be_bytes. unfold sizeof_size_t. lia. }
  exists l'. split_and!; try done. rewrite zlen_be_bytes in Hle.
  pose proof (cl_chunks _ Hwf') as W. rewrite E' in W. inversion W as [|? ? Hcw _]; subst.
  assert (slice (c_read c) 4 (c_buf c) = be_bytes 4 i) as Hsl.
  { unfold content in Hc. rewrite E', views_cons in Hc. apply (f_equal (take 4)) in Hc.
    pose proof (zlen_chunk_view c Hcw) as V. chunk_facts Hcw. unfold zlen in V.
    rewrite take_app_le in Hc by lia. rewrite take_app_le in Hc by (by rewrite length_be_bytes).
    rewrite (take_ge (be_bytes 4 i)) in Hc by (by rewrite length_be_bytes).
    rewrite <- Hc. unfold chunk_view. change 4%nat with (Z.to_nat 4). by rewrite take_slice by lia. }
  unfold GetReadBegin32. rewrite E'. cbn [head mbind option_bind]. rewrite readable_spec by done.
  rewrite check_bind_true by lia. chunk_facts Hcw. rewrite mem_read_ok by lia.
  cbn [mbind option_bind]. rewrite Hsl. unfold ToHostByteOrder32.
  rewrite bswap_le_value by apply length_be_bytes. rewrite be_value_bytes. f_equal. apply Z.mod_small. lia.
Qed.

Lemma chunk_prepend32_spec_witness :
  exists l', @Prepend32 zero_heap empty_ChunkList 258 = Some l' /\ cl_wf l' /\
    content l' = be_bytes 4 258 ++ [] /\ GetReadBegin32 l' = Some 258.
Proof.
  apply (@chunk_prepend32_spec zero_heap empty_ChunkList 258); [reflexivity|repeat constructor|lia|].
  intros c cs E. discriminate E.
Defined.

Lemma ChunkListWriteFd_sys (sys : list byte -> write_result) l n :
  1 <= GetChunkSize l <= IOVEC_MAX -> sys (content l) = WriteBytes n ->
  ChunkListWriteFd sys (fun v => sys (concat v)) l = Some (n, None).
Proof.
  intros Hn Hs. destruct (decide (GetChunkSize l = 1)) as [E|E].
  - unfold GetChunkSize, ChunkListWriteFd, content in *. destruct (buffers_ l) as [|c [|d cs]].
    + by rewrite zlen_nil in E.
    + rewrite views_singleton in Hs. by rewrite Hs.
    + pose proof (zlen_nonneg cs). rewrite !zlen_cons in E. lia.
  - rewrite ChunkListWriteFd_spec by lia. unfold content, views in Hs. by rewrite Hs.
Qed.

(** A write to a descriptor passes the whole content to the kernel, in
    order, in one call: with [write] for one chunk and with one gathering
    [writev] for two to 1024 of them; advancing by what was accepted leaves
    exactly the rest. *)
Theorem chunk_list_write_fd (sys : list byte -> write_result) (l : ChunkList) (n : Z) :
  cl_wf l -> 1 <= GetChunkSize l <= IOVEC_MAX ->
  sys (content l) = WriteBytes n -> 0 <= n < 2 ^ 63 ->
  ChunkListWriteFd sys (fun v => sys (concat v)) l = Some (n, None) /\
  exists l', AdvanceRead l n = Some l' /\ cl_wf l' /\ content l' = drop (Z.to_nat n) (content l).
Proof.
  intros Hwf Hn Hs Hr. split.
  - by apply ChunkListWriteFd_sys.
  - destruct (chunks_AdvanceRead_spec l n) as (l' & ? & ? & ? & _ & _); [done|done|]. by exists l'.
Qed.

Lemma chunk_list_write_fd_witness :
  let l := mkChunkList [mkChunk 8 4096 4096 (repeat x41 (Z.to_nat 4096));
                        mkChunk 0 5 4096 (repeat x42 (Z.to_nat 4096))] [] in
  let sys (bs : list byte) := WriteBytes (Z.min 100 (zlen bs)) in
  ChunkListWriteFd sys (fun v => sys (concat v)) l = Some (100, None) /\
  exists l', AdvanceRead l 100 = Some l' /\ cl_wf l' /\ content l' = drop (Z.to_nat 100) (content l).
Proof.
  intros l sys. apply chunk_list_write_fd; [|split; discriminate|vm_compute; reflexivity|lia].
  split; repeat constructor; cbn; unfold CHUNK_SIZE; try lia; reflexivity.
Defined.

(** ** Defects *)

(** A failed [writev] ends the loop; a list without chunks writes nothing. *)
Lemma ChunkListWriteFd_error sys l e :
  GetChunkSize l <> 1 -> sys (content l) = WriteError e ->
  ChunkListWriteFd sys (fun v => sys (concat v)) l = Some (0, match buffers_ l with [] => None | _ => Some e end).
Proof.
  unfold GetChunkSize, ChunkListWriteFd, content. intros Hn Hs. destruct (buffers_ l) as [|c [|d cs]]; [done|done|].
  remember (c :: d :: cs) as v eqn:Ev. assert (1 <= RoundUpDivideIn2 (zlen v) IOVEC_MAX) as Hr.
  { assert (0 < zlen v) by (subst v; rewrite zlen_cons; pose proof (zlen_nonneg (d :: cs)); lia).
    unfold RoundUpDivideIn2, IOVEC_MAX. rewrite (proj2 (Z.eqb_neq _ _)) by lia.
    pose proof (Z.div_pos (zlen v - 1) 1024 ltac:(lia) ltac:(lia)). lia. }
  destruct (Z.to_nat _) as [|k] eqn:E; [lia|]. cbn [writev_loop]. rewrite fill_iovecs_all.
  cbn [mbind option_bind]. change (concat (map chunk_view v)) with (views v). by rewrite Hs.
Qed.

(** The loop over batches hands every chunk to the first [writev]. With more
    than [IOVEC_MAX] chunks the call has more vectors than the system accepts,
    so nothing is ever written, whatever is sent. *)
Lemma write_fd_over_iov_max sys_write sys_writev l einval :
  (forall v, IOVEC_MAX < zlen v -> sys_writev v = WriteError einval) ->
  IOVEC_MAX < GetChunkSize l -> ChunkListWriteFd sys_write sys_writev l = Some (0, Some einval).
Proof.
  unfold GetChunkSize, ChunkListWriteFd. intros Hs Hn.
  destruct (buffers_ l) as [|c [|d cs]]; [done|done|].
  remember (c :: d :: cs) as v eqn:Ev. assert (1 <= RoundUpDivideIn2 (zlen v) IOVEC_MAX) as Hr.
  { unfold RoundUpDivideIn2, IOVEC_MAX in *. rewrite (proj2 (Z.eqb_neq _ _)) by lia.
    pose proof (Z.div_pos (zlen v - 1) 1024 ltac:(lia) ltac:(lia)). lia. }
  destruct (Z.to_nat _) as [|k] eqn:E; [lia|]. cbn [writev_loop]. rewrite fill_iovecs_all.
  cbn [mbind option_bind]. rewrite Hs; [done|]. unfold zlen in *. by rewrite length_map.
Qed.

(** A failed [write] of a single chunk is reported as [(size_t)-1] bytes with
    no error number. *)
Lemma write_fd_single_error sys_writev e c free :
  ChunkListWriteFd (fun _ => WriteError e) sys_writev (mkChunkList [c] free) = Some (2 ^ 64 - 1, None).
Proof. done. Qed.

(** [ReserveChunk] adds empty chunks at the end of the list that holds the
    content, so [GetReadableSize] counts a chunk of 4096 bytes for each of them
    but the last. *)
Lemma reserve_chunk_breaks_size :
  exists l, @ReserveChunk zero_heap empty_ChunkList 4 = Some l /\
    content l = [] /\ GetReadableSize l = Some 4096.
Proof. eexists. split; [vm_compute; reflexivity|]. by split. Qed.

(** [Clone] copies the indices of the chunks and none of their bytes, into nodes
    that do not hold a chunk. *)
Lemma clone_loses_content :
  exists l l', @Append zero_heap empty_ChunkList (str "abc") = Some l /\ @Clone zero_heap l = Some l' /\
    content l = str "abc" /\ content l' = [x00; x00; x00] /\
    map (fun c => (max_size_ c, zlen (c_buf c))) (buffers_ l') = [(4096, 552)].
Proof. eexists _, _. split; [vm_compute; reflexivity|]. split; [vm_compute; reflexivity|]. by split_and!. Qed.

(** [AppendChunkList] of a list with data follows a null pointer. *)
Lemma append_chunk_list_fails l rhs : HasReadable rhs = true -> AppendChunkList l rhs = None.
Proof. unfold HasReadable, IsEmpty, GetChunkSize, AppendChunkList. by destruct (buffers_ rhs). Qed.

(** A chunk of 4096 bytes takes 98880: the size in bytes is passed to an
    allocator that counts in nodes. *)
Lemma chunk_node_size : chunk_node_bytes = 98880.
Proof. done. Qed.
