(* ===== verification/Stripes.v ===== *)
(** * Hashing in stripes: the common part of XXH32 and XXH64 in
      third-party/xxHash/xxhash.h

    Both hashes absorb their input in stripes of fixed size into lanes, and their
    streaming states keep the bytes that do not fill a stripe in a buffer.  The
    size, the lanes and what a stripe does to them are parameters; the theorem is
    that feeding pieces to the buffer absorbs what the whole input would. *)

From Stdlib Require Import ZArith Lia.
From S2P Require Import Prelude.

(** The mixing step of both avalanches stays in the width of the word. *)
Lemma lxor_shift_range w x k : 0 < w -> 0 <= k -> 0 <= x < 2 ^ w -> 0 <= Z.lxor x (Z.shiftr x k) < 2 ^ w.
Proof.
  intros Hw Hk Hx. assert (0 <= Z.lxor x (Z.shiftr x k)) as Hn.
  { apply Z.lxor_nonneg. split; intros _; [apply Z.shiftr_nonneg; lia|lia]. }
  split; [done|]. destruct (Z.eqb_spec (Z.lxor x (Z.shiftr x k)) 0) as [->|N]; [lia|].
  apply Z.log2_lt_pow2; [lia|]. eapply Z.le_lt_trans; [apply Z.log2_lxor; [lia|apply Z.shiftr_nonneg; lia]|].
  assert (0 <= Z.shiftr x k <= x) as Hs.
  { rewrite Z.shiftr_div_pow2 by done. split; [apply Z.div_pos; lia|].
    apply Z.div_le_upper_bound; [lia|]. nia. }
  apply Z.max_lub_lt; (destruct (Z.eqb_spec x 0) as [->|]; [rewrite ?Z.shiftr_0_l; done|]).
  - apply Z.log2_lt_pow2; lia.
  - eapply Z.le_lt_trans; [apply (Z.log2_le_mono _ x); lia|]. apply Z.log2_lt_pow2; lia.
Qed.

Lemma zlen_drop_stripe (k : nat) (p : list byte) :
  Z.of_nat k <= zlen p -> zlen (drop k p) = zlen p - Z.of_nat k.
Proof. unfold zlen. rewrite length_drop. lia. Qed.

Lemma take_overwrite_fill {A} (m r q : list A) (n : Z) :
  take (Z.to_nat n) m = r -> zlen r = n -> n + zlen q <= zlen m ->
  take (Z.to_nat (n + zlen q)) (overwrite n q m) = r ++ q.
Proof.
  intros E L H. pose proof (zlen_nonneg q). pose proof (zlen_nonneg r). unfold overwrite. rewrite E.
  rewrite app_assoc, take_app_le by (unfold zlen in *; rewrite length_app; lia).
  apply take_ge. unfold zlen in *. rewrite length_app. lia.
Qed.

Section stripes.
Context {lanes : Type} (size : nat) (stripe : lanes -> list byte -> lanes).
Abbreviation zsize := (Z.of_nat size).

(** The [do ... while] loop over the input, entered with at least a stripe: it goes
    on while one is left. The fuel is the length of the input. *)
Fixpoint stripes (fuel : nat) (v : lanes) (p : list byte) : lanes * list byte :=
  match fuel with
  | O => (v, p)
  | S k =>
    let v := stripe v p in
    let p := drop size p in
    if zsize <=? zlen p then stripes k v p else (v, p)
  end.

(** The end of an update: whole stripes from the input, the rest to the buffer. *)
Definition feed_rest (v : lanes) (mem : list byte) (memsize : Z) (p : list byte) : option (lanes * list byte * Z) :=
  let '(v, p) := if zsize <=? zlen p then stripes (length p) v p else (v, p) in
  if 0 <? zlen p then
    mem ← mem_write mem 0 p;
    Some (v, mem, u32 (zlen p))
  else Some (v, mem, memsize).

(** The update of lanes and buffer: the input stays in the buffer, or completes it
    to a stripe first. *)
Definition feed (v : lanes) (mem : list byte) (memsize : Z) (input : list byte) : option (lanes * list byte * Z) :=
  let len := zlen input in
  if u64 (memsize + len) <? zsize then
    mem ← mem_write mem memsize input;
    Some (v, mem, u32 (memsize + u32 len))
  else if negb (memsize =? 0) then
    mem ← mem_write mem memsize (take (Z.to_nat (zsize - memsize)) input);
    feed_rest (stripe v mem) mem 0 (drop (Z.to_nat (zsize - memsize)) input)
  else feed_rest v mem memsize input.

(** ** Absorbing whole stripes *)

Context (Hsize : (0 < size)%nat) (Hsmall : zsize < 2 ^ 32).
Context (stripe_app : forall v p q, zsize <= zlen p -> stripe v (p ++ q) = stripe v p).

(** What the loops do: stripes while enough bytes are left. *)
Fixpoint absorb (fuel : nat) (v : lanes) (p : list byte) : lanes * list byte :=
  match fuel with
  | O => (v, p)
  | S k => if zsize <=? zlen p then absorb k (stripe v p) (drop size p) else (v, p)
  end.

Lemma absorb_short fuel v p : zlen p < zsize -> absorb fuel v p = (v, p).
Proof. intros. destruct fuel; cbn; [done|]. by rewrite (proj2 (Z.leb_gt _ _)). Qed.

Lemma absorb_step fuel v p :
  zsize <= zlen p -> absorb (S fuel) v p = absorb fuel (stripe v p) (drop size p).
Proof. intros. cbn. by rewrite (proj2 (Z.leb_le _ _)). Qed.

Lemma absorb_nil fuel v : absorb fuel v [] = (v, []).
Proof. apply absorb_short. change (zlen (@nil byte)) with 0. lia. Qed.

Lemma absorb_fuel f1 f2 v p :
  (length p <= f1)%nat -> (length p <= f2)%nat -> absorb f1 v p = absorb f2 v p.
Proof.
  revert f2 v p. induction f1 as [|k IH]; intros f2 v p H1 H2.
  { assert (p = []) as -> by (apply nil_length_inv; lia). by rewrite !absorb_nil. }
  destruct (Z.leb_spec zsize (zlen p)) as [L|L].
  - destruct f2 as [|f2]; [unfold zlen in L; lia|]. rewrite !absorb_step by done.
    unfold zlen in L. apply IH; rewrite length_drop; lia.
  - by rewrite !absorb_short.
Qed.

Lemma stripes_absorb fuel v p :
  zsize <= zlen p -> (length p <= fuel)%nat -> stripes fuel v p = absorb fuel v p.
Proof.
  revert v p. induction fuel as [|k IH]; intros v p L H; [unfold zlen in L; lia|].
  rewrite absorb_step by done. cbn [stripes]. case_bool.
  - unfold zlen in L. apply IH; [done|rewrite length_drop; lia].
  - by rewrite absorb_short.
Qed.

(** The loop guarded as in the code. *)
Lemma guarded_stripes v p :
  (if zsize <=? zlen p then stripes (length p) v p else (v, p)) = absorb (length p) v p.
Proof. case_bool; [by apply stripes_absorb|by rewrite absorb_short]. Qed.

(** Feeding the input in two parts. *)
Lemma absorb_app v p q :
  absorb (length (p ++ q)) v (p ++ q) =
  absorb (length (snd (absorb (length p) v p) ++ q)) (fst (absorb (length p) v p))
    (snd (absorb (length p) v p) ++ q).
Proof.
  remember (length p) as n eqn:E. assert (length p <= n)%nat as H by lia. clear E.
  revert v p H. induction n as [|n IH]; intros v p H.
  { assert (p = []) as -> by (apply nil_length_inv; lia). done. }
  destruct (Z.leb_spec zsize (zlen p)) as [L|L].
  - rewrite (absorb_step n) by done. rewrite <- IH by (unfold zlen in L; rewrite length_drop; lia).
    rewrite (absorb_fuel _ (S (length (p ++ q)))) by lia.
    rewrite absorb_step by (rewrite zlen_app; pose proof (zlen_nonneg q); lia).
    rewrite stripe_app by done. rewrite drop_app_le by (unfold zlen in L; lia).
    apply absorb_fuel; [rewrite !length_app, length_drop; lia|lia].
  - by rewrite (absorb_short _ v p).
Qed.

Lemma absorb_rest fuel v p :
  (length p <= fuel)%nat ->
  exists w r, absorb fuel v p = (w, r) /\ zlen r < zsize /\ zlen r = zlen p mod zsize /\
    (zlen p < zsize -> w = v /\ r = p).
Proof.
  revert v p. induction fuel as [|k IH]; intros v p H.
  { assert (p = []) as -> by (apply nil_length_inv; lia). exists v, []. rewrite absorb_nil.
    change (zlen (@nil byte)) with 0. rewrite Z.mod_0_l by lia. split_and!; try done. lia. }
  destruct (Z.leb_spec zsize (zlen p)) as [L|L].
  - rewrite absorb_step by done.
    destruct (IH (stripe v p) (drop size p)) as (w & r & E & H1 & H2 & _);
      [unfold zlen in L; rewrite length_drop; lia|].
    exists w, r. split_and!; try done; [|lia]. rewrite H2, zlen_drop_stripe by done.
    replace (zlen p) with (zlen p - zsize + 1 * zsize) at 2 by lia. by rewrite Z_mod_plus_full.
  - pose proof (zlen_nonneg p). rewrite absorb_short by done. exists v, p.
    split_and!; try done. by rewrite Z.mod_small by lia.
Qed.

(** ** The buffer *)

(** The lanes and the buffer after [bs], begun with the lanes [v0]. *)
Record buffered (v0 v : lanes) (mem : list byte) (memsize : Z) (bs : list byte) : Prop := {
  bf_mem : zlen mem = zsize;
  bf_lanes : v = fst (absorb (length bs) v0 bs);
  bf_size : memsize = zlen (snd (absorb (length bs) v0 bs));
  bf_tail : take (Z.to_nat memsize) mem = snd (absorb (length bs) v0 bs)
}.

Lemma buffered_nil v0 mem : zlen mem = zsize -> buffered v0 v0 mem 0 [].
Proof. by split. Qed.

Lemma feed_rest_ok v0 v mem p bs :
  zlen mem = zsize -> absorb (length bs) v0 bs = absorb (length p) v p ->
  exists v' mem' n', feed_rest v mem 0 p = Some (v', mem', n') /\ buffered v0 v' mem' n' bs.
Proof.
  intros Hm E. unfold feed_rest. rewrite guarded_stripes, <- E.
  destruct (absorb_rest (length bs) v0 bs) as (w & r & E' & L & _); [lia|].
  rewrite E'. pose proof (zlen_nonneg r). case_bool.
  - rewrite mem_write_ok by lia. cbn [mbind option_bind]. eexists _, _, _. split; [done|].
    split; rewrite ?E'; cbn [fst snd]; try done.
    + rewrite zlen_overwrite; lia.
    + rewrite u32_id; lia.
    + rewrite u32_id by lia. apply (take_overwrite_fill mem [] r 0); [done|done|lia].
  - assert (r = []) as -> by (apply zlen_0_inv; lia). eexists _, _, _. split; [done|].
    split; rewrite ?E'; done.
Qed.

Lemma feed_ok v0 v mem n bs input :
  zlen input < 2 ^ 63 -> buffered v0 v mem n bs ->
  exists v' mem' n', feed v mem n input = Some (v', mem', n') /\ buffered v0 v' mem' n' (bs ++ input).
Proof.
  intros Hi [Hm Hv Hs Htl]. pose proof (zlen_nonneg input). unfold feed.
  pose proof (absorb_app v0 bs input) as Ea.
  destruct (absorb_rest (length bs) v0 bs) as (w & r & E' & L & _); [lia|].
  rewrite E' in *. cbn [fst snd] in *. pose proof (zlen_nonneg r). rewrite u64_id by lia. rewrite Hs in *.
  case_bool; [|case_bool].
  - rewrite mem_write_ok by lia. cbn [mbind option_bind]. eexists _, _, _. split; [done|].
    rewrite (absorb_short _ w) in Ea by (rewrite zlen_app; lia).
    split; rewrite ?Ea; cbn [fst snd]; try done.
    + rewrite zlen_overwrite; lia.
    + rewrite (u32_id (zlen input)), u32_id by lia. by rewrite zlen_app.
    + rewrite (u32_id (zlen input)), u32_id by lia. apply take_overwrite_fill; [done|done|lia].
  - set (k := Z.to_nat (zsize - zlen r)). assert (zlen (take k input) = zsize - zlen r) as Ek
      by (unfold k; rewrite zlen_take; lia).
    rewrite mem_write_ok by lia. cbn [mbind option_bind]. set (mem' := overwrite _ _ _).
    assert (mem' = r ++ take k input) as Em.
    { pose proof (take_overwrite_fill mem r (take k input) (zlen r) Htl eq_refl ltac:(lia)) as E.
      rewrite take_ge in E; [done|]. fold mem'.
      assert (zlen mem' = zsize) by (unfold mem'; rewrite zlen_overwrite; lia). unfold zlen in *. lia. }
    apply feed_rest_ok; [rewrite Em, zlen_app; lia|]. rewrite Ea, Hv.
    rewrite (absorb_fuel _ (S (length (r ++ input)))) by lia.
    rewrite absorb_step by (rewrite zlen_app; lia). rewrite Em.
    replace (r ++ input) with ((r ++ take k input) ++ drop k input) at 2 3
      by (by rewrite <- app_assoc, take_drop).
    assert (length (r ++ take k input) = size) as E16
      by (rewrite length_app; unfold zlen in *; lia).
    rewrite stripe_app by (unfold zlen; lia). rewrite drop_app_length' by done.
    apply absorb_fuel; [|lia]. rewrite length_app, length_drop. lia.
  - assert (r = []) as -> by (apply zlen_0_inv; lia). cbn [app] in Ea. rewrite Hv.
    change (zlen (@nil byte)) with 0. by apply feed_rest_ok.
Qed.
End stripes.
