(* ===== verification/XXHash.v ===== *)
(** * XXH32: third-party/xxHash/xxhash.h

    The checksum of the protobuf codecs.  The sender feeds the chunks of its
    output list to the streaming interface, the receiver hashes the bytes of its
    input buffer with the one-shot function; that both agree is what makes a
    frame acceptable.  Words are of 32 bits, the host is little-endian, reads are
    checked against the block they go to. *)

From Stdlib Require Import ZArith Lia.
From S2P Require Import Prelude Endian Stripes.

Definition XXH_PRIME32_1 : Z := 0x9E3779B1.
Definition XXH_PRIME32_2 : Z := 0x85EBCA77.
Definition XXH_PRIME32_3 : Z := 0xC2B2AE3D.
Definition XXH_PRIME32_4 : Z := 0x27D4EB2F.
Definition XXH_PRIME32_5 : Z := 0x165667B1.

Definition XXH_rotl32 (x r : Z) : Z := Z.lor (u32 (Z.shiftl x r)) (Z.shiftr x (32 - r)).

Definition XXH_readLE32 (ptr : list byte) : Z := le_value (slice 0 4 ptr).

Definition XXH32_round (acc input : Z) : Z :=
  let acc := u32 (acc + u32 (input * XXH_PRIME32_2)) in
  let acc := XXH_rotl32 acc 13 in
  u32 (acc * XXH_PRIME32_1).

Definition XXH32_avalanche (h32 : Z) : Z :=
  let h32 := Z.lxor h32 (Z.shiftr h32 15) in
  let h32 := u32 (h32 * XXH_PRIME32_2) in
  let h32 := Z.lxor h32 (Z.shiftr h32 13) in
  let h32 := u32 (h32 * XXH_PRIME32_3) in
  Z.lxor h32 (Z.shiftr h32 16).

(** ** The tail of at most 15 bytes *)

(** The two macros: the hash and the advanced pointer. *)
Definition XXH_PROCESS1 (h32 : Z) (ptr : list byte) : option (Z * list byte) :=
  bs ← mem_read ptr 0 1;
  let h32 := u32 (h32 + u32 (le_value bs * XXH_PRIME32_5)) in
  Some (u32 (XXH_rotl32 h32 11 * XXH_PRIME32_1), drop 1 ptr).

Definition XXH_PROCESS4 (h32 : Z) (ptr : list byte) : option (Z * list byte) :=
  bs ← mem_read ptr 0 4;
  let h32 := u32 (h32 + u32 (XXH_readLE32 bs * XXH_PRIME32_3)) in
  Some (u32 (XXH_rotl32 h32 17 * XXH_PRIME32_4), drop 4 ptr).

(** [while (len >= 4)] *)
Fixpoint finalize4 (fuel : nat) (h32 : Z) (ptr : list byte) (len : Z)
  : option (Z * list byte * Z) :=
  if 4 <=? len then
    match fuel with
    | O => None
    | S k => '(h32, ptr) ← XXH_PROCESS4 h32 ptr; finalize4 k h32 ptr (len - 4)
    end
  else Some (h32, ptr, len).

(** [while (len > 0)] *)
Fixpoint finalize1 (fuel : nat) (h32 : Z) (ptr : list byte) (len : Z) : option Z :=
  if 0 <? len then
    match fuel with
    | O => None
    | S k => '(h32, ptr) ← XXH_PROCESS1 h32 ptr; finalize1 k h32 ptr (len - 1)
    end
  else Some h32.

(** The compact version; at most three and three passes. *)
Definition XXH32_finalize (h32 : Z) (ptr : list byte) (len : Z) : option Z :=
  let len := Z.land len 15 in
  '(h32, ptr, len) ← finalize4 3 h32 ptr len;
  h32 ← finalize1 3 h32 ptr len;
  Some (XXH32_avalanche h32).

(** The version with a jump table, compiled when [XXH32_ENDJMP] is set: every
    case is the sequence of steps it falls through. *)
Fixpoint process_steps (steps : list bool) (h32 : Z) (ptr : list byte) : option Z :=
  match steps with
  | [] => Some (XXH32_avalanche h32)
  | four :: steps =>
    '(h32, ptr) ← (if (four : bool) then XXH_PROCESS4 h32 ptr else XXH_PROCESS1 h32 ptr);
    process_steps steps h32 ptr
  end.

Definition XXH32_finalize_jump (h32 : Z) (ptr : list byte) (len : Z) : option Z :=
  let P4 := true in let P1 := false in
  match Z.land len 15 with
  | 12 => process_steps [P4; P4; P4] h32 ptr
  | 8 => process_steps [P4; P4] h32 ptr
  | 4 => process_steps [P4] h32 ptr
  | 13 => process_steps [P4; P4; P4; P1] h32 ptr
  | 9 => process_steps [P4; P4; P1] h32 ptr
  | 5 => process_steps [P4; P1] h32 ptr
  | 14 => process_steps [P4; P4; P4; P1; P1] h32 ptr
  | 10 => process_steps [P4; P4; P1; P1] h32 ptr
  | 6 => process_steps [P4; P1; P1] h32 ptr
  | 15 => process_steps [P4; P4; P4; P1; P1; P1] h32 ptr
  | 11 => process_steps [P4; P4; P1; P1; P1] h32 ptr
  | 7 => process_steps [P4; P1; P1; P1] h32 ptr
  | 3 => process_steps [P1; P1; P1] h32 ptr
  | 2 => process_steps [P1; P1] h32 ptr
  | 1 => process_steps [P1] h32 ptr
  | 0 => process_steps [] h32 ptr
  | _ => None
  end.

(** ** Lanes *)

Record lanes := mkLanes { v1 : Z; v2 : Z; v3 : Z; v4 : Z }.

Definition init_lanes (seed : Z) : lanes :=
  mkLanes (u32 (seed + XXH_PRIME32_1 + XXH_PRIME32_2)) (u32 (seed + XXH_PRIME32_2))
    (u32 (seed + 0)) (u32 (seed - XXH_PRIME32_1)).

(** One stripe of 16 bytes. *)
Definition XXH32_stripe (v : lanes) (p : list byte) : lanes :=
  mkLanes (XXH32_round (v1 v) (XXH_readLE32 p)) (XXH32_round (v2 v) (XXH_readLE32 (drop 4 p)))
    (XXH32_round (v3 v) (XXH_readLE32 (drop 8 p))) (XXH32_round (v4 v) (XXH_readLE32 (drop 12 p))).

(** The [do ... while] loop over the input, entered with at least 16 bytes. *)
Definition XXH32_stripes : nat -> lanes -> list byte -> lanes * list byte := stripes 16 XXH32_stripe.

Definition combine_lanes (v : lanes) : Z :=
  u32 (XXH_rotl32 (v1 v) 1 + XXH_rotl32 (v2 v) 7 + XXH_rotl32 (v3 v) 12 + XXH_rotl32 (v4 v) 18).

(** ** One shot *)

Definition XXH32_endian_align (input : list byte) (seed : Z) : option Z :=
  let len := zlen input in
  let '(h32, rest) :=
    if 16 <=? len then
      let '(v, rest) := XXH32_stripes (length input) (init_lanes seed) input in
      (combine_lanes v, rest)
    else (u32 (seed + XXH_PRIME32_5), input) in
  XXH32_finalize (u32 (h32 + u32 len)) rest (Z.land len 15).

Definition XXH32 (input : list byte) (seed : Z) : option Z := XXH32_endian_align input seed.

(** ** Streaming *)

Record XXH32_state := mkState {
  total_len_32 : Z;
  large_len : Z;
  st_v : lanes;
  mem32 : list byte;
  memsize : Z
}.

Definition XXH32_reset (seed : Z) : XXH32_state :=
  mkState 0 0 (init_lanes seed) (repeat x00 16) 0.

Definition XXH32_update (state : XXH32_state) (input : list byte) : option XXH32_state :=
  let len := zlen input in
  let total := u32 (total_len_32 state + u32 len) in
  let large := Z.lor (large_len state) (Z.b2z ((16 <=? len) || (16 <=? total))) in
  '(v, mem, size) ← feed 16 XXH32_stripe (st_v state) (mem32 state) (memsize state) input;
  Some (mkState total large v mem size).

Definition XXH32_digest (state : XXH32_state) : option Z :=
  let h32 := if negb (large_len state =? 0) then combine_lanes (st_v state)
             else u32 (v3 (st_v state) + XXH_PRIME32_5) in
  XXH32_finalize (u32 (h32 + total_len_32 state)) (mem32 state) (memsize state).

(** The calls a user of the streaming interface makes for a list of pieces. *)
Fixpoint XXH32_updates (state : XXH32_state) (pieces : list (list byte)) : option XXH32_state :=
  match pieces with
  | [] => Some state
  | p :: ps => state ← XXH32_update state p; XXH32_updates state ps
  end.

Definition XXH32_stream (pieces : list (list byte)) (seed : Z) : option Z :=
  state ← XXH32_updates (XXH32_reset seed) pieces; XXH32_digest state.

(** Published test values. *)
Example XXH32_vectors :
  XXH32 [] 0 = Some 0x02CC5D05 /\ XXH32 (str "a") 0 = Some 0x550D7456 /\
  XXH32 (str "abc") 0 = Some 0x32D153FF /\
  XXH32 (str "Nobody inspects the spammish repetition") 0 = Some 0xE2293B2F.
Proof. vm_compute. auto. Qed.

(** ** Absorbing whole stripes *)

Abbreviation absorb32 := (absorb 16 XXH32_stripe).

Lemma stripe_app v p q : 16 <= zlen p -> XXH32_stripe v (p ++ q) = XXH32_stripe v p.
Proof.
  intros L. unfold XXH32_stripe, XXH_readLE32, zlen in *.
  rewrite !drop_app_le by lia.
  rewrite !slice_app_l; try lia; unfold zlen; rewrite ?length_drop; try lia. done.
Qed.

Lemma absorb32_rest seed p :
  exists w r, absorb32 (length p) (init_lanes seed) p = (w, r) /\ zlen r < 16 /\ zlen r = zlen p mod 16 /\
    (zlen p < 16 -> w = init_lanes seed /\ r = p).
Proof. apply absorb_rest; lia. Qed.

(** ** The tail *)

Lemma land15 n : Z.land n 15 = n mod 16.
Proof. change 15 with (Z.ones 4). by rewrite Z.land_ones. Qed.

(** The result depends on the first [len] bytes only, and they are there. *)
Lemma finalize4_prefix fuel h p q len :
  zlen p = len ->
  finalize4 fuel h (p ++ q) len =
  '(h', r, n) ← finalize4 fuel h p len; Some (h', r ++ q, n).
Proof.
  revert h p len. induction fuel as [|k IH]; intros h p len E; cbn [finalize4]; case_bool; try done.
  pose proof (zlen_nonneg q). unfold XXH_PROCESS4. rewrite !mem_read_ok by (rewrite ?zlen_app; lia).
  cbn [mbind option_bind]. rewrite slice_app_l by lia.
  rewrite drop_app_le by (unfold zlen in E; lia). apply IH.
  unfold zlen in *. rewrite length_drop. lia.
Qed.

Lemma finalize1_prefix fuel h p q len :
  zlen p = len -> finalize1 fuel h (p ++ q) len = finalize1 fuel h p len.
Proof.
  revert h p len. induction fuel as [|k IH]; intros h p len E; cbn [finalize1]; case_bool; try done.
  pose proof (zlen_nonneg q). unfold XXH_PROCESS1. rewrite !mem_read_ok by (rewrite ?zlen_app; lia).
  cbn [mbind option_bind]. rewrite slice_app_l by lia.
  rewrite drop_app_le by (unfold zlen in E; lia). apply IH.
  unfold zlen in *. rewrite length_drop. lia.
Qed.

Lemma finalize4_ok fuel h p :
  zlen p < 4 * Z.of_nat fuel + 4 ->
  exists h' r, finalize4 fuel h p (zlen p) = Some (h', r, zlen r) /\ zlen r < 4.
Proof.
  revert h p. induction fuel as [|k IH]; intros h p L; cbn [finalize4]; case_bool; try lia; eauto.
  unfold XXH_PROCESS4. rewrite mem_read_ok by lia. cbn [mbind option_bind].
  replace (zlen p - 4) with (zlen (drop 4 p)) by (unfold zlen in *; rewrite length_drop; lia).
  apply IH. unfold zlen in *. rewrite length_drop. lia.
Qed.

Lemma finalize1_ok fuel h p :
  zlen p <= Z.of_nat fuel -> exists h', finalize1 fuel h p (zlen p) = Some h'.
Proof.
  revert h p. induction fuel as [|k IH]; intros h p L; cbn [finalize1]; case_bool; try lia; eauto.
  unfold XXH_PROCESS1. rewrite mem_read_ok by lia. cbn [mbind option_bind].
  replace (zlen p - 1) with (zlen (drop 1 p)) by (unfold zlen in *; rewrite length_drop; lia).
  apply IH. unfold zlen in *. rewrite length_drop. lia.
Qed.

Lemma finalize_prefix h p q :
  zlen p < 16 -> XXH32_finalize h (p ++ q) (zlen p) = XXH32_finalize h p (zlen p).
Proof.
  intros L. pose proof (zlen_nonneg p). unfold XXH32_finalize. rewrite land15, Z.mod_small by lia.
  rewrite finalize4_prefix by done.
  destruct (finalize4_ok 3 h p) as (h' & r & -> & Hr); [lia|]. cbn [mbind option_bind].
  by rewrite finalize1_prefix.
Qed.

Lemma finalize_ok h p : zlen p < 16 -> exists h', XXH32_finalize h p (zlen p) = Some h'.
Proof.
  intros L. pose proof (zlen_nonneg p). unfold XXH32_finalize. rewrite land15, Z.mod_small by lia.
  destruct (finalize4_ok 3 h p) as (h1 & r & -> & Hr); [lia|]. cbn [mbind option_bind].
  destruct (finalize1_ok 3 h1 r) as (h2 & ->); [lia|]. by eexists.
Qed.

(** ** The one-shot function, on the absorbed input *)

Definition pre_hash (v : lanes) (seed : Z) (large : bool) (len : Z) : Z :=
  u32 ((if large then combine_lanes v else u32 (seed + XXH_PRIME32_5)) + u32 len).

Lemma XXH32_absorb input seed :
  XXH32 input seed =
  let '(w, r) := absorb32 (length input) (init_lanes seed) input in
  XXH32_finalize (pre_hash w seed (16 <=? zlen input) (zlen input)) r (zlen r).
Proof.
  unfold XXH32, XXH32_endian_align, pre_hash.
  destruct (absorb32_rest seed input) as (w & r & E & L & M & S).
  rewrite land15, <- M. rewrite E. case_bool.
  - unfold XXH32_stripes. rewrite (stripes_absorb 16) by (cbn; lia). by rewrite E.
  - by destruct (S Hb) as [-> ->].
Qed.

Lemma XXH32_total input seed : exists h, XXH32 input seed = Some h.
Proof.
  rewrite XXH32_absorb.
  destruct (absorb32_rest seed input) as (w & r & -> & L & _).
  by apply finalize_ok.
Qed.

Lemma avalanche_range h : 0 <= h < 2 ^ 32 -> 0 <= XXH32_avalanche h < 2 ^ 32.
Proof.
  intros. unfold XXH32_avalanche.
  repeat (apply lxor_shift_range; [lia|lia|]; try apply wrap_range; try lia).
Qed.

Lemma finalize1_range fuel h p len r :
  0 <= h < 2 ^ 32 -> finalize1 fuel h p len = Some r -> 0 <= r < 2 ^ 32.
Proof.
  revert h p len. induction fuel as [|k IH]; intros h p len Hh; cbn [finalize1]; case_bool; try done;
    try (intros [= <-]; done).
  unfold XXH_PROCESS1. destruct (mem_read p 0 1); [|done]. cbn [mbind option_bind]. apply IH.
  apply wrap_range. lia.
Qed.

Lemma finalize4_range fuel h p len r q n :
  0 <= h < 2 ^ 32 -> finalize4 fuel h p len = Some (r, q, n) -> 0 <= r < 2 ^ 32.
Proof.
  revert h p len. induction fuel as [|k IH]; intros h p len Hh; cbn [finalize4]; case_bool; try done;
    try (intros [= <- _ _]; done).
  unfold XXH_PROCESS4. destruct (mem_read p 0 4); [|done]. cbn [mbind option_bind]. apply IH.
  apply wrap_range. lia.
Qed.

Lemma XXH32_range input seed h : XXH32 input seed = Some h -> 0 <= h < 2 ^ 32.
Proof.
  rewrite XXH32_absorb. destruct (absorb _ _ _) as [w r]. unfold XXH32_finalize.
  destruct (finalize4 _ _ _ _) as [[[h1 q] n]|] eqn:E1; [|done]. cbn [mbind option_bind].
  destruct (finalize1 _ _ _ _) as [h2|] eqn:E2; [|done]. cbn [mbind option_bind]. intros [= <-].
  apply avalanche_range. eapply finalize1_range; [|exact E2]. eapply finalize4_range; [|exact E1].
  apply wrap_range. lia.
Qed.

(** ** The streaming state *)

Record state_ok (seed : Z) (st : XXH32_state) (bs : list byte) : Prop := {
  ok_total : total_len_32 st = u32 (zlen bs);
  ok_large : large_len st <> 0 <-> 16 <= zlen bs;
  ok_large_nonneg : 0 <= large_len st;
  ok_buffer : buffered 16 XXH32_stripe (init_lanes seed) (st_v st) (mem32 st) (memsize st) bs
}.

Lemma reset_ok seed : state_ok seed (XXH32_reset seed) [].
Proof. by split. Qed.

Lemma lor_b2z_nonzero a (b : bool) : 0 <= a -> Z.lor a (Z.b2z b) <> 0 <-> a <> 0 \/ b = true.
Proof.
  intros Ha. rewrite Z.lor_eq_0_iff. destruct b; cbn.
  - split; [auto|]. intros _ [_ E]. done.
  - split; [|intros [?|?]; [tauto|done]]. intros N. left. intros E. by apply N.
Qed.

(** The count of bytes and the flag that there were 16. *)
Lemma update_counters total large (bs input : list byte) :
  total = u32 (zlen bs) -> (large <> 0 <-> 16 <= zlen bs) -> 0 <= large ->
  let total' := u32 (total + u32 (zlen input)) in
  let large' := Z.lor large (Z.b2z ((16 <=? zlen input) || (16 <=? total'))) in
  total' = u32 (zlen (bs ++ input)) /\ (large' <> 0 <-> 16 <= zlen (bs ++ input)) /\ 0 <= large'.
Proof.
  intros -> Hl Hn. cbv zeta. pose proof (zlen_nonneg bs). pose proof (zlen_nonneg input).
  rewrite zlen_app. assert (u32 (u32 (zlen bs) + u32 (zlen input)) = u32 (zlen bs + zlen input)) as ->.
  { unfold wrap. by rewrite <- Zplus_mod. }
  split; [done|]. split; [|apply Z.lor_nonneg; split; [done|destruct (_ || _); cbn; lia]].
  rewrite lor_b2z_nonzero, Hl by done. rewrite orb_true_iff, !Z.leb_le.
  split; [|destruct (Z.leb_spec 16 (zlen bs)); [auto|]; destruct (Z.leb_spec 16 (zlen input)); [auto|]].
  - intros [?|[?|L]]; try lia. unfold wrap in L. pose proof (Z.mod_le (zlen bs + zlen input) (2 ^ 32)). lia.
  - intros. right. right. rewrite u32_id by lia. done.
Qed.

Lemma update_ok seed st bs input :
  zlen input < 2 ^ 63 -> state_ok seed st bs ->
  exists st', XXH32_update st input = Some st' /\ state_ok seed st' (bs ++ input).
Proof.
  intros Hi [Ht Hl Hn Hb]. destruct (update_counters _ _ bs input Ht Hl Hn) as (Ct & Cl & Cn).
  destruct (feed_ok 16 XXH32_stripe ltac:(lia) ltac:(lia) stripe_app _ _ _ _ _ _ Hi Hb) as (v & mem & n & E & Hb').
  unfold XXH32_update. rewrite E. eexists. split; [done|]. by split.
Qed.

Lemma updates_ok seed st bs pieces :
  Forall (fun p => zlen p < 2 ^ 63) pieces -> state_ok seed st bs ->
  exists st', XXH32_updates st pieces = Some st' /\ state_ok seed st' (bs ++ concat pieces).
Proof.
  revert st bs. induction pieces as [|p ps IH]; intros st bs Hp Hs.
  { exists st. cbn. by rewrite app_nil_r. }
  inversion Hp; subst. cbn [XXH32_updates concat].
  destruct (update_ok seed st bs p) as (st1 & -> & Hs1); [done|done|]. cbn [mbind option_bind].
  rewrite app_assoc. by apply IH.
Qed.

Lemma digest_ok seed st bs : state_ok seed st bs -> XXH32_digest st = XXH32 bs seed.
Proof.
  intros [Ht Hl Hn [Hm Hv Hs Htl]]. rewrite XXH32_absorb. unfold XXH32_digest, pre_hash.
  destruct (absorb32_rest seed bs) as (w & r & E' & L & _ & S).
  rewrite E' in *. cbn [fst snd] in *. rewrite Hs, Ht, Hv.
  rewrite <- (take_drop (Z.to_nat (memsize st)) (mem32 st)), Htl, finalize_prefix by done.
  match goal with |- XXH32_finalize (u32 (?a + ?t)) _ _ = XXH32_finalize (u32 (?b + _)) _ _ =>
    enough (a = b) as -> by done end.
  destruct (Z.leb_spec 16 (zlen bs)) as [L'|L'].
  - rewrite (proj2 (Z.eqb_neq _ _)) by (by apply Hl). done.
  - destruct (Z.eqb_spec (large_len st) 0) as [_|N]; [|apply Hl in N; lia]. cbn [negb].
    destruct (S L') as [-> _]. cbn [v3 init_lanes]. unfold wrap. rewrite Z.add_0_r.
    by rewrite Zplus_mod_idemp_l.
Qed.

(** ** Properties *)

(** C32 The streaming interface gives the one-shot hash of the concatenation,
    however the input is cut into pieces, and neither reads outside its input
    or its 16-byte buffer. *)
Theorem stream_hash_eq (pieces : list (list byte)) (seed : Z) :
  Forall (fun p => zlen p < 2 ^ 63) pieces ->
  exists h, XXH32_stream pieces seed = Some h /\ XXH32 (concat pieces) seed = Some h.
Proof.
  intros Hp. destruct (XXH32_total (concat pieces) seed) as (h & Eh). exists h. split; [|done].
  unfold XXH32_stream.
  destruct (updates_ok seed (XXH32_reset seed) [] pieces) as (st & -> & Hs); [done|apply reset_ok|].
  cbn [mbind option_bind]. by rewrite (digest_ok _ _ _ Hs).
Qed.

Lemma stream_hash_eq_witness :
  exists h, XXH32_stream [str "Nobody"; []; str " inspects the spammish"; str " repetition"] 0 = Some h /\
    XXH32 (str "Nobody inspects the spammish repetition") 0 = Some h.
Proof.
  apply (stream_hash_eq [str "Nobody"; []; str " inspects the spammish"; str " repetition"] 0).
  repeat constructor.
Defined.

(** The two ways to process the last bytes, the loops and the jump table,
    give the same hash. *)
Theorem finalize_jump_eq (h32 : Z) (ptr : list byte) (len : Z) :
  XXH32_finalize_jump h32 ptr len = XXH32_finalize h32 ptr len.
Proof.
  unfold XXH32_finalize_jump, XXH32_finalize. rewrite land15.
  pose proof (Z.mod_pos_bound len 16 ltac:(lia)). set (n := len mod 16) in *. clearbody n.
  rewrite <- (Z2Nat.id n) by lia. assert (Z.to_nat n < 16)%nat as Hk by lia. generalize dependent (Z.to_nat n). intros k Hk.
  do 16 (try destruct k as [|k]); [..|exfalso; lia]; clear Hk; cbv -[XXH_PROCESS1 XXH_PROCESS4 XXH32_avalanche]; repeat (
    match goal with
    | |- context [XXH_PROCESS4 ?h ?p] => destruct (XXH_PROCESS4 h p) as [[]|]
    | |- context [XXH_PROCESS1 ?h ?p] => destruct (XXH_PROCESS1 h p) as [[]|]
    end); reflexivity.
Qed.
