(* ===== verification/XXH64.v ===== *)
(** * XXH64: third-party/xxHash/xxhash.h

    The 64-bit hash of the same library, on stripes of 32 bytes: one-shot and
    streaming versions, the finalisation and the canonical form.  As for XXH32 the
    host is little-endian and reads are checked against the block they go to. *)

From Stdlib Require Import ZArith Lia.
From S2P Require Import Prelude Endian Stripes XXHash.

Definition XXH_PRIME64_1 : Z := 0x9E3779B185EBCA87.
Definition XXH_PRIME64_2 : Z := 0xC2B2AE3D27D4EB4F.
Definition XXH_PRIME64_3 : Z := 0x165667B19E3779F9.
Definition XXH_PRIME64_4 : Z := 0x85EBCA77C2B2AE63.
Definition XXH_PRIME64_5 : Z := 0x27D4EB2F165667C5.

Definition XXH_rotl64 (x r : Z) : Z := Z.lor (u64 (Z.shiftl x r)) (Z.shiftr x (64 - r)).

Definition XXH_readLE64 (ptr : list byte) : Z := le_value (slice 0 8 ptr).

Definition XXH64_round (acc input : Z) : Z :=
  let acc := u64 (acc + u64 (input * XXH_PRIME64_2)) in
  let acc := XXH_rotl64 acc 31 in
  u64 (acc * XXH_PRIME64_1).

Definition XXH64_mergeRound (acc val : Z) : Z :=
  let val := XXH64_round 0 val in
  let acc := Z.lxor acc val in
  u64 (u64 (acc * XXH_PRIME64_1) + XXH_PRIME64_4).

Definition XXH64_avalanche (h64 : Z) : Z :=
  let h64 := Z.lxor h64 (Z.shiftr h64 33) in
  let h64 := u64 (h64 * XXH_PRIME64_2) in
  let h64 := Z.lxor h64 (Z.shiftr h64 29) in
  let h64 := u64 (h64 * XXH_PRIME64_3) in
  Z.lxor h64 (Z.shiftr h64 32).

(** ** The tail of at most 31 bytes *)

(** The bodies of the three steps: the hash and the advanced pointer. *)
Definition process8 (h64 : Z) (ptr : list byte) : option (Z * list byte) :=
  bs ← mem_read ptr 0 8;
  let k1 := XXH64_round 0 (XXH_readLE64 bs) in
  let h64 := Z.lxor h64 k1 in
  Some (u64 (u64 (XXH_rotl64 h64 27 * XXH_PRIME64_1) + XXH_PRIME64_4), drop 8 ptr).

Definition process4 (h64 : Z) (ptr : list byte) : option (Z * list byte) :=
  bs ← mem_read ptr 0 4;
  let h64 := Z.lxor h64 (u64 (XXH_readLE32 bs * XXH_PRIME64_1)) in
  Some (u64 (u64 (XXH_rotl64 h64 23 * XXH_PRIME64_2) + XXH_PRIME64_3), drop 4 ptr).

Definition process1 (h64 : Z) (ptr : list byte) : option (Z * list byte) :=
  bs ← mem_read ptr 0 1;
  let h64 := Z.lxor h64 (u64 (le_value bs * XXH_PRIME64_5)) in
  Some (u64 (XXH_rotl64 h64 11 * XXH_PRIME64_1), drop 1 ptr).

(** [while (len >= k)], a pass taking [k] bytes, the fuel the number of passes. *)
Fixpoint while_left (body : Z -> list byte -> option (Z * list byte)) (k : Z) (fuel : nat)
    (h64 : Z) (ptr : list byte) (len : Z) : option (Z * list byte * Z) :=
  if k <=? len then
    match fuel with
    | O => None
    | S fuel => '(h64, ptr) ← body h64 ptr; while_left body k fuel h64 ptr (len - k)
    end
  else Some (h64, ptr, len).

(** At most three passes over words, and three over bytes. *)
Definition XXH64_finalize (h64 : Z) (ptr : list byte) (len : Z) : option Z :=
  let len := Z.land len 31 in
  '(h64, ptr, len) ← while_left process8 8 3 h64 ptr len;
  '(h64, ptr, len) ←
    (if 4 <=? len then '(h64, ptr) ← process4 h64 ptr; Some (h64, ptr, len - 4) else Some (h64, ptr, len));
  '(h64, _, _) ← while_left process1 1 3 h64 ptr len;
  Some (XXH64_avalanche h64).

(** ** Lanes *)

Definition init_lanes64 (seed : Z) : lanes :=
  mkLanes (u64 (seed + XXH_PRIME64_1 + XXH_PRIME64_2)) (u64 (seed + XXH_PRIME64_2))
    (u64 (seed + 0)) (u64 (seed - XXH_PRIME64_1)).

(** One stripe of 32 bytes. *)
Definition XXH64_stripe (v : lanes) (p : list byte) : lanes :=
  mkLanes (XXH64_round (v1 v) (XXH_readLE64 p)) (XXH64_round (v2 v) (XXH_readLE64 (drop 8 p)))
    (XXH64_round (v3 v) (XXH_readLE64 (drop 16 p))) (XXH64_round (v4 v) (XXH_readLE64 (drop 24 p))).

Definition XXH64_stripes : nat -> lanes -> list byte -> lanes * list byte := stripes 32 XXH64_stripe.

Definition combine_lanes64 (v : lanes) : Z :=
  let h64 := u64 (XXH_rotl64 (v1 v) 1 + XXH_rotl64 (v2 v) 7 + XXH_rotl64 (v3 v) 12 + XXH_rotl64 (v4 v) 18) in
  let h64 := XXH64_mergeRound h64 (v1 v) in
  let h64 := XXH64_mergeRound h64 (v2 v) in
  let h64 := XXH64_mergeRound h64 (v3 v) in
  XXH64_mergeRound h64 (v4 v).

(** ** One shot *)

Definition XXH64_endian_align (input : list byte) (seed : Z) : option Z :=
  let len := zlen input in
  let '(h64, rest) :=
    if 32 <=? len then
      let '(v, rest) := XXH64_stripes (length input) (init_lanes64 seed) input in
      (combine_lanes64 v, rest)
    else (u64 (seed + XXH_PRIME64_5), input) in
  XXH64_finalize (u64 (h64 + len)) rest len.

Definition XXH64 (input : list byte) (seed : Z) : option Z := XXH64_endian_align input seed.

(** ** Streaming *)

Record XXH64_state := mkState64 {
  total_len : Z;
  st_v64 : lanes;
  mem64 : list byte;
  memsize64 : Z
}.

Definition XXH64_reset (seed : Z) : XXH64_state := mkState64 0 (init_lanes64 seed) (repeat x00 32) 0.

Definition XXH64_update (state : XXH64_state) (input : list byte) : option XXH64_state :=
  let total := u64 (total_len state + zlen input) in
  '(v, mem, size) ← feed 32 XXH64_stripe (st_v64 state) (mem64 state) (memsize64 state) input;
  Some (mkState64 total v mem size).

Definition XXH64_digest (state : XXH64_state) : option Z :=
  let h64 := if 32 <=? total_len state then combine_lanes64 (st_v64 state)
             else u64 (v3 (st_v64 state) + XXH_PRIME64_5) in
  XXH64_finalize (u64 (h64 + total_len state)) (mem64 state) (total_len state).

(** The calls a user of the streaming interface makes for a list of pieces. *)
Fixpoint XXH64_updates (state : XXH64_state) (pieces : list (list byte)) : option XXH64_state :=
  match pieces with
  | [] => Some state
  | p :: ps => state ← XXH64_update state p; XXH64_updates state ps
  end.

Definition XXH64_stream (pieces : list (list byte)) (seed : Z) : option Z :=
  state ← XXH64_updates (XXH64_reset seed) pieces; XXH64_digest state.

(** ** The canonical form *)

Definition XXH_swap64 (x : Z) : Z := bswap 8 x.

(** The swapped word, stored little-endian. *)
Definition XXH64_canonicalFromHash (hash : Z) : list byte := le_bytes 8 (XXH_swap64 hash).

Definition XXH64_hashFromCanonical (src : list byte) : option Z :=
  bs ← mem_read src 0 8; Some (XXH_swap64 (le_value bs)).

(** Published test values. *)
Example XXH64_vectors :
  XXH64 [] 0 = Some 0xEF46DB3751D8E999 /\ XXH64 (str "a") 0 = Some 0xD24EC4F1A98C6E5B /\
  XXH64 (str "abc") 0 = Some 0x44BC2CF5AD770999 /\
  XXH64 (str "Nobody inspects the spammish repetition") 0 = Some 0xFBCEA83C8A378BF1.
Proof. vm_compute. auto. Qed.

(** ** Absorbing whole stripes *)

Abbreviation absorb64 := (absorb 32 XXH64_stripe).

Lemma stripe64_app v p q : 32 <= zlen p -> XXH64_stripe v (p ++ q) = XXH64_stripe v p.
Proof.
  intros L. unfold XXH64_stripe, XXH_readLE64, zlen in *.
  rewrite !drop_app_le by lia.
  rewrite !slice_app_l; try lia; unfold zlen; rewrite ?length_drop; try lia. done.
Qed.

Lemma absorb64_rest seed p :
  exists w r, absorb64 (length p) (init_lanes64 seed) p = (w, r) /\ zlen r < 32 /\ zlen r = zlen p mod 32 /\
    (zlen p < 32 -> w = init_lanes64 seed /\ r = p).
Proof. apply absorb_rest; lia. Qed.

(** ** The tail *)

Lemma land31 n : Z.land n 31 = n mod 32.
Proof. change 31 with (Z.ones 5). by rewrite Z.land_ones. Qed.

(** What every step does: it takes the bytes it reads off its input, looks at no
    others, and leaves a word. *)
Record takes (k : nat) (body : Z -> list byte -> option (Z * list byte)) : Prop := {
  tk_some : forall h p, Z.of_nat k <= zlen p -> exists h', body h p = Some (h', drop k p) /\ 0 <= h' < 2 ^ 64;
  tk_app : forall h p q, Z.of_nat k <= zlen p ->
    body h (p ++ q) = '(h', r) ← body h p; Some (h', r ++ q)
}.

Ltac step_takes :=
  split; intros; [|match goal with |- _ (_ ++ ?q) = _ => pose proof (zlen_nonneg q) end];
  unfold process8, process4, process1 in *; rewrite ?mem_read_ok by (rewrite ?zlen_app; lia); cbn [mbind option_bind];
  [eexists; split; [done|apply wrap_range; lia]
  |rewrite slice_app_l by lia; by rewrite drop_app_le by (unfold zlen in *; lia)].

Lemma process8_takes : takes 8 process8.
Proof. step_takes. Qed.

Lemma process4_takes : takes 4 process4.
Proof. step_takes. Qed.

Lemma process1_takes : takes 1 process1.
Proof. step_takes. Qed.

Lemma while_left_ok body k fuel h p :
  (0 < k)%nat -> takes k body -> zlen p < Z.of_nat k * (Z.of_nat fuel + 1) -> 0 <= h < 2 ^ 64 ->
  exists h' r, while_left body (Z.of_nat k) fuel h p (zlen p) = Some (h', r, zlen r) /\
    zlen r < Z.of_nat k /\ 0 <= h' < 2 ^ 64.
Proof.
  intros Hk T. revert h p. induction fuel as [|fuel IH]; intros h p L Hh; cbn [while_left]; case_bool; try lia; eauto.
  destruct (tk_some k body T h p) as (h' & -> & Hh'); [done|]. cbn [mbind option_bind].
  rewrite <- zlen_drop_stripe by done. apply IH; [rewrite zlen_drop_stripe by done; lia|done].
Qed.

Lemma while_left_app body k fuel h p q :
  takes k body ->
  while_left body (Z.of_nat k) fuel h (p ++ q) (zlen p) =
  '(h', r, n) ← while_left body (Z.of_nat k) fuel h p (zlen p); Some (h', r ++ q, n).
Proof.
  intros T. revert h p. induction fuel as [|fuel IH]; intros h p; cbn [while_left]; case_bool; try done.
  rewrite (tk_app k body T) by done.
  destruct (tk_some k body T h p) as (h' & -> & _); [done|]. cbn [mbind option_bind].
  rewrite <- (zlen_drop_stripe k p) by done. apply IH.
Qed.

Lemma avalanche64_range h : 0 <= h < 2 ^ 64 -> 0 <= XXH64_avalanche h < 2 ^ 64.
Proof.
  intros. unfold XXH64_avalanche.
  repeat (apply lxor_shift_range; [lia|lia|]; try apply wrap_range; try lia).
Qed.

(** The finalisation returns a word, from the first [len mod 32] bytes. *)
Lemma finalize64_ok h p q len :
  zlen p = len mod 32 -> 0 <= h < 2 ^ 64 ->
  exists h', XXH64_finalize h p len = Some h' /\ XXH64_finalize h (p ++ q) len = Some h' /\ 0 <= h' < 2 ^ 64.
Proof.
  intros E Hh. pose proof (Z.mod_pos_bound len 32 ltac:(lia)). unfold XXH64_finalize. rewrite land31, <- E.
  change 8 with (Z.of_nat 8). rewrite (while_left_app process8 8) by apply process8_takes.
  destruct (while_left_ok process8 8 3 h p) as (h1 & r1 & -> & L1 & H1); [lia|apply process8_takes|lia|done|].
  cbn [mbind option_bind].
  assert (exists h2 r2, (if 4 <=? zlen r1 then '(h64, ptr) ← process4 h1 r1; Some (h64, ptr, zlen r1 - 4)
      else Some (h1, r1, zlen r1)) = Some (h2, r2, zlen r2) /\
    (if 4 <=? zlen r1 then '(h64, ptr) ← process4 h1 (r1 ++ q); Some (h64, ptr, zlen r1 - 4)
      else Some (h1, r1 ++ q, zlen r1)) = Some (h2, r2 ++ q, zlen r2) /\
    zlen r2 < 4 /\ 0 <= h2 < 2 ^ 64) as (h2 & r2 & -> & -> & L2 & H2).
  { case_bool; [|by eexists _, _]. rewrite (tk_app 4 _ process4_takes) by done.
    destruct (tk_some 4 _ process4_takes h1 r1) as (h2 & -> & ?); [done|]. cbn [mbind option_bind].
    exists h2, (drop 4 r1). pose proof (zlen_drop_stripe 4 r1 Hb). split_and!; try lia; do 2 f_equal; lia. }
  cbn [mbind option_bind]. change 1 with (Z.of_nat 1). rewrite (while_left_app process1 1) by apply process1_takes.
  destruct (while_left_ok process1 1 3 h2 r2) as (h3 & r3 & -> & _ & H3); [lia|apply process1_takes|lia|done|].
  cbn [mbind option_bind]. eexists. split_and!; [done|done|..]; by apply avalanche64_range.
Qed.

(** ** The one-shot function, on the absorbed input *)

Definition pre_hash64 (v : lanes) (seed : Z) (large : bool) (len : Z) : Z :=
  u64 ((if large then combine_lanes64 v else u64 (seed + XXH_PRIME64_5)) + len).

Lemma XXH64_absorb input seed :
  XXH64 input seed =
  let '(w, r) := absorb64 (length input) (init_lanes64 seed) input in
  XXH64_finalize (pre_hash64 w seed (32 <=? zlen input) (zlen input)) r (zlen input).
Proof.
  unfold XXH64, XXH64_endian_align, pre_hash64.
  destruct (absorb64_rest seed input) as (w & r & E & L & M & S). rewrite E. case_bool.
  - unfold XXH64_stripes. rewrite (stripes_absorb 32) by (cbn; lia). by rewrite E.
  - by destruct (S Hb) as [-> ->].
Qed.

Lemma XXH64_total input seed : exists h, XXH64 input seed = Some h /\ 0 <= h < 2 ^ 64.
Proof.
  rewrite XXH64_absorb. destruct (absorb64_rest seed input) as (w & r & -> & L & M & _).
  destruct (finalize64_ok (pre_hash64 w seed (32 <=? zlen input) (zlen input)) r [] (zlen input))
    as (h & -> & _ & ?); [done|apply wrap_range; lia|]. eauto.
Qed.

(** ** The streaming state *)

Record state64_ok (seed : Z) (st : XXH64_state) (bs : list byte) : Prop := {
  ok64_total : total_len st = zlen bs;
  ok64_buffer : buffered 32 XXH64_stripe (init_lanes64 seed) (st_v64 st) (mem64 st) (memsize64 st) bs
}.

Lemma updates64_ok seed st bs pieces :
  zlen (bs ++ concat pieces) < 2 ^ 63 -> state64_ok seed st bs ->
  exists st', XXH64_updates st pieces = Some st' /\ state64_ok seed st' (bs ++ concat pieces).
Proof.
  revert st bs. induction pieces as [|p ps IH]; intros st bs Hp [Ht Hb]; cbn [XXH64_updates concat] in *.
  { exists st. rewrite app_nil_r. by split. }
  rewrite app_assoc in *. rewrite !zlen_app in Hp.
  pose proof (zlen_nonneg bs). pose proof (zlen_nonneg p). pose proof (zlen_nonneg (concat ps)).
  destruct (feed_ok 32 XXH64_stripe ltac:(lia) ltac:(lia) stripe64_app _ _ _ _ _ p ltac:(lia) Hb)
    as (v & mem & n & E & Hb').
  unfold XXH64_update. rewrite E. cbn [mbind option_bind].
  apply IH; [rewrite !zlen_app; lia|]. split; [|done]. cbn [total_len]. rewrite Ht, zlen_app. apply u64_id. lia.
Qed.

Lemma digest64_ok seed st bs : state64_ok seed st bs -> XXH64_digest st = XXH64 bs seed.
Proof.
  intros [Ht [Hm Hv Hs Htl]]. rewrite XXH64_absorb. unfold XXH64_digest. rewrite Ht, Hv.
  destruct (absorb64_rest seed bs) as (w & r & E' & L & M & S). rewrite E' in *. cbn [fst snd] in *.
  rewrite <- (take_drop (Z.to_nat (memsize64 st)) (mem64 st)), Htl.
  match goal with |- XXH64_finalize (u64 (?a + ?t)) _ _ = _ =>
    assert (u64 (a + t) = pre_hash64 w seed (32 <=? zlen bs) (zlen bs)) as -> end.
  { unfold pre_hash64. case_bool; [done|]. destruct (S Hb) as [-> _]. cbn [v3 init_lanes64].
    f_equal. f_equal. unfold wrap. by rewrite Z.add_0_r, Zplus_mod_idemp_l. }
  destruct (finalize64_ok (pre_hash64 w seed (32 <=? zlen bs) (zlen bs)) r
    (drop (Z.to_nat (memsize64 st)) (mem64 st)) (zlen bs)) as (h & -> & -> & _); [done|apply wrap_range; lia|done].
Qed.

Lemma canonical_word n h : 0 <= h < 2 ^ (8 * Z.of_nat n) -> bswap n (le_value (le_bytes n (bswap n h))) = h.
Proof.
  intros Hh. rewrite le_bytes_bswap. unfold bswap. rewrite le_bytes_value' by apply length_be_bytes.
  change (le_value (rev (be_bytes n h))) with (be_value (be_bytes n h)). rewrite be_value_bytes. apply Z.mod_small. by rewrite (Z.pow_mul_r 2 8) in Hh by lia.
Qed.

Lemma canonical64_roundtrip h :
  0 <= h < 2 ^ 64 -> XXH64_hashFromCanonical (XXH64_canonicalFromHash h) = Some h.
Proof.
  intros Hh. unfold XXH64_hashFromCanonical, XXH64_canonicalFromHash, XXH_swap64.
  rewrite mem_read_ok by (rewrite ?zlen_le_bytes; lia). cbn [mbind option_bind].
  rewrite (slice_full _ 8) by (by rewrite zlen_le_bytes). by rewrite canonical_word.
Qed.

(** ** Properties *)

(** The streaming XXH64 gives the one-shot hash of the concatenation, however
    the input is cut into pieces; neither reads outside its input or its 32-byte
    buffer, the hash is a 64-bit word, and it is recovered from its canonical
    form. *)
Theorem stream64_hash_eq (pieces : list (list byte)) (seed : Z) :
  zlen (concat pieces) < 2 ^ 63 ->
  exists h, XXH64_stream pieces seed = Some h /\ XXH64 (concat pieces) seed = Some h /\
    XXH64_hashFromCanonical (XXH64_canonicalFromHash h) = Some h.
Proof.
  intros Hp. destruct (XXH64_total (concat pieces) seed) as (h & Eh & Hh). exists h.
  split_and!; [|done|by apply canonical64_roundtrip]. unfold XXH64_stream.
  destruct (updates64_ok seed (XXH64_reset seed) [] pieces) as (st & -> & Hs); [done|by split|].
  cbn [mbind option_bind]. by rewrite (digest64_ok _ _ _ Hs).
Qed.

Lemma stream64_hash_eq_witness :
  exists h, XXH64_stream [str "Nobody inspects"; []; str " the spammish repetition"] 0 = Some h /\
    XXH64 (str "Nobody inspects the spammish repetition") 0 = Some h /\
    XXH64_hashFromCanonical (XXH64_canonicalFromHash h) = Some h.
Proof.
  apply (stream64_hash_eq [str "Nobody inspects"; []; str " the spammish repetition"] 0).
  reflexivity.
Defined.
