(* ===== verification/XXH3.v ===== *)
(** * XXH3: third-party/xxHash/xxhash.h

    The hash of the same library for 64 and 128 bits, in its scalar version: inputs
    of up to 240 bytes by length class, longer ones in stripes of 64 bytes that are
    mixed into eight accumulators under a secret, which is the default one, one given
    by the user or one derived from a seed.  Reads of the input and of the secret are
    checked; [XXH_ASSERT] is empty in the default build and left out. *)

From Stdlib Require Import ZArith Lia.
From S2P Require Import Prelude Endian Stripes XXHash XXH64.

(** ** Words *)

Definition read8 (p : list byte) (off : Z) : option Z := bs ← mem_read p off 1; Some (le_value bs).
Definition read32 (p : list byte) (off : Z) : option Z := bs ← mem_read p off 4; Some (XXH_readLE32 bs).
Definition read64 (p : list byte) (off : Z) : option Z := bs ← mem_read p off 8; Some (XXH_readLE64 bs).

Definition XXH_writeLE64 (dst : list byte) (off v64 : Z) : option (list byte) := mem_write dst off (le_bytes 8 v64).

Definition XXH_swap32 (x : Z) : Z := bswap 4 x.

Definition XXH_mult32to64 (x y : Z) : Z := u64 (u32 x * u32 y).

Record XXH128_hash := mkHash128 { low64 : Z; high64 : Z }.

(** With a type of 128 bits, and without one. *)
Definition XXH_mult64to128 (lhs rhs : Z) : XXH128_hash :=
  let product := wrap 128 (lhs * rhs) in
  mkHash128 (u64 product) (u64 (Z.shiftr product 64)).

Definition XXH_mult64to128_portable (lhs rhs : Z) : XXH128_hash :=
  let lo_lo := XXH_mult32to64 (Z.land lhs 0xFFFFFFFF) (Z.land rhs 0xFFFFFFFF) in
  let hi_lo := XXH_mult32to64 (Z.shiftr lhs 32) (Z.land rhs 0xFFFFFFFF) in
  let lo_hi := XXH_mult32to64 (Z.land lhs 0xFFFFFFFF) (Z.shiftr rhs 32) in
  let hi_hi := XXH_mult32to64 (Z.shiftr lhs 32) (Z.shiftr rhs 32) in
  let cross := u64 (Z.shiftr lo_lo 32 + Z.land hi_lo 0xFFFFFFFF + lo_hi) in
  let upper := u64 (Z.shiftr hi_lo 32 + Z.shiftr cross 32 + hi_hi) in
  let lower := Z.lor (u64 (Z.shiftl cross 32)) (Z.land lo_lo 0xFFFFFFFF) in
  mkHash128 lower upper.

Definition XXH3_mul128_fold64 (lhs rhs : Z) : Z :=
  let product := XXH_mult64to128 lhs rhs in Z.lxor (low64 product) (high64 product).

Definition XXH_xorshift64 (v64 shift : Z) : Z := Z.lxor v64 (Z.shiftr v64 shift).

Definition XXH3_avalanche (h64 : Z) : Z :=
  let h64 := XXH_xorshift64 h64 37 in
  let h64 := u64 (h64 * 0x165667919E3779F9) in
  XXH_xorshift64 h64 32.

Definition XXH3_rrmxmx (h64 len : Z) : Z :=
  let h64 := Z.lxor h64 (Z.lxor (XXH_rotl64 h64 49) (XXH_rotl64 h64 24)) in
  let h64 := u64 (h64 * 0x9FB21C651E98DF25) in
  let h64 := Z.lxor h64 (u64 (Z.shiftr h64 35 + len)) in
  let h64 := u64 (h64 * 0x9FB21C651E98DF25) in
  XXH_xorshift64 h64 28.

(** [for (i = lo; i < lo + n; i++)] *)
Fixpoint for_loop {A} (n : nat) (i : Z) (body : Z -> A -> option A) (s : A) : option A :=
  match n with
  | O => Some s
  | S n => s ← body i s; for_loop n (i + 1) body s
  end.

(** ** The secret *)

Definition XXH3_SECRET_SIZE_MIN : Z := 136.
Definition XXH_SECRET_DEFAULT_SIZE : Z := 192.

Definition XXH3_kSecret : list byte :=
  [ xb8; xfe; x6c; x39; x23; xa4; x4b; xbe; x7c; x01; x81; x2c; xf7; x21; xad; x1c;
    xde; xd4; x6d; xe9; x83; x90; x97; xdb; x72; x40; xa4; xa4; xb7; xb3; x67; x1f;
    xcb; x79; xe6; x4e; xcc; xc0; xe5; x78; x82; x5a; xd0; x7d; xcc; xff; x72; x21;
    xb8; x08; x46; x74; xf7; x43; x24; x8e; xe0; x35; x90; xe6; x81; x3a; x26; x4c;
    x3c; x28; x52; xbb; x91; xc3; x00; xcb; x88; xd0; x65; x8b; x1b; x53; x2e; xa3;
    x71; x64; x48; x97; xa2; x0d; xf9; x4e; x38; x19; xef; x46; xa9; xde; xac; xd8;
    xa8; xfa; x76; x3f; xe3; x9c; x34; x3f; xf9; xdc; xbb; xc7; xc7; x0b; x4f; x1d;
    x8a; x51; xe0; x4b; xcd; xb4; x59; x31; xc8; x9f; x7e; xc9; xd9; x78; x73; x64;
    xea; xc5; xac; x83; x34; xd3; xeb; xc3; xc5; x81; xa0; xff; xfa; x13; x63; xeb;
    x17; x0d; xdd; x51; xb7; xf0; xda; x49; xd3; x16; x55; x26; x29; xd4; x68; x9e;
    x2b; x16; xbe; x58; x7d; x47; xa1; xfc; x8f; xf8; xb8; xd1; x7a; xd0; x31; xce;
    x45; xcb; x3a; x8f; x95; x16; x04; x28; xaf; xd7; xfb; xca; xbb; x4b; x40; x7e ].

Definition XXH3_initCustomSecret (customSecret : list byte) (seed64 : Z) : option (list byte) :=
  for_loop 12 0 (fun i secret =>
    lo ← read64 XXH3_kSecret (16 * i);
    hi ← read64 XXH3_kSecret (16 * i + 8);
    secret ← XXH_writeLE64 secret (16 * i) (u64 (lo + seed64));
    XXH_writeLE64 secret (16 * i + 8) (u64 (hi - seed64))) customSecret.

(** ** Up to 16 bytes *)

Definition XXH3_len_1to3_64b (input : list byte) (len : Z) (secret : list byte) (seed : Z) : option Z :=
  c1 ← read8 input 0;
  c2 ← read8 input (Z.shiftr len 1);
  c3 ← read8 input (len - 1);
  let combined := Z.lor (Z.lor (Z.lor (Z.shiftl c1 16) (Z.shiftl c2 24)) (Z.shiftl c3 0)) (Z.shiftl (u32 len) 8) in
  s0 ← read32 secret 0;
  s4 ← read32 secret 4;
  let bitflip := u64 (Z.lxor s0 s4 + seed) in
  let keyed := Z.lxor combined bitflip in
  Some (XXH64_avalanche keyed).

Definition XXH3_len_4to8_64b (input : list byte) (len : Z) (secret : list byte) (seed : Z) : option Z :=
  let seed := Z.lxor seed (u64 (Z.shiftl (XXH_swap32 (u32 seed)) 32)) in
  input1 ← read32 input 0;
  input2 ← read32 input (len - 4);
  s8 ← read64 secret 8;
  s16 ← read64 secret 16;
  let bitflip := u64 (Z.lxor s8 s16 - seed) in
  let input64 := u64 (input2 + u64 (Z.shiftl input1 32)) in
  let keyed := Z.lxor input64 bitflip in
  Some (XXH3_rrmxmx keyed len).

Definition XXH3_len_9to16_64b (input : list byte) (len : Z) (secret : list byte) (seed : Z) : option Z :=
  s24 ← read64 secret 24;
  s32 ← read64 secret 32;
  s40 ← read64 secret 40;
  s48 ← read64 secret 48;
  let bitflip1 := u64 (Z.lxor s24 s32 + seed) in
  let bitflip2 := u64 (Z.lxor s40 s48 - seed) in
  lo ← read64 input 0;
  hi ← read64 input (len - 8);
  let input_lo := Z.lxor lo bitflip1 in
  let input_hi := Z.lxor hi bitflip2 in
  let acc := u64 (len + XXH_swap64 input_lo + input_hi + XXH3_mul128_fold64 input_lo input_hi) in
  Some (XXH3_avalanche acc).

Definition XXH3_len_0to16_64b (input : list byte) (len : Z) (secret : list byte) (seed : Z) : option Z :=
  if 8 <? len then XXH3_len_9to16_64b input len secret seed
  else if 4 <=? len then XXH3_len_4to8_64b input len secret seed
  else if negb (len =? 0) then XXH3_len_1to3_64b input len secret seed
  else
    s56 ← read64 secret 56;
    s64 ← read64 secret 64;
    Some (XXH64_avalanche (Z.lxor seed (Z.lxor s56 s64))).

(** ** Up to 240 bytes *)

Definition XXH3_mix16B (input : list byte) (ioff : Z) (secret : list byte) (soff : Z) (seed64 : Z) : option Z :=
  input_lo ← read64 input ioff;
  input_hi ← read64 input (ioff + 8);
  s0 ← read64 secret soff;
  s8 ← read64 secret (soff + 8);
  Some (XXH3_mul128_fold64 (Z.lxor input_lo (u64 (s0 + seed64))) (Z.lxor input_hi (u64 (s8 - seed64)))).

(** [acc += XXH3_mix16B(...)] *)
Definition add_mix16B (acc : Z) (input : list byte) (ioff : Z) (secret : list byte) (soff : Z) (seed : Z) : option Z :=
  m ← XXH3_mix16B input ioff secret soff seed; Some (u64 (acc + m)).

Definition XXH3_len_17to128_64b (input : list byte) (len : Z) (secret : list byte) (seed : Z) : option Z :=
  let mix acc ioff soff := add_mix16B acc input ioff secret soff seed in
  let acc := u64 (len * XXH_PRIME64_1) in
  acc ←
    (if 32 <? len then
      acc ←
        (if 64 <? len then
          acc ←
            (if 96 <? len then
              acc ← mix acc 48 96;
              mix acc (len - 64) 112
            else Some acc);
          acc ← mix acc 32 64;
          mix acc (len - 48) 80
        else Some acc);
      acc ← mix acc 16 32;
      mix acc (len - 32) 48
    else Some acc);
  acc ← mix acc 0 0;
  acc ← mix acc (len - 16) 16;
  Some (XXH3_avalanche acc).

Definition XXH3_MIDSIZE_MAX : Z := 240.
Definition XXH3_MIDSIZE_STARTOFFSET : Z := 3.
Definition XXH3_MIDSIZE_LASTOFFSET : Z := 17.

Definition XXH3_len_129to240_64b (input : list byte) (len : Z) (secret : list byte) (seed : Z) : option Z :=
  let acc := u64 (len * XXH_PRIME64_1) in
  let nbRounds := len / 16 in
  acc ← for_loop 8 0 (fun i acc => add_mix16B acc input (16 * i) secret (16 * i) seed) acc;
  let acc := XXH3_avalanche acc in
  acc ← for_loop (Z.to_nat (nbRounds - 8)) 8 (fun i acc =>
    add_mix16B acc input (16 * i) secret (16 * (i - 8) + XXH3_MIDSIZE_STARTOFFSET) seed) acc;
  acc ← add_mix16B acc input (len - 16) secret (XXH3_SECRET_SIZE_MIN - XXH3_MIDSIZE_LASTOFFSET) seed;
  Some (XXH3_avalanche acc).

(** ** Longer inputs *)

Definition XXH_STRIPE_LEN : Z := 64.
Definition XXH_SECRET_CONSUME_RATE : Z := 8.
Definition XXH_SECRET_LASTACC_START : Z := 7.
Definition XXH_SECRET_MERGEACCS_START : Z := 11.

Definition XXH3_INIT_ACC : list Z :=
  [ XXH_PRIME32_3; XXH_PRIME64_1; XXH_PRIME64_2; XXH_PRIME64_3;
    XXH_PRIME64_4; XXH_PRIME32_2; XXH_PRIME64_5; XXH_PRIME32_1 ].

(** [xacc[i] += d] *)
Definition acc_add (xacc : list Z) (i d : Z) : list Z := alter (fun x => u64 (x + d)) (Z.to_nat i) xacc.

Definition XXH3_accumulate_512 (acc : list Z) (input : list byte) (ioff : Z) (secret : list byte) (soff : Z)
  : option (list Z) :=
  for_loop 8 0 (fun i xacc =>
    data_val ← read64 input (ioff + 8 * i);
    key ← read64 secret (soff + i * 8);
    let data_key := Z.lxor data_val key in
    let xacc := acc_add xacc (Z.lxor i 1) data_val in
    Some (acc_add xacc i (XXH_mult32to64 (Z.land data_key 0xFFFFFFFF) (Z.shiftr data_key 32)))) acc.

Definition XXH3_scrambleAcc (acc : list Z) (secret : list byte) (soff : Z) : option (list Z) :=
  for_loop 8 0 (fun i xacc =>
    key64 ← read64 secret (soff + 8 * i);
    Some (alter (fun acc64 => u64 (Z.lxor (XXH_xorshift64 acc64 47) key64 * XXH_PRIME32_1)) (Z.to_nat i) xacc)) acc.

Definition XXH3_accumulate (acc : list Z) (input : list byte) (ioff : Z) (secret : list byte) (soff : Z)
    (nbStripes : Z) : option (list Z) :=
  for_loop (Z.to_nat nbStripes) 0 (fun n acc =>
    XXH3_accumulate_512 acc input (ioff + n * XXH_STRIPE_LEN) secret (soff + n * XXH_SECRET_CONSUME_RATE)) acc.

Definition XXH3_hashLong_internal_loop (acc : list Z) (input : list byte) (len : Z) (secret : list byte) (secretSize : Z)
  : option (list Z) :=
  let nbStripesPerBlock := (secretSize - XXH_STRIPE_LEN) / XXH_SECRET_CONSUME_RATE in
  let block_len := XXH_STRIPE_LEN * nbStripesPerBlock in
  let nb_blocks := (len - 1) / block_len in
  acc ← for_loop (Z.to_nat nb_blocks) 0 (fun n acc =>
    acc ← XXH3_accumulate acc input (n * block_len) secret 0 nbStripesPerBlock;
    XXH3_scrambleAcc acc secret (secretSize - XXH_STRIPE_LEN)) acc;
  let nbStripes := ((len - 1) - block_len * nb_blocks) / XXH_STRIPE_LEN in
  acc ← XXH3_accumulate acc input (nb_blocks * block_len) secret 0 nbStripes;
  XXH3_accumulate_512 acc input (len - XXH_STRIPE_LEN) secret
    (secretSize - XXH_STRIPE_LEN - XXH_SECRET_LASTACC_START).

Definition XXH3_mix2Accs (acc : list Z) (i : Z) (secret : list byte) (soff : Z) : option Z :=
  a0 ← acc !! Z.to_nat i;
  a1 ← acc !! Z.to_nat (i + 1);
  s0 ← read64 secret soff;
  s8 ← read64 secret (soff + 8);
  Some (XXH3_mul128_fold64 (Z.lxor a0 s0) (Z.lxor a1 s8)).

Definition XXH3_mergeAccs (acc : list Z) (secret : list byte) (soff start : Z) : option Z :=
  result64 ← for_loop 4 0 (fun i result64 =>
    m ← XXH3_mix2Accs acc (2 * i) secret (soff + 16 * i);
    Some (u64 (result64 + m))) start;
  Some (XXH3_avalanche result64).

Definition XXH3_hashLong_64b_internal (input : list byte) (len : Z) (secret : list byte) (secretSize : Z) : option Z :=
  acc ← XXH3_hashLong_internal_loop XXH3_INIT_ACC input len secret secretSize;
  XXH3_mergeAccs acc secret XXH_SECRET_MERGEACCS_START (u64 (len * XXH_PRIME64_1)).

(** The functions for long inputs take a seed and a secret, and use one of them. *)
Definition hashLong_f (A : Type) : Type := list byte -> Z -> Z -> list byte -> Z -> option A.

Definition XXH3_hashLong_64b_withSecret : hashLong_f Z :=
  fun input len _ secret secretLen => XXH3_hashLong_64b_internal input len secret secretLen.

Definition XXH3_hashLong_64b_default : hashLong_f Z :=
  fun input len _ _ _ => XXH3_hashLong_64b_internal input len XXH3_kSecret (zlen XXH3_kSecret).

Definition XXH3_hashLong_64b_withSeed_internal (input : list byte) (len seed : Z) : option Z :=
  if seed =? 0 then XXH3_hashLong_64b_internal input len XXH3_kSecret (zlen XXH3_kSecret)
  else
    secret ← XXH3_initCustomSecret (repeat x00 192) seed;
    XXH3_hashLong_64b_internal input len secret (zlen secret).

Definition XXH3_hashLong_64b_withSeed : hashLong_f Z :=
  fun input len seed _ _ => XXH3_hashLong_64b_withSeed_internal input len seed.

(** A null function cannot be called. *)
Definition null_f {A} : hashLong_f A := fun _ _ _ _ _ => None.

Definition XXH3_64bits_internal (input : list byte) (len seed64 : Z) (secret : list byte) (secretLen : Z)
    (f_hashLong : hashLong_f Z) : option Z :=
  if len <=? 16 then XXH3_len_0to16_64b input len secret seed64
  else if len <=? 128 then XXH3_len_17to128_64b input len secret seed64
  else if len <=? XXH3_MIDSIZE_MAX then XXH3_len_129to240_64b input len secret seed64
  else f_hashLong input len seed64 secret secretLen.

Definition XXH3_64bits (input : list byte) (len : Z) : option Z :=
  XXH3_64bits_internal input len 0 XXH3_kSecret (zlen XXH3_kSecret) XXH3_hashLong_64b_default.

Definition XXH3_64bits_withSecret (input : list byte) (len : Z) (secret : list byte) (secretSize : Z) : option Z :=
  XXH3_64bits_internal input len 0 secret secretSize XXH3_hashLong_64b_withSecret.

Definition XXH3_64bits_withSeed (input : list byte) (len seed : Z) : option Z :=
  XXH3_64bits_internal input len seed XXH3_kSecret (zlen XXH3_kSecret) XXH3_hashLong_64b_withSeed.

Definition XXH3_64bits_withSecretandSeed (input : list byte) (len : Z) (secret : list byte) (secretSize seed : Z) : option Z :=
  if len <=? XXH3_MIDSIZE_MAX then XXH3_64bits_internal input len seed XXH3_kSecret (zlen XXH3_kSecret) null_f
  else XXH3_hashLong_64b_withSecret input len seed secret secretSize.

(** ** Loops *)

Lemma for_loop_app {A} n m i (body : Z -> A -> option A) s :
  for_loop (n + m) i body s = s' ← for_loop n i body s; for_loop m (i + Z.of_nat n) body s'.
Proof.
  revert i s. induction n as [|n IH]; intros i s; cbn [for_loop Nat.add].
  { by rewrite Z.add_0_r. }
  destruct (body i s) as [s1|]; [|done]. cbn [mbind option_bind]. rewrite IH.
  by replace (i + 1 + Z.of_nat n) with (i + Z.of_nat (S n)) by lia.
Qed.

(** Two loops with the same bodies, the second counting from elsewhere. *)
Lemma for_loop_ext {A} n i j (body body' : Z -> A -> option A) s :
  (forall k s, 0 <= k < Z.of_nat n -> body (i + k) s = body' (j + k) s) ->
  for_loop n i body s = for_loop n j body' s.
Proof.
  revert i j s. induction n as [|n IH]; intros i j s H; [done|]. cbn [for_loop].
  pose proof (H 0 s ltac:(lia)) as H0. rewrite !Z.add_0_r in H0. rewrite H0.
  destruct (body' j s) as [s1|]; [|done]. cbn [mbind option_bind]. apply IH.
  intros k s2 Hk. rewrite <- !Z.add_assoc. apply H. lia.
Qed.

Lemma for_loop_inv {A} n i (body : Z -> A -> option A) (P : A -> Prop) s :
  P s -> (forall k s, i <= k < i + Z.of_nat n -> P s -> exists s', body k s = Some s' /\ P s') ->
  exists s', for_loop n i body s = Some s' /\ P s'.
Proof.
  revert i s. induction n as [|n IH]; intros i s Hs H; cbn [for_loop]; [eauto|].
  destruct (H i s) as (s1 & -> & H1); [lia|done|]. cbn [mbind option_bind].
  apply IH; [done|]. intros. apply H; [lia|done].
Qed.

(** Two runs of a loop side by side. *)
Lemma for_loop_inv2 {A} n i (body : Z -> A -> option A) (P : Z -> A -> A -> Prop) s t :
  P i s t ->
  (forall k s t, i <= k < i + Z.of_nat n -> P k s t ->
    exists s' t', body k s = Some s' /\ body k t = Some t' /\ P (k + 1) s' t') ->
  exists s' t', for_loop n i body s = Some s' /\ for_loop n i body t = Some t' /\ P (i + Z.of_nat n) s' t'.
Proof.
  revert i s t. induction n as [|n IH]; intros i s t Hs H; cbn [for_loop].
  { exists s, t. by rewrite Z.add_0_r. }
  destruct (H i s t) as (s1 & t1 & -> & -> & H1); [lia|done|]. cbn [mbind option_bind].
  replace (i + Z.of_nat (S n)) with (i + 1 + Z.of_nat n) by lia. apply IH; [done|]. intros. apply H; [lia|done].
Qed.

(** ** Reads *)

(** The [n] bytes of [p] at [i] are those of [q] at [j]. *)
Record same_at (p : list byte) (i : Z) (q : list byte) (j n : Z) : Prop := {
  sa_p : 0 <= i /\ i + n <= zlen p;
  sa_q : 0 <= j /\ j + n <= zlen q;
  sa_bytes : slice i n p = slice j n q
}.

Lemma same_at_part p i q j n k m :
  same_at p i q j n -> 0 <= k -> 0 <= m -> k + m <= n -> same_at p (i + k) q (j + k) m.
Proof.
  intros [[] [] E] ? ? ?. split; [lia|lia|]. by rewrite <- (slice_slice k m i n p), <- (slice_slice k m j n q), E by lia.
Qed.

Lemma same_at_shorter p i q j n m : same_at p i q j n -> 0 <= m <= n -> same_at p i q j m.
Proof.
  intros H Hm. rewrite <- (Z.add_0_r i), <- (Z.add_0_r j). by eapply same_at_part; [exact H|lia..].
Qed.

(** One of [n] stripes. *)
Lemma same_at_stripe p i bs k n j :
  same_at p i bs (64 * k) (64 * n) -> 0 <= j < n -> same_at p (i + j * 64) bs (64 * (k + j)) 64.
Proof.
  intros H Hj. replace (64 * (k + j)) with (64 * k + j * 64) by lia. by eapply same_at_part; [exact H|lia..].
Qed.

Lemma same_mem_read p i q j n : same_at p i q j n -> 0 <= n -> mem_read p i n = mem_read q j n.
Proof. intros [[] [] E] ?. by rewrite !mem_read_ok, E by lia. Qed.

Lemma same_read64 p i q j n k :
  same_at p i q j n -> 0 <= k -> k + 8 <= n -> read64 p (i + k) = read64 q (j + k).
Proof. intros H ? ?. unfold read64. by rewrite (same_mem_read p (i + k) q (j + k) 8) by (by eapply same_at_part || lia). Qed.

Lemma prefix_read p q n k m :
  same_at p 0 q 0 n -> 0 <= k -> 0 <= m -> k + m <= n -> mem_read p k m = mem_read q k m.
Proof. intros H ? ? ?. apply same_mem_read; [|done]. by apply (same_at_part p 0 q 0 n k m). Qed.

Lemma prefix_read8 p q n k : same_at p 0 q 0 n -> 0 <= k -> k + 1 <= n -> read8 p k = read8 q k.
Proof. intros. unfold read8. by rewrite (prefix_read p q n) by (done || lia). Qed.
Lemma prefix_read32 p q n k : same_at p 0 q 0 n -> 0 <= k -> k + 4 <= n -> read32 p k = read32 q k.
Proof. intros. unfold read32. by rewrite (prefix_read p q n) by (done || lia). Qed.
Lemma prefix_read64 p q n k : same_at p 0 q 0 n -> 0 <= k -> k + 8 <= n -> read64 p k = read64 q k.
Proof. intros. unfold read64. by rewrite (prefix_read p q n) by (done || lia). Qed.

(** Rewrites the reads of [p] to reads of [q], which begin with the same bytes. *)
Ltac prefix_reads H p :=
  repeat match goal with
  | |- context [read8 p ?k] => rewrite (prefix_read8 _ _ _ k H) by lia
  | |- context [read32 p ?k] => rewrite (prefix_read32 _ _ _ k H) by lia
  | |- context [read64 p ?k] => rewrite (prefix_read64 _ _ _ k H) by lia
  end.

Lemma read8_ok p k : 0 <= k -> k + 1 <= zlen p -> exists v, read8 p k = Some v.
Proof. intros. unfold read8. rewrite mem_read_ok by lia. eauto. Qed.
Lemma read32_ok p k : 0 <= k -> k + 4 <= zlen p -> exists v, read32 p k = Some v.
Proof. intros. unfold read32. rewrite mem_read_ok by lia. eauto. Qed.
Lemma read64_ok p k : 0 <= k -> k + 8 <= zlen p -> exists v, read64 p k = Some v.
Proof. intros. unfold read64. rewrite mem_read_ok by lia. eauto. Qed.

(** Runs the reads at the head of the goal, all of which are in range. *)
Ltac run_reads :=
  repeat match goal with
  | |- context [read8 ?p ?k ≫= _] => destruct (read8_ok p k) as [? ->]; [lia|lia|]; cbn [mbind option_bind]
  | |- context [read32 ?p ?k ≫= _] => destruct (read32_ok p k) as [? ->]; [lia|lia|]; cbn [mbind option_bind]
  | |- context [read64 ?p ?k ≫= _] => destruct (read64_ok p k) as [? ->]; [lia|lia|]; cbn [mbind option_bind]
  end.

Lemma kSecret_len : zlen XXH3_kSecret = 192.
Proof. done. Qed.

(** ** Short inputs *)

Lemma mix16B_prefix p q n k secret soff seed :
  same_at p 0 q 0 n -> 0 <= k -> k + 16 <= n ->
  XXH3_mix16B p k secret soff seed = XXH3_mix16B q k secret soff seed.
Proof. intros H ? ?. unfold XXH3_mix16B. by prefix_reads H p. Qed.

Lemma add_mix16B_prefix p q n acc k secret soff seed :
  same_at p 0 q 0 n -> 0 <= k -> k + 16 <= n ->
  add_mix16B acc p k secret soff seed = add_mix16B acc q k secret soff seed.
Proof. intros. unfold add_mix16B. by rewrite (mix16B_prefix p q n). Qed.

Lemma add_mix16B_ok acc p k secret soff seed :
  0 <= k -> k + 16 <= zlen p -> 0 <= soff -> soff + 16 <= zlen secret ->
  exists v, add_mix16B acc p k secret soff seed = Some v.
Proof. intros. unfold add_mix16B, XXH3_mix16B. run_reads. eauto. Qed.

(** Two computations that make the same steps. *)
Lemma bind_cong {A B} (m m' : option A) (f f' : A -> option B) :
  m = m' -> (forall x, f x = f' x) -> m ≫= f = m' ≫= f'.
Proof. intros -> H. destruct m'; [apply H|done]. Qed.

Ltac same_steps tac := repeat first [reflexivity | tac | apply bind_cong; [|intros]].

Lemma half_range n : 0 <= n -> 0 <= Z.shiftr n 1 /\ (n <> 0 -> Z.shiftr n 1 + 1 <= n).
Proof.
  intros. rewrite Z.shiftr_div_pow2 by lia. change (2 ^ 1) with 2. split; [apply Z.div_pos; lia|].
  intros. pose proof (Z.div_lt n 2). lia.
Qed.

(** The hash of at most 240 bytes looks at them only. *)
Lemma len_0to16_64b_prefix p q n secret seed :
  same_at p 0 q 0 n -> 0 <= n <= 16 -> XXH3_len_0to16_64b p n secret seed = XXH3_len_0to16_64b q n secret seed.
Proof.
  intros H Hn. unfold XXH3_len_0to16_64b, XXH3_len_9to16_64b, XXH3_len_4to8_64b, XXH3_len_1to3_64b.
  destruct (half_range n) as [? ?]; [lia|].
  repeat case_bool; try done; by prefix_reads H p.
Qed.

Lemma len_17to128_64b_prefix p q n secret seed :
  same_at p 0 q 0 n -> 16 < n <= 128 -> XXH3_len_17to128_64b p n secret seed = XXH3_len_17to128_64b q n secret seed.
Proof.
  intros H Hn. unfold XXH3_len_17to128_64b.
  destruct (Z.ltb_spec 32 n), (Z.ltb_spec 64 n), (Z.ltb_spec 96 n); try lia;
    same_steps ltac:(apply (add_mix16B_prefix _ _ n); (done || lia)).
Qed.

Lemma len_129to240_64b_prefix p q n secret seed :
  same_at p 0 q 0 n -> 128 < n <= 240 -> XXH3_len_129to240_64b p n secret seed = XXH3_len_129to240_64b q n secret seed.
Proof.
  intros H Hn. unfold XXH3_len_129to240_64b. pose proof (Z.div_mod n 16). pose proof (Z.mod_pos_bound n 16).
  same_steps ltac:(first [apply for_loop_ext; intros | apply (add_mix16B_prefix _ _ n); (done || lia)]).
Qed.

Lemma short64_prefix p q n secret secretLen seed f :
  same_at p 0 q 0 n -> 0 <= n <= 240 ->
  XXH3_64bits_internal p n seed secret secretLen f = XXH3_64bits_internal q n seed secret secretLen f.
Proof.
  intros H Hn. unfold XXH3_64bits_internal, XXH3_MIDSIZE_MAX. repeat case_bool; try lia.
  - apply len_0to16_64b_prefix; [done|lia].
  - apply len_17to128_64b_prefix; [done|lia].
  - apply len_129to240_64b_prefix; [done|lia].
Qed.

(** No read leaves the input or the secret. *)
Lemma len_0to16_64b_ok p n secret seed :
  136 <= zlen secret -> n <= zlen p -> 0 <= n <= 16 -> exists h, XXH3_len_0to16_64b p n secret seed = Some h.
Proof.
  intros Hs Hp Hn. unfold XXH3_len_0to16_64b, XXH3_len_9to16_64b, XXH3_len_4to8_64b, XXH3_len_1to3_64b.
  destruct (half_range n) as [? ?]; [lia|].
  repeat case_bool; run_reads; eauto.
Qed.

(** Runs the mixing steps at the head of the goal. *)
Ltac run_mixes :=
  repeat match goal with
  | |- context [add_mix16B ?a ?p ?k ?s ?o ?d ≫= _] =>
    destruct (add_mix16B_ok a p k s o d) as [? ->]; [lia|lia|lia|lia|]; cbn [mbind option_bind]
  | |- context [add_mix16B ?a ?p ?k ?s ?o ?d] =>
    destruct (add_mix16B_ok a p k s o d) as [? ->]; [lia|lia|lia|lia|]; cbn [mbind option_bind]
  end.

Lemma len_17to128_64b_ok p n secret seed :
  136 <= zlen secret -> n <= zlen p -> 16 < n <= 128 -> exists h, XXH3_len_17to128_64b p n secret seed = Some h.
Proof.
  intros Hs Hp Hn. unfold XXH3_len_17to128_64b.
  destruct (Z.ltb_spec 32 n), (Z.ltb_spec 64 n), (Z.ltb_spec 96 n); try lia; cbn [mbind option_bind]; run_mixes; eauto.
Qed.

Lemma len_129to240_64b_ok p n secret seed :
  136 <= zlen secret -> n <= zlen p -> 128 < n <= 240 -> exists h, XXH3_len_129to240_64b p n secret seed = Some h.
Proof.
  intros Hs Hp Hn. unfold XXH3_len_129to240_64b, XXH3_MIDSIZE_STARTOFFSET.
  pose proof (Z.div_mod n 16). pose proof (Z.mod_pos_bound n 16).
  edestruct (for_loop_inv 8 0 (fun i acc => add_mix16B acc p (16 * i) secret (16 * i) seed) (fun _ => True))
    as (a & -> & _); [done| |cbn [mbind option_bind]].
  { intros k a Hk _. destruct (add_mix16B_ok a p (16 * k) secret (16 * k) seed) as [v ->]; eauto; lia. }
  edestruct (for_loop_inv (Z.to_nat (n / 16 - 8)) 8
    (fun i acc => add_mix16B acc p (16 * i) secret (16 * (i - 8) + 3) seed) (fun _ => True))
    as (a2 & -> & _); [done| |cbn [mbind option_bind]].
  { intros k a2 Hk _. destruct (add_mix16B_ok a2 p (16 * k) secret (16 * (k - 8) + 3) seed) as [v ->]; eauto; lia. }
  unfold XXH3_SECRET_SIZE_MIN, XXH3_MIDSIZE_LASTOFFSET. run_mixes. eauto.
Qed.

Lemma short64_ok p n secret secretLen seed f :
  136 <= zlen secret -> n <= zlen p -> 0 <= n <= 240 -> exists h, XXH3_64bits_internal p n seed secret secretLen f = Some h.
Proof.
  intros Hs Hp Hn. unfold XXH3_64bits_internal, XXH3_MIDSIZE_MAX. repeat case_bool; try lia.
  - apply len_0to16_64b_ok; lia.
  - apply len_17to128_64b_ok; lia.
  - apply len_129to240_64b_ok; lia.
Qed.

(** ** Accumulators *)

Lemma accumulate_512_same a p i q j secret soff :
  same_at p i q j 64 -> XXH3_accumulate_512 a p i secret soff = XXH3_accumulate_512 a q j secret soff.
Proof.
  intros H. unfold XXH3_accumulate_512. apply for_loop_ext. intros k s Hk.
  by rewrite (same_read64 p i q j 64 (8 * (0 + k))) by (done || lia).
Qed.

Lemma accumulate_512_ok a p i secret soff :
  length a = 8%nat -> 0 <= i -> i + 64 <= zlen p -> 0 <= soff -> soff + 64 <= zlen secret ->
  exists a', XXH3_accumulate_512 a p i secret soff = Some a' /\ length a' = 8%nat.
Proof.
  intros Ha ? ? ? ?. unfold XXH3_accumulate_512. apply for_loop_inv; [done|]. intros k s Hk Hs.
  run_reads. eexists. split; [done|]. unfold acc_add. by rewrite !length_alter.
Qed.

Lemma scrambleAcc_ok a secret soff :
  length a = 8%nat -> 0 <= soff -> soff + 64 <= zlen secret ->
  exists a', XXH3_scrambleAcc a secret soff = Some a' /\ length a' = 8%nat.
Proof.
  intros Ha ? ?. unfold XXH3_scrambleAcc. apply for_loop_inv; [done|]. intros k s Hk Hs.
  run_reads. eexists. split; [done|]. by rewrite length_alter.
Qed.

Lemma mergeAccs_ok a secret soff start :
  length a = 8%nat -> 0 <= soff -> soff + 64 <= zlen secret -> exists h, XXH3_mergeAccs a secret soff start = Some h.
Proof.
  intros Ha ? ?. unfold XXH3_mergeAccs.
  edestruct (for_loop_inv 4 0 (fun i result64 =>
    m ← XXH3_mix2Accs a (2 * i) secret (soff + 16 * i); Some (u64 (result64 + m))) (fun _ => True)) as (r & -> & _);
    [done| |cbn [mbind option_bind]; eauto].
  intros k s Hk _. unfold XXH3_mix2Accs.
  destruct (lookup_lt_is_Some_2 a (Z.to_nat (2 * k))) as [a0 ->]; [lia|].
  destruct (lookup_lt_is_Some_2 a (Z.to_nat (2 * k + 1))) as [a1 ->]; [lia|]. cbn [mbind option_bind].
  run_reads. eauto.
Qed.

(** ** Stripes and blocks *)

Section blocks.
Context (secret : list byte) (limit : Z) (Hlimit : 72 <= limit) (Hsecret : limit + 64 <= zlen secret).
Abbreviation perBlock := (limit / 8).

Lemma perBlock_range : 9 <= perBlock /\ 8 * perBlock <= limit.
Proof. pose proof (Z.div_mod limit 8). pose proof (Z.mod_pos_bound limit 8). lia. Qed.

(** What every path does with stripe [k] of [bs]: the secret moves on with the stripes
    of a block, and the end of a block scrambles the accumulators. *)
Definition stripe_step (bs : list byte) (k : Z) (a : list Z) : option (list Z) :=
  a ← XXH3_accumulate_512 a bs (64 * k) secret (8 * (k mod perBlock));
  if (k + 1) mod perBlock =? 0 then XXH3_scrambleAcc a secret limit else Some a.

Definition absorbed (bs : list byte) (k : Z) (n : nat) (a : list Z) : option (list Z) :=
  for_loop n k (stripe_step bs) a.

Lemma absorbed_app bs k n m a :
  absorbed bs k (n + m) a = a' ← absorbed bs k n a; absorbed bs (k + Z.of_nat n) m a'.
Proof. apply for_loop_app. Qed.

Lemma absorbed_same p bs k n a :
  same_at p (64 * k) bs (64 * k) (64 * Z.of_nat n) -> absorbed p k n a = absorbed bs k n a.
Proof.
  intros H. apply for_loop_ext. intros j s Hj. unfold stripe_step.
  rewrite (accumulate_512_same s p (64 * (k + j)) bs (64 * (k + j))); [done|].
  replace (64 * (k + j)) with (64 * k + j * 64) at 1 by lia. by eapply same_at_stripe.
Qed.

Lemma absorbed_ok bs k n a :
  length a = 8%nat -> 0 <= k -> 64 * (k + Z.of_nat n) <= zlen bs ->
  exists a', absorbed bs k n a = Some a' /\ length a' = 8%nat.
Proof.
  intros Ha Hk Hn. pose proof perBlock_range. apply for_loop_inv; [done|]. intros j s Hj Hs. unfold stripe_step.
  pose proof (Z.mod_pos_bound j perBlock).
  destruct (accumulate_512_ok s bs (64 * j) secret (8 * (j mod perBlock))) as (s1 & -> & H1); [done|lia..|].
  cbn [mbind option_bind]. case_bool; [|eauto]. by apply scrambleAcc_ok; [done|lia|].
Qed.

(** A stripe inside a block and the last one, when [j] others of the block precede. *)
Lemma step_inside p i bs k n j a :
  0 <= k -> 0 <= j < n -> k mod perBlock + j + 1 < perBlock -> same_at p i bs (64 * k) (64 * n) ->
  XXH3_accumulate_512 a p (i + j * 64) secret (k mod perBlock * 8 + j * 8) = stripe_step bs (k + j) a.
Proof.
  intros Hk Hj Hr H. pose proof perBlock_range. pose proof (Z.mod_pos_bound k perBlock ltac:(lia)). unfold stripe_step.
  assert ((k + j) mod perBlock = k mod perBlock + j) as ->.
  { rewrite <- Zplus_mod_idemp_l. apply Z.mod_small. lia. }
  assert ((k + j + 1) mod perBlock = k mod perBlock + j + 1) as ->.
  { rewrite <- !Z.add_assoc, <- Zplus_mod_idemp_l. rewrite Z.mod_small; lia. }
  rewrite (proj2 (Z.eqb_neq _ _)) by lia.
  rewrite (accumulate_512_same a p (i + j * 64) bs (64 * (k + j))) by (by eapply same_at_stripe).
  replace (k mod perBlock * 8 + j * 8) with (8 * (k mod perBlock + j)) by lia.
  by destruct (XXH3_accumulate_512 _ _ _ _ _).
Qed.

Lemma step_last p i bs k n j a :
  0 <= k -> 0 <= j < n -> k mod perBlock + j + 1 = perBlock -> same_at p i bs (64 * k) (64 * n) ->
  (a' ← XXH3_accumulate_512 a p (i + j * 64) secret (k mod perBlock * 8 + j * 8); XXH3_scrambleAcc a' secret limit) =
  stripe_step bs (k + j) a.
Proof.
  intros Hk Hj Hr H. pose proof perBlock_range. pose proof (Z.mod_pos_bound k perBlock ltac:(lia)). unfold stripe_step.
  assert ((k + j) mod perBlock = k mod perBlock + j) as ->.
  { rewrite <- Zplus_mod_idemp_l. apply Z.mod_small. lia. }
  assert ((k + j + 1) mod perBlock = 0) as ->.
  { rewrite <- !Z.add_assoc, <- Zplus_mod_idemp_l. replace (k mod perBlock + (j + 1)) with (1 * perBlock) by lia.
    apply Z_mod_mult. }
  rewrite (accumulate_512_same a p (i + j * 64) bs (64 * (k + j))) by (by eapply same_at_stripe).
  by replace (k mod perBlock * 8 + j * 8) with (8 * (k mod perBlock + j)) by lia.
Qed.

(** Stripes inside a block. *)
Lemma accumulate_absorbed p i bs k n a :
  0 <= k -> k mod perBlock + Z.of_nat n < perBlock -> same_at p i bs (64 * k) (64 * Z.of_nat n) ->
  XXH3_accumulate a p i secret (k mod perBlock * 8) (Z.of_nat n) = absorbed bs k n a.
Proof.
  intros Hk Hr H. unfold XXH3_accumulate. rewrite Nat2Z.id. apply for_loop_ext. intros j s Hj.
  apply (step_inside _ _ _ _ (Z.of_nat n)); [done|lia|lia|done].
Qed.

(** Stripes to the end of a block. *)
Lemma block_end_absorbed p i bs k n a :
  0 <= k -> k mod perBlock + Z.of_nat n = perBlock -> same_at p i bs (64 * k) (64 * Z.of_nat n) ->
  (a' ← XXH3_accumulate a p i secret (k mod perBlock * 8) (Z.of_nat n); XXH3_scrambleAcc a' secret limit) =
  absorbed bs k n a.
Proof.
  intros Hk Hr H. pose proof perBlock_range. pose proof (Z.mod_pos_bound k perBlock ltac:(lia)).
  destruct n as [|m]; [lia|]. replace (S m) with (m + 1)%nat in * by lia.
  rewrite absorbed_app, <- (accumulate_absorbed p i bs k m a) by (lia || (eapply same_at_shorter; [exact H|lia])).
  unfold XXH3_accumulate. rewrite !Nat2Z.id, for_loop_app.
  destruct (for_loop m 0 _ a) as [a1|]; [|done]. unfold absorbed. cbn [mbind option_bind for_loop].
  rewrite <- (step_last p i bs k (Z.of_nat (m + 1)) (Z.of_nat m) a1) by (done || lia). rewrite Z.add_0_l.
  unfold XXH_STRIPE_LEN, XXH_SECRET_CONSUME_RATE.
  destruct (XXH3_accumulate_512 _ _ _ _ _) as [a2|]; [|done]. cbn [mbind option_bind].
  by destruct (XXH3_scrambleAcc a2 secret limit).
Qed.

(** ** The one-shot function, on absorbed stripes *)

Lemma blocks_absorbed p nb a :
  64 * perBlock * Z.of_nat nb <= zlen p ->
  for_loop nb 0 (fun n a =>
    a ← XXH3_accumulate a p (n * (64 * perBlock)) secret 0 perBlock; XXH3_scrambleAcc a secret limit) a =
  absorbed p 0 (nb * Z.to_nat perBlock) a.
Proof.
  pose proof perBlock_range. induction nb as [|nb IH]; intros Hn; [done|].
  replace (S nb) with (nb + 1)%nat by lia. rewrite for_loop_app, IH by lia.
  replace ((nb + 1) * Z.to_nat perBlock)%nat with (nb * Z.to_nat perBlock + Z.to_nat perBlock)%nat by lia.
  rewrite absorbed_app. destruct (absorbed p 0 _ a) as [a1|]; [|done]. cbn [mbind option_bind for_loop].
  assert (0 + Z.of_nat (nb * Z.to_nat perBlock) = Z.of_nat nb * perBlock) as -> by lia.
  assert (Z.of_nat nb * perBlock mod perBlock = 0) as E by apply Z_mod_mult.
  rewrite <- (block_end_absorbed p (Z.of_nat nb * (64 * perBlock))).
  - rewrite E, Z2Nat.id by lia. cbn [Z.mul Z.add].
    destruct (XXH3_accumulate _ _ _ _ _ _) as [a2|]; [|done]. cbn [mbind option_bind].
    by destruct (XXH3_scrambleAcc a2 secret limit).
  - lia.
  - rewrite E. lia.
  - replace (64 * (Z.of_nat nb * perBlock)) with (Z.of_nat nb * (64 * perBlock)) by lia. split; [split; nia|split; nia|done].
Qed.

Lemma hashLong_loop_absorbed p len a :
  64 < len -> len <= zlen p ->
  XXH3_hashLong_internal_loop a p len secret (limit + 64) =
  a ← absorbed p 0 (Z.to_nat ((len - 1) / 64)) a;
  XXH3_accumulate_512 a p (len - 64) secret (limit - 7).
Proof.
  intros H1 H2. pose proof perBlock_range. unfold XXH3_hashLong_internal_loop, XXH_STRIPE_LEN, XXH_SECRET_CONSUME_RATE, XXH_SECRET_LASTACC_START.
  replace (limit + 64 - 64) with limit by lia. set (pb := limit / 8) in *.
  set (m := (len - 1) / 64). assert (0 <= m /\ 64 * m <= len - 1) as [? ?]
    by (unfold m; pose proof (Z.div_mod (len - 1) 64); pose proof (Z.mod_pos_bound (len - 1) 64); lia).
  assert ((len - 1) / (64 * pb) = m / pb) as -> by (unfold m; rewrite Z.div_div; lia).
  pose proof (Z.div_mod m pb ltac:(lia)) as Em. pose proof (Z.mod_pos_bound m pb ltac:(lia)).
  assert (0 <= m / pb) by (apply Z.div_pos; lia).
  assert ((len - 1 - 64 * pb * (m / pb)) / 64 = m mod pb) as ->.
  { replace (len - 1 - 64 * pb * (m / pb)) with (len - 1 + - (pb * (m / pb)) * 64) by lia.
    rewrite Z.div_add by lia. fold m. lia. }
  pose proof (blocks_absorbed p (Z.to_nat (m / pb)) a) as Eb. fold pb in Eb. rewrite Eb by (rewrite Z2Nat.id; nia). clear Eb.
  replace (Z.to_nat m) with (Z.to_nat (m / pb) * Z.to_nat pb + Z.to_nat (m mod pb))%nat by (rewrite Em at 3; lia).
  rewrite absorbed_app. destruct (absorbed p 0 _ a) as [a1|]; [|done]. cbn [mbind option_bind].
  assert (0 + Z.of_nat (Z.to_nat (m / pb) * Z.to_nat pb) = m / pb * pb) as -> by nia.
  assert (m / pb * pb mod pb = 0) as E by apply Z_mod_mult.
  rewrite <- (accumulate_absorbed p (m / pb * (64 * pb))).
  - fold pb. rewrite E, Z2Nat.id by lia. done.
  - nia.
  - fold pb. rewrite E. lia.
  - replace (64 * (m / pb * pb)) with (m / pb * (64 * pb)) by lia. rewrite Z2Nat.id by lia. split; [split; nia|split; nia|done].
Qed.
End blocks.

(** ** The long multiplication *)

Lemma land_ones32 n : Z.land n 0xFFFFFFFF = n mod 2 ^ 32.
Proof. change 0xFFFFFFFF with (Z.ones 32). by rewrite Z.land_ones. Qed.

Lemma mult32to64_eq x y : 0 <= x < 2 ^ 32 -> 0 <= y < 2 ^ 32 -> XXH_mult32to64 x y = x * y.
Proof. intros. unfold XXH_mult32to64. rewrite !u32_id by lia. apply u64_id. nia. Qed.

Lemma shiftr32 n : Z.shiftr n 32 = n / 2 ^ 32.
Proof. by rewrite Z.shiftr_div_pow2. Qed.

(** The two halves of a word are apart. *)
Lemma lor_halves q r : 0 <= r < 2 ^ 32 -> Z.lor (Z.shiftl q 32) r = q * 2 ^ 32 + r.
Proof.
  intros Hr. rewrite <- (Z.shiftl_mul_pow2 q 32) by lia.
  assert (Z.land (Z.shiftl q 32) r = 0) as E.
  { apply Z.bits_inj'. intros n Hn. rewrite Z.land_spec, Z.bits_0. destruct (Z_lt_le_dec n 32).
    - by rewrite Z.shiftl_spec_low.
    - rewrite <- (Z.mod_small r (2 ^ 32)) by lia. rewrite Z.mod_pow2_bits_high by lia. apply andb_false_r. }
  by rewrite <- Z.lxor_lor, <- Z.add_nocarry_lxor.
Qed.

Lemma mul_halves x y B : 0 < B -> 0 <= x < B -> 0 <= y < B ->
  0 <= x * y <= (B - 1) * (B - 1) /\ 0 <= x * y / B < B - 1 + Z.b2z (B =? 1) /\ 0 <= (x * y) mod B < B /\
  x * y = B * (x * y / B) + (x * y) mod B.
Proof.
  intros HB Hx Hy. assert (0 <= x * y <= (B - 1) * (B - 1)) as Hm.
  { split; [apply Z.mul_nonneg_nonneg; lia|apply Z.mul_le_mono_nonneg; lia]. }
  split_and!; try lia.
  - apply Z.div_pos; lia.
  - apply Z.div_lt_upper_bound; [done|]. destruct (Z.eqb_spec B 1); cbn; lia.
  - apply Z.mod_pos_bound. lia.
  - apply Z.mod_pos_bound. lia.
  - apply Z.div_mod. lia.
Qed.

(** The sums of the portable version do not overflow, so it is the product. *)
Lemma mult64to128_portable_eq lhs rhs :
  0 <= lhs < 2 ^ 64 -> 0 <= rhs < 2 ^ 64 -> XXH_mult64to128_portable lhs rhs = XXH_mult64to128 lhs rhs.
Proof.
  intros Hl Hr. unfold XXH_mult64to128_portable, XXH_mult64to128.
  rewrite !land_ones32, !shiftr32.
  pose proof (Z.div_mod lhs (2 ^ 32) ltac:(lia)) as El. pose proof (Z.mod_pos_bound lhs (2 ^ 32) ltac:(lia)).
  pose proof (Z.div_mod rhs (2 ^ 32) ltac:(lia)) as Er. pose proof (Z.mod_pos_bound rhs (2 ^ 32) ltac:(lia)).
  set (a := lhs / 2 ^ 32) in *. set (b := lhs mod 2 ^ 32) in *. set (c := rhs / 2 ^ 32) in *. set (d := rhs mod 2 ^ 32) in *.
  assert (0 <= a < 2 ^ 32) by lia. assert (0 <= c < 2 ^ 32) by lia.
  clearbody a b c d. subst lhs rhs. rewrite !mult32to64_eq by lia. clear Hl Hr.
  destruct (mul_halves b d (2 ^ 32)) as (_ & ? & ? & Ebd); [lia..|]. destruct (mul_halves a d (2 ^ 32)) as (_ & ? & ? & Ead); [lia..|].
  destruct (mul_halves b c (2 ^ 32)) as (? & _); [lia..|]. destruct (mul_halves a c (2 ^ 32)) as (? & _); [lia..|].
  replace ((2 ^ 32 * a + b) * (2 ^ 32 * c + d)) with (a * c * 2 ^ 64 + (a * d + b * c) * 2 ^ 32 + b * d) by lia.
  set (bd := b * d) in *. set (ad := a * d) in *. set (bc := b * c) in *. set (ac := a * c) in *. clearbody bd ad bc ac.
  cbn [Z.b2z] in *. change (2 ^ 32 =? 1) with false in *. cbn [Z.b2z] in *.
  set (cross := bd / 2 ^ 32 + ad mod 2 ^ 32 + bc) in *. assert (0 <= cross < 2 ^ 64) by (unfold cross; lia).
  rewrite (u64_id cross) by lia.
  pose proof (Z.div_mod cross (2 ^ 32) ltac:(lia)). pose proof (Z.mod_pos_bound cross (2 ^ 32) ltac:(lia)).
  assert (0 <= cross / 2 ^ 32 < 2 ^ 32) by (split; [apply Z.div_pos; lia|apply Z.div_lt_upper_bound; lia]).
  rewrite (u64_id (ad / 2 ^ 32 + _ + _)) by lia.
  assert (u64 (Z.shiftl cross 32) = Z.shiftl (cross mod 2 ^ 32) 32) as ->.
  { rewrite !Z.shiftl_mul_pow2 by lia. unfold wrap. change (2 ^ 64) with (2 ^ 32 * 2 ^ 32). by rewrite Z.mul_mod_distr_r. }
  rewrite lor_halves by lia.
  set (upper := ad / 2 ^ 32 + cross / 2 ^ 32 + ac) in *. set (lower := cross mod 2 ^ 32 * 2 ^ 32 + bd mod 2 ^ 32).
  assert (ac * 2 ^ 64 + (ad + bc) * 2 ^ 32 + bd = upper * 2 ^ 64 + lower) as -> by (unfold upper, lower, cross in *; lia).
  assert (0 <= lower < 2 ^ 64) by (unfold lower; lia). assert (0 <= upper < 2 ^ 64) by (unfold upper; lia).
  rewrite (wrap_id 128) by lia. rewrite Z.shiftr_div_pow2, Z.div_add_l, (Z.div_small lower), Z.add_0_r by lia.
  rewrite (u64_id upper) by lia. f_equal. unfold wrap. rewrite Z.add_comm, Z_mod_plus_full. by rewrite Z.mod_small by lia.
Qed.

(** ** The secret of a seed *)

Lemma write_next (s : list byte) k v :
  0 <= k -> k + 8 <= zlen s ->
  exists s', XXH_writeLE64 s k v = Some s' /\ zlen s' = zlen s /\
    take (Z.to_nat (k + 8)) s' = take (Z.to_nat k) s ++ le_bytes 8 v.
Proof.
  intros. unfold XXH_writeLE64. rewrite mem_write_ok by (rewrite ?zlen_le_bytes; lia). eexists. split; [done|].
  split; [apply zlen_overwrite; rewrite ?zlen_le_bytes; lia|].
  pose proof (take_overwrite_fill s (take (Z.to_nat k) s) (le_bytes 8 v) k) as E. rewrite zlen_le_bytes in E.
  apply E; [done|rewrite zlen_take; lia|lia].
Qed.

(** The array is filled, whatever was in it. *)
Lemma initCustomSecret_ok s t seed :
  zlen s = 192 -> zlen t = 192 ->
  exists r, XXH3_initCustomSecret s seed = Some r /\ XXH3_initCustomSecret t seed = Some r /\ zlen r = 192.
Proof.
  intros Hs Ht. unfold XXH3_initCustomSecret.
  destruct (for_loop_inv2 12 0 (fun i secret =>
    lo ← read64 XXH3_kSecret (16 * i);
    hi ← read64 XXH3_kSecret (16 * i + 8);
    secret ← XXH_writeLE64 secret (16 * i) (u64 (lo + seed));
    XXH_writeLE64 secret (16 * i + 8) (u64 (hi - seed)))
    (fun i s t => zlen s = 192 /\ zlen t = 192 /\ take (Z.to_nat (16 * i)) s = take (Z.to_nat (16 * i)) t) s t)
    as (s' & t' & -> & -> & L1 & L2 & E).
  - done.
  - intros k s1 t1 Hk (L1 & L2 & E). pose proof kSecret_len.
    destruct (read64_ok XXH3_kSecret (16 * k)) as [lo ->]; [lia|lia|].
    destruct (read64_ok XXH3_kSecret (16 * k + 8)) as [hi ->]; [lia|lia|]. cbn [mbind option_bind].
    destruct (write_next s1 (16 * k) (u64 (lo + seed))) as (s2 & -> & ? & E1); [lia|lia|].
    destruct (write_next t1 (16 * k) (u64 (lo + seed))) as (t2 & -> & ? & E2); [lia|lia|]. cbn [mbind option_bind].
    destruct (write_next s2 (16 * k + 8) (u64 (hi - seed))) as (s3 & -> & ? & E3); [lia|lia|].
    destruct (write_next t2 (16 * k + 8) (u64 (hi - seed))) as (t3 & -> & ? & E4); [lia|lia|].
    exists s3, t3. split_and!; try done; try lia. replace (16 * (k + 1)) with (16 * k + 8 + 8) by lia.
    rewrite E3, E4, E1, E2, E. done.
  - change (16 * (0 + Z.of_nat 12)) with 192 in E. rewrite !take_ge in E by (unfold zlen in *; lia). subst t'. eauto.
Qed.

(** The function for long inputs is not called on short ones. *)
Lemma short64_any p n secret secretLen secretLen' seed f g :
  n <= 240 -> XXH3_64bits_internal p n seed secret secretLen f = XXH3_64bits_internal p n seed secret secretLen' g.
Proof. intros. unfold XXH3_64bits_internal, XXH3_MIDSIZE_MAX. repeat case_bool; done || lia. Qed.

(** ** Ranges *)

Lemma bind_post {A B} (P : B -> Prop) (m : option A) (k : A -> option B) :
  (forall x, m = Some x -> forall y, k x = Some y -> P y) -> forall y, m ≫= k = Some y -> P y.
Proof. intros H y. destruct m; [by apply H|done]. Qed.

Lemma some_post {A} (P : A -> Prop) (x : A) : P x -> forall y, Some x = Some y -> P y.
Proof. by intros ? y [= <-]. Qed.

(** Reduces a property of what a computation returns to its last step. *)
Ltac to_result :=
  cbv zeta; repeat (first [apply bind_post; intros ? ? | case_bool]); try (apply some_post).

Lemma avalanche3_range h : 0 <= XXH3_avalanche h < 2 ^ 64.
Proof. apply lxor_shift_range; [lia|lia|apply wrap_range; lia]. Qed.

Lemma rrmxmx_range h len : 0 <= XXH3_rrmxmx h len < 2 ^ 64.
Proof. apply lxor_shift_range; [lia|lia|apply wrap_range; lia]. Qed.

Lemma avalanche_range' h : 0 <= XXH64_avalanche h < 2 ^ 64.
Proof. apply lxor_shift_range; [lia|lia|apply wrap_range; lia]. Qed.

#[export] Hint Resolve avalanche3_range rrmxmx_range avalanche_range' : kanon.

Lemma mergeAccs_range acc secret soff start : forall h, XXH3_mergeAccs acc secret soff start = Some h -> 0 <= h < 2 ^ 64.
Proof. unfold XXH3_mergeAccs. to_result. auto with kanon. Qed.

Lemma XXH3_64bits_range input len : forall h, XXH3_64bits input len = Some h -> 0 <= h < 2 ^ 64.
Proof.
  unfold XXH3_64bits, XXH3_64bits_internal, XXH3_len_0to16_64b, XXH3_len_1to3_64b, XXH3_len_4to8_64b, XXH3_len_9to16_64b,
    XXH3_len_17to128_64b, XXH3_len_129to240_64b, XXH3_hashLong_64b_default, XXH3_hashLong_64b_internal.
  to_result; auto with kanon.
Qed.
