(* ===== verification/XXH128.v ===== *)
(** * XXH3 with 128 bits: third-party/xxHash/xxhash.h

    The variant of XXH3 with a result of 128 bits, its comparison and canonical form,
    and the generators of secrets, over the accumulators of XXH3.v. *)

From Stdlib Require Import ZArith Lia.
From S2P Require Import Prelude Endian Stripes XXHash XXH64 XXH3.

(** ** Up to 16 bytes *)

Definition XXH3_len_1to3_128b (input : list byte) (len : Z) (secret : list byte) (seed : Z) : option XXH128_hash :=
  c1 ← read8 input 0;
  c2 ← read8 input (Z.shiftr len 1);
  c3 ← read8 input (len - 1);
  let combinedl := Z.lor (Z.lor (Z.lor (Z.shiftl c1 16) (Z.shiftl c2 24)) (Z.shiftl c3 0)) (Z.shiftl (u32 len) 8) in
  let combinedh := XXH_rotl32 (XXH_swap32 combinedl) 13 in
  s0 ← read32 secret 0;
  s4 ← read32 secret 4;
  s8 ← read32 secret 8;
  s12 ← read32 secret 12;
  let bitflipl := u64 (Z.lxor s0 s4 + seed) in
  let bitfliph := u64 (Z.lxor s8 s12 - seed) in
  let keyed_lo := Z.lxor combinedl bitflipl in
  let keyed_hi := Z.lxor combinedh bitfliph in
  Some (mkHash128 (XXH64_avalanche keyed_lo) (XXH64_avalanche keyed_hi)).

Definition XXH3_len_4to8_128b (input : list byte) (len : Z) (secret : list byte) (seed : Z) : option XXH128_hash :=
  let seed := Z.lxor seed (u64 (Z.shiftl (XXH_swap32 (u32 seed)) 32)) in
  input_lo ← read32 input 0;
  input_hi ← read32 input (len - 4);
  let input_64 := u64 (input_lo + u64 (Z.shiftl input_hi 32)) in
  s16 ← read64 secret 16;
  s24 ← read64 secret 24;
  let bitflip := u64 (Z.lxor s16 s24 + seed) in
  let keyed := Z.lxor input_64 bitflip in
  let m128 := XXH_mult64to128 keyed (u64 (XXH_PRIME64_1 + u64 (Z.shiftl len 2))) in
  let high := u64 (high64 m128 + u64 (Z.shiftl (low64 m128) 1)) in
  let low := Z.lxor (low64 m128) (Z.shiftr high 3) in
  let low := XXH_xorshift64 low 35 in
  let low := u64 (low * 0x9FB21C651E98DF25) in
  let low := XXH_xorshift64 low 28 in
  Some (mkHash128 low (XXH3_avalanche high)).

(** What is added to the high half of the product, on 64-bit targets and on 32-bit
    ones. *)
Definition mix_high (input_hi : Z) : Z := u64 (input_hi + XXH_mult32to64 (u32 input_hi) (XXH_PRIME32_2 - 1)).
Definition mix_high_32 (input_hi : Z) : Z :=
  u64 (Z.land input_hi 0xFFFFFFFF00000000 + XXH_mult32to64 (u32 input_hi) XXH_PRIME32_2).

Definition XXH3_len_9to16_128b (input : list byte) (len : Z) (secret : list byte) (seed : Z) : option XXH128_hash :=
  s32 ← read64 secret 32;
  s40 ← read64 secret 40;
  s48 ← read64 secret 48;
  s56 ← read64 secret 56;
  let bitflipl := u64 (Z.lxor s32 s40 - seed) in
  let bitfliph := u64 (Z.lxor s48 s56 + seed) in
  input_lo ← read64 input 0;
  input_hi ← read64 input (len - 8);
  let m128 := XXH_mult64to128 (Z.lxor (Z.lxor input_lo input_hi) bitflipl) XXH_PRIME64_1 in
  let low := u64 (low64 m128 + u64 (Z.shiftl (len - 1) 54)) in
  let input_hi := Z.lxor input_hi bitfliph in
  let high := u64 (high64 m128 + mix_high input_hi) in
  let low := Z.lxor low (XXH_swap64 high) in
  let h128 := XXH_mult64to128 low XXH_PRIME64_2 in
  let h := u64 (high64 h128 + u64 (high * XXH_PRIME64_2)) in
  Some (mkHash128 (XXH3_avalanche (low64 h128)) (XXH3_avalanche h)).

Definition XXH3_len_0to16_128b (input : list byte) (len : Z) (secret : list byte) (seed : Z) : option XXH128_hash :=
  if 8 <? len then XXH3_len_9to16_128b input len secret seed
  else if 4 <=? len then XXH3_len_4to8_128b input len secret seed
  else if negb (len =? 0) then XXH3_len_1to3_128b input len secret seed
  else
    s64 ← read64 secret 64;
    s72 ← read64 secret 72;
    s80 ← read64 secret 80;
    s88 ← read64 secret 88;
    let bitflipl := Z.lxor s64 s72 in
    let bitfliph := Z.lxor s80 s88 in
    Some (mkHash128 (XXH64_avalanche (Z.lxor seed bitflipl)) (XXH64_avalanche (Z.lxor seed bitfliph))).

(** ** Up to 240 bytes *)

Definition XXH128_mix32B (acc : XXH128_hash) (input : list byte) (input_1 input_2 : Z) (secret : list byte) (soff seed : Z)
  : option XXH128_hash :=
  low ← add_mix16B (low64 acc) input input_1 secret soff seed;
  a ← read64 input input_2;
  b ← read64 input (input_2 + 8);
  let low := Z.lxor low (u64 (a + b)) in
  high ← add_mix16B (high64 acc) input input_2 secret (soff + 16) seed;
  a ← read64 input input_1;
  b ← read64 input (input_1 + 8);
  let high := Z.lxor high (u64 (a + b)) in
  Some (mkHash128 low high).

(** The end of both length classes. *)
Definition finish_mid (acc : XXH128_hash) (len seed : Z) : XXH128_hash :=
  let low := u64 (low64 acc + high64 acc) in
  let high := u64 (u64 (low64 acc * XXH_PRIME64_1) + u64 (high64 acc * XXH_PRIME64_4)
                   + u64 (u64 (len - seed) * XXH_PRIME64_2)) in
  mkHash128 (XXH3_avalanche low) (u64 (0 - XXH3_avalanche high)).

Definition XXH3_len_17to128_128b (input : list byte) (len : Z) (secret : list byte) (seed : Z) : option XXH128_hash :=
  let mix acc i1 i2 soff := XXH128_mix32B acc input i1 i2 secret soff seed in
  let acc := mkHash128 (u64 (len * XXH_PRIME64_1)) 0 in
  acc ←
    (if 32 <? len then
      acc ←
        (if 64 <? len then
          acc ← (if 96 <? len then mix acc 48 (len - 64) 96 else Some acc);
          mix acc 32 (len - 48) 64
        else Some acc);
      mix acc 16 (len - 32) 32
    else Some acc);
  acc ← mix acc 0 (len - 16) 0;
  Some (finish_mid acc len seed).

Definition XXH3_len_129to240_128b (input : list byte) (len : Z) (secret : list byte) (seed : Z) : option XXH128_hash :=
  let nbRounds := len / 32 in
  let acc := mkHash128 (u64 (len * XXH_PRIME64_1)) 0 in
  acc ← for_loop 4 0 (fun i acc => XXH128_mix32B acc input (32 * i) (32 * i + 16) secret (32 * i) seed) acc;
  let acc := mkHash128 (XXH3_avalanche (low64 acc)) (XXH3_avalanche (high64 acc)) in
  acc ← for_loop (Z.to_nat (nbRounds - 4)) 4 (fun i acc =>
    XXH128_mix32B acc input (32 * i) (32 * i + 16) secret (XXH3_MIDSIZE_STARTOFFSET + 32 * (i - 4)) seed) acc;
  acc ← XXH128_mix32B acc input (len - 16) (len - 32) secret
    (XXH3_SECRET_SIZE_MIN - XXH3_MIDSIZE_LASTOFFSET - 16) (u64 (0 - seed));
  Some (finish_mid acc len seed).

(** ** Longer inputs *)

(** The two ends of the secret give the two halves. *)
Definition merge128 (acc : list Z) (len : Z) (secret : list byte) (secretSize : Z) : option XXH128_hash :=
  low ← XXH3_mergeAccs acc secret XXH_SECRET_MERGEACCS_START (u64 (len * XXH_PRIME64_1));
  high ← XXH3_mergeAccs acc secret (secretSize - 64 - XXH_SECRET_MERGEACCS_START)
    (u64 (Z.lnot (u64 (len * XXH_PRIME64_2))));
  Some (mkHash128 low high).

Definition XXH3_hashLong_128b_internal (input : list byte) (len : Z) (secret : list byte) (secretSize : Z) : option XXH128_hash :=
  acc ← XXH3_hashLong_internal_loop XXH3_INIT_ACC input len secret secretSize;
  merge128 acc len secret secretSize.

Definition XXH3_hashLong_128b_withSecret : hashLong_f XXH128_hash :=
  fun input len _ secret secretLen => XXH3_hashLong_128b_internal input len secret secretLen.

Definition XXH3_hashLong_128b_default : hashLong_f XXH128_hash :=
  fun input len _ _ _ => XXH3_hashLong_128b_internal input len XXH3_kSecret (zlen XXH3_kSecret).

Definition XXH3_hashLong_128b_withSeed_internal (input : list byte) (len seed64 : Z) : option XXH128_hash :=
  if seed64 =? 0 then XXH3_hashLong_128b_internal input len XXH3_kSecret (zlen XXH3_kSecret)
  else
    secret ← XXH3_initCustomSecret (repeat x00 192) seed64;
    XXH3_hashLong_128b_internal input len secret (zlen secret).

Definition XXH3_hashLong_128b_withSeed : hashLong_f XXH128_hash :=
  fun input len seed64 _ _ => XXH3_hashLong_128b_withSeed_internal input len seed64.

Definition XXH3_128bits_internal (input : list byte) (len seed64 : Z) (secret : list byte) (secretLen : Z)
    (f_hl128 : hashLong_f XXH128_hash) : option XXH128_hash :=
  if len <=? 16 then XXH3_len_0to16_128b input len secret seed64
  else if len <=? 128 then XXH3_len_17to128_128b input len secret seed64
  else if len <=? XXH3_MIDSIZE_MAX then XXH3_len_129to240_128b input len secret seed64
  else f_hl128 input len seed64 secret secretLen.

Definition XXH3_128bits (input : list byte) (len : Z) : option XXH128_hash :=
  XXH3_128bits_internal input len 0 XXH3_kSecret (zlen XXH3_kSecret) XXH3_hashLong_128b_default.

Definition XXH3_128bits_withSecret (input : list byte) (len : Z) (secret : list byte) (secretSize : Z) : option XXH128_hash :=
  XXH3_128bits_internal input len 0 secret secretSize XXH3_hashLong_128b_withSecret.

Definition XXH3_128bits_withSeed (input : list byte) (len seed : Z) : option XXH128_hash :=
  XXH3_128bits_internal input len seed XXH3_kSecret (zlen XXH3_kSecret) XXH3_hashLong_128b_withSeed.

Definition XXH3_128bits_withSecretandSeed (input : list byte) (len : Z) (secret : list byte) (secretSize seed : Z)
  : option XXH128_hash :=
  if len <=? XXH3_MIDSIZE_MAX then XXH3_128bits_internal input len seed XXH3_kSecret (zlen XXH3_kSecret) null_f
  else XXH3_hashLong_128b_withSecret input len seed secret secretSize.

Definition XXH128 (input : list byte) (len seed : Z) : option XXH128_hash := XXH3_128bits_withSeed input len seed.

(** ** Comparison and canonical form *)

(** The object compared by [memcmp]: its two words as they are stored. *)
Definition hash_bytes (h : XXH128_hash) : list byte := le_bytes 8 (low64 h) ++ le_bytes 8 (high64 h).

Definition XXH128_isEqual (h1 h2 : XXH128_hash) : bool := bool_decide (hash_bytes h1 = hash_bytes h2).

Definition XXH128_cmp (h1 h2 : XXH128_hash) : Z :=
  let hcmp := Z.b2z (high64 h2 <? high64 h1) - Z.b2z (high64 h1 <? high64 h2) in
  if negb (hcmp =? 0) then hcmp
  else Z.b2z (low64 h2 <? low64 h1) - Z.b2z (low64 h1 <? low64 h2).

Definition XXH128_canonicalFromHash (hash : XXH128_hash) : list byte :=
  le_bytes 8 (XXH_swap64 (high64 hash)) ++ le_bytes 8 (XXH_swap64 (low64 hash)).

Definition XXH128_hashFromCanonical (src : list byte) : option XXH128_hash :=
  high ← read64 src 0;
  low ← read64 src 8;
  Some (mkHash128 (XXH_swap64 low) (XXH_swap64 high)).

(** ** Secret generators *)

Definition XXH3_combine16 (dst : list byte) (off : Z) (h128 : XXH128_hash) : option (list byte) :=
  a ← read64 dst off;
  dst ← XXH_writeLE64 dst off (Z.lxor a (low64 h128));
  b ← read64 dst (off + 8);
  XXH_writeLE64 dst (off + 8) (Z.lxor b (high64 h128)).

(** [while (pos < secretSize)]; a pass copies at least a byte. *)
Fixpoint fill_secret (fuel : nat) (secretBuffer customSeed : list byte) (customSeedSize secretSize pos : Z)
  : option (list byte) :=
  if pos <? secretSize then
    match fuel with
    | O => None
    | S fuel =>
      let toCopy := Z.min (secretSize - pos) customSeedSize in
      bs ← mem_read customSeed 0 toCopy;
      secretBuffer ← mem_write secretBuffer pos bs;
      fill_secret fuel secretBuffer customSeed customSeedSize secretSize (pos + toCopy)
    end
  else Some secretBuffer.

(** The error code ([None] stands for a null pointer), or the secret. *)
Definition XXH3_generateSecret (secretBuffer : option (list byte)) (secretSize : Z) (customSeed : option (list byte))
    (customSeedSize : Z) : option (option (list byte)) :=
  match secretBuffer with
  | None => Some None
  | Some secretBuffer =>
    if secretSize <? XXH3_SECRET_SIZE_MIN then Some None
    else
      let '(customSeed, customSeedSize) :=
        if customSeedSize =? 0 then (Some XXH3_kSecret, XXH_SECRET_DEFAULT_SIZE)
        else (customSeed, customSeedSize) in
      match customSeed with
      | None => Some None
      | Some customSeed =>
        secretBuffer ← fill_secret (Z.to_nat secretSize) secretBuffer customSeed customSeedSize secretSize 0;
        h ← XXH128 customSeed customSeedSize 0;
        let scrambler := XXH128_canonicalFromHash h in
        secretBuffer ← for_loop (Z.to_nat (secretSize / 16)) 0 (fun n secretBuffer =>
          h128 ← XXH128 scrambler 16 n;
          XXH3_combine16 secretBuffer (n * 16) h128) secretBuffer;
        h ← XXH128_hashFromCanonical scrambler;
        secretBuffer ← XXH3_combine16 secretBuffer (secretSize - 16) h;
        Some (Some secretBuffer)
      end
  end.

Definition XXH3_generateSecret_fromSeed (secretBuffer : list byte) (seed : Z) : option (list byte) :=
  secret ← XXH3_initCustomSecret (repeat x00 192) seed;
  bs ← mem_read secret 0 XXH_SECRET_DEFAULT_SIZE;
  mem_write secretBuffer 0 bs.

(** ** Short inputs *)

Lemma mix32B_prefix p q n a i1 i2 secret soff seed :
  same_at p 0 q 0 n -> 0 <= i1 -> i1 + 16 <= n -> 0 <= i2 -> i2 + 16 <= n ->
  XXH128_mix32B a p i1 i2 secret soff seed = XXH128_mix32B a q i1 i2 secret soff seed.
Proof.
  intros H ? ? ? ?. unfold XXH128_mix32B. prefix_reads H p.
  rewrite (add_mix16B_prefix p q n _ i1), (add_mix16B_prefix p q n _ i2) by (done || lia). done.
Qed.

Lemma mix32B_ok a p i1 i2 secret soff seed :
  0 <= i1 -> i1 + 16 <= zlen p -> 0 <= i2 -> i2 + 16 <= zlen p -> 0 <= soff -> soff + 32 <= zlen secret ->
  exists h, XXH128_mix32B a p i1 i2 secret soff seed = Some h.
Proof.
  intros. unfold XXH128_mix32B.
  destruct (add_mix16B_ok (low64 a) p i1 secret soff seed) as [? ->]; [lia..|].
  destruct (add_mix16B_ok (high64 a) p i2 secret (soff + 16) seed) as [? ->]; [lia..|]. cbn [mbind option_bind].
  run_reads. eauto.
Qed.

Lemma short128_prefix p q n secret secretLen seed f :
  same_at p 0 q 0 n -> 0 <= n <= 240 ->
  XXH3_128bits_internal p n seed secret secretLen f = XXH3_128bits_internal q n seed secret secretLen f.
Proof.
  intros H Hn. unfold XXH3_128bits_internal, XXH3_MIDSIZE_MAX. repeat case_bool; try lia.
  - unfold XXH3_len_0to16_128b, XXH3_len_9to16_128b, XXH3_len_4to8_128b, XXH3_len_1to3_128b.
    destruct (half_range n) as [? ?]; [lia|]. repeat case_bool; try done; by prefix_reads H p.
  - unfold XXH3_len_17to128_128b.
    destruct (Z.ltb_spec 32 n), (Z.ltb_spec 64 n), (Z.ltb_spec 96 n); try lia;
      same_steps ltac:(apply (mix32B_prefix _ _ n); (done || lia)).
  - unfold XXH3_len_129to240_128b. pose proof (Z.div_mod n 32). pose proof (Z.mod_pos_bound n 32).
    same_steps ltac:(first [apply for_loop_ext; intros | apply (mix32B_prefix _ _ n); (done || lia)]).
Qed.

Lemma short128_any p n secret secretLen secretLen' seed f g :
  n <= 240 -> XXH3_128bits_internal p n seed secret secretLen f = XXH3_128bits_internal p n seed secret secretLen' g.
Proof. intros. unfold XXH3_128bits_internal, XXH3_MIDSIZE_MAX. repeat case_bool; done || lia. Qed.

(** Runs the mixing steps at the head of the goal. *)
Ltac run_mixes32 :=
  repeat match goal with
  | |- context [XXH128_mix32B ?a ?p ?i ?j ?s ?o ?d] =>
    destruct (mix32B_ok a p i j s o d) as [? ->]; [lia|lia|lia|lia|lia|lia|]; cbn [mbind option_bind]
  end.

Lemma len_17to128_128b_ok p n secret seed :
  136 <= zlen secret -> n <= zlen p -> 16 < n <= 128 -> exists h, XXH3_len_17to128_128b p n secret seed = Some h.
Proof.
  intros Hs Hp Hn. unfold XXH3_len_17to128_128b.
  destruct (Z.ltb_spec 32 n), (Z.ltb_spec 64 n), (Z.ltb_spec 96 n); try lia; cbn [mbind option_bind]; run_mixes32; eauto.
Qed.

Lemma len_129to240_128b_ok p n secret seed :
  136 <= zlen secret -> n <= zlen p -> 128 < n <= 240 -> exists h, XXH3_len_129to240_128b p n secret seed = Some h.
Proof.
  intros Hs Hp Hn. unfold XXH3_len_129to240_128b, XXH3_MIDSIZE_STARTOFFSET.
  pose proof (Z.div_mod n 32). pose proof (Z.mod_pos_bound n 32).
  edestruct (for_loop_inv 4 0 (fun i a => XXH128_mix32B a p (32 * i) (32 * i + 16) secret (32 * i) seed) (fun _ => True))
    as (a & -> & _); [done| |cbn [mbind option_bind]].
  { intros k a Hk _. destruct (mix32B_ok a p (32 * k) (32 * k + 16) secret (32 * k) seed) as [v ->]; eauto; lia. }
  edestruct (for_loop_inv (Z.to_nat (n / 32 - 4)) 4
    (fun i a => XXH128_mix32B a p (32 * i) (32 * i + 16) secret (3 + 32 * (i - 4)) seed) (fun _ => True))
    as (a2 & -> & _); [done| |cbn [mbind option_bind]].
  { intros k a2 Hk _.
    destruct (mix32B_ok a2 p (32 * k) (32 * k + 16) secret (3 + 32 * (k - 4)) seed) as [v ->]; eauto; lia. }
  unfold XXH3_SECRET_SIZE_MIN, XXH3_MIDSIZE_LASTOFFSET. run_mixes32. eauto.
Qed.

Lemma short128_ok p n secret secretLen seed f :
  136 <= zlen secret -> n <= zlen p -> 0 <= n <= 240 -> exists h, XXH3_128bits_internal p n seed secret secretLen f = Some h.
Proof.
  intros Hs Hp Hn. unfold XXH3_128bits_internal, XXH3_MIDSIZE_MAX. repeat case_bool; try lia.
  - unfold XXH3_len_0to16_128b, XXH3_len_9to16_128b, XXH3_len_4to8_128b, XXH3_len_1to3_128b.
    destruct (half_range n) as [? ?]; [lia|]. repeat case_bool; run_reads; eauto.
  - apply len_17to128_128b_ok; lia.
  - apply len_129to240_128b_ok; lia.
Qed.

Lemma merge128_ok a len secret secretSize :
  length a = 8%nat -> 136 <= secretSize -> secretSize <= zlen secret -> exists h, merge128 a len secret secretSize = Some h.
Proof.
  intros. unfold merge128, XXH_SECRET_MERGEACCS_START.
  destruct (mergeAccs_ok a secret 11 (u64 (len * XXH_PRIME64_1))) as [lo ->]; [done|lia|lia|]. cbn [mbind option_bind].
  destruct (mergeAccs_ok a secret (secretSize - 64 - 11) (u64 (Z.lnot (u64 (len * XXH_PRIME64_2))))) as [hi ->]; [done|lia|lia|].
  cbn [mbind option_bind]. eauto.
Qed.

(** The two ways to mix the high half are the same. *)
Lemma mix_high_eq x : 0 <= x < 2 ^ 64 -> mix_high_32 x = mix_high x.
Proof.
  intros Hx. unfold mix_high, mix_high_32.
  pose proof (Z.div_mod x (2 ^ 32) ltac:(lia)) as Ex. pose proof (Z.mod_pos_bound x (2 ^ 32) ltac:(lia)).
  assert (u32 x = x mod 2 ^ 32) as -> by done.
  rewrite !mult32to64_eq by (unfold XXH_PRIME32_2; lia).
  assert (Z.land x 0xFFFFFFFF00000000 = 2 ^ 32 * (x / 2 ^ 32)) as ->.
  { change 0xFFFFFFFF00000000 with (Z.ldiff (Z.ones 64) (Z.ones 32)).
    rewrite Z.land_comm. rewrite <- (Z.mod_small x (2 ^ 64)) at 1 by lia. rewrite <- Z.land_ones by lia.
    rewrite Z.mul_comm, <- Z.shiftr_div_pow2, <- Z.shiftl_mul_pow2 by lia.
    apply Z.bits_inj'. intros n Hn. rewrite Z.land_spec, Z.ldiff_spec, Z.land_spec, Z.shiftl_spec by lia.
    rewrite !Z.testbit_ones_nonneg by lia. destruct (Z_lt_le_dec n 32).
    - rewrite (proj2 (Z.ltb_lt n 32)), (proj2 (Z.ltb_lt n 64)) by lia. cbn. rewrite Z.testbit_neg_r by lia. done.
    - rewrite (proj2 (Z.ltb_ge n 32)) by lia. rewrite Z.shiftr_spec by lia. replace (n - 32 + 32) with n by lia.
      destruct (Z.ltb_spec n 64) as [L|L]; cbn; [by rewrite andb_true_r|].
      rewrite <- (Z.mod_small x (2 ^ 64)) by lia. by rewrite Z.mod_pow2_bits_high by lia. }
  f_equal. lia.
Qed.

(** ** Ranges and the canonical form *)

Lemma XXH3_128bits_range input len : forall h, XXH3_128bits input len = Some h -> 0 <= low64 h < 2 ^ 64 /\ 0 <= high64 h < 2 ^ 64.
Proof.
  unfold XXH3_128bits, XXH3_128bits_internal, XXH3_len_0to16_128b, XXH3_len_1to3_128b, XXH3_len_4to8_128b, XXH3_len_9to16_128b,
    XXH3_len_17to128_128b, XXH3_len_129to240_128b, XXH3_hashLong_128b_default, XXH3_hashLong_128b_internal, merge128.
  to_result; cbn [low64 high64 finish_mid]; try (split; auto with kanon).
  - apply lxor_shift_range; [lia|lia|apply wrap_range; lia].
  - apply wrap_range. lia.
  - apply wrap_range. lia.
  - by eapply mergeAccs_range.
  - by eapply mergeAccs_range.
Qed.

Lemma canonical128_roundtrip h :
  0 <= low64 h < 2 ^ 64 -> 0 <= high64 h < 2 ^ 64 -> XXH128_hashFromCanonical (XXH128_canonicalFromHash h) = Some h.
Proof.
  intros Hl Hh. unfold XXH128_hashFromCanonical, XXH128_canonicalFromHash, XXH_swap64.
  set (a := le_bytes 8 _). set (b := le_bytes 8 (bswap 8 (low64 h))).
  assert (zlen a = 8) as La by apply zlen_le_bytes. assert (zlen b = 8) as Lb by apply zlen_le_bytes.
  unfold read64, XXH_readLE64. rewrite !mem_read_ok by (rewrite ?zlen_app; lia). cbn [mbind option_bind].
  rewrite (slice_app_l 0 8) by lia. rewrite !(slice_full a) by lia.
  assert (slice 8 8 (a ++ b) = b) as ->.
  { unfold slice. rewrite drop_app_length' by (unfold zlen in La; lia). apply take_ge. unfold zlen in Lb. lia. }
  rewrite (slice_full b) by lia. subst a b. rewrite !canonical_word by (cbn; lia). by destruct h.
Qed.

(** ** The self-test of cli/xsum_sanity_check.c *)

Definition PRIME32 : Z := 2654435761.
Definition PRIME64 : Z := 11400714785074694797.

Fixpoint fill_bytes (len : nat) (byteGen : Z) : list byte :=
  match len with
  | O => []
  | S len => Z_to_byte (Z.shiftr byteGen 56) :: fill_bytes len (u64 (byteGen * PRIME64))
  end.

Definition XSUM_fillTestBuffer (len : nat) : list byte := fill_bytes len PRIME32.

(** Its vectors for inputs of up to 81 bytes, one for each way to hash them. *)
Example self_test_short :
  map (fun '(len, seed) => XXH3_64bits_withSeed (XSUM_fillTestBuffer 81) len seed)
    [(0, PRIME64); (1, 0); (6, PRIME64); (12, 0); (24, PRIME64); (48, 0); (80, PRIME64)] =
  map Some [0xA8A6B918B2F0364A; 0xC44BDFF4074EECDB; 0x84589C116AB59AB9; 0xA713DAF0DFBB77E7; 0x850E80FC35BDD690;
    0x397DA259ECBA1F11; 0xC6DD0CB699532E73] /\
  map (fun '(len, seed) => XXH3_128bits_withSeed (XSUM_fillTestBuffer 81) len seed)
    [(0, 0); (1, PRIME32); (6, 0); (12, PRIME32); (24, 0); (48, PRIME32); (81, 0)] =
  map Some [mkHash128 0x6001C324468D497F 0x99AA06D3014798D8; mkHash128 0xB53D5557E7F76F8D 0x89B99554BA22467C;
    mkHash128 0x3E7039BDDA43CFC6 0x082AFE0B8162D12A; mkHash128 0x9BE9F9A67F3C7DFB 0xD7E09D518A3405D3;
    mkHash128 0x1E7044D28B1B901D 0x0CE966E4678D3761; mkHash128 0x7BA3C3E453A1934E 0x163ADDE36C072295;
    mkHash128 0x5E8BAFB9F95FB803 0x4952F58181AB0042].
Proof. vm_compute. split; reflexivity. Qed.
