(* ===== verification/XXH3Stream.v ===== *)
(** * Streaming XXH3: third-party/xxHash/xxhash.h

    The state of the streaming interface, its allocation, the four ways to reset it,
    the update, which keeps the last 256 bytes or fewer in a buffer and behind them
    the stripe before, and the digests of 64 and 128 bits. *)

From Stdlib Require Import ZArith Lia.
From S2P Require Import Prelude Endian Stripes XXHash XXH64 XXH3 XXH128.

(** ** Allocation *)

(** The block of [s + align] bytes comes from [malloc]; the aligned pointer in it, and
    the byte stored before that pointer. *)
Definition XXH_alignedMalloc (malloc : Z -> option Z) (s align : Z) : option (Z * Z) :=
  base ← malloc (u64 (s + align));
  let offset := u64 (align - Z.land base (align - 1)) in
  Some (u64 (base + offset), u8 offset).

(** The pointer that is freed, if any. *)
Definition XXH_alignedFree (p : option (Z * Z)) : option Z :=
  '(ptr, offset) ← p; Some (u64 (ptr - offset)).

(** ** The state *)

Definition XXH3_INTERNALBUFFER_SIZE : Z := 256.
Definition XXH3_INTERNALBUFFER_STRIPES : Z := XXH3_INTERNALBUFFER_SIZE / XXH_STRIPE_LEN.

Inductive XXH_errorcode := XXH_OK | XXH_ERROR.

Record XXH3_state := mkState3 {
  acc : list Z;
  customSecret : list byte;
  buffer : list byte;
  bufferedSize : Z;
  useSeed : bool;
  nbStripesSoFar : Z;
  totalLen : Z;
  nbStripesPerBlock : Z;
  secretLimit : Z;
  seed : Z;
  extSecret : option (list byte)
}.

(** The members are what the memory held, but for the seed. *)
Definition XXH3_createState (raw : XXH3_state) : XXH3_state :=
  mkState3 (acc raw) (customSecret raw) (buffer raw) (bufferedSize raw) (useSeed raw) (nbStripesSoFar raw)
    (totalLen raw) (nbStripesPerBlock raw) (secretLimit raw) 0 (extSecret raw).

Definition XXH3_reset_internal (st : XXH3_state) (seed : Z) (secret : option (list byte)) (secretSize : Z) : XXH3_state :=
  let limit := u64 (secretSize - XXH_STRIPE_LEN) in
  mkState3 XXH3_INIT_ACC (customSecret st) (buffer st) 0 (negb (seed =? 0)) 0 0
    (limit / XXH_SECRET_CONSUME_RATE) limit seed secret.

Definition XXH3_64bits_reset (st : XXH3_state) : XXH_errorcode * XXH3_state :=
  (XXH_OK, XXH3_reset_internal st 0 (Some XXH3_kSecret) XXH_SECRET_DEFAULT_SIZE).

Definition XXH3_64bits_reset_withSecret (st : XXH3_state) (secret : option (list byte)) (secretSize : Z)
  : XXH_errorcode * XXH3_state :=
  let st := XXH3_reset_internal st 0 secret secretSize in
  match secret with
  | None => (XXH_ERROR, st)
  | Some _ => if secretSize <? XXH3_SECRET_SIZE_MIN then (XXH_ERROR, st) else (XXH_OK, st)
  end.

Definition set_custom (st : XXH3_state) (custom : list byte) : XXH3_state :=
  mkState3 (acc st) custom (buffer st) (bufferedSize st) (useSeed st) (nbStripesSoFar st)
    (totalLen st) (nbStripesPerBlock st) (secretLimit st) (seed st) (extSecret st).

(** The secret derived from the seed is computed again only if it may differ. *)
Definition XXH3_64bits_reset_withSeed (st : XXH3_state) (new : Z) : option (XXH_errorcode * XXH3_state) :=
  if new =? 0 then Some (XXH3_64bits_reset st)
  else
    st ←
      (if negb (new =? seed st) || bool_decide (is_Some (extSecret st)) then
        custom ← XXH3_initCustomSecret (customSecret st) new; Some (set_custom st custom)
      else Some st);
    Some (XXH_OK, XXH3_reset_internal st new None XXH_SECRET_DEFAULT_SIZE).

Definition set_useSeed (st : XXH3_state) : XXH3_state :=
  mkState3 (acc st) (customSecret st) (buffer st) (bufferedSize st) true (nbStripesSoFar st)
    (totalLen st) (nbStripesPerBlock st) (secretLimit st) (seed st) (extSecret st).

Definition XXH3_64bits_reset_withSecretandSeed (st : XXH3_state) (secret : option (list byte)) (secretSize seed64 : Z)
  : XXH_errorcode * XXH3_state :=
  match secret with
  | None => (XXH_ERROR, st)
  | Some _ =>
    if secretSize <? XXH3_SECRET_SIZE_MIN then (XXH_ERROR, st)
    else (XXH_OK, set_useSeed (XXH3_reset_internal st seed64 secret secretSize))
  end.

(** ** Update *)

(** The accumulators and the number of stripes in the current block. *)
Definition XXH3_consumeStripes (acc : list Z) (soFar perBlock : Z) (input : list byte) (ioff nbStripes : Z)
    (secret : list byte) (limit : Z) : option (list Z * Z) :=
  if u64 (perBlock - soFar) <=? nbStripes then
    let toEnd := u64 (perBlock - soFar) in
    let after := u64 (nbStripes - toEnd) in
    acc ← XXH3_accumulate acc input ioff secret (soFar * XXH_SECRET_CONSUME_RATE) toEnd;
    acc ← XXH3_scrambleAcc acc secret limit;
    acc ← XXH3_accumulate acc input (ioff + toEnd * XXH_STRIPE_LEN) secret 0 after;
    Some (acc, after)
  else
    acc ← XXH3_accumulate acc input ioff secret (soFar * XXH_SECRET_CONSUME_RATE) nbStripes;
    Some (acc, u64 (soFar + nbStripes)).

(** [while (nbStripes >= nbStripesPerBlock)]: the accumulators, the position in the
    input and the stripes left; the fuel is the number of stripes. *)
Fixpoint whole_blocks (fuel : nat) (acc : list Z) (perBlock : Z) (input : list byte) (pos nbStripes : Z)
    (secret : list byte) (limit : Z) : option (list Z * Z * Z) :=
  if perBlock <=? nbStripes then
    match fuel with
    | O => None
    | S fuel =>
      acc ← XXH3_accumulate acc input pos secret 0 perBlock;
      acc ← XXH3_scrambleAcc acc secret limit;
      whole_blocks fuel acc perBlock input (pos + perBlock * XXH_STRIPE_LEN) (u64 (nbStripes - perBlock)) secret limit
    end
  else Some (acc, pos, nbStripes).

(** The [do ... while (input < limit)] loop over parts of the size of the buffer. *)
Fixpoint buffer_parts (fuel : nat) (acc : list Z) (soFar perBlock : Z) (input : list byte) (pos end_ : Z)
    (secret : list byte) (limit : Z) : option (list Z * Z * Z) :=
  match fuel with
  | O => None
  | S fuel =>
    '(acc, soFar) ← XXH3_consumeStripes acc soFar perBlock input pos XXH3_INTERNALBUFFER_STRIPES secret limit;
    let pos := pos + XXH3_INTERNALBUFFER_SIZE in
    if pos <? end_ then buffer_parts fuel acc soFar perBlock input pos end_ secret limit
    else Some (acc, soFar, pos)
  end.

(** The stripe before the rest is kept at the end of the buffer. *)
Definition keep_last (buffer input : list byte) (pos : Z) : option (list byte) :=
  bs ← mem_read input (pos - XXH_STRIPE_LEN) XXH_STRIPE_LEN;
  mem_write buffer (XXH3_INTERNALBUFFER_SIZE - XXH_STRIPE_LEN) bs.

Definition secret_of (st : XXH3_state) : list byte :=
  match extSecret st with None => customSecret st | Some s => s end.

(** The accumulators, the stripes in the block, the buffer and the position in the
    input after each part of the update: the buffer is completed and consumed, then
    whole stripes are taken from the input. *)
Definition complete_buffer (st : XXH3_state) (input : list byte) : option (list Z * Z * list byte * Z) :=
  if negb (bufferedSize st =? 0) then
    let loadSize := XXH3_INTERNALBUFFER_SIZE - bufferedSize st in
    bs ← mem_read input 0 loadSize;
    buf ← mem_write (buffer st) (bufferedSize st) bs;
    '(acc, soFar) ← XXH3_consumeStripes (acc st) (nbStripesSoFar st) (nbStripesPerBlock st) buf 0
      XXH3_INTERNALBUFFER_STRIPES (secret_of st) (secretLimit st);
    Some (acc, soFar, buf, loadSize)
  else Some (acc st, nbStripesSoFar st, buffer st, 0).

Definition consume_blocks (acc : list Z) (soFar perBlock : Z) (buf input : list byte) (pos : Z) (secret : list byte) (limit : Z)
  : option (list Z * Z * list byte * Z) :=
  let nbStripes := (zlen input - 1 - pos) / XXH_STRIPE_LEN in
  let toEnd := u64 (perBlock - soFar) in
  acc ← XXH3_accumulate acc input pos secret (soFar * XXH_SECRET_CONSUME_RATE) toEnd;
  acc ← XXH3_scrambleAcc acc secret limit;
  let pos := pos + toEnd * XXH_STRIPE_LEN in
  let nbStripes := u64 (nbStripes - toEnd) in
  '(acc, pos, nbStripes) ← whole_blocks (Z.to_nat nbStripes) acc perBlock input pos nbStripes secret limit;
  acc ← XXH3_accumulate acc input pos secret 0 nbStripes;
  let pos := pos + nbStripes * XXH_STRIPE_LEN in
  buf ← keep_last buf input pos;
  Some (acc, nbStripes, buf, pos).

Definition consume_input (acc : list Z) (soFar perBlock : Z) (buf input : list byte) (pos : Z) (secret : list byte) (limit : Z)
  : option (list Z * Z * list byte * Z) :=
  if perBlock * XXH_STRIPE_LEN <? zlen input - pos
  then consume_blocks acc soFar perBlock buf input pos secret limit
  else if XXH3_INTERNALBUFFER_SIZE <? zlen input - pos then
    '(acc, soFar, pos) ← buffer_parts (length input) acc soFar perBlock input pos
      (zlen input - XXH3_INTERNALBUFFER_SIZE) secret limit;
    buf ← keep_last buf input pos;
    Some (acc, soFar, buf, pos)
  else Some (acc, soFar, buf, pos).

Definition set_stream (st : XXH3_state) (acc : list Z) (soFar : Z) (buf : list byte) (size total : Z) : XXH3_state :=
  mkState3 acc (customSecret st) buf size (useSeed st) soFar total (nbStripesPerBlock st) (secretLimit st) (seed st) (extSecret st).

Definition XXH3_update (st : XXH3_state) (input : list byte) : option XXH3_state :=
  let len := zlen input in
  let total := u64 (totalLen st + len) in
  if u64 (bufferedSize st + len) <=? XXH3_INTERNALBUFFER_SIZE then
    buf ← mem_write (buffer st) (bufferedSize st) input;
    Some (set_stream st (acc st) (nbStripesSoFar st) buf (u32 (bufferedSize st + u32 len)) total)
  else
    '(acc, soFar, buf, pos) ← complete_buffer st input;
    '(acc, soFar, buf, pos) ← consume_input acc soFar (nbStripesPerBlock st) buf input pos (secret_of st) (secretLimit st);
    rest ← mem_read input pos (len - pos);
    buf ← mem_write buf 0 rest;
    Some (set_stream st acc soFar buf (u32 (len - pos)) total).

(** ** Digest *)

Definition XXH3_digest_long (st : XXH3_state) (secret : list byte) : option (list Z) :=
  if XXH_STRIPE_LEN <=? bufferedSize st then
    let nbStripes := (bufferedSize st - 1) / XXH_STRIPE_LEN in
    '(acc, _) ← XXH3_consumeStripes (acc st) (nbStripesSoFar st) (nbStripesPerBlock st) (buffer st) 0 nbStripes
      secret (secretLimit st);
    XXH3_accumulate_512 acc (buffer st) (bufferedSize st - XXH_STRIPE_LEN) secret (secretLimit st - XXH_SECRET_LASTACC_START)
  else
    let catchupSize := XXH_STRIPE_LEN - bufferedSize st in
    before ← mem_read (buffer st) (XXH3_INTERNALBUFFER_SIZE - catchupSize) catchupSize;
    last ← mem_read (buffer st) 0 (bufferedSize st);
    XXH3_accumulate_512 (acc st) (before ++ last) 0 secret (secretLimit st - XXH_SECRET_LASTACC_START).

Definition XXH3_64bits_digest (st : XXH3_state) : option Z :=
  let secret := secret_of st in
  if XXH3_MIDSIZE_MAX <? totalLen st then
    acc ← XXH3_digest_long st secret;
    XXH3_mergeAccs acc secret XXH_SECRET_MERGEACCS_START (u64 (totalLen st * XXH_PRIME64_1))
  else if useSeed st then XXH3_64bits_withSeed (buffer st) (totalLen st) (seed st)
  else XXH3_64bits_withSecret (buffer st) (totalLen st) secret (u64 (secretLimit st + XXH_STRIPE_LEN)).

(** The seed itself is tested here, not [useSeed]. *)
Definition XXH3_128bits_digest (st : XXH3_state) : option XXH128_hash :=
  let secret := secret_of st in
  if XXH3_MIDSIZE_MAX <? totalLen st then
    acc ← XXH3_digest_long st secret;
    merge128 acc (totalLen st) secret (u64 (secretLimit st + XXH_STRIPE_LEN))
  else if negb (seed st =? 0) then XXH3_128bits_withSeed (buffer st) (totalLen st) (seed st)
  else XXH3_128bits_withSecret (buffer st) (totalLen st) secret (u64 (secretLimit st + XXH_STRIPE_LEN)).

(** ** The parts of the update, on absorbed stripes *)

Section stream.
Context (secret : list byte) (limit : Z) (Hlimit : 72 <= limit) (Hsecret : limit + 64 <= zlen secret).
Context (Hmax : limit < 2 ^ 63).
Abbreviation perBlock := (limit / 8).

Lemma perBlock_small : 9 <= perBlock < 2 ^ 62.
Proof. pose proof (Z.div_mod limit 8). pose proof (Z.mod_pos_bound limit 8). lia. Qed.

Lemma mod_next k n : 0 <= k -> 0 <= n -> k mod perBlock + n < perBlock -> (k + n) mod perBlock = k mod perBlock + n.
Proof.
  intros. pose proof perBlock_small. pose proof (Z.mod_pos_bound k perBlock ltac:(lia)).
  rewrite <- Zplus_mod_idemp_l. apply Z.mod_small. lia.
Qed.

Lemma mod_wraps k n : k mod perBlock + n = perBlock -> (k + n) mod perBlock = 0.
Proof.
  intros E. rewrite <- Zplus_mod_idemp_l, E, <- (Z.mul_1_l perBlock) at 1. apply Z_mod_mult.
Qed.

Lemma consumeStripes_absorbed p i bs k n a :
  0 <= k -> 0 <= n <= perBlock -> same_at p i bs (64 * k) (64 * n) ->
  XXH3_consumeStripes a (k mod perBlock) perBlock p i n secret limit =
  a' ← absorbed secret limit bs k (Z.to_nat n) a; Some (a', (k + n) mod perBlock).
Proof.
  intros Hk Hn H. pose proof perBlock_small. pose proof (Z.mod_pos_bound k perBlock ltac:(lia)).
  unfold XXH3_consumeStripes, XXH_SECRET_CONSUME_RATE, XXH_STRIPE_LEN. set (toEnd := perBlock - k mod perBlock).
  rewrite (u64_id toEnd) by lia. case_bool.
  - rewrite (u64_id (n - toEnd)) by lia.
    replace (Z.to_nat n) with (Z.to_nat toEnd + Z.to_nat (n - toEnd))%nat by lia.
    rewrite absorbed_app. rewrite Z2Nat.id by lia.
    assert ((k + toEnd) mod perBlock = 0) as E0 by (apply mod_wraps; lia).
    rewrite <- (block_end_absorbed secret limit Hlimit p i bs k (Z.to_nat toEnd)); rewrite ?Z2Nat.id by lia;
      [|lia|lia|eapply same_at_shorter; [exact H|lia]].
    destruct (XXH3_accumulate a p i secret _ toEnd) as [a1|]; [|done]. cbn [mbind option_bind].
    destruct (XXH3_scrambleAcc a1 secret limit) as [a2|]; [|done]. cbn [mbind option_bind].
    pose proof (accumulate_absorbed secret limit Hlimit p (i + toEnd * 64) bs (k + toEnd) (Z.to_nat (n - toEnd)) a2) as E.
    rewrite E0, Z2Nat.id in E by lia. rewrite <- E; [|lia|lia|].
    + destruct (XXH3_accumulate a2 _ _ _ _ _) as [a3|]; [|done]. cbn [mbind option_bind]. do 2 f_equal.
      replace (k + n) with (k + toEnd + (n - toEnd)) by lia. rewrite mod_next; lia.
    + replace (64 * (k + toEnd)) with (64 * k + toEnd * 64) by lia. eapply same_at_part; [exact H|lia..].
  - rewrite <- (accumulate_absorbed secret limit Hlimit p i bs k (Z.to_nat n) a); rewrite ?Z2Nat.id by lia; [|lia|lia|done].
    destruct (XXH3_accumulate a p i secret _ n) as [a1|]; [|done]. cbn [mbind option_bind]. do 2 f_equal.
    rewrite mod_next, u64_id; lia.
Qed.

Lemma whole_blocks_absorbed fuel p i bs k n a :
  0 <= k -> k mod perBlock = 0 -> 0 <= n <= Z.of_nat fuel -> n < 2 ^ 63 -> same_at p i bs (64 * k) (64 * n) ->
  whole_blocks fuel a perBlock p i n secret limit =
  a' ← absorbed secret limit bs k (Z.to_nat (n - n mod perBlock)) a;
  Some (a', i + (n - n mod perBlock) * 64, n mod perBlock).
Proof.
  pose proof perBlock_small as Hpb. revert i k n a. induction fuel as [|fuel IH]; intros i k n a Hk E0 Hn Hn' H;
    cbn [whole_blocks]; case_bool; try lia.
  1, 3: rewrite Z.mod_small, Z.sub_diag by lia; change (absorbed secret limit bs k (Z.to_nat 0) a) with (Some a);
    cbn [mbind option_bind]; do 3 f_equal; lia.
  rewrite u64_id by lia. unfold XXH_STRIPE_LEN.
  assert ((n - perBlock) mod perBlock = n mod perBlock) as Em.
  { replace (n - perBlock) with (n + (-1) * perBlock) by lia. apply Z_mod_plus_full. }
  pose proof (Z.mod_le (n - perBlock) perBlock). pose proof (Z.mod_pos_bound (n - perBlock) perBlock).
  replace (Z.to_nat (n - n mod perBlock)) with (Z.to_nat perBlock + Z.to_nat (n - perBlock - n mod perBlock))%nat by lia.
  rewrite absorbed_app, Z2Nat.id by lia.
  pose proof (block_end_absorbed secret limit Hlimit p i bs k (Z.to_nat perBlock) a) as E.
  rewrite E0, Z2Nat.id in E by lia. rewrite <- E; [|lia|lia|eapply same_at_shorter; [exact H|lia]]. clear E.
  destruct (XXH3_accumulate a p i secret _ _) as [a1|]; [|done]. cbn [mbind option_bind].
  destruct (XXH3_scrambleAcc a1 secret limit) as [a2|]; [|done]. cbn [mbind option_bind].
  rewrite (IH (i + perBlock * 64) (k + perBlock)); [|lia| |lia|lia|].
  - rewrite Em. destruct (absorbed _ _ _ _ _ _); [|done]. cbn [mbind option_bind]. do 3 f_equal. lia.
  - apply mod_wraps. lia.
  - replace (64 * (k + perBlock)) with (64 * k + perBlock * 64) by lia. eapply same_at_part; [exact H|lia..].
Qed.

(** Where an update stands: [a] has absorbed the first [c] stripes of [bs], whose bytes
    from there on are the rest of the input. *)
Record reading (bs input : list byte) (a : list Z) (c pos : Z) : Prop := {
  rd_c : 0 <= c;
  rd_acc : absorbed secret limit bs 0 (Z.to_nat c) XXH3_INIT_ACC = Some a;
  rd_len : zlen bs = 64 * c + (zlen input - pos);
  rd_left : 0 < zlen input - pos;
  rd_small : zlen bs < 2 ^ 63;
  rd_bytes : same_at input pos bs (64 * c) (zlen input - pos)
}.

Lemma reading_length bs input a c pos : reading bs input a c pos -> length a = 8%nat.
Proof.
  intros [Hc Ha Hl Hp _ _]. destruct (absorbed_ok secret limit Hlimit Hsecret bs 0 (Z.to_nat c) XXH3_INIT_ACC)
    as (a' & E & L); [done|lia|lia|]. by simplify_eq.
Qed.

(** Any number of the stripes that follow can be absorbed, if a byte is left. *)
Lemma reading_absorbs bs input a c pos n :
  reading bs input a c pos -> 0 <= n -> 64 * n < zlen input - pos ->
  exists a', absorbed secret limit bs c (Z.to_nat n) a = Some a' /\ reading bs input a' (c + n) (pos + 64 * n).
Proof.
  intros H Hn Hl. pose proof (reading_length _ _ _ _ _ H) as La. destruct H as [Hc Ha Hlen Hp Hs Hb].
  destruct (absorbed_ok secret limit Hlimit Hsecret bs c (Z.to_nat n) a) as (a' & E & L); [done|lia|lia|].
  exists a'. split; [done|]. split; try lia.
  - rewrite Z2Nat.inj_add, absorbed_app, Ha by lia. cbn [mbind option_bind]. by rewrite Z2Nat.id by lia.
  - replace (64 * (c + n)) with (64 * c + 64 * n) by lia.
    eapply same_at_part; [exact Hb|lia..].
Qed.

Lemma reading_stripes bs input a c pos n :
  reading bs input a c pos -> 0 <= n -> 64 * n < zlen input - pos -> same_at input pos bs (64 * c) (64 * n).
Proof. intros [] ? ?. eapply same_at_shorter; [done|lia]. Qed.

(** The kept stripe is the one before the position. *)
Lemma keep_last_ok bs input a c pos n buf :
  reading bs input a c pos -> 1 <= n -> 64 * n < zlen input - pos -> zlen buf = 256 ->
  exists buf', keep_last buf input (pos + 64 * n) = Some buf' /\ zlen buf' = 256 /\
    same_at buf' 192 bs (64 * (c + n) - 64) 64.
Proof.
  intros [Hc _ Hlen Hp _ Hb] Hn Hl Hbuf. unfold keep_last, XXH_STRIPE_LEN, XXH3_INTERNALBUFFER_SIZE.
  assert (same_at input (pos + 64 * n - 64) bs (64 * (c + n) - 64) 64) as [[] [] Eb].
  { replace (pos + 64 * n - 64) with (pos + (64 * n - 64)) by lia.
    replace (64 * (c + n) - 64) with (64 * c + (64 * n - 64)) by lia. eapply same_at_part; [exact Hb|lia..]. }
  rewrite mem_read_ok by lia. cbn [mbind option_bind].
  assert (zlen (slice (pos + 64 * n - 64) 64 input) = 64) as Ls by (apply zlen_slice; lia).
  rewrite mem_write_ok by lia. eexists. split; [done|]. split; [rewrite zlen_overwrite; lia|].
  split; [rewrite zlen_overwrite; lia|lia|]. rewrite slice_overwrite_eq by lia. done.
Qed.

(** The rest of the current block, and stripes of a new one. *)
Lemma accumulate_to_end bs input a c pos toEnd :
  reading bs input a c pos -> toEnd = perBlock - c mod perBlock -> 64 * toEnd < zlen input - pos ->
  exists x a', XXH3_accumulate a input pos secret (c mod perBlock * 8) toEnd = Some x /\
    XXH3_scrambleAcc x secret limit = Some a' /\ reading bs input a' (c + toEnd) (pos + 64 * toEnd).
Proof.
  intros H Et Hl. pose proof perBlock_small. pose proof (Z.mod_pos_bound c perBlock ltac:(lia)). pose proof H as [Hc _ _ _ _ _].
  pose proof (block_end_absorbed secret limit Hlimit input pos bs c (Z.to_nat toEnd) a) as E. rewrite Z2Nat.id in E by lia.
  destruct (reading_absorbs _ _ _ _ _ toEnd H) as (a1 & A1 & R1); [lia|lia|].
  rewrite A1 in E. specialize (E Hc ltac:(lia) (reading_stripes _ _ _ _ _ toEnd H ltac:(lia) ltac:(lia))).
  destruct (XXH3_accumulate a input pos secret _ toEnd) as [x|]; [|done]. cbn [mbind option_bind] in E. eauto.
Qed.

Lemma accumulate_from_start bs input a c pos n :
  reading bs input a c pos -> c mod perBlock = 0 -> 0 <= n < perBlock -> 64 * n < zlen input - pos ->
  exists a', XXH3_accumulate a input pos secret 0 n = Some a' /\ reading bs input a' (c + n) (pos + 64 * n).
Proof.
  intros H E0 Hn Hl. pose proof H as [Hc _ _ _ _ _].
  pose proof (accumulate_absorbed secret limit Hlimit input pos bs c (Z.to_nat n) a) as E. rewrite E0, Z2Nat.id in E by lia.
  destruct (reading_absorbs _ _ _ _ _ n H) as (a1 & A1 & R1); [lia|lia|].
  exists a1. split; [|done]. rewrite <- A1, <- E; [done|lia|lia|]. by eapply reading_stripes; [exact H|lia|].
Qed.

Lemma whole_blocks_ok bs input a c pos n :
  reading bs input a c pos -> c mod perBlock = 0 -> 0 <= n -> 64 * n < zlen input - pos ->
  let k := n - n mod perBlock in
  exists a', whole_blocks (Z.to_nat n) a perBlock input pos n secret limit = Some (a', pos + 64 * k, n mod perBlock) /\
    reading bs input a' (c + k) (pos + 64 * k) /\ (c + k) mod perBlock = 0.
Proof.
  intros H E0 Hn Hl k. pose proof perBlock_small. pose proof H as [Hc _ ? _ ? _].
  pose proof (Z.mod_pos_bound n perBlock ltac:(lia)). pose proof (Z.mod_le n perBlock ltac:(lia) ltac:(lia)).
  rewrite (whole_blocks_absorbed (Z.to_nat n) input pos bs c n a) by
    (lia || done || (apply (reading_stripes _ _ _ _ _ n H); lia)).
  destruct (reading_absorbs _ _ _ _ _ k H) as (a1 & A1 & R1); [lia|lia|]. fold k. rewrite A1. cbn [mbind option_bind].
  exists a1. split_and!; [do 3 f_equal; lia|done|].
  unfold k. rewrite <- Zplus_mod_idemp_l, E0, Z.add_0_l, Zminus_mod_idemp_r, Z.sub_diag. apply Z.mod_0_l. lia.
Qed.

Lemma consume_blocks_ok bs input a c pos buf :
  reading bs input a c pos -> perBlock * 64 < zlen input - pos -> zlen buf = 256 ->
  exists a' n buf', consume_blocks a (c mod perBlock) perBlock buf input pos secret limit =
      Some (a', (c + n) mod perBlock, buf', pos + 64 * n) /\
    1 <= n /\ zlen input - (pos + 64 * n) <= 64 /\ reading bs input a' (c + n) (pos + 64 * n) /\
    zlen buf' = 256 /\ same_at buf' 192 bs (64 * (c + n) - 64) 64.
Proof.
  intros H Hb Hbuf. pose proof perBlock_small. pose proof (Z.mod_pos_bound c perBlock ltac:(lia)).
  pose proof H as [Hc _ Hlen Hp Hsm _]. unfold consume_blocks, XXH_STRIPE_LEN, XXH_SECRET_CONSUME_RATE.
  set (n := (zlen input - 1 - pos) / 64).
  assert (64 * n < zlen input - pos /\ zlen input - pos <= 64 * n + 64 /\ perBlock <= n) as (N1 & N2 & N3).
  { pose proof (Z.div_mod (zlen input - 1 - pos) 64 ltac:(lia)). pose proof (Z.mod_pos_bound (zlen input - 1 - pos) 64 ltac:(lia)).
    unfold n in *. split_and!; try lia. }
  set (toEnd := perBlock - c mod perBlock). rewrite (u64_id toEnd), (u64_id (n - toEnd)) by lia. set (m := n - toEnd).
  destruct (accumulate_to_end _ _ _ _ _ toEnd H) as (x & a1 & -> & E1 & R1); [done|lia|].
  cbn [mbind option_bind]. rewrite E1. cbn [mbind option_bind]. rewrite (Z.mul_comm toEnd 64).
  destruct (whole_blocks_ok _ _ _ _ _ m R1) as (a2 & -> & R2 & E2); [apply mod_wraps; lia|lia|lia|]. cbn [mbind option_bind].
  pose proof (Z.mod_pos_bound m perBlock ltac:(lia)). pose proof (Z.mod_le m perBlock ltac:(lia) ltac:(lia)).
  destruct (accumulate_from_start _ _ _ _ _ (m mod perBlock) R2) as (a3 & -> & R3); [done|lia|lia|]. cbn [mbind option_bind].
  replace (c + toEnd + (m - m mod perBlock) + m mod perBlock) with (c + n) in R3 by lia.
  replace (pos + 64 * toEnd + 64 * (m - m mod perBlock) + 64 * (m mod perBlock)) with (pos + 64 * n) in R3 by lia.
  replace (pos + 64 * toEnd + 64 * (m - m mod perBlock) + m mod perBlock * 64) with (pos + 64 * n) by lia.
  destruct (keep_last_ok bs input a c pos n buf H) as (buf' & -> & ? & ?); [lia|lia|done|]. cbn [mbind option_bind].
  exists a3, n, buf'. split_and!; try done; try lia. do 4 f_equal.
  replace (c + n) with (c + toEnd + (m - m mod perBlock) + m mod perBlock) by lia.
  rewrite <- Zplus_mod_idemp_l, E2. by rewrite Z.add_0_l, Z.mod_mod by lia.
Qed.

Lemma buffer_parts_ok fuel bs input a c pos :
  reading bs input a c pos -> 256 < zlen input - pos <= 256 * Z.of_nat fuel ->
  exists a' n, buffer_parts fuel a (c mod perBlock) perBlock input pos (zlen input - 256) secret limit =
      Some (a', (c + n) mod perBlock, pos + 64 * n) /\
    1 <= n /\ zlen input - (pos + 64 * n) <= 256 /\ reading bs input a' (c + n) (pos + 64 * n).
Proof.
  pose proof perBlock_small as Hpb. revert a c pos. induction fuel as [|fuel IH]; intros a c pos H Hl; [lia|].
  cbn [buffer_parts]. change XXH3_INTERNALBUFFER_STRIPES with 4. change XXH3_INTERNALBUFFER_SIZE with 256.
  pose proof H as [Hc _ _ _ _ _].
  rewrite (consumeStripes_absorbed input pos bs c 4 a) by (lia || (apply (reading_stripes _ _ _ _ _ 4 H); lia)).
  destruct (reading_absorbs _ _ _ _ _ 4 H) as (a1 & -> & R1); [lia|lia|]. cbn [mbind option_bind]. case_bool.
  - destruct (IH a1 (c + 4) (pos + 256) R1) as (a2 & n & E & ? & ? & R2); [lia|].
    exists a2, (4 + n). rewrite E. replace (c + 4 + n) with (c + (4 + n)) in * by lia.
    replace (pos + 256 + 64 * n) with (pos + 64 * (4 + n)) in * by lia. split_and!; done || lia.
  - exists a1, 4. split_and!; done || lia.
Qed.

(** Both ways leave at most a buffer, and the stripe before it. *)
Lemma consume_input_ok bs input a c pos buf :
  reading bs input a c pos -> zlen buf = 256 ->
  (zlen input - pos <= 256 -> 0 < c /\ same_at buf 192 bs (64 * c - 64) 64) ->
  exists a' c' buf', consume_input a (c mod perBlock) perBlock buf input pos secret limit =
      Some (a', c' mod perBlock, buf', pos + 64 * (c' - c)) /\
    0 < c' /\ zlen input - (pos + 64 * (c' - c)) <= 256 /\ reading bs input a' c' (pos + 64 * (c' - c)) /\
    zlen buf' = 256 /\ same_at buf' 192 bs (64 * c' - 64) 64.
Proof.
  intros H Hbuf Hshort. pose proof perBlock_small. pose proof H as [Hc _ Hlen Hp Hsm [[] _ _]].
  unfold consume_input, XXH_STRIPE_LEN. change XXH3_INTERNALBUFFER_SIZE with 256. case_bool; [|case_bool].
  - destruct (consume_blocks_ok bs input a c pos buf H) as (a1 & n & buf1 & -> & ? & ? & R1 & ? & ?); [lia|done|].
    exists a1, (c + n), buf1. replace (c + n - c) with n by lia. split_and!; done || lia.
  - destruct (buffer_parts_ok (length input) bs input a c pos H) as (a1 & n & -> & ? & ? & R1); [unfold zlen in *; lia|].
    cbn [mbind option_bind]. pose proof (rd_left _ _ _ _ _ R1).
    destruct (keep_last_ok bs input a c pos n buf H) as (buf1 & -> & ? & ?); [lia|lia|done|]. cbn [mbind option_bind].
    exists a1, (c + n), buf1. replace (c + n - c) with n by lia. split_and!; done || lia.
  - destruct Hshort as [? ?]; [lia|]. exists a, c, buf. rewrite Z.sub_diag, Z.mul_0_r, Z.add_0_r. split_and!; done || lia.
Qed.

(** ** The state after some input *)

Record streamed (st : XXH3_state) (bs : list byte) (c : Z) : Prop := {
  sd_secret : secret_of st = secret;
  sd_limit : secretLimit st = limit;
  sd_block : nbStripesPerBlock st = perBlock;
  sd_total : totalLen st = zlen bs;
  sd_c : 0 <= c;
  sd_len : zlen bs = 64 * c + bufferedSize st;
  sd_size : 0 <= bufferedSize st <= 256;
  sd_some : 0 < c -> 0 < bufferedSize st /\ 256 < zlen bs;
  sd_acc : absorbed secret limit bs 0 (Z.to_nat c) XXH3_INIT_ACC = Some (acc st);
  sd_soFar : nbStripesSoFar st = c mod perBlock;
  sd_buffer : zlen (buffer st) = 256;
  sd_head : same_at (buffer st) 0 bs (64 * c) (bufferedSize st);
  sd_tail : 0 < c -> bufferedSize st < 64 -> same_at (buffer st) 192 bs (64 * c - 64) 64
}.

Lemma same_at_app p i bs j n more : same_at p i bs j n -> 0 <= n -> same_at p i (bs ++ more) j n.
Proof.
  intros [] ?. pose proof (zlen_nonneg more). split; [done|rewrite zlen_app; lia|]. by rewrite slice_app_l by lia.
Qed.

(** The end of a list is its second part. *)
Lemma same_at_second bs more k n : 0 <= k -> 0 <= n -> k + n <= zlen more -> same_at more k (bs ++ more) (zlen bs + k) n.
Proof.
  intros. pose proof (zlen_nonneg bs). split; [lia|rewrite zlen_app; lia|].
  unfold slice. f_equal. rewrite Z2Nat.inj_add by lia. unfold zlen. rewrite Nat2Z.id.
  rewrite <- drop_drop. by rewrite drop_app_length.
Qed.

Lemma slice_same_app (p q : list byte) i j n m :
  0 <= n -> 0 <= m -> slice i n p = slice j n q -> slice (i + n) m p = slice (j + n) m q -> 0 <= i -> 0 <= j ->
  slice i (n + m) p = slice j (n + m) q.
Proof.
  intros ? ? E1 E2 ? ?. rewrite (slice_split i (n + m) n p), (slice_split j (n + m) n q) by lia.
  rewrite E1. by replace (n + m - n) with m by lia; rewrite E2.
Qed.

(** Writing the next bytes of the input behind the buffered ones. *)
Lemma fill_same st bs c input n :
  streamed st bs c -> 0 <= n <= zlen input -> bufferedSize st + n <= 256 ->
  same_at (overwrite (bufferedSize st) (slice 0 n input) (buffer st)) 0 (bs ++ input) (64 * c) (bufferedSize st + n).
Proof.
  intros H Hn Hb. destruct H as [_ _ _ _ Hc Hl Hs _ _ _ Hbuf [_ _ Eh] _]. pose proof (zlen_nonneg input).
  assert (zlen (slice 0 n input) = n) as Ls by (apply zlen_slice; lia).
  split; [rewrite zlen_overwrite; lia|rewrite zlen_app; lia|].
  apply slice_same_app; try lia.
  - rewrite slice_overwrite_before by lia. by rewrite slice_app_l by lia.
  - rewrite Z.add_0_l, <- Hl. rewrite slice_overwrite_eq by lia.
    destruct (same_at_second bs input 0 n) as [_ _ E]; [lia..|]. by rewrite Z.add_0_r in E.
Qed.

Lemma complete_buffer_ok st bs c input :
  streamed st bs c -> zlen (bs ++ input) < 2 ^ 63 -> 256 < bufferedSize st + zlen input ->
  exists a1 c1 buf1 pos, complete_buffer st input = Some (a1, c1 mod perBlock, buf1, pos) /\
    reading (bs ++ input) input a1 c1 pos /\ 64 * c1 = zlen bs + pos /\ zlen buf1 = 256 /\
    (zlen input - pos <= 256 -> 0 < c1 /\ same_at buf1 192 (bs ++ input) (64 * c1 - 64) 64).
Proof.
  intros H Hsm Hl. pose proof perBlock_small. pose proof H as [Es El Eb Et Hc Hlen Hs Hsome Ha Hso Hbuf Hh Htl].
  unfold complete_buffer. change XXH3_INTERNALBUFFER_SIZE with 256. change XXH3_INTERNALBUFFER_STRIPES with 4.
  rewrite Es, El, Eb, Hso. pose proof (zlen_nonneg input). pose proof (zlen_nonneg bs). rewrite zlen_app in Hsm.
  assert (absorbed secret limit (bs ++ input) 0 (Z.to_nat c) XXH3_INIT_ACC = Some (acc st)) as Ha'.
  { rewrite <- Ha. symmetry. apply absorbed_same. apply same_at_app; [|lia]. split; [lia|lia|done]. }
  case_bool.
  - set (n := 256 - bufferedSize st). rewrite mem_read_ok by lia. cbn [mbind option_bind].
    pose proof (fill_same st bs c input n H ltac:(lia) ltac:(lia)) as Hf. replace (bufferedSize st + n) with 256 in Hf by lia.
    assert (zlen (slice 0 n input) = n) as Ls by (apply zlen_slice; lia). rewrite mem_write_ok by lia. cbn [mbind option_bind].
    rewrite (consumeStripes_absorbed _ 0 (bs ++ input) c 4) by (lia || done).
    destruct (absorbed_ok secret limit Hlimit Hsecret (bs ++ input) 0 (Z.to_nat c + 4) XXH3_INIT_ACC) as (a1 & E1 & L1);
      [done|lia|rewrite zlen_app; lia|].
    pose proof E1 as E1'. rewrite absorbed_app, Ha' in E1'. cbn [mbind option_bind] in E1'. rewrite Z2Nat.id, Z.add_0_l in E1' by lia.
    change (Z.to_nat 4) with 4%nat. rewrite E1'. cbn [mbind option_bind].
    eexists a1, (c + 4), _, n. split_and!; [done| |lia|rewrite zlen_overwrite; lia|].
    + split; [lia| |rewrite zlen_app; lia|lia|rewrite zlen_app; lia|].
      * by replace (Z.to_nat (c + 4)) with (Z.to_nat c + 4)%nat by lia.
      * replace (64 * (c + 4)) with (zlen bs + n) by lia. apply same_at_second; lia.
    + intros _. split; [lia|]. replace (64 * (c + 4) - 64) with (64 * c + 192) by lia.
      change 192 with (0 + 192) at 1. eapply same_at_part; [exact Hf|lia..].
  - assert (c = 0) as -> by (destruct (Z.eq_dec c 0); [done|destruct Hsome; lia]).
    exists (acc st), 0, (buffer st), 0. split_and!; [done| |lia|done|lia].
    split; [lia|done|rewrite zlen_app; lia|lia|rewrite zlen_app; lia|].
    replace (64 * 0) with (zlen bs + 0) by lia. apply same_at_second; lia.
Qed.

Lemma update_streamed st bs c input :
  streamed st bs c -> zlen (bs ++ input) < 2 ^ 63 ->
  exists st' c', XXH3_update st input = Some st' /\ streamed st' (bs ++ input) c' /\
    useSeed st' = useSeed st /\ seed st' = seed st /\ customSecret st' = customSecret st /\ extSecret st' = extSecret st.
Proof.
  intros H Hsm. pose proof H as [Es El Eb Et Hc Hlen Hs Hsome Ha Hso Hbuf Hh Htl].
  unfold XXH3_update. pose proof (zlen_nonneg input). pose proof (zlen_nonneg bs). rewrite zlen_app in Hsm.
  change XXH3_INTERNALBUFFER_SIZE with 256. rewrite Et, Es, El, Eb. rewrite !(u64_id (_ + zlen input)) by lia. case_bool.
  - rewrite mem_write_ok by lia. cbn [mbind option_bind]. eexists _, c. split; [done|]. split; [|done].
    rewrite (u32_id (zlen input)), u32_id by lia.
    pose proof (fill_same st bs c input (zlen input) H ltac:(lia) ltac:(lia)) as Hf. rewrite slice_full in Hf by done.
    assert (absorbed secret limit (bs ++ input) 0 (Z.to_nat c) XXH3_INIT_ACC = Some (acc st)) as Ha'.
    { rewrite <- Ha. symmetry. apply absorbed_same. apply same_at_app; [|lia]. split; [lia|lia|done]. }
    split; cbn [secretLimit nbStripesPerBlock totalLen bufferedSize acc nbStripesSoFar buffer set_stream]; try done; rewrite ?zlen_app; try lia.
    + rewrite zlen_overwrite; lia.
    + intros Hc' Hlt. destruct (Htl Hc' ltac:(lia)) as [[] [] Et'].
      split; [rewrite zlen_overwrite; lia|rewrite zlen_app; lia|]. rewrite slice_overwrite_after by lia.
      by rewrite slice_app_l by lia.
  - destruct (complete_buffer_ok st bs c input H) as (a1 & c1 & buf1 & pos & -> & R1 & E1 & L1 & T1); [rewrite zlen_app; lia|lia|].
    cbn [mbind option_bind].
    destruct (consume_input_ok _ _ _ _ _ buf1 R1 L1 T1) as (a2 & c2 & buf2 & -> & Hc2 & Hl2 & R2 & L2 & T2). cbn [mbind option_bind].
    set (pos2 := pos + 64 * (c2 - c1)) in *. pose proof R2 as [_ Ha2 Hlen2 Hp2 _ Hb2]. pose proof Hb2 as [[] _ Eb2].
    rewrite mem_read_ok by lia. cbn [mbind option_bind].
    assert (zlen (slice pos2 (zlen input - pos2) input) = zlen input - pos2) as Ls by (apply zlen_slice; lia).
    rewrite mem_write_ok by lia. cbn [mbind option_bind]. eexists _, c2. split; [done|]. split; [|done].
    rewrite u32_id by lia.
    split; cbn [secretLimit nbStripesPerBlock totalLen bufferedSize acc nbStripesSoFar buffer set_stream]; try done; rewrite ?zlen_app in *; try lia.
    + rewrite zlen_overwrite; lia.
    + split; [rewrite zlen_overwrite; lia|rewrite zlen_app; lia|]. rewrite slice_overwrite_eq by lia. done.
    + intros _ Hlt. destruct T2 as [[] [] Et2]. split; [rewrite zlen_overwrite; lia|rewrite zlen_app; lia|].
      rewrite slice_overwrite_after by lia. done.
Qed.

(** ** Digests *)

(** The last stripe is in the buffer, or partly behind it. *)
Lemma digest_long_absorbed st bs c :
  streamed st bs c -> 240 < zlen bs ->
  XXH3_digest_long st secret =
  a ← absorbed secret limit bs 0 (Z.to_nat ((zlen bs - 1) / 64)) XXH3_INIT_ACC;
  XXH3_accumulate_512 a bs (zlen bs - 64) secret (limit - 7).
Proof.
  intros H Hl. pose proof H as [Es El Eb Et Hc Hlen Hs Hsome Ha Hso Hbuf Hh Htl]. pose proof perBlock_small.
  unfold XXH3_digest_long. change XXH3_INTERNALBUFFER_SIZE with 256. change XXH_STRIPE_LEN with 64. change XXH_SECRET_LASTACC_START with 7.
  rewrite El, Eb, Hso.
  assert ((zlen bs - 1) / 64 = c + (bufferedSize st - 1) / 64) as ->.
  { rewrite Hlen. replace (64 * c + bufferedSize st - 1) with (bufferedSize st - 1 + c * 64) by lia. rewrite Z.div_add; lia. }
  case_bool.
  - set (n := (bufferedSize st - 1) / 64). assert (0 <= n /\ 64 * n <= bufferedSize st - 1) as [? ?].
    { unfold n. pose proof (Z.div_mod (bufferedSize st - 1) 64 ltac:(lia)). pose proof (Z.mod_pos_bound (bufferedSize st - 1) 64 ltac:(lia)).
      split; [apply Z.div_pos; lia|lia]. }
    rewrite (consumeStripes_absorbed _ 0 bs c n) by (lia || (eapply same_at_shorter; [exact Hh|lia])).
    rewrite Z2Nat.inj_add, absorbed_app, Ha by lia. cbn [mbind option_bind]. rewrite Z2Nat.id, Z.add_0_l by lia.
    destruct (absorbed secret limit bs c (Z.to_nat n) (acc st)) as [a1|]; [|done]. cbn [mbind option_bind].
    apply accumulate_512_same. rewrite Hlen. replace (64 * c + bufferedSize st - 64) with (64 * c + (bufferedSize st - 64)) by lia.
    replace (bufferedSize st - 64) with (0 + (bufferedSize st - 64)) at 1 by lia. eapply same_at_part; [exact Hh|lia..].
  - assert (0 < c) as Hc' by lia. specialize (Htl Hc' ltac:(lia)). destruct (Hsome Hc') as [? _].
    assert ((bufferedSize st - 1) / 64 = 0) as -> by (apply Z.div_small; lia). rewrite Z.add_0_r, Ha. cbn [mbind option_bind].
    set (b := bufferedSize st) in *. rewrite !mem_read_ok by lia. cbn [mbind option_bind].
    apply accumulate_512_same.
    assert (same_at (buffer st) (256 - (64 - b)) bs (zlen bs - 64) (64 - b)) as [_ _ E1].
    { replace (256 - (64 - b)) with (192 + b) by lia. replace (zlen bs - 64) with (64 * c - 64 + b) by lia.
      eapply same_at_part; [exact Htl|lia..]. }
    destruct Hh as [_ _ E2]. rewrite E1, E2.
    assert (slice (zlen bs - 64) (64 - b) bs ++ slice (64 * c) b bs = slice (zlen bs - 64) 64 bs) as ->.
    { rewrite (slice_split (zlen bs - 64) 64 (64 - b)) by lia. do 2 f_equal; lia. }
    assert (zlen (slice (zlen bs - 64) 64 bs) = 64) as Ls by (apply zlen_slice; lia).
    split; [lia|lia|]. by apply slice_full.
Qed.

(** Short inputs are all in the buffer. *)
Lemma short_buffered st bs c : streamed st bs c -> zlen bs <= 240 -> same_at (buffer st) 0 bs 0 (zlen bs).
Proof.
  intros [] ?. assert (c = 0) as -> by (destruct (Z.eq_dec c 0); [done|destruct sd_some0; lia]).
  by replace (zlen bs) with (bufferedSize st) by lia.
Qed.
End stream.

(** ** Uses of a state *)

(** The four variants of the interface: how a state is reset for one, and its
    one-shot functions. *)
Inductive variant :=
  | Default
  | WithSecret (secret : list byte) (secretSize : Z)
  | WithSeed (seed : Z)
  | WithSecretandSeed (secret : list byte) (secretSize seed : Z).

Definition reset_as (v : variant) (st : XXH3_state) : option (XXH_errorcode * XXH3_state) :=
  match v with
  | Default => Some (XXH3_64bits_reset st)
  | WithSecret s n => Some (XXH3_64bits_reset_withSecret st (Some s) n)
  | WithSeed x => XXH3_64bits_reset_withSeed st x
  | WithSecretandSeed s n x => Some (XXH3_64bits_reset_withSecretandSeed st (Some s) n x)
  end.

Definition one_shot64 (v : variant) (input : list byte) : option Z :=
  match v with
  | Default => XXH3_64bits input (zlen input)
  | WithSecret s n => XXH3_64bits_withSecret input (zlen input) s n
  | WithSeed x => XXH3_64bits_withSeed input (zlen input) x
  | WithSecretandSeed s n x => XXH3_64bits_withSecretandSeed input (zlen input) s n x
  end.

Definition one_shot128 (v : variant) (input : list byte) : option XXH128_hash :=
  match v with
  | Default => XXH3_128bits input (zlen input)
  | WithSecret s n => XXH3_128bits_withSecret input (zlen input) s n
  | WithSeed x => XXH3_128bits_withSeed input (zlen input) x
  | WithSecretandSeed s n x => XXH3_128bits_withSecretandSeed input (zlen input) s n x
  end.

(** The contract of the secrets. *)
Definition variant_ok (v : variant) : Prop :=
  match v with
  | WithSecret s n | WithSecretandSeed s n _ => 136 <= n <= zlen s /\ n < 2 ^ 63
  | _ => True
  end.

(** The calls that may have been made on a state before, failed ones included. *)
Inductive stream_op :=
  | OReset
  | OResetSecret (secret : option (list byte)) (secretSize : Z)
  | OResetSeed (seed : Z)
  | OResetSecretandSeed (secret : option (list byte)) (secretSize seed : Z)
  | OUpdate (input : list byte).

Definition stream_step (st : XXH3_state) (o : stream_op) : option XXH3_state :=
  match o with
  | OReset => Some (snd (XXH3_64bits_reset st))
  | OResetSecret s n => Some (snd (XXH3_64bits_reset_withSecret st s n))
  | OResetSeed x => snd <$> XXH3_64bits_reset_withSeed st x
  | OResetSecretandSeed s n x => Some (snd (XXH3_64bits_reset_withSecretandSeed st s n x))
  | OUpdate input => XXH3_update st input
  end.

Fixpoint stream_steps (st : XXH3_state) (os : list stream_op) : option XXH3_state :=
  match os with [] => Some st | o :: os => st ← stream_step st o; stream_steps st os end.

Definition XXH3_updates (st : XXH3_state) (pieces : list (list byte)) : option XXH3_state :=
  stream_steps st (map OUpdate pieces).

(** What all calls keep: the sizes of the arrays, and that the derived secret belongs
    to the seed while it is in use. *)
Record reusable (st : XXH3_state) : Prop := {
  ru_custom : zlen (customSecret st) = 192;
  ru_buffer : zlen (buffer st) = 256;
  ru_seed : extSecret st = None -> seed st <> 0 ->
    XXH3_initCustomSecret (repeat x00 192) (seed st) = Some (customSecret st)
}.

Lemma mem_write_len (m : list byte) off bs m' : mem_write m off bs = Some m' -> zlen m' = zlen m.
Proof.
  unfold mem_write. destruct (_ && _) eqn:E; [|done]. intros [= <-]. bool_prop. by apply zlen_overwrite.
Qed.

Lemma keep_last_len buf input pos buf' : keep_last buf input pos = Some buf' -> zlen buf' = zlen buf.
Proof. unfold keep_last. intros H. inv_monad. by eapply mem_write_len. Qed.

(** Opens the next step of a computation that returned. *)
Ltac next_step H :=
  match type of H with
  | ?m ≫= _ = Some _ => destruct m as [[[[??]?]?]|] eqn:?; [|done]
  | ?m ≫= _ = Some _ => destruct m as [[[??]?]|] eqn:?; [|done]
  | ?m ≫= _ = Some _ => destruct m as [[??]|] eqn:?; [|done]
  | ?m ≫= _ = Some _ => destruct m eqn:?; [|done]
  end; cbn [mbind option_bind] in H.

Lemma complete_len st input a n buf pos :
  complete_buffer st input = Some (a, n, buf, pos) -> zlen buf = zlen (buffer st).
Proof.
  unfold complete_buffer. destruct (negb _); intros H; [|by simplify_eq].
  next_step H. next_step H. next_step H. simplify_eq. by eapply mem_write_len.
Qed.

Lemma consume_len a n k buf input pos secret limit a' n' buf' pos' :
  consume_input a n k buf input pos secret limit = Some (a', n', buf', pos') -> zlen buf' = zlen buf.
Proof.
  unfold consume_input, consume_blocks. repeat case_bool; intros H.
  - repeat next_step H. simplify_eq. by eapply keep_last_len.
  - repeat next_step H. simplify_eq. by eapply keep_last_len.
  - by simplify_eq.
Qed.

Lemma update_keeps st input st' :
  XXH3_update st input = Some st' ->
  zlen (buffer st') = zlen (buffer st) /\ customSecret st' = customSecret st /\ seed st' = seed st /\ extSecret st' = extSecret st.
Proof.
  unfold XXH3_update. case_bool; intros H.
  - next_step H. simplify_eq. cbn. split_and!; try done. by eapply mem_write_len.
  - next_step H. next_step H. next_step H. next_step H. simplify_eq. cbn. split_and!; try done.
    erewrite mem_write_len by done. erewrite consume_len by done. by eapply complete_len.
Qed.

#[local] Opaque XXH3_initCustomSecret.

Lemma reset_reusable st x s n :
  zlen (customSecret st) = 192 -> zlen (buffer st) = 256 ->
  (s = None -> x <> 0 -> XXH3_initCustomSecret (repeat x00 192) x = Some (customSecret st)) ->
  reusable (XXH3_reset_internal st x s n).
Proof. intros. split; assumption. Qed.

(** The secret derived from a seed is there after the reset, computed or kept. *)
Lemma seed_secret st x :
  reusable st -> x <> 0 ->
  exists st', (if negb (x =? seed st) || bool_decide (is_Some (extSecret st)) then
      custom ← XXH3_initCustomSecret (customSecret st) x; Some (set_custom st custom) else Some st) = Some st' /\
    zlen (customSecret st') = 192 /\ zlen (buffer st') = 256 /\
    XXH3_initCustomSecret (repeat x00 192) x = Some (customSecret st').
Proof.
  intros [Hc Hb Hs] Hx. destruct (negb (x =? seed st) || bool_decide (is_Some (extSecret st))) eqn:E.
  - destruct (initCustomSecret_ok (customSecret st) (repeat x00 192) x) as (r & E1 & E2 & L); [done|done|].
    rewrite E1. cbn [mbind option_bind]. exists (set_custom st r). split_and!; [reflexivity|exact L|exact Hb|exact E2].
  - apply orb_false_iff in E as [E1 E2]. apply negb_false_iff, Z.eqb_eq in E1. subst x.
    apply bool_decide_eq_false in E2. exists st. split_and!; [reflexivity|exact Hc|exact Hb|]. apply Hs; [|exact Hx].
    destruct (extSecret st) eqn:Ee; [by destruct E2|reflexivity].
Qed.

Lemma step_reusable st o st' : reusable st -> stream_step st o = Some st' -> reusable st'.
Proof.
  intros Hr. pose proof Hr as [Hc Hb Hs]. destruct o as [|s n|x|s n x|input]; cbn [stream_step]; intros H.
  - injection H as <-. by apply reset_reusable.
  - destruct s as [s|]; unfold XXH3_64bits_reset_withSecret in H; [destruct (n <? _)|]; injection H as <-;
      apply reset_reusable; [exact Hc|exact Hb|done|exact Hc|exact Hb|done|exact Hc|exact Hb|]. intros _ N. by destruct N.
  - unfold XXH3_64bits_reset_withSeed in H. destruct (Z.eqb_spec x 0) as [->|Hx].
    { injection H as <-. by apply reset_reusable. }
    destruct (seed_secret st x Hr Hx) as (st1 & E & L1 & L2 & E1). rewrite E in H. injection H as <-.
    apply reset_reusable; [exact L1|exact L2|]. intros _ _. exact E1.
  - destruct s as [s|]; unfold XXH3_64bits_reset_withSecretandSeed in H; [destruct (n <? _)|]; injection H as <-;
      [exact Hr| |exact Hr]. split; [exact Hc|exact Hb|done].
  - apply update_keeps in H as (? & E1 & E2 & E3). split; [congruence|congruence|]. rewrite E1, E2, E3. exact Hs.
Qed.

Lemma steps_reusable os st st' : reusable st -> stream_steps st os = Some st' -> reusable st'.
Proof.
  revert st. induction os as [|o os IH]; intros st Hr H; cbn [stream_steps] in H; [by simplify_eq|].
  next_step H. eapply IH; [|done]. by eapply step_reusable.
Qed.

(** ** A state that was reset *)

Lemma reset_streamed st x s n secret :
  136 <= n < 2 ^ 63 -> n <= zlen secret -> zlen (buffer st) = 256 ->
  match s with None => customSecret st | Some s => s end = secret ->
  streamed secret (n - 64) (XXH3_reset_internal st x s n) [] 0.
Proof.
  intros Hn Hs Hb Es.
  assert (secretLimit (XXH3_reset_internal st x s n) = n - 64) as El by (apply u64_id; unfold XXH_STRIPE_LEN; lia).
  split; [exact Es|exact El|by rewrite <- El|reflexivity|lia|reflexivity|cbn; lia|lia|reflexivity|reflexivity|exact Hb| |lia].
  change (buffer (XXH3_reset_internal st x s n)) with (buffer st). change (bufferedSize (XXH3_reset_internal st x s n)) with 0.
  split; [lia|change (zlen (@nil byte)) with 0; lia|reflexivity].
Qed.

(** The variant hashes long inputs with the secret of the state, and short ones with
    what the digests choose. *)
Record plays (v : variant) (useSeed' : bool) (seed' : Z) (secret : list byte) (limit : Z) : Prop := {
  pl_limit : 72 <= limit < 2 ^ 63;
  pl_secret : limit + 64 <= zlen secret;
  pl_long64 : forall input, 240 < zlen input ->
    one_shot64 v input = XXH3_hashLong_64b_internal input (zlen input) secret (limit + 64);
  pl_long128 : forall input, 240 < zlen input ->
    one_shot128 v input = XXH3_hashLong_128b_internal input (zlen input) secret (limit + 64);
  pl_short64 : forall input, zlen input <= 240 ->
    one_shot64 v input =
    if useSeed' then XXH3_64bits_withSeed input (zlen input) seed'
    else XXH3_64bits_withSecret input (zlen input) secret (limit + 64);
  pl_short128 : forall input, zlen input <= 240 -> (useSeed' = negb (seed' =? 0)) ->
    one_shot128 v input =
    if useSeed' then XXH3_128bits_withSeed input (zlen input) seed'
    else XXH3_128bits_withSecret input (zlen input) secret (limit + 64)
}.

(** An input beyond the length classes goes to the function for long ones. *)
Lemma long64 p n x secret secretLen f :
  240 < n -> XXH3_64bits_internal p n x secret secretLen f = f p n x secret secretLen.
Proof. intros. unfold XXH3_64bits_internal, XXH3_MIDSIZE_MAX. by rewrite !(proj2 (Z.leb_gt _ _)) by lia. Qed.

Lemma long128 p n x secret secretLen f :
  240 < n -> XXH3_128bits_internal p n x secret secretLen f = f p n x secret secretLen.
Proof. intros. unfold XXH3_128bits_internal, XXH3_MIDSIZE_MAX. by rewrite !(proj2 (Z.leb_gt _ _)) by lia. Qed.

Ltac by_length :=
  intros;
  unfold one_shot64, one_shot128, XXH3_64bits, XXH3_64bits_withSecret, XXH3_64bits_withSeed, XXH3_64bits_withSecretandSeed,
    XXH3_128bits, XXH3_128bits_withSecret, XXH3_128bits_withSeed, XXH3_128bits_withSecretandSeed, XXH3_MIDSIZE_MAX;
  rewrite ?(proj2 (Z.leb_gt _ _)), ?(proj2 (Z.leb_le _ _)) by lia;
  first [reflexivity | rewrite long64 by lia | rewrite long128 by lia | by apply short64_any | by apply short128_any | idtac].

Lemma default_plays : plays Default false 0 XXH3_kSecret 128.
Proof.
  pose proof kSecret_len. split; [lia|lia|..]; by_length; reflexivity.
Qed.

Lemma secret_plays s n : 136 <= n <= zlen s -> n < 2 ^ 63 -> plays (WithSecret s n) false 0 s (n - 64).
Proof.
  intros. split; [lia|lia|..]; replace (n - 64 + 64) with n by lia; by_length; reflexivity.
Qed.

Lemma zero_seed_plays : plays (WithSeed 0) false 0 XXH3_kSecret 128.
Proof. pose proof kSecret_len. split; [lia|lia|..]; by_length; reflexivity. Qed.

Lemma seed_plays x custom :
  x <> 0 -> zlen custom = 192 -> XXH3_initCustomSecret (repeat x00 192) x = Some custom ->
  plays (WithSeed x) true x custom 128.
Proof.
  intros Hx L E. split; [lia|lia|..]; by_length.
  - unfold XXH3_hashLong_64b_withSeed, XXH3_hashLong_64b_withSeed_internal. rewrite (proj2 (Z.eqb_neq _ _)), E by done.
    cbn [mbind option_bind]. by rewrite L.
  - unfold XXH3_hashLong_128b_withSeed, XXH3_hashLong_128b_withSeed_internal. rewrite (proj2 (Z.eqb_neq _ _)), E by done.
    cbn [mbind option_bind]. by rewrite L.
Qed.

Lemma secret_seed_plays s n x : 136 <= n <= zlen s -> n < 2 ^ 63 -> plays (WithSecretandSeed s n x) true x s (n - 64).
Proof.
  intros. split; [lia|lia|..]; replace (n - 64 + 64) with n by lia; by_length; reflexivity.
Qed.

(** After a reset the state is that of the variant, without input. *)
Lemma reset_plays v st :
  reusable st -> variant_ok v ->
  exists st1 secret limit, reset_as v st = Some (XXH_OK, st1) /\ streamed secret limit st1 [] 0 /\
    plays v (useSeed st1) (seed st1) secret limit /\
    (useSeed st1 = negb (seed st1 =? 0) \/ exists s n, v = WithSecretandSeed s n 0).
Proof.
  intros Hr Hv. pose proof Hr as [Hc Hb _]. pose proof kSecret_len as Hk. destruct v as [|s n|x|s n x]; cbn [reset_as variant_ok] in *.
  - eexists _, XXH3_kSecret, 128. split_and!; [reflexivity| |exact default_plays|by left].
    apply (reset_streamed st 0 (Some XXH3_kSecret) 192); [lia|lia|exact Hb|reflexivity].
  - destruct Hv as [Hn Hm]. unfold XXH3_64bits_reset_withSecret, XXH3_SECRET_SIZE_MIN. rewrite (proj2 (Z.ltb_ge _ _)) by lia.
    eexists _, s, (n - 64). split_and!; [reflexivity| |by apply secret_plays|by left].
    apply reset_streamed; [lia|lia|exact Hb|reflexivity].
  - unfold XXH3_64bits_reset_withSeed. destruct (Z.eqb_spec x 0) as [->|Hx].
    + eexists _, XXH3_kSecret, 128. split_and!; [reflexivity| |exact zero_seed_plays|by left].
      apply (reset_streamed st 0 (Some XXH3_kSecret) 192); [lia|lia|exact Hb|reflexivity].
    + destruct (seed_secret st x Hr Hx) as (st1 & E & L1 & L2 & E1). rewrite E. cbn [mbind option_bind].
      eexists _, (customSecret st1), 128. split_and!; [reflexivity| | |by left].
      * apply (reset_streamed st1 x None 192); [lia|lia|exact L2|reflexivity].
      * change (useSeed _) with (negb (x =? 0)). change (seed (XXH3_reset_internal st1 x None XXH_SECRET_DEFAULT_SIZE)) with x.
        rewrite (proj2 (Z.eqb_neq _ _)) by done. by apply seed_plays.
  - destruct Hv as [Hn Hm]. unfold XXH3_64bits_reset_withSecretandSeed, XXH3_SECRET_SIZE_MIN. rewrite (proj2 (Z.ltb_ge _ _)) by lia.
    eexists _, s, (n - 64). split_and!; [reflexivity| |by apply secret_seed_plays|].
    + destruct (reset_streamed st x (Some s) n s) as []; [lia|lia|exact Hb|reflexivity|]. by split.
    + change (useSeed _) with true. change (seed _) with x. destruct (Z.eqb_spec x 0) as [->|]; eauto.
Qed.

Lemma updates_streamed secret limit st bs c pieces :
  72 <= limit < 2 ^ 63 -> limit + 64 <= zlen secret ->
  streamed secret limit st bs c -> zlen (bs ++ concat pieces) < 2 ^ 63 ->
  exists st' c', XXH3_updates st pieces = Some st' /\ streamed secret limit st' (bs ++ concat pieces) c' /\
    useSeed st' = useSeed st /\ seed st' = seed st.
Proof.
  intros Hl Hs. revert st bs c. induction pieces as [|p ps IH]; intros st bs c H Hm; unfold XXH3_updates in *; cbn [map stream_steps concat stream_step] in *.
  { exists st, c. by rewrite app_nil_r. }
  rewrite app_assoc in *. pose proof (zlen_nonneg (concat ps)).
  destruct (update_streamed secret limit ltac:(lia) Hs ltac:(lia) st bs c p H) as (st1 & c1 & -> & H1 & E1 & E2 & _);
    [rewrite !zlen_app in *; lia|].
  cbn [mbind option_bind]. destruct (IH st1 (bs ++ p) c1 H1 Hm) as (st2 & c2 & -> & H2 & E3 & E4). exists st2, c2. split_and!; congruence.
Qed.

Lemma long_hash secret limit input :
  72 <= limit -> limit + 64 <= zlen secret -> 240 < zlen input ->
  exists a, XXH3_hashLong_internal_loop XXH3_INIT_ACC input (zlen input) secret (limit + 64) = Some a /\ length a = 8%nat.
Proof.
  intros Hl Hs Hi. rewrite hashLong_loop_absorbed by lia.
  pose proof (Z.div_mod (zlen input - 1) 64 ltac:(lia)). pose proof (Z.mod_pos_bound (zlen input - 1) 64 ltac:(lia)).
  destruct (absorbed_ok secret limit Hl Hs input 0 (Z.to_nat ((zlen input - 1) / 64)) XXH3_INIT_ACC) as (a & -> & L); [done|lia|lia|].
  cbn [mbind option_bind]. apply accumulate_512_ok; [done|lia..].
Qed.

Lemma digest64_plays v secret limit st bs c :
  streamed secret limit st bs c -> plays v (useSeed st) (seed st) secret limit ->
  exists h, XXH3_64bits_digest st = Some h /\ one_shot64 v bs = Some h.
Proof.
  intros H [Hl Hs L64 _ S64 _]. pose proof H as [Es El _ Et _ _ _ _ _ _ Hb _ _]. pose proof (zlen_nonneg bs). pose proof kSecret_len.
  unfold XXH3_64bits_digest, XXH3_MIDSIZE_MAX. rewrite Es, El, Et. case_bool.
  - rewrite L64 by done. unfold XXH3_hashLong_64b_internal.
    destruct (long_hash secret limit bs) as (a & Ea & La); [lia|done|done|].
    pose proof Ea as Ea'. rewrite hashLong_loop_absorbed in Ea' by lia.
    rewrite (digest_long_absorbed secret limit ltac:(lia) ltac:(lia) st bs c H) by done. rewrite Ea', Ea. cbn [mbind option_bind].
    destruct (mergeAccs_ok a secret XXH_SECRET_MERGEACCS_START (u64 (zlen bs * XXH_PRIME64_1))) as [h ->];
      [done|done|unfold XXH_SECRET_MERGEACCS_START; lia|eauto].
  - rewrite S64 by lia. pose proof (short_buffered secret limit st bs c H ltac:(lia)) as Hp.
    rewrite u64_id by (unfold XXH_STRIPE_LEN; lia). unfold XXH3_64bits_withSeed, XXH3_64bits_withSecret, XXH_STRIPE_LEN.
    rewrite !(short64_prefix (buffer st) bs (zlen bs)) by (done || lia).
    destruct (useSeed st); edestruct short64_ok as [h ->]; eauto; lia.
Qed.

Lemma digest128_plays v secret limit st bs c :
  streamed secret limit st bs c -> plays v (useSeed st) (seed st) secret limit ->
  240 < zlen bs \/ useSeed st = negb (seed st =? 0) ->
  exists h, XXH3_128bits_digest st = Some h /\ one_shot128 v bs = Some h.
Proof.
  intros H [Hl Hs _ L128 _ S128] Hz. pose proof H as [Es El _ Et _ _ _ _ _ _ Hb _ _]. pose proof (zlen_nonneg bs). pose proof kSecret_len.
  unfold XXH3_128bits_digest, XXH3_MIDSIZE_MAX. rewrite Es, El, Et, u64_id by (unfold XXH_STRIPE_LEN; lia). case_bool.
  - rewrite L128 by done. unfold XXH3_hashLong_128b_internal, XXH_STRIPE_LEN.
    destruct (long_hash secret limit bs) as (a & Ea & La); [lia|done|done|].
    pose proof Ea as Ea'. rewrite hashLong_loop_absorbed in Ea' by lia.
    rewrite (digest_long_absorbed secret limit ltac:(lia) ltac:(lia) st bs c H) by done. rewrite Ea', Ea. cbn [mbind option_bind].
    destruct (merge128_ok a (zlen bs) secret (limit + 64)) as [h ->]; [done|lia|lia|eauto].
  - destruct Hz as [|Hz]; [lia|]. rewrite S128 by (done || lia). rewrite <- Hz.
    pose proof (short_buffered secret limit st bs c H ltac:(lia)) as Hp.
    unfold XXH3_128bits_withSeed, XXH3_128bits_withSecret, XXH_STRIPE_LEN.
    rewrite !(short128_prefix (buffer st) bs (zlen bs)) by (done || lia).
    destruct (useSeed st); edestruct short128_ok as [h ->]; eauto; lia.
Qed.

(** The default variant, on memory that was never initialised. *)
Lemma default_stream raw pieces :
  zlen (buffer raw) = 256 -> zlen (concat pieces) < 2 ^ 63 ->
  exists st, XXH3_updates (snd (XXH3_64bits_reset raw)) pieces = Some st /\
    (exists h, XXH3_128bits_digest st = Some h /\ XXH3_128bits (concat pieces) (zlen (concat pieces)) = Some h) /\
    (exists h, XXH3_64bits_digest st = Some h /\ XXH3_64bits (concat pieces) (zlen (concat pieces)) = Some h).
Proof.
  intros Hb Hm. pose proof kSecret_len as Hk.
  assert (streamed XXH3_kSecret 128 (snd (XXH3_64bits_reset raw)) [] 0) as H0
    by (apply (reset_streamed raw 0 (Some XXH3_kSecret) 192); [lia|lia|exact Hb|reflexivity]).
  destruct (updates_streamed XXH3_kSecret 128 (snd (XXH3_64bits_reset raw)) [] 0 pieces) as (st & c & E & H & Eu & Es);
    [lia|lia|exact H0|done|].
  assert (plays Default (useSeed st) (seed st) XXH3_kSecret 128) as Hp by (rewrite Eu, Es; exact default_plays).
  exists st. split_and!; [exact E| |].
  - apply (digest128_plays Default _ _ _ _ _ H Hp). right. by rewrite Eu, Es.
  - apply (digest64_plays Default _ _ _ _ _ H Hp).
Qed.

(** ** Properties *)

(** C33 A streaming state of XXH3, whatever was done with it before, computes the
    one-shot hash: after a reset for any variant of the interface and updates with the
    pieces of an input, however it is cut, the digest of 64 bits is that of the
    one-shot function of the variant on the whole, and so is that of 128 bits, but for
    the variant with a secret and the seed 0 on at most 240 bytes. No call reads or
    writes outside the input, the secret and the state. *)
Theorem stream_xxh3_eq (raw st : XXH3_state) (before : list stream_op) (v : variant) (pieces : list (list byte)) :
  zlen (customSecret raw) = 192 -> zlen (buffer raw) = 256 ->
  stream_steps (XXH3_createState raw) before = Some st ->
  variant_ok v -> zlen (concat pieces) < 2 ^ 63 ->
  exists st1 st2 h, reset_as v st = Some (XXH_OK, st1) /\ XXH3_updates st1 pieces = Some st2 /\
    XXH3_64bits_digest st2 = Some h /\ one_shot64 v (concat pieces) = Some h /\
    (240 < zlen (concat pieces) \/ (forall s n, v <> WithSecretandSeed s n 0) ->
     exists h128, XXH3_128bits_digest st2 = Some h128 /\ one_shot128 v (concat pieces) = Some h128).
Proof.
  intros Hc Hb Hbefore Hv Hm.
  assert (reusable st) as Hr by (eapply steps_reusable; [|exact Hbefore]; split; [exact Hc|exact Hb|by intros _ []]).
  destruct (reset_plays v st Hr Hv) as (st1 & secret & limit & E1 & H1 & P1 & Z1). pose proof P1 as [Hl Hs _ _ _ _].
  destruct (updates_streamed secret limit st1 [] 0 pieces Hl Hs H1 Hm) as (st2 & c2 & E2 & H2 & Eu & Ed).
  rewrite <- Eu, <- Ed in P1, Z1. cbn [app] in H2.
  destruct (digest64_plays v secret limit st2 _ c2 H2 P1) as (h & E3 & E4). exists st1, st2, h. split_and!; try done.
  intros Hz. eapply digest128_plays; [exact H2|exact P1|]. destruct Hz as [?|Hz]; [by left|right].
  destruct Z1 as [?|(s & n & ->)]; [done|]. by destruct (Hz s n).
Qed.

(** Memory as an allocation leaves it: any values, here zeros. *)
Definition raw_zero : XXH3_state :=
  mkState3 (repeat 0 8) (repeat x00 192) (repeat x00 256) 0 false 0 0 0 0 0 None.

Lemma stream_xxh3_eq_witness :
  exists st st1 st2 h,
    stream_steps (XXH3_createState raw_zero) [OResetSeed 5; OUpdate (str "abc"); OResetSecret None 0] = Some st /\
    reset_as (WithSecretandSeed XXH3_kSecret 140 7) st = Some (XXH_OK, st1) /\
    XXH3_updates st1 [str "ab"; repeat x01 300; []; repeat x02 700] = Some st2 /\
    XXH3_64bits_digest st2 = Some h.
Proof.
  destruct (stream_steps (XXH3_createState raw_zero) [OResetSeed 5; OUpdate (str "abc"); OResetSecret None 0]) as [st|] eqn:E;
    [|vm_compute in E; discriminate].
  destruct (stream_xxh3_eq raw_zero st [OResetSeed 5; OUpdate (str "abc"); OResetSecret None 0]
    (WithSecretandSeed XXH3_kSecret 140 7) [str "ab"; repeat x01 300; []; repeat x02 700])
    as (st1 & st2 & h & H1 & H2 & H3 & _).
  - reflexivity.
  - reflexivity.
  - exact E.
  - cbn [variant_ok]. rewrite kSecret_len. lia.
  - vm_compute. reflexivity.
  - exists st, st1, st2, h. split_and!; [reflexivity|exact H1|exact H2|exact H3].
Defined.

(** The digest of 128 bits tests the seed where that of 64 bits tests [useSeed]: with a
    secret and the seed 0 a short input has another hash than the one-shot function
    gives. *)
Lemma digest128_zero_seed :
  exists st1 st2, reset_as (WithSecretandSeed (repeat x01 136) 136 0) raw_zero = Some (XXH_OK, st1) /\
    XXH3_updates st1 [str "abc"] = Some st2 /\
    XXH3_64bits_digest st2 = one_shot64 (WithSecretandSeed (repeat x01 136) 136 0) (str "abc") /\
    XXH3_128bits_digest st2 <> one_shot128 (WithSecretandSeed (repeat x01 136) 136 0) (str "abc").
Proof.
  eexists _, _. split_and!; [reflexivity|vm_compute; reflexivity|vm_compute; reflexivity|vm_compute; discriminate].
Qed.

(** The pointer is aligned, lies in the block of [s + align] bytes with the byte of the
    offset before it and [s] bytes from it on, and the block is what is freed. *)
Lemma alignedMalloc_free malloc base s k :
  0 < k <= 7 -> 0 <= s -> malloc (s + 2 ^ k) = Some base -> 0 < base -> base + s + 2 ^ k < 2 ^ 64 ->
  exists ptr offset, XXH_alignedMalloc malloc s (2 ^ k) = Some (ptr, offset) /\
    ptr mod 2 ^ k = 0 /\ base <= ptr - 1 /\ ptr + s <= base + (s + 2 ^ k) /\
    XXH_alignedFree (Some (ptr, offset)) = Some base.
Proof.
  intros Hk Hs Ha Hb Hm. unfold XXH_alignedMalloc, XXH_alignedFree.
  assert (2 ^ k <= 2 ^ 7) by (apply Z.pow_le_mono_r; lia). assert (0 < 2 ^ k) by (apply Z.pow_pos_nonneg; lia).
  rewrite u64_id, Ha by lia. cbn [mbind option_bind].
  assert (Z.land base (2 ^ k - 1) = base mod 2 ^ k) as -> by (rewrite <- Z.land_ones, Z.ones_equiv by lia; f_equal; lia).
  pose proof (Z.mod_pos_bound base (2 ^ k) ltac:(lia)). pose proof (Z.div_mod base (2 ^ k) ltac:(lia)).
  eexists _, _. split; [reflexivity|].
  assert (u8 (2 ^ k - base mod 2 ^ k) = 2 ^ k - base mod 2 ^ k) as E8 by (apply Z.mod_small; lia).
  rewrite !(u64_id (2 ^ k - _)), E8, !u64_id by lia. split_and!; [|lia|lia|f_equal; lia].
  replace (base + (2 ^ k - base mod 2 ^ k)) with ((base / 2 ^ k + 1) * 2 ^ k) by lia. apply Z_mod_mult.
Qed.
