(* ===== verification/Xxhsum.v ===== *)
(** * Checksum files: third-party/xxHash/cli/xxhsum.c

    Hashing a file in blocks, the lines that are printed for it in the two conventions
    and the two byte orders, and the check of a file of such lines. What goes to the
    standard error is not modelled. *)

From Stdlib Require Import ZArith Lia.
From S2P Require Import Prelude Endian Stripes XXHash XXH64 XXH3 XXH128 XXH3Stream.

(** ** The program and its host *)

(** What reading a file gives, whether it ends in an error, and whether the file is a
    directory. *)
Record node := mkNode { content : list byte; read_error : bool; is_dir : bool }.

(** The files, the sizes of the blocks that can be allocated, whether the standard input
    is a terminal, the text of the last error, and what the stack holds at the place of
    the XXH3 state. *)
Record host := mkHost {
  node_at : list byte -> option node;
  malloc : Z -> bool;
  console : bool;
  strerror : list byte;
  stack3 : XXH3_state
}.

(** What is left of the standard input, and what was written to the standard output. *)
Record world := mkWorld { stdin_ : list byte; stdout_ : list byte }.

(** A program returns or leaves by [exit]; [None] is undefined behaviour. *)
Definition M (A : Type) : Type := world -> option (world * (A + Z)).

#[export] Instance M_ret : MRet M := fun A a w => Some (w, inl a).
#[export] Instance M_bind : MBind M := fun A B k m w =>
  match m w with
  | Some (w, inl a) => k a w
  | Some (w, inr code) => Some (w, inr code)
  | None => None
  end.

Definition exit {A} (code : Z) : M A := fun w => Some (w, inr code).
Definition lift {A} (o : option A) : M A := fun w => a ← o; Some (w, inl a).

Definition XSUM_output (text : list byte) : M () := fun w => Some (mkWorld (stdin_ w) (stdout_ w ++ text), inl ()).

(** ** Hashing *)

Inductive AlgoSelected := algo_xxh32 | algo_xxh64 | algo_xxh128 | algo_xxh3.

#[export] Instance AlgoSelected_eq : EqDecision AlgoSelected.
Proof. solve_decision. Defined.

(** The union with its active member. *)
Inductive Multihash := hash32 (h : Z) | hash64 (h : Z) | hash128 (h : XXH128_hash).

Record hash_states := mkStates { state32 : XXH32_state; state64 : XXH64_state; state3 : XXH3_state }.

Definition reset_states (raw : XXH3_state) : hash_states :=
  mkStates (XXH32_reset 0) (XXH64_reset 0) (snd (XXH3_64bits_reset raw)).

Definition update_states (hashType : AlgoSelected) (s : hash_states) (buffer : list byte) : option hash_states :=
  match hashType with
  | algo_xxh32 => x ← XXH32_update (state32 s) buffer; Some (mkStates x (state64 s) (state3 s))
  | algo_xxh64 => x ← XXH64_update (state64 s) buffer; Some (mkStates (state32 s) x (state3 s))
  | algo_xxh128 | algo_xxh3 => x ← XXH3_update (state3 s) buffer; Some (mkStates (state32 s) (state64 s) x)
  end.

Definition digest_states (hashType : AlgoSelected) (s : hash_states) : option Multihash :=
  match hashType with
  | algo_xxh32 => hash32 <$> XXH32_digest (state32 s)
  | algo_xxh64 => hash64 <$> XXH64_digest (state64 s)
  | algo_xxh128 => hash128 <$> XXH3_128bits_digest (state3 s)
  | algo_xxh3 => hash64 <$> XXH3_64bits_digest (state3 s)
  end.

(** The loop over [fread]; the fuel is the length of the data. *)
Fixpoint read_blocks (fuel : nat) (hashType : AlgoSelected) (s : hash_states) (data : list byte) (blockSize : nat) : option hash_states :=
  match take blockSize data with
  | [] => Some s
  | block =>
    match fuel with
    | O => None
    | S fuel => s ← update_states hashType s block; read_blocks fuel hashType s (drop blockSize data) blockSize
    end
  end.

Inductive handle := from_stdin | from_file (n : node).

(** All that reading up to the end of the file gives. *)
Definition take_input (f : handle) : M (list byte * bool) :=
  match f with
  | from_stdin => fun w => Some (mkWorld [] (stdout_ w), inl (stdin_ w, false))
  | from_file n => mret (content n, read_error n)
  end.

Definition XSUM_hashStream (h : host) (inFile : handle) (hashType : AlgoSelected) (blockSize : nat) : M Multihash :=
  '(data, error) ← take_input inFile;
  s ← lift (read_blocks (length data) hashType (reset_states (stack3 h)) data blockSize);
  if (error : bool) then exit 1 else lift (digest_states hashType s).

(** ** The lines *)

Definition hex_digit (n : Z) : byte := Z_to_byte (if n <? 10 then 48 + n else 87 + n).

(** [%02x] *)
Definition hex02 (b : byte) : list byte := [hex_digit (byte_to_Z b / 16); hex_digit (byte_to_Z b mod 16)].

Definition XSUM_display_LittleEndian (p : list byte) (length : nat) : list byte := concat (map hex02 (reverse (take length p))).
Definition XSUM_display_BigEndian (p : list byte) (length : nat) : list byte := concat (map hex02 (take length p)).

Definition XSUM_algoName (a : AlgoSelected) : list byte :=
  match a with
  | algo_xxh32 => str "XXH32" | algo_xxh64 => str "XXH64" | algo_xxh128 => str "XXH128" | algo_xxh3 => str "XXH3"
  end.

Definition XSUM_algoLE_name (a : AlgoSelected) : list byte :=
  match a with
  | algo_xxh32 => str "XXH32_LE" | algo_xxh64 => str "XXH64_LE" | algo_xxh128 => str "XXH128_LE" | algo_xxh3 => str "XXH3_LE"
  end.

Definition XSUM_algoLength (a : AlgoSelected) : nat :=
  match a with algo_xxh32 => 4 | algo_xxh64 => 8 | algo_xxh128 => 16 | algo_xxh3 => 8 end.

Definition newline : byte := x0a.

Definition XSUM_printLine_BSD_internal (filename canonicalHash : list byte) (hashType : AlgoSelected)
    (algoString : AlgoSelected -> list byte) (f_displayHash : list byte -> nat -> list byte) : M () :=
  XSUM_output (algoString hashType ++ str " (" ++ filename ++ str ") = ");;
  XSUM_output (f_displayHash canonicalHash (XSUM_algoLength hashType));;
  XSUM_output [newline].

Definition XSUM_printLine_BSD_LE (filename canonicalHash : list byte) (hashType : AlgoSelected) : M () :=
  XSUM_printLine_BSD_internal filename canonicalHash hashType XSUM_algoLE_name XSUM_display_LittleEndian.

Definition XSUM_printLine_BSD (filename canonicalHash : list byte) (hashType : AlgoSelected) : M () :=
  XSUM_printLine_BSD_internal filename canonicalHash hashType XSUM_algoName XSUM_display_BigEndian.

Definition XSUM_printLine_GNU_internal (filename canonicalHash : list byte) (hashType : AlgoSelected)
    (f_displayHash : list byte -> nat -> list byte) : M () :=
  XSUM_output (f_displayHash canonicalHash (XSUM_algoLength hashType));;
  XSUM_output (str "  " ++ filename ++ [newline]).

Definition XSUM_printLine_GNU (filename canonicalHash : list byte) (hashType : AlgoSelected) : M () :=
  XSUM_printLine_GNU_internal filename canonicalHash hashType XSUM_display_BigEndian.

Definition XSUM_printLine_GNU_LE (filename canonicalHash : list byte) (hashType : AlgoSelected) : M () :=
  XSUM_printLine_GNU_internal filename canonicalHash hashType XSUM_display_LittleEndian.

Inductive Display_endianess := big_endian | little_endian.
Inductive Display_convention := display_gnu | display_bsd.

Definition XSUM_kDisplayLine_fTable (convention : Display_convention) (endianess : Display_endianess)
  : list byte -> list byte -> AlgoSelected -> M () :=
  match convention, endianess with
  | display_gnu, big_endian => XSUM_printLine_GNU
  | display_gnu, little_endian => XSUM_printLine_GNU_LE
  | display_bsd, big_endian => XSUM_printLine_BSD
  | display_bsd, little_endian => XSUM_printLine_BSD_LE
  end.

(** The canonical form of XXH32: third-party/xxHash/xxhash.h. *)
Definition XXH32_canonicalFromHash (hash : Z) : list byte := le_bytes 4 (XXH_swap32 hash).

Definition XXH32_hashFromCanonical (src : list byte) : option Z :=
  bs ← mem_read src 0 4; Some (XXH_swap32 (le_value bs)).

Definition canonical_of (m : Multihash) : list byte :=
  match m with
  | hash32 x => XXH32_canonicalFromHash x
  | hash64 x => XXH64_canonicalFromHash x
  | hash128 x => XXH128_canonicalFromHash x
  end.

Definition blockSize : Z := 65536.

Definition stdinFileName : list byte := str "stdin".

(** The name is absent for the standard input; the status is 0 if a line was printed. *)
Definition XSUM_hashFile (h : host) (fileName : option (list byte)) (hashType : AlgoSelected)
    (displayEndianess : Display_endianess) (convention : Display_convention) : M Z :=
  let inFile :=
    match fileName with
    | None => Some (from_stdin, stdinFileName)
    | Some name =>
      match node_at h name with
      | Some n => if is_dir n then None else Some (from_file n, name)
      | None => None
      end
    end in
  match inFile with
  | None => mret 1
  | Some (inFile, name) =>
    if negb (malloc h blockSize) then mret 1
    else
      hashValue ← XSUM_hashStream h inFile hashType (Z.to_nat blockSize);
      XSUM_kDisplayLine_fTable convention displayEndianess name (canonical_of hashValue) hashType;;
      mret 0
  end.

Fixpoint hash_each (h : host) (fnList : list (list byte)) (hashType : AlgoSelected)
    (displayEndianess : Display_endianess) (convention : Display_convention) (result : Z) : M Z :=
  match fnList with
  | [] => mret result
  | name :: fnList =>
    r ← XSUM_hashFile h (Some name) hashType displayEndianess convention;
    hash_each h fnList hashType displayEndianess convention (Z.lor result r)
  end.

Definition XSUM_hashFiles (h : host) (fnList : list (list byte)) (hashType : AlgoSelected)
    (displayEndianess : Display_endianess) (convention : Display_convention) : M Z :=
  match fnList with
  | [] => XSUM_hashFile h None hashType displayEndianess convention
  | _ => hash_each h fnList hashType displayEndianess convention 0
  end.

(** ** Reading a line *)

Inductive GetLineResult := GetLine_ok | GetLine_eof | GetLine_exceedMaxLineLength | GetLine_outOfMemory.

Definition DEFAULT_LINE_LENGTH : Z := 8 * 2 + 2 + 4096 + 1.
Definition MAX_LINE_LENGTH : Z := 32 * 1024.

(** The capacity of the line buffer after room was made for [len + 1] bytes. *)
Definition grow_line (h : host) (lineMax len : Z) : Z + GetLineResult :=
  if lineMax <=? len + 1 then
    let newBufSize := lineMax + (lineMax / 2 + 1) in
    let newBufSize := if MAX_LINE_LENGTH <? newBufSize then MAX_LINE_LENGTH else newBufSize in
    if newBufSize <=? len + 1 then inr GetLine_exceedMaxLineLength
    else if negb (malloc h newBufSize) then inr GetLine_outOfMemory
    else inl newBufSize
  else inl lineMax.

(** The result, the line, the capacity and what is left of the input; a byte is stored
    inside the buffer only. *)
Fixpoint getLine_loop (h : host) (input : list byte) (lineMax : Z) (line : list byte)
  : option (GetLineResult * list byte * Z * list byte) :=
  match input with
  | [] =>
    assert! zlen line <? lineMax;
    Some (if zlen line =? 0 then GetLine_eof else GetLine_ok, line, lineMax, [])
  | c :: input =>
    match grow_line h lineMax (zlen line) with
    | inr error => Some (error, line, lineMax, input)
    | inl lineMax =>
      assert! zlen line <? lineMax;
      if bool_decide (c = newline) then Some (GetLine_ok, line, lineMax, input)
      else getLine_loop h input lineMax (line ++ [c])
    end
  end.

(** [lineMax] is 0 where there is no buffer. *)
Definition XSUM_getLine (h : host) (lineMax : Z) (input : list byte) : option (GetLineResult * list byte * Z * list byte) :=
  if lineMax <? 1 then
    if negb (malloc h DEFAULT_LINE_LENGTH) then Some (GetLine_outOfMemory, [], 0, input)
    else getLine_loop h input DEFAULT_LINE_LENGTH []
  else getLine_loop h input lineMax [].

(** ** Parsing a line *)

(** The line up to its terminator. *)
Fixpoint c_string (line : list byte) : list byte :=
  match line with
  | [] => []
  | c :: line => if bool_decide (c = x00) then [] else c :: c_string line
  end.

Fixpoint strchr (s : list byte) (c : byte) : option nat :=
  match s with
  | [] => None
  | d :: s => if bool_decide (d = c) then Some 0%nat else S <$> strchr s c
  end.

Definition strrchr (s : list byte) (c : byte) : option nat :=
  i ← strchr (reverse s) c; Some (length s - 1 - i)%nat.

(** [!memcmp(s, prefix, strlen(prefix))] *)
Definition starts_with (prefix s : list byte) : bool := bool_decide (take (length prefix) s = prefix).

(** [strstr(s, needle) != NULL] *)
Fixpoint strstr (s needle : list byte) : bool :=
  starts_with needle s || match s with [] => false | _ :: s => strstr s needle end.

Definition charToHex (c : byte) : Z :=
  let c := byte_to_Z c in
  if (48 <=? c) && (c <=? 57) then c - 48
  else if (65 <=? c) && (c <=? 70) then c - 65 + 10
  else if (97 <=? c) && (c <=? 102) then c - 97 + 10
  else -1.

(** [None] if a character outside the string is read, [Some None] if the format is
    invalid. *)
Fixpoint canonical_from (n i dstSize : nat) (hashStr : list byte) (reverseBytes : bool) : option (option (list byte)) :=
  match n with
  | O => Some (Some [])
  | S n =>
    let j := if reverseBytes then (dstSize - i - 1)%nat else i in
    c0 ← hashStr !! (j * 2)%nat;
    let h0 := charToHex c0 in
    if h0 <? 0 then Some None
    else
      c1 ← hashStr !! (j * 2 + 1)%nat;
      let h1 := charToHex c1 in
      if h1 <? 0 then Some None
      else
        rest ← canonical_from n (S i) dstSize hashStr reverseBytes;
        Some (dst ← rest; Some (Z_to_byte (Z.lor (Z.shiftl h0 4) h1) :: dst))
  end.

Definition XSUM_canonicalFromString (dstSize : nat) (hashStr : list byte) (reverseBytes : bool) : option (option (list byte)) :=
  canonical_from dstSize 0 dstSize hashStr reverseBytes.

Record ParsedLine := mkParsed { canonical : list byte; filename : list byte; algo : AlgoSelected }.

(** The algorithm of a tagged line, whose tag ends at the first space. *)
Definition tag_algo (tag : list byte) : AlgoSelected :=
  let a := algo_xxh64 in
  let a := if starts_with (str "XXH3") tag then algo_xxh3 else a in
  let a := if starts_with (str "XXH32") tag then algo_xxh32 else a in
  let a := if starts_with (str "XXH64") tag then algo_xxh64 else a in
  if starts_with (str "XXH128") tag then algo_xxh128 else a.

Definition length_algo (hash_len : nat) : AlgoSelected :=
  let a := algo_xxh64 in
  let a := if (hash_len =? 8)%nat then algo_xxh32 else a in
  let a := if (hash_len =? 16)%nat then algo_xxh64 else a in
  if (hash_len =? 32)%nat then algo_xxh128 else a.

(** The size of the digest, if the number of digits fits the algorithm. *)
Definition digest_size (hash_len : nat) (a : AlgoSelected) : option nat :=
  match hash_len with
  | 8 => if bool_decide (a = algo_xxh32) then Some 4 else None
  | 16 => if bool_decide (a = algo_xxh64) || bool_decide (a = algo_xxh3) then Some 8 else None
  | 32 => if bool_decide (a = algo_xxh128) then Some 16 else None
  | _ => None
  end%nat.

(** The digits, their number, the byte order, the algorithm and the name. *)
Definition line_parts (line : list byte) (rev : bool) : option (list byte * nat * bool * AlgoSelected * list byte) :=
  firstSpace ← strchr line x20;
  second ← line !! S firstSpace;
  if bool_decide (second = x28) then
    lastSpace ← strrchr line x20;
    if (lastSpace <? firstSpace + 5)%nat then None
    else if negb (bool_decide (line !! (lastSpace - 1)%nat = Some x3d)) || negb (bool_decide (line !! (lastSpace - 2)%nat = Some x20))
        || negb (bool_decide (line !! (lastSpace - 3)%nat = Some x29)) then None
    else
      let tag := take firstSpace line in
      let hash_ptr := drop (S lastSpace) line in
      Some (hash_ptr, length hash_ptr, strstr tag (str "_LE"), tag_algo tag,
        take (lastSpace - 3 - (firstSpace + 2)) (drop (firstSpace + 2) line))
  else Some (line, firstSpace, rev, length_algo firstSpace, drop (firstSpace + 2) line).

Definition XSUM_parseLine (line : list byte) (rev : bool) : option (option ParsedLine) :=
  match line_parts line rev with
  | None => Some None
  | Some (hash_ptr, hash_len, rev, a, name) =>
    match digest_size hash_len a with
    | None => Some None
    | Some n =>
      r ← XSUM_canonicalFromString n hash_ptr rev;
      Some (dst ← r; Some (mkParsed dst name a))
    end
  end.

(** ** Checking *)

Record ParseFileReport := mkReport {
  nProperlyFormattedLines : Z;
  nImproperlyFormattedLines : Z;
  nMismatchedChecksums : Z;
  nOpenOrReadFailures : Z;
  quit : bool
}.

Definition count_proper (r : ParseFileReport) : ParseFileReport :=
  mkReport (u64 (nProperlyFormattedLines r + 1)) (nImproperlyFormattedLines r) (nMismatchedChecksums r) (nOpenOrReadFailures r) (quit r).
Definition count_improper (r : ParseFileReport) : ParseFileReport :=
  mkReport (nProperlyFormattedLines r) (u64 (nImproperlyFormattedLines r + 1)) (nMismatchedChecksums r) (nOpenOrReadFailures r) (quit r).
Definition count_mismatch (r : ParseFileReport) : ParseFileReport :=
  mkReport (nProperlyFormattedLines r) (nImproperlyFormattedLines r) (u64 (nMismatchedChecksums r + 1)) (nOpenOrReadFailures r) (quit r).
Definition count_unread (r : ParseFileReport) : ParseFileReport :=
  mkReport (nProperlyFormattedLines r) (nImproperlyFormattedLines r) (nMismatchedChecksums r) (u64 (nOpenOrReadFailures r + 1)) (quit r).
Definition set_quit (r : ParseFileReport) : ParseFileReport :=
  mkReport (nProperlyFormattedLines r) (nImproperlyFormattedLines r) (nMismatchedChecksums r) (nOpenOrReadFailures r) true.

Record check_mode := mkMode { strictMode : bool; statusOnly : bool; quiet : bool }.

(** [%lu]; twenty digits are enough. *)
Fixpoint print_digits (fuel : nat) (n : Z) : list byte :=
  match fuel with
  | O => []
  | S fuel => (if n <? 10 then [] else print_digits fuel (n / 10)) ++ [Z_to_byte (48 + n mod 10)]
  end.

Definition print_lu (n : Z) : list byte := print_digits 20 n.

(** Whether the hash is the one of the line. *)
Definition hash_matches (p : ParsedLine) (xxh : Multihash) : option bool :=
  match algo p, xxh with
  | algo_xxh32, hash32 x => y ← XXH32_hashFromCanonical (canonical p); Some (x =? y)
  | algo_xxh64, hash64 x | algo_xxh3, hash64 x => y ← XXH64_hashFromCanonical (canonical p); Some (x =? y)
  | algo_xxh128, hash128 x => y ← XXH128_hashFromCanonical (canonical p); Some (XXH128_isEqual x y)
  | _, _ => None
  end.

(** The body of the loop for a line that was parsed. *)
Definition check_line (h : host) (a : check_mode) (inFileName : list byte) (lineNumber : Z) (p : ParsedLine)
    (report : ParseFileReport) : M ParseFileReport :=
  let fp := if bool_decide (filename p = stdinFileName) then Some from_stdin else from_file <$> node_at h (filename p) in
  match fp with
  | None =>
    (if negb (statusOnly a) then
      XSUM_output (inFileName ++ str ":" ++ print_lu lineNumber ++ str ": Could not open or read '" ++ filename p ++ str "': "
        ++ strerror h ++ str "." ++ [newline])
    else mret ());;
    mret (count_unread report)
  | Some fp =>
    xxh ← XSUM_hashStream h fp (algo p) (Z.to_nat blockSize);
    ok ← lift (hash_matches p xxh);
    (if negb (ok && quiet a) && negb (statusOnly a) then
      XSUM_output (filename p ++ str ": " ++ (if ok : bool then str "OK" else str "FAILED") ++ [newline])
    else mret ());;
    mret (if ok : bool then report else count_mismatch report)
  end.

(** The rest of a file that was opened, or of the standard input. *)
Definition input_left (inFile : option (list byte)) (w : world) : list byte :=
  match inFile with Some rest => rest | None => stdin_ w end.

Definition read_line (h : host) (inFile : option (list byte)) (lineMax : Z)
  : M (GetLineResult * list byte * Z * option (list byte)) := fun w =>
  '(r, line, lineMax, rest) ← XSUM_getLine h lineMax (input_left inFile w);
  match inFile with
  | Some _ => Some (w, inl (r, line, lineMax, Some rest))
  | None => Some (mkWorld rest (stdout_ w), inl (r, line, lineMax, None))
  end.

(** The loop over the lines; each takes a byte of the input at least. *)
Fixpoint parse_lines (fuel : nat) (h : host) (a : check_mode) (inFileName : list byte) (rev : bool)
    (inFile : option (list byte)) (lineMax lineNumber : Z) (report : ParseFileReport) : M ParseFileReport :=
  match fuel with
  | O => fun _ => None
  | S fuel =>
    let lineNumber := u64 (lineNumber + 1) in
    if lineNumber =? 0 then mret (set_quit report)
    else
      '(r, line, lineMax, inFile) ← read_line h inFile lineMax;
      match r with
      | GetLine_eof => mret report
      | GetLine_exceedMaxLineLength | GetLine_outOfMemory => mret (set_quit report)
      | GetLine_ok =>
        parsed ← lift (XSUM_parseLine (c_string line) rev);
        report ←
          match parsed with
          | None => mret (count_improper report)
          | Some p => check_line h a inFileName lineNumber p (count_proper report)
          end;
        parse_lines fuel h a inFileName rev inFile lineMax lineNumber report
      end
  end.

Definition XSUM_parseFile1 (h : host) (a : check_mode) (inFileName : list byte) (rev : bool) (inFile : option (list byte))
  : M ParseFileReport := fun w =>
  parse_lines (S (length (input_left inFile w))) h a inFileName rev inFile DEFAULT_LINE_LENGTH 0 (mkReport 0 0 0 0 false) w.

Definition plural (n : Z) (one more : list byte) : list byte := if n =? 1 then one else more.

Definition print_report (a : check_mode) (r : ParseFileReport) : M () :=
  if nProperlyFormattedLines r =? 0 then mret ()
  else if statusOnly a then mret ()
  else
    (let n := nImproperlyFormattedLines r in
     if n =? 0 then mret ()
     else XSUM_output (print_lu n ++ str " " ++ plural n (str "line is") (str "lines are") ++ str " improperly formatted" ++ [newline]));;
    (let n := nOpenOrReadFailures r in
     if n =? 0 then mret ()
     else XSUM_output (print_lu n ++ str " listed " ++ plural n (str "file") (str "files") ++ str " could not be read" ++ [newline]));;
    (let n := nMismatchedChecksums r in
     if n =? 0 then mret ()
     else XSUM_output (print_lu n ++ str " computed " ++ plural n (str "checksum") (str "checksums") ++ str " did NOT match" ++ [newline])).

Definition report_ok (a : check_mode) (r : ParseFileReport) : bool :=
  negb (nProperlyFormattedLines r =? 0) && (nMismatchedChecksums r =? 0) && (nOpenOrReadFailures r =? 0)
  && (negb (strictMode a) || (nImproperlyFormattedLines r =? 0)) && negb (quit r).

Definition XSUM_checkFile (h : host) (inFileName : option (list byte)) (displayEndianess : Display_endianess) (a : check_mode) : M bool :=
  let opened :=
    match inFileName with
    | None => Some (stdinFileName, None)
    | Some name => n ← node_at h name; Some (name, Some (content n))
    end in
  match opened with
  | None => mret false
  | Some (name, inFile) =>
    if negb (malloc h DEFAULT_LINE_LENGTH) || negb (malloc h blockSize) then exit 1
    else
      let rev := match displayEndianess with big_endian => false | little_endian => true end in
      report ← XSUM_parseFile1 h a name rev inFile;
      print_report a report;;
      mret (report_ok a report)
  end.

Fixpoint check_each (h : host) (fnList : list (list byte)) (displayEndianess : Display_endianess) (a : check_mode) (ok : bool) : M bool :=
  match fnList with
  | [] => mret ok
  | name :: fnList =>
    r ← XSUM_checkFile h (Some name) displayEndianess a;
    check_each h fnList displayEndianess a (ok && r)
  end.

Definition XSUM_checkFiles (h : host) (fnList : list (list byte)) (displayEndianess : Display_endianess) (a : check_mode) : M Z :=
  ok ←
    match fnList with
    | [] => XSUM_checkFile h None displayEndianess a
    | _ => check_each h fnList displayEndianess a true
    end;
  mret (if ok : bool then 0 else 1).

(** ** Hashing a file *)

(** The one-shot hash of the data. *)
Definition hash_of (hashType : AlgoSelected) (data : list byte) : option Multihash :=
  match hashType with
  | algo_xxh32 => hash32 <$> XXH32 data 0
  | algo_xxh64 => hash64 <$> XXH64 data 0
  | algo_xxh128 => hash128 <$> XXH3_128bits data (zlen data)
  | algo_xxh3 => hash64 <$> XXH3_64bits data (zlen data)
  end.

Fixpoint update_all (hashType : AlgoSelected) (s : hash_states) (blocks : list (list byte)) : option hash_states :=
  match blocks with [] => Some s | b :: blocks => s ← update_states hashType s b; update_all hashType s blocks end.

Lemma read_blocks_all fuel hashType data n :
  (0 < n)%nat -> (length data <= fuel)%nat ->
  exists blocks, concat blocks = data /\ Forall (fun b => zlen b <= Z.of_nat n) blocks /\
    forall s, read_blocks fuel hashType s data n = update_all hashType s blocks.
Proof.
  intros Hn. revert data. induction fuel as [|fuel IH]; intros [|c data] Hl; cbn in Hl; try lia.
  1, 2: exists []; split_and!; [done|constructor|]; intros s; cbn; by rewrite take_nil.
  destruct n as [|n]; [lia|]. cbn [read_blocks take drop].
  destruct (IH (drop n data)) as (bs & E & F & Er); [rewrite length_drop; lia|].
  exists ((c :: take n data) :: bs). split_and!.
  - cbn. by rewrite E, take_drop.
  - constructor; [|done]. unfold zlen. cbn [length]. rewrite length_take. lia.
  - intros s. cbn [update_all]. destruct (update_states _ _ _); [|done]. apply Er.
Qed.

Lemma update_all32 s blocks :
  update_all algo_xxh32 s blocks = x ← XXH32_updates (state32 s) blocks; Some (mkStates x (state64 s) (state3 s)).
Proof.
  revert s. induction blocks as [|b bs IH]; intros [s32 s64 s3]; [done|]. cbn.
  destruct (XXH32_update s32 b); [|done]. cbn. by rewrite IH.
Qed.

Lemma update_all64 s blocks :
  update_all algo_xxh64 s blocks = x ← XXH64_updates (state64 s) blocks; Some (mkStates (state32 s) x (state3 s)).
Proof.
  revert s. induction blocks as [|b bs IH]; intros [s32 s64 s3]; [done|]. cbn.
  destruct (XXH64_update s64 b); [|done]. cbn. by rewrite IH.
Qed.

Lemma update_all3 hashType s blocks :
  hashType = algo_xxh3 \/ hashType = algo_xxh128 ->
  update_all hashType s blocks = x ← XXH3_updates (state3 s) blocks; Some (mkStates (state32 s) (state64 s) x).
Proof.
  intros Ht. revert s. unfold XXH3_updates. induction blocks as [|b bs IH]; intros [s32 s64 s3]; [done|].
  destruct Ht as [-> | ->]; cbn [update_all update_states map stream_steps stream_step state3 state32 state64];
    (destruct (XXH3_update s3 b); [|done]); cbn [mbind option_bind]; by rewrite IH.
Qed.

(** The members of a hash are in their ranges. *)
Definition hash_range (m : Multihash) : Prop :=
  match m with
  | hash32 x => 0 <= x < 2 ^ 32
  | hash64 x => 0 <= x < 2 ^ 64
  | hash128 x => 0 <= low64 x < 2 ^ 64 /\ 0 <= high64 x < 2 ^ 64
  end.

Definition hash_type (m : Multihash) (a : AlgoSelected) : Prop :=
  match m, a with
  | hash32 _, algo_xxh32 | hash64 _, algo_xxh64 | hash64 _, algo_xxh3 | hash128 _, algo_xxh128 => True
  | _, _ => False
  end.

(** Hashing in blocks gives the one-shot hash. *)
Lemma blocks_hash raw hashType data n :
  (0 < n)%nat -> zlen data < 2 ^ 63 -> zlen (buffer raw) = 256 ->
  exists s m, read_blocks (length data) hashType (reset_states raw) data n = Some s /\
    digest_states hashType s = Some m /\ hash_of hashType data = Some m.
Proof.
  intros Hn Hd Hb. destruct (read_blocks_all (length data) hashType data n) as (bs & <- & F & E); [done|done|]. rewrite E.
  assert (Forall (fun b => zlen b < 2 ^ 63) bs) as F'.
  { clear -Hd. induction bs as [|b bs IH]; [done|]. cbn [concat] in Hd. rewrite zlen_app in Hd.
    pose proof (zlen_nonneg b). pose proof (zlen_nonneg (concat bs)). constructor; [lia|apply IH; lia]. }
  destruct hashType.
  - rewrite update_all32. destruct (updates_ok 0 (XXH32_reset 0) [] bs F' (reset_ok 0)) as (x & Ex & Hx). cbn [state32 reset_states].
    rewrite Ex. cbn [mbind option_bind]. destruct (XXH32_total (concat bs) 0) as [m Em].
    eexists _, _. split_and!; [done| |]; cbn [digest_states state32 hash_of]; rewrite ?(digest_ok _ _ _ Hx); cbn [app]; by rewrite Em.
  - rewrite update_all64. destruct (updates64_ok 0 (XXH64_reset 0) [] bs) as (x & Ex & Hx); [done|by split|]. cbn [state64 reset_states].
    rewrite Ex. cbn [mbind option_bind]. destruct (XXH64_total (concat bs) 0) as (m & Em & _).
    eexists _, _. split_and!; [done| |]; cbn [digest_states state64 hash_of]; rewrite ?(digest64_ok _ _ _ Hx); cbn [app]; by rewrite Em.
  - destruct (default_stream raw bs Hb Hd) as (x & Ex & (m & Em1 & Em2) & _).
    rewrite update_all3 by auto. cbn [state3 reset_states]. rewrite Ex. eexists _, _. split_and!; [done| |]; cbn [digest_states state3 hash_of].
    + by rewrite Em1.
    + by rewrite Em2.
  - destruct (default_stream raw bs Hb Hd) as (x & Ex & _ & (m & Em1 & Em2)).
    rewrite update_all3 by auto. cbn [state3 reset_states]. rewrite Ex. eexists _, _. split_and!; [done| |]; cbn [digest_states state3 hash_of].
    + by rewrite Em1.
    + by rewrite Em2.
Qed.

Lemma hash_of_ok a data m : hash_of a data = Some m -> hash_range m /\ hash_type m a.
Proof.
  destruct a; cbn [hash_of].
  - destruct (XXH32 data 0) as [x|] eqn:E; [|done]. intros [= <-]. split; [by eapply XXH32_range|done].
  - destruct (XXH64_total data 0) as (x & -> & H). intros [= <-]. by split.
  - destruct (XXH3_128bits data (zlen data)) as [x|] eqn:E; [|done]. intros [= <-]. split; [by eapply XXH3_128bits_range|done].
  - destruct (XXH3_64bits data (zlen data)) as [x|] eqn:E; [|done]. intros [= <-]. split; [by eapply XXH3_64bits_range|done].
Qed.

Lemma canonical32_roundtrip x : 0 <= x < 2 ^ 32 -> XXH32_hashFromCanonical (XXH32_canonicalFromHash x) = Some x.
Proof.
  intros Hx. unfold XXH32_hashFromCanonical, XXH32_canonicalFromHash, XXH_swap32.
  rewrite mem_read_ok by (rewrite ?zlen_le_bytes; lia). cbn [mbind option_bind].
  rewrite (slice_full _ 4) by (by rewrite zlen_le_bytes). by rewrite canonical_word.
Qed.

(** The canonical form of a hash matches it. *)
Lemma canonical_matches m a name :
  hash_range m -> hash_type m a -> hash_matches (mkParsed (canonical_of m) name a) m = Some true.
Proof.
  destruct m as [x|x|x], a; try done; intros Hr _; cbn [hash_matches canonical_of canonical algo hash_range] in *.
  - rewrite canonical32_roundtrip by done. cbn. by rewrite Z.eqb_refl.
  - rewrite canonical64_roundtrip by done. cbn. by rewrite Z.eqb_refl.
  - rewrite canonical64_roundtrip by done. cbn. by rewrite Z.eqb_refl.
  - destruct Hr. rewrite canonical128_roundtrip by done. cbn [mbind option_bind]. unfold XXH128_isEqual. by rewrite bool_decide_eq_true_2.
Qed.

Lemma canonical_length m a : hash_type m a -> length (canonical_of m) = XSUM_algoLength a.
Proof. destruct m, a; done. Qed.

(** ** A printed line is parsed *)

Definition digits (e : Display_endianess) (p : list byte) (n : nat) : list byte :=
  match e with big_endian => XSUM_display_BigEndian p n | little_endian => XSUM_display_LittleEndian p n end.

Definition tag (e : Display_endianess) (a : AlgoSelected) : list byte :=
  match e with big_endian => XSUM_algoName a | little_endian => XSUM_algoLE_name a end.

(** What is printed for a file, without the end of the line. *)
Definition line_of (c : Display_convention) (e : Display_endianess) (name p : list byte) (a : AlgoSelected) : list byte :=
  match c with
  | display_gnu => digits e p (XSUM_algoLength a) ++ str "  " ++ name
  | display_bsd => tag e a ++ str " (" ++ name ++ str ") = " ++ digits e p (XSUM_algoLength a)
  end.

Lemma display_line c e name p a w :
  XSUM_kDisplayLine_fTable c e name p a w = Some (mkWorld (stdin_ w) (stdout_ w ++ line_of c e name p a ++ [newline]), inl ()).
Proof.
  destruct c, e; unfold XSUM_kDisplayLine_fTable, XSUM_printLine_GNU, XSUM_printLine_GNU_LE, XSUM_printLine_BSD,
    XSUM_printLine_BSD_LE, XSUM_printLine_GNU_internal, XSUM_printLine_BSD_internal, XSUM_output, mbind, M_bind;
    cbn [stdin_ stdout_]; unfold line_of, digits, tag; by rewrite <- !app_assoc.
Qed.

Lemma hex_digit_value n : 0 <= n < 16 -> charToHex (hex_digit n) = n.
Proof.
  intros H. assert (Z.to_nat n < 16)%nat as Hk by lia. rewrite <- (Z2Nat.id n) by lia. revert Hk. generalize (Z.to_nat n). clear.
  intros k Hk. do 16 (destruct k as [|k]; [reflexivity|]). lia.
Qed.

Lemma charToHex_not_sep c : 0 <= charToHex c -> c <> x20 /\ c <> x00 /\ c <> newline.
Proof. intros H. split_and!; intros ->; by apply Z.leb_le in H. Qed.

Lemma hex_digits_clean l : Forall (fun c => c <> x20 /\ c <> x00 /\ c <> newline) (concat (map hex02 l)).
Proof.
  induction l as [|b l IH]; [constructor|]. pose proof (byte_to_Z_range b).
  pose proof (Z.div_mod (byte_to_Z b) 16). pose proof (Z.mod_pos_bound (byte_to_Z b) 16).
  cbn [map concat hex02 app]. constructor; [|constructor; [|exact IH]]; apply charToHex_not_sep; rewrite hex_digit_value; lia.
Qed.

Lemma hex_lookup l t j b :
  l !! j = Some b ->
  (concat (map hex02 l) ++ t) !! (j * 2)%nat = Some (hex_digit (byte_to_Z b / 16)) /\
  (concat (map hex02 l) ++ t) !! (j * 2 + 1)%nat = Some (hex_digit (byte_to_Z b mod 16)).
Proof.
  revert j. induction l as [|c l IH]; intros [|j] H; try done; cbn [map concat hex02 app] in *.
  - by injection H as ->.
  - apply (IH j H).
Qed.

Lemma hex_byte b : Z_to_byte (Z.lor (Z.shiftl (byte_to_Z b / 16) 4) (byte_to_Z b mod 16)) = b.
Proof. destruct b; reflexivity. Qed.

Lemma canonical_from_digits l s (back : bool) n i :
  (n + i = length l)%nat ->
  (forall k b, l !! k = Some b -> let j := if back then (length l - k - 1)%nat else k in
     s !! (j * 2)%nat = Some (hex_digit (byte_to_Z b / 16)) /\ s !! (j * 2 + 1)%nat = Some (hex_digit (byte_to_Z b mod 16))) ->
  canonical_from n i (length l) s back = Some (Some (drop i l)).
Proof.
  intros Hn Hs. revert i Hn. induction n as [|n IH]; intros i Hn.
  { by rewrite drop_ge by lia. }
  destruct (lookup_lt_is_Some_2 l i) as [b Hb]; [lia|]. destruct (Hs i b Hb) as [E0 E1].
  pose proof (byte_to_Z_range b). pose proof (Z.div_mod (byte_to_Z b) 16). pose proof (Z.mod_pos_bound (byte_to_Z b) 16).
  cbn [canonical_from]. rewrite E0. cbn [mbind option_bind]. rewrite hex_digit_value by lia. rewrite (proj2 (Z.ltb_ge _ _)) by lia.
  rewrite E1. cbn [mbind option_bind]. rewrite hex_digit_value by lia. rewrite (proj2 (Z.ltb_ge _ _)) by lia.
  rewrite IH by lia. cbn [mbind option_bind]. rewrite hex_byte. by rewrite (drop_S _ _ _ Hb).
Qed.

(** The digits of a hash, whatever follows them, give the hash. *)
Lemma canonical_from_display e p t :
  XSUM_canonicalFromString (length p) (digits e p (length p) ++ t) (match e with big_endian => false | little_endian => true end)
  = Some (Some p).
Proof.
  unfold XSUM_canonicalFromString. rewrite (canonical_from_digits p); [done|lia|]. intros k b Hk. cbn zeta.
  pose proof (lookup_lt_Some _ _ _ Hk). destruct e; cbn [digits]; unfold XSUM_display_BigEndian, XSUM_display_LittleEndian;
    rewrite take_ge by lia; apply hex_lookup; [done|].
  rewrite reverse_lookup by lia. by replace (length p - S (length p - k - 1))%nat with k by lia.
Qed.

Lemma strchr_app s t c : Forall (fun d => d <> c) s -> strchr (s ++ c :: t) c = Some (length s).
Proof.
  induction 1 as [|d s Hd _ IH]; cbn [app strchr].
  - by rewrite bool_decide_eq_true_2.
  - rewrite bool_decide_eq_false_2, IH by done. done.
Qed.

Lemma strrchr_app s t c : Forall (fun d => d <> c) t -> strrchr (s ++ c :: t) c = Some (length s).
Proof.
  intros H. unfold strrchr. rewrite reverse_app, reverse_cons, <- app_assoc. cbn [app].
  rewrite strchr_app by (by apply Forall_reverse). cbn [mbind option_bind]. rewrite length_app, length_reverse. cbn [length]. f_equal. lia.
Qed.

Lemma digits_length e p n : length p = n -> length (digits e p n) = (2 * n)%nat.
Proof.
  intros <-. assert (forall l, length (concat (map hex02 l)) = (2 * length l)%nat) as H.
  { induction l as [|b l IH]; [done|]. cbn [map concat hex02 app length]. lia. }
  destruct e; cbn [digits]; unfold XSUM_display_BigEndian, XSUM_display_LittleEndian; rewrite take_ge, H, ?length_reverse by lia; done.
Qed.

Lemma digits_clean e p n : Forall (fun c => c <> x20 /\ c <> x00 /\ c <> newline) (digits e p n).
Proof. destruct e; apply hex_digits_clean. Qed.

Lemma digits_no_space e p n : Forall (fun c => c <> x20) (digits e p n).
Proof. eapply Forall_impl; [apply digits_clean|]. by intros ? []. Qed.

Definition is_little (e : Display_endianess) : bool := match e with big_endian => false | little_endian => true end.

Lemma parts_gnu e name p a rev :
  a <> algo_xxh3 -> length p = XSUM_algoLength a ->
  line_parts (line_of display_gnu e name p a) rev =
  Some (line_of display_gnu e name p a, (2 * XSUM_algoLength a)%nat, rev, a, name).
Proof.
  intros Ha Hp. cbn [line_of]. set (s := digits e p _). assert (length s = 2 * XSUM_algoLength a)%nat as L by (by apply digits_length).
  change (str "  " ++ name) with (x20 :: x20 :: name). unfold line_parts.
  rewrite strchr_app by apply digits_no_space. cbn [mbind option_bind].
  rewrite lookup_app_r by lia. replace (S (length s) - length s)%nat with 1%nat by lia. cbn [lookup list_lookup mbind option_bind].
  rewrite bool_decide_eq_false_2 by done. rewrite drop_app_ge by lia. replace (length s + 2 - length s)%nat with 2%nat by lia. cbn [drop].
  rewrite L. by destruct a.
Qed.

Lemma parts_bsd e name p a rev :
  line_parts (line_of display_bsd e name p a) rev =
  Some (digits e p (XSUM_algoLength a), length (digits e p (XSUM_algoLength a)), is_little e, a, name).
Proof.
  cbn [line_of]. set (s := digits e p _). set (t := tag e a).
  assert (Forall (fun c => c <> x20) t) as Ht by (destruct e, a; repeat constructor; done).
  assert (strstr t (str "_LE") = is_little e /\ tag_algo t = a) as [Et Ea] by (by destruct e, a).
  set (line := _ ++ _).
  assert (line = t ++ x20 :: x28 :: name ++ str ") = " ++ s) as E1 by done.
  assert (line = (t ++ str " (" ++ name ++ str ") =") ++ x20 :: s) as E2
    by (unfold line; rewrite <- !app_assoc; done).
  unfold line_parts. rewrite E1 at 1. rewrite strchr_app by done. cbn [mbind option_bind].
  assert (forall k, line !! (length t + k)%nat = (x20 :: x28 :: name ++ str ") = " ++ s) !! k) as Hk
    by (intros k; rewrite E1, lookup_app_r by lia; f_equal; lia).
  replace (S (length t)) with (length t + 1)%nat by lia. rewrite (Hk 1%nat). cbn [lookup list_lookup mbind option_bind].
  rewrite bool_decide_eq_true_2 by done. rewrite E2 at 1. rewrite strrchr_app by apply digits_no_space. cbn [mbind option_bind].
  set (last := length (t ++ str " (" ++ name ++ str ") =")).
  assert (last = length t + 2 + length name + 3)%nat as L by (unfold last; rewrite !length_app; cbn [length str]; cbn; lia).
  assert (forall k, line !! (length t + 2 + length name + k)%nat = (str ") = " ++ s) !! k) as Hn.
  { intros k. replace (length t + 2 + length name + k)%nat with (length t + S (S (length name + k)))%nat by lia. rewrite Hk.
    change ((name ++ str ") = " ++ s) !! (length name + k)%nat = (str ") = " ++ s) !! k). rewrite lookup_app_r by lia. f_equal. lia. }
  rewrite (proj2 (Nat.ltb_ge _ _)) by lia.
  replace (last - 1)%nat with (length t + 2 + length name + 2)%nat by lia. replace (last - 2)%nat with (length t + 2 + length name + 1)%nat by lia.
  replace (last - 3)%nat with (length t + 2 + length name + 0)%nat by lia. rewrite !Hn.
  rewrite !bool_decide_eq_true_2 by done. cbn [negb orb].
  assert (take (length t) line = t) as -> by (rewrite E1; by apply take_app_length). rewrite Et, Ea.
  assert (drop (S last) line = s) as ->.
  { rewrite E2. replace (S last) with (last + 1)%nat by lia. rewrite <- drop_drop. unfold last. by rewrite drop_app_length. }
  do 2 f_equal. rewrite E1, drop_app_ge by lia. replace (length t + 2 - length t)%nat with 2%nat by lia. cbn [drop].
  rewrite drop_0, take_app_length'; [done|]. lia.
Qed.

(** A line that was printed is parsed back; the byte order has to be known for the
    untagged ones. *)
Lemma parse_printed c e name p a rev :
  length p = XSUM_algoLength a -> (c = display_gnu -> a <> algo_xxh3 /\ rev = is_little e) ->
  XSUM_parseLine (line_of c e name p a) rev = Some (Some (mkParsed p name a)).
Proof.
  intros Hp Hc. unfold XSUM_parseLine. destruct c.
  - destruct (Hc eq_refl) as [Ha ->]. rewrite parts_gnu by done.
    assert (digest_size (2 * XSUM_algoLength a) a = Some (length p)) as -> by (rewrite Hp; by destruct a).
    cbn [line_of]. rewrite <- Hp. unfold is_little. by rewrite canonical_from_display.
  - rewrite parts_bsd. rewrite digits_length by done.
    assert (digest_size (2 * XSUM_algoLength a) a = Some (length p)) as -> by (rewrite Hp; by destruct a).
    rewrite <- Hp, <- (app_nil_r (digits _ _ _)). unfold is_little. by rewrite canonical_from_display.
Qed.

Lemma c_string_id l : Forall (fun c => c <> x00) l -> c_string l = l.
Proof. induction 1 as [|c l Hc _ IH]; [done|]. cbn. by rewrite bool_decide_eq_false_2, IH by done. Qed.

(** Parsing reads inside the line only, whatever the line is. *)
Lemma canonical_from_defined n i dstSize s (back : bool) :
  (n + i = dstSize)%nat -> (2 * dstSize <= length s)%nat -> is_Some (canonical_from n i dstSize s back).
Proof.
  intros Hn Hs. revert i Hn. induction n as [|n IH]; intros i Hn; [by eexists|]. cbn [canonical_from].
  set (j := if back then _ else _). assert (j < dstSize)%nat as Hj by (unfold j; destruct back; lia).
  destruct (lookup_lt_is_Some_2 s (j * 2)) as [c0 ->]; [lia|]. cbn [mbind option_bind]. case_bool; [by eexists|].
  destruct (lookup_lt_is_Some_2 s (j * 2 + 1)) as [c1 ->]; [lia|]. cbn [mbind option_bind]. case_bool; [by eexists|].
  destruct (IH (S i)) as [r ->]; [lia|]. by eexists.
Qed.

Lemma digest_size_len k a n : digest_size k a = Some n -> k = (2 * n)%nat.
Proof.
  do 33 (destruct k as [|k]; [cbn; intros H; repeat case_match; simplify_eq; done|]). done.
Qed.

Lemma parts_len line rev s k back a name : line_parts line rev = Some (s, k, back, a, name) -> (k <= length s)%nat.
Proof.
  unfold line_parts. destruct (strchr line x20) as [i|]; [|done]. cbn [mbind option_bind].
  destruct (line !! S i) as [c|] eqn:E; [|done]. cbn [mbind option_bind]. apply lookup_lt_Some in E. case_bool.
  - destruct (strrchr line x20) as [j|]; [|done]. cbn [mbind option_bind]. repeat case_bool; try done. intros [= <- <- <- <- <-]. lia.
  - intros [= <- <- <- <- <-]. lia.
Qed.

Lemma parseLine_defined line rev : is_Some (XSUM_parseLine line rev).
Proof.
  unfold XSUM_parseLine. destruct (line_parts line rev) as [[[[[s k] back] a] name]|] eqn:E; [|by eexists].
  apply parts_len in E. destruct (digest_size k a) as [n|] eqn:En; [|by eexists]. apply digest_size_len in En.
  destruct (canonical_from_defined n 0 n s back) as [r Er]; [lia|lia|]. unfold XSUM_canonicalFromString. rewrite Er. by eexists.
Qed.

(** ** The lines of a file *)

(** The lines, the last one also without an end of line; [cur] has been read of the
    first. *)
Fixpoint split_lines (cur input : list byte) : list (list byte) :=
  match input with
  | [] => if bool_decide (cur = []) then [] else [cur]
  | c :: input => if bool_decide (c = newline) then cur :: split_lines [] input else split_lines (cur ++ [c]) input
  end.

Lemma split_lines_head cur c input : exists l ls, split_lines cur (c :: input) = l :: ls /\ zlen cur <= zlen l.
Proof.
  revert cur c. induction input as [|d input IH]; intros cur c; cbn [split_lines]; case_bool.
  1, 3: eexists _, _; split; [done|lia].
  - rewrite bool_decide_eq_false_2 by (by destruct cur). eexists _, _. split; [done|]. rewrite zlen_app. change (zlen [c]) with 1. lia.
  - destruct (IH (cur ++ [c]) d) as (l & ls & E & H). cbn [split_lines] in E. exists l, ls. split; [done|].
    rewrite zlen_app in H. change (zlen [c]) with 1 in H. lia.
Qed.

Definition malloc_ok (h : host) : Prop := forall n, 0 < n <= blockSize -> malloc h n = true.

(** What a call of [XSUM_getLine] gives, when memory can be had. *)
Definition line_read (r : GetLineResult) (lines : list (list byte)) (line : list byte) (lines' : list (list byte)) : Prop :=
  match r with
  | GetLine_ok => lines = line :: lines'
  | GetLine_eof => lines = []
  | GetLine_exceedMaxLineLength => exists l, In l lines /\ MAX_LINE_LENGTH <= zlen l + 1
  | GetLine_outOfMemory => False
  end.

Lemma grow_line_ok h lineMax len :
  malloc_ok h -> 1 <= lineMax <= MAX_LINE_LENGTH -> 0 <= len < lineMax ->
  match grow_line h lineMax len with
  | inl n => 1 <= n <= MAX_LINE_LENGTH /\ len + 1 < n
  | inr r => r = GetLine_exceedMaxLineLength /\ MAX_LINE_LENGTH <= len + 1
  end.
Proof.
  intros Hm Hl Hlen. unfold grow_line, MAX_LINE_LENGTH, malloc_ok, blockSize in *.
  pose proof (Z.div_mod lineMax 2). pose proof (Z.mod_pos_bound lineMax 2).
  destruct (Z.leb_spec lineMax (len + 1)); [|lia].
  destruct (Z.ltb_spec (32 * 1024) (lineMax + (lineMax / 2 + 1))).
  - destruct (Z.leb_spec (32 * 1024) (len + 1)); [split; [done|lia]|]. rewrite Hm by lia. cbn. lia.
  - rewrite (proj2 (Z.leb_gt _ _)) by lia. rewrite Hm by lia. cbn. lia.
Qed.

Lemma getLine_loop_ok h input lineMax line :
  malloc_ok h -> 1 <= lineMax <= MAX_LINE_LENGTH -> zlen line < lineMax ->
  exists r line' lineMax' rest, getLine_loop h input lineMax line = Some (r, line', lineMax', rest) /\
    1 <= lineMax' <= MAX_LINE_LENGTH /\ line_read r (split_lines line input) line' (split_lines [] rest) /\
    (r = GetLine_ok -> length rest < length line + length input)%nat.
Proof.
  intros Hm. revert lineMax line. induction input as [|c input IH]; intros lineMax line Hl Hline; cbn [getLine_loop].
  { rewrite check_bind_true by (by apply Z.ltb_lt). eexists _, _, _, _. split_and!; [done|lia|lia| |].
    - cbn [split_lines]. destruct line; [done|]. rewrite (proj2 (Z.eqb_neq _ _)) by done. cbn. done.
    - intros E. destruct line; [done|]. cbn. lia. }
  pose proof (zlen_nonneg line). pose proof (grow_line_ok h lineMax (zlen line) Hm Hl ltac:(lia)) as Hg.
  destruct (grow_line h lineMax (zlen line)) as [n|r].
  - destruct Hg as [Hn Hlen]. rewrite check_bind_true by (apply Z.ltb_lt; lia). cbn [split_lines]. case_bool.
    + eexists _, _, _, _. split_and!; [done|lia|lia|done|]. cbn. lia.
    + destruct (IH n (line ++ [c])) as (r & l' & n' & rest & E & Hn' & Hr & Hlt); [done|rewrite zlen_app; change (zlen [c]) with 1; lia|].
      eexists _, _, _, _. split_and!; [exact E|lia|lia|exact Hr|]. intros Er. specialize (Hlt Er). rewrite length_app in Hlt. cbn in *. lia.
  - destruct Hg as [-> Hlen]. eexists _, _, _, _. split_and!; [done|lia|lia| |done].
    destruct (split_lines_head line c input) as (l & ls & E & Hll). rewrite E. exists l. split; [by left|lia].
Qed.

Lemma getLine_ok h input lineMax :
  malloc_ok h -> 1 <= lineMax <= MAX_LINE_LENGTH ->
  exists r line lineMax' rest, XSUM_getLine h lineMax input = Some (r, line, lineMax', rest) /\
    1 <= lineMax' <= MAX_LINE_LENGTH /\ line_read r (split_lines [] input) line (split_lines [] rest) /\
    (r = GetLine_ok -> length rest < length input)%nat.
Proof.
  intros Hm Hl. unfold XSUM_getLine. rewrite (proj2 (Z.ltb_ge _ _)) by lia.
  apply (getLine_loop_ok h input lineMax [] Hm Hl). unfold zlen. cbn. lia.
Qed.

(** ** The check of a file *)

(** Whether a file has the hash of a line. *)
Definition file_matches (p : ParsedLine) (n : node) : bool :=
  match hash_of (algo p) (content n) with
  | Some m => match hash_matches p m with Some b => b | None => false end
  | None => false
  end.

(** What the check finds for a line, and what the line adds to the report. *)
Inductive line_kind := Matching | Mismatching | Unreadable | Improper.

#[export] Instance line_kind_eq : EqDecision line_kind.
Proof. solve_decision. Defined.

Definition kind_of (h : host) (rev : bool) (line : list byte) : line_kind :=
  match XSUM_parseLine (c_string line) rev with
  | Some (Some p) =>
    match node_at h (filename p) with
    | Some n => if file_matches p n then Matching else Mismatching
    | None => Unreadable
    end
  | _ => Improper
  end.

Definition account_line (h : host) (rev : bool) (r : ParseFileReport) (line : list byte) : ParseFileReport :=
  match kind_of h rev line with
  | Matching => count_proper r
  | Mismatching => count_mismatch (count_proper r)
  | Unreadable => count_unread (count_proper r)
  | Improper => count_improper r
  end.

(** The host gives memory and files that can be hashed. *)
Record host_ok (h : host) : Prop := {
  ho_malloc : malloc_ok h;
  ho_stack : zlen (buffer (stack3 h)) = 256;
  ho_size : forall name n, node_at h name = Some n -> zlen (content n) < 2 ^ 63
}.

(** A line does not name the standard input or a file that cannot be read to its end. *)
Definition line_plain (h : host) (rev : bool) (line : list byte) : Prop :=
  forall p, XSUM_parseLine (c_string line) rev = Some (Some p) ->
    filename p <> stdinFileName /\ forall n, node_at h (filename p) = Some n -> read_error n = false.

Lemma hashStream_file h n a w :
  zlen (buffer (stack3 h)) = 256 -> zlen (content n) < 2 ^ 63 ->
  exists m, hash_of a (content n) = Some m /\
    XSUM_hashStream h (from_file n) a (Z.to_nat blockSize) w = Some (w, if read_error n then inr 1 else inl m).
Proof.
  intros Hb Hn. destruct (blocks_hash (stack3 h) a (content n) (Z.to_nat blockSize)) as (s & m & E1 & E2 & E3); [unfold blockSize; lia|done|done|].
  exists m. split; [done|]. unfold XSUM_hashStream, take_input, mbind, M_bind, mret, M_ret, lift. cbn beta iota. rewrite E1. cbn.
  destruct (read_error n); [done|]. unfold lift. by rewrite E2.
Qed.

(** A parsed line has a digest of the size of its algorithm. *)
Lemma canonical_from_length n i dstSize s back dst : canonical_from n i dstSize s back = Some (Some dst) -> length dst = n.
Proof.
  revert i dst. induction n as [|n IH]; intros i dst; cbn [canonical_from]; [by intros [= <-]|].
  generalize (if back then dstSize - i - 1 else i)%nat. intros j.
  destruct (s !! (j * 2)%nat) as [c0|]; [|done]. cbn [mbind option_bind]. case_bool; [done|].
  destruct (s !! _) as [c1|]; [|done]. cbn [mbind option_bind]. case_bool; [done|].
  destruct (canonical_from n _ _ _ _) as [[d|]|] eqn:E; [|done..]. intros [= <-]. cbn. f_equal. by eapply IH.
Qed.

Lemma digest_size_algo k a n : digest_size k a = Some n -> n = XSUM_algoLength a.
Proof.
  do 33 (destruct k as [|k]; [cbn; intros H; repeat case_match; bool_prop; simplify_eq; try done; destruct a; done|]). done.
Qed.

Lemma parsed_length line rev p : XSUM_parseLine line rev = Some (Some p) -> length (canonical p) = XSUM_algoLength (algo p).
Proof.
  unfold XSUM_parseLine. destruct (line_parts line rev) as [[[[[s k] back] a] name]|]; [|done].
  destruct (digest_size k a) as [n|] eqn:En; [|done]. apply digest_size_algo in En. unfold XSUM_canonicalFromString.
  destruct (canonical_from n 0 n s back) as [[d|]|] eqn:E; [|done..]. cbn. intros [= <-]. apply canonical_from_length in E. cbn. congruence.
Qed.

Lemma hash_matches_defined p m : hash_type m (algo p) -> length (canonical p) = XSUM_algoLength (algo p) -> is_Some (hash_matches p m).
Proof.
  destruct p as [d name a]. cbn [algo canonical]. intros Ht Hd. unfold hash_matches. cbn [algo canonical].
  destruct m, a; try done; cbn in Hd; unfold XXH32_hashFromCanonical, XXH64_hashFromCanonical, XXH128_hashFromCanonical, read64;
    rewrite !mem_read_ok by (unfold zlen; rewrite ?Hd; lia); by eexists.
Qed.

(** A line is checked as it is accounted for. *)
Lemma check_line_ok h a inFileName lineNumber line rev p r w :
  host_ok h -> line_plain h rev line -> XSUM_parseLine (c_string line) rev = Some (Some p) ->
  exists w', check_line h a inFileName lineNumber p (count_proper r) w = Some (w', inl (account_line h rev r line)).
Proof.
  intros [_ Hs Hn] Hp E. destruct (Hp p E) as [Hname Hread]. unfold check_line, account_line, kind_of. rewrite E.
  rewrite bool_decide_eq_false_2 by done. destruct (node_at h (filename p)) as [n|] eqn:En; cbn [fmap option_fmap option_map].
  - destruct (hashStream_file h n (algo p) w Hs (Hn _ _ En)) as (m & Em & Eh). rewrite (Hread n eq_refl) in Eh.
    unfold mbind, M_bind. rewrite Eh. destruct (hash_of_ok _ _ _ Em) as [_ Ht].
    destruct (hash_matches_defined p m Ht (parsed_length _ _ _ E)) as [b Eb]. unfold lift. rewrite Eb. cbn [mbind option_bind].
    unfold file_matches. rewrite Em, Eb. destruct b; case_bool; unfold XSUM_output, mret, M_ret; by eexists.
  - case_bool; [unfold XSUM_output|]; unfold mbind, M_bind, mret, M_ret; by eexists.
Qed.

Lemma parse_lines_ok fuel h a inFileName rev rest lineMax k r w :
  host_ok h -> (length rest < fuel)%nat -> 1 <= lineMax <= MAX_LINE_LENGTH -> 0 <= k -> k + zlen rest + 1 < 2 ^ 64 ->
  Forall (line_plain h rev) (split_lines [] rest) ->
  exists w' r', parse_lines fuel h a inFileName rev (Some rest) lineMax k r w = Some (w', inl r') /\
    (r' = fold_left (account_line h rev) (split_lines [] rest) r \/
     quit r' = true /\ Exists (fun l => MAX_LINE_LENGTH <= zlen l + 1) (split_lines [] rest)).
Proof.
  intros Hh. revert rest lineMax k r w. induction fuel as [|fuel IH]; intros rest lineMax k r w Hf Hl Hk Hk' Hp; [lia|].
  cbn [parse_lines]. pose proof (zlen_nonneg rest). rewrite u64_id, (proj2 (Z.eqb_neq _ _)) by lia.
  destruct (getLine_ok h rest lineMax (ho_malloc h Hh) Hl) as (g & line & lineMax' & rest' & Eg & Hl' & Hr & Hlt).
  unfold read_line, mbind at 1, M_bind at 1. cbn [input_left]. rewrite Eg. cbn [mbind option_bind].
  destruct g; cbn [line_read] in Hr.
  - rewrite Hr in *. apply Forall_cons in Hp as [Hp1 Hp2]. destruct (parseLine_defined (c_string line) rev) as [parsed Ep].
    unfold mbind, M_bind, lift. rewrite Ep. cbn [mbind option_bind fold_left].
    assert (exists w1, (match parsed with Some p => check_line h a inFileName (k + 1) p (count_proper r) | None => mret (count_improper r) end) w
      = Some (w1, inl (account_line h rev r line))) as [w1 E1].
    { destruct parsed as [p|]; [by apply check_line_ok|]. exists w. unfold account_line, kind_of. by rewrite Ep. }
    rewrite E1. specialize (Hlt eq_refl).
    destruct (IH rest' lineMax' (k + 1) (account_line h rev r line) w1) as (w' & r' & E & Hr'); try done; [lia|lia|unfold zlen in *; lia|].
    exists w', r'. split; [exact E|]. destruct Hr' as [Er|[Hq Hx]]; [by left|right; split; [done|by apply Exists_cons_tl]].
  - exists w, r. split; [done|]. left. by rewrite Hr.
  - eexists _, _. split; [done|]. right. split; [done|]. destruct Hr as (l & Hin & Hlong). apply Exists_exists. exists l.
    split; [by apply list_elem_of_In|done].
  - done.
Qed.

Fixpoint tally {A} (f : A -> bool) (l : list A) : Z :=
  match l with [] => 0 | x :: l => Z.b2z (f x) + tally f l end.

Lemma tally_range {A} (f : A -> bool) l : 0 <= tally f l <= zlen l.
Proof.
  induction l as [|x l IH]; cbn [tally]; unfold zlen in *; cbn [length]; [lia|]. destruct (f x); cbn [Z.b2z]; lia.
Qed.

Lemma tally_zero {A} (f : A -> bool) l : tally f l = 0 <-> Forall (fun x => f x = false) l.
Proof.
  induction l as [|x l IH]; cbn [tally]; [by split|]. pose proof (tally_range f l). rewrite Forall_cons, <- IH.
  destruct (f x); cbn [Z.b2z]; split; [lia|by intros []|intros; split; [done|lia]|intros []; lia].
Qed.

Definition is_kind (h : host) (rev : bool) (k : line_kind) (line : list byte) : bool := bool_decide (kind_of h rev line = k).

Lemma account_counts h rev lines r :
  0 <= nProperlyFormattedLines r -> nProperlyFormattedLines r + zlen lines < 2 ^ 64 ->
  0 <= nImproperlyFormattedLines r -> nImproperlyFormattedLines r + zlen lines < 2 ^ 64 ->
  0 <= nMismatchedChecksums r -> nMismatchedChecksums r + zlen lines < 2 ^ 64 ->
  0 <= nOpenOrReadFailures r -> nOpenOrReadFailures r + zlen lines < 2 ^ 64 ->
  fold_left (account_line h rev) lines r =
  mkReport (nProperlyFormattedLines r + tally (fun l => negb (is_kind h rev Improper l)) lines)
    (nImproperlyFormattedLines r + tally (is_kind h rev Improper) lines)
    (nMismatchedChecksums r + tally (is_kind h rev Mismatching) lines)
    (nOpenOrReadFailures r + tally (is_kind h rev Unreadable) lines) (quit r).
Proof.
  revert r. induction lines as [|l lines IH]; intros r H1 H1' H2 H2' H3 H3' H4 H4'.
  { destruct r. cbn in *. f_equal; lia. }
  change (zlen (l :: lines)) with (Z.of_nat (S (length lines))) in *. pose proof (zlen_nonneg lines). unfold zlen in *.
  assert (forall k, is_kind h rev k l = bool_decide (kind_of h rev l = k)) as Hk by done.
  cbn [fold_left tally]. rewrite !Hk. unfold account_line at 2.
  destruct (kind_of h rev l); rewrite IH;
    unfold count_proper, count_improper, count_mismatch, count_unread; cbn [nProperlyFormattedLines nImproperlyFormattedLines
      nMismatchedChecksums nOpenOrReadFailures quit]; rewrite ?u64_id by lia; try lia;
    repeat match goal with |- context [bool_decide (?x = ?y)] =>
      first [rewrite (bool_decide_eq_true_2 (x = y)) by done | rewrite (bool_decide_eq_false_2 (x = y)) by done] end;
    cbn [negb Z.b2z]; f_equal; lia.
Qed.

(** The lines of a checksum file that is good: one at least is well formed, each of
    those has the hash of its file, and with [--strict] there are no others. *)
Definition good_sums (h : host) (rev : bool) (a : check_mode) (lines : list (list byte)) : Prop :=
  Exists (fun l => kind_of h rev l <> Improper) lines /\
  Forall (fun l => kind_of h rev l = Matching \/ kind_of h rev l = Improper /\ strictMode a = false) lines.

Lemma report_ok_good h rev a lines :
  zlen lines < 2 ^ 64 ->
  report_ok a (fold_left (account_line h rev) lines (mkReport 0 0 0 0 false)) = true <-> good_sums h rev a lines.
Proof.
  intros Hl. rewrite account_counts by (cbn; lia). unfold report_ok. cbn [nProperlyFormattedLines nImproperlyFormattedLines
    nMismatchedChecksums nOpenOrReadFailures quit]. rewrite !Z.add_0_l.
  rewrite !andb_true_iff, orb_true_iff, !negb_true_iff, !Z.eqb_eq, Z.eqb_neq, !tally_zero. unfold good_sums, is_kind.
  split.
  - intros [[[[Hp Hm] Hu] Hs] _]. split.
    + apply not_Forall_Exists in Hp; [|intros ?; apply _]. eapply Exists_impl; [exact Hp|]. intros l H E. apply H. cbn beta.
      by rewrite bool_decide_eq_true_2.
    + apply Forall_forall. intros l Hin. rewrite Forall_forall in Hm, Hu. specialize (Hm l Hin). specialize (Hu l Hin).
      cbn beta in Hm, Hu. apply bool_decide_eq_false in Hm, Hu.
      destruct (kind_of h rev l) eqn:E; [by left|done|done|right; split; [done|]]. destruct Hs as [Hs|Hs]; [done|].
      rewrite Forall_forall in Hs. specialize (Hs l Hin). cbn beta in Hs. apply bool_decide_eq_false in Hs. done.
  - intros [Hx Hf]. rewrite Forall_forall in Hf. split_and!.
    + intros HF. rewrite Forall_forall in HF. apply Exists_exists in Hx as (l & Hin & Hk). specialize (HF l Hin).
      cbn beta in HF. by rewrite bool_decide_eq_false_2 in HF.
    + apply Forall_forall. intros l Hin. apply bool_decide_eq_false_2. destruct (Hf l Hin) as [-> | [-> _]]; done.
    + apply Forall_forall. intros l Hin. apply bool_decide_eq_false_2. destruct (Hf l Hin) as [-> | [-> _]]; done.
    + destruct (strictMode a) eqn:Ea; [right|by left]. apply Forall_forall. intros l Hin. apply bool_decide_eq_false_2.
      destruct (Hf l Hin) as [-> | [_ ?]]; done.
    + done.
Qed.

Lemma split_lines_length cur input : (length (split_lines cur input) <= S (length input))%nat.
Proof.
  revert cur. induction input as [|c input IH]; intros cur; cbn [split_lines length]; case_bool; cbn [length]; try lia.
  - specialize (IH []). lia.
  - specialize (IH (cur ++ [c])). lia.
Qed.

Lemma print_report_ok a r w : exists w', print_report a r w = Some (w', inl ()).
Proof. unfold print_report, mbind, M_bind, XSUM_output, mret, M_ret. repeat case_bool; by eexists. Qed.

(** The check of a file that was opened ends with the report on its lines, or gives up
    at a line that is too long. *)
Lemma checkFile_report h sums n e a w :
  host_ok h -> node_at h sums = Some n -> Forall (line_plain h (is_little e)) (split_lines [] (content n)) ->
  exists w' r, XSUM_checkFile h (Some sums) e a w = Some (w', inl (report_ok a r)) /\
    (r = fold_left (account_line h (is_little e)) (split_lines [] (content n)) (mkReport 0 0 0 0 false) \/
     quit r = true /\ Exists (fun l => MAX_LINE_LENGTH <= zlen l + 1) (split_lines [] (content n))).
Proof.
  intros Hh En Hp. pose proof (ho_size h Hh _ _ En) as Hn. unfold XSUM_checkFile. rewrite En. cbn [mbind option_bind].
  rewrite !(ho_malloc h Hh) by (unfold DEFAULT_LINE_LENGTH, blockSize; lia). cbn [negb orb].
  destruct (parse_lines_ok (S (length (content n))) h a sums (is_little e) (content n) DEFAULT_LINE_LENGTH 0 (mkReport 0 0 0 0 false) w)
    as (w1 & r & E & Hr); [done|lia|unfold DEFAULT_LINE_LENGTH, MAX_LINE_LENGTH; lia|done|lia|done|].
  destruct (print_report_ok a r w1) as [w2 E2]. exists w2, r. split; [|done].
  unfold mbind, M_bind, XSUM_parseFile1. cbn [input_left]. fold (is_little e). rewrite E. by rewrite E2.
Qed.

(** ** Properties *)

(** C31 The check of a checksum file ends, without a read outside a line or a write
    outside the line buffer, and decides what it promises: it succeeds only if the file
    has a well-formed line, every well-formed line has the hash of a file that can be
    opened, and in strict mode there are no other lines; and it succeeds on every such
    file unless a line is too long. The lines must not name the standard input or a
    file that fails while it is read, where the program exits. *)
Theorem check_decides (h : host) (sums : list byte) (n : node) (e : Display_endianess) (a : check_mode) (w : world) :
  host_ok h -> node_at h sums = Some n -> Forall (line_plain h (is_little e)) (split_lines [] (content n)) ->
  exists w' b, XSUM_checkFile h (Some sums) e a w = Some (w', inl b) /\
    (b = true -> good_sums h (is_little e) a (split_lines [] (content n))) /\
    (Forall (fun l => zlen l + 1 < MAX_LINE_LENGTH) (split_lines [] (content n)) ->
     good_sums h (is_little e) a (split_lines [] (content n)) -> b = true).
Proof.
  intros Hh En Hp. destruct (checkFile_report h sums n e a w Hh En Hp) as (w' & r & E & Hr).
  pose proof (ho_size h Hh _ _ En) as Hn. pose proof (split_lines_length [] (content n)).
  exists w', (report_ok a r). split; [exact E|]. destruct Hr as [-> | [Hq Hx]].
  - rewrite report_ok_good by (unfold zlen in *; lia). done.
  - split.
    + unfold report_ok. by rewrite Hq, andb_false_r.
    + intros Hs. exfalso. apply Exists_exists in Hx as (l & Hin & Hl). rewrite Forall_forall in Hs. specialize (Hs l Hin). lia.
Qed.

(** A host with a file [a], whose hash is known, and a checksum file. *)
Definition sample_host (sums : list byte) : host :=
  mkHost (fun name =>
      if bool_decide (name = str "a") then Some (mkNode (str "abc") false false)
      else if bool_decide (name = str "sums") then Some (mkNode sums false false) else None)
    (fun _ => true) false (str "no such file") raw_zero.

Lemma sample_host_ok sums : zlen sums < 2 ^ 63 -> host_ok (sample_host sums).
Proof.
  intros Hs. split; [by intros ? ?|done|]. intros name n. cbn. repeat case_bool; try done; intros [= <-]; done.
Qed.

Definition sample_sums : list byte := str "32d153ff  a" ++ [newline] ++ str "not a checksum" ++ [newline].

Lemma check_decides_witness :
  exists w' b, XSUM_checkFile (sample_host sample_sums) (Some (str "sums")) big_endian (mkMode false false false) (mkWorld [] [])
    = Some (w', inl b) /\ b = true.
Proof.
  assert (split_lines [] sample_sums = [str "32d153ff  a"; str "not a checksum"]) as El by reflexivity.
  destruct (check_decides (sample_host sample_sums) (str "sums") (mkNode sample_sums false false) big_endian (mkMode false false false)
    (mkWorld [] [])) as (w' & b & E & _ & Hb).
  - apply sample_host_ok. vm_compute. reflexivity.
  - vm_compute. reflexivity.
  - cbn [content]. rewrite El. constructor; [|constructor; [|constructor]]; intros p H; vm_compute in H; [|discriminate H].
    injection H as <-. split; [vm_compute; discriminate|]. intros n Hn. vm_compute in Hn. by injection Hn as <-.
  - exists w', b. split; [exact E|]. cbn [content] in Hb. rewrite El in Hb. apply Hb; [repeat (constructor; [vm_compute; reflexivity|]); constructor|]. split.
    + apply Exists_cons_hd. vm_compute. discriminate.
    + constructor; [left; vm_compute; reflexivity|constructor; [right; vm_compute; by split|constructor]].
Defined.
