(* ===== verification/XxhsumMain.v ===== *)
(** * The command line of xxhsum: third-party/xxHash/cli/xxhsum.c

    The arguments of the program, the command they select, and the way of checksums
    through a file: what one run prints for a list of files a second run verifies. *)

From Stdlib Require Import ZArith Lia.
From S2P Require Import Prelude Endian Stripes XXHash XXH64 XXH3 XXH128 XXH3Stream Xxhsum.

(** ** Arguments *)

Definition after_last (c : byte) (s : list byte) : list byte :=
  match strrchr s c with Some i => drop (S i) s | None => s end.

Definition XSUM_lastNameFromPath (path : list byte) : list byte := after_last x5c (after_last x2f path).

Definition is_digit (c : byte) : bool := (48 <=? byte_to_Z c) && (byte_to_Z c <=? 57).

(** The digits, [None] if the number is too large. *)
Fixpoint read_digits (s : list byte) (result : Z) : option (Z * list byte) :=
  match s with
  | c :: s' =>
    if is_digit c then
      let max := (2 ^ 32 - 1) / 10 - 1 in
      if max <? result then None
      else read_digits s' (u32 (u32 (result * 10) + (byte_to_Z c - 48)))
    else Some (result, s)
  | [] => Some (result, s)
  end.

Definition skip (c : byte) (s : list byte) : list byte :=
  match s with d :: s' => if bool_decide (d = c) then s' else s | [] => s end.

Definition XSUM_readU32FromCharChecked (s : list byte) : option (Z * list byte) :=
  '(result, s) ← read_digits s 0;
  match s with
  | c :: s' =>
    if bool_decide (c = x4b) || bool_decide (c = x4d) then
      let maxK := Z.shiftr (2 ^ 32 - 1) 10 in
      if maxK <? result then None
      else
        let result := u32 (Z.shiftl result 10) in
        result ← (if bool_decide (c = x4d) then if maxK <? result then None else Some (u32 (Z.shiftl result 10)) else Some result);
        Some (result, skip x42 (skip x69 s'))
    else Some (result, s)
  | [] => Some (result, s)
  end.

Record options := mkOptions {
  benchmarkMode : bool;
  fileCheckMode : bool;
  o_strictMode : bool;
  o_statusOnly : bool;
  o_warn : bool;
  explicitStdin : bool;
  selectBenchIDs : Z;
  keySize : Z;
  o_algo : AlgoSelected;
  o_endianess : Display_endianess;
  o_convention : Display_convention;
  nbIterations : Z;
  logLevel : Z;
  testIDs : list bool
}.

Definition kBenchAll : Z := 99.
Definition NB_TESTFUNC : Z := 1 + 2 * 14.

Definition initial_options (exename : list byte) : options :=
  let a := algo_xxh64 in
  let a := if strstr exename (str "xxh32sum") then algo_xxh32 else a in
  let a := if strstr exename (str "xxh64sum") then algo_xxh64 else a in
  let a := if strstr exename (str "xxh128sum") then algo_xxh128 else a in
  mkOptions false false false false false false 0 102400 a big_endian display_gnu 3 2 (repeat false (Z.to_nat NB_TESTFUNC)).

Definition set_bench (o : options) (id : Z) (ids : list bool) : options :=
  mkOptions true (fileCheckMode o) (o_strictMode o) (o_statusOnly o) (o_warn o) (explicitStdin o) id (keySize o)
    (o_algo o) (o_endianess o) (o_convention o) (nbIterations o) (logLevel o) ids.
Definition set_check (o : options) : options :=
  mkOptions (benchmarkMode o) true (o_strictMode o) (o_statusOnly o) (o_warn o) (explicitStdin o) (selectBenchIDs o) (keySize o)
    (o_algo o) (o_endianess o) (o_convention o) (nbIterations o) (logLevel o) (testIDs o).
Definition set_flags (o : options) (strict status warn stdin : bool) : options :=
  mkOptions (benchmarkMode o) (fileCheckMode o) strict status warn stdin (selectBenchIDs o) (keySize o)
    (o_algo o) (o_endianess o) (o_convention o) (nbIterations o) (logLevel o) (testIDs o).
Definition set_display (o : options) (a : AlgoSelected) (e : Display_endianess) (c : Display_convention) : options :=
  mkOptions (benchmarkMode o) (fileCheckMode o) (o_strictMode o) (o_statusOnly o) (o_warn o) (explicitStdin o) (selectBenchIDs o)
    (keySize o) a e c (nbIterations o) (logLevel o) (testIDs o).
Definition set_numbers (o : options) (size iterations level : Z) : options :=
  mkOptions (benchmarkMode o) (fileCheckMode o) (o_strictMode o) (o_statusOnly o) (o_warn o) (explicitStdin o) (selectBenchIDs o)
    size (o_algo o) (o_endianess o) (o_convention o) iterations level (testIDs o).

(** What [main] does after the arguments: it returns a status, runs the self-test or
    the benchmarks, checks or hashes. *)
Inductive command :=
  | Return (status : Z)
  | SelfTest
  | Bench (o : options) (names : list (list byte))
  | Check (names : list (list byte)) (e : Display_endianess) (a : check_mode)
  | Hash (names : list (list byte)) (a : AlgoSelected) (e : Display_endianess) (c : Display_convention).

(** An option is taken, or ends the program; [None] is undefined behaviour. *)
Abbreviation taken A := (option (A + command)).

Definition read_number (s : list byte) : (Z * list byte) + command :=
  match XSUM_readU32FromCharChecked s with Some r => inl r | None => inr (Return 1) end.

(** The numbers after [-b]; the array of tests is written without a check of negative
    numbers. *)
Fixpoint bench_numbers (fuel : nat) (s : list byte) (o : options) : taken (options * list byte) :=
  match fuel with
  | O => None
  | S fuel =>
    match read_number (skip x2c s) with
    | inr c => Some (inr c)
    | inl (id, s) =>
      o ←
        (if swrap 32 id <? NB_TESTFUNC then
          assert! id <? NB_TESTFUNC;
          Some (set_bench o id (<[Z.to_nat id := true]> (testIDs o)))
        else Some (set_bench o kBenchAll (testIDs o)));
      match s with
      | x2c :: _ => bench_numbers fuel s o
      | _ => Some (inl (o, s))
      end
    end
  end.

Definition select_algo (o : options) (n : Z) : options + command :=
  if (n =? 0) || (n =? 32) then inl (set_display o algo_xxh32 (o_endianess o) (o_convention o))
  else if (n =? 1) || (n =? 64) then inl (set_display o algo_xxh64 (o_endianess o) (o_convention o))
  else if (n =? 2) || (n =? 128) then inl (set_display o algo_xxh128 (o_endianess o) (o_convention o))
  else if n =? 3 then inl (set_display o algo_xxh3 (o_endianess o) display_bsd)
  else inr (Return 1).

(** One letter of an argument, with the number that follows it. *)
Definition take_letter (c : byte) (s : list byte) (o : options) : taken (options * list byte) :=
  match c with
  | x56 => Some (inr SelfTest)
  | x68 => Some (inr (Return 0))
  | x48 =>
    Some (match read_number s with
    | inr c => inr c
    | inl (n, s) => match select_algo o n with inl o => inl (o, s) | inr c => inr c end
    end)
  | x63 => Some (inl (set_check o, s))
  | x77 => Some (inl (set_flags o (o_strictMode o) (o_statusOnly o) true (explicitStdin o), s))
  | x62 => bench_numbers (S (length s)) s o
  | x69 =>
    Some (match read_number s with
    | inr c => inr c
    | inl (n, s) => inl (set_numbers o (keySize o) (swrap 32 n) (logLevel o), s)
    end)
  | x42 =>
    Some (match read_number s with
    | inr c => inr c
    | inl (n, s) => inl (set_numbers o n (nbIterations o) (logLevel o), s)
    end)
  | x71 => Some (inl (set_numbers o (keySize o) (nbIterations o) (logLevel o - 1), s))
  | _ => Some (inr (Return 1))
  end.

(** The letters of an argument; each takes a byte at least. *)
Fixpoint take_letters (fuel : nat) (s : list byte) (o : options) : taken options :=
  match s with
  | [] => Some (inl o)
  | c :: s =>
    match fuel with
    | O => None
    | S fuel =>
      r ← take_letter c s o;
      match r with
      | inr c => Some (inr c)
      | inl (o, s) => take_letters fuel s o
      end
    end
  end.

(** The long options. *)
Definition take_word (arg : list byte) (o : options) : option (options + command) :=
  if bool_decide (arg = str "--check") then Some (inl (set_check o))
  else if bool_decide (arg = str "--benchmark-all") || bool_decide (arg = str "--bench-all")
    then Some (inl (set_bench o kBenchAll (testIDs o)))
  else if bool_decide (arg = str "--quiet") then Some (inl (set_numbers o (keySize o) (nbIterations o) (logLevel o - 1)))
  else if bool_decide (arg = str "--little-endian") then Some (inl (set_display o (o_algo o) little_endian (o_convention o)))
  else if bool_decide (arg = str "--strict") then Some (inl (set_flags o true (o_statusOnly o) (o_warn o) (explicitStdin o)))
  else if bool_decide (arg = str "--status") then Some (inl (set_flags o (o_strictMode o) true (o_warn o) (explicitStdin o)))
  else if bool_decide (arg = str "--warn") then Some (inl (set_flags o (o_strictMode o) (o_statusOnly o) true (explicitStdin o)))
  else if bool_decide (arg = str "--help") then Some (inr (Return 0))
  else if bool_decide (arg = str "--version") then Some (inr SelfTest)
  else if bool_decide (arg = str "--tag") then Some (inl (set_display o (o_algo o) (o_endianess o) display_bsd))
  else None.

(** The loop over the arguments: the options and the names, if any are given. *)
Fixpoint take_args (args : list (list byte)) (o : options) : taken (options * list (list byte)) :=
  match args with
  | [] => Some (inl (o, []))
  | arg :: rest =>
    match take_word arg o with
    | Some (inl o) => take_args rest o
    | Some (inr c) => Some (inr c)
    | None =>
      if bool_decide (arg = str "--") then Some (inl (o, rest))
      else
        match arg with
        | x2d :: s =>
          let o := if bool_decide (s = []) then set_flags o (o_strictMode o) (o_statusOnly o) (o_warn o) true else o in
          r ← take_letters (length s) s o;
          match r with
          | inl o => take_args rest o
          | inr c => Some (inr c)
          end
        | _ => Some (inl (o, arg :: rest))
        end
    end
  end.

Definition k_testIDs_default : list bool :=
  [false; true; false; true; false; true; false; false; false; false; false; true] ++ repeat false 17.

Definition XSUM_main (console : bool) (argv : list (list byte)) : option command :=
  exe ← argv !! 0%nat;
  r ← take_args (drop 1 argv) (initial_options (XSUM_lastNameFromPath exe));
  match r with
  | inr c => Some c
  | inl (o, names) =>
    if benchmarkMode o then
      let ids := if selectBenchIDs o =? 0 then k_testIDs_default else testIDs o in
      let ids := if selectBenchIDs o =? kBenchAll then repeat true (Z.to_nat NB_TESTFUNC) else ids in
      Some (Bench (set_bench o (selectBenchIDs o) ids) names)
    else if bool_decide (names = []) && console && negb (explicitStdin o) then Some (Return 1)
    else if fileCheckMode o
      then Some (Check names (o_endianess o) (mkMode (o_strictMode o) (o_statusOnly o) (logLevel o <? 2)))
    else Some (Hash names (o_algo o) (o_endianess o) (o_convention o))
  end.

(** ** Numbers *)

Definition digits_value (start : Z) (ds : list byte) : Z := fold_left (fun v c => 10 * v + (byte_to_Z c - 48)) ds start.

(** A number that is read is the value of its digits: no sum or product wraps. *)
Lemma read_digits_value s r v rest :
  0 <= r < 2 ^ 32 -> read_digits s r = Some (v, rest) ->
  exists ds, s = ds ++ rest /\ Forall (fun c => is_digit c = true) ds /\ v = digits_value r ds /\ 0 <= v < 2 ^ 32.
Proof.
  revert r. induction s as [|c s IH]; intros r Hr; cbn [read_digits].
  { intros [= <- <-]. exists []. split_and!; [done|constructor|done|lia|lia]. }
  destruct (is_digit c) eqn:Ec; [|intros [= <- <-]; exists []; split_and!; [done|constructor|done|lia|lia]].
  assert (48 <= byte_to_Z c <= 57) as Hc by (unfold is_digit in Ec; bool_prop; lia).
  change ((2 ^ 32 - 1) / 10 - 1) with 429496728. case_bool; [done|]. rewrite !u32_id by (rewrite ?u32_id; lia). intros E.
  apply IH in E as (ds & -> & F & -> & Hv); [|lia]. exists (c :: ds). split_and!; [done|by constructor|..|lia|lia].
  unfold digits_value. cbn [fold_left]. f_equal. lia.
Qed.

Lemma skip_suffix c s : skip c s `suffix_of` s.
Proof. destruct s as [|d s]; [done|]. cbn. case_bool; [by exists [d]|done]. Qed.

(** So is a number with a unit, and what follows it is left. *)
Lemma readU32_value s v rest :
  XSUM_readU32FromCharChecked s = Some (v, rest) ->
  rest `suffix_of` s /\ exists ds unit, ds `prefix_of` s /\ Forall (fun c => is_digit c = true) ds /\
    In unit [1; 2 ^ 10; 2 ^ 20] /\ v = digits_value 0 ds * unit /\ 0 <= v < 2 ^ 32.
Proof.
  unfold XSUM_readU32FromCharChecked. destruct (read_digits s 0) as [[n t]|] eqn:E; [|done]. cbn [mbind option_bind].
  apply read_digits_value in E as (ds & -> & F & -> & Hn); [|lia]. set (n := digits_value 0 ds) in *.
  assert (forall u v' rest', rest' `suffix_of` t -> In u [1; 2 ^ 10; 2 ^ 20] -> v' = n * u -> 0 <= v' < 2 ^ 32 ->
    rest' `suffix_of` ds ++ t /\ exists ds' unit, ds' `prefix_of` ds ++ t /\ Forall (fun c => is_digit c = true) ds' /\
      In unit [1; 2 ^ 10; 2 ^ 20] /\ v' = digits_value 0 ds' * unit /\ 0 <= v' < 2 ^ 32) as Hend.
  { intros u v' rest' [k ->] Hu -> Hr. split; [exists (ds ++ k); by rewrite app_assoc|].
    exists ds, u. split_and!; [by eexists|done|done|done|lia|lia]. }
  destruct t as [|c t]; [intros [= <- <-]; apply (Hend 1); [done|by left|lia|lia]|].
  case_bool; [|intros [= <- <-]; apply (Hend 1); [done|by left|lia|lia]].
  assert (skip x42 (skip x69 t) `suffix_of` c :: t) as Hs.
  { etransitivity; [apply skip_suffix|]. etransitivity; [apply skip_suffix|]. by exists [c]. }
  change (Z.shiftr (2 ^ 32 - 1) 10) with 4194303. rewrite !Z.shiftl_mul_pow2 by lia. case_bool; [done|].
  rewrite (u32_id (n * 2 ^ 10)) by lia. case_bool; [|cbn [mbind option_bind]; intros [= <- <-]; apply (Hend (2 ^ 10)); [done|by right; left|lia|lia]].
  case_bool; [done|]. rewrite u32_id by lia. cbn [mbind option_bind]. intros [= <- <-].
  apply (Hend (2 ^ 20)); [done|by right; right; left|lia|lia].
Qed.

(** ** Totality of the command line *)

(** A letter other than [b] is taken; what is left is an end of the argument. *)
Lemma take_letter_ok c s o :
  c <> x62 -> exists r, take_letter c s o = Some r /\ forall o' s', r = inl (o', s') -> s' `suffix_of` s.
Proof.
  intros Hc.
  assert (forall f : Z -> options + command, exists r,
    Some (match read_number s with
    | inr c => inr c
    | inl (n, s) => match f n with inl o => inl (o, s) | inr c => inr c end
    end) = Some r /\ forall o' s', r = inl (o', s') -> s' `suffix_of` s) as Hnum.
  { intros f. eexists. split; [done|]. intros o' s'. unfold read_number.
    destruct (XSUM_readU32FromCharChecked s) as [[n t]|] eqn:E; [|done].
    apply readU32_value in E as [E _]. destruct (f n); [|done]. by intros [= <- <-]. }
  destruct c; try done; cbn [take_letter]; try (eexists; split; [done|]; intros ? ? [=]; subst; done).
  - apply (Hnum (fun n => inl (set_numbers o n (nbIterations o) (logLevel o)))).
  - apply (Hnum (fun n => select_algo o n)).
  - apply (Hnum (fun n => inl (set_numbers o (keySize o) (swrap 32 n) (logLevel o)))).
Qed.

Lemma take_letters_ok fuel s o : (length s <= fuel)%nat -> Forall (fun c => c <> x62) s -> is_Some (take_letters fuel s o).
Proof.
  revert s o. induction fuel as [|fuel IH]; intros [|c s] o Hl Hs; cbn in Hl; try lia; cbn [take_letters]; try by eexists.
  apply Forall_cons in Hs as [Hc Hs]. destruct (take_letter_ok c s o Hc) as (r & -> & Hr). cbn [mbind option_bind].
  destruct r as [[o' s']|]; [|by eexists]. destruct (Hr o' s' eq_refl) as [k ->]. apply Forall_app in Hs as [_ Hs].
  apply IH; [rewrite length_app in Hl; lia|done].
Qed.

(** A command is selected for all arguments, if none of them has the letter of the
    benchmarks. *)
Lemma main_total console exe args :
  Forall (fun arg => Forall (fun c => c <> x62) arg) args -> is_Some (XSUM_main console (exe :: args)).
Proof.
  intros Ha. unfold XSUM_main. cbn [lookup list_lookup drop mbind option_bind]. rewrite drop_0.
  assert (forall o, is_Some (take_args args o)) as H.
  { induction Ha as [|arg args Harg _ IH]; intros o; [(eexists; reflexivity)|]. cbn [take_args].
    destruct (take_word arg o) as [[o'|c]|]; [apply IH|(eexists; reflexivity)|]. case_bool; [(eexists; reflexivity)|].
    destruct arg as [|c s]; [(eexists; reflexivity)|]. apply Forall_cons in Harg as [_ Hs].
    destruct (decide (c = x2d)) as [->|Hc]; [|by destruct c].
    cbn zeta. set (o' := if bool_decide (s = []) then _ else _).
    destruct (take_letters_ok (length s) s o') as [r ->]; [done|done|]. cbn [mbind option_bind]. destruct r; [apply IH|(eexists; reflexivity)]. }
  destruct (H (initial_options (XSUM_lastNameFromPath exe))) as [[[o names]|c] ->]; cbn [mbind option_bind]; [|(eexists; reflexivity)].
  repeat case_bool; (eexists; reflexivity).
Qed.

(** ** Defects *)

(** A number above [INT_MAX] after [-b] passes for a negative one and is used as an index
    of the array of tests; one below it is checked. *)
Lemma bench_number_unchecked :
  XSUM_main false [str "xxhsum"; str "-b4294967280"] = None /\
  is_Some (XSUM_main false [str "xxhsum"; str "-b2147483647"]) /\ is_Some (XSUM_main false [str "xxhsum"; str "-b28,3"]).
Proof. vm_compute. split_and!; [done|by eexists|by eexists]. Qed.

(** [-] is the standard input only if no name follows: in front of a name it is dropped,
    and behind one it is the name of a file. *)
Lemma dash_is_not_stdin :
  XSUM_main true [str "xxhsum"; str "-"] = Some (Hash [] algo_xxh64 big_endian display_gnu) /\
  XSUM_main true [str "xxhsum"; str "-"; str "f"] = Some (Hash [str "f"] algo_xxh64 big_endian display_gnu) /\
  XSUM_main true [str "xxhsum"; str "f"; str "-"] = Some (Hash [str "f"; str "-"] algo_xxh64 big_endian display_gnu).
Proof. by vm_compute. Qed.

(** ** From the files to their checksums and back *)

(** The canonical hash of a file, and what is printed for a list of them. *)
Definition canonical_at (h : host) (a : AlgoSelected) (name : list byte) : list byte :=
  match n ← node_at h name; hash_of a (content n) with Some m => canonical_of m | None => [] end.

Definition sum_line (h : host) (a : AlgoSelected) (e : Display_endianess) (c : Display_convention) (name : list byte) : list byte :=
  line_of c e name (canonical_at h a name) a.

Definition unlines (ls : list (list byte)) : list byte := concat (map (fun l => l ++ [newline]) ls).

(** A file that can be hashed and whose name fits on a line. *)
Record listable (h : host) (name : list byte) : Prop := {
  ls_node : exists n, node_at h name = Some n /\ is_dir n = false /\ read_error n = false;
  ls_chars : Forall (fun c => c <> x00 /\ c <> newline) name;
  ls_stdin : name <> stdinFileName;
  ls_len : zlen name <= 32000
}.

Lemma hashFile_line h name a e c w :
  host_ok h -> listable h name ->
  XSUM_hashFile h (Some name) a e c w =
  Some (mkWorld (stdin_ w) (stdout_ w ++ sum_line h a e c name ++ [newline]), inl 0).
Proof.
  intros Hh [(n & En & Hd & Hr) _ _ _]. unfold XSUM_hashFile, sum_line, canonical_at. rewrite En, Hd.
  rewrite (ho_malloc h Hh) by (unfold blockSize; lia). cbn [negb].
  destruct (hashStream_file h n a w (ho_stack h Hh) (ho_size h Hh _ _ En)) as (m & Em & Es). rewrite Hr in Es.
  unfold mbind, M_bind. rewrite Es, display_line. cbn [option_bind]. by rewrite Em.
Qed.

Lemma hash_each_lines h names a e c r w :
  host_ok h -> Forall (listable h) names ->
  hash_each h names a e c r w = Some (mkWorld (stdin_ w) (stdout_ w ++ unlines (map (sum_line h a e c) names)), inl r).
Proof.
  intros Hh Hn. revert r w. induction Hn as [|name names Hname _ IH]; intros r w; cbn [hash_each].
  { unfold unlines. cbn. rewrite app_nil_r. by destruct w. }
  unfold mbind, M_bind. rewrite hashFile_line, Z.lor_0_r by done. rewrite IH. cbn [stdin_ stdout_].
  unfold unlines. cbn [map concat]. by rewrite <- app_assoc.
Qed.

Lemma split_unlines ls : Forall (fun l => Forall (fun c => c <> newline) l) ls -> split_lines [] (unlines ls) = ls.
Proof.
  assert (forall l cur rest, Forall (fun c => c <> newline) l -> split_lines cur (l ++ newline :: rest) = (cur ++ l) :: split_lines [] rest) as H1.
  { induction l as [|c l IH]; intros cur rest Hl; cbn [app split_lines].
    - by rewrite bool_decide_eq_true_2, app_nil_r.
    - apply Forall_cons in Hl as [Hc Hl]. rewrite bool_decide_eq_false_2, IH by done. by rewrite <- app_assoc. }
  induction 1 as [|l ls Hl _ IH]; [done|]. unfold unlines in *. cbn [map concat]. rewrite <- app_assoc. cbn [app].
  rewrite H1 by done. cbn [app]. by rewrite IH.
Qed.

Lemma tag_clean e a : Forall (fun c => c <> x00 /\ c <> newline) (tag e a).
Proof. destruct e, a; repeat constructor; done. Qed.

Lemma sum_line_clean h a e c name : listable h name -> Forall (fun c => c <> x00 /\ c <> newline) (sum_line h a e c name).
Proof.
  intros [_ Hn _ _]. assert (forall p n, Forall (fun c => c <> x00 /\ c <> newline) (digits e p n)) as Hd.
  { intros p n. eapply Forall_impl; [apply digits_clean|]. by intros ? (? & ? & ?). }
  unfold sum_line, line_of. destruct c; repeat (apply Forall_app; split); try apply Hd; try apply tag_clean; try exact Hn;
    repeat constructor; done.
Qed.

Lemma canonical_at_length h a name : host_ok h -> listable h name -> length (canonical_at h a name) = XSUM_algoLength a.
Proof.
  intros Hh [(n & En & _) _ _ _]. unfold canonical_at. rewrite En. cbn [mbind option_bind].
  destruct (hashStream_file h n a (mkWorld [] []) (ho_stack h Hh) (ho_size h Hh _ _ En)) as (m & Em & _). rewrite Em.
  apply canonical_length. by destruct (hash_of_ok _ _ _ Em).
Qed.

Lemma sum_line_short h a e c name : host_ok h -> listable h name -> zlen (sum_line h a e c name) + 1 < MAX_LINE_LENGTH.
Proof.
  intros Hh Hn. pose proof (canonical_at_length h a name Hh Hn) as L. destruct Hn as [_ _ _ Hl]. unfold sum_line, line_of, MAX_LINE_LENGTH.
  assert (zlen (digits e (canonical_at h a name) (XSUM_algoLength a)) <= 32) as Hd
    by (unfold zlen; rewrite digits_length by done; destruct a; cbn; lia).
  assert (zlen (tag e a) <= 9) as Ht by (destruct e, a; done).
  destruct c; rewrite ?zlen_app; change (zlen (str "  ")) with 2; change (zlen (str " (")) with 2; change (zlen (str ") = ")) with 4; lia.
Qed.

(** The line of a file, read where the file is the same. *)
Lemma sum_line_matching h h' a e e' c name :
  host_ok h -> listable h name -> node_at h' name = node_at h name -> (c = display_gnu -> a <> algo_xxh3 /\ e' = e) ->
  kind_of h' (is_little e') (sum_line h a e c name) = Matching /\ line_plain h' (is_little e') (sum_line h a e c name).
Proof.
  intros Hh Hn Hsame Hc. pose proof (canonical_at_length h a name Hh Hn) as L.
  assert (XSUM_parseLine (c_string (sum_line h a e c name)) (is_little e') = Some (Some (mkParsed (canonical_at h a name) name a))) as E.
  { rewrite c_string_id by (eapply Forall_impl; [by apply sum_line_clean|by intros ? []]).
    apply parse_printed; [done|]. intros Ec. destruct (Hc Ec) as [? ->]. done. }
  destruct Hn as [(n & En & _ & Hr) _ Hs _]. rewrite En in Hsame. split.
  - unfold kind_of. rewrite E. cbn [filename]. rewrite Hsame. unfold file_matches, canonical_at. cbn [algo]. rewrite En. cbn [mbind option_bind].
    destruct (hashStream_file h n a (mkWorld [] []) (ho_stack h Hh) (ho_size h Hh _ _ En)) as (m & Em & _). rewrite Em.
    destruct (hash_of_ok _ _ _ Em). by rewrite canonical_matches.
  - intros p Ep. rewrite E in Ep. injection Ep as <-. cbn [filename]. split; [done|]. intros n' En'. congruence.
Qed.

(** The arguments of the two runs. *)
Definition hash_args (a : AlgoSelected) (e : Display_endianess) (c : Display_convention) (names : list (list byte)) : list (list byte) :=
  match a with algo_xxh32 => [str "-H0"] | algo_xxh64 => [str "-H1"] | algo_xxh128 => [str "-H2"] | algo_xxh3 => [str "-H3"] end
  ++ (if is_little e then [str "--little-endian"] else []) ++ (match c with display_gnu => [] | display_bsd => [str "--tag"] end)
  ++ str "--" :: names.

Definition check_args (e : Display_endianess) (strict status : bool) (sums : list byte) : list (list byte) :=
  [str "-c"] ++ (if is_little e then [str "--little-endian"] else []) ++ (if strict then [str "--strict"] else [])
  ++ (if status then [str "--status"] else []) ++ [str "--"; sums].

(** ** Properties *)

(** C30 Checksums survive the way through a file: for any algorithm, byte order and
    convention, one run of the program on a list of files prints a line for each, and a
    second run on a file with those lines verifies them all, in strict mode too, as long
    as the files are the same. The second run has to be told the byte order of untagged
    lines, and XXH3 is always printed with tags. The files can be read, and their names
    are at most 32000 bytes long, have no newline and are not [stdin]: neither of the
    last two verifies ([names_do_not_verify]). *)
Theorem sums_verify (h h' : host) (exe exe' : list byte) (a : AlgoSelected) (e e' : Display_endianess) (c : Display_convention)
    (name : list byte) (names : list (list byte)) (sums : list byte) (strict status : bool) (w w2 : world) :
  host_ok h -> Forall (listable h) (name :: names) ->
  (c = display_gnu -> a <> algo_xxh3 /\ e' = e) ->
  XSUM_main (console h) (exe :: hash_args a e c (name :: names)) = Some (Hash (name :: names) a e c) /\
  exists text, XSUM_hashFiles h (name :: names) a e c w = Some (mkWorld (stdin_ w) (stdout_ w ++ text), inl 0) /\
    (host_ok h' -> Forall (fun n => node_at h' n = node_at h n) (name :: names) -> node_at h' sums = Some (mkNode text false false) ->
     XSUM_main (console h') (exe' :: check_args e' strict status sums) = Some (Check [sums] e' (mkMode strict status false)) /\
     exists w3, XSUM_checkFiles h' [sums] e' (mkMode strict status false) w2 = Some (w3, inl 0)).
Proof.
  intros Hh Hn Hc. split.
  { destruct a, e, c; try reflexivity; by destruct (Hc eq_refl). }
  set (lines := map (sum_line h a e c) (name :: names)).
  exists (unlines lines). split; [by apply hash_each_lines|]. intros Hh' Hsame Hsums. split; [by destruct e', strict, status|].
  assert (split_lines [] (unlines lines) = lines) as El.
  { apply split_unlines. apply Forall_map. eapply Forall_impl; [exact Hn|]. intros x Hx.
    eapply Forall_impl; [by apply sum_line_clean|by intros ? []]. }
  assert (Forall (fun l => kind_of h' (is_little e') l = Matching /\ line_plain h' (is_little e') l) lines) as Hk.
  { apply Forall_map. rewrite Forall_forall in Hn, Hsame |- *. intros x Hx. apply sum_line_matching; auto. }
  destruct (checkFile_report h' sums (mkNode (unlines lines) false false) e' (mkMode strict status false) w2) as (w3 & r & E & Hr);
    [done|done|cbn [content]; rewrite El; eapply Forall_impl; [exact Hk|by intros ? []]|].
  cbn [content] in Hr. rewrite El in Hr. exists w3. unfold XSUM_checkFiles, check_each, mbind, M_bind. rewrite E. cbn [andb].
  assert (report_ok (mkMode strict status false) r = true) as ->; [|done].
  pose proof (ho_size h' Hh' _ _ Hsums) as Hz. pose proof (split_lines_length [] (unlines lines)) as Hl. cbn [content] in Hz. rewrite El in Hl.
  destruct Hr as [-> | [_ Hx]].
  - apply report_ok_good; [unfold zlen in *; lia|]. split.
    + apply Exists_cons_hd. by apply Forall_cons in Hk as [[-> _] _].
    + eapply Forall_impl; [exact Hk|]. intros ? []. by left.
  - exfalso. apply Exists_exists in Hx as (l & Hin & Hlong). apply list_elem_of_fmap in Hin as (x & -> & Hin).
    rewrite Forall_forall in Hn. pose proof (sum_line_short h a e c x Hh (Hn x Hin)). lia.
Qed.

Definition sample_text : list byte := str "XXH32_LE (a) = ff53d132" ++ [newline].

Lemma sums_verify_witness :
  exists w3, XSUM_checkFiles (sample_host sample_text) [str "sums"] big_endian (mkMode true false false) (mkWorld [] []) = Some (w3, inl 0).
Proof.
  destruct (sums_verify (sample_host []) (sample_host sample_text) (str "xxhsum") (str "xxhsum") algo_xxh32 little_endian big_endian display_bsd
    (str "a") [] (str "sums") true false (mkWorld [] []) (mkWorld [] [])) as (_ & text & E & H).
  - by apply sample_host_ok.
  - constructor; [|constructor]. split; [by eexists|repeat constructor; done|done|by vm_compute].
  - done.
  - vm_compute in E. injection E as <-. destruct H as [_ H]; [by apply sample_host_ok|by repeat constructor|reflexivity|]. exact H.
Defined.

(** ** Defects *)

(** A host with one file of a given name, and what is printed for it, in [sums]. *)
Definition named_host (name sums : list byte) : host :=
  mkHost (fun n =>
      if bool_decide (n = name) then Some (mkNode (str "abc") false false)
      else if bool_decide (n = str "sums") then Some (mkNode sums false false) else None)
    (fun _ => true) false (str "no such file") raw_zero.

(** One run hashes the file, a second one checks the lines of the first. *)
Definition hash_and_check (name : list byte) : option (Z + Z) :=
  '(w, _) ← XSUM_hashFiles (named_host name []) [name] algo_xxh32 big_endian display_gnu (mkWorld [] []);
  snd <$> XSUM_checkFiles (named_host name (stdout_ w)) [str "sums"] big_endian (mkMode false false false) (mkWorld [] []).

(** A file whose name has a newline and a file named [stdin] do not verify, though they
    are as they were: the name is printed as it is and breaks the line, and behind a
    line that names [stdin] the standard input is read. *)
Lemma names_do_not_verify :
  map hash_and_check [str "a"; str "a" ++ newline :: str "b"; str "stdin"] = [Some (inl 0); Some (inl 1); Some (inl 1)].
Proof. vm_compute. reflexivity. Qed.
