(* ===== verification/Codec.v ===== *)
(** * The protobuf codec: kanon/protobuf/generic_pb_codec.cc and chunk_stream.cc

    A frame is a size header, a tag, the serialized message and a checksum of
    the last two.  The sender writes into a [ChunkList] through [ChunkStream],
    protobuf's output stream; the receiver takes frames off its [Buffer].
    Protobuf itself is not modelled: a serialization is any sequence of calls on
    the stream that respects its documented protocol, a parser is a function. *)

From Stdlib Require Import ZArith Lia.
From S2P Require Import Prelude Endian StringView Buffer ChunkList XXHash.

(** ** ChunkStream *)

(** The block handed out: its offset in the last chunk and its size. *)
Definition Next `{Heap} (l : ChunkList) : option (Z * Z * ChunkList) :=
  l ← (match last (buffers_ l) with
       | None => ReserveChunk l 1
       | Some c => if chunk_writable c =? 0 then ReserveChunk l 1 else Some l
       end);
  last_chunk ← last (buffers_ l);
  let data := c_write last_chunk in
  let size := chunk_writable last_chunk in
  c ← chunk_AdvanceWrite last_chunk size;
  Some (data, size, mkChunkList (set_last (buffers_ l) c) (free_buffers_ l)).

(** [AdvanceWrite(-count)]: the count is converted to [unsigned]. *)
Definition BackUp (l : ChunkList) (count : Z) : option ChunkList :=
  last_chunk ← last (buffers_ l);
  c ← chunk_AdvanceWrite last_chunk (u32 (- count));
  Some (mkChunkList (set_last (buffers_ l) c) (free_buffers_ l)).

Definition ByteCount (l : ChunkList) : option Z := ChunkList.GetReadableSize l.

Definition WriteAliasedRaw `{Heap} (l : ChunkList) (data : list byte) : option ChunkList :=
  ChunkList.Append l data.

(** What a client of the stream does, once or more: take a block, write [data] at
    its start and give the last [back] bytes back at once. *)
Record stream_call := CallNext { data : list byte; back : Z }.

(** Writing into the block that [Next] returned. *)
Definition fill_block (l : ChunkList) (off : Z) (data : list byte) : option ChunkList :=
  c ← last (buffers_ l);
  buf ← mem_write (c_buf c) off data;
  Some (mkChunkList (set_last (buffers_ l) (mkChunk (c_read c) (c_write c) (max_size_ c) buf))
          (free_buffers_ l)).

Definition run_call `{Heap} (l : ChunkList) (c : stream_call) : option ChunkList :=
  '(off, size, l) ← Next l;
  assert! (zlen (data c) + back c =? size);
  l ← fill_block l off (data c);
  if 0 <? back c then BackUp l (back c) else Some l.

Fixpoint run_calls `{Heap} (l : ChunkList) (cs : list stream_call) : option ChunkList :=
  match cs with
  | [] => Some l
  | c :: cs => l ← run_call l c; run_calls l cs
  end.

(** The protocol as the client sees it: every block is used up but for what is
    given back. [room] is what is free in the last chunk. *)
Fixpoint legal_calls (room : Z) (cs : list stream_call) : bool :=
  match cs with
  | [] => true
  | c :: cs =>
    let size := if room =? 0 then CHUNK_SIZE else room in
    (0 <=? back c) && (zlen (data c) + back c =? size) && legal_calls (back c) cs
  end.

Definition last_room (l : ChunkList) : Z :=
  match last (buffers_ l) with Some c => chunk_writable c | None => 0 end.

Definition written (cs : list stream_call) : list byte := concat (map data cs).

(** ** GenericPbCodec *)

Inductive ErrorCode := kNoError | kParseError | kInvalidLength | kInvalidMessage | kInvalidChecksum.

Definition kSizeLength : Z := 4.
Definition kChecksumLength : Z := 4.
Definition kMinMessageLength : Z := kSizeLength + kChecksumLength.
Definition kMaxMessageLength : Z := Z.shiftl 1 26.

(** The checksum loop of [Send]: all chunks but the last are first marked full
    ([AdvanceWriteAll]); the chunks it leaves and the hash state. *)
Fixpoint hash_chunks (state : XXH32_state) (beg : list Chunk) : option (list Chunk * XXH32_state) :=
  match beg with
  | [] => None
  | [c] => state ← XXH32_update state (chunk_view c); Some ([c], state)
  | c :: rest =>
    c ← chunk_AdvanceWrite c (chunk_writable c);
    state ← XXH32_update state (chunk_view c);
    '(rest, state) ← hash_chunks state rest;
    Some (c :: rest, state)
  end.

(** [message] is serialized by the calls [ser]; [cached] is what its
    [GetCachedSize] returns. The result is what is passed to the connection. *)
Definition Send `{Heap} (tag_ : list byte) (ser : list stream_call) (cached : Z) : option ChunkList :=
  buffer ← ChunkList.Append empty_ChunkList tag_;
  n ← ChunkList.GetReadableSize buffer;
  assert! (n =? zlen tag_);
  buffer ← run_calls buffer ser;
  let bytes := u32 cached in
  n ← ChunkList.GetReadableSize buffer;
  assert! (n =? u64 (bytes + zlen tag_));
  '(cs, state) ← hash_chunks (XXH32_reset 0) (buffers_ buffer);
  let buffer := mkChunkList cs (free_buffers_ buffer) in
  check_sum ← XXH32_digest state;
  buffer ← ChunkList.Prepend32 buffer (u32 (zlen tag_ + bytes + kChecksumLength));
  buffer ← ChunkList.Append32 buffer check_sum;
  n ← ChunkList.GetReadableSize buffer;
  assert! (n =? u64 (zlen tag_ + kSizeLength + bytes + kChecksumLength));
  Some buffer.

Definition GetCheckSum (buffer : list byte) : option Z := XXH32 buffer 0.

(** [buffer] is the memory from the pointer on. *)
Definition CheckCheckSum (buffer : list byte) (len : Z) : option bool :=
  bs ← mem_read buffer 0 len;
  new_checksum ← GetCheckSum bs;
  old ← mem_read buffer len kChecksumLength;
  Some (new_checksum =? ToHostByteOrder32 (le_value old)).

(** [::memcmp(buffer, tag_.data(), tag_.size()) == 0] *)
Definition tag_matches (buffer tag_ : list byte) : option bool :=
  bs ← mem_read buffer 0 (zlen tag_); Some (bool_decide (bs = tag_)).

Section receive.
(** Messages and [Message::ParseFromArray]. *)
Context {M : Type} (ParseFromArray : list byte -> option M).

Inductive event := OnMsg (message : M) | OnError (error_code : ErrorCode).

Definition ParseFromBuffer (buffer : list byte) (off length : Z) : option (option M) :=
  bs ← mem_read buffer off length; Some (ParseFromArray bs).

Definition Parse (tag_ buffer : list byte) (size : Z) : option (ErrorCode + M) :=
  ok ← CheckCheckSum buffer (u32 (size - kChecksumLength));
  if (ok : bool) then
    same ← tag_matches buffer tag_;
    if (same : bool) then
      m ← ParseFromBuffer buffer (zlen tag_) (u64 (u32 (size - kChecksumLength) - zlen tag_));
      Some (match m with Some m => inr m | None => inl kParseError end)
    else Some (inl kInvalidMessage)
  else Some (inl kInvalidChecksum).

(** The memory from the read pointer of a buffer on. *)
Definition from_read_begin (b : Buffer) (off : Z) : list byte :=
  drop (Z.to_nat (read_index_ b + off)) (data_ b).

(** The loop of [OnMessage]: the callbacks made, in order. Every pass but the
    last consumes a frame. *)
Fixpoint OnMessage_loop (fuel : nat) (tag_ : list byte) (buffer : Buffer)
  : option (list event * Buffer) :=
  match fuel with
  | O => None
  | S k =>
    if kMinMessageLength <=? Buffer.GetReadableSize buffer then
      size_header ← Buffer.GetReadBegin32 buffer;
      if (size_header <? kChecksumLength + zlen tag_) || (kMaxMessageLength <=? size_header)
      then Some ([OnError kInvalidLength], buffer)
      else if u32 (kSizeLength + size_header) <=? Buffer.GetReadableSize buffer then
        r ← Parse tag_ (from_read_begin buffer kSizeLength) size_header;
        match r with
        | inr message =>
          buffer ← Buffer.AdvanceRead buffer (u32 (kSizeLength + size_header));
          '(evs, buffer) ← OnMessage_loop k tag_ buffer;
          Some (OnMsg message :: evs, buffer)
        | inl error_code => Some ([OnError error_code], buffer)
        end
      else Some ([], buffer)
    else Some ([], buffer)
  end.

Definition OnMessage `{Heap} (tag_ : list byte) (buffer : Buffer) : option (list event * Buffer) :=
  if kMaxMessageLength <=? Buffer.GetReadableSize buffer then
    buffer ← Buffer.AdvanceAll buffer;
    buffer ← Buffer.Shrink buffer 0;
    Some ([OnError kInvalidLength], buffer)
  else OnMessage_loop (S (length (Buffer.content buffer))) tag_ buffer.

End receive.

(** ** What is on the wire *)

Definition frame (tag payload : list byte) (check_sum : Z) : list byte :=
  be_bytes 4 (zlen tag + zlen payload + kChecksumLength) ++ tag ++ payload ++ be_bytes 4 check_sum.

(** ** The stream *)

Section stream.
Context `{Heap}.
Context (Halloc : can_alloc chunk_node_bytes = true).

Lemma ReserveChunk1_spec l :
  exists c, ReserveChunk l 1 = Some (mkChunkList (buffers_ l ++ [c]) (free_buffers_ l)) /\
    chunk_wf c /\ c_read c = 0 /\ c_write c = 0.
Proof.
  unfold ReserveChunk. destruct (create_chunk_spec Halloc) as (c & E & Hc). exists c.
  change (Z.to_nat 1) with 1%nat. cbn [create_chunks]. by rewrite E.
Qed.

(** A list with an empty chunk at the end. *)
Lemma snoc_empty_wf l c :
  cl_wf l -> Forall full (buffers_ l) -> chunk_wf c -> c_read c = 0 ->
  cl_wf (mkChunkList (buffers_ l ++ [c]) (free_buffers_ l)).
Proof.
  intros [W1 W2 W3 W4] Hf Hc Hr. split; cbn [buffers_ free_buffers_]; try done.
  - apply Forall_app. auto.
  - destruct (buffers_ l) as [|d ds]; [constructor|]. cbn in *. apply Forall_app. auto.
  - by rewrite removelast_last.
Qed.

(** The list that [Next] takes the last chunk of. *)
Lemma Next_chunk l :
  cl_wf l -> roomy l -> buffers_ l <> [] ->
  exists cs c, (match last (buffers_ l) with
                | None => ReserveChunk l 1
                | Some c => if chunk_writable c =? 0 then ReserveChunk l 1 else Some l
                end) = Some (mkChunkList (cs ++ [c]) (free_buffers_ l)) /\
    cl_wf (mkChunkList (cs ++ [c]) (free_buffers_ l)) /\
    roomy (mkChunkList (cs ++ [c]) (free_buffers_ l)) /\
    views (cs ++ [c]) = content l /\ c_write c < CHUNK_SIZE /\
    CHUNK_SIZE - c_write c = (if last_room l =? 0 then CHUNK_SIZE else last_room l).
Proof.
  intros Hwf Hro Hne. destruct (exists_last Hne) as (cs & c & E). unfold last_room. rewrite E, last_snoc.
  pose proof Hwf as [W1 W2 W3 W4]. rewrite E in W1, W3. apply Forall_app in W1 as [_ Wc].
  rewrite Forall_singleton in Wc. rewrite removelast_last in W3.
  rewrite writable_spec by done. chunk_facts Wc. case_bool.
  - destruct (ReserveChunk1_spec l) as (d & E' & Hd & Hdr & Hdw). exists (buffers_ l), d.
    split; [done|]. split.
    { apply snoc_empty_wf; try done. rewrite E. apply Forall_app. split; [done|].
      constructor; [unfold full, CHUNK_SIZE; lia|done]. }
    split; [apply roomy_snoc; [done|]; by rewrite E; destruct cs|].
    split; [|lia]. rewrite views_app, views_singleton, chunk_view_empty by lia. by rewrite app_nil_r.
  - exists cs, c. rewrite <- E. destruct l as [bl fl]. cbn in *. split_and!; try done. lia.
Qed.

(** One block. *)
Lemma run_call_spec l c :
  cl_wf l -> roomy l -> buffers_ l <> [] -> 0 <= back c ->
  zlen (data c) + back c = (if last_room l =? 0 then CHUNK_SIZE else last_room l) ->
  exists l', run_call l c = Some l' /\ cl_wf l' /\ roomy l' /\ buffers_ l' <> [] /\
    content l' = content l ++ data c /\ last_room l' = back c.
Proof.
  intros Hwf Hro Hne Hb Hsz. unfold run_call, Next.
  destruct (Next_chunk l Hwf Hro Hne) as (cs & e & -> & Hwf' & Hro' & Hv & Hlt & Hs).
  rewrite <- Hs in Hsz. clear Hs. cbn [mbind option_bind buffers_ free_buffers_]. rewrite last_snoc.
  cbn [mbind option_bind]. pose proof (cl_chunks _ Hwf') as W. cbn [buffers_] in W.
  apply Forall_app in W as [_ We]. rewrite Forall_singleton in We.
  pose proof (zlen_nonneg (data c)). rewrite writable_spec by done.
  unfold chunk_AdvanceWrite. chunk_facts We. rewrite Hm, u32_id by lia.
  rewrite !check_bind_true by lia. cbn [mbind option_bind]. rewrite check_bind_true by lia.
  unfold fill_block. cbn [buffers_ free_buffers_]. rewrite set_last_snoc, last_snoc.
  cbn [mbind option_bind c_buf]. rewrite mem_write_ok by lia. cbn [mbind option_bind c_read c_write max_size_].
  rewrite set_last_snoc. set (e' := mkChunk (c_read e) (c_write e + zlen (data c)) 4096
                                      (overwrite (c_write e) (data c) (c_buf e))).
  assert ((if 0 <? back c then BackUp (mkChunkList (cs ++ [mkChunk (c_read e) (c_write e + (4096 - c_write e))
      4096 (overwrite (c_write e) (data c) (c_buf e))]) (free_buffers_ l)) (back c)
    else Some (mkChunkList (cs ++ [mkChunk (c_read e) (c_write e + (4096 - c_write e)) 4096
      (overwrite (c_write e) (data c) (c_buf e))]) (free_buffers_ l)))
    = Some (mkChunkList (set_last (cs ++ [e]) e') (free_buffers_ l))) as ->.
  { rewrite set_last_snoc. unfold e'. case_bool; [|do 5 f_equal; lia].
    unfold BackUp. cbn [buffers_ free_buffers_]. rewrite last_snoc. cbn [mbind option_bind].
    unfold chunk_AdvanceWrite. cbn [c_write max_size_ c_read c_buf]. rewrite check_bind_true by lia.
    assert (u32 (c_write e + (4096 - c_write e) + u32 (- back c)) = c_write e + zlen (data c)) as ->.
    { unfold wrap. rewrite Zplus_mod_idemp_r. rewrite Z.mod_small; lia. }
    rewrite check_bind_true by lia. cbn [mbind option_bind]. by rewrite set_last_snoc. }
  assert (chunk_wf e') as He'.
  { split; cbn; unfold CHUNK_SIZE; rewrite ?zlen_overwrite; try lia. }
  eexists. split; [done|]. split_and!.
  - apply (set_last_wf (mkChunkList (cs ++ [e]) (free_buffers_ l)) cs e e'); try done. cbn. lia.
  - by apply (set_last_roomy (mkChunkList (cs ++ [e]) (free_buffers_ l)) cs e e').
  - cbn. rewrite set_last_snoc. by destruct cs.
  - unfold content at 1. cbn [buffers_]. rewrite <- Hv, set_last_snoc, !views_app, !views_singleton.
    rewrite <- app_assoc. f_equal. unfold chunk_view, e'. cbn [c_read c_write c_buf].
    rewrite (slice_split _ _ (c_write e - c_read e)) by lia. f_equal.
    + apply slice_overwrite_before; lia.
    + replace (c_read e + _) with (c_write e) by lia. apply slice_overwrite_eq; lia.
  - unfold last_room. cbn [buffers_]. rewrite set_last_snoc, last_snoc, writable_spec by done.
    unfold e', CHUNK_SIZE. cbn. lia.
Qed.

Lemma run_calls_spec l cs :
  cl_wf l -> roomy l -> buffers_ l <> [] -> legal_calls (last_room l) cs = true ->
  exists l', run_calls l cs = Some l' /\ cl_wf l' /\ roomy l' /\ buffers_ l' <> [] /\
    content l' = content l ++ written cs.
Proof.
  revert l. induction cs as [|c cs IH]; intros l Hwf Hro Hne Hl.
  { exists l. unfold written. cbn. by rewrite app_nil_r. }
  cbn [legal_calls] in Hl. bool_prop.
  destruct (run_call_spec l c) as (l1 & E1 & Hwf1 & Hro1 & Hne1 & Hc1 & Hr1); try done.
  destruct (IH l1) as (l2 & E2 & Hwf2 & Hro2 & Hne2 & Hc2); try done; [by rewrite Hr1|].
  exists l2. cbn [run_calls]. rewrite E1. cbn [mbind option_bind]. split_and!; try done.
  rewrite Hc2, Hc1. unfold written. cbn. by rewrite app_assoc.
Qed.

End stream.

(** ** The sender *)

Section send.
Context `{Heap}.
Context (Halloc : can_alloc chunk_node_bytes = true).

Lemma chunk_AdvanceWrite_full c : chunk_wf c -> full c -> chunk_AdvanceWrite c (chunk_writable c) = Some c.
Proof.
  intros Hc Hf. unfold full in Hf. chunk_facts Hc. unfold chunk_AdvanceWrite.
  rewrite writable_spec by done. unfold CHUNK_SIZE. rewrite u32_id by lia. rewrite !check_bind_true by lia.
  destruct c; cbn in *. do 2 f_equal. lia.
Qed.

Lemma hash_chunks_cons st c rest :
  rest <> [] ->
  hash_chunks st (c :: rest) =
  (c ← chunk_AdvanceWrite c (chunk_writable c); st ← XXH32_update st (chunk_view c);
   '(rest, st) ← hash_chunks st rest; Some (c :: rest, st)).
Proof. by destruct rest. Qed.

(** The loop feeds the chunks, all but the last of which are full already. *)
Lemma hash_chunks_spec st cs :
  Forall chunk_wf cs -> Forall full (removelast cs) -> cs <> [] ->
  hash_chunks st cs = (st ← XXH32_updates st (map chunk_view cs); Some (cs, st)).
Proof.
  revert st. induction cs as [|c [|d cs] IH]; intros st Hw Hf Hne; [done| |].
  { cbn. by destruct (XXH32_update st (chunk_view c)). }
  change (removelast (c :: d :: cs)) with (c :: removelast (d :: cs)) in Hf.
  apply Forall_cons in Hw as [Hc Hw]. apply Forall_cons in Hf as [Hfc Hf].
  rewrite hash_chunks_cons by done. rewrite map_cons. cbn [XXH32_updates].
  rewrite chunk_AdvanceWrite_full by done. cbn [mbind option_bind].
  destruct (XXH32_update st (chunk_view c)) as [st1|]; [|done]. cbn [mbind option_bind].
  rewrite IH by done. by destruct (XXH32_updates st1 _).
Qed.

Lemma chunk_views_small l : cl_wf l -> Forall (fun p => zlen p < 2 ^ 63) (map chunk_view (buffers_ l)).
Proof.
  intros [W _ _ _]. apply Forall_map. eapply Forall_impl; [exact W|]. cbn. intros c Hc.
  rewrite zlen_chunk_view by done. chunk_facts Hc. lia.
Qed.

(** The content is hashed, the chunks stay as they are. *)
Lemma hash_content l :
  cl_wf l -> buffers_ l <> [] ->
  exists st h, hash_chunks (XXH32_reset 0) (buffers_ l) = Some (buffers_ l, st) /\
    XXH32_digest st = Some h /\ XXH32 (content l) 0 = Some h.
Proof.
  intros Hwf Hne. destruct (XXH32_total (content l) 0) as (h & Eh).
  destruct (updates_ok 0 (XXH32_reset 0) [] (map chunk_view (buffers_ l))) as (st & E & Hst);
    [by apply chunk_views_small|apply reset_ok|].
  exists st, h. rewrite hash_chunks_spec; [|by apply Hwf|by apply Hwf|done]. rewrite E.
  split; [done|]. rewrite (digest_ok _ _ _ Hst). by split.
Qed.

Lemma Send_spec tag ser l0 :
  ChunkList.Append empty_ChunkList tag = Some l0 -> tag <> [] ->
  legal_calls (last_room l0) ser = true ->
  zlen tag + zlen (written ser) + 8 < 2 ^ 32 ->
  exists l h, Send tag ser (zlen (written ser)) = Some l /\ cl_wf l /\
    XXH32 (tag ++ written ser) 0 = Some h /\ content l = frame tag (written ser) h.
Proof.
  intros E0 Hne Hl Hb. set (payload := written ser) in *.
  pose proof (zlen_nonneg tag). pose proof (zlen_nonneg payload).
  destruct (chunks_Append_spec Halloc empty_ChunkList tag) as (l0' & E0' & Hwf0 & Hc0 & _ & Hro0);
    [repeat constructor|by right|].
  rewrite E0 in E0'. injection E0' as <-. change (content empty_ChunkList ++ tag) with tag in Hc0.
  assert (roomy l0) as Hr0 by (apply Hro0; intros ? ? [=]).
  assert (buffers_ l0 <> []) as Hn0 by (intros E; unfold content in Hc0; rewrite E in Hc0; done).
  destruct (run_calls_spec Halloc l0 ser) as (l1 & E1 & Hwf1 & Hr1 & Hn1 & Hc1); try done.
  rewrite Hc0 in Hc1. fold payload in Hc1.
  destruct (hash_content l1) as (st & h & E2 & Ed & Eh); try done. rewrite Hc1 in Eh.
  pose proof (XXH32_range _ _ _ Eh) as Hh. unfold Send. rewrite E0. cbn [mbind option_bind].
  rewrite GetReadableSize_spec, Hc0 by (rewrite ?Hc0; (done || lia)). cbn [mbind option_bind].
  rewrite check_bind_true by lia. rewrite E1. cbn [mbind option_bind].
  rewrite GetReadableSize_spec, Hc1 by (rewrite ?Hc1, ?zlen_app; (done || lia)). cbn [mbind option_bind].
  rewrite (u32_id (zlen payload)), (u64_id (zlen payload + zlen tag)) by lia.
  rewrite check_bind_true by (rewrite zlen_app; lia).
  rewrite E2. cbn [mbind option_bind]. rewrite Ed. cbn [mbind option_bind].
  replace (mkChunkList (buffers_ l1) (free_buffers_ l1)) with l1 by (by destruct l1).
  unfold ChunkList.Prepend32, kChecksumLength, kSizeLength. rewrite u32_id by lia.
  rewrite check_bind_true by (apply Z.eqb_eq; apply byte_order32_involutive; lia).
  unfold ToNetworkByteOrder32 at 1. rewrite le_bytes_bswap.
  destruct (chunks_Prepend_spec Halloc l1 (be_bytes 4 (zlen tag + zlen payload + 4)))
    as (l2 & E3 & Hwf2 & Hc2 & _ & c & cs & Eb & _); [done|rewrite zlen_be_bytes; unfold sizeof_size_t; lia|done|].
  rewrite E3. cbn [mbind option_bind]. unfold ChunkList.Append32, ToNetworkByteOrder32. rewrite le_bytes_bswap.
  destruct (chunks_Append_spec Halloc l2 (be_bytes 4 h)) as (l3 & E4 & Hwf3 & Hc3 & _);
    [done|left; by rewrite Eb|].
  rewrite E4. cbn [mbind option_bind]. rewrite Hc2, Hc1 in Hc3.
  assert (zlen (content l3) = zlen tag + zlen payload + 8) as Hl3.
  { rewrite Hc3, !zlen_app, !zlen_be_bytes. lia. }
  rewrite GetReadableSize_spec, Hl3 by (done || lia). cbn [mbind option_bind].
  rewrite check_bind_true by (rewrite u64_id by lia; lia).
  exists l3, h. split_and!; try done. rewrite Hc3. unfold frame, kChecksumLength. by rewrite <- !app_assoc.
Qed.

End send.

(** ** The receiver *)

Section receiver.
Context {M : Type} (parse : list byte -> option M) (tag : list byte).

(** A well-formed frame that carries [m]. *)
Definition carries (f : list byte) (m : M) : Prop :=
  exists payload h, f = frame tag payload h /\ XXH32 (tag ++ payload) 0 = Some h /\
    parse payload = Some m /\ zlen tag + zlen payload + kChecksumLength < kMaxMessageLength.

Lemma mem_read_app (p junk : list byte) off n :
  0 <= off -> 0 <= n -> off + n <= zlen p -> mem_read (p ++ junk) off n = Some (slice off n p).
Proof.
  intros. pose proof (zlen_nonneg junk). rewrite mem_read_ok by (rewrite ?zlen_app; lia).
  by rewrite slice_app_l by lia.
Qed.

Lemma from_read_begin_content b off :
  buf_wf b -> 0 <= off <= Buffer.GetReadableSize b ->
  exists junk, from_read_begin b off = drop (Z.to_nat off) (Buffer.content b) ++ junk.
Proof.
  intros Hb Ho. rewrite readable_size in Ho by done. buf_wf Hb.
  unfold from_read_begin, Buffer.content. rewrite drop_slice, drop_slice_eq by lia.
  rewrite (slice_split _ _ (write_index_ b - read_index_ b - off)) by lia. by eexists.
Qed.

(** What [Parse] decides from the part covered by the checksum and the
    checksum. *)
Definition parse_body (body : list byte) (h : Z) : ErrorCode + M :=
  if bool_decide (XXH32 body 0 = Some h) then
    if bool_decide (take (length tag) body = tag) then
      match parse (drop (length tag) body) with Some m => inr m | None => inl kParseError end
    else inl kInvalidMessage
  else inl kInvalidChecksum.

Lemma Parse_spec p junk size :
  kChecksumLength + zlen tag <= size < kMaxMessageLength -> size <= zlen p ->
  Parse parse tag (p ++ junk) size =
  Some (parse_body (slice 0 (size - 4) p) (be_value (slice (size - 4) 4 p))).
Proof.
  unfold kChecksumLength. change kMaxMessageLength with 67108864. intros Hs Hp.
  pose proof (zlen_nonneg tag). unfold Parse, CheckCheckSum, kChecksumLength.
  rewrite u32_id by lia. rewrite (mem_read_app p junk 0), (mem_read_app p junk (size - 4)) by lia.
  cbn [mbind option_bind]. unfold GetCheckSum. destruct (XXH32_total (slice 0 (size - 4) p) 0) as (h & Eh). rewrite Eh.
  cbn [mbind option_bind].
  unfold ToHostByteOrder32. rewrite bswap_le_value.
  2: { pose proof (zlen_slice (size - 4) 4 p ltac:(lia) ltac:(lia) ltac:(lia)) as E. unfold zlen in E. lia. }
  unfold parse_body. rewrite Eh. set (h' := be_value _).
  destruct (Z.eqb_spec h h') as [<-|N]; [|rewrite bool_decide_eq_false_2; [done|congruence]].
  rewrite bool_decide_eq_true_2 by done. unfold tag_matches. rewrite mem_read_app by lia.
  cbn [mbind option_bind].
  assert (slice 0 (zlen tag) p = take (length tag) (slice 0 (size - 4) p)) as ->.
  { replace (length tag) with (Z.to_nat (zlen tag)) by (unfold zlen; lia). by rewrite take_slice by lia. }
  case_bool_decide; [|done]. unfold ParseFromBuffer. rewrite u64_id by lia.
  rewrite mem_read_app by lia. cbn [mbind option_bind]. do 3 f_equal.
  replace (length tag) with (Z.to_nat (zlen tag)) by (unfold zlen; lia). rewrite drop_slice by lia.
  by rewrite Z.add_0_l.
Qed.

(** The first frame of the bytes received. *)
Inductive head_frame := Wait | BadLength | Got (size : Z).

Definition decode_head (q : list byte) : head_frame :=
  let size := be_value (take 4 q) in
  if zlen q <? 8 then Wait
  else if (size <? kChecksumLength + zlen tag) || (kMaxMessageLength <=? size) then BadLength
  else if 4 + size <=? zlen q then Got size else Wait.

Lemma OnMessage_loop_eq k b :
  buf_wf b ->
  OnMessage_loop parse (S k) tag b =
  let q := Buffer.content b in
  match decode_head q with
  | Wait => Some ([], b)
  | BadLength => Some ([OnError kInvalidLength], b)
  | Got size =>
    match parse_body (slice 4 (size - 4) q) (be_value (slice size 4 q)) with
    | inl e => Some ([OnError e], b)
    | inr m =>
      b ← Buffer.AdvanceRead b (4 + size);
      '(evs, b) ← OnMessage_loop parse k tag b;
      Some (OnMsg m :: evs, b)
    end
  end.
Proof.
  intros Hb. pose proof (Buffer.content_size b Hb) as Hcs. cbn [OnMessage_loop]. cbv zeta.
  unfold decode_head. rewrite Hcs. change kMinMessageLength with 8. unfold kSizeLength.
  destruct (Z.ltb_spec (Buffer.GetReadableSize b) 8) as [L|L];
    [by rewrite (proj2 (Z.leb_gt _ _)) by lia|rewrite (proj2 (Z.leb_le _ _)) by lia].
  rewrite GetReadBegin32_spec by (done || lia). cbn [mbind option_bind].
  set (size := be_value (take 4 (Buffer.content b))).
  destruct (orb _ _) eqn:Eo; [done|]. bool_prop. pose proof (zlen_nonneg tag).
  unfold kChecksumLength in *. change kMaxMessageLength with 67108864 in *. rewrite u32_id by lia.
  destruct (Z.leb_spec (4 + size) (Buffer.GetReadableSize b)) as [L'|L']; [|done].
  destruct (from_read_begin_content b 4) as (junk & ->); [done|lia|].
  rewrite Parse_spec; [|by unfold kChecksumLength; change kMaxMessageLength with 67108864; lia|].
  2: { change (Z.to_nat 4) with 4%nat. unfold zlen in *. rewrite length_drop. lia. }
  cbn [mbind option_bind]. rewrite drop_slice_eq by lia. rewrite !slice_slice by (rewrite ?Hcs; lia).
  replace (4 + (size - 4)) with size by lia. by destruct (parse_body _ _).
Qed.

(** A complete frame at the head. *)
Lemma decode_frame payload h rest :
  zlen tag + zlen payload + kChecksumLength < kMaxMessageLength -> 0 <= h < 2 ^ 32 ->
  let size := zlen tag + zlen payload + kChecksumLength in
  let q := frame tag payload h ++ rest in
  decode_head q = Got size /\ slice 4 (size - 4) q = tag ++ payload /\ be_value (slice size 4 q) = h /\
  zlen (frame tag payload h) = 4 + size.
Proof.
  unfold kChecksumLength. change kMaxMessageLength with 67108864. intros Hm Hh.
  pose proof (zlen_nonneg tag). pose proof (zlen_nonneg payload). pose proof (zlen_nonneg rest). cbv zeta.
  set (size := zlen tag + zlen payload + 4) in *.
  assert (zlen (frame tag payload h) = 4 + size) as Hf.
  { unfold frame, kChecksumLength. rewrite !zlen_app, !zlen_be_bytes. lia. }
  assert (take 4 (frame tag payload h ++ rest) = be_bytes 4 size) as Ht.
  { unfold frame. rewrite <- app_assoc. apply take_app_length'. by rewrite length_be_bytes. }
  split_and!; [| | |done].
  - unfold decode_head. rewrite Ht, be_value_bytes, Z.mod_small by (change (256 ^ Z.of_nat 4) with (2 ^ 32); lia).
    rewrite zlen_app, Hf. rewrite (proj2 (Z.ltb_ge _ _)) by lia. unfold kChecksumLength.
    rewrite (proj2 (Z.ltb_ge _ _)) by lia. change kMaxMessageLength with 67108864.
    rewrite (proj2 (Z.leb_gt _ _)) by lia. by rewrite (proj2 (Z.leb_le _ _)) by lia.
  - unfold frame, slice. rewrite <- app_assoc. rewrite drop_app_length' by (by rewrite length_be_bytes).
    replace ((tag ++ payload ++ be_bytes 4 h) ++ rest) with ((tag ++ payload) ++ (be_bytes 4 h ++ rest))
      by (by rewrite !app_assoc).
    apply take_app_length'. rewrite length_app. unfold size, zlen. lia.
  - assert (slice size 4 (frame tag payload h ++ rest) = be_bytes 4 h) as ->.
    { unfold slice, frame. rewrite !app_assoc. rewrite <- (app_assoc _ _ rest). rewrite drop_app_length'.
      - apply take_app_length'. by rewrite length_be_bytes.
      - rewrite !length_app, length_be_bytes. unfold size, zlen. lia. }
    rewrite be_value_bytes. apply Z.mod_small. change (256 ^ Z.of_nat 4) with (2 ^ 32). lia.
Qed.

Lemma parse_carried payload h m :
  XXH32 (tag ++ payload) 0 = Some h -> parse payload = Some m ->
  parse_body (tag ++ payload) h = inr m.
Proof.
  intros Eh Em. unfold parse_body. rewrite bool_decide_eq_true_2 by done.
  rewrite take_app_length, bool_decide_eq_true_2 by done. by rewrite drop_app_length, Em.
Qed.

(** What was accepted is a frame that carries the message. *)
Lemma accepted_carries q size m :
  decode_head q = Got size ->
  parse_body (slice 4 (size - 4) q) (be_value (slice size 4 q)) = inr m ->
  4 + size <= zlen q /\ 4 <= size /\ carries (take (Z.to_nat (4 + size)) q) m.
Proof.
  unfold decode_head, parse_body. pose proof (zlen_nonneg tag).
  case_bool; [done|]. destruct (orb _ _) eqn:Eo; [done|]. unfold kChecksumLength in *. bool_prop.
  case_bool; [|done]. intros [= <-]. set (size := be_value (take 4 q)) in *.
  case_bool_decide as Eh; [|done]. case_bool_decide as Et; [|done].
  destruct (parse _) as [m'|] eqn:Em; [|done]. intros [= ->].
  split; [done|]. split; [lia|]. set (body := slice 4 (size - 4) q) in *.
  exists (drop (length tag) body), (be_value (slice size 4 q)).
  assert (tag ++ drop (length tag) body = body) as Eb by (rewrite <- Et at 1; apply take_drop).
  assert (zlen tag + zlen (drop (length tag) body) = size - 4) as El.
  { rewrite <- zlen_app, Eb. apply zlen_slice; lia. }
  split_and!; try done.
  - unfold frame. rewrite app_assoc with (l := tag), Eb. unfold kChecksumLength.
    replace (zlen tag + zlen (drop (length tag) body) + 4) with size by lia.
    assert (length (slice size 4 q) = 4%nat) as L4.
    { pose proof (zlen_slice size 4 q ltac:(lia) ltac:(lia) ltac:(lia)) as E. unfold zlen in E. lia. }
    rewrite be_bytes_value by done. unfold size at 2.
    rewrite be_bytes_value by (rewrite length_take; unfold zlen in *; lia).
    change (take 4 q) with (slice 0 4 q). unfold body.
    change (take (Z.to_nat (4 + size)) q) with (slice 0 (4 + size) q).
    rewrite (slice_split 0 (4 + size) 4) by lia. f_equal.
    rewrite (slice_split _ _ (size - 4)) by lia. f_equal; f_equal; lia.
  - by rewrite Eb.
  - unfold kChecksumLength. lia.
Qed.

(** Whatever was received, the callbacks are for frames it starts with. *)
Lemma loop_sound fuel b :
  buf_wf b -> (length (Buffer.content b) < fuel)%nat ->
  exists ms fs err b', OnMessage_loop parse fuel tag b = Some (map OnMsg ms ++ err, b') /\
    buf_wf b' /\ data_ b' = data_ b /\
    (BUFFER_PREFIX_SIZE <= read_index_ b -> BUFFER_PREFIX_SIZE <= read_index_ b') /\
    Buffer.content b = concat fs ++ Buffer.content b' /\ Forall2 carries fs ms /\
    (err = [] \/ exists e, err = [OnError e]).
Proof.
  revert b. induction fuel as [|k IH]; intros b Hb Hf; [lia|]. rewrite OnMessage_loop_eq by done. cbv zeta.
  destruct (decode_head (Buffer.content b)) as [| |size] eqn:Ed.
  - exists [], [], [], b. split_and!; auto.
  - exists [], [], [OnError kInvalidLength], b. split_and!; eauto.
  - destruct (parse_body _ _) as [e|m] eqn:Ep; [exists [], [], [OnError e], b; split_and!; eauto|].
    destruct (accepted_carries _ _ _ Ed Ep) as (Hl & H4 & Hc).
    destruct (Buffer.AdvanceRead_spec b (4 + size)) as (b1 & E1 & Hb1 & Hc1 & Hp1);
      [done|rewrite <- Buffer.content_size; (done || lia)|].
    rewrite E1. cbn [mbind option_bind].
    destruct (IH b1) as (ms & fs & err & b2 & E2 & Hb2 & Hd2 & Hp2 & Hc2 & Hf2 & He2); [done| |].
    { rewrite Hc1, length_drop. unfold zlen in Hl. lia. }
    rewrite E2. cbn [mbind option_bind].
    exists (m :: ms), (take (Z.to_nat (4 + size)) (Buffer.content b) :: fs), err, b2.
    split_and!; try done; auto.
    + by rewrite Hd2, (AdvanceRead_data _ _ _ E1).
    + cbn. rewrite <- app_assoc, <- Hc2, Hc1. by rewrite take_drop.
Qed.

(** Complete frames followed by something incomplete. *)
Lemma loop_complete fuel b fs ms part :
  buf_wf b -> (length (Buffer.content b) < fuel)%nat ->
  Buffer.content b = concat fs ++ part -> Forall2 carries fs ms -> decode_head part = Wait ->
  exists b', OnMessage_loop parse fuel tag b = Some (map OnMsg ms, b') /\ buf_wf b' /\
    data_ b' = data_ b /\ (BUFFER_PREFIX_SIZE <= read_index_ b -> BUFFER_PREFIX_SIZE <= read_index_ b') /\
    Buffer.content b' = part.
Proof.
  revert fuel b ms. induction fs as [|f fs IH]; intros fuel b ms Hb Hf Hc Hm Hw.
  { destruct fuel as [|k]; [lia|]. inversion Hm; subst. cbn in Hc.
    rewrite OnMessage_loop_eq by done. cbv zeta. rewrite Hc, Hw. exists b. auto. }
  inversion Hm as [|? m ? ms' (payload & h & -> & Eh & Em & Hs) Hm']; subst.
  destruct fuel as [|k]; [lia|]. rewrite OnMessage_loop_eq by done. cbv zeta. rewrite Hc. cbn [concat].
  rewrite <- app_assoc. pose proof (XXH32_range _ _ _ Eh) as Hh.
  destruct (decode_frame payload h (concat fs ++ part) Hs Hh) as (E1 & E2 & E3 & E4).
  rewrite E1, E2, E3, (parse_carried _ _ _ Eh Em). set (size := zlen tag + zlen payload + kChecksumLength) in *.
  assert (Z.to_nat (4 + size) = length (frame tag payload h)) as El by (unfold zlen in E4; lia).
  destruct (Buffer.AdvanceRead_spec b (4 + size)) as (b1 & Ea & Hb1 & Hc1 & Hp1); [done| |].
  { rewrite <- Buffer.content_size, Hc by done. cbn [concat]. rewrite <- app_assoc, zlen_app, E4.
    pose proof (zlen_nonneg (concat fs ++ part)). pose proof (zlen_nonneg (frame tag payload h)). lia. }
  rewrite Ea. cbn [mbind option_bind].
  rewrite Hc, El in Hc1. cbn [concat] in Hc1. rewrite <- app_assoc, drop_app_length in Hc1.
  destruct (IH k b1 ms') as (b2 & Eb & Hb2 & Hd2 & Hp2 & Hc2); try done.
  { rewrite Hc in Hf. cbn [concat] in Hf. rewrite Hc1. rewrite <- app_assoc, length_app in Hf.
    unfold zlen in E4. pose proof (zlen_nonneg payload). pose proof (zlen_nonneg tag).
    unfold kChecksumLength in size. lia. }
  rewrite Eb. cbn [mbind option_bind]. exists b2. split_and!; auto.
  by rewrite Hd2, (AdvanceRead_data _ _ _ Ea).
Qed.

Lemma prefix_waits f m part ext :
  carries f m -> part ++ ext = f -> ext <> [] -> decode_head part = Wait.
Proof.
  intros (payload & h & -> & Eh & _ & Hs) E Hne. pose proof (XXH32_range _ _ _ Eh) as Hh.
  destruct (decode_frame payload h [] Hs Hh) as (E1 & _ & _ & E4). rewrite app_nil_r, <- E in E1.
  assert (0 < zlen ext) as Hx by (destruct ext; [done|rewrite zlen_cons; pose proof (zlen_nonneg ext); lia]).
  rewrite <- E, zlen_app in E4. unfold decode_head in E1 |- *.
  case_bool; [done|]. rewrite take_app_le in E1 by (unfold zlen in Hb; lia).
  destruct (Z.ltb_spec (zlen (part ++ ext)) 8); [done|]. destruct (orb _ _); [done|].
  destruct (Z.leb_spec (4 + be_value (take 4 part)) (zlen (part ++ ext))); [|done].
  injection E1 as E1. rewrite E1. rewrite (proj2 (Z.leb_gt _ _)); [done|lia].
Qed.

Lemma carries_nonempty f m : carries f m -> f <> [].
Proof.
  intros (payload & h & -> & _) E. apply (f_equal length) in E. unfold frame in E.
  rewrite length_app, length_be_bytes in E. cbn in E. lia.
Qed.

End receiver.

(** ** A stream of frames in any segmentation *)

(** A part of a frame, not all of it; nothing if there is none to come. *)
Definition within (p : list byte) (fs : list (list byte)) : Prop :=
  match fs with
  | [] => p = []
  | f :: _ => exists ext, p ++ ext = f /\ ext <> []
  end.

Lemma split_prefix fs (q rest : list byte) :
  Forall (fun f => f <> []) fs -> q ++ rest = concat fs ->
  exists fs1 fs2 p, fs = fs1 ++ fs2 /\ q = concat fs1 ++ p /\ p ++ rest = concat fs2 /\ within p fs2.
Proof.
  revert q. induction fs as [|f fs IH]; intros q Hne E.
  { exists [], [], q. cbn in *. apply app_nil in E as [-> ->]. done. }
  inversion Hne as [|? ? Hf Hne']; subst. cbn [concat] in E.
  destruct (decide (length f <= length q)%nat) as [L|L].
  - assert (q = f ++ drop (length f) q) as Eq.
    { rewrite <- (take_drop (length f) q) at 1. f_equal. apply (f_equal (take (length f))) in E.
      by rewrite take_app_le, take_app_length in E. }
    rewrite Eq, <- app_assoc in E. apply app_inv_head in E.
    destruct (IH (drop (length f) q)) as (fs1 & fs2 & p & -> & Ep & Er & Hw); [done|done|].
    exists (f :: fs1), fs2, p. split_and!; try done. cbn. rewrite <- app_assoc, <- Ep. done.
  - exists [], (f :: fs), q. split_and!; try done. exists (drop (length q) f). split.
    + apply (f_equal (take (length q))) in E. rewrite take_app_length, take_app_le in E by lia.
      rewrite E at 1. apply take_drop.
    + intros E'. apply (f_equal length) in E'. rewrite length_drop in E'. cbn in E'. lia.
Qed.

(** Frames handled one after the other. *)
Inductive frames_run {St} (step : St -> list byte -> St -> Prop) : St -> list (list byte) -> St -> Prop :=
  | frames_none st : frames_run step st [] st
  | frames_one st st1 st2 f fs : step st f st1 -> frames_run step st1 fs st2 -> frames_run step st (f :: fs) st2.

Lemma frames_run_app {St} (step : St -> list byte -> St -> Prop) st fs1 fs2 st2 :
  frames_run step st (fs1 ++ fs2) st2 -> exists st1, frames_run step st fs1 st1 /\ frames_run step st1 fs2 st2.
Proof.
  revert st. induction fs1 as [|f fs1 IH]; intros st HR; [exists st; split; [constructor|done]|].
  inversion HR as [|? st1 ? ? ? Hf HR']; subst. destruct (IH st1 HR') as (st3 & H1 & H2).
  exists st3. split; [by econstructor|done].
Qed.

Lemma frames_run_Forall {St} (step : St -> list byte -> St -> Prop) (P : list byte -> Prop) st fs st2 :
  (forall st f st1, step st f st1 -> P f) -> frames_run step st fs st2 -> Forall P fs.
Proof. intros HP. induction 1; constructor; eauto. Qed.

Section serve.
Context `{Heap} {St : Type} (handle : St -> Buffer -> option (St * Buffer)).

(** The reads of a connection, each followed by its message callback. *)
Fixpoint serve (segs : list (list byte)) (st : St) (b : Buffer) : option (St * Buffer) :=
  match segs with
  | [] => Some (st, b)
  | s :: segs =>
    '(b, _, _) ← BufferReadFromFd b (ReadvBytes s);
    '(st, b) ← handle st b;
    serve segs st b
  end.

(** A codec: what each frame does, and what the callback leaves in the buffer as
    the start of a frame. *)
Context (step : St -> list byte -> St -> Prop) (waits : list byte -> Prop) (max : Z).
Context (step_nonempty : forall st f st', step st f st' -> f <> []).
Context (handle_frames : forall st b fs st' part,
  buf_wf b -> zlen (Buffer.content b) < max ->
  Buffer.content b = concat fs ++ part -> frames_run step st fs st' -> waits part ->
  exists b', handle st b = Some (st', b') /\ buf_wf b' /\ data_ b' = data_ b /\
    (BUFFER_PREFIX_SIZE <= read_index_ b -> BUFFER_PREFIX_SIZE <= read_index_ b') /\
    Buffer.content b' = part).

(** Where the bytes [q] of the frames [fs] stop, the codec waits. *)
Definition cut_ok (fs : list (list byte)) (q : list byte) : Prop :=
  forall fs1 fs2 p, fs = fs1 ++ fs2 -> q = concat fs1 ++ p -> within p fs2 -> waits p.

(** Wherever a segment arrives, it fits with the part of a frame before it. *)
Definition room_ok (fs : list (list byte)) (q : list byte) (segs : list (list byte)) : Prop :=
  forall k s fs1 fs2 p, segs !! k = Some s -> fs = fs1 ++ fs2 ->
    q ++ concat (take k segs) = concat fs1 ++ p -> within p fs2 -> zlen p + zlen s < max.

Lemma serve_room segs fs st st' b :
  buf_wf b -> BUFFER_PREFIX_SIZE <= read_index_ b ->
  Buffer.content b ++ concat segs = concat fs -> within (Buffer.content b) fs ->
  frames_run step st fs st' -> room_ok fs (Buffer.content b) segs ->
  Forall (fun s => zlen s <= extra_buf_size) segs ->
  (forall n, n <= zlen (data_ b) + zlen (concat segs) -> can_alloc n = true) ->
  (forall k, cut_ok fs (Buffer.content b ++ concat (take k segs))) ->
  exists b', serve segs st b = Some (st', b') /\ buf_wf b' /\ Buffer.content b' = [].
Proof.
  revert fs st b. induction segs as [|s segs IH]; intros fs st b Hb Hp Hc Hw Hm Hroom Hsz Hal Hcut.
  { cbn [concat] in Hc. rewrite app_nil_r in Hc. exists b. cbn [serve]. destruct fs as [|f fs].
    - inversion Hm; subst. cbn in Hw. by rewrite Hw.
    - destruct Hw as (ext & E1 & Hne). cbn [concat] in Hc. rewrite Hc in E1. rewrite <- E1 in Hc.
      apply (f_equal length) in E1. rewrite !length_app in E1. destruct ext; [done|]. cbn in E1. lia. }
  inversion Hsz as [|? ? Hs Hsz']; subst. cbn [serve concat] in *. rewrite zlen_app in Hal.
  pose proof (zlen_nonneg (concat segs)). pose proof (zlen_nonneg s). buf_wf Hb.
  destruct (BufferReadFromFd_spec b s) as (b1 & -> & Hb1 & Hc1 & Hd1 & Hp1); [done| |done| |].
  { unfold readv_room, extra_buf_size in *. rewrite writable_size by done. case_bool; lia. }
  { intros _. apply Hal. lia. }
  cbn [mbind option_bind].
  destruct (split_prefix fs (Buffer.content b1) (concat segs)) as (fs1 & fs2 & p & -> & Eq & Er & Hwp).
  { by eapply frames_run_Forall. }
  { by rewrite Hc1, <- app_assoc. }
  apply frames_run_app in Hm as (st1 & Hm1 & Hm2).
  assert (zlen (Buffer.content b1) < max) as Hlt.
  { rewrite Hc1, zlen_app. apply (Hroom 0%nat s [] (fs1 ++ fs2)); [done|done| |done]. by rewrite app_nil_r. }
  assert (waits p) as Hwait.
  { apply (Hcut 1%nat fs1 fs2 p); [done| |done]. cbn [take concat]. by rewrite app_nil_r, <- Hc1. }
  destruct (handle_frames st b1 fs1 st1 p) as (b2 & -> & Hb2 & Hd2 & Hp2 & Hc2); [done..|].
  cbn [mbind option_bind].
  destruct (IH fs2 st1 b2) as (b3 & -> & Hb3 & Hc3); try done; [auto|by rewrite Hc2|by rewrite Hc2| | | |].
  { intros k s' fs1' fs2' p' Hk -> E1 Hw'. apply (Hroom (S k) s' (fs1 ++ fs1') fs2' p'); [done|by rewrite app_assoc| |done].
    cbn [take concat]. rewrite app_assoc, <- Hc1, Eq, concat_app, <- !app_assoc. f_equal. by rewrite <- Hc2. }
  { intros n Hn. apply Hal. rewrite Hd2 in Hn. lia. }
  { intros k fs1' fs2' p' -> E1 Hw'. apply (Hcut (S k) (fs1 ++ fs1') fs2' p'); [by rewrite app_assoc| |done].
    cbn [take concat]. rewrite app_assoc, <- Hc1, Eq, concat_app, <- !app_assoc. f_equal. by rewrite <- Hc2. }
  by exists b3.
Qed.

(** There is always room when the largest segment fits behind the largest frame. *)
Lemma room_small fs q segs :
  q ++ concat segs = concat fs -> 0 < max -> Forall (fun f => zlen f + extra_buf_size <= max) fs ->
  Forall (fun s => zlen s <= extra_buf_size) segs -> room_ok fs q segs.
Proof using.
  intros Hc Hpos Hmax Hsz k s fs1 fs2 p Hk -> E Hw.
  pose proof (Forall_lookup_1 _ _ _ _ Hsz Hk) as Hs. apply Forall_app in Hmax as [_ Hmax].
  rewrite concat_app in Hc. destruct fs2 as [|f fs2]; cbn [within concat] in *.
  - subst p. rewrite !app_nil_r in *. rewrite <- (take_drop_middle _ _ _ Hk), concat_app, app_assoc, E in Hc.
    rewrite <- (app_nil_r (concat fs1)) in Hc at 2. apply app_inv_head, app_nil in Hc as [-> _]. done.
  - destruct Hw as (ext & <- & Hne). inversion Hmax as [|? ? Hx _]; subst. rewrite zlen_app in Hx.
    assert (0 < zlen ext) by (destruct ext; [done|rewrite zlen_cons; pose proof (zlen_nonneg ext); lia]). lia.
Qed.

Lemma serve_spec segs fs st st' b :
  buf_wf b -> BUFFER_PREFIX_SIZE <= read_index_ b ->
  Buffer.content b ++ concat segs = concat fs -> within (Buffer.content b) fs ->
  frames_run step st fs st' ->
  0 < max -> Forall (fun f => zlen f + extra_buf_size <= max) fs ->
  Forall (fun s => zlen s <= extra_buf_size) segs ->
  (forall n, n <= zlen (data_ b) + zlen (concat segs) -> can_alloc n = true) ->
  (forall k, cut_ok fs (Buffer.content b ++ concat (take k segs))) ->
  exists b', serve segs st b = Some (st', b') /\ buf_wf b' /\ Buffer.content b' = [].
Proof. intros. eapply serve_room; try done. by apply room_small. Qed.

End serve.

Section deliver.
Context `{Heap} {E : Type} (on_message : Buffer -> option (list E * Buffer)).

(** The reads of a connection: each is followed by the message callback. *)
Fixpoint receive (segs : list (list byte)) (b : Buffer) : option (list E * Buffer) :=
  match segs with
  | [] => Some ([], b)
  | s :: segs =>
    '(b, _, _) ← BufferReadFromFd b (ReadvBytes s);
    '(evs1, b) ← on_message b;
    '(evs2, b) ← receive segs b;
    Some (evs1 ++ evs2, b)
  end.

(** A codec: which frames make which callback, and what it leaves in the buffer
    as the start of a frame. *)
Context (framed : list byte -> E -> Prop) (waits : list byte -> Prop) (max : Z).
Context (framed_nonempty : forall f e, framed f e -> f <> []).
Context (on_message_frames : forall b fs es part,
  buf_wf b -> zlen (Buffer.content b) < max ->
  Buffer.content b = concat fs ++ part -> Forall2 framed fs es -> waits part ->
  exists b', on_message b = Some (es, b') /\ buf_wf b' /\ data_ b' = data_ b /\
    (BUFFER_PREFIX_SIZE <= read_index_ b -> BUFFER_PREFIX_SIZE <= read_index_ b') /\
    Buffer.content b' = part).

(** The callbacks made so far are the state. *)
Definition recorded (evs : list E) (b : Buffer) : option (list E * Buffer) :=
  '(evs1, b) ← on_message b; Some (evs ++ evs1, b).

Definition record_step (evs : list E) (f : list byte) (evs' : list E) : Prop :=
  exists e, framed f e /\ evs' = evs ++ [e].

Lemma serve_recorded segs : forall evs b,
  serve recorded segs evs b = '(evs1, b) ← receive segs b; Some (evs ++ evs1, b).
Proof using.
  induction segs as [|s segs IH]; intros evs b; cbn [serve receive mbind option_bind]; [by rewrite app_nil_r|].
  destruct (BufferReadFromFd b (ReadvBytes s)) as [[[b1 n] o]|]; cbn [mbind option_bind]; [|done].
  assert (recorded evs b1 = '(evs1, b) ← on_message b1; Some (evs ++ evs1, b)) as -> by done.
  destruct (on_message b1) as [[evs1 b2]|]; cbn [mbind option_bind]; [|done].
  rewrite IH. destruct (receive segs b2) as [[evs2 b3]|]; cbn [mbind option_bind]; [|done].
  by rewrite app_assoc.
Qed.

Lemma record_run fs es evs : Forall2 framed fs es -> frames_run record_step evs fs (evs ++ es).
Proof using.
  intros HF. revert evs. induction HF as [|f e fs es Hf _ IH]; intros evs; [rewrite app_nil_r; constructor|].
  econstructor; [by exists e|]. specialize (IH (evs ++ [e])). by rewrite <- app_assoc in IH.
Qed.

Lemma record_run_inv fs evs evs' :
  frames_run record_step evs fs evs' -> exists es, Forall2 framed fs es /\ evs' = evs ++ es.
Proof using.
  induction 1 as [st|st st1 st2 f fs (e & Hf & ->) _ (es & HF & ->)]; [exists []; by rewrite app_nil_r|].
  exists (e :: es). split; [by constructor|]. by rewrite <- app_assoc.
Qed.

Lemma receive_room segs fs es b :
  buf_wf b -> BUFFER_PREFIX_SIZE <= read_index_ b ->
  Buffer.content b ++ concat segs = concat fs -> within (Buffer.content b) fs ->
  Forall2 framed fs es ->
  room_ok max fs (Buffer.content b) segs ->
  Forall (fun s => zlen s <= extra_buf_size) segs ->
  (forall n, n <= zlen (data_ b) + zlen (concat segs) -> can_alloc n = true) ->
  (forall k, cut_ok waits fs (Buffer.content b ++ concat (take k segs))) ->
  exists b', receive segs b = Some (es, b') /\ buf_wf b' /\ Buffer.content b' = [].
Proof using framed_nonempty on_message_frames.
  intros Hb Hp Hc Hw Hm Hroom Hsz Hal Hcut.
  edestruct (serve_room recorded record_step waits max) as (b' & E1 & Hb' & Hc');
    [| |exact Hb|exact Hp|exact Hc|exact Hw|exact (record_run _ _ [] Hm)|exact Hroom|exact Hsz|exact Hal|exact Hcut|].
  - intros evs f evs' (e & Hf & _). by eapply framed_nonempty.
  - intros evs b1 fs1 evs' part Hb1 Hl1 Hc1 HR Hw1. apply record_run_inv in HR as (es1 & HF & ->).
    destruct (on_message_frames b1 fs1 es1 part) as (b2 & E2 & H2); [done..|].
    exists b2. unfold recorded. by rewrite E2.
  - exists b'. split; [|done]. rewrite serve_recorded in E1.
    destruct (receive segs b) as [[evs b2]|]; cbn in E1; [|done]. by injection E1 as -> ->.
Qed.

Lemma receive_spec segs fs es b :
  buf_wf b -> BUFFER_PREFIX_SIZE <= read_index_ b ->
  Buffer.content b ++ concat segs = concat fs -> within (Buffer.content b) fs ->
  Forall2 framed fs es ->
  0 < max -> Forall (fun f => zlen f + extra_buf_size <= max) fs ->
  Forall (fun s => zlen s <= extra_buf_size) segs ->
  (forall n, n <= zlen (data_ b) + zlen (concat segs) -> can_alloc n = true) ->
  (forall k, cut_ok waits fs (Buffer.content b ++ concat (take k segs))) ->
  exists b', receive segs b = Some (es, b') /\ buf_wf b' /\ Buffer.content b' = [].
Proof using framed_nonempty on_message_frames.
  intros. eapply receive_room; try done. by apply room_small.
Qed.

End deliver.

(** The callback a frame makes. *)
Definition calls_back {M} (parse : list byte -> option M) (tag f : list byte) (e : event) : Prop :=
  exists m, carries parse tag f m /\ e = OnMsg m.

Lemma OnMessage_frames `{Heap} {M} (parse : list byte -> option M) tag b fs es part :
  buf_wf b -> zlen (Buffer.content b) < kMaxMessageLength ->
  Buffer.content b = concat fs ++ part ->
  Forall2 (calls_back parse tag) fs es -> decode_head tag part = Wait ->
  exists b', OnMessage parse tag b = Some (es, b') /\ buf_wf b' /\ data_ b' = data_ b /\
    (BUFFER_PREFIX_SIZE <= read_index_ b -> BUFFER_PREFIX_SIZE <= read_index_ b') /\
    Buffer.content b' = part.
Proof.
  intros Hb Hl Hc Hm Hw. assert (exists ms, Forall2 (carries parse tag) fs ms /\ es = map OnMsg ms) as (ms & Hms & ->).
  { clear -Hm. induction Hm as [|f e fs es (m & Hf & ->) _ (ms & Hms & ->)]; [by exists []|].
    exists (m :: ms). split; [by constructor|done]. }
  unfold OnMessage. rewrite <- Buffer.content_size by done. rewrite (proj2 (Z.leb_gt _ _)) by done.
  by apply (loop_complete parse tag _ b fs); [|lia|..].
Qed.

(** ** Properties *)

(** The messages sent: how each is serialized and what it is. *)
Definition sends {M} (parse : list byte -> option M) (tag : list byte) `{Heap}
    (x : list stream_call * M * ChunkList) : Prop :=
  let '(ser, m, l) := x in
  parse (written ser) = Some m /\
  zlen tag + zlen (written ser) + 8 + extra_buf_size <= kMaxMessageLength /\
  exists l0, ChunkList.Append empty_ChunkList tag = Some l0 /\ legal_calls (last_room l0) ser = true /\
    Send tag ser (zlen (written ser)) = Some l.

Lemma sends_carries `{Heap} {M} (parse : list byte -> option M) tag ser m l :
  can_alloc chunk_node_bytes = true -> tag <> [] -> sends parse tag (ser, m, l) ->
  carries parse tag (content l) m /\ zlen (content l) + extra_buf_size <= kMaxMessageLength.
Proof.
  intros Hal Hne (Hp & Hs & l0 & E0 & Hl & E). change kMaxMessageLength with 67108864 in *.
  unfold extra_buf_size in *.
  destruct (Send_spec Hal tag ser l0) as (l' & h & E' & Hwf & Eh & Hc); try done; [lia|].
  rewrite E in E'. injection E' as <-. rewrite Hc. split.
  - exists (written ser), h. split_and!; try done. unfold kChecksumLength.
    change kMaxMessageLength with 67108864. lia.
  - unfold frame. rewrite !zlen_app, !zlen_be_bytes. lia.
Qed.

(** [Send] builds exactly one frame, whatever blocks protobuf asks the
    stream for: the size in network byte order, the tag, the serialized message
    and the XXH32 of both, in a well-formed chunk list. No assertion fails. *)
Theorem send_writes_frame `{Heap} (tag : list byte) (ser : list stream_call) (l0 : ChunkList) :
  can_alloc chunk_node_bytes = true -> tag <> [] ->
  ChunkList.Append empty_ChunkList tag = Some l0 -> legal_calls (last_room l0) ser = true ->
  zlen tag + zlen (written ser) + 8 < 2 ^ 32 ->
  exists l h, Send tag ser (zlen (written ser)) = Some l /\ cl_wf l /\
    XXH32 (tag ++ written ser) 0 = Some h /\ content l = frame tag (written ser) h.
Proof. intros. by eapply Send_spec. Qed.

Definition demo_tag : list byte := str "Query".

(** The serialization of a message that fills a chunk and a bit. *)
Definition demo_calls : list stream_call :=
  [CallNext (repeat x41 (Z.to_nat 4083)) 0; CallNext (str "tail") 4092].

Lemma send_writes_frame_witness :
  exists l h, @Send zero_heap demo_tag demo_calls 4087 = Some l /\ cl_wf l /\
    XXH32 (demo_tag ++ written demo_calls) 0 = Some h /\ content l = frame demo_tag (written demo_calls) h.
Proof.
  destruct (@ChunkList.Append zero_heap empty_ChunkList demo_tag) as [l0|] eqn:E0; [|discriminate E0].
  apply (@send_writes_frame zero_heap demo_tag demo_calls l0); [reflexivity|discriminate|exact E0| |].
  - vm_compute in E0. injection E0 as <-. vm_compute. reflexivity.
  - vm_compute. reflexivity.
Defined.

Lemma codec_receives `{Heap} {M} (parse : list byte -> option M) (tag : list byte)
    (xs : list (list stream_call * M * ChunkList)) (segs : list (list byte)) (b : Buffer) :
  can_alloc chunk_node_bytes = true -> tag <> [] -> Forall (sends parse tag) xs ->
  buf_wf b -> BUFFER_PREFIX_SIZE <= read_index_ b -> Buffer.content b = [] ->
  concat segs = concat (map (fun x => content (snd x)) xs) ->
  Forall (fun s => zlen s <= extra_buf_size) segs ->
  (forall n, n <= zlen (data_ b) + zlen (concat segs) -> can_alloc n = true) ->
  exists b', receive (OnMessage parse tag) segs b = Some (map (fun x => OnMsg (snd (fst x))) xs, b') /\
    Buffer.content b' = [].
Proof.
  intros Hal Hne Hxs Hb Hp Hc Hs Hsz Ha.
  assert (Forall2 (calls_back parse tag)
    (map (fun x => content (snd x)) xs) (map (fun x => OnMsg (snd (fst x))) xs)) as Hm.
  { clear -Hxs Hal Hne. induction Hxs as [|[[ser m] l] xs Hx _ IH]; constructor; [|done].
    exists m. split; [by eapply sends_carries|done]. }
  edestruct (receive_spec (OnMessage parse tag) (calls_back parse tag) (fun p => decode_head tag p = Wait)
    kMaxMessageLength) as (b' & E & _ & Hc'); [| |exact Hb|done| | |exact Hm|done| |exact Hsz|exact Ha| |].
  - intros f e (m & Hf & _). by eapply carries_nonempty.
  - intros. by eapply OnMessage_frames.
  - by rewrite Hc.
  - rewrite Hc. destruct xs as [|[[ser m] l] xs]; [done|]. cbn [map within snd].
    inversion Hxs as [|? ? Hx _]; subst. exists (content l). split; [done|].
    eapply carries_nonempty, sends_carries; done.
  - clear -Hxs Hal Hne. induction Hxs as [|[[ser m] l] xs Hx _ IH]; constructor; [|done].
    by eapply sends_carries.
  - intros k fs1 fs2 p E1 _ Hw. destruct fs2 as [|f fs2]; [by rewrite Hw|]. destruct Hw as (ext & Ee & Hx).
    rewrite E1 in Hm. apply Forall2_app_inv_l in Hm as (? & ? & _ & Hm & _).
    inversion Hm as [|? ? ? ? (m & Hf & _) _]; subst. by eapply prefix_waits.
  - by exists b'.
Qed.

(** C1 Messages sent with [Send] and cut by the network into arbitrary segments of at
    most 64 KiB arrive: the receiver makes one message callback for each, in order,
    makes no error callback and keeps nothing.  The tag is not empty, and 64 KiB fit
    between a frame and the limit of the codec (see [sends]). *)
Theorem codec_roundtrip `{Heap} {M} (parse : list byte -> option M) (tag : list byte)
    (xs : list (list stream_call * M * ChunkList)) (segs : list (list byte)) (b : Buffer) :
  can_alloc chunk_node_bytes = true -> tag <> [] -> Forall (sends parse tag) xs ->
  buf_wf b -> BUFFER_PREFIX_SIZE <= read_index_ b -> Buffer.content b = [] ->
  concat segs = concat (map (fun x => content (snd x)) xs) ->
  Forall (fun s => zlen s <= extra_buf_size) segs ->
  (forall n, n <= zlen (data_ b) + zlen (concat segs) -> can_alloc n = true) ->
  exists b', receive (OnMessage parse tag) segs b = Some (map (fun x => OnMsg (snd (fst x))) xs, b') /\
    Buffer.content b' = [].
Proof. apply codec_receives. Qed.

Definition demo_sent (payload : list byte) : list stream_call * list byte * ChunkList :=
  let ser := [CallNext payload (4083 - zlen payload)] in
  (ser, payload, default empty_ChunkList (@Send zero_heap demo_tag ser (zlen payload))).

Definition demo_stream : list byte :=
  content (snd (demo_sent (str "select 1"))) ++ content (snd (demo_sent (str "bye"))).

Lemma demo_sends payload :
  bool_decide (0 <= 4083 - zlen payload) = true ->
  is_Some (@Send zero_heap demo_tag [CallNext payload (4083 - zlen payload)] (zlen payload)) ->
  @sends (list byte) Some demo_tag zero_heap (demo_sent payload).
Proof.
  intros Hl [l Hs]. apply bool_decide_eq_true in Hl. unfold demo_sent, sends.
  assert (written [CallNext payload (4083 - zlen payload)] = payload) as Hw.
  { unfold written. cbn. by rewrite app_nil_r. }
  rewrite Hw. split; [done|]. split.
  { change (zlen demo_tag) with 5. unfold extra_buf_size. change kMaxMessageLength with 67108864. lia. }
  eexists. split; [vm_compute; reflexivity|]. split; [|by rewrite Hs].
  cbn [legal_calls back data]. change (last_room _) with 4083. cbn [Z.eqb].
  rewrite (proj2 (Z.leb_le _ _)) by lia. rewrite (proj2 (Z.eqb_eq _ _)) by lia. done.
Qed.

Lemma codec_roundtrip_witness :
  exists b', @receive zero_heap _ (@OnMessage (list byte) Some zero_heap demo_tag)
      [take 3 demo_stream; take 20 (drop 3 demo_stream); drop 23 demo_stream]
      (mkBuffer 8 8 (repeat x00 16)) = Some ([OnMsg (str "select 1"); OnMsg (str "bye")], b') /\
    Buffer.content b' = [].
Proof.
  apply (@codec_roundtrip zero_heap (list byte) Some demo_tag
    [demo_sent (str "select 1"); demo_sent (str "bye")]);
    [reflexivity|discriminate| |by split|done|reflexivity|vm_compute; reflexivity| |].
  - constructor; [|constructor; [|constructor]];
      (apply demo_sends; [reflexivity|eexists; vm_compute; reflexivity]).
  - repeat constructor; vm_compute; discriminate.
  - intros n Hn. apply Z.ltb_lt. eapply Z.le_lt_trans; [exact Hn|]. vm_compute. reflexivity.
Defined.

(** C19 On arbitrary bytes from the network [OnMessage] stops, reads only the
    buffer, and every message it delivers is the payload of a complete frame
    with its tag and a matching checksum, taken off the front of the buffer in
    order; at most one error is reported, as the last callback. *)
Theorem on_message_sound `{Heap} {M} (parse : list byte -> option M) (tag : list byte) (b : Buffer) :
  buf_wf b -> Buffer.GetReadableSize b < kMaxMessageLength ->
  exists ms fs err b', OnMessage parse tag b = Some (map OnMsg ms ++ err, b') /\ buf_wf b' /\
    Buffer.content b = concat fs ++ Buffer.content b' /\ Forall2 (carries parse tag) fs ms /\
    (err = [] \/ exists e, err = [OnError e]).
Proof.
  intros Hb Hm. unfold OnMessage. rewrite (proj2 (Z.leb_gt _ _)) by done.
  destruct (loop_sound parse tag (S (length (Buffer.content b))) b)
    as (ms & fs & err & b' & E & Hb' & _ & _ & Hc & Hf & He); [done|lia|].
  by exists ms, fs, err, b'.
Qed.

(** Garbage behind a length that is in range. *)
Definition garbage : Buffer := mkBuffer 8 28 (repeat x00 8 ++ be_bytes 4 16 ++ repeat x2a 16).

Lemma on_message_sound_witness :
  exists ms fs err b', @OnMessage (list byte) Some zero_heap demo_tag garbage = Some (map OnMsg ms ++ err, b') /\
    buf_wf b' /\ Buffer.content garbage = concat fs ++ Buffer.content b' /\
    Forall2 (carries Some demo_tag) fs ms /\ (err = [] \/ exists e, err = [OnError e]).
Proof. apply (@on_message_sound zero_heap); [by split|reflexivity]. Defined.

(** ** Defects *)

(** Two complete messages that together reach the limit are thrown away, and the
    buffer is left with its indices past an empty block: the next read into it
    is out of bounds. *)
Lemma oversize_breaks_buffer `{Heap} {M} (parse : list byte -> option M) tag b :
  buf_wf b -> kMaxMessageLength <= Buffer.GetReadableSize b ->
  OnMessage parse tag b = Some ([OnError kInvalidLength], mkBuffer 8 8 []) /\
  forall bs, bs <> [] -> BufferReadFromFd (mkBuffer 8 8 []) (ReadvBytes bs) = None.
Proof.
  intros Hb Hm. split.
  - unfold OnMessage. rewrite (proj2 (Z.leb_le _ _)) by done. unfold Buffer.AdvanceAll, Buffer.AdvanceRead.
    rewrite check_bind_true by lia. rewrite (proj2 (Z.eqb_eq _ _)) by done.
    cbn [mbind option_bind]. unfold Buffer.Shrink. cbn. buf_wf Hb. unfold array_Shrink, GetSize.
    change (u64 0) with 0. change (u64 (u64 0 + 0)) with 0. cbv zeta.
    destruct (data_ b) as [|x d] eqn:Ed; [|done].
    rewrite ?Ed, zlen_nil in Hp. unfold BUFFER_PREFIX_SIZE in Hp. lia.
  - intros bs Hne. unfold BufferReadFromFd. cbn [Buffer.GetWritableSize data_ write_index_].
    change (GetWritableSize (mkBuffer 8 8 [])) with (2 ^ 64 - 8).
    destruct bs as [|x bs]; [done|]. unfold mem_write.
    assert (0 < 2 ^ 64 - 8) as Hpos by lia. set (n := 2 ^ 64 - 8) in *. clearbody n.
    destruct (Z.to_nat n) as [|k] eqn:En; [lia|]. cbn [take].
    pose proof (zlen_nonneg (take k bs)).
    rewrite (proj2 (Z.leb_gt (8 + _) _)); [done|]. rewrite zlen_nil, zlen_cons. lia.
Qed.

(** A codec with an empty tag cannot send: the empty append to the empty list
    stops at an assertion. *)
Lemma send_empty_tag_fails `{Heap} ser cached : Send [] ser cached = None.
Proof. done. Qed.
