(* ===== verification/Codec2.v ===== *)
(** * The varint codec: kanon/protobuf/protobuf_codec2.{h,cc}

    [ProtobufCodec2] frames messages like [GenericPbCodec], with a varint as size
    header and with a message callback that is given the buffer and has to take
    the payload off it.  kvarint, a submodule, is a class of two functions; the
    laws the codec needs of it are a second class, with LEB128 as an instance. *)

From Stdlib Require Import ZArith Lia.
From S2P Require Import Prelude Endian StringView Buffer ChunkList XXHash Codec.

(** ** kvarint *)

Inductive kvarint_ret :=
  KVARINT_OK (len value : Z) | KVARINT_DECODE_BUF_INVALID | KVARINT_DECODE_BUF_SHORT.

Class KVarint := {
  kvarint_encode32 : Z -> list byte;
  kvarint_decode32 : list byte -> kvarint_ret;
}.

(** A varint takes one to five bytes, says itself where it ends and is read back. *)
Class KVarintLaws `{KVarint} := {
  encode_size : forall n, 0 <= n < 2 ^ 32 -> 1 <= zlen (kvarint_encode32 n) <= 5;
  decode_encode : forall n rest, 0 <= n < 2 ^ 32 ->
    kvarint_decode32 (kvarint_encode32 n ++ rest) = KVARINT_OK (zlen (kvarint_encode32 n)) n;
  decode_part : forall n p q, 0 <= n < 2 ^ 32 -> p ++ q = kvarint_encode32 n -> q <> [] ->
    kvarint_decode32 p = KVARINT_DECODE_BUF_SHORT;
  decode_bounds : forall bs len n, kvarint_decode32 bs = KVARINT_OK len n ->
    1 <= len <= zlen bs /\ 0 <= n < 2 ^ 32;
}.

(** ** ProtobufCodec2 *)

Inductive ErrorCode2 :=
  E_NOERROR | E_INVALID_SIZE_HEADER | E_INVALID_CHECKSUM | E_INVALID_MESSAGE | E_NO_COMPLETE_MESSAGE.

Definition CHECKSUM_LENGTH : Z := 4.

Record ProtobufCodec2 := mkProtobufCodec2 { tag_ : list byte; max_size_ : Z }.

Definition ErrorToString (err : ErrorCode2) : list byte :=
  match err with
  | E_NOERROR => str "INFO: OK"
  | E_INVALID_MESSAGE => str "FATAL: Invalid message"
  | E_INVALID_CHECKSUM => str "FATAL: Invalid CheckSum"
  | E_INVALID_SIZE_HEADER => str "FATAL: Invalid size header"
  | E_NO_COMPLETE_MESSAGE => str "INFO: This is not a error"
  end.

(** The checksum loop: every chunk but the last is asserted to be full. *)
Fixpoint hash_full_chunks (state : XXH32_state) (beg : list Chunk) : option XXH32_state :=
  match beg with
  | [] => None
  | [c] => XXH32_update state (chunk_view c)
  | c :: rest =>
    assert! (chunk_writable c =? 0);
    state ← XXH32_update state (chunk_view c);
    hash_full_chunks state rest
  end.

(** As for [GenericPbCodec], [ser] are protobuf's calls on the stream and
    [cached] what [GetCachedSize] returns. *)
Definition codec2_Send `{Heap, KVarint} (codec : ProtobufCodec2) (ser : list stream_call) (cached : Z)
  : option ChunkList :=
  buffer ← ChunkList.Append empty_ChunkList (tag_ codec);
  n ← ChunkList.GetReadableSize buffer;
  assert! (n =? zlen (tag_ codec));
  buffer ← run_calls buffer ser;
  let bytes := u32 cached in
  n ← ChunkList.GetReadableSize buffer;
  assert! (n =? u64 (bytes + zlen (tag_ codec)));
  state ← hash_full_chunks (XXH32_reset 0) (buffers_ buffer);
  check_sum ← XXH32_digest state;
  buffer ← ChunkList.Append32 buffer check_sum;
  n ← ChunkList.GetReadableSize buffer;
  let kvarint_buf := kvarint_encode32 (u32 n) in
  buffer ← ChunkList.Prepend buffer kvarint_buf;
  n ← ChunkList.GetReadableSize buffer;
  assert! (n =? u64 (zlen (tag_ codec) + zlen kvarint_buf + bytes + CHECKSUM_LENGTH));
  Some buffer.

Definition VerifyCheckSum (buffer : Buffer) (size_header : Z) : option bool :=
  let p := from_read_begin buffer 0 in
  bs ← mem_read p 0 (u32 (size_header - CHECKSUM_LENGTH));
  calculated_check_sum ← XXH32 bs 0;
  old ← mem_read p (size_header - CHECKSUM_LENGTH) CHECKSUM_LENGTH;
  Some (calculated_check_sum =? ToHostByteOrder32 (le_value old)).

(** The free function: the buffer is advanced only when the payload parses. *)
Definition codec2_ParseFromBuffer {M} (ParseFromArray : list byte -> option M)
    (payload_size : Z) (buffer : Buffer) : option (option M * Buffer) :=
  assert! (payload_size <=? Buffer.GetReadableSize buffer);
  bs ← mem_read (from_read_begin buffer 0) 0 payload_size;
  match ParseFromArray bs with
  | Some m => buffer ← Buffer.AdvanceRead buffer payload_size; Some (Some m, buffer)
  | None => Some (None, buffer)
  end.

Section message_callback.
(** What the user's callback reports and what it leaves of the buffer. *)
Context {A : Type} (message_callback_ : Buffer -> Z -> option (A * Buffer)).

Inductive event2 := Message2 (a : A) | Error2 (error_code : ErrorCode2).

Fixpoint message_loop `{KVarint} (fuel : nat) (codec : ProtobufCodec2) (buffer : Buffer)
  : option (list event2 * Buffer) :=
  match fuel with
  | O => None
  | S k =>
    bytes ← mem_read (data_ buffer) (read_index_ buffer) (Buffer.GetReadableSize buffer);
    match kvarint_decode32 bytes with
    | KVARINT_DECODE_BUF_INVALID => Some ([Error2 E_INVALID_MESSAGE], buffer)
    | KVARINT_DECODE_BUF_SHORT => Some ([], buffer)
    | KVARINT_OK size_header_len size_header =>
      if (size_header <? u64 (zlen (tag_ codec) + CHECKSUM_LENGTH)) ||
         (u64 (max_size_ codec - size_header_len) <=? size_header)
      then Some ([Error2 E_INVALID_SIZE_HEADER], buffer)
      else
        assert! (size_header_len <? Buffer.GetReadableSize buffer);
        if u64 (Buffer.GetReadableSize buffer - size_header_len) <? size_header
        then Some ([], buffer)
        else
          buffer ← Buffer.AdvanceRead buffer size_header_len;
          ok ← VerifyCheckSum buffer size_header;
          if (ok : bool) then
            same ← tag_matches (from_read_begin buffer 0) (tag_ codec);
            if (same : bool) then
              buffer ← Buffer.AdvanceRead buffer (zlen (tag_ codec));
              '(a, buffer) ← message_callback_ buffer
                  (u64 (u64 (size_header - zlen (tag_ codec)) - CHECKSUM_LENGTH));
              buffer ← Buffer.AdvanceRead32 buffer;
              '(evs, buffer) ← message_loop k codec buffer;
              Some (Message2 a :: evs, buffer)
            else Some ([Error2 E_INVALID_MESSAGE], buffer)
          else Some ([Error2 E_INVALID_CHECKSUM], buffer)
    end
  end.

(** The message callback [SetUpConnection] gives the connection. *)
Definition codec2_OnMessage `{Heap, KVarint} (codec : ProtobufCodec2) (buffer : Buffer)
  : option (list event2 * Buffer) :=
  if max_size_ codec <=? Buffer.GetReadableSize buffer then
    buffer ← Buffer.AdvanceAll buffer;
    buffer ← Buffer.Shrink buffer 0;
    Some ([Error2 E_INVALID_SIZE_HEADER], buffer)
  else message_loop (S (length (Buffer.content buffer))) codec buffer.

End message_callback.

(** A callback that parses the payload, as that of the echo server
    (test/protobuf/echo_proto_server.cc): it does not look at the result. *)
Definition parse_callback {M} (ParseFromArray : list byte -> option M) (buffer : Buffer) (payload_size : Z)
  : option (option M * Buffer) :=
  codec2_ParseFromBuffer ParseFromArray payload_size buffer.

(** ** What is on the wire *)

Definition frame2 `{KVarint} (tag payload : list byte) (check_sum : Z) : list byte :=
  kvarint_encode32 (zlen tag + zlen payload + CHECKSUM_LENGTH) ++ tag ++ payload ++ be_bytes 4 check_sum.

(** ** The sender *)

Section send2.
Context `{Heap} `{KVarintLaws}.
Context (Halloc : can_alloc chunk_node_bytes = true).

(** The assertion of the loop holds in a well-formed list. *)
Lemma hash_full_chunks_spec st cs :
  Forall chunk_wf cs -> Forall full (removelast cs) -> cs <> [] ->
  hash_full_chunks st cs = snd <$> hash_chunks st cs.
Proof.
  intros Hw Hf Hne. rewrite hash_chunks_spec by done. revert st Hw Hf Hne.
  induction cs as [|c [|d cs] IH]; intros st Hw Hf Hne; [done| |].
  { cbn. by destruct (XXH32_update st (chunk_view c)). }
  change (removelast (c :: d :: cs)) with (c :: removelast (d :: cs)) in Hf.
  apply Forall_cons in Hw as [Hc Hw]. apply Forall_cons in Hf as [Hfc Hf].
  change (hash_full_chunks st (c :: d :: cs)) with
    (assert! (chunk_writable c =? 0); st ← XXH32_update st (chunk_view c); hash_full_chunks st (d :: cs)).
  rewrite writable_spec by done. rewrite check_bind_true by (unfold full in Hfc; rewrite Hfc; lia).
  rewrite map_cons. cbn [XXH32_updates]. destruct (XXH32_update st (chunk_view c)) as [st1|]; [|done].
  cbn [mbind option_bind]. rewrite IH by done. by destruct (XXH32_updates st1 _).
Qed.

Lemma codec2_Send_spec codec ser l0 :
  ChunkList.Append empty_ChunkList (tag_ codec) = Some l0 -> tag_ codec <> [] ->
  legal_calls (last_room l0) ser = true ->
  zlen (tag_ codec) + zlen (written ser) + CHECKSUM_LENGTH < 2 ^ 32 ->
  exists l h, codec2_Send codec ser (zlen (written ser)) = Some l /\ cl_wf l /\
    XXH32 (tag_ codec ++ written ser) 0 = Some h /\ content l = frame2 (tag_ codec) (written ser) h.
Proof.
  destruct codec as [tag max]. cbn [tag_]. intros E0 Hne Hl Hb. set (payload := written ser) in *.
  unfold CHECKSUM_LENGTH in Hb. pose proof (zlen_nonneg tag). pose proof (zlen_nonneg payload).
  destruct (chunks_Append_spec Halloc empty_ChunkList tag) as (l0' & E0' & Hwf0 & Hc0 & _ & Hro0);
    [repeat constructor|by right|].
  rewrite E0 in E0'. injection E0' as <-. change (content empty_ChunkList ++ tag) with tag in Hc0.
  assert (roomy l0) as Hr0 by (apply Hro0; intros ? ? [=]).
  assert (buffers_ l0 <> []) as Hn0 by (intros E; unfold content in Hc0; rewrite E in Hc0; done).
  destruct (run_calls_spec Halloc l0 ser) as (l1 & E1 & Hwf1 & Hr1 & Hn1 & Hc1); try done.
  rewrite Hc0 in Hc1. fold payload in Hc1.
  destruct (hash_content l1) as (st & h & E2 & Ed & Eh); try done. rewrite Hc1 in Eh.
  unfold codec2_Send. cbn [tag_]. rewrite E0. cbn [mbind option_bind].
  rewrite GetReadableSize_spec, Hc0 by (rewrite ?Hc0; (done || lia)). cbn [mbind option_bind].
  rewrite check_bind_true by lia. rewrite E1. cbn [mbind option_bind].
  rewrite GetReadableSize_spec, Hc1 by (rewrite ?Hc1, ?zlen_app; (done || lia)). cbn [mbind option_bind].
  rewrite (u32_id (zlen payload)), (u64_id (zlen payload + zlen tag)) by lia.
  rewrite check_bind_true by (rewrite zlen_app; lia).
  rewrite hash_full_chunks_spec, E2 by (done || apply Hwf1). cbn [mbind option_bind fmap option_fmap option_map snd].
  rewrite Ed. cbn [mbind option_bind]. unfold ChunkList.Append32, ToNetworkByteOrder32. rewrite le_bytes_bswap.
  destruct (chunks_Append_spec Halloc l1 (be_bytes 4 h)) as (l2 & E3 & Hwf2 & Hc2 & _ & Hr2); [done|by left|].
  rewrite E3. cbn [mbind option_bind]. rewrite Hc1 in Hc2.
  assert (zlen (content l2) = zlen tag + zlen payload + 4) as Hl2.
  { rewrite Hc2, !zlen_app, zlen_be_bytes. lia. }
  rewrite GetReadableSize_spec, Hl2 by (done || lia). cbn [mbind option_bind]. rewrite u32_id by lia.
  set (n := zlen tag + zlen payload + 4) in *. pose proof (encode_size n ltac:(lia)) as Hn.
  destruct (chunks_Prepend_spec Halloc l2 (kvarint_encode32 n)) as (l3 & E4 & Hwf3 & Hc3 & _);
    [done|unfold sizeof_size_t; lia|by apply Hr2|].
  rewrite E4. cbn [mbind option_bind]. rewrite GetReadableSize_spec by
    (done || (rewrite Hc3, zlen_app, Hl2; lia)). cbn [mbind option_bind].
  rewrite check_bind_true by (rewrite u64_id by (unfold CHECKSUM_LENGTH; lia); rewrite Hc3, zlen_app, Hl2;
    unfold CHECKSUM_LENGTH; lia).
  exists l3, h. split_and!; try done. rewrite Hc3, Hc2. unfold frame2, CHECKSUM_LENGTH. by rewrite <- !app_assoc.
Qed.

End send2.

(** ** The receiver *)

Lemma read_content b :
  buf_wf b -> mem_read (data_ b) (read_index_ b) (Buffer.GetReadableSize b) = Some (Buffer.content b).
Proof.
  intros Hb. pose proof (readable_size b Hb) as Hr. buf_wf Hb. rewrite mem_read_ok by lia.
  unfold Buffer.content. by rewrite Hr.
Qed.

(** Advancing over a known prefix. *)
Lemma advance_prefix b p rest :
  buf_wf b -> Buffer.content b = p ++ rest ->
  exists b', Buffer.AdvanceRead b (zlen p) = Some b' /\ buf_wf b' /\ data_ b' = data_ b /\
    (BUFFER_PREFIX_SIZE <= read_index_ b -> BUFFER_PREFIX_SIZE <= read_index_ b') /\
    Buffer.content b' = rest.
Proof.
  intros Hb Hc. pose proof (Buffer.content_size b Hb) as Hs. rewrite Hc, zlen_app in Hs.
  pose proof (zlen_nonneg p). pose proof (zlen_nonneg rest).
  destruct (Buffer.AdvanceRead_spec b (zlen p)) as (b' & E & Hb' & Hc' & Hp'); [done|lia|].
  exists b'. split_and!; try done; [by eapply AdvanceRead_data|].
  rewrite Hc', Hc. apply drop_app_length'. unfold zlen. lia.
Qed.

Lemma front_content b : buf_wf b -> exists junk, from_read_begin b 0 = Buffer.content b ++ junk.
Proof.
  intros Hb. destruct (from_read_begin_content b 0) as (junk & E); [done| |by exists junk].
  rewrite <- Buffer.content_size by done. pose proof (zlen_nonneg (Buffer.content b)). lia.
Qed.

Lemma mem_read_front (p rest : list byte) : mem_read (p ++ rest) 0 (zlen p) = Some p.
Proof.
  pose proof (zlen_nonneg p). rewrite mem_read_app by lia. f_equal. by apply slice_full.
Qed.

Section receiver2.
Context `{KVarintLaws} {A : Type} (message_callback_ : Buffer -> Z -> option (A * Buffer)).
Context (codec : ProtobufCodec2).

Abbreviation tag := (tag_ codec).
Abbreviation max_size := (max_size_ codec).

(** What the codec relies on: given the payload at the front of the buffer, the
    callback reports [a] and takes exactly the payload off. *)
Definition takes_payload (payload : list byte) (a : A) : Prop :=
  forall b rest, buf_wf b -> Buffer.content b = payload ++ rest ->
    exists b', message_callback_ b (zlen payload) = Some (a, b') /\
      Buffer.AdvanceRead b (zlen payload) = Some b'.

(** A well-formed frame for which the callback reports [a]. *)
Definition carries2 (f : list byte) (a : A) : Prop :=
  exists payload h, f = frame2 tag payload h /\ XXH32 (tag ++ payload) 0 = Some h /\
    takes_payload payload a /\ zlen f < max_size /\
    zlen tag + zlen payload + CHECKSUM_LENGTH < 2 ^ 32.

(** The front of a frame where the codec waits: not the size header alone. *)
Definition waits2 (p : list byte) : Prop :=
  forall k b, buf_wf b -> Buffer.content b = p -> zlen p < max_size < 2 ^ 64 ->
    message_loop message_callback_ (S k) codec b = Some ([], b).

Lemma VerifyCheckSum_spec b body h rest :
  buf_wf b -> Buffer.content b = body ++ be_bytes 4 h ++ rest -> 0 <= h < 2 ^ 32 ->
  zlen body + CHECKSUM_LENGTH < 2 ^ 32 ->
  VerifyCheckSum b (zlen body + CHECKSUM_LENGTH) = Some (bool_decide (XXH32 body 0 = Some h)).
Proof.
  unfold CHECKSUM_LENGTH. intros Hb Hc Hh Hl. pose proof (zlen_nonneg body).
  unfold VerifyCheckSum, CHECKSUM_LENGTH. cbv zeta. destruct (front_content b Hb) as (junk & ->).
  rewrite Hc, u32_id by lia. replace (zlen body + 4 - 4) with (zlen body) by lia.
  rewrite <- (app_assoc body), mem_read_front. cbn [mbind option_bind].
  destruct (XXH32_total body 0) as (h' & ->). cbn [mbind option_bind]. pose proof (zlen_nonneg rest).
  rewrite app_assoc, mem_read_app by (rewrite ?zlen_app, ?zlen_be_bytes; lia).
  unfold slice. rewrite drop_app_length' by (unfold zlen; lia). rewrite take_app_length' by (by rewrite length_be_bytes).
  cbn [mbind option_bind]. unfold ToHostByteOrder32. rewrite bswap_le_value by (by rewrite length_be_bytes).
  rewrite be_value_bytes. change (256 ^ Z.of_nat 4) with (2 ^ 32). rewrite Z.mod_small by lia. f_equal.
  destruct (Z.eqb_spec h' h) as [->|N]; [by rewrite bool_decide_eq_true_2|].
  rewrite bool_decide_eq_false_2; [done|congruence].
Qed.

(** Header, checksum and tag of a complete frame pass. *)
Lemma message_loop_frame k b f a rest :
  buf_wf b -> Buffer.content b = f ++ rest -> carries2 f a -> max_size < 2 ^ 64 ->
  exists b1, message_loop message_callback_ (S k) codec b =
      ('(evs, b2) ← message_loop message_callback_ k codec b1; Some (Message2 a :: evs, b2)) /\
    buf_wf b1 /\ data_ b1 = data_ b /\
    (BUFFER_PREFIX_SIZE <= read_index_ b -> BUFFER_PREFIX_SIZE <= read_index_ b1) /\
    Buffer.content b1 = rest.
Proof.
  intros Hb Hc (payload & h & -> & Eh & Hcb & Hmax & H32) Hm64. unfold CHECKSUM_LENGTH in *.
  pose proof (XXH32_range _ _ _ Eh) as Hh. pose proof (zlen_nonneg tag). pose proof (zlen_nonneg payload).
  pose proof (zlen_nonneg rest). pose proof (Buffer.content_size b Hb) as Hs.
  unfold frame2, CHECKSUM_LENGTH in *. set (n := zlen tag + zlen payload + 4) in *.
  pose proof (encode_size n ltac:(lia)) as Hn. rewrite !zlen_app, zlen_be_bytes in Hmax.
  rewrite <- !app_assoc in Hc. cbn [message_loop]. rewrite read_content by done. cbn [mbind option_bind].
  rewrite Hc, decode_encode by lia. set (len := zlen (kvarint_encode32 n)) in *. unfold CHECKSUM_LENGTH.
  rewrite Hc, !zlen_app, zlen_be_bytes in Hs. fold len in Hs.
  rewrite u64_id, (u64_id (max_size - len)) by lia.
  rewrite (proj2 (Z.ltb_ge _ _)), (proj2 (Z.leb_gt _ _)) by lia. cbn [orb].
  rewrite check_bind_true by lia. pose proof (readable_size b Hb). pose proof Hb as Hb'. buf_wf Hb'.
  rewrite u64_id by lia. rewrite (proj2 (Z.ltb_ge _ _)) by lia.
  destruct (advance_prefix b _ _ Hb Hc) as (b1 & E1 & Hb1 & Hd1 & Hp1 & Hc1). fold len in E1.
  rewrite E1. cbn [mbind option_bind].
  assert (n = zlen (tag ++ payload) + CHECKSUM_LENGTH) as En by (rewrite zlen_app; unfold CHECKSUM_LENGTH; lia).
  replace (VerifyCheckSum b1 n) with (VerifyCheckSum b1 (zlen (tag ++ payload) + CHECKSUM_LENGTH)) by (by rewrite <- En).
  rewrite (VerifyCheckSum_spec b1 (tag ++ payload) h rest); [|done|by rewrite <- app_assoc|done|lia].
  cbn [mbind option_bind]. rewrite bool_decide_eq_true_2 by done.
  destruct (front_content b1 Hb1) as (junk & ->). rewrite Hc1. unfold tag_matches.
  rewrite <- (app_assoc tag), mem_read_front. cbn [mbind option_bind]. rewrite bool_decide_eq_true_2 by done.
  destruct (advance_prefix b1 _ _ Hb1 Hc1) as (b2 & E2 & Hb2 & Hd2 & Hp2 & Hc2).
  rewrite E2. cbn [mbind option_bind].
  rewrite (u64_id (n - zlen tag)) by lia. replace (n - zlen tag - 4) with (zlen payload) by lia.
  rewrite u64_id by lia. destruct (Hcb b2 _ Hb2 Hc2) as (b3 & -> & E3). cbn [mbind option_bind].
  destruct (advance_prefix b2 _ _ Hb2 Hc2) as (b3' & E3' & Hb3 & Hd3 & Hp3 & Hc3).
  rewrite E3 in E3'. injection E3' as <-.
  destruct (advance_prefix b3 _ _ Hb3 Hc3) as (b4 & E4 & Hb4 & Hd4 & Hp4 & Hc4).
  rewrite zlen_be_bytes in E4. change (Z.of_nat 4) with 4 in E4. unfold Buffer.AdvanceRead32. rewrite E4.
  cbn [mbind option_bind]. exists b4. split_and!; auto. congruence.
Qed.

Lemma message_loop_frames fuel b fs es part :
  buf_wf b -> (length (Buffer.content b) < fuel)%nat -> zlen (Buffer.content b) < max_size < 2 ^ 64 ->
  Buffer.content b = concat fs ++ part -> Forall2 (fun f e => exists a, carries2 f a /\ e = Message2 a) fs es ->
  waits2 part ->
  exists b', message_loop message_callback_ fuel codec b = Some (es, b') /\ buf_wf b' /\
    data_ b' = data_ b /\ (BUFFER_PREFIX_SIZE <= read_index_ b -> BUFFER_PREFIX_SIZE <= read_index_ b') /\
    Buffer.content b' = part.
Proof.
  intros Hb Hf Hm Hc Hfs Hw. revert fuel b Hb Hf Hm Hc.
  induction Hfs as [|f e fs es (a & Hfa & ->) _ IH]; intros [|k] b Hb Hf Hm Hc; try lia.
  { exists b. split_and!; try done. apply Hw; [done|done|]. rewrite Hc in Hm; cbn in Hm; done. }
  cbn [concat] in Hc. rewrite <- app_assoc in Hc.
  destruct (message_loop_frame k b f a _ Hb Hc Hfa) as (b1 & -> & Hb1 & Hd1 & Hp1 & Hc1); [lia|].
  assert (1 <= zlen f) as Hne.
  { destruct Hfa as (payload & h & -> & _ & _ & _ & H32). unfold frame2. rewrite zlen_app.
    pose proof (zlen_nonneg (tag ++ payload ++ be_bytes 4 h)).
    pose proof (encode_size (zlen tag + zlen payload + CHECKSUM_LENGTH)) as Hn.
    pose proof (zlen_nonneg tag). pose proof (zlen_nonneg payload). unfold CHECKSUM_LENGTH in *. lia. }
  rewrite Hc, zlen_app in Hm. rewrite Hc, length_app in Hf.
  destruct (IH k b1 Hb1) as (b2 & -> & Hb2 & Hd2 & Hp2 & Hc2); [rewrite Hc1; unfold zlen in *; lia|rewrite Hc1; lia|done|].
  cbn [mbind option_bind]. exists b2. split_and!; auto. congruence.
Qed.

Definition size_header_of (f : list byte) : list byte :=
  match kvarint_decode32 f with KVARINT_OK len _ => take (Z.to_nat len) f | _ => [] end.

Lemma size_header_frame payload h :
  zlen tag + zlen payload + CHECKSUM_LENGTH < 2 ^ 32 ->
  size_header_of (frame2 tag payload h) = kvarint_encode32 (zlen tag + zlen payload + CHECKSUM_LENGTH).
Proof.
  pose proof (zlen_nonneg tag). pose proof (zlen_nonneg payload). unfold CHECKSUM_LENGTH. intros Hl.
  unfold size_header_of, frame2, CHECKSUM_LENGTH. rewrite decode_encode by lia.
  apply take_app_length'. unfold zlen. lia.
Qed.

Lemma app_eq_split (p q x y : list byte) :
  p ++ q = x ++ y -> (exists q', p ++ q' = x /\ q' <> []) \/ exists p', p = x ++ p'.
Proof.
  intros E. destruct (decide (length x <= length p)%nat) as [L|L].
  - right. exists (drop (length x) p). apply (f_equal (take (length x))) in E.
    rewrite take_app_length, take_app_le in E by lia. rewrite <- E at 1. by rewrite take_drop.
  - left. exists (drop (length p) x). split.
    + apply (f_equal (take (length p))) in E. rewrite take_app_length, take_app_le in E by lia.
      rewrite E at 1. apply take_drop.
    + intros E'. apply (f_equal length) in E'. rewrite length_drop in E'. cbn in E'. lia.
Qed.

(** A part of a frame is waited for, unless it is just the size header. *)
Lemma part_waits f a p ext :
  carries2 f a -> p ++ ext = f -> ext <> [] -> p <> size_header_of f -> waits2 p.
Proof.
  intros (payload & h & -> & Eh & _ & Hmax & H32) E Hx. rewrite size_header_frame by done. intros Hh k b Hb Hc Hm.
  pose proof (zlen_nonneg tag). pose proof (zlen_nonneg payload). unfold CHECKSUM_LENGTH in *.
  set (n := zlen tag + zlen payload + 4) in *. pose proof (encode_size n ltac:(lia)) as Hn.
  pose proof (Buffer.content_size b Hb) as Hs. cbn [message_loop]. rewrite read_content by done.
  cbn [mbind option_bind]. rewrite Hc in Hs |- *. unfold frame2, CHECKSUM_LENGTH in E, Hmax. fold n in E, Hmax.
  destruct (app_eq_split _ _ _ _ E) as [(q' & Eq & Hq)|(p' & ->)].
  { by rewrite (decode_part n _ _ ltac:(lia) Eq Hq). }
  rewrite decode_encode by lia. set (len := zlen (kvarint_encode32 n)) in *.
  assert (0 < zlen p') as Hp'.
  { destruct p'; [by rewrite app_nil_r in Hh|]. rewrite zlen_cons. pose proof (zlen_nonneg p'). lia. }
  assert (0 < zlen ext) as Hx' by (destruct ext; [done|rewrite zlen_cons; pose proof (zlen_nonneg ext); lia]).
  apply (f_equal zlen) in E. rewrite !zlen_app, zlen_be_bytes in E. rewrite !zlen_app, zlen_be_bytes in Hmax.
  rewrite zlen_app in Hs. fold len in E, Hs, Hmax. unfold CHECKSUM_LENGTH.
  rewrite u64_id, (u64_id (max_size - len)) by lia.
  rewrite (proj2 (Z.ltb_ge _ _)), (proj2 (Z.leb_gt _ _)) by lia. cbn [orb].
  rewrite check_bind_true by lia. rewrite u64_id by lia. by rewrite (proj2 (Z.ltb_lt _ _)) by lia.
Qed.

(** And the size header alone stops the process at an assertion. *)
Lemma header_alone_aborts f a b k :
  carries2 f a -> buf_wf b -> Buffer.content b = size_header_of f -> max_size < 2 ^ 64 ->
  message_loop message_callback_ (S k) codec b = None.
Proof.
  intros (payload & h & -> & Eh & _ & Hmax & H32) Hb. rewrite size_header_frame by done. intros Hc Hm.
  pose proof (zlen_nonneg tag). pose proof (zlen_nonneg payload). unfold CHECKSUM_LENGTH in *.
  set (n := zlen tag + zlen payload + 4) in *. pose proof (encode_size n ltac:(lia)) as Hn.
  pose proof (Buffer.content_size b Hb) as Hs. cbn [message_loop]. rewrite read_content by done.
  cbn [mbind option_bind]. rewrite Hc in Hs |- *. unfold frame2, CHECKSUM_LENGTH in Hmax. fold n in Hmax.
  rewrite <- (app_nil_r (kvarint_encode32 n)). rewrite decode_encode by lia.
  rewrite !zlen_app, zlen_be_bytes in Hmax. unfold CHECKSUM_LENGTH. rewrite <- Hs.
  set (len := zlen (kvarint_encode32 n)) in *. rewrite u64_id, (u64_id (max_size - len)) by lia.
  rewrite (proj2 (Z.ltb_ge n _)), (proj2 (Z.leb_gt _ _)) by lia. cbn [orb].
  by rewrite Z.ltb_irrefl.
Qed.

Lemma codec2_OnMessage_frames `{Heap} b fs es part :
  buf_wf b -> zlen (Buffer.content b) < max_size < 2 ^ 64 -> Buffer.content b = concat fs ++ part ->
  Forall2 (fun f e => exists a, carries2 f a /\ e = Message2 a) fs es -> waits2 part ->
  exists b', codec2_OnMessage message_callback_ codec b = Some (es, b') /\ buf_wf b' /\ data_ b' = data_ b /\
    (BUFFER_PREFIX_SIZE <= read_index_ b -> BUFFER_PREFIX_SIZE <= read_index_ b') /\ Buffer.content b' = part.
Proof.
  intros Hb Hl Hc Hm Hw. unfold codec2_OnMessage. rewrite <- Buffer.content_size by done.
  rewrite (proj2 (Z.leb_gt _ _)) by lia. by apply (message_loop_frames _ b fs); [|lia|..].
Qed.

End receiver2.

(** A callback that parses takes the payload off when it parses. *)
Lemma parse_takes {M} (parse : list byte -> option M) payload m :
  parse payload = Some m -> takes_payload (parse_callback parse) payload (Some m).
Proof.
  intros E b rest Hb Hc. pose proof (Buffer.content_size b Hb) as Hs. rewrite Hc, zlen_app in Hs.
  pose proof (zlen_nonneg rest). unfold parse_callback, codec2_ParseFromBuffer. rewrite check_bind_true by lia.
  destruct (front_content b Hb) as (junk & ->). rewrite Hc, <- app_assoc, mem_read_front. cbn [mbind option_bind].
  rewrite E. destruct (advance_prefix b payload rest Hb Hc) as (b' & E' & _). rewrite E'. by exists b'.
Qed.

Lemma waits_nil `{KVarintLaws} {A} (cb : Buffer -> Z -> option (A * Buffer)) codec : waits2 cb codec [].
Proof.
  intros k b Hb Hc _. cbn [message_loop]. rewrite read_content, Hc by done. cbn [mbind option_bind].
  pose proof (encode_size 0 ltac:(lia)) as Hn. rewrite (decode_part 0 [] (kvarint_encode32 0)); [done|lia|done|].
  intros E. rewrite E, zlen_nil in Hn. lia.
Qed.

(** ** LEB128 *)

Fixpoint leb128_encode (fuel : nat) (n : Z) : list byte :=
  match fuel with
  | O => []
  | S k => if n <? 128 then [Z_to_byte n] else Z_to_byte (128 + n mod 128) :: leb128_encode k (n / 128)
  end.

Fixpoint leb128_decode (fuel : nat) (bs : list byte) : kvarint_ret :=
  match fuel, bs with
  | O, _ => KVARINT_DECODE_BUF_INVALID
  | _, [] => KVARINT_DECODE_BUF_SHORT
  | S k, b :: bs =>
    let v := byte_to_Z b in
    if v <? 128 then KVARINT_OK 1 v
    else match leb128_decode k bs with
         | KVARINT_OK len r => KVARINT_OK (1 + len) (v - 128 + 128 * r)
         | e => e
         end
  end.

Lemma leb128_size k n : 0 <= n < 128 ^ Z.of_nat (S k) -> 1 <= zlen (leb128_encode (S k) n) <= Z.of_nat (S k).
Proof.
  revert n. induction k as [|k IH]; intros n Hn; cbn [leb128_encode].
  { change (128 ^ Z.of_nat 1) with 128 in Hn. rewrite (proj2 (Z.ltb_lt _ _)) by lia. done. }
  case_bool; [rewrite zlen_cons, zlen_nil; lia|]. rewrite zlen_cons.
  specialize (IH (n / 128)). cbn [leb128_encode] in IH. rewrite (Nat2Z.inj_succ (S k)), Z.pow_succ_r in Hn by lia.
  assert (0 <= n / 128 < 128 ^ Z.of_nat (S k)) as Hd.
  { split; [apply Z.div_pos; lia|apply Z.div_lt_upper_bound; lia]. }
  specialize (IH Hd). lia.
Qed.

Lemma leb128_roundtrip k n rest :
  0 <= n < 128 ^ Z.of_nat (S k) ->
  leb128_decode (S k) (leb128_encode (S k) n ++ rest) = KVARINT_OK (zlen (leb128_encode (S k) n)) n.
Proof.
  revert n. induction k as [|k IH]; intros n Hn.
  { change (128 ^ Z.of_nat 1) with 128 in Hn. cbn [leb128_encode]. rewrite (proj2 (Z.ltb_lt _ _)) by lia.
    cbn [app leb128_decode]. rewrite byte_to_Z_to_byte, Z.mod_small by lia.
    by rewrite (proj2 (Z.ltb_lt _ _)) by lia. }
  rewrite (Nat2Z.inj_succ (S k)), Z.pow_succ_r in Hn by lia.
  pose proof (Z.mod_pos_bound n 128 ltac:(lia)).
  change (leb128_encode (S (S k)) n) with
    (if n <? 128 then [Z_to_byte n] else Z_to_byte (128 + n mod 128) :: leb128_encode (S k) (n / 128)).
  case_bool; cbn [app]; remember (S k) as k'; cbn [leb128_decode]; rewrite byte_to_Z_to_byte, Z.mod_small by lia.
  { by rewrite (proj2 (Z.ltb_lt _ _)) by lia. }
  rewrite (proj2 (Z.ltb_ge _ _)) by lia. rewrite IH by
    (split; [apply Z.div_pos; lia|apply Z.div_lt_upper_bound; lia]).
  rewrite zlen_cons. f_equal; [lia|]. pose proof (Z.div_mod n 128). lia.
Qed.

Lemma leb128_part k n p q :
  0 <= n < 128 ^ Z.of_nat (S k) -> p ++ q = leb128_encode (S k) n -> q <> [] ->
  leb128_decode (S k) p = KVARINT_DECODE_BUF_SHORT.
Proof.
  revert n p. induction k as [|k IH]; intros n [|x p] Hn E Hq; try done.
  { change (128 ^ Z.of_nat 1) with 128 in Hn. cbn [leb128_encode] in E. rewrite (proj2 (Z.ltb_lt _ _)) in E by lia.
    injection E as _ E. apply app_nil in E as [_ ->]. done. }
  rewrite (Nat2Z.inj_succ (S k)), Z.pow_succ_r in Hn by lia.
  pose proof (Z.mod_pos_bound n 128 ltac:(lia)).
  change (leb128_encode (S (S k)) n) with
    (if n <? 128 then [Z_to_byte n] else Z_to_byte (128 + n mod 128) :: leb128_encode (S k) (n / 128)) in E.
  revert E. case_bool; intros E.
  { injection E as _ E. apply app_nil in E as [_ ->]. done. }
  injection E as -> E. remember (S k) as k'. cbn [leb128_decode]. rewrite byte_to_Z_to_byte, Z.mod_small by lia.
  rewrite (proj2 (Z.ltb_ge _ _)) by lia. rewrite (IH (n / 128) p); [done| |by subst k'|exact Hq].
  split; [apply Z.div_pos; lia|apply Z.div_lt_upper_bound; lia].
Qed.

Lemma leb128_bounds k bs len n :
  leb128_decode k bs = KVARINT_OK len n -> 1 <= len <= zlen bs /\ 0 <= n.
Proof.
  revert bs len n. induction k as [|k IH]; intros [|x bs] len n; try done. cbn [leb128_decode].
  pose proof (byte_to_Z_range x). pose proof (zlen_nonneg bs). rewrite zlen_cons.
  case_bool; [intros [= <- <-]; lia|]. destruct (leb128_decode k bs) as [l r| |] eqn:E; try done.
  intros [= <- <-]. destruct (IH _ _ _ E). lia.
Qed.

(** Five groups of seven bits, of which a value uses 32. *)
Definition leb128 : KVarint := {|
  kvarint_encode32 := leb128_encode 5;
  kvarint_decode32 bs :=
    match leb128_decode 5 bs with
    | KVARINT_OK len n => if n <? 2 ^ 32 then KVARINT_OK len n else KVARINT_DECODE_BUF_INVALID
    | e => e
    end;
|}.

Lemma leb128_laws : @KVarintLaws leb128.
Proof.
  split; cbn [kvarint_encode32 kvarint_decode32 leb128].
  - intros n Hn. apply (leb128_size 4). change (128 ^ Z.of_nat 5) with (2 ^ 35). lia.
  - intros n rest Hn. rewrite (leb128_roundtrip 4) by (change (128 ^ Z.of_nat 5) with (2 ^ 35); lia).
    by rewrite (proj2 (Z.ltb_lt _ _)) by lia.
  - intros n p q Hn E Hq. rewrite (leb128_part 4 n p q); [done| |done|done].
    change (128 ^ Z.of_nat 5) with (2 ^ 35). lia.
  - intros bs len n. destruct (leb128_decode 5 bs) as [l r| |] eqn:E; try done. case_bool; [|done].
    intros [= <- <-]. destruct (leb128_bounds _ _ _ _ E). lia.
Qed.

(** ** Properties *)

(** The messages sent: how each is serialized, what it is, what was sent.  A frame is
    shorter than the limit of the codec, or the peer refuses it. *)
Definition sends2 {M} (parse : list byte -> option M) `{Heap, KVarint} (codec : ProtobufCodec2)
    (x : list stream_call * M * ChunkList) : Prop :=
  let '(ser, m, l) := x in
  parse (written ser) = Some m /\
  zlen (content l) < max_size_ codec /\ zlen (tag_ codec) + zlen (written ser) + CHECKSUM_LENGTH < 2 ^ 32 /\
  exists l0, ChunkList.Append empty_ChunkList (tag_ codec) = Some l0 /\
    legal_calls (last_room l0) ser = true /\ codec2_Send codec ser (zlen (written ser)) = Some l.

Lemma sends2_carries {M} (parse : list byte -> option M) `{Heap, KVarintLaws} codec ser m l :
  can_alloc chunk_node_bytes = true -> tag_ codec <> [] -> sends2 parse codec (ser, m, l) ->
  carries2 (parse_callback parse) codec (content l) (Some m) /\ content l <> [].
Proof.
  intros Hal Hne (Hp & Hs & H32 & l0 & E0 & Hl & E).
  destruct (codec2_Send_spec Hal codec ser l0) as (l' & h & E' & Hwf & Eh & Hc); try done.
  rewrite E in E'. injection E' as <-. rewrite Hc in Hs |- *. split.
  - exists (written ser), h. split_and!; try done. by apply parse_takes.
  - intros E1. apply (f_equal length) in E1. unfold frame2 in E1. rewrite !length_app, length_be_bytes in E1.
    cbn in E1. lia.
Qed.

(** C25 Messages sent with [Send], each shorter than [max_size_], and cut by the
    network into segments of at most 64 KiB arrive, one message callback each, in
    order, with no error callback and nothing kept, for every segmentation in which
    no segment ends right behind the size header of a frame, where an assertion fails
    ([header_alone_aborts]), and in which no segment brings what is readable to
    [max_size_], where everything readable is discarded, whole messages included
    ([full_buffer_discarded]). *)
Theorem codec2_roundtrip {M} (parse : list byte -> option M) `{Heap} `{KV : KVarint} {KL : KVarintLaws} (codec : ProtobufCodec2)
    (xs : list (list stream_call * M * ChunkList)) (segs : list (list byte)) (b : Buffer) :
  let frames := map (fun x => content (snd x)) xs in
  can_alloc chunk_node_bytes = true -> tag_ codec <> [] -> max_size_ codec < 2 ^ 64 ->
  Forall (sends2 parse codec) xs ->
  buf_wf b -> BUFFER_PREFIX_SIZE <= read_index_ b -> Buffer.content b = [] ->
  concat segs = concat frames -> Forall (fun s => zlen s <= extra_buf_size) segs ->
  (forall n, n <= zlen (data_ b) + zlen (concat segs) -> can_alloc n = true) ->
  (forall k i f, frames !! i = Some f ->
    concat (take k segs) <> concat (take i frames) ++ size_header_of f) ->
  room_ok (max_size_ codec) frames [] segs ->
  exists b', receive (codec2_OnMessage (parse_callback parse) codec) segs b =
      Some (map (fun x => Message2 (Some (snd (fst x)))) xs, b') /\ Buffer.content b' = [].
Proof.
  cbv zeta. intros Hal Hne Hmax Hxs Hb Hp Hc Hs Hsz Ha Hcut Hroom.
  set (framed f e := exists a, carries2 (parse_callback parse) codec f a /\ e = Message2 a).
  assert (Forall2 framed (map (fun x => content (snd x)) xs) (map (fun x => Message2 (Some (snd (fst x)))) xs)) as Hm.
  { clear -Hxs Hal Hne KL. induction Hxs as [|[[ser m] l] xs Hx _ IH]; constructor; [|done].
    exists (Some m). split; [by eapply sends2_carries|done]. }
  edestruct (receive_room (codec2_OnMessage (parse_callback parse) codec) framed
    (waits2 (parse_callback parse) codec) (max_size_ codec)) as (b' & E & _ & Hc');
    [| |exact Hb|done| | |exact Hm|by rewrite Hc|exact Hsz|exact Ha| |by exists b'].
  - intros f e (a & (payload & h & -> & _) & _) E. apply (f_equal length) in E. unfold frame2 in E.
    rewrite !length_app, length_be_bytes in E. cbn in E. lia.
  - intros b1 fs es part Hb1 Hl. intros. eapply codec2_OnMessage_frames; [done|lia|done..].
  - by rewrite Hc.
  - rewrite Hc. destruct xs as [|[[ser m] l] xs]; [done|]. cbn [map within snd].
    inversion Hxs as [|? ? Hx _]; subst. exists (content l). split; [done|]. by eapply sends2_carries.
  - intros k fs1 fs2 p E1 E2 Hw. destruct fs2 as [|f fs2]; [rewrite Hw; apply waits_nil|].
    destruct Hw as (ext & Ee & Hx). rewrite Hc in E2. cbn [app] in E2.
    specialize (Hcut k (length fs1) f). rewrite E1 in Hm, Hcut.
    apply Forall2_app_inv_l in Hm as (? & ? & _ & Hm & _).
    inversion Hm as [|? ? ? ? (a & Hf & _) _]; subst. eapply part_waits; [done|done|done|].
    intros Ep. apply Hcut; [by apply list_lookup_middle|]. rewrite E2, take_app_length. by f_equal.
Qed.

Definition cuts_okb `{KVarint} (segs frames : list (list byte)) : bool :=
  forallb (fun k => forallb (fun i =>
    match frames !! i with
    | Some f => negb (bool_decide (concat (take k segs) = concat (take i frames) ++ size_header_of f))
    | None => true
    end) (seq 0 (length frames))) (seq 0 (S (length segs))).

Lemma cuts_okb_sound `{KVarint} segs frames :
  cuts_okb segs frames = true ->
  forall k i f, frames !! i = Some f -> concat (take k segs) <> concat (take i frames) ++ size_header_of f.
Proof.
  intros Hok k i f Hi E. unfold cuts_okb in Hok. rewrite forallb_forall in Hok.
  specialize (Hok (min k (length segs))). rewrite forallb_forall in Hok.
  assert (take (min k (length segs)) segs = take k segs) as Ek.
  { destruct (decide (k <= length segs)%nat); [by rewrite Nat.min_l|].
    rewrite Nat.min_r by lia. rewrite !take_ge by lia. done. }
  rewrite Ek in Hok. pose proof (lookup_lt_Some _ _ _ Hi) as Hl.
  assert (negb (bool_decide (concat (take k segs) = concat (take i frames) ++ size_header_of f)) = true) as Hn.
  { specialize (Hok ltac:(apply in_seq; lia) i ltac:(apply in_seq; lia)). by rewrite Hi in Hok. }
  rewrite bool_decide_eq_true_2 in Hn; done.
Qed.

Definition room_okb (max : Z) (segs frames : list (list byte)) : bool :=
  forallb (fun k => forallb (fun i =>
    let n := zlen (concat (take k segs)) - zlen (concat (take i frames)) in
    match segs !! k with
    | Some s => (n <? 0) || (default 1 (zlen <$> frames !! i) <=? n) || (n + zlen s <? max)
    | None => true
    end) (seq 0 (S (length frames)))) (seq 0 (length segs)).

Lemma room_okb_sound max segs frames : room_okb max segs frames = true -> room_ok max frames [] segs.
Proof.
  intros Hok k s fs1 fs2 p Hk -> E Hw. unfold room_okb in Hok. rewrite forallb_forall in Hok.
  pose proof (lookup_lt_Some _ _ _ Hk). specialize (Hok k ltac:(apply in_seq; lia)). rewrite forallb_forall in Hok.
  specialize (Hok (length fs1) ltac:(apply in_seq; rewrite length_app; lia)).
  cbn [app] in E. rewrite Hk, E, take_app_length, zlen_app in Hok.
  replace (zlen (concat fs1) + zlen p - zlen (concat fs1)) with (zlen p) in Hok by lia. pose proof (zlen_nonneg p).
  rewrite (proj2 (Z.ltb_ge _ _)) in Hok by lia. cbn [orb] in Hok.
  apply orb_true_iff in Hok as [Hok%Z.leb_le|?%Z.ltb_lt]; [|done].
  rewrite lookup_app_r, Nat.sub_diag in Hok by done. destruct fs2 as [|f fs2]; cbn in Hok, Hw.
  - by subst p.
  - destruct Hw as (ext & <- & Hne). rewrite zlen_app in Hok. destruct ext as [|c ext]; [done|].
    rewrite zlen_cons in Hok. pose proof (zlen_nonneg ext). lia.
Qed.

(** A codec with a small limit: two messages of one segment reach it. *)
Definition echo_codec : ProtobufCodec2 := mkProtobufCodec2 (str "Echo") 24.

Definition echo_sent (payload : list byte) : list stream_call * list byte * ChunkList :=
  let ser := [CallNext payload (4084 - zlen payload)] in
  (ser, payload, default empty_ChunkList (@codec2_Send zero_heap leb128 echo_codec ser (zlen payload))).

Lemma echo_sends payload :
  bool_decide (0 <= 4084 - zlen payload) = true ->
  (exists l, @codec2_Send zero_heap leb128 echo_codec [CallNext payload (4084 - zlen payload)] (zlen payload) = Some l /\
    zlen (content l) < max_size_ echo_codec) ->
  @sends2 (list byte) Some zero_heap leb128 echo_codec (echo_sent payload).
Proof.
  intros Hl (l & Hs & Hm). apply bool_decide_eq_true in Hl. unfold echo_sent, sends2.
  assert (written [CallNext payload (4084 - zlen payload)] = payload) as Hw.
  { unfold written. cbn. by rewrite app_nil_r. }
  rewrite Hw. change (zlen (tag_ echo_codec)) with 4. rewrite Hs.
  split_and!; [done|done|unfold CHECKSUM_LENGTH; lia|].
  eexists. split; [vm_compute; reflexivity|]. split; [|done].
  cbn [legal_calls back data]. change (last_room _) with 4084. cbn [Z.eqb].
  rewrite (proj2 (Z.leb_le _ _)) by lia. rewrite (proj2 (Z.eqb_eq _ _)) by lia. done.
Qed.

Abbreviation echo_stream := (content (snd (echo_sent (str "hello"))) ++ content (snd (echo_sent (str "bye")))).
Abbreviation echo_segs := [take 3 echo_stream; take 13 (drop 3 echo_stream); drop 16 echo_stream].

Lemma codec2_roundtrip_witness :
  exists b', @receive zero_heap _ (@codec2_OnMessage _ (@parse_callback (list byte) Some) zero_heap leb128 echo_codec)
      echo_segs (mkBuffer 8 8 (repeat x00 16)) =
    Some ([Message2 (Some (str "hello")); Message2 (Some (str "bye"))], b') /\ Buffer.content b' = [].
Proof.
  apply (@codec2_roundtrip (list byte) Some zero_heap leb128 leb128_laws echo_codec
    [echo_sent (str "hello"); echo_sent (str "bye")]);
    [reflexivity|discriminate|done| |by split|done|reflexivity|vm_compute; reflexivity| | | |].
  - constructor; [|constructor; [|constructor]];
      (apply echo_sends; [reflexivity|eexists; split; [vm_compute; reflexivity|reflexivity]]).
  - repeat constructor; vm_compute; discriminate.
  - intros n Hn. apply Z.ltb_lt. eapply Z.le_lt_trans; [exact Hn|]. vm_compute. reflexivity.
  - apply cuts_okb_sound. vm_compute. reflexivity.
  - apply room_okb_sound. vm_compute. reflexivity.
Defined.

(** ** Defects *)

(** A segment that ends behind the size header ends the process: the assertion
    says [>], its message [>=]. *)
Lemma header_segment_aborts :
  @receive zero_heap _ (@codec2_OnMessage _ (@parse_callback (list byte) Some) zero_heap leb128 echo_codec)
    [take 1 echo_stream; drop 1 echo_stream] (mkBuffer 8 8 (repeat x00 16)) = None.
Proof. vm_compute. reflexivity. Qed.

(** What has been read and not handled is discarded when it reaches the limit,
    whatever messages it consists of. *)
Lemma full_buffer_discarded `{Heap, KVarint} {A} (cb : Buffer -> Z -> option (A * Buffer)) codec b evs b' :
  max_size_ codec <= Buffer.GetReadableSize b -> codec2_OnMessage cb codec b = Some (evs, b') ->
  evs = [Error2 E_INVALID_SIZE_HEADER].
Proof. intros Hl E. unfold codec2_OnMessage in E. rewrite (proj2 (Z.leb_le _ _)) in E by done. by inv_monad. Qed.

(** Two messages that are well below the limit and arrive in one segment are both
    lost, and the peer is told that a size header is wrong. *)
Lemma two_messages_discarded :
  exists b,
    @receive zero_heap _ (@codec2_OnMessage _ (@parse_callback (list byte) Some) zero_heap leb128 echo_codec)
      [echo_stream] (mkBuffer 8 8 (repeat x00 16)) = Some ([Error2 E_INVALID_SIZE_HEADER], b) /\ Buffer.content b = [].
Proof. eexists. split; vm_compute; reflexivity. Qed.

(** A parser that wants an exclamation mark. *)
Definition shouts (bs : list byte) : option (list byte) :=
  if bool_decide (last bs = Some x21) then Some bs else None.

(** A payload that does not parse is left in the buffer, the codec skips four
    bytes of it for the checksum and takes the rest for frames: the peer gets a
    message delivered that was only data of another. *)
Lemma unparsed_payload_reinterpreted :
  exists b evs,
    @receive zero_heap _ (@codec2_OnMessage _ (parse_callback shouts) zero_heap leb128 (mkProtobufCodec2 (str "Echo") 131072))
      [content (snd (echo_sent (str "junk" ++ content (snd (echo_sent (str "drop table!"))))))]
      (mkBuffer 8 8 (repeat x00 16)) = Some (Message2 None :: Message2 (Some (str "drop table!")) :: evs, b).
Proof. eexists _, _. vm_compute. reflexivity. Qed.
