(* ===== verification/Timer.v ===== *)
(** * Timers: kanon/net/timer/timer.h, kanon/linux/net/timer/timer_queue.{h,cc}

    The timer queue of an event loop: a [std::set] of pointers to timers ordered
    by expiration time and sequence number, and a timerfd armed for the earliest
    of them.  Timers live in a store; following a pointer to a deleted one is
    [None].  Times are microseconds, the readings of the clock are arguments.
    The functions run on the loop thread ([RunInLoop] calls its argument there
    at once).

    [canceling_timers_] is a hash set whose hash is seeded with [time(NULL)]: an
    element is found only in the bucket its key has at the time of the search.
    The bucket of a key in a given second is a parameter. *)

From Stdlib Require Import ZArith Lia Sorting.Sorted.
From stdpp Require Import gmap.
From S2P Require Import Prelude.

Definition ptr := positive.

(** ** Timer *)

(** The [double] interval is represented by its sign ([repeat]) and by
    [int64_t(interval * 1000000)]; the callback by a name. *)
Record Timer := mkTimer {
  callback_ : nat;
  expiration : Z;
  interval : Z;
  repeat_ : bool;
  sequence : Z
}.

Definition restart (t : Timer) (now : Z) : Timer :=
  mkTimer (callback_ t) (now + interval t) (interval t) (repeat_ t) (sequence t).

(** ** TimerQueue *)

Abbreviation TimerEntry := (ptr * Z)%type.
Abbreviation TimerHeap := (gmap ptr Timer).

Record TimerQueue := mkQueue {
  heap : TimerHeap;
  s_counter_ : Z;
  timers_ : list TimerEntry;
  calling_timer_ : bool;
  canceling_timers_ : list (TimerEntry * Z);
  timerfd : option Z   (* when it expires, if armed *)
}.

Definition with_timers (q : TimerQueue) (l : list TimerEntry) : TimerQueue :=
  mkQueue (heap q) (s_counter_ q) l (calling_timer_ q) (canceling_timers_ q) (timerfd q).
Definition with_heap (q : TimerQueue) (h : TimerHeap) : TimerQueue :=
  mkQueue h (s_counter_ q) (timers_ q) (calling_timer_ q) (canceling_timers_ q) (timerfd q).
Definition with_calling (q : TimerQueue) (b : bool) : TimerQueue :=
  mkQueue (heap q) (s_counter_ q) (timers_ q) b (canceling_timers_ q) (timerfd q).
Definition with_canceling (q : TimerQueue) (l : list (TimerEntry * Z)) : TimerQueue :=
  mkQueue (heap q) (s_counter_ q) (timers_ q) (calling_timer_ q) l (timerfd q).
Definition with_fd (q : TimerQueue) (d : option Z) : TimerQueue :=
  mkQueue (heap q) (s_counter_ q) (timers_ q) (calling_timer_ q) (canceling_timers_ q) d.
Definition with_counter (q : TimerQueue) (n : Z) : TimerQueue :=
  mkQueue (heap q) n (timers_ q) (calling_timer_ q) (canceling_timers_ q) (timerfd q).

Definition empty_queue : TimerQueue := mkQueue ∅ 0 [] false [] None.

(** [TimerEntryCompare], on the expiration times found behind the pointers. *)
Definition key_less (ex : Z) (sx : Z) (ey : Z) (sy : Z) : bool :=
  let res := ex - ey in if res =? 0 then sx <? sy else res <? 0.

Definition entry_less (h : TimerHeap) (x y : TimerEntry) : option bool :=
  tx ← h !! x.1; ty ← h !! y.1;
  Some (key_less (expiration tx) x.2 (expiration ty) y.2).

(** [std::set::emplace]: at the first place not less, unless it is equal. *)
Fixpoint set_emplace (h : TimerHeap) (x : TimerEntry) (l : list TimerEntry) : option (list TimerEntry) :=
  match l with
  | [] => Some [x]
  | y :: l' =>
    lt ← entry_less h y x;
    if (lt : bool) then l' ← set_emplace h x l'; Some (y :: l') else
    gt ← entry_less h x y;
    if (gt : bool) then Some (x :: y :: l') else Some (y :: l')
  end.

(** [std::set::find] followed by [erase] of what was found. *)
Fixpoint set_find_erase (h : TimerHeap) (x : TimerEntry) (l : list TimerEntry)
  : option (option (list TimerEntry)) :=
  match l with
  | [] => Some None
  | y :: l' =>
    lt ← entry_less h y x;
    if (lt : bool) then
      r ← set_find_erase h x l';
      Some (match r with Some l' => Some (y :: l') | None => None end)
    else
      gt ← entry_less h x y;
      Some (if (gt : bool) then None else Some l')
  end.

(** [std::set::lower_bound] of a time: the entries before it and the rest. *)
Fixpoint set_lower_bound (h : TimerHeap) (time seq : Z) (l : list TimerEntry)
  : option (list TimerEntry * list TimerEntry) :=
  match l with
  | [] => Some ([], [])
  | y :: l' =>
    t ← h !! y.1;
    if key_less (expiration t) y.2 time seq then
      '(a, b) ← set_lower_bound h time seq l'; Some (y :: a, b)
    else Some ([], y :: l')
  end.

(** [GetTimeFromNow]: at least 100 microseconds; [SetTimerFd] with the clock at
    [now]. *)
Definition GetTimeFromNow (time now : Z) : Z :=
  let interval := time - now in if interval <? 100 then 100 else interval.

Definition SetTimerFd (q : TimerQueue) (t : Timer) (now : Z) : TimerQueue :=
  with_fd q (Some (now + GetTimeFromNow (expiration t) now)).

Definition Emplace (q : TimerQueue) (timer : ptr) : option (bool * TimerQueue) :=
  t ← heap q !! timer;
  ret ← (match timers_ q with
         | [] => Some true
         | e :: _ => te ← heap q !! e.1; Some (expiration t <? expiration te)
         end);
  l ← set_emplace (heap q) (timer, sequence t) (timers_ q);
  Some (ret, with_timers q l).

(** [new Timer]: [p] is the address. The counter of sequence numbers is atomic. *)
Definition new_Timer (q : TimerQueue) (p : ptr) (cb : nat) (time intv : Z) (rep : bool) : option TimerQueue :=
  match heap q !! p with
  | Some _ => None
  | None =>
    let t := mkTimer cb time intv rep (s_counter_ q) in
    Some (with_counter (with_heap q (<[p := t]> (heap q))) (s_counter_ q + 1))
  end.

(** The functor that [AddTimer] gives to the loop; [now] is the clock. *)
Definition AddTimerInLoop (q : TimerQueue) (timer : ptr) (now : Z) : option TimerQueue :=
  '(earliest_update, q) ← Emplace q timer;
  if (earliest_update : bool) then t ← heap q !! timer; Some (SetTimerFd q t now) else Some q.

(** [TimerId(timer)] *)
Definition make_TimerId (q : TimerQueue) (timer : ptr) : option TimerEntry :=
  t ← heap q !! timer; Some (timer, sequence t).

(** [AddTimer] in the loop's thread. *)
Definition AddTimer (q : TimerQueue) (p : ptr) (cb : nat) (time intv : Z) (rep : bool) (now : Z)
  : option (TimerEntry * TimerQueue) :=
  q ← new_Timer q p cb time intv rep;
  q ← AddTimerInLoop q p now;
  id ← make_TimerId q p;
  Some (id, q).

Definition UINT64_MAX : Z := 2 ^ 64 - 1.

Section queue.
Context (bucket : Z -> TimerEntry -> Z).

Definition seconds (now : Z) : Z := now / 1000000.

Definition CancelTimer (q : TimerQueue) (id : TimerEntry) (now : Z) : option TimerQueue :=
  r ← set_find_erase (heap q) id (timers_ q);
  Some (match r with
        | Some l => with_timers q l
        | None =>
          if calling_timer_ q
          then with_canceling q ((id, bucket (seconds now) id) :: canceling_timers_ q)
          else q
        end).

(** [canceling_timers_.find(...) != end()] *)
Definition is_canceling (q : TimerQueue) (id : TimerEntry) (now : Z) : bool :=
  existsb (fun x => bool_decide (x = (id, bucket (seconds now) id))) (canceling_timers_ q).

(** The dummy key takes a sequence number. *)
Definition GetExpiredTimers (q : TimerQueue) (time : Z) : option (list ptr * TimerQueue) :=
  let q := with_counter q (s_counter_ q + 1) in
  '(expired, rest) ← set_lower_bound (heap q) time UINT64_MAX (timers_ q);
  Some (map fst expired, with_timers q rest).

(** The loop of [ResetTimers]; [now'] is the clock during it. *)
Fixpoint reset_loop (q : TimerQueue) (expireds : list ptr) (now now' : Z) : option TimerQueue :=
  match expireds with
  | [] => Some q
  | timer :: expireds =>
    t ← heap q !! timer;
    q ← (if repeat_ t then
           if is_canceling q (timer, sequence t) now' then Some q else
           '(_, q) ← Emplace (with_heap q (<[timer := restart t now]> (heap q))) timer; Some q
         else Some (with_heap q (delete timer (heap q))));
    reset_loop q expireds now now'
  end.

Definition ResetTimers (q : TimerQueue) (expireds : list ptr) (now now' : Z) : option TimerQueue :=
  q ← reset_loop q expireds now now';
  match timers_ q with
  | [] => Some q
  | e :: _ => t ← heap q !! e.1; Some (SetTimerFd q t now')
  end.

(** What a callback does to the queue of its loop, with the clock at each call. *)
Inductive timer_action :=
  | DoAdd (p : ptr) (cb : nat) (time intv : Z) (rep : bool) (now : Z)
  | DoCancel (id : TimerEntry) (now : Z).

Definition run_action (q : TimerQueue) (a : timer_action) : option TimerQueue :=
  match a with
  | DoAdd p cb time intv rep now => '(_, q) ← AddTimer q p cb time intv rep now; Some q
  | DoCancel id now => CancelTimer q id now
  end.

Fixpoint run_actions (q : TimerQueue) (acts : list timer_action) : option TimerQueue :=
  match acts with
  | [] => Some q
  | a :: acts => q ← run_action q a; run_actions q acts
  end.

(** [timer->run()] for the expired timers; [body] says what a callback does. *)
Fixpoint run_timers (body : nat -> list timer_action) (q : TimerQueue) (expireds : list ptr)
  : option TimerQueue :=
  match expireds with
  | [] => Some q
  | timer :: expireds =>
    t ← heap q !! timer;
    q ← run_actions q (body (callback_ t));
    run_timers body q expireds
  end.

(** [ProcessAllExpiredTimers]: [now] is the clock when the timerfd was read,
    [now'] when the timers are reset. The timers run, in order, and the queue.
    The timerfd is one-shot. *)
Definition ProcessAllExpiredTimers (body : nat -> list timer_action) (q : TimerQueue) (now now' : Z)
  : option (list ptr * TimerQueue) :=
  let q := with_fd q None in
  '(expired_timers, q) ← GetExpiredTimers q now;
  let q := with_calling (with_canceling q []) true in
  q ← run_timers body q expired_timers;
  let q := with_calling q false in
  q ← ResetTimers q expired_timers now now';
  Some (expired_timers, q).

End queue.

(** ** Order *)

Definition elt (h : TimerHeap) (x y : TimerEntry) : Prop := entry_less h x y = Some true.

Lemma key_less_spec ex sx ey sy : key_less ex sx ey sy = true <-> ex < ey \/ (ex = ey /\ sx < sy).
Proof. unfold key_less. case_bool; rewrite Z.ltb_lt; lia. Qed.

Lemma elt_alive h x y tx ty :
  h !! x.1 = Some tx -> h !! y.1 = Some ty ->
  elt h x y <-> expiration tx < expiration ty \/ (expiration tx = expiration ty /\ x.2 < y.2).
Proof.
  intros Ex Ey. unfold elt, entry_less. rewrite Ex, Ey. cbn. rewrite <- key_less_spec.
  split; [by intros [= ->]|by intros ->].
Qed.

Lemma entry_less_alive h x y tx ty :
  h !! x.1 = Some tx -> h !! y.1 = Some ty ->
  entry_less h x y = Some (key_less (expiration tx) x.2 (expiration ty) y.2).
Proof. intros Ex Ey. unfold entry_less. by rewrite Ex, Ey. Qed.

(** The order only looks at the timers compared. *)
Lemma elt_frame h h' x y :
  h' !! x.1 = h !! x.1 -> h' !! y.1 = h !! y.1 -> elt h x y -> elt h' x y.
Proof. unfold elt, entry_less. by intros -> ->. Qed.

Definition alive (h : TimerHeap) (e : TimerEntry) : Prop :=
  exists t, h !! e.1 = Some t /\ sequence t = e.2.

Lemma alive_lookup h e : alive h e -> exists t, h !! e.1 = Some t.
Proof. intros (t & E & _). eauto. Qed.

Lemma elt_trans h x y z : elt h x y -> elt h y z -> elt h x z.
Proof.
  unfold elt, entry_less. destruct (h !! x.1) as [tx|]; [|done]. destruct (h !! y.1) as [ty|]; [|done].
  destruct (h !! z.1) as [tz|]; [|done]. cbn. rewrite !(inj_iff Some), !key_less_spec. lia.
Qed.

Lemma set_emplace_spec h x l :
  StronglySorted (elt h) l -> Forall (alive h) l -> alive h x -> Forall (fun y => y.2 <> x.2) l ->
  exists l', set_emplace h x l = Some l' /\ StronglySorted (elt h) l' /\ l' ≡ₚ x :: l.
Proof.
  intros Hs Ha (tx & Ex & _) Hd. induction Hs as [|y l Hs IH Hy]; cbn [set_emplace].
  { exists [x]. split_and!; try done. by repeat constructor. }
  inversion Ha as [|? ? (ty & Ey & _) Ha']; inversion Hd; subst.
  rewrite (entry_less_alive h y x ty tx) by done. cbn [mbind option_bind].
  destruct (key_less _ _ _ _) eqn:E1.
  - destruct IH as (l' & -> & Hs' & Hp); [done|done|]. cbn [mbind option_bind]. exists (y :: l').
    split_and!; [done| |rewrite Hp; apply Permutation_swap].
    constructor; [done|]. rewrite Hp. constructor; [|done].
    apply (elt_alive h y x ty tx); [done|done|]. by apply key_less_spec.
  - rewrite (entry_less_alive h x y tx ty) by done. cbn [mbind option_bind].
    assert (elt h x y) as Hxy.
    { apply (elt_alive h x y tx ty); [done|done|]. apply not_true_iff_false in E1.
      rewrite key_less_spec in E1. lia. }
    pose proof Hxy as Hxy'. unfold elt in Hxy'. rewrite (entry_less_alive h x y tx ty) in Hxy' by done.
    injection Hxy' as ->. exists (x :: y :: l). split_and!; try done.
    constructor; [by constructor|]. constructor; [done|].
    eapply Forall_impl; [exact Hy|]. intros z. by apply elt_trans.
Qed.

(** The first entry after an insertion. *)
Lemma set_emplace_head h x y l l' tx ty :
  h !! x.1 = Some tx -> h !! y.1 = Some ty -> set_emplace h x (y :: l) = Some l' ->
  exists e l1, l' = e :: l1 /\
    ((e = x /\ expiration tx <= expiration ty) \/ (e = y /\ expiration ty <= expiration tx)).
Proof.
  intros Ex Ey. cbn [set_emplace]. rewrite (entry_less_alive h y x ty tx) by done. cbn [mbind option_bind].
  destruct (key_less _ _ _ _) eqn:E1.
  - destruct (set_emplace h x l) as [l1|]; [|done]. intros [= <-]. exists y, l1. split; [done|].
    apply key_less_spec in E1. right. split; [done|lia].
  - rewrite (entry_less_alive h x y tx ty) by done. cbn [mbind option_bind].
    apply not_true_iff_false in E1. rewrite key_less_spec in E1.
    destruct (key_less (expiration tx) _ _ _) eqn:E2; intros [= <-].
    + exists x, (y :: l). split; [done|]. left. split; [done|lia].
    + exists y, l. split; [done|]. apply not_true_iff_false in E2. rewrite key_less_spec in E2.
      right. split; [done|lia].
Qed.

Lemma set_find_erase_spec h x l :
  StronglySorted (elt h) l -> Forall (alive h) l -> is_Some (h !! x.1) ->
  Forall (fun y => y.2 = x.2 -> y = x) l ->
  (exists l1 l2, l = l1 ++ x :: l2 /\ set_find_erase h x l = Some (Some (l1 ++ l2))) \/
  ((x ∉ l) /\ set_find_erase h x l = Some None).
Proof.
  intros Hs Ha [tx Ex] Hi. induction Hs as [|y l Hs IH Hy]; cbn [set_find_erase].
  { right. split; [by apply not_elem_of_nil|done]. }
  inversion Ha as [|? ? (ty & Ey & Hyq) Ha']; inversion Hi as [|? ? Hyx Hi']; subst.
  destruct (decide (y = x)) as [->|Hne].
  { left. exists [], l. split; [done|]. rewrite (entry_less_alive h x x tx tx) by done. cbn.
    unfold key_less. rewrite Z.sub_diag. cbn. by rewrite Z.ltb_irrefl. }
  rewrite (entry_less_alive h y x ty tx) by done. cbn [mbind option_bind].
  destruct (key_less _ _ _ _) eqn:E1.
  - destruct IH as [(l1 & l2 & -> & ->)|[Hn ->]]; [done|done| |].
    + left. by exists (y :: l1), l2.
    + right. split; [|done]. by apply not_elem_of_cons.
  - rewrite (entry_less_alive h x y tx ty) by done. cbn [mbind option_bind].
    apply not_true_iff_false in E1. rewrite key_less_spec in E1.
    assert (y.2 <> x.2) as N by auto.
    assert (key_less (expiration tx) x.2 (expiration ty) y.2 = true) as ->
      by (apply key_less_spec; lia).
    right. split; [|done]. apply not_elem_of_cons. split; [done|]. intros Hx.
    rewrite Forall_forall in Hy. specialize (Hy x Hx). apply (elt_alive h y x ty tx) in Hy; [lia|done|done].
Qed.

(** The entries that [lower_bound] splits off are the expired ones. *)
Lemma set_lower_bound_spec h time l :
  StronglySorted (elt h) l -> Forall (alive h) l -> Forall (fun e => e.2 < UINT64_MAX) l ->
  exists a b, set_lower_bound h time UINT64_MAX l = Some (a, b) /\ l = a ++ b /\
    Forall (fun e => exists t, h !! e.1 = Some t /\ expiration t <= time) a /\
    Forall (fun e => exists t, h !! e.1 = Some t /\ time < expiration t) b.
Proof.
  intros Hs Ha Hm. induction Hs as [|y l Hs IH Hy]; cbn [set_lower_bound].
  { exists [], []. by split_and!. }
  inversion Ha as [|? ? (ty & Ey & Hyq) Ha']; inversion Hm as [|? ? Hmy Hm']; subst.
  rewrite Ey. cbn [mbind option_bind]. destruct (key_less _ _ _ _) eqn:E1.
  - destruct IH as (a & b & -> & -> & H1 & H2); [done|done|]. cbn [mbind option_bind].
    exists (y :: a), b. split_and!; try done. constructor; [|done]. exists ty. split; [done|].
    apply key_less_spec in E1. lia.
  - exists [], (y :: l). split_and!; try done.
    apply not_true_iff_false in E1. rewrite key_less_spec in E1.
    constructor; [exists ty; split; [done|lia]|].
    rewrite Forall_forall in *. intros z Hz. destruct (Ha' z Hz) as (tz & Ez & _). exists tz. split; [done|].
    specialize (Hy z Hz). apply (elt_alive h y z ty tz) in Hy; [lia|done|done].
Qed.

(** ** Invariant *)

Record tq_wf (q : TimerQueue) : Prop := {
  wf_alive : Forall (alive (heap q)) (timers_ q);
  wf_sorted : StronglySorted (elt (heap q)) (timers_ q);
  wf_seq : map_Forall (fun _ t => sequence t < s_counter_ q) (heap q);
  wf_inj : forall p p' t t', heap q !! p = Some t -> heap q !! p' = Some t' ->
    sequence t = sequence t' -> p = p'
}.

(** The timers of [E] exist and are not in the set. *)
Definition detached (E : list ptr) (q : TimerQueue) : Prop :=
  NoDup E /\ Forall (fun p => is_Some (heap q !! p) /\ p ∉ map fst (timers_ q)) E.

Lemma sorted_frame h h' l :
  (forall e, e ∈ l -> h' !! e.1 = h !! e.1) -> StronglySorted (elt h) l -> StronglySorted (elt h') l.
Proof.
  intros Hf Hs. induction Hs as [|x l Hs IH Hx]; constructor.
  - apply IH. intros e He. apply Hf. by right.
  - rewrite Forall_forall in *. intros y Hy. eapply elt_frame; [| |by apply Hx].
    + apply Hf. left.
    + apply Hf. by right.
Qed.

Lemma alive_frame h h' l :
  (forall e, e ∈ l -> h' !! e.1 = h !! e.1) -> Forall (alive h) l -> Forall (alive h') l.
Proof.
  intros Hf Ha. rewrite Forall_forall in *. intros e He. destruct (Ha e He) as (t & E & S).
  exists t. by rewrite Hf.
Qed.

Lemma entry_unique q e e' :
  tq_wf q -> e ∈ timers_ q -> e' ∈ timers_ q -> e.2 = e'.2 -> e = e'.
Proof.
  intros [Ha _ _ Hi] He He' E. rewrite Forall_forall in Ha.
  destruct (Ha e He) as (t & Et & St). destruct (Ha e' He') as (t' & Et' & St').
  destruct e, e'; cbn in *. f_equal; [|done]. eapply Hi; [done|done|congruence].
Qed.

Lemma not_in_fst_ne (l : list TimerEntry) p e : p ∉ map fst l -> e ∈ l -> e.1 <> p.
Proof. intros Hn He <-. apply Hn. by apply list_elem_of_In, in_map, list_elem_of_In. Qed.

(** Changing a timer that is not in the set. *)
Lemma wf_change q p t :
  tq_wf q -> p ∉ map fst (timers_ q) -> sequence t < s_counter_ q ->
  (forall p' t', heap q !! p' = Some t' -> sequence t' = sequence t -> p' = p) ->
  tq_wf (with_heap q (<[p := t]> (heap q))).
Proof.
  intros [Ha Hs Hq Hi] Hn Hlt Hu.
  assert (forall e, e ∈ timers_ q -> <[p := t]> (heap q) !! e.1 = heap q !! e.1) as Hf.
  { intros e He. apply lookup_insert_ne. intros E. by eapply not_in_fst_ne. }
  split; cbn.
  - by eapply alive_frame.
  - by eapply sorted_frame.
  - by apply map_Forall_insert_2.
  - intros p1 p2 t1 t2. rewrite !lookup_insert_Some.
    intros [[<- <-]|[N1 E1]] [[<- <-]|[N2 E2]] E; try done; eauto.
    symmetry. by eapply Hu.
Qed.

Lemma wf_delete q p :
  tq_wf q -> p ∉ map fst (timers_ q) -> tq_wf (with_heap q (delete p (heap q))).
Proof.
  intros [Ha Hs Hq Hi] Hn.
  assert (forall e, e ∈ timers_ q -> delete p (heap q) !! e.1 = heap q !! e.1) as Hf.
  { intros e He. apply lookup_delete_ne. intros E. by eapply not_in_fst_ne. }
  split; cbn.
  - by eapply alive_frame.
  - by eapply sorted_frame.
  - by apply map_Forall_delete.
  - intros p1 p2 t1 t2. rewrite !lookup_delete_Some. intros [_ E1] [_ E2]. eauto.
Qed.

Lemma wf_emplaced q l :
  tq_wf q -> StronglySorted (elt (heap q)) l -> Forall (alive (heap q)) l -> tq_wf (with_timers q l).
Proof. intros [Ha Hs Hq Hi] Hs' Ha'. by split. Qed.

Lemma Emplace_spec q p t :
  tq_wf q -> heap q !! p = Some t -> p ∉ map fst (timers_ q) ->
  exists ret l, Emplace q p = Some (ret, with_timers q l) /\ tq_wf (with_timers q l) /\
    l ≡ₚ (p, sequence t) :: timers_ q.
Proof.
  intros Hwf Ep Hn. pose proof Hwf as [Ha Hs Hq Hi]. unfold Emplace. rewrite Ep. cbn [mbind option_bind].
  assert (alive (heap q) (p, sequence t)) as Hp by (by exists t).
  assert (exists ret, (match timers_ q with [] => Some true
    | e :: _ => te ← heap q !! e.1; Some (expiration t <? expiration te) end) = Some ret) as (ret & ->).
  { destruct (timers_ q) as [|e l]; [by eexists|]. apply Forall_cons in Ha as [(te & Ete & _) _]. rewrite Ete. by eexists. }
  cbn [mbind option_bind].
  destruct (set_emplace_spec (heap q) (p, sequence t) (timers_ q)) as (l & -> & Hs' & Hl); try done.
  { rewrite Forall_forall in *. intros e He E. destruct (Ha e He) as (te & Ete & Ste). cbn in E.
    eapply not_in_fst_ne; [exact Hn|exact He|]. eapply Hi; [done|done|congruence]. }
  cbn [mbind option_bind]. exists ret, l. split; [done|]. split; [|done]. apply wf_emplaced; [done|done|].
  rewrite Hl. by constructor.
Qed.

(** ** Operations *)

(** A handle that still denotes its timer, or whose address is in use again. *)
Definition valid_id (q : TimerQueue) (id : TimerEntry) : Prop :=
  is_Some (heap q !! id.1) /\
  forall p t, heap q !! p = Some t -> sequence t = id.2 -> p = id.1.

Lemma fresh_not_timer q p : tq_wf q -> heap q !! p = None -> p ∉ map fst (timers_ q).
Proof.
  intros [Ha _ _ _] Hn Hin. apply list_elem_of_In, in_map_iff in Hin as (e & <- & He).
  rewrite Forall_forall in Ha. destruct (Ha e) as (t & E & _); [by apply list_elem_of_In|]. congruence.
Qed.

Lemma SetTimerFd_wf q t now : tq_wf q -> tq_wf (SetTimerFd q t now).
Proof. intros [? ? ? ?]. by split. Qed.

Lemma new_Timer_spec q p cb time intv rep :
  tq_wf q -> heap q !! p = None ->
  exists q', new_Timer q p cb time intv rep = Some q' /\ tq_wf q' /\ timers_ q' = timers_ q /\
    heap q' = <[p := mkTimer cb time intv rep (s_counter_ q)]> (heap q) /\
    canceling_timers_ q' = canceling_timers_ q /\ calling_timer_ q' = calling_timer_ q /\
    s_counter_ q' = s_counter_ q + 1 /\ timerfd q' = timerfd q.
Proof.
  intros Hwf Hp. unfold new_Timer. rewrite Hp. cbv zeta. set (t := mkTimer _ _ _ _ _).
  eexists. split; [done|]. split_and!; try done. pose proof Hwf as [Ha Hs Hq Hi].
  assert (tq_wf (with_counter q (s_counter_ q + 1))) as Hwf0.
  { split; try done. cbn. eapply map_Forall_impl; [exact Hq|]. cbn. lia. }
  apply (wf_change (with_counter q (s_counter_ q + 1)) p t); [done|by apply fresh_not_timer|cbn; lia|].
  cbn. intros p' t' E' S'. apply (map_Forall_lookup_1 _ _ _ _ Hq) in E'. lia.
Qed.

Lemma AddTimerInLoop_spec q p t now :
  tq_wf q -> heap q !! p = Some t -> p ∉ map fst (timers_ q) ->
  exists q', AddTimerInLoop q p now = Some q' /\ tq_wf q' /\ timers_ q' ≡ₚ (p, sequence t) :: timers_ q /\
    heap q' = heap q /\ canceling_timers_ q' = canceling_timers_ q /\ calling_timer_ q' = calling_timer_ q /\
    s_counter_ q' = s_counter_ q.
Proof.
  intros Hwf Hp Hn. unfold AddTimerInLoop.
  destruct (Emplace_spec q p t Hwf Hp Hn) as (ret & l & -> & Hwf2 & Hl). cbn. rewrite Hp.
  destruct ret; eexists; (split; [done|]); split_and!; try done; by apply SetTimerFd_wf.
Qed.

Lemma AddTimer_spec q p cb time intv rep now :
  tq_wf q -> heap q !! p = None ->
  exists q', AddTimer q p cb time intv rep now = Some ((p, s_counter_ q), q') /\ tq_wf q' /\
    timers_ q' ≡ₚ (p, s_counter_ q) :: timers_ q /\
    heap q' = <[p := mkTimer cb time intv rep (s_counter_ q)]> (heap q) /\
    canceling_timers_ q' = canceling_timers_ q /\ calling_timer_ q' = calling_timer_ q /\
    s_counter_ q' = s_counter_ q + 1.
Proof.
  intros Hwf Hp. destruct (new_Timer_spec q p cb time intv rep Hwf Hp) as (q1 & E1 & Hwf1 & Ht & Hh & Hcc & Hcl & Hs & _).
  assert (heap q1 !! p = Some (mkTimer cb time intv rep (s_counter_ q))) as Hp1 by (rewrite Hh; apply lookup_insert_eq).
  destruct (AddTimerInLoop_spec q1 p _ now Hwf1 Hp1) as (q2 & E2 & Hwf2 & Ht2 & Hh2 & ? & ? & ?).
  { rewrite Ht. by apply fresh_not_timer. }
  unfold AddTimer, make_TimerId. rewrite E1. cbn [mbind option_bind]. rewrite E2. cbn [mbind option_bind].
  rewrite Hh2, Hp1. cbn. eexists. split; [done|]. rewrite Ht in Ht2. split_and!; try done; congruence.
Qed.

(** Handles of timers, each with whether the timer repeats. *)
Abbreviation handles := (list (TimerEntry * bool)).

Section canceling.
Context (bucket : Z -> TimerEntry -> Z).

Lemma sorted_erase h l1 (x : TimerEntry) l2 :
  StronglySorted (elt h) (l1 ++ x :: l2) -> StronglySorted (elt h) (l1 ++ l2).
Proof.
  induction l1 as [|y l1 IH]; cbn; intros Hs; inversion Hs as [|? ? Hs' Hy]; subst; [done|].
  constructor; [by apply IH|]. apply Forall_app in Hy as [Hy1 Hy2]. inversion Hy2; subst.
  by apply Forall_app.
Qed.

Lemma CancelTimer_spec q id now :
  tq_wf q -> valid_id q id ->
  exists q', CancelTimer bucket q id now = Some q' /\ tq_wf q' /\ heap q' = heap q /\
    s_counter_ q' = s_counter_ q /\ calling_timer_ q' = calling_timer_ q /\
    (forall e, e ∈ timers_ q' <-> e ∈ timers_ q /\ e <> id) /\
    (canceling_timers_ q' = canceling_timers_ q \/
     calling_timer_ q = true /\
     canceling_timers_ q' = (id, bucket (seconds now) id) :: canceling_timers_ q) /\
    (calling_timer_ q = true -> id ∉ timers_ q ->
     canceling_timers_ q' = (id, bucket (seconds now) id) :: canceling_timers_ q).
Proof.
  intros Hwf [Hal Hu]. pose proof Hwf as [Ha Hs Hq Hi]. unfold CancelTimer.
  assert (Forall (fun y => y.2 = id.2 -> y = id) (timers_ q)) as Hid.
  { rewrite Forall_forall in *. intros y Hy E. destruct (Ha y Hy) as (t & Et & St).
    destruct y, id; cbn in *. f_equal; [|done]. eapply Hu; [done|congruence]. }
  destruct (set_find_erase_spec (heap q) id (timers_ q)) as [(l1 & l2 & El & ->)|[Hn ->]]; try done;
    cbn [mbind option_bind].
  - eexists. split; [done|]. cbn. split_and!; try done.
    + apply wf_emplaced; [done|eapply sorted_erase; by rewrite <- El|].
      rewrite El in Ha. apply Forall_app in Ha as [Ha1 Ha2]. inversion Ha2; subst. by apply Forall_app.
    + intros e. rewrite El, !elem_of_app, elem_of_cons.
      assert (e ∈ l1 \/ e ∈ l2 -> e <> id) as Hne.
      { intros He ->. rewrite El in Hs. clear -Hs He. induction l1 as [|y l1 IH]; cbn in *.
        - destruct He as [He|He]; [by apply not_elem_of_nil in He|]. inversion Hs as [|? ? _ Hf]; subst.
          rewrite Forall_forall in Hf. specialize (Hf _ He). unfold elt, entry_less in Hf.
          destruct (heap q !! id.1); [|done]. cbn in Hf. injection Hf as Hf.
          apply key_less_spec in Hf. lia.
        - inversion Hs as [|? ? Hs' Hf]; subst. destruct He as [He|He]; [|auto].
          apply elem_of_cons in He as [->|He]; [|auto]. rewrite Forall_forall in Hf.
          specialize (Hf y ltac:(set_solver)). unfold elt, entry_less in Hf.
          destruct (heap q !! y.1); [|done]. cbn in Hf. injection Hf as Hf. apply key_less_spec in Hf. lia. }
      naive_solver.
    + by left.
    + intros _ N. exfalso. apply N. rewrite El. set_solver.
  - assert (forall e, e ∈ timers_ q <-> e ∈ timers_ q /\ e <> id) as Hm.
    { intros e. split; [|tauto]. intros He. split; [done|]. by intros ->. }
    destruct (calling_timer_ q) eqn:Ec; eexists; (split; [done|]); cbn; rewrite ?Ec; split_and!; auto.
    + by split.
    + done.
Qed.

Definition action_ok (q : TimerQueue) (a : timer_action) : Prop :=
  match a with
  | DoAdd p _ _ _ _ _ => heap q !! p = None
  | DoCancel id _ => valid_id q id
  end.

(** Every action is legal in the state it is run in. *)
Fixpoint acts_ok (q : TimerQueue) (acts : list timer_action) : Prop :=
  match acts with
  | [] => True
  | a :: acts => action_ok q a /\ forall q', run_action bucket q a = Some q' -> acts_ok q' acts
  end.

Fixpoint timers_ok (body : nat -> list timer_action) (q : TimerQueue) (E : list ptr) : Prop :=
  match E with
  | [] => True
  | p :: E => forall t, heap q !! p = Some t ->
      acts_ok q (body (callback_ t)) /\
      forall q', run_actions bucket q (body (callback_ t)) = Some q' -> timers_ok body q' E
  end.

(** What the callbacks leave alone. *)
Definition keeps (E : list ptr) (q q' : TimerQueue) : Prop :=
  (forall p, p ∈ E -> heap q' !! p = heap q !! p) /\
  (forall p, is_Some (heap q !! p) -> is_Some (heap q' !! p)) /\
  calling_timer_ q' = calling_timer_ q /\
  (forall x, x ∈ canceling_timers_ q -> x ∈ canceling_timers_ q').

Lemma run_action_spec q a E :
  tq_wf q -> action_ok q a -> detached E q ->
  exists q', run_action bucket q a = Some q' /\ tq_wf q' /\ detached E q' /\ keeps E q q'.
Proof.
  intros Hwf Hok [Hnd Hd]. destruct a as [p cb time intv rep now|id now]; cbn [run_action action_ok] in *.
  - destruct (AddTimer_spec q p cb time intv rep now Hwf Hok) as (q' & -> & Hwf' & Ht & Hh & Hcc & Hcl & _).
    cbn [mbind option_bind]. exists q'. rewrite Forall_forall in Hd.
    assert (forall p', p' ∈ E -> p' <> p) as Hne
      by (intros p' Hp ->; destruct (Hd _ Hp) as [[? ?] _]; congruence).
    split_and!; try done.
    + split; [done|]. rewrite Forall_forall. intros p' Hp. destruct (Hd _ Hp) as [Hs Hn]. rewrite Hh.
      rewrite lookup_insert_ne by (intros <-; by eapply Hne). split; [done|]. intros Hin. apply Hn.
      apply list_elem_of_In, in_map_iff in Hin as (e & <- & He). apply list_elem_of_In in He.
      rewrite Ht in He. apply elem_of_cons in He as [->|He]; [by destruct (Hne _ Hp)|].
      by apply list_elem_of_In, in_map, list_elem_of_In.
    + split_and!; [intros p' Hp; rewrite Hh..|done|by rewrite Hcc].
      * apply lookup_insert_ne. intros <-. by eapply Hne.
      * by apply lookup_insert_is_Some'; right.
  - destruct (CancelTimer_spec q id now Hwf Hok) as (q' & -> & Hwf' & Hh & _ & Hcl & He & Hcc & _).
    exists q'. split_and!; try done.
    + split; [done|]. rewrite Forall_forall in *. intros p Hp. destruct (Hd p Hp) as [Hs Hn]. rewrite Hh. split; [done|].
      intros Hin. apply Hn. apply list_elem_of_In, in_map_iff in Hin as (e & <- & Hi).
      apply list_elem_of_In, He in Hi as [Hi _]. by apply list_elem_of_In, in_map, list_elem_of_In.
    + split_and!; [intros p; by rewrite Hh|intros p; by rewrite Hh|done|].
      destruct Hcc as [->|[_ ->]]; [done|by right].
Qed.

Lemma keeps_trans E q1 q2 q3 : keeps E q1 q2 -> keeps E q2 q3 -> keeps E q1 q3.
Proof.
  intros (A1 & B1 & C1 & D1) (A2 & B2 & C2 & D2). split_and!; [|by auto|congruence|by auto].
  intros p Hp. rewrite A2 by done. auto.
Qed.

Lemma run_actions_spec q acts E :
  tq_wf q -> acts_ok q acts -> detached E q ->
  exists q', run_actions bucket q acts = Some q' /\ tq_wf q' /\ detached E q' /\ keeps E q q'.
Proof.
  revert q. induction acts as [|a acts IH]; intros q Hwf Hok Hd; [by exists q|].
  destruct Hok as [Ha Hok]. destruct (run_action_spec q a E Hwf Ha Hd) as (q1 & E1 & Hwf1 & Hd1 & K1).
  destruct (IH q1 Hwf1 (Hok _ E1) Hd1) as (q2 & E2 & Hwf2 & Hd2 & K2).
  exists q2. cbn [run_actions]. rewrite E1. cbn [mbind option_bind]. split_and!; try done.
  by eapply keeps_trans.
Qed.

Lemma run_timers_spec body q E0 E :
  tq_wf q -> timers_ok body q E -> detached E0 q -> (forall p, p ∈ E -> p ∈ E0) ->
  exists q', run_timers bucket body q E = Some q' /\ tq_wf q' /\ detached E0 q' /\ keeps E0 q q'.
Proof.
  revert q. induction E as [|p E IH]; intros q Hwf Hok Hd Hsub; [by exists q|].
  pose proof Hd as [_ Hd']. rewrite Forall_forall in Hd'.
  destruct (Hd' p) as [[t Et] _]; [apply Hsub; by left|]. destruct (Hok t Et) as [Ha Hok'].
  destruct (run_actions_spec q (body (callback_ t)) E0 Hwf Ha Hd) as (q1 & E1 & Hwf1 & Hd1 & K1).
  destruct (IH q1 Hwf1 (Hok' _ E1) Hd1) as (q2 & E2 & Hwf2 & Hd2 & K2);
    [intros p' Hp'; apply Hsub; by right|].
  exists q2. cbn [run_timers]. rewrite Et. cbn [mbind option_bind]. rewrite E1. cbn [mbind option_bind].
  split_and!; try done. by eapply keeps_trans.
Qed.

Lemma reset_loop_spec q E now now' :
  tq_wf q -> detached E q ->
  exists q', reset_loop bucket q E now now' = Some q' /\ tq_wf q' /\
    canceling_timers_ q' = canceling_timers_ q /\ calling_timer_ q' = calling_timer_ q /\
    s_counter_ q' = s_counter_ q /\
    (forall e, e ∈ timers_ q' <-> e ∈ timers_ q \/
       exists t, e.1 ∈ E /\ heap q !! e.1 = Some t /\ repeat_ t = true /\ e.2 = sequence t /\
         is_canceling bucket q e now' = false) /\
    (forall p, p ∉ E -> heap q' !! p = heap q !! p) /\
    (forall p t, p ∈ E -> heap q !! p = Some t ->
       heap q' !! p = if repeat_ t then
                        if is_canceling bucket q (p, sequence t) now' then Some t
                        else Some (restart t now)
                      else None).
Proof.
  revert q. induction E as [|p E IH]; intros q Hwf [Hnd Hd].
  { exists q. cbn. split_and!; try done; intros; set_solver. }
  apply NoDup_cons in Hnd as [Hp Hnd]. apply Forall_cons in Hd as [[[t Et] Hn] Hd].
  assert (exists q1, (if repeat_ t then if is_canceling bucket q (p, sequence t) now' then Some q else
           '(_, q) ← Emplace (with_heap q (<[p := restart t now]> (heap q))) p; Some q
         else Some (with_heap q (delete p (heap q)))) = Some q1 /\ tq_wf q1 /\
      canceling_timers_ q1 = canceling_timers_ q /\ calling_timer_ q1 = calling_timer_ q /\
      s_counter_ q1 = s_counter_ q /\
      (forall e, e ∈ timers_ q1 <-> e ∈ timers_ q \/
         (e = (p, sequence t) /\ repeat_ t = true /\ is_canceling bucket q e now' = false)) /\
      (forall p', p' <> p -> heap q1 !! p' = heap q !! p') /\
      heap q1 !! p = if repeat_ t then
                        if is_canceling bucket q (p, sequence t) now' then Some t
                        else Some (restart t now) else None)
    as (q1 & E1 & Hwf1 & C1 & B1 & S1 & M1 & F1 & P1).
  { pose proof Hwf as [Ha Hs Hq Hi]. destruct (repeat_ t) eqn:Er; [|
      eexists; split; [done|]; split_and!; try done; [by apply wf_delete| | |]].
    - destruct (is_canceling _ _ _ _) eqn:Ec; [exists q; split_and!; try done; naive_solver congruence|].
      destruct (Emplace_spec (with_heap q (<[p := restart t now]> (heap q))) p (restart t now))
        as (ret & l & -> & Hwf' & Hl).
      + apply wf_change; [done|done|by apply (map_Forall_lookup_1 _ _ _ _ Hq) in Et|].
        intros p' t' E' S'. by eapply Hi.
      + apply lookup_insert_eq.
      + done.
      + cbn [mbind option_bind]. eexists. split; [done|]. split_and!; try done.
        * intros e. cbn. rewrite Hl, elem_of_cons. naive_solver congruence.
        * intros p' Hne. cbn. by apply lookup_insert_ne.
        * apply lookup_insert_eq.
    - naive_solver congruence.
    - intros p' Hne. cbn. by apply lookup_delete_ne.
    - apply lookup_delete_eq. }
  destruct (IH q1) as (q2 & E2 & Hwf2 & C2 & B2 & S2 & M2 & F2 & P2); [done| |].
  { split; [done|]. rewrite Forall_forall in *. intros p' Hp'. destruct (Hd p' Hp') as [Hs' Hn'].
    assert (p' <> p) as Hne by (by intros ->). rewrite F1 by done. split; [done|]. intros Hin. apply Hn'.
    apply list_elem_of_In, in_map_iff in Hin as (e & <- & He). apply list_elem_of_In, M1 in He.
    destruct He as [He|[-> _]]; [|done]. by apply list_elem_of_In, in_map, list_elem_of_In. }
  assert (forall e, is_canceling bucket q1 e now' = is_canceling bucket q e now') as Hic
    by (intros e; unfold is_canceling; by rewrite C1).
  exists q2. cbn [reset_loop]. rewrite Et. cbn [mbind option_bind]. rewrite E1. cbn [mbind option_bind].
  split; [done|]. split; [done|]. split; [congruence|]. split; [congruence|]. split; [congruence|].
  split_and!.
  - intros e. rewrite M2, M1. split.
    + intros [[He|(-> & Hr & Hc)]|(t' & He & Ht' & Hr & Hs' & Hc)]; [by left| |].
      * right. exists t. cbn. split_and!; try done. by left.
      * right. exists t'. rewrite Hic in Hc. rewrite F1 in Ht' by (intros Heq; by rewrite Heq in He).
        split_and!; try done. by right.
    + intros [He|(t' & He & Ht' & Hr & Hs' & Hc)]; [by left; left|]. apply elem_of_cons in He as [Heq|He].
      * left. right. rewrite Heq, Et in Ht'. injection Ht' as <-. destruct e; cbn in *; subst. done.
      * right. exists t'. rewrite Hic, F1 by (intros Heq; by rewrite Heq in He). done.
  - intros p' Hp'. apply not_elem_of_cons in Hp' as [Hne Hp']. rewrite F2 by done. by apply F1.
  - intros p' t' Hp' Et'. apply elem_of_cons in Hp' as [->|Hp'].
    + rewrite F2 by done. rewrite Et in Et'. by injection Et' as <-.
    + assert (p' <> p) as Hne by (by intros ->). rewrite (P2 p' t'); [by rewrite Hic|done|by rewrite F1].
Qed.

(** The timerfd expires no later than the first timer is due, up to the minimal
    delay of 100 microseconds after [now]. *)
Definition armed (q : TimerQueue) (now : Z) : Prop :=
  match timers_ q with
  | [] => True
  | e :: _ => exists t d, heap q !! e.1 = Some t /\ timerfd q = Some d /\
      d <= Z.max (expiration t) (now + 100)
  end.

Lemma GetTimeFromNow_le time now : now + GetTimeFromNow time now <= Z.max time (now + 100).
Proof. unfold GetTimeFromNow. case_bool; lia. Qed.

Lemma armed_later q now now' : armed q now -> now <= now' -> armed q now'.
Proof.
  unfold armed. destruct (timers_ q) as [|e l]; [done|]. intros (t & d & E & F & Hd) Hle.
  exists t, d. split_and!; try done. lia.
Qed.

Lemma AddTimerInLoop_armed q p t now q' :
  heap q !! p = Some t -> armed q now -> AddTimerInLoop q p now = Some q' -> armed q' now.
Proof.
  intros Ep Har. unfold AddTimerInLoop, Emplace. rewrite Ep. cbn [mbind option_bind].
  unfold armed in Har. destruct (timers_ q) as [|e l] eqn:El.
  - cbn. rewrite Ep. intros [= <-]. unfold armed. cbn. exists t, (now + GetTimeFromNow (expiration t) now).
    split_and!; try done. apply GetTimeFromNow_le.
  - destruct Har as (te & d & Ete & Efd & Hd). rewrite Ete. cbn [mbind option_bind].
    destruct (set_emplace _ _ _) as [l'|] eqn:Es; [|done]. cbn [mbind option_bind].
    destruct (set_emplace_head _ (p, sequence t) _ _ _ t te Ep Ete Es) as (e' & l1 & -> & Hcase).
    destruct (Z.ltb_spec (expiration t) (expiration te)) as [L|L].
    + cbn. rewrite Ep. intros [= <-]. unfold armed. cbn.
      assert (e' = (p, sequence t)) as -> by (destruct Hcase as [[? _]|[_ ?]]; [done|lia]).
      exists t, (now + GetTimeFromNow (expiration t) now). split_and!; try done. apply GetTimeFromNow_le.
    + intros [= <-]. unfold armed. cbn. destruct Hcase as [[-> Hx]|[-> Hx]].
      * exists t, d. split_and!; try done. lia.
      * exists te, d. by split_and!.
Qed.

(** A new timer is not in the set. *)
Lemma new_Timer_armed q p cb time intv rep now q' :
  tq_wf q -> armed q now -> new_Timer q p cb time intv rep = Some q' -> armed q' now.
Proof.
  intros Hwf. unfold new_Timer, armed. destruct (heap q !! p) eqn:Ep; [done|]. intros Har [= <-]. cbn.
  pose proof (fresh_not_timer _ _ Hwf Ep) as Hn. destruct (timers_ q) as [|e l]; [done|].
  destruct Har as (t & d & Et & ? & ?). exists t, d. rewrite lookup_insert_ne; [done|].
  intros E. by eapply (not_in_fst_ne (e :: l)); [exact Hn|left|].
Qed.

Lemma AddTimer_armed q p cb time intv rep now id q' :
  tq_wf q -> armed q now -> AddTimer q p cb time intv rep now = Some (id, q') -> armed q' now.
Proof.
  intros Hwf Har. unfold AddTimer, make_TimerId. destruct (new_Timer _ _ _ _ _ _) as [q1|] eqn:E1; [|done].
  cbn [mbind option_bind]. destruct (AddTimerInLoop q1 p now) as [q2|] eqn:E2; [|done]. cbn [mbind option_bind].
  destruct (heap q2 !! p); [|done]. intros [= <- <-]. pose proof (new_Timer_armed _ _ _ _ _ _ _ _ Hwf Har E1) as Har1.
  unfold new_Timer in E1. destruct (heap q !! p); [done|]. injection E1 as <-.
  eapply AddTimerInLoop_armed; [|exact Har1|exact E2]. cbn. apply lookup_insert_eq.
Qed.

Lemma CancelTimer_armed q id now q' :
  tq_wf q -> valid_id q id -> armed q now -> CancelTimer bucket q id now = Some q' -> armed q' now.
Proof.
  intros Hwf Hv Har Ec. destruct (CancelTimer_spec q id now Hwf Hv) as (q1 & E1 & Hwf1 & Hh & _ & _ & Hm & _).
  rewrite Ec in E1. injection E1 as <-.
  assert (timerfd q' = timerfd q) as Hfd.
  { unfold CancelTimer in Ec. inv_monad. destruct o as [l|]; [done|]. by destruct (calling_timer_ q). }
  unfold armed in *. destruct (timers_ q') as [|e' l'] eqn:El'; [done|].
  destruct (Hm e') as [Hm' _]. destruct Hm' as [Hin _]; [left|].
  pose proof Hwf as [Ha Hs _ _]. destruct (timers_ q) as [|e l]; [by apply not_elem_of_nil in Hin|].
  destruct Har as (te & d & Ete & Efd & Hd). rewrite Forall_forall in Ha. destruct (Ha e' Hin) as (te' & Ete' & _).
  exists te', d. rewrite Hh, Hfd. split_and!; try done.
  apply elem_of_cons in Hin as [->|Hin]; [rewrite Ete in Ete'; injection Ete' as <-; done|].
  inversion Hs as [|? ? _ Hf]; subst. rewrite Forall_forall in Hf. specialize (Hf _ Hin).
  apply (elt_alive _ _ _ te te') in Hf; [lia|done|done].
Qed.

(** The state in which the callbacks run. *)
Definition calling_state (q : TimerQueue) (rest : list TimerEntry) : TimerQueue :=
  mkQueue (heap q) (s_counter_ q + 1) rest true [] None.

Lemma GetExpiredTimers_spec q now :
  tq_wf q -> s_counter_ q < UINT64_MAX ->
  exists a b, timers_ q = a ++ b /\
    GetExpiredTimers (with_fd q None) now =
      Some (map fst a, mkQueue (heap q) (s_counter_ q + 1) b (calling_timer_ q) (canceling_timers_ q) None) /\
    Forall (fun e => exists t, heap q !! e.1 = Some t /\ expiration t <= now) a /\
    Forall (fun e => exists t, heap q !! e.1 = Some t /\ now < expiration t) b /\
    tq_wf (calling_state q b) /\ detached (map fst a) (calling_state q b).
Proof.
  intros Hwf Hc. pose proof Hwf as [Ha Hs Hq Hi].
  destruct (set_lower_bound_spec (heap q) now (timers_ q)) as (a & b & E & El & H1 & H2); try done.
  { rewrite Forall_forall in *. intros e He. destruct (Ha e He) as (t & Et & <-).
    apply (map_Forall_lookup_1 _ _ _ _ Hq) in Et. lia. }
  exists a, b. unfold GetExpiredTimers. cbn. rewrite E. cbn [mbind option_bind]. split_and!; try done.
  - rewrite El in Ha, Hs. apply Forall_app in Ha as [Ha1 Ha2]. split; cbn; try done.
    + clear -Hs. induction a as [|x a IH]; [done|]. inversion Hs; subst. auto.
    + eapply map_Forall_impl; [exact Hq|]. cbn. lia.
  - assert (NoDup (map fst (a ++ b))) as Hnd.
    { rewrite <- El. clear -Ha Hs. induction Hs as [|x l Hs IH Hx]; cbn; [constructor|].
      inversion Ha as [|? ? (tx & Ex & Sx) Ha']; subst. constructor; [|by apply IH]. intros Hin.
      apply list_elem_of_In, in_map_iff in Hin as (y & Ey & Hy). apply list_elem_of_In in Hy.
      rewrite Forall_forall in Hx, Ha'. specialize (Hx y Hy). destruct (Ha' y Hy) as (ty & Ety & Sy).
      rewrite Ey, Ex in Ety. injection Ety as <-.
      apply (elt_alive _ x y tx tx) in Hx; [lia|done|by rewrite Ey]. }
    rewrite map_app in Hnd. apply NoDup_app in Hnd as (Hnd & Hdis & _). split; [done|].
    rewrite Forall_forall. intros p Hp. split; [|cbn; by apply Hdis].
    apply list_elem_of_In, in_map_iff in Hp as (e & <- & He). apply list_elem_of_In in He.
    rewrite Forall_forall in H1. destruct (H1 e He) as (t & Et & _). by exists t.
Qed.

(** The timers due at [now], and the others. *)
Definition splits (q : TimerQueue) (now : Z) (a b : list TimerEntry) : Prop :=
  timers_ q = a ++ b /\
  Forall (fun e => exists t, heap q !! e.1 = Some t /\ expiration t <= now) a /\
  Forall (fun e => exists t, heap q !! e.1 = Some t /\ now < expiration t) b.

Lemma Process_spec body q now now' :
  tq_wf q -> s_counter_ q < UINT64_MAX ->
  (forall a b, splits q now a b -> timers_ok body (calling_state q b) (map fst a)) ->
  exists a b q1 q', timers_ q = a ++ b /\
    ProcessAllExpiredTimers bucket body q now now' = Some (map fst a, q') /\
    Forall (fun e => exists t, heap q !! e.1 = Some t /\ expiration t <= now) a /\
    Forall (fun e => exists t, heap q !! e.1 = Some t /\ now < expiration t) b /\
    run_timers bucket body (calling_state q b) (map fst a) = Some q1 /\ tq_wf q' /\ armed q' now' /\
    calling_timer_ q' = false /\
    (forall e, e ∈ timers_ q' <-> e ∈ timers_ q1 \/
       exists t, e.1 ∈ map fst a /\ heap q !! e.1 = Some t /\ repeat_ t = true /\ e.2 = sequence t /\
         is_canceling bucket q1 e now' = false) /\
    (forall p t, p ∈ map fst a -> heap q !! p = Some t ->
       heap q' !! p = if repeat_ t then
                        if is_canceling bucket q1 (p, sequence t) now' then Some t
                        else Some (restart t now)
                      else None) /\
    (forall p, p ∉ map fst a -> heap q' !! p = heap q1 !! p) /\
    tq_wf (calling_state q b) /\ detached (map fst a) (calling_state q b).
Proof.
  intros Hwf Hc Hok. destruct (GetExpiredTimers_spec q now Hwf Hc) as (a & b & El & E1 & H1 & H2 & Hwf0 & Hd0).
  destruct (run_timers_spec body (calling_state q b) (map fst a) (map fst a)) as (q1 & E2 & Hwf1 & Hd1 & (K1 & _));
    [done|by apply (Hok a b); split_and!|done|done|].
  destruct (reset_loop_spec (with_calling q1 false) (map fst a) now now') as (q2 & E3 & Hwf2 & _ & B2 & _ & M2 & F2 & P2).
  { destruct Hwf1. by split. }
  { done. }
  unfold ProcessAllExpiredTimers. cbv zeta. rewrite E1. cbn [mbind option_bind].
  unfold with_canceling, with_calling. cbn. fold (calling_state q b). rewrite E2. cbn [mbind option_bind].
  unfold ResetTimers. unfold with_calling in E3. rewrite E3. cbn [mbind option_bind].
  assert (exists q', (match timers_ q2 with [] => Some q2 | e :: _ => t ← heap q2 !! e.1; Some (SetTimerFd q2 t now') end)
      = Some q' /\ tq_wf q' /\ armed q' now' /\ timers_ q' = timers_ q2 /\ heap q' = heap q2 /\
      calling_timer_ q' = calling_timer_ q2) as (q' & -> & Hwf' & Har & Ht & Hh & Hb).
  { destruct (timers_ q2) as [|e l] eqn:El2.
    - exists q2. split_and!; try done. unfold armed. by rewrite El2.
    - pose proof (wf_alive _ Hwf2) as Ha2. rewrite El2 in Ha2. apply Forall_cons in Ha2 as [(t & Et & _) _].
      rewrite Et. cbn [mbind option_bind]. eexists. split; [done|]. split_and!; try done.
      + by apply SetTimerFd_wf.
      + unfold armed. cbn. rewrite El2. exists t, (now' + GetTimeFromNow (expiration t) now').
        split_and!; try done. apply GetTimeFromNow_le. }
  cbn [mbind option_bind]. exists a, b, q1, q'. split_and!; try done.
  - by rewrite Hb, B2.
  - intros e. rewrite Ht, M2. cbn. split; (intros [?|(t & Hin & Et & Hr)]; [by left|right; exists t]);
      (split; [done|]; split; [|done]).
    + by rewrite K1 in Et.
    + by rewrite K1.
  - intros p t Hp Et. rewrite Hh. apply P2; [done|]. cbn. by rewrite K1.
  - intros p Hp. rewrite Hh. by apply F2.
Qed.

(** Timers that are not in the set are left alone. *)
Lemma Process_keeps body q E now now' :
  tq_wf q -> s_counter_ q < UINT64_MAX ->
  (forall a b, splits q now a b -> timers_ok body (calling_state q b) (map fst a)) ->
  detached E q ->
  exists ran q', ProcessAllExpiredTimers bucket body q now now' = Some (ran, q') /\ tq_wf q' /\ armed q' now' /\
    detached E q' /\ forall p, p ∈ E -> heap q' !! p = heap q !! p.
Proof.
  intros Hwf Hc Hok [Hnd Hd]. rewrite Forall_forall in Hd.
  destruct (Process_spec body q now now' Hwf Hc Hok)
    as (a & b & q1 & q' & El & Ep & Hdue & Hlater & Er & Hwf' & Har & _ & Hm & _ & Hf & Hwf0 & Hnd0 & Hd0).
  rewrite Forall_forall in Hd0.
  assert (forall p, p ∈ E -> (p ∉ map fst a) /\ (p ∉ map fst b)) as Hdis.
  { intros p Hp. destruct (Hd p Hp) as [_ Hn]. rewrite El, map_app, elem_of_app in Hn. tauto. }
  destruct (run_timers_spec body (calling_state q b) (map fst a ++ E) (map fst a)) as (q2 & Er2 & _ & [_ Hd2] & (K & _)).
  - done.
  - by apply (Hok a b); split_and!.
  - split; [apply NoDup_app; split_and!; try done; intros p H1 H2; by destruct (Hdis _ H2)|].
    apply Forall_app. rewrite !Forall_forall. split; [done|]. intros p Hp. cbn.
    split; [by apply Hd|by apply Hdis].
  - intros p Hp. apply elem_of_app. by left.
  - rewrite Er in Er2. injection Er2 as <-. rewrite Forall_forall in Hd2.
    assert (forall p, p ∈ E -> heap q' !! p = heap q !! p) as Hh.
    { intros p Hp. rewrite Hf by (by apply Hdis). apply (K p). apply elem_of_app. by right. }
    exists (map fst a), q'. split_and!; try done. split; [done|]. rewrite Forall_forall. intros p Hp. split.
    + rewrite Hh by done. by apply Hd.
    + intros Hin. apply list_elem_of_In, in_map_iff in Hin as (e & <- & He). apply list_elem_of_In, Hm in He.
      destruct He as [He|(t & Ht & _)]; [|by destruct (Hdis _ Hp)].
      destruct (Hd2 e.1) as [_ Hn]; [apply elem_of_app; by right|]. by apply (not_in_fst_ne _ _ _ Hn He).
Qed.

(** ** Runs of the queue *)

Inductive queue_op :=
  | OpAdd (p : ptr) (cb : nat) (time intv : Z) (rep : bool) (now : Z)
  | OpCancel (id : TimerEntry) (now : Z)
  | OpFire (body : nat -> list timer_action) (now now' : Z).

Definition op_time (o : queue_op) : Z :=
  match o with OpAdd _ _ _ _ _ now => now | OpCancel _ now => now | OpFire _ _ now' => now' end.

Definition run_op (q : TimerQueue) (o : queue_op) : option TimerQueue :=
  match o with
  | OpAdd p cb time intv rep now => '(_, q) ← AddTimer q p cb time intv rep now; Some q
  | OpCancel id now => CancelTimer bucket q id now
  | OpFire body now now' => '(_, q) ← ProcessAllExpiredTimers bucket body q now now'; Some q
  end.

Fixpoint run_ops (q : TimerQueue) (ops : list queue_op) : option TimerQueue :=
  match ops with
  | [] => Some q
  | o :: ops => q ← run_op q o; run_ops q ops
  end.

(** ** The handles of the callers

    What the users of the queue know: the handle of each timer they added and whether
    it repeats. They give up the handle of a one-shot timer when it has run, with the
    other timers that were due; they may keep those of cancelled timers. *)
Definition holds (G : handles) (id : TimerEntry) : Prop := exists rep, (id, rep) ∈ G.

(** [s_counter_] is the sequence number that [AddTimer] puts in the handle. *)
Definition act_handles (q : TimerQueue) (G : handles) (a : timer_action) : handles :=
  match a with
  | DoAdd p _ _ _ rep _ => ((p, s_counter_ q), rep) :: G
  | DoCancel _ _ => G
  end.

Fixpoint acts_handles (q : TimerQueue) (G : handles) (acts : list timer_action) : handles :=
  match acts with
  | [] => G
  | a :: acts =>
    match run_action bucket q a with
    | Some q' => acts_handles q' (act_handles q G a) acts
    | None => G
    end
  end.

Fixpoint timers_handles (body : nat -> list timer_action) (q : TimerQueue) (G : handles) (E : list ptr) : handles :=
  match E with
  | [] => G
  | p :: E =>
    match heap q !! p with
    | Some t =>
      match run_actions bucket q (body (callback_ t)) with
      | Some q' => timers_handles body q' (acts_handles q G (body (callback_ t))) E
      | None => G
      end
    | None => G
    end
  end.

Definition drop_handles (ran : list ptr) (G : handles) : handles :=
  filter (fun h => h.2 = true \/ h.1.1 ∉ ran) G.

(** The state in which the callbacks of an expiration run, with the timers due. *)
Definition callbacks_from (q : TimerQueue) (now : Z) : option (list ptr * TimerQueue) :=
  '(ran, q) ← GetExpiredTimers (with_fd q None) now;
  Some (ran, with_calling (with_canceling q []) true).

Definition op_handles (q : TimerQueue) (G : handles) (o : queue_op) : handles :=
  match o with
  | OpAdd p _ _ _ rep _ => ((p, s_counter_ q), rep) :: G
  | OpCancel _ _ => G
  | OpFire body now _ =>
    match callbacks_from q now with
    | Some (ran, q1) => drop_handles ran (timers_handles body q1 G ran)
    | None => G
    end
  end.

(** The rules of the callers: [new] gives a free address, and only timers whose
    handle is held are cancelled. *)
Definition act_legal (q : TimerQueue) (G : handles) (a : timer_action) : Prop :=
  match a with
  | DoAdd p _ _ _ _ _ => heap q !! p = None
  | DoCancel id _ => holds G id
  end.

Fixpoint acts_legal (q : TimerQueue) (G : handles) (acts : list timer_action) : Prop :=
  match acts with
  | [] => True
  | a :: acts => act_legal q G a /\
      forall q', run_action bucket q a = Some q' -> acts_legal q' (act_handles q G a) acts
  end.

Fixpoint timers_legal (body : nat -> list timer_action) (q : TimerQueue) (G : handles) (E : list ptr) : Prop :=
  match E with
  | [] => True
  | p :: E => forall t, heap q !! p = Some t ->
      acts_legal q G (body (callback_ t)) /\
      forall q', run_actions bucket q (body (callback_ t)) = Some q' ->
        timers_legal body q' (acts_handles q G (body (callback_ t))) E
  end.

Definition op_legal (q : TimerQueue) (G : handles) (o : queue_op) : Prop :=
  match o with
  | OpAdd p _ _ _ _ _ => heap q !! p = None
  | OpCancel id _ => holds G id
  | OpFire body now _ => s_counter_ q < UINT64_MAX /\
      forall ran q1, callbacks_from q now = Some (ran, q1) -> timers_legal body q1 G ran
  end.

(** Legal operations at times that do not go back from [now]. *)
Fixpoint ops_legal (q : TimerQueue) (G : handles) (now : Z) (ops : list queue_op) : Prop :=
  match ops with
  | [] => True
  | o :: ops => op_legal q G o /\ now <= op_time o /\
      forall q', run_op q o = Some q' -> ops_legal q' (op_handles q G o) (op_time o) ops
  end.

Fixpoint ops_handles (q : TimerQueue) (G : handles) (ops : list queue_op) : handles :=
  match ops with
  | [] => G
  | o :: ops => match run_op q o with Some q' => ops_handles q' (op_handles q G o) ops | None => G end
  end.

(** A handle that is held denotes its timer. *)
Definition held (G : handles) (q : TimerQueue) : Prop :=
  Forall (fun h => exists t, heap q !! h.1.1 = Some t /\ sequence t = h.1.2 /\ repeat_ t = h.2) G.

Lemma held_valid q G id : tq_wf q -> held G q -> holds G id -> valid_id q id.
Proof.
  intros Hwf Hh [rep Hin]. unfold held in Hh. rewrite Forall_forall in Hh. destruct (Hh _ Hin) as (t & Et & Es & _). cbn in Et, Es.
  split; [by eexists|]. intros p t' Et' Es'. eapply (wf_inj _ Hwf); [exact Et'|exact Et|congruence].
Qed.

Lemma held_frame G q q' :
  (forall p t, heap q !! p = Some t -> exists t', heap q' !! p = Some t' /\ sequence t' = sequence t /\ repeat_ t' = repeat_ t) ->
  held G q -> held G q'.
Proof.
  intros Hf Hh. eapply Forall_impl; [exact Hh|]. intros h (t & Et & Es & Er). destruct (Hf _ _ Et) as (t' & Et' & Es' & Er').
  exists t'. split_and!; [done|congruence|congruence].
Qed.

Lemma add_held q q' G p cb time intv rep now id :
  tq_wf q -> heap q !! p = None -> held G q -> AddTimer q p cb time intv rep now = Some (id, q') ->
  held (((p, s_counter_ q), rep) :: G) q'.
Proof.
  intros Hwf Hp Hh E. destruct (AddTimer_spec q p cb time intv rep now Hwf Hp) as (q1 & E1 & _ & _ & Hheap & _).
  rewrite E in E1. injection E1 as _ ->. constructor.
  - exists (mkTimer cb time intv rep (s_counter_ q)). rewrite Hheap. cbn. by rewrite lookup_insert_eq.
  - apply (held_frame G q); [|done]. intros p' t Et. exists t. split_and!; try done. rewrite Hheap.
    rewrite lookup_insert_ne; [done|]. intros ->. congruence.
Qed.

Lemma act_legal_spec q G a :
  tq_wf q -> held G q -> act_legal q G a ->
  action_ok q a /\ forall q', run_action bucket q a = Some q' -> held (act_handles q G a) q'.
Proof.
  intros Hwf Hh Ha. destruct a as [p cb time intv rep now|id now]; cbn [act_legal action_ok run_action act_handles] in *.
  - split; [done|]. intros q' E. destruct (AddTimer _ _ _ _ _ _ _) as [[id q1]|] eqn:E1; [|done]. injection E as <-.
    by eapply add_held.
  - pose proof (held_valid q G id Hwf Hh Ha) as Hv. split; [done|]. intros q' E.
    destruct (CancelTimer_spec q id now Hwf Hv) as (q1 & E1 & _ & Hheap & _). rewrite E in E1. injection E1 as <-.
    apply (held_frame G q); [|done]. intros p t Et. exists t. by rewrite Hheap.
Qed.

Lemma nil_detached q : detached [] q.
Proof. by split; constructor. Qed.

Lemma acts_legal_spec q G acts :
  tq_wf q -> held G q -> acts_legal q G acts ->
  acts_ok q acts /\ forall q', run_actions bucket q acts = Some q' -> held (acts_handles q G acts) q'.
Proof.
  revert q G. induction acts as [|a acts IH]; intros q G Hwf Hh Hl; [by split; [|intros q' [= <-]]|].
  destruct Hl as [Ha Hl]. destruct (act_legal_spec q G a Hwf Hh Ha) as [Hok Hheld].
  destruct (run_action_spec q a [] Hwf Hok (nil_detached q)) as (q1 & E1 & Hwf1 & _).
  destruct (IH q1 _ Hwf1 (Hheld _ E1) (Hl _ E1)) as [Hok1 Hheld1]. cbn [acts_ok run_actions acts_handles]. rewrite E1.
  split; [split; [done|by intros q' [= <-]]|done].
Qed.

Lemma timers_legal_spec body q G E :
  tq_wf q -> held G q -> timers_legal body q G E ->
  timers_ok body q E /\ forall q', run_timers bucket body q E = Some q' -> held (timers_handles body q G E) q'.
Proof.
  revert q G. induction E as [|p E IH]; intros q G Hwf Hh Hl; [by split; [|intros q' [= <-]]|].
  cbn [timers_ok run_timers timers_handles]. destruct (heap q !! p) as [t|] eqn:Et; [|by split].
  destruct (Hl t Et) as [Ha Hl']. destruct (acts_legal_spec q G _ Hwf Hh Ha) as [Hok Hheld].
  destruct (run_actions_spec q _ [] Hwf Hok (nil_detached q)) as (q1 & E1 & Hwf1 & _).
  destruct (IH q1 _ Hwf1 (Hheld _ E1) (Hl' _ E1)) as [Hok1 Hheld1]. cbn [mbind option_bind].
  rewrite E1. cbn [mbind option_bind]. split; [intros t' [= <-]; split; [done|]; rewrite E1; by intros q' [= <-]|done].
Qed.

Lemma callbacks_from_spec q now :
  tq_wf q -> s_counter_ q < UINT64_MAX ->
  exists a b, splits q now a b /\ callbacks_from q now = Some (map fst a, calling_state q b) /\ tq_wf (calling_state q b).
Proof.
  intros Hwf Hc. destruct (GetExpiredTimers_spec q now Hwf Hc) as (a & b & El & E & H1 & H2 & Hwf1 & _).
  exists a, b. unfold callbacks_from. rewrite E. done.
Qed.

(** Only one place splits the sorted set. *)
Lemma splits_unique q now a b a' b' : splits q now a b -> splits q now a' b' -> a' = a /\ b' = b.
Proof.
  intros (El & Ha & Hb) (El' & Ha' & Hb'). rewrite El in El'. clear El. revert a' El' Ha'.
  assert (forall (x : TimerEntry) (l l' : list TimerEntry), x ∈ l -> x ∈ l' ->
    Forall (fun e => exists t, heap q !! e.1 = Some t /\ expiration t <= now) l ->
    Forall (fun e => exists t, heap q !! e.1 = Some t /\ now < expiration t) l' -> False) as Hx.
  { intros x l l' H1 H2 F1 F2. rewrite Forall_forall in F1, F2. destruct (F1 x H1) as (t & Et & ?), (F2 x H2) as (t' & Et' & ?).
    rewrite Et in Et'. injection Et' as <-. lia. }
  induction a as [|x a IH]; intros [|y a'] El' Ha'; cbn in El'; [done| | |].
  - exfalso. subst b. eapply (Hx y (y :: a') (y :: a' ++ b')); [by left|by left|done|done].
  - exfalso. subst b'. eapply (Hx x (x :: a) (x :: a ++ b)); [by left|by left|done|done].
  - injection El' as <- El'. apply Forall_cons in Ha as [_ Ha]. apply Forall_cons in Ha' as [_ Ha'].
    destruct (IH Ha a' El' Ha') as [-> ->]. done.
Qed.

(** An expiration in which the callbacks keep the rules. *)
Lemma fire_legal_spec body q G now now' :
  tq_wf q -> held G q -> op_legal q G (OpFire body now now') ->
  (forall a b, splits q now a b -> timers_ok body (calling_state q b) (map fst a)) /\
  exists ran q', ProcessAllExpiredTimers bucket body q now now' = Some (ran, q') /\ tq_wf q' /\ armed q' now' /\
    held (op_handles q G (OpFire body now now')) q'.
Proof.
  intros Hwf Hh [Hc Hl]. destruct (callbacks_from_spec q now Hwf Hc) as (a & b & Hs & Ec & Hwf1).
  destruct (timers_legal_spec body (calling_state q b) G (map fst a)) as [Hok Hheld]; [done|exact Hh|by apply Hl|].
  assert (forall a b, splits q now a b -> timers_ok body (calling_state q b) (map fst a)) as Hall.
  { intros a' b' Hs'. by destruct (splits_unique _ _ _ _ _ _ Hs Hs') as [-> ->]. }
  split; [done|]. destruct (Process_spec body q now now' Hwf Hc Hall)
    as (a' & b' & q1 & q' & El & Ep & H1 & H2 & Er & Hwf' & Har & _ & _ & Hran & Hrest & _ & [_ Hd]).
  destruct (splits_unique q now a b a' b' Hs) as [-> ->]; [by split_and!|].
  exists (map fst a), q'. split_and!; try done. cbn [op_handles]. rewrite Ec.
  specialize (Hheld _ Er). unfold held, drop_handles in *. rewrite Forall_forall in Hheld |- *.
  intros h Hin. apply list_elem_of_filter in Hin as [Hkeep Hin]. destruct (Hheld _ Hin) as (t & Et & Es & Erep).
  destruct (decide (h.1.1 ∈ map fst a)) as [Hp|Hp].
  - destruct Hkeep as [Htrue|]; [|done].
    destruct (run_timers_spec body (calling_state q b) (map fst a) (map fst a)) as (q1' & Er' & _ & _ & K & _);
      [done|done| |done|]; [by destruct (GetExpiredTimers_spec q now Hwf Hc) as (a2 & b2 & El2 & _ & F1 & F2 & _ & Hd2);
        destruct (splits_unique q now a b a2 b2 Hs) as [-> ->]; [split_and!|]|].
    rewrite Er in Er'. injection Er' as <-. rewrite K in Et by done. cbn in Et.
    rewrite (Hran _ _ Hp Et), Erep, Htrue. destruct (is_canceling _ _ _ _); eexists; (split; [done|]); cbn; split; congruence.
  - exists t. rewrite Hrest by done. done.
Qed.

Lemma run_op_spec q G o now :
  tq_wf q -> held G q -> armed q now -> op_legal q G o -> now <= op_time o ->
  exists q', run_op q o = Some q' /\ tq_wf q' /\ held (op_handles q G o) q' /\ armed q' (op_time o).
Proof.
  intros Hwf Hh Har Hok Hle. pose proof (armed_later _ _ _ Har Hle) as Har'.
  destruct o as [p cb time intv rep t|id t|body t t']; cbn [run_op op_legal op_time] in *.
  - destruct (AddTimer_spec q p cb time intv rep t Hwf Hok) as (q' & E & Hwf' & _). rewrite E.
    cbn [mbind option_bind]. exists q'. split_and!; try done.
    + by eapply add_held.
    + exact (AddTimer_armed _ _ _ _ _ _ _ _ _ Hwf Har' E).
  - pose proof (held_valid q G id Hwf Hh Hok) as Hv.
    destruct (CancelTimer_spec q id t Hwf Hv) as (q' & E & Hwf' & Hheap & _). exists q'. split_and!; try done.
    + apply (held_frame G q); [|done]. intros p' t' Et. exists t'. by rewrite Hheap.
    + exact (CancelTimer_armed _ _ _ _ Hwf Hv Har' E).
  - destruct (fire_legal_spec body q G t t' Hwf Hh Hok) as (_ & ran & q' & E & Hwf' & Har2 & Hh').
    rewrite E. cbn [mbind option_bind]. by exists q'.
Qed.

Lemma run_ops_spec q G now ops :
  tq_wf q -> held G q -> armed q now -> ops_legal q G now ops ->
  exists q' now', run_ops q ops = Some q' /\ tq_wf q' /\ held (ops_handles q G ops) q' /\ armed q' now' /\ now <= now'.
Proof.
  revert q G now. induction ops as [|o ops IH]; intros q G now Hwf Hh Har Hok.
  { exists q, now. by split_and!. }
  destruct Hok as (Ho & Hle & Hok). destruct (run_op_spec q G o now Hwf Hh Har Ho Hle) as (q1 & E1 & Hwf1 & Hh1 & Har1).
  destruct (IH q1 _ _ Hwf1 Hh1 Har1 (Hok _ E1)) as (q2 & n2 & E2 & Hwf2 & Hh2 & Har2 & Hle2).
  exists q2, n2. cbn [run_ops ops_handles]. rewrite E1. cbn [mbind option_bind]. split_and!; try done. lia.
Qed.

(** ** Self-cancel *)

Lemma acts_cancel q acts E p s c q' :
  tq_wf q -> acts_ok q acts -> detached E q -> p ∈ E -> calling_timer_ q = true ->
  DoCancel (p, s) c ∈ acts -> run_actions bucket q acts = Some q' ->
  ((p, s), bucket (seconds c) (p, s)) ∈ canceling_timers_ q'.
Proof.
  revert q. induction acts as [|a acts IH]; intros q Hwf Hok Hd Hp Hc Hin Hr;
    [by apply not_elem_of_nil in Hin|].
  destruct Hok as [Ha Hok]. destruct (run_action_spec q a E Hwf Ha Hd) as (q1 & E1 & Hwf1 & Hd1 & K1).
  cbn [run_actions] in Hr. rewrite E1 in Hr. cbn [mbind option_bind] in Hr.
  destruct K1 as (_ & _ & Hc1 & _). apply elem_of_cons in Hin as [<-|Hin].
  - destruct (run_actions_spec q1 acts E Hwf1 (Hok _ E1) Hd1) as (q2 & E2 & _ & _ & _ & _ & _ & K2).
    rewrite Hr in E2. injection E2 as <-. apply K2.
    destruct (CancelTimer_spec q (p, s) c Hwf Ha) as (q1' & E1' & _ & _ & _ & _ & _ & _ & Hcc).
    cbn [run_action] in E1. rewrite E1 in E1'. injection E1' as <-. rewrite Hcc; [left|done|].
    destruct Hd as [_ Hd]. rewrite Forall_forall in Hd. destruct (Hd p Hp) as [_ Hn]. intros He.
    by apply (not_in_fst_ne _ _ _ Hn He).
  - apply (IH q1); try done; [by apply Hok|congruence].
Qed.

Lemma timers_cancel body q E0 E p t c q' :
  tq_wf q -> timers_ok body q E -> detached E0 q -> (forall p, p ∈ E -> p ∈ E0) ->
  calling_timer_ q = true -> p ∈ E -> heap q !! p = Some t ->
  DoCancel (p, sequence t) c ∈ body (callback_ t) -> run_timers bucket body q E = Some q' ->
  ((p, sequence t), bucket (seconds c) (p, sequence t)) ∈ canceling_timers_ q'.
Proof.
  revert q. induction E as [|p0 E IH]; intros q Hwf Hok Hd Hsub Hc Hp Et Hin Hr;
    [by apply not_elem_of_nil in Hp|].
  pose proof Hd as [_ Hd']. rewrite Forall_forall in Hd'.
  destruct (Hd' p0) as [[t0 Et0] _]; [apply Hsub; by left|]. destruct (Hok t0 Et0) as [Ha Hok'].
  destruct (run_actions_spec q (body (callback_ t0)) E0 Hwf Ha Hd) as (q1 & E1 & Hwf1 & Hd1 & K1).
  destruct (run_timers_spec body q1 E0 E Hwf1 (Hok' _ E1) Hd1) as (q2 & E2 & _ & _ & _ & _ & _ & K2);
    [intros p' Hp'; apply Hsub; by right|].
  cbn [run_timers] in Hr. rewrite Et0 in Hr. cbn [mbind option_bind] in Hr. rewrite E1 in Hr.
  cbn [mbind option_bind] in Hr. apply elem_of_cons in Hp as [->|Hp].
  - rewrite Hr in E2. injection E2 as <-. apply K2. rewrite Et in Et0. injection Et0 as <-.
    eapply acts_cancel; [exact Hwf|exact Ha|exact Hd| |exact Hc|exact Hin|exact E1]. apply Hsub. by left.
  - destruct K1 as (K1 & _ & C1 & _). apply (IH q1); try done.
    + by apply Hok'.
    + intros p' Hp'. apply Hsub. by right.
    + congruence.
    + rewrite K1; [done|]. apply Hsub. by right.
Qed.

End canceling.

(** ** Properties *)

Lemma empty_wf : tq_wf empty_queue.
Proof. split; [constructor|constructor|apply map_Forall_empty|]. intros p p' t t'. cbn. by rewrite lookup_empty. Qed.

(** C5 Any sequence of additions, cancellations and expirations, with callbacks
    that add and cancel timers, runs without following a dangling pointer, if the
    callers cancel only timers whose handle they hold: a handle that [AddTimer]
    returned is held until its timer, unless it repeats, has run. Every handle that is
    held denotes its timer; the set stays ordered by expiration and sequence, and
    whenever it is not empty the timerfd is armed to expire by the time the first timer
    is due (at least 100 microseconds ahead): no timer is forgotten. *)
Theorem timer_queue_safe (bucket : Z -> TimerEntry -> Z) (ops : list queue_op) (start : Z) :
  ops_legal bucket empty_queue [] start ops ->
  exists q now, run_ops bucket empty_queue ops = Some q /\ tq_wf q /\
    held (ops_handles bucket empty_queue [] ops) q /\ armed q now /\ start <= now.
Proof. apply run_ops_spec; [apply empty_wf|constructor|done]. Qed.

Lemma timers_ok_nil bucket q E : timers_ok bucket (fun _ => []) q E.
Proof.
  revert q. induction E as [|p E IH]; intros q; [done|]. cbn. intros t Et. split; [done|].
  intros q' [= <-]. apply IH.
Qed.

(** Two timers; the repeating one cancels the other while both are due, and the
    repeating one is cancelled later. *)
Definition demo_ops : list queue_op :=
  [OpAdd 1%positive 0%nat 4050 0 false 1000; OpAdd 2%positive 1%nat 4000 500 true 1200;
   OpFire (fun cb => if (cb =? 1)%nat then [DoCancel (1%positive, 0) 4110] else []) 4100 4150;
   OpCancel (2%positive, 1) 4200].

Lemma timer_queue_safe_witness :
  exists q now, run_ops (fun s _ => s) empty_queue demo_ops = Some q /\ tq_wf q /\
    held (ops_handles (fun s _ => s) empty_queue [] demo_ops) q /\ armed q now /\ 900 <= now.
Proof.
  apply timer_queue_safe. cbn [ops_legal demo_ops].
  split; [reflexivity|]. split; [cbn; lia|]. intros q1 E1. vm_compute in E1. injection E1 as <-.
  split; [reflexivity|]. split; [cbn; lia|]. intros q2 E2. vm_compute in E2. injection E2 as <-.
  split.
  { split; [reflexivity|]. intros ran q3 E3. vm_compute in E3. injection E3 as <- <-. cbn [timers_legal].
    intros t Et. vm_compute in Et. injection Et as <-. cbn [callback_]. split.
    { cbn [acts_legal Nat.eqb]. split; [|done]. exists false. cbn. by right; left. }
    intros q4 E4. vm_compute in E4. injection E4 as <-. intros t Et. vm_compute in Et. injection Et as <-. by split. }
  split; [cbn; lia|]. intros q3 E3. vm_compute in E3. injection E3 as <-.
  split; [exists true; vm_compute; left|]. split; [cbn; lia|]. done.
Defined.

(** C29 When the timerfd expires, exactly the timers that are due run, in the
    order of their expiration times and sequence numbers, each once. Afterwards
    the one-shot ones are deleted, the repeating ones are in the set again for
    [now] plus their interval unless they were cancelled, and nothing else
    changed but what the callbacks did. *)
Theorem process_runs_expired (bucket : Z -> TimerEntry -> Z) (body : nat -> list timer_action)
    (q : TimerQueue) (now now' : Z) :
  tq_wf q -> s_counter_ q < UINT64_MAX ->
  (forall a b, timers_ q = a ++ b -> timers_ok bucket body (calling_state q b) (map fst a)) ->
  exists a b q1 q', timers_ q = a ++ b /\
    ProcessAllExpiredTimers bucket body q now now' = Some (map fst a, q') /\
    Forall (fun e => exists t, heap q !! e.1 = Some t /\ expiration t <= now) a /\
    Forall (fun e => exists t, heap q !! e.1 = Some t /\ now < expiration t) b /\
    run_timers bucket body (calling_state q b) (map fst a) = Some q1 /\ tq_wf q' /\ armed q' now' /\
    calling_timer_ q' = false /\
    (forall e, e ∈ timers_ q' <-> e ∈ timers_ q1 \/
       exists t, e.1 ∈ map fst a /\ heap q !! e.1 = Some t /\ repeat_ t = true /\ e.2 = sequence t /\
         is_canceling bucket q1 e now' = false) /\
    (forall p t, p ∈ map fst a -> heap q !! p = Some t ->
       heap q' !! p = if repeat_ t then
                        if is_canceling bucket q1 (p, sequence t) now' then Some t
                        else Some (restart t now)
                      else None).
Proof.
  intros Hwf Hc Hok. destruct (Process_spec bucket body q now now' Hwf Hc (fun a b H => Hok a b (proj1 H))) as (a & b & q1 & q' & H).
  exists a, b, q1, q'. tauto.
Qed.

(** One repeating timer, due at 4000 microseconds. *)
Definition demo_queue : TimerQueue :=
  mkQueue {[ 2%positive := mkTimer 1%nat 4000 500 true 0 ]} 1 [(2%positive, 0)] false [] (Some 4000).

Lemma demo_queue_wf : tq_wf demo_queue.
Proof.
  split; cbn.
  - repeat constructor. by eexists.
  - repeat constructor.
  - intros p t. rewrite lookup_singleton_Some. by intros [<- <-].
  - intros p p' t t'. rewrite !lookup_singleton_Some. by intros [<- _] [<- _].
Qed.

Lemma process_runs_expired_witness :
  exists a b q1 q', timers_ demo_queue = a ++ b /\
    ProcessAllExpiredTimers (fun s _ => s) (fun _ => []) demo_queue 4100 4150 = Some (map fst a, q') /\
    Forall (fun e => exists t, heap demo_queue !! e.1 = Some t /\ expiration t <= 4100) a /\
    Forall (fun e => exists t, heap demo_queue !! e.1 = Some t /\ 4100 < expiration t) b /\
    run_timers (fun s _ => s) (fun _ => []) (calling_state demo_queue b) (map fst a) = Some q1 /\
    tq_wf q' /\ armed q' 4150 /\ calling_timer_ q' = false /\
    (forall e, e ∈ timers_ q' <-> e ∈ timers_ q1 \/
       exists t, e.1 ∈ map fst a /\ heap demo_queue !! e.1 = Some t /\ repeat_ t = true /\ e.2 = sequence t /\
         is_canceling (fun s _ => s) q1 e 4150 = false) /\
    (forall p t, p ∈ map fst a -> heap demo_queue !! p = Some t ->
       heap q' !! p = if repeat_ t then
                        if is_canceling (fun s _ => s) q1 (p, sequence t) 4150 then Some t
                        else Some (restart t 4100)
                      else None).
Proof.
  apply process_runs_expired; [apply demo_queue_wf|reflexivity|]. intros a b _. apply timers_ok_nil.
Defined.

(** A repeating timer whose callback cancels it does not run again, provided
    the second of the clock in which it was cancelled is the one in which the
    timers are reset. *)
Theorem self_cancel_stops (bucket : Z -> TimerEntry -> Z) (body : nat -> list timer_action)
    (q : TimerQueue) (p : ptr) (t : Timer) (c now now' : Z) :
  tq_wf q -> s_counter_ q < UINT64_MAX ->
  (forall a b, timers_ q = a ++ b -> timers_ok bucket body (calling_state q b) (map fst a)) ->
  (p, sequence t) ∈ timers_ q -> heap q !! p = Some t -> expiration t <= now ->
  DoCancel (p, sequence t) c ∈ body (callback_ t) -> seconds c = seconds now' ->
  exists E q', ProcessAllExpiredTimers bucket body q now now' = Some (E, q') /\ p ∈ E /\
    p ∉ map fst (timers_ q').
Proof.
  intros Hwf Hc Hok Hin Et Hexp Hact Hsec.
  destruct (Process_spec bucket body q now now' Hwf Hc (fun a b H => Hok a b (proj1 H)))
    as (a & b & q1 & q' & El & Ep & Ha & Hb & Er & Hwf' & _ & _ & Hm & _ & _ & Hwf0 & Hd0).
  assert (p ∈ map fst a) as Hpa.
  { rewrite El in Hin. apply elem_of_app in Hin as [Hin|Hin].
    - by apply list_elem_of_In, (in_map fst _ (p, sequence t)), list_elem_of_In.
    - rewrite Forall_forall in Hb. destruct (Hb _ Hin) as (t' & Et' & Hx). cbn in Et'.
      rewrite Et in Et'. injection Et' as <-. lia. }
  pose proof (timers_cancel bucket body (calling_state q b) (map fst a) (map fst a) p t c q1 Hwf0
    (Hok _ _ El) Hd0 (fun _ H => H) eq_refl Hpa Et Hact Er) as Hcan.
  destruct (run_timers_spec bucket body (calling_state q b) (map fst a) (map fst a) Hwf0 (Hok _ _ El) Hd0
    (fun _ H => H)) as (q1' & Er' & _ & [_ Hd1] & _). rewrite Er in Er'. injection Er' as <-.
  exists (map fst a), q'. split; [done|]. split; [done|]. intros Hout.
  apply list_elem_of_In, in_map_iff in Hout as ([p0 s] & Ee & He). cbn in Ee. subst p0.
  apply list_elem_of_In, Hm in He as [He|(t' & _ & Et' & _ & Es & Hnc)].
  - rewrite Forall_forall in Hd1. destruct (Hd1 p Hpa) as [_ Hn]. by apply (not_in_fst_ne _ _ _ Hn He).
  - cbn in Et', Es. rewrite Et in Et'. injection Et' as <-. subst s. unfold is_canceling in Hnc.
    apply not_true_iff_false in Hnc. apply Hnc. apply existsb_exists.
    exists ((p, sequence t), bucket (seconds c) (p, sequence t)).
    split; [by apply list_elem_of_In|]. apply bool_decide_eq_true. by rewrite Hsec.
Qed.

Definition demo_cancel (c : Z) (cb : nat) : list timer_action :=
  if (cb =? 1)%nat then [DoCancel (2%positive, 0) c] else [].

Lemma demo_cancel_ok bucket c a b :
  timers_ demo_queue = a ++ b -> timers_ok bucket (demo_cancel c) (calling_state demo_queue b) (map fst a).
Proof.
  intros E. destruct a as [|e [|? ?]]; [done| |discriminate E]. injection E as <- <-. cbn.
  intros t Et. injection Et as <-. cbn. split; [|done]. split; [|done]. split; [by eexists|].
  cbn. intros p t. rewrite lookup_singleton_Some. by intros [<- _].
Qed.

Lemma self_cancel_stops_witness :
  exists E q', ProcessAllExpiredTimers (fun s _ => s) (demo_cancel 4120) demo_queue 4100 4150 = Some (E, q') /\
    2%positive ∈ E /\ 2%positive ∉ map fst (timers_ q').
Proof.
  apply (self_cancel_stops (fun s _ => s) (demo_cancel 4120) demo_queue 2%positive (mkTimer 1%nat 4000 500 true 0) 4120);
    [apply demo_queue_wf|reflexivity|apply demo_cancel_ok|left|reflexivity|cbn; lia|left|reflexivity].
Defined.

(** ** Defects *)

(** The hash of [canceling_timers_] is seeded with the current second: a timer
    that cancels itself just before the second changes is started again. *)
Lemma self_cancel_lost :
  exists q', ProcessAllExpiredTimers (fun s _ => s) (demo_cancel 999999) demo_queue 999990 1000001
    = Some ([2%positive], q') /\ 2%positive ∈ map fst (timers_ q').
Proof. eexists. split; [vm_compute; reflexivity|]. left. Qed.

(** [CancelTimer] follows the pointer of its handle to compare expiration times:
    cancelling a one-shot timer that has run uses it after it was deleted, if
    any timer is left. *)
Lemma cancel_after_fire_dangling bucket q id now :
  tq_wf q -> timers_ q <> [] -> heap q !! id.1 = None -> CancelTimer bucket q id now = None.
Proof.
  intros [Ha _ _ _] Hne Hn. unfold CancelTimer. destruct (timers_ q) as [|e l]; [done|].
  apply Forall_cons in Ha as [(t & Et & _) _]. cbn [set_find_erase]. unfold entry_less. by rewrite Et, Hn.
Qed.

(** A cancelled timer is not deleted. *)
Lemma cancel_leaks :
  exists q, run_ops (fun s _ => s) empty_queue
      [OpAdd 1%positive 0%nat 5000 0 false 1000; OpCancel (1%positive, 0) 1100] = Some q /\
    timers_ q = [] /\ is_Some (heap q !! 1%positive).
Proof. eexists. split; [vm_compute; reflexivity|]. split; [done|]. by eexists. Qed.

(** Cancelling a timer that expired together with the one whose callback cancels
    it does not keep it from running. *)
Lemma cancel_same_batch_runs :
  exists q, ProcessAllExpiredTimers (fun s _ => s)
      (fun cb => if (cb =? 0)%nat then [DoCancel (2%positive, 1) 4110] else [])
      (mkQueue {[ 1%positive := mkTimer 0%nat 3000 0 false 0; 2%positive := mkTimer 1%nat 4000 0 false 1 ]} 2
         [(1%positive, 0); (2%positive, 1)] false [] (Some 3000)) 4100 4150
    = Some ([1%positive; 2%positive], q).
Proof. eexists. vm_compute. reflexivity. Qed.
