(* ===== verification/Poller.v ===== *)
(** * Channels and demultiplexers: kanon/linux/net/channel.{h,cc}, poller.cc,
    epoller.cc, kanon/net/poll/*.h

    A channel is a descriptor with the events it is interested in and the
    callbacks for those that occurred.  [Poller] keeps the array of [pollfd]s
    for poll(2), [Epoller] the kernel's table of epoll(7).  Both implement
    [PollerBase]; its contract is [implements_PollerBase], over the
    record of operations [demux].  Channels are pointers into a store. *)

From Stdlib Require Import ZArith Lia.
From stdpp Require Import gmap.
From S2P Require Import Prelude.

Definition cptr := positive.

(** ** Channel *)

Record Channel := mkChannel {
  fd_ : Z;
  events_ : Z;
  revents_ : Z;
  index_ : Z
}.

Definition make_Channel (fd : Z) : Channel := mkChannel fd 0 0 (-1).

Definition POLLIN : Z := 1.
Definition POLLPRI : Z := 2.
Definition POLLOUT : Z := 4.
Definition POLLERR : Z := 8.
Definition POLLHUP : Z := 16.
Definition POLLNVAL : Z := 32.
Definition POLLRDHUP : Z := 8192.

Definition ReadEvent : Z := Z.lor POLLIN POLLPRI.
Definition WriteEvent : Z := POLLOUT.
Definition NoneEvent : Z := 0.

Definition SetEvents (ch : Channel) (ev : Z) : Channel := mkChannel (fd_ ch) ev (revents_ ch) (index_ ch).
Definition SetRevents (ch : Channel) (ev : Z) : Channel := mkChannel (fd_ ch) (events_ ch) ev (index_ ch).
Definition SetIndex (ch : Channel) (i : Z) : Channel := mkChannel (fd_ ch) (events_ ch) (revents_ ch) i.

Definition IsReading (ch : Channel) : bool := negb (Z.land (events_ ch) ReadEvent =? 0).
Definition IsWriting (ch : Channel) : bool := negb (Z.land (events_ ch) WriteEvent =? 0).
Definition IsNoneEvent (ch : Channel) : bool := events_ ch =? NoneEvent.

(** The callbacks of a channel. *)
Inductive handler := OnClose | OnErr | OnRead | OnWrite.

(** [HandleEvents]: the callbacks called for the events that occurred, in
    order; [set] says which ones are registered. *)
Definition HandleEvents (revents : Z) (set : handler -> bool) : list handler :=
  let has ev := negb (Z.land revents ev =? 0) in
  let call (c : bool) h := if c && set h then [h] else [] in
  call (has POLLHUP && negb (has POLLIN)) OnClose ++
  call (has (Z.lor POLLERR POLLNVAL)) OnErr ++
  call (has (Z.lor (Z.lor POLLIN POLLPRI) POLLRDHUP)) OnRead ++
  call (has POLLOUT) OnWrite.

(** ** Poller *)

Record pollfd := mkPollfd { p_fd : Z; p_events : Z; p_revents : Z }.

Record Poller := mkPoller {
  chans : gmap cptr Channel;
  pollfds_ : list pollfd;
  channels_map_ : gmap Z cptr
}.

Definition i16 (z : Z) : Z := swrap 16 z.

Definition Poller_UpdateChannel (s : Poller) (c : cptr) : option Poller :=
  ch ← chans s !! c;
  match channels_map_ s !! fd_ ch with
  | None =>
    assert! (index_ ch =? -1);
    let fds := pollfds_ s ++ [mkPollfd (fd_ ch) (i16 (events_ ch)) 0] in
    Some (mkPoller (<[c := SetIndex ch (zlen fds - 1)]> (chans s)) fds
            (<[fd_ ch := c]> (channels_map_ s)))
  | Some c' =>
    assert! (bool_decide (c' = c));
    let index := index_ ch in
    assert! (negb (index =? -1) && (index <=? zlen (pollfds_ s)));
    now_pollfd ← (if 0 <=? index then pollfds_ s !! Z.to_nat index else None);
    assert! (p_fd now_pollfd =? fd_ ch);
    let fd := if IsNoneEvent ch then - p_fd now_pollfd - 1 else p_fd now_pollfd in
    Some (mkPoller (chans s) (<[Z.to_nat index := mkPollfd fd (i16 (events_ ch)) 0]> (pollfds_ s))
            (channels_map_ s))
  end.

Definition Poller_RemoveChannel (s : Poller) (c : cptr) : option Poller :=
  ch ← chans s !! c;
  match channels_map_ s !! fd_ ch with
  | None => Some s
  | Some c' =>
    channel ← chans s !! c';
    back ← last (pollfds_ s);
    if fd_ channel =? p_fd back then
      Some (mkPoller (chans s) (removelast (pollfds_ s)) (delete (fd_ ch) (channels_map_ s)))
    else
      let index := index_ ch in
      assert! (negb (index =? -1) && (index <? zlen (pollfds_ s)));
      let fds := removelast (<[Z.to_nat index := back]> (pollfds_ s)) in
      let back_fd := if p_fd back <? 0 then - p_fd back - 1 else p_fd back in
      b ← channels_map_ s !! back_fd;
      bch ← chans s !! b;
      Some (mkPoller (<[b := SetIndex bch index]> (chans s)) fds (delete (fd_ ch) (channels_map_ s)))
  end.

(** The loop of [Poll] over the array as poll(2) left it. *)
Fixpoint poll_loop (cs : gmap cptr Channel) (m : gmap Z cptr) (fds : list pollfd) (ev_num : Z)
  : option (gmap cptr Channel * list cptr) :=
  match fds with
  | [] => Some (cs, [])
  | p :: fds =>
    if ev_num =? 0 then Some (cs, []) else
    if 0 <? p_revents p then
      c ← m !! p_fd p;
      channel ← cs !! c;
      assert! (fd_ channel =? p_fd p);
      '(cs, active) ← poll_loop (<[c := SetRevents channel (p_revents p)]> cs) m fds (ev_num - 1);
      Some (cs, c :: active)
    else poll_loop cs m fds ev_num
  end.

(** [Poll]: [ret] is the result of poll(2), [revents] what it stored. *)
Definition Poller_Poll (s : Poller) (ret : Z) (revents : list Z) : option (Poller * list cptr) :=
  let fds := zip_with (fun p r => mkPollfd (p_fd p) (p_events p) r) (pollfds_ s) revents in
  if 0 <? ret then
    '(cs, active) ← poll_loop (chans s) (channels_map_ s) fds ret;
    Some (mkPoller cs fds (channels_map_ s), active)
  else Some (mkPoller (chans s) fds (channels_map_ s), []).

(** ** Epoller *)

Inductive epoll_op := EPOLL_CTL_ADD | EPOLL_CTL_MOD | EPOLL_CTL_DEL.

Definition EPOLLET : Z := 2 ^ 31.
Definition kNew : Z := -1.
Definition kAdded : Z := 1.

Record Epoller := mkEpoller {
  echans : gmap cptr Channel;
  is_et_mode_ : bool;
  ktable : gmap Z (Z * cptr);   (* the kernel's table: events and data.ptr *)
  events_size : Z
}.

(** epoll_ctl(2); a failure is fatal. *)
Definition epoll_ctl (t : gmap Z (Z * cptr)) (op : epoll_op) (fd : Z) (ev : Z * cptr)
  : option (gmap Z (Z * cptr)) :=
  match op, t !! fd with
  | EPOLL_CTL_ADD, None => Some (<[fd := ev]> t)
  | EPOLL_CTL_MOD, Some _ => Some (<[fd := ev]> t)
  | EPOLL_CTL_DEL, Some _ => Some (delete fd t)
  | _, _ => None
  end.

Definition UpdateEpollEvent (s : Epoller) (op : epoll_op) (c : cptr) (ch : Channel) : option Epoller :=
  let events := if negb (IsNoneEvent ch) && is_et_mode_ s then Z.lor (events_ ch) EPOLLET
                else events_ ch in
  t ← epoll_ctl (ktable s) op (fd_ ch) (events, c);
  Some (mkEpoller (echans s) (is_et_mode_ s) t (events_size s)).

Definition eset_index (s : Epoller) (c : cptr) (ch : Channel) (i : Z) : Epoller :=
  mkEpoller (<[c := SetIndex ch i]> (echans s)) (is_et_mode_ s) (ktable s) (events_size s).

Definition Epoller_UpdateChannel (s : Epoller) (c : cptr) : option Epoller :=
  ch ← echans s !! c;
  if index_ ch =? kNew then
    s ← UpdateEpollEvent s EPOLL_CTL_ADD c ch;
    Some (eset_index s c ch kAdded)
  else UpdateEpollEvent s EPOLL_CTL_MOD c ch.

Definition Epoller_RemoveChannel (s : Epoller) (c : cptr) : option Epoller :=
  ch ← echans s !! c;
  if index_ ch =? kAdded then
    s ← UpdateEpollEvent s EPOLL_CTL_DEL c ch;
    Some (eset_index s c ch kNew)
  else Some s.

Fixpoint FillActiveChannels (cs : gmap cptr Channel) (evs : list (Z * cptr))
  : option (gmap cptr Channel * list cptr) :=
  match evs with
  | [] => Some (cs, [])
  | (ev, c) :: evs =>
    channel ← cs !! c;
    assert! (negb (IsNoneEvent channel));
    '(cs, active) ← FillActiveChannels (<[c := SetRevents channel ev]> cs) evs;
    Some (cs, c :: active)
  end.

(** [Poll]: [evs] is what epoll_wait(2) stored; its array doubles when full. *)
Definition Epoller_Poll (s : Epoller) (evs : list (Z * cptr)) : option (Epoller * list cptr) :=
  if 0 <? zlen evs then
    assert! (zlen evs <=? events_size s);
    '(cs, active) ← FillActiveChannels (echans s) evs;
    let size := if events_size s =? zlen evs then Z.shiftl (zlen evs) 1 else events_size s in
    Some (mkEpoller cs (is_et_mode_ s) (ktable s) size, active)
  else Some (s, []).

(** ** The contract of [PollerBase] *)

(** The operations of a demultiplexer with state [S]. [watches s fd ev]: the
    system call of the next [Poll] asks for the events [ev] of [fd]. *)
Record demux (S : Type) := mkDemux {
  dm_chans : S -> gmap cptr Channel;
  dm_store : S -> gmap cptr Channel -> S;
  dm_update : S -> cptr -> option S;
  dm_remove : S -> cptr -> option S;
  dm_poll : S -> list (Z * Z) -> option (S * list cptr);
  dm_wf : S -> Prop;
  dm_added : S -> cptr -> Prop;     (* known to the demultiplexer *)
  dm_ready : S -> cptr -> Prop;     (* can be updated *)
  dm_watches : S -> Z -> Z -> Prop;
  dm_known : S -> Z -> Prop;        (* the kernel may report the descriptor *)
  dm_copes : S -> Z -> Prop;        (* a report for the descriptor can be handled *)
  dm_capacity : S -> Z
}.
Arguments dm_chans {_}. Arguments dm_store {_}. Arguments dm_update {_}. Arguments dm_remove {_}.
Arguments dm_poll {_}. Arguments dm_wf {_}. Arguments dm_added {_}. Arguments dm_ready {_}.
Arguments dm_watches {_}. Arguments dm_known {_}. Arguments dm_copes {_}. Arguments dm_capacity {_}.

Section contract.
Context {S : Type} (D : demux S).

(** A channel sets its events and calls [Update]. *)
Definition change_events (s : S) (c : cptr) (f : Z -> Z) : option S :=
  ch ← dm_chans D s !! c;
  dm_update D (dm_store D s (<[c := SetEvents ch (f (events_ ch))]> (dm_chans D s))) c.

Definition EnableReading (s : S) (c : cptr) : option S := change_events s c (fun e => Z.lor e ReadEvent).
Definition EnableWriting (s : S) (c : cptr) : option S := change_events s c (fun e => Z.lor e WriteEvent).
Definition DisableReading (s : S) (c : cptr) : option S :=
  change_events s c (fun e => Z.land e (Z.lnot ReadEvent)).
Definition DisableWriting (s : S) (c : cptr) : option S :=
  change_events s c (fun e => Z.land e (Z.lnot WriteEvent)).
Definition DisableAll (s : S) (c : cptr) : option S := change_events s c (fun _ => NoneEvent).
Definition Remove (s : S) (c : cptr) : option S := dm_remove D s c.

(** The other channels are as before, up to their place in the demultiplexer. *)
Definition others_same (s s' : S) (c : cptr) : Prop :=
  forall c' ch', c' <> c -> dm_chans D s !! c' = Some ch' ->
    exists i, dm_chans D s' !! c' = Some (SetIndex ch' i).

(** The events of a channel that is ready can be changed, those of any other cannot. *)
Definition update_law : Prop :=
  (forall s c ch ev, dm_wf D s -> dm_chans D s !! c = Some ch -> dm_ready D s c -> 0 <= ev < 8 ->
   exists s', change_events s c (fun _ => ev) = Some s' /\ dm_wf D s' /\ dm_added D s' c /\
     (ev <> 0 -> dm_ready D s' c) /\ others_same s s' c /\
     (exists i, dm_chans D s' !! c = Some (SetIndex (SetEvents ch ev) i)) /\
     (forall fd e, dm_watches D s' fd e <->
        (fd = fd_ ch /\ e = ev /\ ev <> 0) \/ (fd <> fd_ ch /\ dm_watches D s fd e))) /\
  (forall s c f, dm_wf D s -> ~ dm_ready D s c -> change_events s c f = None).

Definition remove_law : Prop :=
  forall s c ch, dm_wf D s -> dm_chans D s !! c = Some ch -> dm_added D s c ->
  exists s', Remove s c = Some s' /\ dm_wf D s' /\ ~ dm_added D s' c /\ others_same s s' c /\
    (forall fd e, dm_watches D s' fd e <-> fd <> fd_ ch /\ dm_watches D s fd e).

(** What poll(2) and epoll_wait(2) may report: some events of descriptors they know,
    each at most once. For a descriptor that is known without being watched these are
    POLLHUP and POLLERR. *)
Definition kernel_reports (s : S) (evs : list (Z * Z)) : Prop :=
  NoDup (map fst evs) /\ zlen evs <= dm_capacity D s /\
  Forall (fun x => 0 < x.2 < 2 ^ 15 /\ dm_known D s x.1) evs.

(** [Poll] handles a report it can cope with, and fails on any other. *)
Definition poll_law : Prop :=
  (forall s fd ev, dm_watches D s fd ev -> dm_known D s fd /\ dm_copes D s fd) /\
  (forall s evs, dm_wf D s -> kernel_reports s evs -> Forall (fun x => dm_copes D s x.1) evs ->
   exists s' active, dm_poll D s evs = Some (s', active) /\ dm_wf D s' /\
     (forall fd e, dm_watches D s' fd e <-> dm_watches D s fd e) /\
     length active = length evs /\
     (forall c, c ∈ active <-> exists fd r ch, (fd, r) ∈ evs /\ dm_added D s c /\
        dm_chans D s !! c = Some ch /\ fd_ ch = fd) /\
     (forall c fd r, c ∈ active -> (fd, r) ∈ evs ->
        (exists ch, dm_chans D s !! c = Some ch /\ fd_ ch = fd) ->
        exists ch', dm_chans D s' !! c = Some ch' /\ revents_ ch' = r /\ fd_ ch' = fd)) /\
  (forall s evs, dm_wf D s -> kernel_reports s evs -> Exists (fun x => ~ dm_copes D s x.1) evs -> dm_poll D s evs = None).

Definition implements_PollerBase : Prop := update_law /\ remove_law /\ poll_law.

End contract.

(** ** Epoller *)

Definition low31 (e : Z) : Z := Z.land e (Z.ones 31).

Lemma low31_id e : 0 <= e < 8 -> low31 e = e.
Proof. intros. unfold low31. rewrite Z.land_ones by lia. apply Z.mod_small. lia. Qed.

Lemma low31_et e : 0 <= e < 8 -> low31 (Z.lor e EPOLLET) = e.
Proof.
  intros. unfold low31. rewrite Z.land_lor_distr_l. change (Z.land EPOLLET (Z.ones 31)) with 0.
  rewrite Z.lor_0_r. by apply low31_id.
Qed.

Record epoller_wf (s : Epoller) : Prop := {
  ew_table : forall fd e c, ktable s !! fd = Some (e, c) ->
    exists ch, echans s !! c = Some ch /\ fd_ ch = fd /\ index_ ch = kAdded /\ low31 e = events_ ch;
  ew_added : forall c ch, echans s !! c = Some ch -> index_ ch = kAdded ->
    exists e, ktable s !! fd_ ch = Some (e, c);
  ew_index : forall c ch, echans s !! c = Some ch -> index_ ch = kAdded \/ index_ ch = kNew;
  ew_events : forall c ch, echans s !! c = Some ch -> 0 <= events_ ch < 8
}.

(** The descriptor of a new channel is not in use by another one. *)
Definition epoller_ready (s : Epoller) (c : cptr) : Prop :=
  exists ch, echans s !! c = Some ch /\
    (index_ ch = kAdded \/ (index_ ch = kNew /\ ktable s !! fd_ ch = None)).

Definition epoller_watches (s : Epoller) (fd ev : Z) : Prop :=
  exists e c, ktable s !! fd = Some (e, c) /\ low31 e = ev /\ ev <> 0.

Definition epoller_known (s : Epoller) (fd : Z) : Prop := is_Some (ktable s !! fd).

(** [FillActiveChannels] asserts that the channel has events. *)
Definition epoller_copes (s : Epoller) (fd : Z) : Prop := exists ev, epoller_watches s fd ev.

(** The data pointer that goes with an event is the one of the table. *)
Definition epoller_events (s : Epoller) (evs : list (Z * Z)) : list (Z * cptr) :=
  omap (fun x => '(_, c) ← ktable s !! x.1; Some (x.2, c)) evs.

Definition epoller_demux : demux Epoller := {|
  dm_chans := echans;
  dm_store s cs := mkEpoller cs (is_et_mode_ s) (ktable s) (events_size s);
  dm_update := Epoller_UpdateChannel;
  dm_remove := Epoller_RemoveChannel;
  dm_poll s evs := Epoller_Poll s (epoller_events s evs);
  dm_wf := epoller_wf;
  dm_added s c := exists ch, echans s !! c = Some ch /\ index_ ch = kAdded;
  dm_ready := epoller_ready;
  dm_watches := epoller_watches;
  dm_known := epoller_known;
  dm_copes := epoller_copes;
  dm_capacity := events_size
|}.

(** A table entry replaced: the channel [c] now has the events [ev]. *)
Lemma epoller_set s c ch ev e :
  epoller_wf s -> echans s !! c = Some ch -> 0 <= ev < 8 -> low31 e = ev ->
  (forall e' c', ktable s !! fd_ ch = Some (e', c') -> c' = c) ->
  epoller_wf (mkEpoller (<[c := SetIndex (SetEvents ch ev) kAdded]> (echans s)) (is_et_mode_ s)
                (<[fd_ ch := (e, c)]> (ktable s)) (events_size s)).
Proof.
  intros [T A I V] Ec Hev He Hu. split; cbn.
  - intros fd e0 c0. rewrite lookup_insert_Some. intros [[<- [= <- <-]]|[N E]].
    + eexists. rewrite lookup_insert_eq. by split_and!.
    + destruct (T _ _ _ E) as (ch0 & E0 & F0 & I0 & L0). exists ch0. split_and!; try done.
      rewrite lookup_insert_ne; [done|]. intros <-. congruence.
  - intros c0 ch0. rewrite lookup_insert_Some. intros [[<- <-]|[N E]]; cbn.
    + intros _. eexists. by rewrite lookup_insert_eq.
    + intros I0. destruct (A _ _ E I0) as (e0 & E0). exists e0. rewrite lookup_insert_ne; [done|].
      intros F. rewrite <- F in E0. apply Hu in E0. congruence.
  - intros c0 ch0. rewrite lookup_insert_Some. intros [[<- <-]|[N E]]; [by left|by eapply I].
  - intros c0 ch0. rewrite lookup_insert_Some. intros [[<- <-]|[N E]]; [done|by eapply V].
Qed.

Lemma epoller_not_ready s c f :
  epoller_wf s -> ~ epoller_ready s c -> change_events epoller_demux s c f = None.
Proof.
  intros [T A I V] Hr. unfold change_events. cbn. destruct (echans s !! c) as [ch|] eqn:Ec; [|done]. cbn [mbind option_bind].
  unfold Epoller_UpdateChannel. cbn. rewrite lookup_insert_eq. cbn [mbind option_bind SetEvents index_].
  destruct (I _ _ Ec) as [Hi|Hi]; [destruct Hr; exists ch; auto|]. rewrite Hi. unfold kNew. cbn.
  unfold UpdateEpollEvent, epoll_ctl. cbn [fd_ SetEvents ktable].
  destruct (ktable s !! fd_ ch) eqn:Et; [done|]. destruct Hr. exists ch. auto.
Qed.

Lemma epoller_update : update_law epoller_demux.
Proof.
  split; [|exact epoller_not_ready]. intros s c ch ev Hwf Ec Hr Hev. pose proof Hwf as [T A I V]. cbn in Ec.
  destruct Hr as (ch' & Ec' & Hr). rewrite Ec in Ec'. injection Ec' as <-.
  set (e := if negb (IsNoneEvent (SetEvents ch ev)) && is_et_mode_ s then Z.lor ev EPOLLET else ev).
  assert (low31 e = ev) as He by (unfold e; destruct (_ && _); [by apply low31_et|by apply low31_id]).
  assert (forall e' c', ktable s !! fd_ ch = Some (e', c') -> c' = c) as Hu.
  { intros e' c' E'. destruct Hr as [Hi|[_ Hn]]; [|congruence].
    destruct (A _ _ Ec Hi) as (e0 & E0). congruence. }
  set (s' := mkEpoller (<[c := SetIndex (SetEvents ch ev) kAdded]> (echans s)) (is_et_mode_ s)
                (<[fd_ ch := (e, c)]> (ktable s)) (events_size s)).
  assert (change_events epoller_demux s c (fun _ => ev) = Some s') as E.
  { unfold change_events. cbn. rewrite Ec. cbn [mbind option_bind]. unfold Epoller_UpdateChannel. cbn.
    rewrite lookup_insert_eq. cbn [mbind option_bind SetEvents index_]. unfold UpdateEpollEvent. cbn [fd_ SetEvents].
    fold e. destruct Hr as [Hi|[Hi Hn]]; rewrite Hi.
    - destruct (A _ _ Ec Hi) as (e0 & E0). unfold kNew, kAdded. cbn. rewrite E0. cbn.
      unfold s'. replace (SetIndex (SetEvents ch ev) kAdded) with (SetEvents ch ev); [done|].
      unfold SetIndex, SetEvents. cbn. by rewrite Hi.
    - unfold kNew. cbn. rewrite Hn. cbn. unfold eset_index. cbn. by rewrite insert_insert_eq. }
  exists s'. split; [done|]. split; [by apply epoller_set|]. cbn. rewrite lookup_insert_eq. split_and!.
  - eexists. split; [done|]. done.
  - intros _. eexists. cbn. rewrite lookup_insert_eq. split; [done|]. by left.
  - intros c' ch' N E'. exists (index_ ch'). cbn. rewrite lookup_insert_ne by done.
    cbn in E'. rewrite E'. by destruct ch'.
  - by eexists.
  - intros fd e'. unfold epoller_watches. cbn. destruct (decide (fd = fd_ ch)) as [->|N].
    + rewrite lookup_insert_eq. split.
      * intros (e0 & c0 & [= <- <-] & Hl & Hne). left. split_and!; congruence.
      * intros [(_ & -> & Hne)|[? _]]; [|done]. by exists e, c.
    + rewrite lookup_insert_ne by done. split; [intros H; by right|intros [[? _]|[_ H]]; done].
Qed.

Lemma epoller_remove : remove_law epoller_demux.
Proof.
  intros s c ch [T A I V] Ec (ch' & Ec' & Hi). cbn in Ec, Ec'. rewrite Ec in Ec'. injection Ec' as <-.
  destruct (A _ _ Ec Hi) as (e0 & E0).
  unfold Remove. cbn. unfold Epoller_RemoveChannel. rewrite Ec. cbn [mbind option_bind]. rewrite Hi.
  change (kAdded =? kAdded) with true. cbv iota. unfold UpdateEpollEvent, epoll_ctl. rewrite E0. cbn.
  eexists. split; [done|]. unfold eset_index. cbn. split_and!.
  - split; cbn.
    + intros fd e0' c0. rewrite lookup_delete_Some. intros [N E]. destruct (T _ _ _ E) as (ch0 & Ech & F0 & I0 & L0).
      exists ch0. split_and!; try done. rewrite lookup_insert_ne; [done|]. intros <-. congruence.
    + intros c0 ch0. rewrite lookup_insert_Some. intros [[<- <-]|[N E]]; [done|]. intros I0.
      destruct (A _ _ E I0) as (e1 & E1). exists e1. rewrite lookup_delete_ne; [done|]. intros F.
      rewrite <- F in E1. congruence.
    + intros c0 ch0. rewrite lookup_insert_Some. intros [[<- <-]|[N E]]; [by right|by eapply I].
    + intros c0 ch0. rewrite lookup_insert_Some. intros [[<- <-]|[N E]]; cbn; by eapply V.
  - intros (ch0 & E & I0). rewrite lookup_insert_eq in E. injection E as <-. done.
  - intros c' ch' N E'. exists (index_ ch'). cbn in *. rewrite lookup_insert_ne by done. rewrite E'. by destruct ch'.
  - intros fd e'. unfold epoller_watches. cbn. destruct (decide (fd = fd_ ch)) as [->|N].
    + rewrite lookup_delete_eq. naive_solver.
    + rewrite lookup_delete_ne by done. naive_solver.
Qed.

Lemma FillActiveChannels_spec cs evs :
  NoDup (map snd evs) ->
  Forall (fun x => exists ch, cs !! x.2 = Some ch /\ events_ ch <> 0) evs ->
  exists cs', FillActiveChannels cs evs = Some (cs', map snd evs) /\
    (forall c ch, c ∉ map snd evs -> cs' !! c = Some ch <-> cs !! c = Some ch) /\
    (forall r c ch, (r, c) ∈ evs -> cs !! c = Some ch -> cs' !! c = Some (SetRevents ch r)).
Proof.
  revert cs. induction evs as [|[r c] evs IH]; intros cs Hn Hf.
  { exists cs. split_and!; try done. intros r c ch Hin. by apply not_elem_of_nil in Hin. }
  cbn [map snd] in Hn. apply NoDup_cons in Hn as [Hc Hn]. apply Forall_cons in Hf as [(ch & Ec & Hne) Hf].
  cbn in Ec. cbn [FillActiveChannels]. rewrite Ec. cbn [mbind option_bind].
  rewrite check_bind_true by (unfold IsNoneEvent, NoneEvent; by rewrite (proj2 (Z.eqb_neq _ _))).
  destruct (IH (<[c := SetRevents ch r]> cs) Hn) as (cs' & -> & K1 & K2).
  { eapply Forall_impl; [exact Hf|]. cbn. intros x (ch' & E' & N'). destruct (decide (x.2 = c)) as [->|N].
    - rewrite lookup_insert_eq. eexists. split; [done|]. done.
    - exists ch'. by rewrite lookup_insert_ne. }
  cbn [mbind option_bind]. exists cs'. cbn [map snd]. split_and!; [done| |].
  - intros c0 ch0 Hn0. apply not_elem_of_cons in Hn0 as [N Hn0]. rewrite K1 by done. by rewrite lookup_insert_ne.
  - intros r0 c0 ch0 Hin E0. apply elem_of_cons in Hin as [[= -> ->]|Hin].
    + rewrite Ec in E0. injection E0 as <-. apply K1; [done|]. apply lookup_insert_eq.
    + apply K2; [done|]. rewrite lookup_insert_ne; [done|]. intros <-. apply Hc.
      by apply list_elem_of_In, (in_map snd _ (r0, c)), list_elem_of_In.
Qed.

(** The assertion [!channel->IsNoneEvent()]. *)
Lemma FillActiveChannels_idle cs evs :
  Exists (fun x => exists ch, cs !! x.2 = Some ch /\ events_ ch = 0) evs -> FillActiveChannels cs evs = None.
Proof.
  revert cs. induction evs as [|[r c] evs IH]; intros cs Hx; [by apply Exists_nil in Hx|]. cbn [FillActiveChannels].
  destruct (cs !! c) as [ch|] eqn:Ec; [|done]. cbn [mbind option_bind]. unfold IsNoneEvent, NoneEvent.
  destruct (Z.eqb_spec (events_ ch) 0) as [|N]; [done|]. rewrite check_bind_true by done.
  apply Exists_cons in Hx as [(ch' & E & Hz)|Hx]; [cbn in E; congruence|]. rewrite IH; [done|].
  eapply Exists_impl; [exact Hx|]. cbn. intros x (ch' & E & Hz). destruct (decide (x.2 = c)) as [Hc|Hc].
  - exists (SetRevents ch r). rewrite Hc, lookup_insert_eq. split; [done|]. cbn. congruence.
  - exists ch'. by rewrite lookup_insert_ne.
Qed.

Lemma epoller_events_spec s evs :
  epoller_wf s -> NoDup (map fst evs) -> Forall (fun x => epoller_known s x.1) evs ->
  length (epoller_events s evs) = length evs /\ NoDup (map snd (epoller_events s evs)) /\
  (forall r c, (r, c) ∈ epoller_events s evs <-> exists fd e, (fd, r) ∈ evs /\ ktable s !! fd = Some (e, c)).
Proof.
  intros Hwf Hn Hw. induction evs as [|[fd r] evs IH].
  { cbn. split_and!; [done|constructor|]. intros r c. split; [intros Hc; by apply not_elem_of_nil in Hc|].
    intros (fd & e & Hin & _). by apply not_elem_of_nil in Hin. }
  cbn [map fst] in Hn. apply NoDup_cons in Hn as [Hfd Hn].
  apply Forall_cons in Hw as [[[e c] Et] Hw]. cbn in Et.
  destruct (IH Hn Hw) as (Hl & Hnd & Hin). unfold epoller_events in *. cbn [omap list_omap fst snd].
  rewrite Et. cbn [mbind option_bind]. split_and!.
  - cbn. by rewrite Hl.
  - cbn. constructor; [|done]. intros Hc. apply list_elem_of_In, in_map_iff in Hc as ([r' c'] & E' & Hc).
    cbn in E'. subst c'. apply list_elem_of_In, Hin in Hc as (fd' & e' & Hin' & Et').
    destruct (ew_table _ Hwf _ _ _ Et) as (ch & Ech & F & _).
    destruct (ew_table _ Hwf _ _ _ Et') as (ch' & Ech' & F' & _). rewrite Ech in Ech'. injection Ech' as <-.
    apply Hfd. rewrite <- F, F'. by apply list_elem_of_In, (in_map fst _ (fd', r')), list_elem_of_In.
  - intros r0 c0. rewrite elem_of_cons, Hin. split.
    + intros [[= -> ->]|(fd' & e' & H1 & H2)]; [exists fd, e; split; [left|done]|].
      exists fd', e'. split; [by right|done].
    + intros (fd' & e' & H1 & H2). apply elem_of_cons in H1 as [[= -> ->]|H1]; [left; congruence|].
      right. by exists fd', e'.
Qed.

Lemma reports_known {S} (D : demux S) s evs : kernel_reports D s evs -> Forall (fun x => dm_known D s x.1) evs.
Proof. intros (_ & _ & Hev). eapply Forall_impl; [exact Hev|]. cbn. tauto. Qed.

Lemma epoller_poll_idle s evs :
  epoller_wf s -> kernel_reports epoller_demux s evs -> Exists (fun x => ~ epoller_copes s x.1) evs ->
  Epoller_Poll s (epoller_events s evs) = None.
Proof.
  intros Hwf Hk Hx. pose proof (reports_known _ _ _ Hk) as Hkn. destruct Hk as (Hnd & Hcap & _).
  destruct (epoller_events_spec s evs Hwf Hnd Hkn) as (Hl & _ & Hin). cbn in Hcap. unfold Epoller_Poll.
  assert (zlen (epoller_events s evs) = zlen evs) as Hz by (unfold zlen; by rewrite Hl). rewrite Hz.
  apply Exists_exists in Hx as ([fd r] & Hm & Hn). rewrite (proj2 (Z.ltb_lt _ _)).
  2:{ destruct evs; [by apply not_elem_of_nil in Hm|]. rewrite zlen_cons. pose proof (zlen_nonneg evs). lia. }
  rewrite check_bind_true by lia. rewrite FillActiveChannels_idle; [done|]. apply Exists_exists.
  rewrite Forall_forall in Hkn. destruct (Hkn _ Hm) as [[e c] Et]. cbn in Et, Hn. exists (r, c). split; [apply Hin; by exists fd, e|].
  destruct (ew_table _ Hwf _ _ _ Et) as (ch & Ech & _ & _ & Hlo). exists ch. split; [done|].
  destruct (decide (events_ ch = 0)) as [|N]; [done|]. destruct Hn. exists (events_ ch), e, c. by rewrite Hlo.
Qed.

Lemma epoller_poll : poll_law epoller_demux.
Proof.
  split; [intros s fd ev (e & c & Et & Hev); split; [by eexists|by exists ev, e, c]|]. split; [|exact epoller_poll_idle].
  intros s evs Hwf Hk Hw. pose proof (reports_known _ _ _ Hk) as Hkn. destruct Hk as (Hnd & Hcap & Hev).
  cbn in Hcap. cbn [dm_poll epoller_demux].
  destruct (epoller_events_spec s evs Hwf Hnd Hkn) as (Hl & Hnd' & Hin).
  set (l := epoller_events s evs) in *. assert (zlen l = zlen evs) as Hz by (unfold zlen; by rewrite Hl).
  assert (Forall (fun x => exists ch, echans s !! x.2 = Some ch /\ events_ ch <> 0) l) as Hf.
  { rewrite Forall_forall. intros [r c] Hx. apply Hin in Hx as (fd & e & Hx & Et).
    rewrite Forall_forall in Hw. destruct (Hw _ Hx) as (ev & e' & c' & Et' & Hlow & Hne). cbn in Et'.
    rewrite Et in Et'. injection Et' as <- <-. destruct (ew_table _ Hwf _ _ _ Et) as (ch & Ech & _ & _ & Hlo).
    exists ch. cbn. split; [done|]. congruence. }
  destruct (FillActiveChannels_spec (echans s) l Hnd' Hf) as (cs & Efill & K1 & K2).
  assert (forall c ch, echans s !! c = Some ch -> exists r, cs !! c = Some (SetRevents ch r)) as Kch.
  { intros c ch E. destruct (decide (c ∈ map snd l)) as [Hc|Hc].
    - apply list_elem_of_In, in_map_iff in Hc as ([r c'] & Ec & Hc). cbn in Ec. subst c'.
      exists r. apply K2; [by apply list_elem_of_In|done].
    - exists (revents_ ch). rewrite K1; [|done]. by destruct ch. }
  assert (forall c ch, cs !! c = Some ch -> exists ch0, echans s !! c = Some ch0 /\
      events_ ch0 = events_ ch /\ fd_ ch0 = fd_ ch /\ index_ ch0 = index_ ch) as Kback.
  { intros c ch E. destruct (decide (c ∈ map snd l)) as [Hc|Hc].
    - apply list_elem_of_In, in_map_iff in Hc as ([r c'] & Ec & Hc). cbn in Ec. subst c'.
      apply list_elem_of_In in Hc. rewrite Forall_forall in Hf. destruct (Hf _ Hc) as (ch0 & E0 & _). cbn in E0.
      rewrite (K2 _ _ _ Hc E0) in E. injection E as <-. by exists ch0.
    - apply K1 in E; [|done]. by exists ch. }
  assert (forall sz, epoller_wf (mkEpoller cs (is_et_mode_ s) (ktable s) sz)) as Hwf'.
  { intros sz. destruct Hwf as [T A I V]. split; cbn.
    - intros fd e c Et. destruct (T _ _ _ Et) as (ch & Ech & F & Ix & Lo). destruct (Kch _ _ Ech) as (r & E).
      exists (SetRevents ch r). by split_and!.
    - intros c ch E Ix. destruct (Kback _ _ E) as (ch0 & E0 & _ & F & Ix0). rewrite <- F.
      apply (A c ch0); [done|congruence].
    - intros c ch E. destruct (Kback _ _ E) as (ch0 & E0 & _ & _ & <-). by eapply I.
    - intros c ch E. destruct (Kback _ _ E) as (ch0 & E0 & <- & _ & _). by eapply V. }
  assert (forall c, c ∈ map snd l <-> exists fd r ch, (fd, r) ∈ evs /\
      (exists ch, echans s !! c = Some ch /\ index_ ch = kAdded) /\ echans s !! c = Some ch /\ fd_ ch = fd) as Hact.
  { intros c. split.
    - intros Hc. apply list_elem_of_In, in_map_iff in Hc as ([r c'] & Ec & Hc). cbn in Ec. subst c'.
      apply list_elem_of_In, Hin in Hc as (fd & e & Hx & Et).
      destruct (ew_table _ Hwf _ _ _ Et) as (ch & Ech & F & Ix & _). exists fd, r, ch. split_and!; try done.
      by exists ch.
    - intros (fd & r & ch & Hx & (ch' & E' & Ix) & E & F). rewrite E in E'. injection E' as <-.
      destruct (ew_added _ Hwf _ _ E Ix) as (e & Et). rewrite F in Et.
      apply list_elem_of_In, (in_map snd _ (r, c)), list_elem_of_In, Hin. by exists fd, e. }
  assert (forall c fd r, (fd, r) ∈ evs -> c ∈ map snd l -> (exists ch, echans s !! c = Some ch /\ fd_ ch = fd) ->
      exists ch', cs !! c = Some ch' /\ revents_ ch' = r /\ fd_ ch' = fd) as Hrev.
  { intros c fd r Hx Hc (ch & E & F). apply Hact in Hc as (fd' & r' & ch' & Hx' & (ch2 & E2 & Ix) & E' & F').
    rewrite E in E', E2. injection E' as <-. injection E2 as <-. destruct (ew_added _ Hwf _ _ E Ix) as (e & Et).
    exists (SetRevents ch r). rewrite (K2 r c ch); [done| |done]. apply Hin. exists fd, e. split; [done|by rewrite <- F]. }
  unfold Epoller_Poll. rewrite Hz. destruct (Z.ltb_spec 0 (zlen evs)) as [L|L].
  - rewrite check_bind_true by lia. rewrite Efill. cbn [mbind option_bind]. eexists _, _. split; [done|].
    split; [apply Hwf'|]. split; [done|]. split; [by rewrite length_map, Hl|]. split; [apply Hact|].
    intros c fd r Hc Hx He. by apply (Hrev c fd r).
  - assert (evs = []) as -> by (apply zlen_0_inv; pose proof (zlen_nonneg evs); lia).
    exists s, []. split; [done|]. split; [done|]. split; [done|]. split; [done|]. split.
    + intros c. split; [intros Hc; by apply not_elem_of_nil in Hc|]. intros (fd & r & ch & Hx & _). by apply not_elem_of_nil in Hx.
    + intros c fd r Hc. by apply not_elem_of_nil in Hc.
Qed.

(** ** Poller *)

Definition norm_fd (fd : Z) : Z := if fd <? 0 then - fd - 1 else fd.

(** The array and the map list the same channels; a channel's index is its
    place in the array. *)
Record poller_wf (s : Poller) : Prop := {
  pw_map : forall fd c, channels_map_ s !! fd = Some c ->
    exists ch i pf, chans s !! c = Some ch /\ fd_ ch = fd /\ index_ ch = Z.of_nat i /\
      pollfds_ s !! i = Some pf /\ p_events pf = events_ ch /\
      (p_fd pf = fd \/ (p_fd pf = - fd - 1 /\ events_ ch = 0));
  pw_fds : forall i pf, pollfds_ s !! i = Some pf ->
    exists c ch, channels_map_ s !! norm_fd (p_fd pf) = Some c /\ chans s !! c = Some ch /\
      index_ ch = Z.of_nat i;
  pw_chan : forall c ch, chans s !! c = Some ch -> 0 <= fd_ ch /\ 0 <= events_ ch < 8
}.

Definition poller_added (s : Poller) (c : cptr) : Prop :=
  exists ch, chans s !! c = Some ch /\ channels_map_ s !! fd_ ch = Some c.

(** A channel that was never added, or whose entry is not disabled. *)
Definition poller_ready (s : Poller) (c : cptr) : Prop :=
  exists ch, chans s !! c = Some ch /\
    ((channels_map_ s !! fd_ ch = None /\ index_ ch = -1) \/
     (channels_map_ s !! fd_ ch = Some c /\
      exists i pf, index_ ch = Z.of_nat i /\ pollfds_ s !! i = Some pf /\ p_fd pf = fd_ ch)).

(** poll(2) ignores negative descriptors. *)
Definition poller_watches (s : Poller) (fd ev : Z) : Prop :=
  exists p, p ∈ pollfds_ s /\ p_fd p = fd /\ 0 <= fd /\ p_events p = ev /\ ev <> 0.

(** A report for an entry without events is handled. *)
Definition poller_known (s : Poller) (fd : Z) : Prop := 0 <= fd /\ exists p, p ∈ pollfds_ s /\ p_fd p = fd.

Definition revents_of (evs : list (Z * Z)) (fd : Z) : Z :=
  match find (fun x => x.1 =? fd) evs with Some x => x.2 | None => 0 end.

Definition poller_demux : demux Poller := {|
  dm_chans := chans;
  dm_store s cs := mkPoller cs (pollfds_ s) (channels_map_ s);
  dm_update := Poller_UpdateChannel;
  dm_remove := Poller_RemoveChannel;
  dm_poll s evs := Poller_Poll s (zlen evs) (map (fun p => revents_of evs (p_fd p)) (pollfds_ s));
  dm_wf := poller_wf;
  dm_added := poller_added;
  dm_ready := poller_ready;
  dm_watches := poller_watches;
  dm_known := poller_known;
  dm_copes _ _ := True;
  dm_capacity s := zlen (pollfds_ s)
|}.

Lemma norm_fd_nonneg fd : 0 <= fd -> norm_fd fd = fd.
Proof. intros. unfold norm_fd. by rewrite (proj2 (Z.ltb_ge _ _)). Qed.

Lemma norm_fd_flip fd : 0 <= fd -> norm_fd (- fd - 1) = fd.
Proof. intros. unfold norm_fd. rewrite (proj2 (Z.ltb_lt _ _)) by lia. lia. Qed.

(** The entry of a channel stands for its descriptor. *)
Lemma entry_norm s fd c :
  poller_wf s -> channels_map_ s !! fd = Some c ->
  exists ch i pf, chans s !! c = Some ch /\ fd_ ch = fd /\ index_ ch = Z.of_nat i /\
    pollfds_ s !! i = Some pf /\ p_events pf = events_ ch /\ norm_fd (p_fd pf) = fd.
Proof.
  intros Hwf Em. destruct (pw_map _ Hwf _ _ Em) as (ch & i & pf & Ec & F & Ix & Ef & Ev & Hfd).
  exists ch, i, pf. split_and!; try done. destruct (pw_chan _ Hwf _ _ Ec) as [Hn _].
  destruct Hfd as [->|[-> _]]; [apply norm_fd_nonneg|apply norm_fd_flip]; lia.
Qed.

(** Two channels do not share an entry. *)
Lemma index_inj s fd fd' c c' ch ch' :
  poller_wf s -> channels_map_ s !! fd = Some c -> channels_map_ s !! fd' = Some c' ->
  chans s !! c = Some ch -> chans s !! c' = Some ch' -> index_ ch = index_ ch' -> fd = fd'.
Proof.
  intros Hwf E E' Ec Ec' Ix. destruct (entry_norm _ _ _ Hwf E) as (ch1 & i & pf & E1 & _ & I1 & P1 & _ & N1).
  destruct (entry_norm _ _ _ Hwf E') as (ch2 & j & pf' & E2 & _ & I2 & P2 & _ & N2).
  rewrite Ec in E1. injection E1 as <-. rewrite Ec' in E2. injection E2 as <-.
  assert (i = j) as <- by lia. rewrite P1 in P2. injection P2 as <-. congruence.
Qed.

Lemma poller_watches_iff s fd ev :
  poller_wf s ->
  poller_watches s fd ev <->
  exists c ch, channels_map_ s !! fd = Some c /\ chans s !! c = Some ch /\ events_ ch = ev /\ ev <> 0.
Proof.
  intros Hwf. split.
  - intros (p & Hp & F & Hn & Ev & Hne). apply list_elem_of_lookup in Hp as (i & Hi).
    destruct (pw_fds _ Hwf _ _ Hi) as (c & ch & Em & Ec & Ix). rewrite F, norm_fd_nonneg in Em by done.
    exists c, ch. split_and!; try done. destruct (pw_map _ Hwf _ _ Em) as (ch' & j & pf & Ec' & _ & Jx & Ef & Ev' & _).
    rewrite Ec in Ec'. injection Ec' as <-. assert (i = j) as <- by lia. rewrite Hi in Ef. injection Ef as <-.
    congruence.
  - intros (c & ch & Em & Ec & Ev & Hne). destruct (pw_map _ Hwf _ _ Em) as (ch' & j & pf & Ec' & F & Jx & Ef & Ev' & Hfd).
    rewrite Ec in Ec'. injection Ec' as <-. destruct (pw_chan _ Hwf _ _ Ec) as [Hn _]. exists pf.
    split; [by apply list_elem_of_lookup; exists j|]. destruct Hfd as [Hfd|[_ ?]]; [|congruence].
    split_and!; try done; [lia|congruence].
Qed.

Lemma i16_small e : 0 <= e < 8 -> i16 e = e.
Proof. intros. unfold i16, swrap, wrap. cbv zeta. rewrite Z.mod_small; lia. Qed.

(** A new channel goes to the end. *)
Lemma poller_add_wf s c ch ev :
  poller_wf s -> chans s !! c = Some ch -> channels_map_ s !! fd_ ch = None -> 0 <= ev < 8 ->
  poller_wf (mkPoller (<[c := SetIndex (SetEvents ch ev) (zlen (pollfds_ s))]> (chans s))
    (pollfds_ s ++ [mkPollfd (fd_ ch) ev 0]) (<[fd_ ch := c]> (channels_map_ s))).
Proof.
  intros Hwf Ec Em Hev. pose proof Hwf as [M F V].
  assert (forall fd' c', channels_map_ s !! fd' = Some c' -> c' <> c) as Hne.
  { intros fd' c' E' ->. destruct (M _ _ E') as (ch' & i & pf & Ec' & F' & _). congruence. }
  split; cbn.
  - intros fd' c'. rewrite lookup_insert_Some. intros [[<- <-]|[N E]].
    + eexists _, (length (pollfds_ s)), _. rewrite lookup_insert_eq. split_and!; try done.
      * by rewrite lookup_app_r, Nat.sub_diag by lia.
      * done.
      * by left.
    + destruct (M _ _ E) as (ch' & i & pf & Ec' & F' & Ix & Ef & Ev & Hfd). exists ch', i, pf.
      rewrite lookup_insert_ne by (intros <-; by eapply Hne). split_and!; try done.
      by apply lookup_app_l_Some.
  - intros i pf E. apply lookup_app_Some in E as [E|[Hi E]].
    + destruct (F _ _ E) as (c' & ch' & Em' & Ec' & Ix). exists c', ch'. split_and!; try done.
      * rewrite lookup_insert_ne; [done|]. intros Heq. rewrite <- Heq in Em'. congruence.
      * rewrite lookup_insert_ne; [done|]. intros <-. by eapply Hne.
    + apply list_lookup_singleton_Some in E as [Hz <-]. cbn. destruct (V _ _ Ec) as [Hn _].
      exists c. eexists. rewrite norm_fd_nonneg, !lookup_insert_eq by done. split_and!; try done. cbn.
      unfold zlen. lia.
  - intros c' ch'. rewrite lookup_insert_Some. intros [[<- <-]|[N E]]; [|by apply (V c')]. cbn.
    destruct (V _ _ Ec) as [Hn _]. done.
Qed.

(** The entry of a channel is rewritten. *)
Lemma poller_mod_wf s c ch ev i fd' r :
  poller_wf s -> chans s !! c = Some ch -> channels_map_ s !! fd_ ch = Some c -> 0 <= ev < 8 ->
  index_ ch = Z.of_nat i -> (fd' = fd_ ch \/ (fd' = - fd_ ch - 1 /\ ev = 0)) ->
  poller_wf (mkPoller (<[c := SetEvents ch ev]> (chans s)) (<[i := mkPollfd fd' ev r]> (pollfds_ s))
    (channels_map_ s)).
Proof.
  intros Hwf Ec Em Hev Hi Hfd'. pose proof Hwf as [M F V].
  destruct (M _ _ Em) as (ch1 & i1 & pf1 & Ec1 & _ & Ix1 & Ef1 & _ & _).
  rewrite Ec in Ec1. injection Ec1 as <-. assert (i1 = i) as -> by lia. clear Ix1.
  assert (i < length (pollfds_ s))%nat as Hlt by (by eapply lookup_lt_Some).
  assert (norm_fd fd' = fd_ ch) as Hnorm.
  { destruct (V _ _ Ec) as [Hn _]. destruct Hfd' as [->|[-> _]]; [by apply norm_fd_nonneg|by apply norm_fd_flip]. }
  split; cbn.
  - intros fd0 c0 E0. destruct (decide (c0 = c)) as [->|N].
    + destruct (M _ _ E0) as (ch0 & _ & _ & Ec0 & F0 & _). rewrite Ec in Ec0. injection Ec0 as <-. subst fd0.
      eexists _, i, _. rewrite lookup_insert_eq, list_lookup_insert_eq by done. by split_and!.
    + destruct (M _ _ E0) as (ch0 & i0 & pf0 & Ec0 & F0 & Ix0 & Ef0 & Ev0 & Hfd0). exists ch0, i0, pf0.
      rewrite lookup_insert_ne by done. split_and!; try done. rewrite list_lookup_insert_ne; [done|].
      intros <-. apply N. assert (fd_ ch = fd0) as E1 by (eapply (index_inj s); eauto; lia). congruence.
  - intros j pf E. apply list_lookup_insert_Some in E as [(<- & <- & _)|[N E]].
    + exists c. eexists. cbn. rewrite Hnorm, lookup_insert_eq. split_and!; try done.
    + destruct (F _ _ E) as (c0 & ch0 & Em0 & Ec0 & Ix0). exists c0. destruct (decide (c0 = c)) as [->|N0].
      * rewrite Ec in Ec0. injection Ec0 as <-. lia.
      * exists ch0. by rewrite lookup_insert_ne.
  - intros c' ch'. rewrite lookup_insert_Some. intros [[<- <-]|[N E]]; [|by apply (V c')]. cbn.
    destruct (V _ _ Ec) as [Hn _]. done.
Qed.

Lemma poller_not_ready s c f :
  poller_wf s -> ~ poller_ready s c -> change_events poller_demux s c f = None.
Proof.
  intros Hwf Hr. unfold change_events. cbn. destruct (chans s !! c) as [ch|] eqn:Ec; [|done]. cbn [mbind option_bind].
  unfold Poller_UpdateChannel. cbn. rewrite lookup_insert_eq. cbn [mbind option_bind SetEvents index_ fd_].
  destruct (channels_map_ s !! fd_ ch) as [c'|] eqn:Em.
  - case_bool_decide as Hc; [|done]. subst c'. rewrite check_bind_true by done.
    destruct (pw_map _ Hwf _ _ Em) as (ch' & i & pf & Ec' & _ & Hi & Ef & _). rewrite Ec in Ec'. injection Ec' as <-.
    pose proof (lookup_lt_Some _ _ _ Ef) as Hlt. rewrite Hi.
    rewrite check_bind_true by (unfold zlen; apply andb_true_iff; split; [apply negb_true_iff|]; lia).
    rewrite (proj2 (Z.leb_le _ _)) by lia. rewrite Nat2Z.id, Ef. cbn [mbind option_bind].
    destruct (Z.eqb_spec (p_fd pf) (fd_ ch)) as [Hp|Hp]; [|done]. destruct Hr. exists ch. split; [done|]. right. split; [done|].
    by exists i, pf.
  - destruct (Z.eqb_spec (index_ ch) (-1)) as [Hi|Hi]; [|done]. destruct Hr. exists ch. auto.
Qed.

Lemma poller_update : update_law poller_demux.
Proof.
  split; [|exact poller_not_ready]. intros s c ch ev Hwf Ec Hr Hev. cbn in Ec. pose proof Hwf as [M F V].
  destruct Hr as (ch' & Ec' & Hr). rewrite Ec in Ec'. injection Ec' as <-.
  destruct (V _ _ Ec) as [Hfd0 _].
  assert (exists s', change_events poller_demux s c (fun _ => ev) = Some s' /\ poller_wf s' /\
      channels_map_ s' = <[fd_ ch := c]> (channels_map_ s) /\
      (exists i, chans s' = <[c := SetIndex (SetEvents ch ev) i]> (chans s)) /\
      (ev <> 0 -> poller_ready s' c)) as (s' & E & Hwf' & Hm & (i & Hc) & Hrd).
  { unfold change_events. cbn. rewrite Ec. cbn [mbind option_bind]. unfold Poller_UpdateChannel. cbn.
    rewrite lookup_insert_eq. cbn [mbind option_bind fd_ SetEvents index_ events_].
    destruct Hr as [[Em Hi]|[Em (i & pf & Hi & Ef & Hpf)]]; rewrite Em.
    - rewrite Hi. rewrite check_bind_true by done. rewrite i16_small by done. rewrite zlen_app, zlen_cons, zlen_nil.
      eexists. split; [done|]. rewrite insert_insert_eq. replace (zlen (pollfds_ s) + (0 + 1) - 1) with (zlen (pollfds_ s)) by lia.
      split; [by apply poller_add_wf|]. cbn. split; [done|]. split; [by eexists|]. intros _.
      eexists. cbn. rewrite lookup_insert_eq. split; [done|]. right. cbn. rewrite lookup_insert_eq. split; [done|].
      exists (length (pollfds_ s)). eexists. split; [done|]. by rewrite lookup_app_r, Nat.sub_diag by lia.
    - pose proof (lookup_lt_Some _ _ _ Ef) as Hlt.
      rewrite check_bind_true by (by rewrite bool_decide_eq_true). rewrite Hi.
      rewrite check_bind_true by (unfold zlen; apply andb_true_iff; split; [apply negb_true_iff|]; lia).
      rewrite (proj2 (Z.leb_le _ _)) by lia. rewrite Nat2Z.id, Ef. cbn [mbind option_bind]. rewrite Hpf.
      rewrite check_bind_true by lia. rewrite i16_small by done. unfold IsNoneEvent, NoneEvent. cbn [events_ SetEvents].
      eexists. split; [done|].
      assert (SetEvents ch ev = SetIndex (SetEvents ch ev) (index_ ch)) as Heta by done.
      split; [apply poller_mod_wf; try done; case_bool; auto|]. cbn. rewrite insert_id by done. split; [done|].
      split; [eexists; by rewrite <- Heta|]. intros Hne. eexists. cbn. rewrite lookup_insert_eq. split; [done|].
      right. split; [done|]. exists i. eexists. split; [done|]. rewrite list_lookup_insert_eq by done. split; [done|].
      cbn. by rewrite (proj2 (Z.eqb_neq _ _)). }
  exists s'. split; [done|]. split; [done|]. split; [|split; [done|]; split; [|split]].
  - eexists. rewrite Hc, lookup_insert_eq. split; [done|]. cbn. by rewrite Hm, lookup_insert_eq.
  - intros c' ch' N E'. exists (index_ ch'). cbn in *. rewrite Hc, lookup_insert_ne by done. rewrite E'. by destruct ch'.
  - exists i. cbn. by rewrite Hc, lookup_insert_eq.
  - intros fd e. cbn. rewrite !poller_watches_iff by done. rewrite Hm, Hc. split.
    + intros (c0 & ch0 & Em0 & Ec0 & Ev0 & Hne). apply lookup_insert_Some in Em0 as [[<- <-]|[N Em0]].
      * rewrite lookup_insert_eq in Ec0. injection Ec0 as <-. left. cbn in Ev0. split_and!; congruence.
      * right. split; [done|]. exists c0. assert (c0 <> c) as Nc.
        { intros ->. destruct (M _ _ Em0) as (ch1 & _ & _ & E1 & F1 & _). congruence. }
        rewrite lookup_insert_ne in Ec0 by done. by exists ch0.
    + intros [(-> & -> & Hne)|[N (c0 & ch0 & Em0 & Ec0 & Ev0 & Hne)]].
      * exists c. eexists. rewrite !lookup_insert_eq. by split_and!.
      * exists c0, ch0. rewrite lookup_insert_ne by done. assert (c0 <> c) as Nc.
        { intros ->. destruct (M _ _ Em0) as (ch1 & _ & _ & E1 & F1 & _). congruence. }
        by rewrite lookup_insert_ne.
Qed.

(** Removing the channel of the last entry. *)
Lemma poller_pop_wf s c ch i :
  poller_wf s -> chans s !! c = Some ch -> channels_map_ s !! fd_ ch = Some c ->
  index_ ch = Z.of_nat i -> S i = length (pollfds_ s) ->
  poller_wf (mkPoller (chans s) (take i (pollfds_ s)) (delete (fd_ ch) (channels_map_ s))).
Proof.
  intros Hwf Ec Em Hi Hl. pose proof Hwf as [M F V]. split; cbn; [| |done].
  - intros fd0 c0 E0. apply lookup_delete_Some in E0 as [N E0].
    destruct (M _ _ E0) as (ch0 & i0 & pf0 & Ec0 & F0 & Ix0 & Ef0 & Ev0 & Hfd0). exists ch0, i0, pf0.
    split_and!; try done. apply lookup_take_Some. split; [done|].
    assert (i0 <> i) as Ni by (intros ->; apply N; eapply (index_inj s); eauto; lia).
    apply lookup_lt_Some in Ef0. lia.
  - intros j pf E. apply lookup_take_Some in E as [E Hj]. destruct (F _ _ E) as (c0 & ch0 & Em0 & Ec0 & Ix0).
    exists c0, ch0. split_and!; try done. rewrite lookup_delete_ne; [done|]. intros Heq. rewrite <- Heq in Em0.
    rewrite Em in Em0. injection Em0 as <-. rewrite Ec in Ec0. injection Ec0 as <-. lia.
Qed.

(** Moving the last entry to the place of the removed one. *)
Lemma poller_swap_wf s c ch b bch i n back :
  poller_wf s -> chans s !! c = Some ch -> channels_map_ s !! fd_ ch = Some c -> index_ ch = Z.of_nat i ->
  length (pollfds_ s) = S n -> pollfds_ s !! n = Some back -> i <> n ->
  channels_map_ s !! norm_fd (p_fd back) = Some b -> chans s !! b = Some bch -> index_ bch = Z.of_nat n ->
  poller_wf (mkPoller (<[b := SetIndex bch (Z.of_nat i)]> (chans s)) (take n (<[i := back]> (pollfds_ s)))
    (delete (fd_ ch) (channels_map_ s))).
Proof.
  intros Hwf Ec Em Hi Hl Hback Hin Emb Ecb Hib. pose proof Hwf as [M F V].
  destruct (M _ _ Em) as (ch' & i' & pf & Ec' & _ & Ix' & Ef & _). rewrite Ec in Ec'. injection Ec' as <-.
  assert (i' = i) as -> by lia. clear Ix'. pose proof (lookup_lt_Some _ _ _ Ef) as Hlt.
  destruct (M _ _ Emb) as (ch' & n' & pfb & Ecb' & Fb & Ixb & Efb & Evb & Hfdb). rewrite Ecb in Ecb'. injection Ecb' as <-.
  assert (n' = n) as -> by lia. rewrite Hback in Efb. injection Efb as <-. clear Ixb.
  assert (b <> c) as Hbc by (intros ->; rewrite Ec in Ecb; injection Ecb as <-; lia).
  split; cbn.
  - intros fd0 c0 E0. apply lookup_delete_Some in E0 as [N E0]. destruct (decide (c0 = b)) as [->|Nb].
    + destruct (M _ _ E0) as (ch0 & _ & _ & Ec0 & F0 & _). rewrite Ecb in Ec0. injection Ec0 as <-.
      assert (norm_fd (p_fd back) = fd0) as En by congruence. rewrite En in *.
      eexists _, i, back. rewrite lookup_insert_eq. split_and!; try done.
      apply lookup_take_Some. split; [by rewrite list_lookup_insert_eq by lia|lia].
    + destruct (M _ _ E0) as (ch0 & i0 & pf0 & Ec0 & F0 & Ix0 & Ef0 & Ev0 & Hfd0). exists ch0, i0, pf0.
      rewrite lookup_insert_ne by done. split_and!; try done. pose proof (lookup_lt_Some _ _ _ Ef0).
      assert (i0 <> i) as Ni by (intros ->; apply N; eapply (index_inj s); eauto; lia).
      assert (i0 <> n) as Nn.
      { intros ->. apply Nb. assert (fd0 = norm_fd (p_fd back)) as -> by (eapply (index_inj s); eauto; lia).
        congruence. }
      apply lookup_take_Some. split; [by rewrite list_lookup_insert_ne|lia].
  - intros j pf0 E. apply lookup_take_Some in E as [E Hj]. apply list_lookup_insert_Some in E as [(<- & <- & _)|[N E]].
    + exists b. eexists. rewrite lookup_insert_eq. split_and!; try done. rewrite lookup_delete_ne; [done|].
      intros Heq. rewrite <- Heq in Emb. congruence.
    + destruct (F _ _ E) as (c0 & ch0 & Em0 & Ec0 & Ix0). exists c0, ch0. split_and!; try done.
      * rewrite lookup_delete_ne; [done|]. intros Heq. rewrite <- Heq in Em0. rewrite Em in Em0. injection Em0 as <-.
        rewrite Ec in Ec0. injection Ec0 as <-. lia.
      * rewrite lookup_insert_ne; [done|]. intros <-. rewrite Ecb in Ec0. injection Ec0 as <-. lia.
  - intros c' ch'. rewrite lookup_insert_Some. intros [[<- <-]|[N E]]; [|by apply (V c')]. by apply (V b bch).
Qed.

Lemma removelast_take {A} (l : list A) n : length l = S n -> removelast l = take n l.
Proof. intros E. rewrite removelast_firstn_len, E. done. Qed.

Lemma poller_remove : remove_law poller_demux.
Proof.
  intros s c ch Hwf Ec (ch' & Ec' & Em). cbn in Ec. rewrite Ec in Ec'. injection Ec' as <-. pose proof Hwf as [M F V].
  assert (exists s', Poller_RemoveChannel s c = Some s' /\ poller_wf s' /\
      channels_map_ s' = delete (fd_ ch) (channels_map_ s) /\
      (forall c0, exists i, chans s' !! c0 = (fun x => SetIndex x i) <$> chans s !! c0))
    as (s' & E & Hwf' & Hm & Hc).
  { destruct (M _ _ Em) as (ch1 & i & pf & Ec1 & _ & Hi & Ef & Ev & Hfd). rewrite Ec in Ec1. injection Ec1 as <-.
    pose proof (lookup_lt_Some _ _ _ Ef) as Hlt. destruct (length (pollfds_ s)) as [|n] eqn:El; [lia|].
    assert (exists back, pollfds_ s !! n = Some back) as [back Hback] by (apply lookup_lt_is_Some_2; lia).
    assert (last (pollfds_ s) = Some back) as Hlast by (by rewrite last_lookup, El).
    unfold Poller_RemoveChannel. rewrite Ec. cbn [mbind option_bind]. rewrite Em. rewrite Ec. cbn [mbind option_bind].
    rewrite Hlast. cbn [mbind option_bind]. destruct (F _ _ Hback) as (b & bch & Emb & Ecb & Hib).
    assert (forall c0, exists i, chans s !! c0 = (fun x => SetIndex x i) <$> chans s !! c0) as Hid.
    { intros c0. destruct (chans s !! c0) as [x|]; [|by exists 0]. exists (index_ x). cbn. by destruct x. }
    case_bool.
    - assert (i = n) as ->.
      { rewrite <- Hb, norm_fd_nonneg in Emb by (by apply (V c ch)). rewrite Em in Emb. injection Emb as <-.
        rewrite Ec in Ecb. injection Ecb as <-. lia. }
      eexists. split; [done|]. rewrite (removelast_take _ n) by done. split; [by eapply poller_pop_wf|]. by split.
    - rewrite Hi. rewrite check_bind_true
        by (unfold zlen; rewrite El; apply andb_true_iff; split; [apply negb_true_iff, Z.eqb_neq|apply Z.ltb_lt]; lia).
      change (if p_fd back <? 0 then - p_fd back - 1 else p_fd back) with (norm_fd (p_fd back)).
      rewrite Emb. cbn [mbind option_bind]. rewrite Ecb. cbn [mbind option_bind]. rewrite Nat2Z.id.
      eexists. split; [done|]. rewrite (removelast_take _ n) by (by rewrite length_insert). cbn.
      destruct (decide (i = n)) as [->|Nin].
      + assert (b = c /\ bch = ch) as [-> ->].
        { assert (fd_ ch = norm_fd (p_fd back)) as En by (eapply (index_inj s); eauto; lia).
          rewrite En, Emb in Em. injection Em as ->. rewrite Ec in Ecb. by injection Ecb as <-. }
        rewrite list_insert_id by done. rewrite insert_id by (rewrite Ec; destruct ch; cbn in *; by rewrite Hi).
        split; [by eapply poller_pop_wf|]. by split.
      + split; [by eapply (poller_swap_wf s c ch b bch i n back)|]. split; [done|]. intros c0.
        destruct (decide (c0 = b)) as [->|N]; [|by rewrite lookup_insert_ne].
        exists (Z.of_nat i). by rewrite lookup_insert_eq, Ecb. }
  exists s'. split; [done|]. split; [done|]. split; [|split].
  - intros (ch0 & E0 & Em0). destruct (Hc c) as [i Hci]. cbn in E0. rewrite Hci, Ec in E0. injection E0 as <-.
    cbn in Em0. rewrite Hm, lookup_delete_eq in Em0. done.
  - intros c' ch' N E'. destruct (Hc c') as [i Hci]. cbn in E'. exists i. cbn. by rewrite Hci, E'.
  - intros fd e. cbn. rewrite !poller_watches_iff by done. rewrite Hm. split.
    + intros (c0 & ch0 & Em0 & Ec0 & Ev0 & Hne). apply lookup_delete_Some in Em0 as [N Em0]. split; [done|].
      destruct (Hc c0) as [i Hci]. rewrite Ec0 in Hci. destruct (chans s !! c0) as [x|] eqn:Ex; [|done].
      injection Hci as ->. by exists c0, x.
    + intros [N (c0 & ch0 & Em0 & Ec0 & Ev0 & Hne)]. destruct (Hc c0) as [i Hci]. rewrite Ec0 in Hci.
      exists c0. eexists. rewrite lookup_delete_ne by done. by split_and!.
Qed.

(** The entries the loop of [Poll] stops at. *)
Definition fired (fds : list pollfd) : list pollfd := List.filter (fun p => 0 <? p_revents p) fds.

Lemma elem_of_fired p fds : p ∈ fired fds <-> p ∈ fds /\ 0 < p_revents p.
Proof. unfold fired. rewrite !list_elem_of_In, filter_In. by rewrite Z.ltb_lt. Qed.

Lemma elem_of_map_iff {A B} (f : A -> B) l y : y ∈ map f l <-> exists x, f x = y /\ x ∈ l.
Proof. rewrite list_elem_of_In, in_map_iff. by setoid_rewrite list_elem_of_In. Qed.

Lemma poll_loop_spec m fds cs :
  NoDup (map p_fd (fired fds)) ->
  (forall p, p ∈ fired fds -> exists c ch, m !! p_fd p = Some c /\ cs !! c = Some ch /\ fd_ ch = p_fd p) ->
  exists cs' active, poll_loop cs m fds (zlen (fired fds)) = Some (cs', active) /\
    length active = length (fired fds) /\
    (forall c, c ∈ active <-> exists p, p ∈ fired fds /\ m !! p_fd p = Some c) /\
    (forall c, c ∉ active -> cs' !! c = cs !! c) /\
    (forall p c ch, p ∈ fired fds -> m !! p_fd p = Some c -> cs !! c = Some ch ->
       cs' !! c = Some (SetRevents ch (p_revents p))).
Proof.
  revert cs. induction fds as [|p fds IH]; intros cs Hn Hf.
  { exists cs, []. split_and!; try done.
    - intros c. split; [intros Hc; by apply not_elem_of_nil in Hc|].
      intros (p & Hp & _). by apply not_elem_of_nil in Hp.
    - intros p c ch Hp. by apply not_elem_of_nil in Hp. }
  unfold fired in *. cbn [List.filter poll_loop] in *. destruct (Z.ltb_spec 0 (p_revents p)) as [L|L].
  - destruct (Hf p) as (c & ch & Em & Ec & F); [by left|].
    cbn [map] in Hn. apply NoDup_cons in Hn as [Hp Hn].
    rewrite zlen_cons. rewrite (proj2 (Z.eqb_neq _ _)) by (pose proof (zlen_nonneg (fired fds)); unfold fired in *; lia).
    rewrite Em. cbn [mbind option_bind]. rewrite Ec. cbn [mbind option_bind]. rewrite check_bind_true by lia.
    assert (forall q c0, q ∈ fired fds -> m !! p_fd q = Some c0 -> c0 <> c) as Hne.
    { intros q c0 Hq Eq ->. apply Hp. apply elem_of_map_iff. exists q. split; [|done].
      destruct (Hf q) as (c1 & ch1 & Em1 & Ec1 & F1); [by right|]. congruence. }
    replace (zlen (List.filter (fun p => 0 <? p_revents p) fds) + 1 - 1)
      with (zlen (List.filter (fun p => 0 <? p_revents p) fds)) by lia.
    destruct (IH (<[c := SetRevents ch (p_revents p)]> cs)) as (cs' & act & E & Hl & Ha & K1 & K2); [done| |].
    { intros q Hq. destruct (Hf q) as (c0 & ch0 & Em0 & Ec0 & F0); [by right|]. exists c0, ch0.
      split; [done|]. split; [|done]. rewrite lookup_insert_ne; [done|]. apply not_eq_sym. by eapply Hne. }
    assert (c ∉ act) as Hca by (intros (q & Hq & Eq)%Ha; by apply (Hne q c)).
    rewrite E. cbn [mbind option_bind]. exists cs', (c :: act). split; [done|]. split; [cbn; by rewrite Hl|].
    split; [|split].
    + intros c0. rewrite elem_of_cons, Ha. split.
      * intros [->|(q & Hq & Eq)]; [exists p; split; [by left|done]|exists q; split; [by right|done]].
      * intros (q & Hq & Eq). apply elem_of_cons in Hq as [->|Hq]; [left; congruence|right; by exists q].
    + intros c0 Hc0. rewrite not_elem_of_cons in Hc0. destruct Hc0 as [N0 Hc0].
      rewrite K1 by done. by rewrite lookup_insert_ne.
    + intros q c0 ch0 Hq Eq Ec0. apply elem_of_cons in Hq as [->|Hq].
      * assert (c0 = c) as -> by congruence. assert (ch0 = ch) as -> by congruence.
        rewrite K1 by done. by rewrite lookup_insert_eq.
      * apply (K2 q c0 ch0); [done|done|]. rewrite lookup_insert_ne; [done|]. apply not_eq_sym. by eapply Hne.
  - destruct (IH cs Hn Hf) as (cs' & act & E & Rest). exists cs', act. split; [|done].
    destruct (Z.eqb_spec (zlen (List.filter (fun p => 0 <? p_revents p) fds)) 0) as [Ez|Ez]; [|done].
    apply zlen_0_inv in Ez. destruct Rest as (Hl & Ha & K1 & K2). rewrite Ez in *. destruct act; [|done].
    rewrite <- E. clear -Ez. revert cs. destruct fds; done.
Qed.

(** The entry of [fd] with what poll(2) stored in it. *)
Definition answered (evs : list (Z * Z)) (p : pollfd) : pollfd :=
  mkPollfd (p_fd p) (p_events p) (revents_of evs (p_fd p)).

Lemma zip_with_map {A B C} (f : A -> B -> C) (g : A -> B) l : zip_with f l (map g l) = map (fun x => f x (g x)) l.
Proof. induction l as [|x l IH]; cbn; [done|by rewrite IH]. Qed.

Lemma revents_of_in evs fd r : NoDup (map fst evs) -> (fd, r) ∈ evs -> revents_of evs fd = r.
Proof.
  unfold revents_of. induction evs as [|[fd' r'] evs IH]; intros Hn Hin; [by apply not_elem_of_nil in Hin|].
  cbn in Hn. apply NoDup_cons in Hn as [Hfd Hn]. cbn. apply elem_of_cons in Hin as [[= <- <-]|Hin].
  - by rewrite Z.eqb_refl.
  - rewrite (proj2 (Z.eqb_neq _ _)); [by apply IH|]. intros ->. apply Hfd, elem_of_map_iff. by exists (fd, r).
Qed.

Lemma revents_of_pos evs fd : 0 < revents_of evs fd -> (fd, revents_of evs fd) ∈ evs.
Proof.
  unfold revents_of. destruct (find _ evs) as [[fd' r]|] eqn:E; [|lia]. intros _.
  apply find_some in E as [Hin Heq]. cbn in Heq. apply Z.eqb_eq in Heq as ->. by apply list_elem_of_In.
Qed.

(** Two entries never carry the same descriptor. *)
Lemma pollfds_nodup s : poller_wf s -> NoDup (map p_fd (pollfds_ s)).
Proof.
  intros Hwf. apply NoDup_alt. intros i j fd Ei Ej. apply list_lookup_fmap_Some in Ei as (p & Hp & Ei).
  apply list_lookup_fmap_Some in Ej as (q & Hq & Ej).
  destruct (pw_fds _ Hwf _ _ Ei) as (c & ch & Em & Ec & Ix). destruct (pw_fds _ Hwf _ _ Ej) as (c' & ch' & Em' & Ec' & Ix').
  rewrite <- Hp, Hq, Em' in Em. injection Em as ->. rewrite Ec in Ec'. injection Ec' as ->. lia.
Qed.

Lemma NoDup_map_filter {A B} (f : A -> B) (P : A -> bool) l : NoDup (map f l) -> NoDup (map f (List.filter P l)).
Proof.
  induction l as [|x l IH]; cbn; [done|]. intros [Hx Hn]%NoDup_cons. destruct (P x); [|by apply IH]. cbn.
  constructor; [|by apply IH]. intros (y & E & Hy)%elem_of_map_iff. apply Hx, elem_of_map_iff. exists y.
  split; [done|]. apply list_elem_of_In in Hy. apply filter_In in Hy as [Hy _]. by apply list_elem_of_In.
Qed.

(** poll(2) only fills in results: channels and entries keep their meaning. *)
Lemma poller_answer_wf s cs evs :
  poller_wf s -> (forall c, exists r, cs !! c = (fun ch => SetRevents ch r) <$> chans s !! c) ->
  poller_wf (mkPoller cs (map (answered evs) (pollfds_ s)) (channels_map_ s)).
Proof.
  intros [M F V] Hc. split; cbn.
  - intros fd c E. destruct (M _ _ E) as (ch & i & pf & Ec & Ffd & Ix & Ef & Ev & Hfd). destruct (Hc c) as [r Er].
    rewrite Ec in Er. exists (SetRevents ch r), i, (answered evs pf). split_and!; try done.
    by rewrite list_lookup_fmap, Ef.
  - intros i pf E. apply list_lookup_fmap_Some in E as (q & -> & Eq).
    destruct (F _ _ Eq) as (c & ch & Em & Ec & Ix). destruct (Hc c) as [r Er]. rewrite Ec in Er.
    by exists c, (SetRevents ch r).
  - intros c ch E. destruct (Hc c) as [r Er]. rewrite E in Er. destruct (chans s !! c) as [ch0|] eqn:E0; [|done].
    injection Er as ->. by apply (V c ch0).
Qed.

Lemma poller_fired s evs :
  poller_wf s -> kernel_reports poller_demux s evs ->
  length (fired (map (answered evs) (pollfds_ s))) = length evs /\
  (forall fd r, (exists p, p ∈ fired (map (answered evs) (pollfds_ s)) /\ p_fd p = fd /\ p_revents p = r) <-> (fd, r) ∈ evs).
Proof.
  intros Hwf (Hnd & _ & Hev). rewrite Forall_forall in Hev.
  assert (forall fd r, (exists p, p ∈ fired (map (answered evs) (pollfds_ s)) /\ p_fd p = fd /\ p_revents p = r) <-> (fd, r) ∈ evs) as Hin.
  { intros fd r. split.
    - intros (p & [Hp Hr]%elem_of_fired & Hfd & Hrev). apply elem_of_map_iff in Hp as (q & <- & Hq). cbn in *. subst.
      by apply revents_of_pos.
    - intros Hx. destruct (Hev _ Hx) as [Hr (_ & q & Hq & Hfd)]. cbn in *. exists (answered evs q). cbn.
      rewrite Hfd, (revents_of_in _ _ r) by done. split; [|done]. apply elem_of_fired. cbn.
      rewrite Hfd, (revents_of_in _ _ r) by done. split; [|lia]. apply elem_of_map_iff. by exists q. }
  split; [|done]. rewrite <- (length_map p_fd), <- (length_map fst evs). apply Permutation_length, NoDup_Permutation; [|done|].
  - apply NoDup_map_filter. rewrite map_map. by apply pollfds_nodup.
  - intros fd. rewrite !elem_of_map_iff. split.
    + intros (p & <- & Hp). exists (p_fd p, p_revents p). split; [done|]. apply Hin. by exists p.
    + intros ([fd' r] & <- & Hx). apply Hin in Hx as (p & Hp & Hfd & _). by exists p.
Qed.

Lemma poller_poll : poll_law poller_demux.
Proof.
  split; [intros s fd ev (p & Hp & Hfd & Hn & _); split; [split; [done|by exists p]|done]|]. split.
  2:{ intros s evs _ _ (x & _ & Hx)%Exists_exists. by destruct Hx. }
  intros s evs Hwf Hk _. destruct (poller_fired s evs Hwf Hk) as [Hl Hin]. cbn [dm_poll poller_demux].
  unfold Poller_Poll. rewrite zip_with_map.
  change (map (fun x => mkPollfd (p_fd x) (p_events x) (revents_of evs (p_fd x))) (pollfds_ s))
    with (map (answered evs) (pollfds_ s)).
  set (fds := map (answered evs) (pollfds_ s)) in *.
  assert (forall s', channels_map_ s' = channels_map_ s -> poller_wf s' ->
    (forall c, exists r, chans s' !! c = (fun ch => SetRevents ch r) <$> chans s !! c) ->
    forall fd e, poller_watches s' fd e <-> poller_watches s fd e) as Hw.
  { intros s' Hm Hwf' Hc fd e. rewrite !poller_watches_iff by done. rewrite Hm. split.
    - intros (c & ch & Em & Ec & Ev & Hne). destruct (Hc c) as [r Er]. rewrite Ec in Er.
      destruct (chans s !! c) as [ch0|] eqn:E0; [|done]. injection Er as ->. by exists c, ch0.
    - intros (c & ch & Em & Ec & Ev & Hne). destruct (Hc c) as [r Er]. rewrite Ec in Er.
      exists c, (SetRevents ch r). by split_and!. }
  assert (forall c fd r, (fd, r) ∈ evs -> (channels_map_ s !! fd = Some c <->
      exists ch, poller_added s c /\ chans s !! c = Some ch /\ fd_ ch = fd)) as Hadd.
  { intros c fd r Hx. split.
    - intros Em. destruct (pw_map _ Hwf _ _ Em) as (ch & _ & _ & Ec & F & _). exists ch. split; [|done].
      exists ch. by rewrite F.
    - intros (ch & (ch' & Ec' & Em) & Ec & F). rewrite Ec in Ec'. injection Ec' as <-. by rewrite F in Em. }
  destruct (Z.ltb_spec 0 (zlen evs)) as [L|L].
  - assert (zlen evs = zlen (fired fds)) as Hz by (unfold zlen; by rewrite Hl).
    destruct (poll_loop_spec (channels_map_ s) fds (chans s)) as (cs & act & E & Hla & Ha & K1 & K2).
    { apply NoDup_map_filter. unfold fds. rewrite map_map. by apply pollfds_nodup. }
    { intros p Hp. assert ((p_fd p, p_revents p) ∈ evs) as Hx by (apply Hin; by exists p).
      destruct Hk as (_ & _ & Hev). rewrite Forall_forall in Hev. destruct (Hev _ Hx) as [_ (Hn & q & Hq & Hfd)].
      cbn in Hn, Hfd. apply list_elem_of_lookup in Hq as [i Hq]. destruct (pw_fds _ Hwf _ _ Hq) as (c & ch & Em & Ec & _).
      rewrite Hfd, norm_fd_nonneg in Em by done. exists c, ch.
      destruct (pw_map _ Hwf _ _ Em) as (ch' & _ & _ & Ec' & F & _). by simplify_eq. }
    assert (forall c, exists r, cs !! c = (fun ch => SetRevents ch r) <$> chans s !! c) as Hc.
    { intros c. destruct (decide (c ∈ act)) as [Hc|Hc].
      - apply Ha in Hc as (p & Hp & Em). destruct (pw_map _ Hwf _ _ Em) as (ch & _ & _ & Ec & _).
        exists (p_revents p). rewrite Ec. by apply (K2 p c ch).
      - rewrite (K1 c Hc). destruct (chans s !! c) as [ch|]; [|by exists 0]. exists (revents_ ch). by destruct ch. }
    rewrite Hz, E. cbn [mbind option_bind]. eexists _, act. split; [done|].
    assert (poller_wf (mkPoller cs fds (channels_map_ s))) as Hwf' by (by apply poller_answer_wf).
    split; [done|]. split; [by apply Hw|]. split; [by rewrite Hla|]. split.
    + intros c. rewrite Ha. split.
      * intros (p & Hp & Em). assert ((p_fd p, p_revents p) ∈ evs) as Hx by (apply Hin; by exists p).
        pose proof (proj1 (Hadd c _ _ Hx) Em) as (ch & H1 & H2 & H3). by exists (p_fd p), (p_revents p), ch.
      * intros (fd & r & ch & Hx & H1 & H2 & H3). apply Hin in Hx as Hx'. destruct Hx' as (p & Hp & Hfd & _).
        exists p. split; [done|]. rewrite Hfd. apply (Hadd c fd r Hx). by exists ch.
    + intros c fd r Hca Hx (ch & Ec & F). apply Hin in Hx as Hx'. destruct Hx' as (p & Hp & Hfd & Hr).
      apply Ha in Hca as (q & Hq & Em). destruct (pw_map _ Hwf _ _ Em) as (ch' & _ & _ & Ec' & F' & _).
      cbn in Ec. assert (channels_map_ s !! p_fd p = Some c) as Emp by (rewrite Hfd; congruence).
      exists (SetRevents ch (p_revents p)). split; [by apply K2|]. by subst.
  - assert (evs = []) as -> by (apply zlen_0_inv; pose proof (zlen_nonneg evs); lia).
    assert (forall c, exists r, chans s !! c = (fun ch => SetRevents ch r) <$> chans s !! c) as Hc.
    { intros c. destruct (chans s !! c) as [ch|]; [|by exists 0]. exists (revents_ ch). by destruct ch. }
    eexists _, []. split; [done|]. split; [by apply poller_answer_wf|].
    split; [by apply Hw; [|apply poller_answer_wf|]|]. split; [done|]. split.
    + intros c. split; [intros Hca; by apply not_elem_of_nil in Hca|].
      intros (fd & r & ch & Hx & _). by apply not_elem_of_nil in Hx.
    + intros c fd r Hca. by apply not_elem_of_nil in Hca.
Qed.

(** ** Properties *)

(** C8 Epoller keeps the contract of PollerBase. For a channel that was added, or whose
    descriptor no other channel has added, changing its events makes exactly its
    descriptor watched for exactly these events and neither an assertion nor epoll_ctl
    fails; for any other channel the change fails. Removing a channel stops it being
    watched; other channels are not touched. [Poll] returns each channel whose
    descriptor is reported once, with the events reported, provided all of them have
    events set: a report for a channel that is kept in the table without events, which
    epoll may make for POLLHUP and POLLERR, fails the assertion. *)
Theorem epoller_implements : implements_PollerBase epoller_demux.
Proof. split; [exact epoller_update|split; [exact epoller_remove|exact epoller_poll]]. Qed.

(** C9 Poller keeps the same contract: the array of pollfds, the map from descriptors to
    channels and the index stored in each channel stay consistent when entries are
    added, disabled by a negative descriptor, and removed by moving the last entry into
    the gap. The events of a channel can be changed exactly as long as it was never
    added, with its descriptor not in use, or its entry has not been disabled: after
    [DisableAll] or [Remove] any change fails an assertion. [Poll] copes with every report. *)
Theorem poller_implements : implements_PollerBase poller_demux.
Proof. split; [exact poller_update|split; [exact poller_remove|exact poller_poll]]. Qed.

(** A channel closes only when there is nothing left to read. *)
Lemma HandleEvents_close revents set :
  OnClose ∈ HandleEvents revents set ->
  Z.land revents POLLHUP <> 0 /\ Z.land revents POLLIN = 0 /\ set OnClose = true.
Proof.
  unfold HandleEvents. rewrite !elem_of_app. repeat case_bool; rewrite ?list_elem_of_singleton, ?elem_of_nil;
    try (intros; intuition discriminate); bool_prop; intuition lia.
Qed.

Definition one_poller : Poller := mkPoller {[ 1%positive := make_Channel 3 ]} [] ∅.
Definition one_epoller : Epoller := mkEpoller {[ 1%positive := make_Channel 3 ]} false ∅ 16.

(** A channel is added for reading and then watched. *)
Lemma epoller_implements_witness :
  exists s', change_events epoller_demux one_epoller 1%positive (fun _ => ReadEvent) = Some s' /\
    epoller_wf s' /\ epoller_ready s' 1%positive /\ epoller_watches s' 3 ReadEvent.
Proof.
  destruct (proj1 (proj1 epoller_implements) one_epoller 1%positive (make_Channel 3) ReadEvent)
    as (s' & E & Hwf & _ & Hr & _ & _ & Hw).
  - split; cbn; try done; intros c ch Ec; apply lookup_singleton_Some in Ec as [_ <-]; cbn; [done|by right|lia].
  - reflexivity.
  - exists (make_Channel 3). split; [reflexivity|]. by right.
  - by vm_compute.
  - exists s'. split; [exact E|]. split; [exact Hwf|]. split; [by apply Hr|]. apply Hw. by left.
Defined.

Lemma poller_implements_witness :
  exists s', change_events poller_demux one_poller 1%positive (fun _ => ReadEvent) = Some s' /\
    poller_wf s' /\ poller_ready s' 1%positive /\ poller_watches s' 3 ReadEvent.
Proof.
  destruct (proj1 (proj1 poller_implements) one_poller 1%positive (make_Channel 3) ReadEvent)
    as (s' & E & Hwf & _ & Hr & _ & _ & Hw).
  - split; cbn; try done. intros c ch Ec. apply lookup_singleton_Some in Ec as [_ <-]. cbn. lia.
  - reflexivity.
  - exists (make_Channel 3). split; [reflexivity|]. by left.
  - by vm_compute.
  - exists s'. split; [exact E|]. split; [exact Hwf|]. split; [by apply Hr|]. apply Hw. by left.
Defined.

(** ** Behaviours outside the contract *)

(** After [DisableAll] the entry keeps its negative descriptor: enabling the
    channel again fails the assertion [now_pollfd.fd == ch->GetFd()]. *)
Lemma poller_reenable_fails :
  (s ← EnableReading poller_demux one_poller 1%positive; s ← DisableAll poller_demux s 1%positive; Some tt) = Some tt /\
  (s ← EnableReading poller_demux one_poller 1%positive; s ← DisableAll poller_demux s 1%positive;
   EnableReading poller_demux s 1%positive) = None.
Proof. split; vm_compute; reflexivity. Qed.

(** [RemoveChannel] does not reset the index: adding the channel again fails
    the assertion [ch->GetIndex() == -1]. With [Epoller] it succeeds. *)
Lemma poller_readd_fails :
  (s ← EnableReading poller_demux one_poller 1%positive; s ← Remove poller_demux s 1%positive;
   EnableReading poller_demux s 1%positive) = None /\
  is_Some (s ← EnableReading epoller_demux one_epoller 1%positive; s ← Remove epoller_demux s 1%positive;
           EnableReading epoller_demux s 1%positive).
Proof. split; [vm_compute; reflexivity|]. eexists. vm_compute. reflexivity. Qed.

(** A channel without events stays in the table of epoll, which reports
    POLLHUP and POLLERR for it: the assertion [!channel->IsNoneEvent()]. *)
Lemma epoller_idle_event_fails :
  (s ← EnableReading epoller_demux one_epoller 1%positive; s ← DisableAll epoller_demux s 1%positive;
   Some (ktable s)) = Some {[ 3 := (0, 1%positive) ]} /\
  (s ← EnableReading epoller_demux one_epoller 1%positive; s ← DisableAll epoller_demux s 1%positive;
   Epoller_Poll s [(POLLHUP, 1%positive)]) = None.
Proof. split; vm_compute; reflexivity. Qed.
