(* ===== verification/EventLoop.v ===== *)
(** * The event loop: kanon/net/event_loop.{h,cc}

    One thread owns the loop and goes through its three phases: wait in
    [Poll], handle the events of the active channels, call the queued functors.
    Other threads queue functors and ask it to quit; they wake the loop by
    writing to an eventfd.  The loop and the other threads are one transition
    system whose steps are the actions between two points at which threads can
    interleave; what the mutex protects is one step.  Callbacks are lists of the
    calls they make on the loop. *)

From Stdlib Require Import ZArith Lia.
From stdpp Require Import list.
From S2P Require Import Prelude.

(** A functor is named; its body is given by the program that uses the loop. *)
Definition functor := nat.

(** What a callback does with the loop of its own thread. *)
Inductive act :=
| AQueue (f : functor)   (* QueueToLoop(f) *)
| ARun (f : functor)     (* RunInLoop(f) *)
| AQuit                  (* Quit() *)
| AWakeup.               (* Wakeup() *)

(** An active channel: the one of the eventfd, or one with a user callback. *)
Inductive active := EvChannel | UserChannel (handler : list act).

(** Where the loop thread is: [rest] is what it still has to do in the phase,
    [acts] what is left of the callback that runs. *)
Inductive phase :=
| NotStarted
| Polling
| Handling (acts : list act) (rest : list active)
| Calling (acts : list act) (rest : list functor)
| Stopped.

Record EventLoop := mkLoop {
  looping_ : bool;
  quit_ : bool;
  calling_functors_ : bool;
  functors_ : list functor;
  ev_counter : Z;          (* the counter of the eventfd *)
  at_ : phase;
  owed : nat;              (* threads about to call Wakeup() *)
  quitting : nat;          (* threads in Quit() past its test *)
  queued : list functor;   (* all functors queued so far *)
  ran : list functor       (* all functors CallFunctors() called so far *)
}.

Definition make_EventLoop (fs : list functor) : EventLoop :=
  mkLoop false false false fs 0 NotStarted 0 0 fs [].

Definition with_at (s : EventLoop) (p : phase) : EventLoop :=
  mkLoop (looping_ s) (quit_ s) (calling_functors_ s) (functors_ s) (ev_counter s) p (owed s) (quitting s)
    (queued s) (ran s).
Definition with_counter (s : EventLoop) (n : Z) : EventLoop :=
  mkLoop (looping_ s) (quit_ s) (calling_functors_ s) (functors_ s) n (at_ s) (owed s) (quitting s)
    (queued s) (ran s).
Definition with_quit (s : EventLoop) : EventLoop :=
  mkLoop (looping_ s) true (calling_functors_ s) (functors_ s) (ev_counter s) (at_ s) (owed s) (quitting s)
    (queued s) (ran s).
Definition with_looping (s : EventLoop) (b : bool) : EventLoop :=
  mkLoop b (quit_ s) (calling_functors_ s) (functors_ s) (ev_counter s) (at_ s) (owed s) (quitting s)
    (queued s) (ran s).
Definition with_threads (s : EventLoop) (o q : nat) : EventLoop :=
  mkLoop (looping_ s) (quit_ s) (calling_functors_ s) (functors_ s) (ev_counter s) (at_ s) o q (queued s) (ran s).

(** ** Operations *)

(** eventfd(2): a write that would pass the maximum fails with EAGAIN, which is
    logged. *)
Definition EVENTFD_MAX : Z := 2 ^ 64 - 2.

Definition WriteEventFd (n : Z) : Z := if n + 1 <=? EVENTFD_MAX then n + 1 else n.
Definition ReadEventFd (n : Z) : Z := 0.

Definition Wakeup (s : EventLoop) : EventLoop := with_counter s (WriteEventFd (ev_counter s)).
Definition EvRead (s : EventLoop) : EventLoop := with_counter s (ReadEventFd (ev_counter s)).

(** The locked block of [QueueToLoop]. *)
Definition emplace_functor (s : EventLoop) (f : functor) : EventLoop :=
  mkLoop (looping_ s) (quit_ s) (calling_functors_ s) (functors_ s ++ [f]) (ev_counter s) (at_ s) (owed s)
    (quitting s) (queued s ++ [f]) (ran s).

(** [QueueToLoop]: the new state and whether [Wakeup] is to be called. *)
Definition QueueToLoop (in_thread : bool) (s : EventLoop) (f : functor) : EventLoop * bool :=
  (emplace_functor s f, negb in_thread || calling_functors_ s).

(** [Quit]: the test, and the rest with whether [Wakeup] is to be called. *)
Definition Quit_test (s : EventLoop) : bool := negb (quit_ s).
Definition Quit_set (in_thread : bool) (s : EventLoop) : EventLoop * bool := (with_quit s, negb in_thread).

(** The test of the loop of [StartLoop]. *)
Definition loop_test (s : EventLoop) : EventLoop :=
  if quit_ s then with_at (with_looping s false) Stopped else with_at s Polling.

Section loop.
Context (body : functor -> list act).

(** [RunInLoop] in the loop's thread calls the functor, in another one it queues it. *)
Definition RunInLoop (in_thread : bool) (s : EventLoop) (f : functor) : EventLoop * list act * bool :=
  if in_thread then (s, body f, false)
  else let '(s, w) := QueueToLoop in_thread s f in (s, [], w).

(** One call of a callback in the loop's thread; a call to [Wakeup] is a step of
    its own. *)
Definition run_act (s : EventLoop) (a : act) : EventLoop * list act :=
  match a with
  | AQueue f => let '(s, w) := QueueToLoop true s f in (s, if w then [AWakeup] else [])
  | ARun f => let '(s, acts, _) := RunInLoop true s f in (s, acts)
  | AQuit => if Quit_test s then
               let '(s, w) := Quit_set true s in (s, if w then [AWakeup] else [])
             else (s, [])
  | AWakeup => (Wakeup s, [])
  end.

(** [HandleEvents] of an active channel. *)
Definition handle (s : EventLoop) (h : active) : EventLoop * list act :=
  match h with
  | EvChannel => (EvRead s, [])
  | UserChannel handler => (s, handler)
  end.

(** The start of [CallFunctors]: with [quit_] set it returns at once; else the
    queue is swapped out under the lock. *)
Definition CallFunctors (s : EventLoop) : EventLoop :=
  if quit_ s then loop_test s
  else mkLoop (looping_ s) (quit_ s) true [] (ev_counter s) (Calling [] (functors_ s)) (owed s) (quitting s)
         (queued s) (ran s).

Definition call_functor (s : EventLoop) (f : functor) (rest : list functor) : EventLoop :=
  mkLoop (looping_ s) (quit_ s) (calling_functors_ s) (functors_ s) (ev_counter s) (Calling (body f) rest) (owed s)
    (quitting s) (queued s) (ran s ++ [f]).

Definition end_functors (s : EventLoop) : EventLoop :=
  loop_test (mkLoop (looping_ s) (quit_ s) false (functors_ s) (ev_counter s) (at_ s) (owed s) (quitting s)
    (queued s) (ran s)).

(** The next step of the loop's thread in [StartLoop]; none while it waits in
    [Poll] or has left the loop. *)
Definition StartLoop_step (s : EventLoop) : option EventLoop :=
  match at_ s with
  | NotStarted => assert! negb (looping_ s); Some (loop_test (with_looping s true))
  | Polling => None
  | Handling (a :: acts) rest => let '(s, new) := run_act s a in Some (with_at s (Handling (new ++ acts) rest))
  | Handling [] (h :: rest) => let '(s, acts) := handle s h in Some (with_at s (Handling acts rest))
  | Handling [] [] => Some (CallFunctors s)
  | Calling (a :: acts) rest => let '(s, new) := run_act s a in Some (with_at s (Calling (new ++ acts) rest))
  | Calling [] (f :: rest) => Some (call_functor s f rest)
  | Calling [] [] => Some (end_functors s)
  | Stopped => None
  end.

(** The steps of the system. *)
Inductive label :=
| Owner                       (* the loop's thread goes on *)
| PollReturns (evs : list active)
| OtherQueues (f : functor)   (* another thread: QueueToLoop or RunInLoop *)
| OtherQuits                  (* another thread: the test of Quit *)
| OtherSetsQuit
| OtherWakes.

(** The poller watches the eventfd, so that [Poll] reports it exactly when its
    counter is not zero; without a time limit [Poll] returns no channel only
    when a signal interrupts it. *)
Definition poll_result (s : EventLoop) (evs : list active) : bool :=
  Bool.eqb (existsb (fun h => match h with EvChannel => true | _ => false end) evs) (0 <? ev_counter s)
  || match evs with [] => true | _ => false end.

Definition step (l : label) (s : EventLoop) : option EventLoop :=
  match l with
  | Owner => StartLoop_step s
  | PollReturns evs =>
    match at_ s with
    | Polling => assert! poll_result s evs; Some (with_at s (Handling [] evs))
    | _ => None
    end
  | OtherQueues f =>
    let '(s, acts, w) := RunInLoop false s f in
    Some (with_threads s (if w then S (owed s) else owed s) (quitting s))
  | OtherQuits => if Quit_test s then Some (with_threads s (owed s) (S (quitting s))) else Some s
  | OtherSetsQuit =>
    match quitting s with
    | O => None
    | S q => let '(s, w) := Quit_set false s in Some (with_threads s (if w then S (owed s) else owed s) q)
    end
  | OtherWakes =>
    match owed s with
    | O => None
    | S n => Some (with_threads (Wakeup s) n (quitting s))
    end
  end.

Fixpoint run (ls : list label) (s : EventLoop) : option EventLoop :=
  match ls with
  | [] => Some s
  | l :: ls => s ← step l s; run ls s
  end.

(** The states of a loop created by the thread that runs it, which queues [fs]
    before it starts. *)
Inductive reachable (fs : list functor) : EventLoop -> Prop :=
| reach_init : reachable fs (make_EventLoop fs)
| reach_step l s s' : reachable fs s -> step l s = Some s' -> reachable fs s'.

End loop.

(** ** The invariant *)

(** A wakeup has been written or is about to be. *)
Definition signalled (s : EventLoop) : Prop := 0 < ev_counter s \/ (0 < owed s)%nat.

(** The functors taken from the queue and not yet called. *)
Definition todo (p : phase) : list functor := match p with Calling _ rest => rest | _ => [] end.

Definition in_calling (p : phase) : bool := match p with Calling _ _ => true | _ => false end.

(** Nobody has used the loop since its thread queued [fs] before [StartLoop]. *)
Definition untouched (fs : list functor) (s : EventLoop) : Prop :=
  queued s = fs /\ functors_ s = fs /\ ran s = [] /\ quit_ s = false.

Record loop_inv (fs : list functor) (s : EventLoop) : Prop := {
  li_counter : 0 <= ev_counter s <= EVENTFD_MAX;
  li_calling : calling_functors_ s = in_calling (at_ s);
  li_looping : looping_ s = match at_ s with NotStarted | Stopped => false | _ => true end;
  li_log : queued s = ran s ++ todo (at_ s) ++ functors_ s;
  li_quit : at_ s = Stopped -> quit_ s = true;
  li_wake :
    match at_ s with
    | NotStarted | Polling => functors_ s <> [] \/ quit_ s = true -> signalled s \/ untouched fs s
    | Calling acts _ => functors_ s <> [] -> signalled s \/ AWakeup ∈ acts
    | _ => True
    end
}.

Lemma WriteEventFd_range n : 0 <= n <= EVENTFD_MAX -> 0 < WriteEventFd n <= EVENTFD_MAX.
Proof. unfold WriteEventFd, EVENTFD_MAX. case_bool; lia. Qed.

Lemma inv_init fs : loop_inv fs (make_EventLoop fs).
Proof.
  split; try done. cbn. intros _. by right.
Qed.

(** A call made by a callback queues functors, sets [quit_] or wakes the loop. *)
Lemma run_act_spec body s a s' new :
  run_act body s a = (s', new) -> 0 <= ev_counter s <= EVENTFD_MAX ->
  exists xs, functors_ s' = functors_ s ++ xs /\ queued s' = queued s ++ xs /\ ran s' = ran s /\
    at_ s' = at_ s /\ looping_ s' = looping_ s /\ calling_functors_ s' = calling_functors_ s /\
    owed s' = owed s /\ quitting s' = quitting s /\ ev_counter s <= ev_counter s' <= EVENTFD_MAX /\
    (quit_ s = true -> quit_ s' = true) /\
    (a = AWakeup -> 0 < ev_counter s') /\
    (calling_functors_ s = true -> xs <> [] -> AWakeup ∈ new).
Proof.
  intros E Hc. destruct a; cbn in E.
  - injection E as <- <-. exists [f]. split_and!; try done; [cbn; lia..|]. intros -> _. constructor.
  - injection E as <- <-. exists []. rewrite !app_nil_r. split_and!; done || lia.
  - unfold Quit_test in E. destruct (quit_ s) eqn:Eq; injection E as <- <-;
      exists []; rewrite !app_nil_r; split_and!; done || (cbn; lia).
  - injection E as <- <-. exists []. rewrite !app_nil_r. pose proof (WriteEventFd_range _ Hc).
    assert (ev_counter s <= WriteEventFd (ev_counter s)) by (unfold WriteEventFd; case_bool; lia).
    split_and!; done || (cbn; lia).
Qed.

Lemma inv_act body fs s a s' new p acts :
  loop_inv fs s -> run_act body s a = (s', new) ->
  (exists rest, at_ s = Handling (a :: acts) rest /\ p = Handling (new ++ acts) rest) \/
  (exists rest, at_ s = Calling (a :: acts) rest /\ p = Calling (new ++ acts) rest) ->
  loop_inv fs (with_at s' p).
Proof.
  intros [C K L G Q W] E Hp. destruct (run_act_spec _ _ _ _ _ E C)
    as (xs & Hf & Hq & Hr & Ha & Hl & Hcf & Ho & Hqu & Hc & Hquit & Hw & Hn).
  assert (todo p = todo (at_ s)) as Ht by (destruct Hp as [(rest & -> & ->)|(rest & -> & ->)]; done).
  assert (in_calling p = in_calling (at_ s)) as Hi by (destruct Hp as [(rest & -> & ->)|(rest & -> & ->)]; done).
  split; cbn.
  - lia.
  - congruence.
  - rewrite Hl, L. destruct Hp as [(rest & -> & ->)|(rest & -> & ->)]; done.
  - rewrite Hq, Hr, Hf, G, Ht. by rewrite <- !app_assoc.
  - intros ->. destruct Hp as [(rest & _ & E')|(rest & _ & E')]; done.
  - destruct Hp as [(rest & Hat & ->)|(rest & Hat & ->)]; [done|].
    rewrite Hat in W. intros Hne. unfold signalled in *. cbn.
    destruct (decide (xs = [])) as [->|Hx].
    + rewrite app_nil_r in Hf. rewrite Hf in Hne. destruct (W Hne) as [[?|?]|Hin]; [left; lia|left; right; lia|].
      apply elem_of_cons in Hin as [<-|Hin]; [left; left; by apply Hw|right; apply elem_of_app; by right].
    + right. apply elem_of_app. left. apply Hn; [|done]. by rewrite K, Hat.
Qed.

(** The test at the head of the loop. *)
Lemma inv_test fs s :
  0 <= ev_counter s <= EVENTFD_MAX -> calling_functors_ s = false -> looping_ s = true ->
  queued s = ran s ++ functors_ s -> (quit_ s = false -> functors_ s <> [] -> signalled s \/ untouched fs s) ->
  loop_inv fs (loop_test s).
Proof.
  intros C K L G W. unfold loop_test. destruct (quit_ s) eqn:Eq; split; cbn; try done.
  intros [Hne|Hq]; [by apply W|congruence].
Qed.

Lemma inv_step body fs l s s' : loop_inv fs s -> step body l s = Some s' -> loop_inv fs s'.
Proof.
  intros I E. pose proof I as [C K L G Q W]. destruct l; cbn in E.
  - (* Owner *)
    unfold StartLoop_step in E. destruct (at_ s) as [| |[|a acts] [|h rest]|[|a acts] [|f rest]|] eqn:Ep; try done.
    + rewrite L in E. cbn in E. injection E as <-. apply inv_test; cbn; try done. intros _ Hne. by apply W; left.
    + injection E as <-. unfold CallFunctors. case_bool.
      * apply inv_test; try done. intros Hq. congruence.
      * split; cbn; try done. by rewrite G, app_nil_r.
    + destruct h; cbn in E; injection E as <-; by split.
    + destruct (run_act body s a) as [s1 new] eqn:Ea. injection E as <-. eapply inv_act; [done|done|]. left. by eexists.
    + destruct (run_act body s a) as [s1 new] eqn:Ea. injection E as <-. eapply inv_act; [done|done|]. left. by eexists.
    + injection E as <-. unfold end_functors. apply inv_test; cbn; try done. intros _ Hne.
      destruct (W Hne) as [Hs|Hs]; [by left|]. by apply not_elem_of_nil in Hs.
    + injection E as <-. split; cbn; try done; [by rewrite G, <- !app_assoc|].
      intros Hne. destruct (W Hne) as [Hs|Hs]; [by left|]. by apply not_elem_of_nil in Hs.
    + destruct (run_act body s a) as [s1 new] eqn:Ea. injection E as <-. eapply inv_act; [done|done|]. right. by eexists.
    + destruct (run_act body s a) as [s1 new] eqn:Ea. injection E as <-. eapply inv_act; [done|done|]. right. by eexists.
  - (* PollReturns *)
    destruct (at_ s) eqn:Ep; try done. destruct (poll_result s evs); [|done]. injection E as <-. by split.
  - (* OtherQueues *)
    injection E as <-. split; cbn; try done; [by rewrite G, <- !app_assoc|].
    destruct (at_ s); try done; intros _; left; right; cbn; lia.
  - (* OtherQuits *)
    destruct (Quit_test s); injection E as <-; [|done]. by split.
  - (* OtherSetsQuit *)
    destruct (quitting s) as [|q]; [done|]. injection E as <-. split; cbn; try done.
    destruct (at_ s); try done; try (intros _; left; right; cbn; lia).
  - (* OtherWakes *)
    destruct (owed s) as [|n] eqn:Eo; [done|]. injection E as <-. pose proof (WriteEventFd_range _ C). split; cbn; try done; [lia|].
    destruct (at_ s); try done; intros _; left; left; cbn; lia.
Qed.

Lemma reachable_inv body fs s : reachable body fs s -> loop_inv fs s.
Proof. induction 1; [apply inv_init|by eapply inv_step]. Qed.

(** ** Progress of the loop's thread *)

Section progress.
Context (body : functor -> list act) (rank : functor -> nat).

(** Functors that call functors with [RunInLoop] do not do so forever. *)
Hypothesis rank_decreases : forall f g, ARun g ∈ body f -> (rank g < rank f)%nat.

Definition below (n : nat) (a : act) : Prop := match a with ARun f => (rank f < n)%nat | _ => True end.

(** [s'] is reached when the loop's thread alone goes on from [s]. *)
Definition owner_reaches (s s' : EventLoop) : Prop := exists n, run body (repeat Owner n) s = Some s'.

(** Callbacks only add functors to the queue. *)
Definition grows (s s' : EventLoop) : Prop :=
  (exists xs, functors_ s' = functors_ s ++ xs) /\ ran s' = ran s /\ (quit_ s = true -> quit_ s' = true).

Lemma grows_refl s : grows s s.
Proof. split; [exists []; by rewrite app_nil_r|done]. Qed.

Lemma grows_trans s1 s2 s3 : grows s1 s2 -> grows s2 s3 -> grows s1 s3.
Proof.
  intros ([xs Hx] & Hr & Hq) ([ys Hy] & Hr' & Hq'). split; [|split; [congruence|auto]].
  exists (xs ++ ys). by rewrite Hy, Hx, app_assoc.
Qed.

Lemma run_app ls1 ls2 s : run body (ls1 ++ ls2) s = (s ← run body ls1 s; run body ls2 s).
Proof. revert s. induction ls1 as [|l ls1 IH]; intros s; cbn; [done|]. destruct (step body l s); cbn; auto. Qed.

Lemma owner_refl s : owner_reaches s s.
Proof. by exists 0%nat. Qed.

Lemma owner_trans s1 s2 s3 : owner_reaches s1 s2 -> owner_reaches s2 s3 -> owner_reaches s1 s3.
Proof.
  intros [n Hn] [m Hm]. exists (n + m)%nat. rewrite repeat_app, run_app, Hn. exact Hm.
Qed.

Lemma owner_one s s' s2 : StartLoop_step body s = Some s' -> owner_reaches s' s2 -> owner_reaches s s2.
Proof. intros E [n Hn]. exists (S n). cbn. by rewrite E. Qed.

Lemma owner_reachable fs s s' : reachable body fs s -> owner_reaches s s' -> reachable body fs s'.
Proof.
  intros Hr [n Hn]. revert s Hr Hn. induction n as [|n IH]; intros s Hr Hn; [by injection Hn as <-|].
  cbn in Hn. destruct (StartLoop_step body s) as [s1|] eqn:E; [|done]. apply (IH s1); [|done].
  by eapply (reach_step _ _ Owner).
Qed.

(** A phase with a callback running. *)
Definition busy (p : phase) (acts : list act) : Prop :=
  (exists rest, p = Handling acts rest) \/ (exists rest, p = Calling acts rest).
Definition set_acts (p : phase) (acts : list act) : phase :=
  match p with Handling _ rest => Handling acts rest | Calling _ rest => Calling acts rest | p => p end.

Lemma busy_set p acts acts' : busy p acts -> busy (set_acts p acts') acts'.
Proof. intros [[rest ->]|[rest ->]]; [left|right]; by exists rest. Qed.

Lemma set_set p acts acts' : set_acts (set_acts p acts) acts' = set_acts p acts'.
Proof. by destruct p. Qed.

(** The callback's next call: one step. *)
Lemma busy_step s a acts s1 new :
  busy (at_ s) (a :: acts) -> run_act body s a = (s1, new) ->
  StartLoop_step body s = Some (with_at s1 (set_acts (at_ s) (new ++ acts))).
Proof. unfold StartLoop_step. intros [[rest ->]|[rest ->]] ->; done. Qed.

Definition finishes (acts : list act) : Prop :=
  forall s more, busy (at_ s) (acts ++ more) -> 0 <= ev_counter s <= EVENTFD_MAX ->
  exists s', owner_reaches s s' /\ at_ s' = set_acts (at_ s) more /\ grows s s' /\ 0 <= ev_counter s' <= EVENTFD_MAX.

Lemma finishes_cons a acts : finishes [a] -> finishes acts -> finishes (a :: acts).
Proof.
  intros H1 H2 s more Hb Hc. destruct (H1 s (acts ++ more)) as (s1 & R1 & E1 & G1 & C1); [done|done|].
  destruct (H2 s1 more) as (s2 & R2 & E2 & G2 & C2); [rewrite E1; by eapply busy_set|done|].
  exists s2. split; [by eapply owner_trans|]. split; [by rewrite E2, E1, set_set|].
  split; [by eapply grows_trans|done].
Qed.

Lemma finishes_step a :
  (forall s s1 new, run_act body s a = (s1, new) -> finishes new) -> finishes [a].
Proof.
  intros Hn s more Hb Hc. destruct (run_act body s a) as [s1 new] eqn:E.
  destruct (run_act_spec _ _ _ _ _ E Hc) as (xs & Hf & _ & Hr & Ha & _ & _ & _ & _ & Hc1 & Hq & _).
  destruct (Hn _ _ _ E (with_at s1 (set_acts (at_ s) (new ++ more))) more) as (s2 & R2 & E2 & G2 & C2).
  { cbn. by eapply busy_set. }
  { cbn. lia. }
  exists s2. split; [eapply owner_one; [exact (busy_step s a more s1 new Hb E)|done]|]. split; [rewrite E2; apply set_set|].
  split; [|done]. eapply grows_trans; [|exact G2]. split; [by exists xs|]. by split.
Qed.

Lemma finishes_nil : finishes [].
Proof.
  intros s more Hb Hc. exists s. split; [apply owner_refl|]. split; [|split; [apply grows_refl|done]].
  destruct Hb as [[rest Hp]|[rest Hp]]; by rewrite Hp.
Qed.

Lemma finishes_wakeup : finishes [AWakeup].
Proof. apply finishes_step. intros s s1 new [= <- <-]. apply finishes_nil. Qed.

Lemma callback_finishes n acts : Forall (below n) acts -> finishes acts.
Proof.
  revert acts. induction n as [n IH] using lt_wf_ind. intros acts.
  induction 1 as [|a acts Ha _ IHa]; [apply finishes_nil|]. apply finishes_cons; [|done].
  apply finishes_step. intros s s1 new E. destruct a; cbn in E, Ha.
  - injection E as <- <-. destruct (calling_functors_ s); [apply finishes_wakeup|apply finishes_nil].
  - injection E as <- <-. apply (IH (rank f)); [done|]. apply Forall_forall. intros [] Hin; try done.
    by apply rank_decreases.
  - destruct (Quit_test s); injection E as <- <-; apply finishes_nil.
  - injection E as <- <-. apply finishes_nil.
Qed.

Lemma callback_finishes' acts : finishes acts.
Proof.
  apply (callback_finishes (S (foldr (fun a m => match a with ARun f => Nat.max (rank f) m | _ => m end) 0%nat acts))).
  induction acts as [|a acts IH]; constructor.
  - destruct a; cbn; lia.
  - eapply Forall_impl; [exact IH|]. intros []; cbn; destruct a; lia.
Qed.

(** The second phase ends. *)
Lemma handling_finishes rest s :
  at_ s = Handling [] rest -> 0 <= ev_counter s <= EVENTFD_MAX ->
  exists s', owner_reaches s s' /\ at_ s' = Handling [] [] /\ grows s s' /\ 0 <= ev_counter s' <= EVENTFD_MAX /\
    (Forall (eq EvChannel) rest -> quit_ s' = quit_ s).
Proof.
  revert s. induction rest as [|h rest IH]; intros s E Hc.
  { exists s. split; [apply owner_refl|]. split; [done|]. split; [apply grows_refl|done]. }
  destruct h as [|acts].
  - destruct (IH (with_at (EvRead s) (Handling [] rest))) as (s3 & R3 & E3 & G3 & C3 & Q3); [done|done|].
    exists s3. split; [eapply owner_one; [unfold StartLoop_step; by rewrite E|done]|]. split; [done|].
    split; [done|]. split; [done|]. intros Hf. apply Forall_cons in Hf as [_ Hf]. by apply Q3.
  - destruct (callback_finishes' acts (with_at s (Handling acts rest)) []) as (s2 & R2 & E2 & G2 & C2).
    { rewrite app_nil_r. left. by exists rest. }
    { done. }
    destruct (IH s2) as (s3 & R3 & E3 & G3 & C3 & _); [done|done|]. exists s3. split.
    + eapply owner_one; [unfold StartLoop_step; by rewrite E|]. by eapply owner_trans.
    + split; [done|]. split; [exact (grows_trans s s2 s3 G2 G3)|]. split; [done|].
      intros Hf. by apply Forall_cons in Hf as [Hf _].
Qed.

(** The third phase calls everything that was taken from the queue. *)
Lemma calling_finishes rest s :
  at_ s = Calling [] rest -> 0 <= ev_counter s <= EVENTFD_MAX ->
  exists s', owner_reaches s s' /\ at_ s' = Calling [] [] /\ ran s' = ran s ++ rest /\
    0 <= ev_counter s' <= EVENTFD_MAX.
Proof.
  revert s. induction rest as [|f rest IH]; intros s E Hc.
  { exists s. rewrite app_nil_r. split; [apply owner_refl|done]. }
  destruct (callback_finishes' (body f) (call_functor body s f rest) []) as (s2 & R2 & E2 & (_ & G2 & _) & C2).
  { rewrite app_nil_r. right. by exists rest. }
  { done. }
  destruct (IH s2) as (s3 & R3 & E3 & G3 & C3); [done|done|]. exists s3. split; [|split; [done|split; [|done]]].
  - eapply owner_one; [unfold StartLoop_step; by rewrite E|]. by eapply owner_trans.
  - rewrite G3, G2. cbn. by rewrite <- app_assoc.
Qed.

(** The third phase as a whole, when no handler asked to quit. *)
Lemma functors_finish s :
  at_ s = Handling [] [] -> quit_ s = false -> 0 <= ev_counter s <= EVENTFD_MAX ->
  exists s', owner_reaches s s' /\ (at_ s' = Polling \/ at_ s' = Stopped /\ quit_ s' = true) /\
    ran s' = ran s ++ functors_ s.
Proof.
  intros E Hq Hc. set (s1 := CallFunctors s). assert (Ea : at_ s1 = Calling [] (functors_ s)) by (unfold s1, CallFunctors; by rewrite Hq).
  destruct (calling_finishes (functors_ s) s1) as (s2 & R2 & E2 & Hr2 & C2); [done|unfold s1, CallFunctors; by rewrite Hq|].
  exists (end_functors s2). split; [|split].
  - eapply owner_one; [unfold StartLoop_step; by rewrite E|]. eapply owner_trans; [exact R2|].
    eapply owner_one; [unfold StartLoop_step; by rewrite E2|apply owner_refl].
  - unfold end_functors, loop_test. cbn. case_bool; [by right|by left].
  - replace (ran s) with (ran s1) by (unfold s1, CallFunctors; by rewrite Hq). rewrite <- Hr2.
    unfold end_functors, loop_test. by case_bool.
Qed.

End progress.

(** The threads that still have to wake the loop do so. *)
Lemma wakes_deliver body s :
  0 <= ev_counter s <= EVENTFD_MAX -> signalled s ->
  exists s', run body (repeat OtherWakes (owed s)) s = Some s' /\ 0 < ev_counter s' <= EVENTFD_MAX /\
    at_ s' = at_ s /\ functors_ s' = functors_ s /\ ran s' = ran s /\ quit_ s' = quit_ s.
Proof.
  remember (owed s) as n eqn:En. revert s En. induction n as [|n IH]; intros s En Hc Hs.
  { exists s. split; [done|]. destruct Hs as [?|?]; [|lia]. split_and!; try done; lia. }
  cbn [repeat run]. unfold step at 1. rewrite <- En. cbn [mbind option_bind].
  pose proof (WriteEventFd_range _ Hc) as Hw.
  destruct (IH (with_threads (Wakeup s) n (quitting s))) as (s' & E & Hc' & Rest); cbn; [done|lia|left; cbn; lia|].
  exists s'. by split.
Qed.

Lemma blocked_signalled fs s :
  loop_inv fs s -> at_ s = Polling -> functors_ s <> [] \/ quit_ s = true -> signalled s \/ untouched fs s.
Proof. intros I Hp Hq. pose proof (li_wake _ _ I) as W. rewrite Hp in W. by apply W. Qed.

(** ** Properties *)

(** C4 No wakeup is lost, however the threads interleave, except for the functors [fs]
    that the loop's own thread queued before [StartLoop]: when the loop waits in [Poll]
    while functors are queued or [Quit] was called, its eventfd is readable or a thread
    is about to write to it, or [fs] are all that was ever queued, none of them has run
    and nobody has called [Quit]. *)
Theorem no_lost_wakeup (body : functor -> list act) (fs : list functor) (s : EventLoop) :
  reachable body fs s -> at_ s = Polling -> functors_ s <> [] \/ quit_ s = true ->
  signalled s \/ (queued s = fs /\ functors_ s = fs /\ ran s = [] /\ quit_ s = false).
Proof. intros Hr. by apply blocked_signalled, (reachable_inv body). Qed.

(** Another thread queues a functor between the time the loop took its queue and
    the time it blocks. *)
Definition demo_body (f : functor) : list act := match f with O => [AQueue 1%nat; ARun 2%nat] | _ => [] end.
Definition demo_schedule : list label :=
  [Owner; OtherQueues 0%nat; OtherWakes; PollReturns [EvChannel]; Owner; Owner; Owner; Owner; OtherQueues 3%nat;
   Owner; Owner; Owner; Owner].

Lemma run_reachable body fs ls s s' : reachable body fs s -> run body ls s = Some s' -> reachable body fs s'.
Proof.
  revert s. induction ls as [|l ls IH]; intros s Hr E; [by injection E as <-|]. cbn in E.
  destruct (step body l s) as [s1|] eqn:E1; [|done]. apply (IH s1); [|done]. by eapply reach_step.
Qed.

Lemma no_lost_wakeup_witness :
  exists s, run demo_body demo_schedule (make_EventLoop [2%nat]) = Some s /\ functors_ s = [3%nat; 1%nat] /\
    (signalled s \/ (queued s = [2%nat] /\ functors_ s = [2%nat] /\ ran s = [] /\ quit_ s = false)).
Proof.
  eexists. split; [vm_compute; reflexivity|]. split; [reflexivity|].
  apply (no_lost_wakeup demo_body [2%nat]); [|reflexivity|left; discriminate].
  eapply (run_reachable _ _ demo_schedule); [apply reach_init|vm_compute; reflexivity].
Defined.

(** Functors run in the order in which they were queued, each at most once:
    at any time the functors called so far, those taken from the queue and those
    in it are, in this order, all functors ever queued. *)
Theorem functors_fifo (body : functor -> list act) (fs : list functor) (s : EventLoop) :
  reachable body fs s -> queued s = ran s ++ todo (at_ s) ++ functors_ s.
Proof. intros Hr. apply (li_log _ _ (reachable_inv _ _ _ Hr)). Qed.

Lemma functors_fifo_witness :
  exists s, run demo_body (demo_schedule ++ [OtherWakes; PollReturns [EvChannel]; Owner; Owner; Owner])
      (make_EventLoop [2%nat]) = Some s /\
    queued s = [2%nat; 0%nat; 3%nat; 1%nat] /\ ran s = [2%nat; 0%nat; 3%nat] /\ queued s = ran s ++ todo (at_ s) ++ functors_ s.
Proof.
  eexists. split; [vm_compute; reflexivity|]. split; [reflexivity|]. split; [reflexivity|].
  apply (functors_fifo demo_body [2%nat]).
  eapply (run_reachable _ _ (demo_schedule ++ [OtherWakes; PollReturns [EvChannel]; Owner; Owner; Owner]));
    [apply reach_init|vm_compute; reflexivity].
Defined.

(** C28 A queued functor is called. Let the loop wait in [Poll] with functors queued, at
    least one of them since it started, and let callbacks not call each other with
    [RunInLoop] in a cycle. Once the threads that owe a wakeup write it, [Poll] can
    return with the eventfd among the active channels, and the loop's thread on its own
    then calls all of these functors and waits again or stops, unless a channel's
    handler calls [Quit] first. *)
Theorem loop_runs_queued (body : functor -> list act) (rank : functor -> nat) (fs : list functor) (s : EventLoop)
    (evs : list active) :
  (forall f g, ARun g ∈ body f -> (rank g < rank f)%nat) ->
  reachable body fs s -> queued s <> fs -> at_ s = Polling -> functors_ s <> [] -> quit_ s = false -> EvChannel ∈ evs ->
  exists n s', run body (repeat OtherWakes (owed s) ++ PollReturns evs :: repeat Owner n) s = Some s' /\
    (at_ s' = Polling \/ at_ s' = Stopped /\ quit_ s' = true) /\
    ((ran s ++ functors_ s) `prefix_of` ran s' \/ at_ s' = Stopped /\ evs <> [EvChannel]).
Proof.
  intros Hrk Hr Hnew Hp Hf Hq Hev. pose proof (reachable_inv _ _ _ Hr) as I.
  assert (signalled s) as Hsig by (destruct (blocked_signalled fs s I Hp) as [?|[? _]]; auto; done).
  destruct (wakes_deliver body s) as (s1 & E1 & C1 & P1 & F1 & R1 & Q1);
    [apply (li_counter _ _ I)|done|].
  set (s2 := with_at s1 (Handling [] evs)).
  assert (step body (PollReturns evs) s1 = Some s2) as E2.
  { cbn. rewrite P1, Hp. unfold poll_result. rewrite (proj2 (existsb_exists _ _)).
    2:{ exists EvChannel. by rewrite <- list_elem_of_In. }
    by rewrite (proj2 (Z.ltb_lt _ _)) by lia. }
  destruct (handling_finishes body rank Hrk evs s2) as (s3 & R3 & E3 & ([xs G3] & Gr3 & _) & C3 & Q3); [done|cbn; lia|].
  assert (forall s4, owner_reaches body s3 s4 ->
    exists n, run body (repeat OtherWakes (owed s) ++ PollReturns evs :: repeat Owner n) s = Some s4) as Hrun.
  { intros s4 R4. destruct (owner_trans _ _ _ _ R3 R4) as [n Hn]. exists n. rewrite run_app, E1. cbn [mbind option_bind run].
    by rewrite E2. }
  destruct (quit_ s3) eqn:Eq3.
  - destruct (Hrun (with_at (with_looping s3 false) Stopped)) as [n Hn].
    { eapply owner_one; [|apply owner_refl]. unfold StartLoop_step, CallFunctors, loop_test. by rewrite E3, Eq3. }
    exists n. eexists. split; [done|]. split; [by right|]. right. split; [done|]. intros ->.
    assert (true = quit_ s1) as E by (apply Q3; by repeat constructor). congruence.
  - destruct (functors_finish body rank Hrk s3) as (s4 & R4 & A4 & Ran4); [done|done|done|].
    destruct (Hrun s4 R4) as [n Hn]. exists n, s4. split; [done|]. split; [done|]. left.
    rewrite Ran4, Gr3, G3. cbn. rewrite R1, F1. exists xs. by rewrite <- app_assoc.
Qed.

Definition demo_state : EventLoop :=
  match run demo_body demo_schedule (make_EventLoop [2%nat]) with Some s => s | None => make_EventLoop [] end.

Lemma demo_rank f g : ARun g ∈ demo_body f -> (3 - g < 3 - f)%nat.
Proof.
  destruct f as [|f]; intros Hin; cbn in Hin; [|by apply not_elem_of_nil in Hin].
  apply elem_of_cons in Hin as [Hin|Hin]; [done|]. apply elem_of_cons in Hin as [Hin|Hin]; [injection Hin as ->; lia|].
  by apply not_elem_of_nil in Hin.
Qed.

Lemma loop_runs_queued_witness :
  exists n s', run demo_body (repeat OtherWakes (owed demo_state) ++ PollReturns [EvChannel] :: repeat Owner n)
      demo_state = Some s' /\
    (at_ s' = Polling \/ at_ s' = Stopped /\ quit_ s' = true) /\
    ([2%nat; 0%nat] ++ [3%nat; 1%nat] `prefix_of` ran s' \/ at_ s' = Stopped /\ [EvChannel] <> [EvChannel]).
Proof.
  apply (loop_runs_queued demo_body (fun f => (3 - f)%nat) [2%nat] demo_state [EvChannel]);
    [exact demo_rank| |vm_compute; discriminate|reflexivity|vm_compute; discriminate|reflexivity|constructor].
  eapply (run_reachable _ _ demo_schedule); [apply reach_init|vm_compute; reflexivity].
Defined.

(** ** Behaviours outside these properties *)

(** A functor queued by the loop's own thread before [StartLoop] is not run: the
    loop waits in [Poll], without a time limit, and nothing wakes it. *)
Lemma queued_before_start_blocks body f :
  exists s, run body [Owner] (make_EventLoop [f]) = Some s /\ at_ s = Polling /\ functors_ s = [f] /\
    ~ signalled s /\ step body Owner s = None /\ step body (PollReturns [EvChannel]) s = None.
Proof.
  eexists. split; [reflexivity|]. split; [done|]. split; [done|]. split; [intros [?|?]; cbn in *; lia|]. done.
Qed.

(** Functors that are queued when [quit_] is set are never called. *)
Lemma quit_drops_functors body f :
  exists s, run body [Owner; OtherQueues f; OtherWakes; OtherQuits; OtherSetsQuit; PollReturns [EvChannel]; Owner; Owner]
      (make_EventLoop []) = Some s /\ at_ s = Stopped /\ functors_ s = [f] /\ ran s = [].
Proof. eexists. split; [vm_compute; reflexivity|]. done. Qed.
