(* ===== verification/Connection.v ===== *)
(** * Connections: kanon/net/connection/connection_base.{h,cc},
    kanon/linux/net/connection/connection_base.inl

    A connection owns a socket, its channel, an input [Buffer] and an output
    [ChunkList].  The handlers are functions of the state and of what the system
    calls return.  [wire] and [accepted] record the bytes the kernel took and
    the bytes that were to be sent; [tasks] is what was queued to the loop,
    [calls] the callbacks made.  Callbacks are the last action of a handler, so
    that what they do with the connection is done by the following operations;
    the write complete callback, whose result is used, is given its sends. *)

From Stdlib Require Import ZArith Lia.
From stdpp Require Import list.
From S2P Require Import Prelude Buffer ForwardList ChunkList Poller.

Inductive State := kConnecting | kConnected | kDisconnecting | kDisconnected.

#[export] Instance State_eq_dec : EqDecision State.
Proof. solve_decision. Defined.

Definition EAGAIN : Z := 11.

Definition sys_write := list byte -> write_result.

(** What is queued to the loop with [QueueToLoop] or [RunInLoop]. *)
Inductive task :=
| TSend (data : list byte)          (* SendInLoopForStr *)
| TSendBuf (buf : Buffer)           (* SendInLoopForBuf *)
| TSendChunks (l : ChunkList)       (* SendInLoopForChunkList *)
| TWriteComplete                    (* write_complete_callback_ *)
| TCallWriteComplete                (* CallWriteCompleteCallback *)
| THighWaterMark (n : Z)
| TShutdown                         (* the lambda of ShutdownWrite *)
| TClose.                           (* HandleClose *)

Inductive callback :=
| CbConnection (s : State) | CbMessage (content : list byte) | CbWriteComplete | CbHighWaterMark (n : Z) | CbClose.

(** The callbacks that are set; a message callback takes bytes off the input. *)
Record callbacks := mkCallbacks {
  message_callback_ : option (Buffer -> option Buffer);
  write_complete_callback_ : bool;
  high_water_mark_callback_ : bool;
  close_callback_ : bool;
  high_water_mark_ : Z
}.

Record Connection := mkConn {
  state_ : State;
  channel_ : Channel;
  input_buffer_ : Buffer;
  output_buffer_ : ChunkList;
  shut_wr : bool;           (* socket_->ShutdownWrite() was called *)
  removed : bool;           (* the channel was removed from its poller *)
  wire : list byte;
  accepted : list byte;     (* what was given to Send and not refused *)
  refused : list (list byte);   (* messages given to Send whose write(2) failed *)
  tasks : list task;
  calls : list callback
}.

Definition with_state (c : Connection) (s : State) : Connection :=
  mkConn s (channel_ c) (input_buffer_ c) (output_buffer_ c) (shut_wr c) (removed c) (wire c) (accepted c) (refused c) (tasks c) (calls c).
Definition with_channel (c : Connection) (ch : Channel) : Connection :=
  mkConn (state_ c) ch (input_buffer_ c) (output_buffer_ c) (shut_wr c) (removed c) (wire c) (accepted c) (refused c) (tasks c) (calls c).
Definition with_input (c : Connection) (b : Buffer) : Connection :=
  mkConn (state_ c) (channel_ c) b (output_buffer_ c) (shut_wr c) (removed c) (wire c) (accepted c) (refused c) (tasks c) (calls c).
Definition with_output (c : Connection) (l : ChunkList) : Connection :=
  mkConn (state_ c) (channel_ c) (input_buffer_ c) l (shut_wr c) (removed c) (wire c) (accepted c) (refused c) (tasks c) (calls c).
Definition with_shut (c : Connection) : Connection :=
  mkConn (state_ c) (channel_ c) (input_buffer_ c) (output_buffer_ c) true (removed c) (wire c) (accepted c) (refused c) (tasks c) (calls c).
Definition with_removed (c : Connection) : Connection :=
  mkConn (state_ c) (channel_ c) (input_buffer_ c) (output_buffer_ c) (shut_wr c) true (wire c) (accepted c) (refused c) (tasks c) (calls c).
Definition put_wire (c : Connection) (bs : list byte) : Connection :=
  mkConn (state_ c) (channel_ c) (input_buffer_ c) (output_buffer_ c) (shut_wr c) (removed c) (wire c ++ bs) (accepted c) (refused c) (tasks c) (calls c).
Definition accept_bytes (c : Connection) (bs : list byte) : Connection :=
  mkConn (state_ c) (channel_ c) (input_buffer_ c) (output_buffer_ c) (shut_wr c) (removed c) (wire c) (accepted c ++ bs) (refused c) (tasks c) (calls c).
Definition refuse (c : Connection) (bs : list byte) : Connection :=
  mkConn (state_ c) (channel_ c) (input_buffer_ c) (output_buffer_ c) (shut_wr c) (removed c) (wire c) (accepted c) (refused c ++ [bs]) (tasks c) (calls c).
Definition with_tasks (c : Connection) (ts : list task) : Connection :=
  mkConn (state_ c) (channel_ c) (input_buffer_ c) (output_buffer_ c) (shut_wr c) (removed c) (wire c) (accepted c) (refused c) ts (calls c).
Definition QueueTask (c : Connection) (t : task) : Connection := with_tasks c (tasks c ++ [t]).
Definition call (c : Connection) (cb : callback) : Connection :=
  mkConn (state_ c) (channel_ c) (input_buffer_ c) (output_buffer_ c) (shut_wr c) (removed c) (wire c) (accepted c) (refused c) (tasks c) (calls c ++ [cb]).

(** The channel's operations; their effect on the poller is in [Poller]. *)
Definition set_events (c : Connection) (f : Z -> Z) : Connection :=
  with_channel c (SetEvents (channel_ c) (f (events_ (channel_ c)))).
Definition ch_EnableReading (c : Connection) : Connection := set_events c (fun e => Z.lor e ReadEvent).
Definition ch_EnableWriting (c : Connection) : Connection := set_events c (fun e => Z.lor e WriteEvent).
Definition ch_DisableReading (c : Connection) : Connection := set_events c (fun e => Z.land e (Z.lnot ReadEvent)).
Definition ch_DisableWriting (c : Connection) : Connection := set_events c (fun e => Z.land e (Z.lnot WriteEvent)).
Definition ch_DisableAll (c : Connection) : Connection := set_events c (fun _ => NoneEvent).
Definition writing (c : Connection) : bool := IsWriting (channel_ c).
Definition reading (c : Connection) : bool := IsReading (channel_ c).

(** ** Operations *)

Section connection.
Context `{Heap} (cb : callbacks) (edge : bool).

Definition make_Connection (sockfd : Z) (input : Buffer) : Connection :=
  mkConn kConnecting (make_Channel sockfd) input empty_ChunkList false false [] [] [] [] [].

Definition ConnectionEstablished (c : Connection) : option Connection :=
  assert! bool_decide (state_ c = kConnecting);
  Some (call (ch_EnableReading (with_state c kConnected)) (CbConnection kConnected)).

Definition ConnectionDestroyed (c : Connection) : option Connection :=
  let c := if decide (state_ c = kConnected)
           then call (with_state (ch_DisableAll c) kDisconnected) (CbConnection kDisconnected) else c in
  assert! bool_decide (state_ c = kDisconnected);
  Some (with_removed c).

Definition HandleClose (c : Connection) : option Connection :=
  assert! bool_decide (state_ c = kConnected \/ state_ c = kDisconnecting);
  let c := ch_DisableAll (with_state c kDisconnected) in
  let c := call c (CbConnection kDisconnected) in
  Some (if close_callback_ cb then call c CbClose else c).

(** [HandleError] reports the error of the socket. *)
Definition HandleError (c : Connection) : Connection := c.

(** The message callback, or everything is thrown away. *)
Definition deliver (c : Connection) : option Connection :=
  match message_callback_ cb with
  | Some f =>
    b ← f (input_buffer_ c);
    Some (with_input (call c (CbMessage (Buffer.content (input_buffer_ c)))) b)
  | None => b ← Buffer.AdvanceAll (input_buffer_ c); Some (with_input c b)
  end.

Definition HandleLtRead (c : Connection) (rv : readv_result) : option Connection :=
  '(b, n, saved_errno) ← BufferReadFromFd (input_buffer_ c) rv;
  let c := with_input c b in
  match saved_errno with
  | Some e => Some (if e =? EAGAIN then c else HandleError c)
  | None =>
    if n =? 0 then HandleClose c
    else assert! (0 <? n) && negb (n =? u64 (-1)); deliver c
  end.

(** Edge triggered: reads until the kernel has nothing left; [rvs] are the
    results of the calls to readv. [saved_errno] is not cleared between calls. *)
Fixpoint HandleEtRead (saved_errno : option Z) (c : Connection) (rvs : list readv_result) : option Connection :=
  match rvs with
  | [] => None
  | rv :: rvs =>
    '(b, readn, e) ← BufferReadFromFd (input_buffer_ c) rv;
    let c := with_input c b in
    let saved_errno := match e with Some e => Some e | None => saved_errno end in
    if bool_decide (saved_errno = Some EAGAIN) then Some c else
    let c := match saved_errno with Some _ => HandleError c | None => c end in
    if readn =? 0 then HandleClose c
    else c ← deliver c; HandleEtRead saved_errno c rvs
  end.

Definition HandleRead (c : Connection) (rvs : list readv_result) : option Connection :=
  if edge then HandleEtRead None c rvs
  else rv ← head rvs; HandleLtRead c rv.

(** What the lambda of [ShutdownWrite] does. *)
Definition shutdown_lambda (c : Connection) : Connection :=
  if negb (writing c) || edge then with_shut c else c.

Definition ShutdownWrite (in_thread : bool) (c : Connection) : Connection :=
  if decide (state_ c = kConnected) then
    let c := with_state c kDisconnecting in
    if in_thread then shutdown_lambda c else QueueTask c TShutdown
  else c.

Definition ForceClose (in_thread : bool) (c : Connection) : option Connection :=
  if decide (state_ c = kConnected \/ state_ c = kDisconnecting) then
    let c := with_state c kDisconnecting in
    if in_thread then HandleClose c else Some (QueueTask c TClose)
  else Some c.

(** [ChunkListWriteFd] on the connection's socket: the result, the errno and the
    bytes the kernel took. *)
Definition WriteFd (sys : sys_write) (l : ChunkList) : option (Z * option Z * list byte) :=
  '(n, e) ← ChunkListWriteFd sys (fun v => sys (concat v)) l;
  Some (n, e, match sys (ChunkList.content l) with
              | WriteBytes k => take (Z.to_nat k) (ChunkList.content l)
              | WriteError _ => []
              end).

Definition HandleLtWrite (c : Connection) (sys : sys_write) : option Connection :=
  '(n, saved_errno, sent) ← WriteFd sys (output_buffer_ c);
  let c := put_wire c sent in
  let c := match saved_errno with Some e => if e =? EAGAIN then c else HandleError c | None => c end in
  if 0 <? n then
    out ← ChunkList.AdvanceRead (output_buffer_ c) n;
    let c := with_output c out in
    if negb (HasReadable out) then
      let c := if write_complete_callback_ cb then QueueTask c TCallWriteComplete else ch_DisableWriting c in
      Some (if decide (state_ c = kDisconnecting) then ShutdownWrite true c else c)
    else Some c
  else Some c.

(** The loop of [HandleEtWrite]; [sys k] is the system call of round [k]. *)
Fixpoint et_write_loop (fuel : nat) (k : nat) (c : Connection) (sys : nat -> sys_write) : option Connection :=
  match fuel with
  | O => None
  | S fuel =>
    '(writen, saved_errno, sent) ← WriteFd (sys k) (output_buffer_ c);
    let c := put_wire c sent in
    let c := match saved_errno with Some e => if e =? EAGAIN then c else HandleError c | None => c end in
    out ← ChunkList.AdvanceRead (output_buffer_ c) writen;
    let c := with_output c out in
    if negb (HasReadable out) && bool_decide (saved_errno = Some EAGAIN) then Some c
    else et_write_loop fuel (S k) c sys
  end.

Definition HandleEtWrite (fuel : nat) (c : Connection) (sys : nat -> sys_write) : option Connection :=
  c ← et_write_loop fuel 0 c sys;
  if HasReadable (output_buffer_ c) then Some (ch_EnableWriting c)
  else
    let c := if write_complete_callback_ cb then QueueTask c TCallWriteComplete else c in
    Some (if decide (state_ c = kDisconnecting) then with_shut c else c).

Definition HandleWrite (fuel : nat) (c : Connection) (sys : nat -> sys_write) : option Connection :=
  if negb (writing c) then assert! bool_decide (state_ c = kDisconnected); Some c
  else if edge then HandleEtWrite fuel c sys else HandleLtWrite c (sys O).

(** ** Sending *)

(** The last part of [SendInLoop]: what write did not take goes to the output
    buffer. *)
Definition send_remaining (c : Connection) (data : list byte) (n : Z) (remaining : Z) : option Connection :=
  if 0 <? remaining then
    c ← (if high_water_mark_callback_ cb then
           readable_len ← ChunkList.GetReadableSize (output_buffer_ c);
           Some (if (high_water_mark_ cb <=? readable_len + remaining) && (readable_len <? high_water_mark_ cb)
                 then QueueTask c (THighWaterMark (readable_len + remaining)) else c)
         else Some c);
    out ← ChunkList.Append (output_buffer_ c) (slice n remaining data);
    let c := with_output c out in
    Some (if negb (writing c) then ch_EnableWriting c else c)
  else Some c.

Definition SendInLoop (sys : sys_write) (c : Connection) (data : list byte) : option Connection :=
  let len := zlen data in
  if decide (state_ c <> kConnected) then Some c
  else
    if negb (HasReadable (output_buffer_ c)) then
      match sys data with
      | WriteBytes n =>
        let c := put_wire (accept_bytes c data) (take (Z.to_nat n) data) in
        if negb (n =? len) then send_remaining c data n (u64 (len - n))
        else
          let c := if write_complete_callback_ cb then QueueTask c TWriteComplete else c in
          Some (if writing c then ch_DisableWriting c else c)
      | WriteError _ => Some (refuse c data)
      end
    else send_remaining (accept_bytes c data) data 0 len.

Definition SendInLoopForBuf (sys : sys_write) (c : Connection) (buffer : Buffer) : option Connection :=
  if decide (state_ c <> kConnected) then Some c
  else if negb (HasReadable (output_buffer_ c)) then
    let c := accept_bytes c (Buffer.content buffer) in
    out ← ChunkList.Append (output_buffer_ c) (Buffer.content buffer);
    '(n, saved_errno, sent) ← WriteFd sys out;
    let c := put_wire (with_output c out) sent in
    if 0 <? n then
      out ← ChunkList.AdvanceRead out n;
      let c := with_output c out in
      if HasReadable out then
        readable_len ← ChunkList.GetReadableSize out;
        let c := if (high_water_mark_ cb <=? readable_len) && high_water_mark_callback_ cb
                 then QueueTask c (THighWaterMark readable_len) else c in
        Some (ch_EnableWriting c)
      else
        let c := if write_complete_callback_ cb then QueueTask c TWriteComplete else c in
        Some (if writing c then ch_DisableWriting c else c)
    else Some c
  else SendInLoop sys c (Buffer.content buffer).

(** The buffer is passed by reference and left with what was not sent. *)
Definition SendInLoopForChunkList (sys : sys_write) (c : Connection) (buffer : ChunkList)
  : option (Connection * ChunkList) :=
  '(write_n, saved_errno, sent) ← WriteFd sys buffer;
  let c := put_wire (accept_bytes c (ChunkList.content buffer)) sent in
  if 0 <? write_n then
    buffer ← ChunkList.AdvanceRead buffer write_n;
    if HasReadable buffer then
      readable_len ← ChunkList.GetReadableSize buffer;
      let c := if high_water_mark_callback_ cb && (high_water_mark_ cb <? readable_len)
               then QueueTask c (THighWaterMark (high_water_mark_ cb)) else c in
      if HasReadable (output_buffer_ c) then
        '(out, buffer) ← AppendChunkList (output_buffer_ c) buffer; Some (with_output c out, buffer)
      else Some (with_output c buffer, output_buffer_ c)
    else
      let c := if write_complete_callback_ cb then QueueTask c TCallWriteComplete else c in
      Some (if writing c then ch_DisableWriting c else c, buffer)
  else Some (c, buffer).

Definition Send (in_thread : bool) (sys : sys_write) (c : Connection) (data : list byte) : option Connection :=
  if decide (state_ c = kConnected) then
    if in_thread then SendInLoop sys c data else Some (QueueTask c (TSend data))
  else Some c.

Definition SendBuf (in_thread : bool) (sys : sys_write) (c : Connection) (buf : Buffer) : option Connection :=
  if decide (state_ c = kConnected) then
    if in_thread then SendInLoopForBuf sys c buf else Some (QueueTask c (TSendBuf buf))
  else Some c.

Definition SendChunks (in_thread : bool) (sys : sys_write) (c : Connection) (buffer : ChunkList)
  : option (Connection * ChunkList) :=
  if decide (state_ c = kConnected) then
    if in_thread then SendInLoopForChunkList sys c buffer
    else Some (QueueTask c (TSendChunks buffer), empty_ChunkList)
  else Some (c, buffer).

(** The sends a write complete callback makes. *)
Fixpoint Sends (c : Connection) (l : list (sys_write * list byte)) : option Connection :=
  match l with
  | [] => Some c
  | (sys, data) :: l => c ← Send true sys c data; Sends c l
  end.

(** [last] is what the callback returns. *)
Definition CallWriteCompleteCallback (c : Connection) (sends : list (sys_write * list byte)) (last : bool)
  : option Connection :=
  c ← Sends (call c CbWriteComplete) sends;
  Some (if last && writing c then ch_DisableWriting c else c).

Definition DisbaleRead (c : Connection) : Connection :=
  if bool_decide (state_ c = kConnected) && reading c then ch_DisableReading c else c.
Definition EnableRead (c : Connection) : Connection :=
  if bool_decide (state_ c = kConnected) && negb (reading c) then ch_EnableReading c else c.

(** The loop calls the next queued functor. *)
Definition run_task (sys : sys_write) (sends : list (sys_write * list byte)) (last : bool) (c : Connection)
  : option Connection :=
  match tasks c with
  | [] => Some c
  | t :: ts =>
    let c := with_tasks c ts in
    match t with
    | TSend data => SendInLoop sys c data
    | TSendBuf b => SendInLoopForBuf sys c b
    | TSendChunks l => '(c, _) ← SendInLoopForChunkList sys c l; Some c
    | TWriteComplete => Sends (call c CbWriteComplete) sends
    | TCallWriteComplete => CallWriteCompleteCallback c sends last
    | THighWaterMark n => Some (call c (CbHighWaterMark n))
    | TShutdown => Some (shutdown_lambda c)
    | TClose => HandleClose c
    end
  end.

End connection.

(** ** The level-triggered connection *)

(** What the environment does with a connection. *)
Inductive conn_op :=
| OpEstablish
| OpSend (in_thread : bool) (sys : sys_write) (data : list byte)
| OpRead (rv : readv_result)
| OpWrite (sys : sys_write)
| OpShutdown (in_thread : bool)
| OpForceClose (in_thread : bool)
| OpTask (sys : sys_write) (sends : list (sys_write * list byte)) (last : bool)
| OpDisableRead
| OpEnableRead
| OpDestroy.

Ltac conn_cbn :=
  cbn [state_ channel_ input_buffer_ output_buffer_ shut_wr removed wire accepted refused tasks calls with_state with_channel
       with_input with_output with_shut with_removed put_wire accept_bytes refuse with_tasks QueueTask call set_events
       ch_DisableAll ch_EnableReading events_ SetEvents].

Section lt.
Context `{Heap} (cb : callbacks).

Definition run_conn (c : Connection) (o : conn_op) : option Connection :=
  match o with
  | OpEstablish => ConnectionEstablished c
  | OpSend in_thread sys data => Send cb in_thread sys c data
  | OpRead rv => HandleRead cb false c [rv]
  | OpWrite sys => HandleWrite cb false 0 c (fun _ => sys)
  | OpShutdown in_thread => Some (ShutdownWrite false in_thread c)
  | OpForceClose in_thread => ForceClose cb in_thread c
  | OpTask sys sends last => run_task cb false sys sends last c
  | OpDisableRead => Some (DisbaleRead c)
  | OpEnableRead => Some (EnableRead c)
  | OpDestroy => ConnectionDestroyed c
  end.

Fixpoint run_conns (c : Connection) (os : list conn_op) : option Connection :=
  match os with [] => Some c | o :: os => c ← run_conn c o; run_conns c os end.

(** write(2) fails or takes a prefix of what it is given; without an error, and at least
    a byte when the socket is writable. *)
Definition takes_prefix (sys : sys_write) : Prop :=
  forall bs n, sys bs = WriteBytes n -> 0 <= n <= zlen bs.
Definition takes_some (sys : sys_write) : Prop :=
  forall bs, exists n, sys bs = WriteBytes n /\ 0 <= n <= zlen bs.
Definition takes_more (sys : sys_write) : Prop :=
  forall bs, exists n, sys bs = WriteBytes n /\ 0 <= n <= zlen bs /\ (bs <> [] -> 0 < n).

(** A write event: with more than [IOVEC_MAX] chunks writev(2) fails; the write of a
    single chunk must not fail, since [ChunkListWriteFd] reports a failed one as
    [(size_t)-1] bytes. *)
Definition write_ok (sys : sys_write) (l : ChunkList) : Prop :=
  match sys (ChunkList.content l) with
  | WriteBytes n => 0 <= n <= zlen (ChunkList.content l) /\ GetChunkSize l <= IOVEC_MAX
  | WriteError _ => GetChunkSize l <> 1
  end.

Definition read_ok (b : Buffer) (rv : readv_result) : Prop :=
  match rv with
  | ReadvError _ => True
  | ReadvBytes bs => zlen bs <= readv_room b /\
    (Buffer.GetWritableSize b < zlen bs -> can_alloc (write_index_ b + zlen bs) = true)
  end.

Definition sends_ok (c : Connection) (l : list (sys_write * list byte)) : Prop :=
  Forall (fun x => takes_prefix x.1) l /\ zlen (accepted c) + zlen (concat (map snd l)) < 2 ^ 62.

Definition is_open (s : State) : Prop := s = kConnected \/ s = kDisconnecting.

Definition task_ok (c : Connection) (sys : sys_write) (sends : list (sys_write * list byte)) (last : bool) : Prop :=
  match head (tasks c) with
  | Some (TSend data) => sends_ok c [(sys, data)]
  | Some TWriteComplete => sends_ok c sends
  | Some TCallWriteComplete =>
    sends_ok c sends /\ (last = true -> sends = [] /\ ChunkList.content (output_buffer_ c) = [])
  | Some TClose => is_open (state_ c)
  | _ => True
  end.

(** How the server, the poller and the loop use a connection. *)
Definition conn_op_ok (c : Connection) (o : conn_op) : Prop :=
  match o with
  | OpEstablish => state_ c = kConnecting
  | OpSend _ sys data => sends_ok c [(sys, data)]
  | OpRead rv => reading c = true /\ read_ok (input_buffer_ c) rv
  | OpWrite sys =>
    (writing c = true \/ state_ c = kDisconnected) /\ write_ok sys (output_buffer_ c) /\ zlen (accepted c) < 2 ^ 62
  | OpTask sys sends last => task_ok c sys sends last
  | OpDestroy => state_ c = kConnected \/ state_ c = kDisconnected
  | _ => True
  end.

Fixpoint conn_ops_ok (c : Connection) (os : list conn_op) : Prop :=
  match os with
  | [] => True
  | o :: os => conn_op_ok c o /\ forall c', run_conn c o = Some c' -> conn_ops_ok c' os
  end.

(** A message callback leaves a usable buffer. *)
Definition callbacks_ok : Prop :=
  forall f b, message_callback_ cb = Some f -> buf_wf b -> BUFFER_PREFIX_SIZE <= read_index_ b ->
  exists b', f b = Some b' /\ buf_wf b' /\ BUFFER_PREFIX_SIZE <= read_index_ b'.

(** ** The invariant *)

Definition conn_calls (l : list callback) : list State :=
  omap (fun x => match x with CbConnection s => Some s | _ => None end) l.
Definition close_calls (l : list callback) : nat :=
  length (List.filter (fun x => match x with CbClose => true | _ => false end) l).

Definition expected_calls (s : State) : list State :=
  match s with
  | kConnecting => []
  | kConnected | kDisconnecting => [kConnected]
  | kDisconnected => [kConnected; kDisconnected]
  end.

Definition plain_task (t : task) : Prop :=
  match t with TSendBuf _ | TSendChunks _ => False | _ => True end.

Record conn_inv (c : Connection) : Prop := {
  ci_out : cl_wf (output_buffer_ c);
  ci_tight : tight (output_buffer_ c);
  ci_in : buf_wf (input_buffer_ c);
  ci_prefix : BUFFER_PREFIX_SIZE <= read_index_ (input_buffer_ c);
  ci_stream : accepted c = wire c ++ ChunkList.content (output_buffer_ c);
  ci_writing : is_open (state_ c) -> ChunkList.content (output_buffer_ c) <> [] -> writing c = true;
  ci_idle : state_ c = kConnecting -> ChunkList.content (output_buffer_ c) = [];
  ci_events : ~ is_open (state_ c) -> events_ (channel_ c) = 0;
  ci_tasks : Forall plain_task (tasks c);
  ci_calls : conn_calls (calls c) = expected_calls (state_ c);
  ci_close : (state_ c <> kDisconnected -> close_calls (calls c) = 0%nat) /\ (close_calls (calls c) <= 1)%nat
}.

Lemma HasReadable_content l : cl_wf l -> tight l -> HasReadable l = true <-> ChunkList.content l <> [].
Proof.
  intros [W _ _ _] Ht. unfold HasReadable, IsEmpty, GetChunkSize, ChunkList.content. unfold tight in Ht.
  destruct (buffers_ l) as [|c cs]; [done|]. rewrite views_cons, zlen_cons.
  inversion W as [|? ? Wc _]; subst. inversion Ht as [|? ? Tc _]; subst.
  pose proof (zlen_chunk_view c Wc) as Hv. chunk_facts Wc. split.
  - intros _ E. apply app_eq_nil in E as [E _]. rewrite E, zlen_nil in Hv. lia.
  - intros _. apply negb_true_iff, Z.eqb_neq. pose proof (zlen_nonneg cs). lia.
Qed.

Lemma HasReadable_empty l : cl_wf l -> tight l -> HasReadable l = false <-> ChunkList.content l = [].
Proof.
  intros W T. pose proof (HasReadable_content l W T) as E. destruct (HasReadable l); split; try done.
  - intros Hc. by apply E in Hc.
  - intros _. destruct (ChunkList.content l); [done|]. exfalso. assert (false = true) by (by apply E). done.
Qed.

(** The two bits of the channel do not interfere. *)
Lemma writing_enable c : writing (ch_EnableWriting c) = true.
Proof.
  unfold writing, IsWriting. cbn. apply negb_true_iff, Z.eqb_neq. rewrite Z.land_lor_distr_l.
  intros E. apply Z.lor_eq_0_iff in E as [_ E]. done.
Qed.

Lemma writing_enable_reading c : writing (ch_EnableReading c) = writing c.
Proof.
  unfold writing, IsWriting. cbn. rewrite Z.land_lor_distr_l.
  change (Z.land ReadEvent WriteEvent) with 0. by rewrite Z.lor_0_r.
Qed.

Lemma writing_disable_reading c : writing (ch_DisableReading c) = writing c.
Proof. unfold writing, IsWriting. cbn. rewrite <- Z.land_assoc. done. Qed.

Lemma reading_open c : conn_inv c -> reading c = true -> is_open (state_ c).
Proof.
  intros I Hr. destruct (decide (is_open (state_ c))) as [|Hn]; [done|]. exfalso.
  unfold reading, IsReading in Hr. by rewrite (ci_events _ I Hn) in Hr.
Qed.

Lemma writing_open c : conn_inv c -> writing c = true -> is_open (state_ c).
Proof.
  intros I Hr. destruct (decide (is_open (state_ c))) as [|Hn]; [done|]. exfalso.
  unfold writing, IsWriting in Hr. by rewrite (ci_events _ I Hn) in Hr.
Qed.

(** *** Steps that keep the invariant *)


Lemma conn_calls_snoc l x :
  conn_calls (l ++ [x]) = conn_calls l ++ match x with CbConnection s => [s] | _ => [] end.
Proof. unfold conn_calls. rewrite omap_app. by destruct x. Qed.

Lemma close_calls_snoc l x :
  close_calls (l ++ [x]) = (close_calls l + match x with CbClose => 1 | _ => 0 end)%nat.
Proof. unfold close_calls. rewrite List.filter_app, length_app. by destruct x. Qed.

(** Rewrites the log after a callback. *)
Ltac log_simpl := rewrite ?conn_calls_snoc, ?close_calls_snoc, ?app_nil_r, ?Nat.add_0_r.


Lemma inv_queue c t : conn_inv c -> plain_task t -> conn_inv (QueueTask c t).
Proof. intros [] Ht. split; cbn; try done. apply Forall_app. split; [done|by constructor]. Qed.

Lemma inv_pop c t ts : conn_inv c -> tasks c = t :: ts -> conn_inv (with_tasks c ts) /\ plain_task t.
Proof. intros [] E. rewrite E in *. by inversion ci_tasks0; subst. Qed.

Lemma inv_call c x :
  conn_inv c -> match x with CbConnection _ | CbClose => False | _ => True end -> conn_inv (call c x).
Proof.
  intros [] Hx. split; conn_cbn; try done; destruct x; try done; log_simpl; done.
Qed.

Lemma inv_shut c : conn_inv c -> conn_inv (with_shut c).
Proof. intros []. by split. Qed.

Lemma inv_events c f :
  conn_inv c -> is_open (state_ c) ->
  (ChunkList.content (output_buffer_ c) <> [] -> writing (set_events c f) = true) -> conn_inv (set_events c f).
Proof. intros [] Ho Hf. by split. Qed.

Lemma inv_input c b :
  conn_inv c -> buf_wf b -> BUFFER_PREFIX_SIZE <= read_index_ b -> conn_inv (with_input c b).
Proof. intros [] Hb Hp. by split. Qed.

(** The output of an open connection. *)
Lemma inv_output c acc w l f :
  conn_inv c -> is_open (state_ c) -> cl_wf l -> tight l ->
  acc = w ++ ChunkList.content l ->
  (ChunkList.content l <> [] -> writing (set_events c f) = true) ->
  conn_inv (mkConn (state_ c) (SetEvents (channel_ c) (f (events_ (channel_ c)))) (input_buffer_ c) l (shut_wr c)
              (removed c) w acc (refused c) (tasks c) (calls c)).
Proof. intros [] Ho Hl Ht Ha Hw. split; try done. conn_cbn. intros E. rewrite E in Ho. by destruct Ho. Qed.

(** *** Closing *)

Lemma HandleClose_spec c :
  conn_inv c -> is_open (state_ c) ->
  exists c', HandleClose cb c = Some c' /\ conn_inv c' /\ state_ c' = kDisconnected /\ accepted c' = accepted c /\
    tasks c' = tasks c.
Proof.
  intros I Ho. unfold HandleClose. rewrite check_bind_true by (by apply bool_decide_eq_true).
  eexists. split; [done|]. destruct I.
  assert (Hc : expected_calls (state_ c) = [kConnected]) by (by destruct Ho as [-> | ->]).
  assert (Hz : close_calls (calls c) = 0%nat) by (apply ci_close0; by destruct Ho as [-> | ->]).
  split; [|by destruct (close_callback_ cb)].
  destruct (close_callback_ cb); split; conn_cbn; try done; log_simpl; rewrite ?ci_calls0, ?Hc, ?Hz;
    try done; try (by intros [?|?]); (split; [done|lia]).
Qed.

Lemma inv_disconnecting c : conn_inv c -> is_open (state_ c) -> conn_inv (with_state c kDisconnecting).
Proof.
  intros [] Ho. assert (expected_calls (state_ c) = [kConnected]) as Hc by (by destruct Ho as [-> | ->]).
  split; conn_cbn; try done.
  - intros _. by apply ci_writing0.
  - intros []. by right.
  - by rewrite ci_calls0.
  - split; [|apply ci_close0]. intros _. apply ci_close0. by destruct Ho as [-> | ->].
Qed.

Lemma shutdown_lambda_inv c : conn_inv c -> conn_inv (shutdown_lambda false c).
Proof. intros I. unfold shutdown_lambda. case_bool; [by apply inv_shut|done]. Qed.

Lemma ShutdownWrite_spec in_thread c :
  conn_inv c -> conn_inv (ShutdownWrite false in_thread c) /\
  accepted (ShutdownWrite false in_thread c) = accepted c.
Proof.
  intros I. unfold ShutdownWrite. destruct (decide (state_ c = kConnected)) as [E|]; [|done].
  assert (is_open (state_ c)) as Ho by (by left). pose proof (inv_disconnecting c I Ho) as I'.
  destruct in_thread.
  - split; [by apply shutdown_lambda_inv|]. unfold shutdown_lambda. by case_bool.
  - split; [by apply inv_queue|done].
Qed.

Lemma ForceClose_spec in_thread c :
  conn_inv c -> exists c', ForceClose cb in_thread c = Some c' /\ conn_inv c' /\ accepted c' = accepted c.
Proof.
  intros I. unfold ForceClose. destruct (decide (state_ c = kConnected \/ state_ c = kDisconnecting)) as [Ho|]; [|by exists c].
  pose proof (inv_disconnecting c I Ho) as I'. destruct in_thread.
  - destruct (HandleClose_spec (with_state c kDisconnecting)) as (c' & E & Ic & _ & Ha & _); [done|by right|].
    exists c'. by split_and!.
  - eexists. split; [done|]. split; [by apply inv_queue|done].
Qed.

Lemma ConnectionDestroyed_spec c :
  conn_inv c -> state_ c = kConnected \/ state_ c = kDisconnected ->
  exists c', ConnectionDestroyed c = Some c' /\ conn_inv c' /\ accepted c' = accepted c /\ state_ c' = kDisconnected.
Proof.
  intros I Hs. unfold ConnectionDestroyed. destruct (decide (state_ c = kConnected)) as [E|E].
  - rewrite check_bind_true by done. eexists. split; [done|]. split; [|done].
    destruct I. rewrite E in *. split; conn_cbn; try done; log_simpl; rewrite ?ci_calls0; try done.
    + by intros [?|?].
    + split; [done|]. apply ci_close0.
  - destruct Hs as [Hs|Hs]; [done|]. rewrite check_bind_true by (by rewrite Hs).
    eexists. split; [done|]. split; [|done]. destruct I. by split.
Qed.

Lemma ConnectionEstablished_spec c :
  conn_inv c -> state_ c = kConnecting ->
  exists c', ConnectionEstablished c = Some c' /\ conn_inv c' /\ accepted c' = accepted c /\ state_ c' = kConnected.
Proof.
  intros I E. unfold ConnectionEstablished. rewrite check_bind_true by (by rewrite E). eexists. split; [done|].
  split; [|done]. destruct I. rewrite E in *. split; conn_cbn; try done; log_simpl.
  - intros _ Hc. by rewrite ci_idle0 in Hc.
  - intros []. by left.
  - by rewrite ci_calls0.
  - split; [|apply ci_close0]. intros _. by apply ci_close0.
Qed.

(** *** Sending *)

Hypothesis Halloc : can_alloc chunk_node_bytes = true.

Lemma content_le c : conn_inv c -> zlen (ChunkList.content (output_buffer_ c)) <= zlen (accepted c).
Proof. intros I. rewrite (ci_stream _ I), zlen_app. pose proof (zlen_nonneg (wire c)). lia. Qed.

(** What is left of [data] after [n] bytes went out. *)
Lemma send_remaining_spec c data n :
  conn_inv c -> is_open (state_ c) -> 0 <= n < zlen data -> zlen (accepted c) + zlen data < 2 ^ 62 ->
  (0 < n -> ChunkList.content (output_buffer_ c) = []) ->
  exists c', send_remaining cb (accept_bytes (put_wire c (take (Z.to_nat n) data)) data) data n (zlen data - n) = Some c' /\
    conn_inv c' /\ accepted c' = accepted c ++ data /\ state_ c' = state_ c.
Proof.
  intros I Ho Hn Hsz Hemp. unfold send_remaining. rewrite (proj2 (Z.ltb_lt _ _)) by lia.
  pose proof (content_le c I) as Hle.
  assert (exists ts, Forall plain_task ts /\
    (if high_water_mark_callback_ cb then
       readable_len ← ChunkList.GetReadableSize (output_buffer_ c);
       Some (if (high_water_mark_ cb <=? readable_len + (zlen data - n)) && (readable_len <? high_water_mark_ cb)
             then QueueTask (accept_bytes (put_wire c (take (Z.to_nat n) data)) data)
                    (THighWaterMark (readable_len + (zlen data - n)))
             else accept_bytes (put_wire c (take (Z.to_nat n) data)) data)
     else Some (accept_bytes (put_wire c (take (Z.to_nat n) data)) data))
    = Some (with_tasks (accept_bytes (put_wire c (take (Z.to_nat n) data)) data) ts)) as (ts & Hts & E1).
  { destruct (high_water_mark_callback_ cb).
    - rewrite GetReadableSize_spec by (apply I || lia). cbn [mbind option_bind]. case_bool.
      + eexists. split; [|done]. apply Forall_app. split; [apply I|by constructor].
      + exists (tasks c). split; [apply I|done].
    - exists (tasks c). split; [apply I|done]. }
  change (output_buffer_ (accept_bytes (put_wire c (take (Z.to_nat n) data)) data)) with (output_buffer_ c).
  rewrite E1. cbn [mbind option_bind]. conn_cbn.
  assert (zlen (slice n (zlen data - n) data) = zlen data - n) as Hls by (rewrite zlen_slice; lia).
  destruct (chunks_Append_spec Halloc (output_buffer_ c) (slice n (zlen data - n) data)) as (l' & E2 & Hl' & Hc' & Ht' & _).
  { apply I. }
  { right. intros E. rewrite E, zlen_nil in Hls. lia. }
  rewrite E2. cbn [mbind option_bind]. eexists. split; [done|].
  assert (accepted c ++ data = (wire c ++ take (Z.to_nat n) data) ++ ChunkList.content l') as Hst.
  { rewrite Hc', (ci_stream _ I), <- !app_assoc. f_equal.
    assert (slice n (zlen data - n) data = drop (Z.to_nat n) data) as ->.
    { unfold slice. apply take_ge. unfold zlen in *. rewrite length_drop. lia. }
    destruct (decide (n = 0)) as [->|Hn0]; [done|]. rewrite Hemp by lia. cbn. by rewrite take_drop. }
  set (cq := with_tasks c ts). assert (conn_inv cq) as Iq by (destruct I; by split).
  case_bool.
  - split; [|done]. apply (inv_output cq _ _ l' (fun e => Z.lor e WriteEvent)); try done.
    + apply Ht', I.
    + intros _. apply writing_enable.
  - split; [|done]. assert (channel_ c = SetEvents (channel_ c) (events_ (channel_ c))) as Heta by (by destruct (channel_ c)).
    unfold with_output. conn_cbn. rewrite Heta at 1. apply (inv_output cq _ _ l' (fun e => e)); try done.
    apply Ht', I.
Qed.

Lemma SendInLoop_spec sys c data :
  conn_inv c -> state_ c = kConnected -> takes_prefix sys -> zlen (accepted c) + zlen data < 2 ^ 62 ->
  exists c', SendInLoop cb sys c data = Some c' /\ conn_inv c' /\ state_ c' = kConnected /\
    (accepted c' = accepted c ++ data \/ accepted c' = accepted c /\ refused c' = refused c ++ [data]).
Proof.
  intros I E Hsys Hsz. unfold SendInLoop. destruct (decide (state_ c <> kConnected)) as [|_]; [done|].
  assert (is_open (state_ c)) as Ho by (by left). pose proof (zlen_nonneg data) as Hd. pose proof (zlen_nonneg (accepted c)) as Hac.
  conn_cbn. destruct (HasReadable (output_buffer_ c)) eqn:Eh; cbn [negb].
  - destruct (decide (zlen data = 0)) as [Ez|Ez].
    { apply zlen_0_inv in Ez as ->. unfold send_remaining. change (0 <? zlen []) with false. cbv iota. eexists. split; [done|].
      split; [|split; [done|by left]]. destruct I; split; conn_cbn; try done. by rewrite app_nil_r. }
    destruct (send_remaining_spec c data 0) as (c' & E' & I' & Ha & Hs); [done|done|lia|done|lia|].
    rewrite Z.sub_0_r in E'. exists c'. split; [|split; [done|split; [congruence|by left]]].
    rewrite <- E'. unfold put_wire. conn_cbn. by rewrite app_nil_r.
  - apply (HasReadable_empty _ (ci_out _ I) (ci_tight _ I)) in Eh.
    destruct (sys data) as [e|n] eqn:En.
    { eexists. split; [done|]. split; [|split; [done|by right]]. destruct I; by split. }
    apply Hsys in En as Hn. case_bool.
    + rewrite u64_id by lia. destruct (send_remaining_spec c data n) as (c' & E' & I' & Ha & Hs); [done|done|lia|done|done|].
      exists c'. split; [exact E'|]. split; [done|]. split; [congruence|by left].
    + eexists. split; [done|]. subst n.
      assert (take (Z.to_nat (zlen data)) data = data) as Htk by (apply take_ge; unfold zlen; lia). rewrite Htk.
      set (c1 := put_wire (accept_bytes c data) data).
      assert (conn_inv c1) as I1.
      { destruct I; split; try done. unfold c1. conn_cbn. by rewrite ci_stream0, Eh, !app_nil_r. }
      set (c2 := if write_complete_callback_ cb then QueueTask c1 TWriteComplete else c1).
      assert (conn_inv c2 /\ accepted c2 = accepted c ++ data /\ state_ c2 = kConnected /\
        output_buffer_ c2 = output_buffer_ c) as (I2 & Ha2 & Hs2 & Ho2).
      { unfold c2. destruct (write_complete_callback_ cb); split_and!; try done. by apply inv_queue. }
      case_bool; [|split; [done|]; split; [done|by left]]. split; [|split; [done|by left]].
      apply inv_events; [done|by rewrite Hs2; left|]. by rewrite Ho2, Eh.
Qed.

Lemma Sends_spec c l :
  conn_inv c -> sends_ok c l -> exists c', Sends cb c l = Some c' /\ conn_inv c' /\ state_ c' = state_ c.
Proof.
  revert c. induction l as [|[sys data] l IH]; intros c I [Hf Hz]; [by exists c|].
  apply Forall_cons in Hf as [Hs Hf]. cbn [map snd concat] in Hz. rewrite zlen_app in Hz.
  pose proof (zlen_nonneg (concat (map snd l))). pose proof (zlen_nonneg data).
  cbn [Sends]. unfold Send. destruct (decide (state_ c = kConnected)) as [E|E].
  - destruct (SendInLoop_spec sys c data) as (c1 & -> & I1 & Hs1 & Ha); [done|done|done|lia|]. cbn [mbind option_bind].
    destruct (IH c1) as (c2 & E2 & I2 & Hs2); [done|split; [done|destruct Ha as [->|[-> _]]; rewrite ?zlen_app; lia]|].
    exists c2. split; [done|]. split; [done|congruence].
  - cbn [mbind option_bind]. apply IH; [done|]. split; [done|lia].
Qed.

(** *** Events *)

Lemma WriteFd_spec sys l :
  cl_wf l -> write_ok sys l ->
  exists n e, WriteFd sys l = Some (n, e, take (Z.to_nat n) (ChunkList.content l)) /\
    0 <= n <= zlen (ChunkList.content l) /\ (takes_more sys -> ChunkList.content l <> [] -> 0 < n).
Proof.
  intros Hl Hs. unfold write_ok, WriteFd in *. destruct (sys (ChunkList.content l)) as [e|n] eqn:E.
  - pose proof (zlen_nonneg (ChunkList.content l)). exists 0. eexists. rewrite ChunkListWriteFd_error with (e := e); [|done|by rewrite <- E].
    split; [done|]. split; [lia|]. intros Hm. destruct (Hm (ChunkList.content l)) as (k & Ek & _). congruence.
  - destruct Hs as [Hn Hm]. exists n, None. split; [|split; [done|]].
    + destruct (decide (buffers_ l = [])) as [Eb|Eb].
      * unfold ChunkListWriteFd. rewrite Eb. assert (ChunkList.content l = []) as Ec by (unfold ChunkList.content; by rewrite Eb).
        rewrite Ec in *. change (zlen []) with 0 in Hn. assert (n = 0) as -> by lia. done.
      * rewrite (ChunkListWriteFd_sys sys l n); [done| |done]. split; [|done]. unfold GetChunkSize.
        destruct (buffers_ l); [done|]. rewrite zlen_cons. pose proof (zlen_nonneg l0). lia.
    + intros Ht Hc. destruct (Ht (ChunkList.content l)) as (k & Ek & _ & Hk). rewrite E in Ek. injection Ek as ->. by apply Hk.
Qed.

(** A write event sends a prefix of the output, all of it if the kernel takes it. *)
Lemma HandleLtWrite_spec c sys :
  conn_inv c -> writing c = true -> write_ok sys (output_buffer_ c) -> zlen (accepted c) < 2 ^ 62 ->
  exists c', HandleLtWrite cb false c sys = Some c' /\ conn_inv c' /\ accepted c' = accepted c /\
    (takes_more sys -> ChunkList.content (output_buffer_ c) <> [] ->
     zlen (ChunkList.content (output_buffer_ c')) < zlen (ChunkList.content (output_buffer_ c))) /\
    total_chunks (output_buffer_ c') = total_chunks (output_buffer_ c) /\ state_ c' = state_ c.
Proof.
  intros I Hw Hs Hz. pose proof (writing_open c I Hw) as Ho. unfold HandleLtWrite.
  destruct (WriteFd_spec sys (output_buffer_ c)) as (n & e & -> & Hn & Hp); [apply I|done|].
  cbn [mbind option_bind]. pose proof (content_le c I) as Hle.
  set (c0 := put_wire c _). assert ((match e with Some e => if e =? EAGAIN then c0 else HandleError c0 | None => c0 end) = c0) as ->
    by (destruct e as [e|]; [destruct (e =? EAGAIN)|]; done). unfold c0. conn_cbn. case_bool.
  2:{ eexists. split; [done|]. assert (n = 0) as -> by lia. split.
      - destruct I; split; conn_cbn; try done. by rewrite app_nil_r.
      - split; [done|]. split; [|done]. intros Hm Hc. apply Hp in Hc; [lia|done]. }
  destruct (chunks_AdvanceRead_spec (output_buffer_ c) n) as (out & -> & Hout & Hc & Htot & Ht); [apply I|lia|].
  cbn [mbind option_bind]. specialize (Ht (ci_tight _ I)).
  set (c1 := with_output (put_wire c (take (Z.to_nat n) (ChunkList.content (output_buffer_ c)))) out).
  assert (conn_inv c1) as I1.
  { unfold c1, with_output. conn_cbn. replace (channel_ c) with (SetEvents (channel_ c) (events_ (channel_ c))) by (by destruct (channel_ c)).
    apply (inv_output c _ _ out (fun e => e)); try done.
    rewrite Hc, (ci_stream _ I), <- app_assoc. by rewrite take_drop. }
  assert (zlen (ChunkList.content out) < zlen (ChunkList.content (output_buffer_ c))) as Hlt.
  { rewrite Hc, zlen_drop. lia. }
  destruct (HasReadable out) eqn:Eh; cbn [negb].
  { exists c1. by split_and!. }
  apply (HasReadable_empty out Hout Ht) in Eh.
  set (c2 := if write_complete_callback_ cb then QueueTask c1 TCallWriteComplete else ch_DisableWriting c1).
  assert (conn_inv c2 /\ accepted c2 = accepted c /\ output_buffer_ c2 = out /\ state_ c2 = state_ c) as (I2 & Ha2 & Ho2 & Hs2).
  { unfold c2. destruct (write_complete_callback_ cb); split_and!; try done; [by apply inv_queue|].
    apply inv_events; [done|done|]. unfold c1. conn_cbn. by rewrite Eh. }
  unfold ShutdownWrite. destruct (decide (state_ c2 = kDisconnecting)) as [Es|Es].
  - eexists. split; [done|]. destruct (decide (state_ c2 = kConnected)) as [E|_]; [congruence|]. by rewrite Ho2.
  - exists c2. by rewrite Ho2.
Qed.

Hypothesis Hcb : callbacks_ok.

Lemma deliver_spec c : conn_inv c -> exists c', deliver cb c = Some c' /\ conn_inv c' /\ accepted c' = accepted c.
Proof.
  intros I. unfold deliver. destruct (message_callback_ cb) as [f|] eqn:Em.
  - destruct (Hcb f (input_buffer_ c) Em (ci_in _ I) (ci_prefix _ I)) as (b' & -> & Hb & Hp).
    cbn [mbind option_bind]. eexists. split; [done|]. split; [|done].
    apply inv_input; [|done|done]. by apply inv_call.
  - destruct (Buffer.AdvanceAll_spec (input_buffer_ c) (ci_in _ I)) as (b' & -> & Hb & _ & Hp).
    cbn [mbind option_bind]. eexists. split; [done|]. split; [|done]. apply inv_input; [done|done|]. apply Hp, I.
Qed.

Lemma HandleLtRead_spec c rv :
  conn_inv c -> reading c = true -> read_ok (input_buffer_ c) rv ->
  exists c', HandleLtRead cb c rv = Some c' /\ conn_inv c' /\ accepted c' = accepted c.
Proof.
  intros I Hr Hok. pose proof (reading_open c I Hr) as Ho. unfold HandleLtRead. destruct rv as [e|bs].
  - cbn [BufferReadFromFd mbind option_bind]. eexists. split; [done|]. unfold HandleError. destruct (e =? EAGAIN);
      (split; [|done]; destruct I; by split).
  - destruct Hok as [Hroom Hal].
    destruct (BufferReadFromFd_spec (input_buffer_ c) bs) as (b & -> & Hb & Hc & _ & Hp); [apply I|done|apply I|done|].
    cbn [mbind option_bind]. pose proof (inv_input c b I Hb Hp) as Ib. pose proof (zlen_nonneg bs).
    case_bool.
    + destruct (HandleClose_spec (with_input c b)) as (c' & E & I' & _ & Ha & _); [done|done|]. by exists c'.
    + rewrite check_bind_true.
      * destruct (deliver_spec (with_input c b)) as (c' & E & I' & Ha); [done|]. by exists c'.
      * apply andb_true_iff. split; [lia|]. apply negb_true_iff, Z.eqb_neq. change (u64 (-1)) with (2 ^ 64 - 1).
        pose proof (content_size b Hb) as Hcs. rewrite readable_size in Hcs by done. buf_wf Hb.
        rewrite Hc, zlen_app in Hcs. pose proof (zlen_nonneg (Buffer.content (input_buffer_ c))). lia.
Qed.

Lemma run_task_spec c sys sends last :
  conn_inv c -> task_ok c sys sends last -> exists c', run_task cb false sys sends last c = Some c' /\ conn_inv c'.
Proof.
  intros I Hok. unfold run_task. unfold task_ok in Hok. destruct (tasks c) as [|t ts] eqn:Et; [by exists c|].
  destruct (inv_pop c t ts I Et) as [I' Hp]. cbn [head] in Hok. destruct t; try done.
  - destruct Hok as [Hf Hz]. apply Forall_cons in Hf as [Hf _]. cbn [map snd concat] in Hz. rewrite app_nil_r in Hz.
    destruct (decide (state_ c = kConnected)) as [E|E].
    + destruct (SendInLoop_spec sys (with_tasks c ts) data) as (c' & E' & Ic & _);
        [exact I'|exact E|exact Hf|exact Hz|]. by exists c'.
    + unfold SendInLoop. conn_cbn. destruct (decide (state_ c <> kConnected)); [|done]. by eexists.
  - destruct (Sends_spec (call (with_tasks c ts) CbWriteComplete) sends) as (c' & E & Ic & _);
      [by apply inv_call|done|]. by exists c'.
  - destruct Hok as [Hs Hl]. unfold CallWriteCompleteCallback.
    destruct (Sends_spec (call (with_tasks c ts) CbWriteComplete) sends) as (c' & E & Ic & _); [by apply inv_call|done|].
    rewrite E. cbn [mbind option_bind]. eexists. split; [done|]. destruct (last && writing c') eqn:Hb; [|done]. apply andb_true_iff in Hb as [-> Hw].
    destruct (Hl eq_refl) as [-> Hc]. injection E as <-. apply inv_events; [done|by apply writing_open|].
    conn_cbn. by rewrite Hc.
  - eexists. split; [done|]. by apply inv_call.
  - eexists. split; [done|]. by apply shutdown_lambda_inv.
  - destruct (HandleClose_spec (with_tasks c ts)) as (c' & E & Ic & _); [done|done|]. by exists c'.
Qed.

Lemma run_conn_spec c o :
  conn_inv c -> conn_op_ok c o -> exists c', run_conn c o = Some c' /\ conn_inv c'.
Proof.
  intros I Hok. destruct o; cbn [run_conn conn_op_ok] in *.
  - destruct (ConnectionEstablished_spec c) as (c' & E & I' & _); [done|done|]. by exists c'.
  - destruct Hok as [Hf Hz]. apply Forall_cons in Hf as [Hf _]. cbn [map snd concat] in Hz. rewrite app_nil_r in Hz.
    unfold Send. destruct (decide (state_ c = kConnected)) as [E|E]; [|by exists c]. destruct in_thread.
    + destruct (SendInLoop_spec sys c data) as (c' & E' & I' & _); [done|done|done|done|]. by exists c'.
    + eexists. split; [done|]. by apply inv_queue.
  - destruct Hok as [Hr Hok]. destruct (HandleLtRead_spec c rv) as (c' & E & I' & _); [done|done|done|]. by exists c'.
  - destruct Hok as (Hw & Hs & Hz). unfold HandleWrite. destruct (writing c) eqn:Ew; cbn [negb].
    + destruct (HandleLtWrite_spec c sys) as (c' & E & I' & _); [done..|]. by exists c'.
    + destruct Hw as [Hw|Hw]; [done|]. rewrite check_bind_true by (by rewrite Hw). by exists c.
  - eexists. split; [done|]. by apply ShutdownWrite_spec.
  - destruct (ForceClose_spec in_thread c) as (c' & E & I' & _); [done|]. by exists c'.
  - by apply run_task_spec.
  - eexists. split; [done|]. unfold DisbaleRead. destruct (bool_decide (state_ c = kConnected) && reading c) eqn:Hb; [|done]. apply andb_true_iff in Hb as [Hb _].
    apply bool_decide_eq_true in Hb. apply inv_events; [done|by left|]. intros Hc.
    change (writing (ch_DisableReading c) = true). rewrite writing_disable_reading. apply I; [by left|done].
  - eexists. split; [done|]. unfold EnableRead. destruct (bool_decide (state_ c = kConnected) && negb (reading c)) eqn:Hb; [|done]. apply andb_true_iff in Hb as [Hb _].
    apply bool_decide_eq_true in Hb. apply inv_events; [done|by left|]. intros Hc.
    change (writing (ch_EnableReading c) = true). rewrite writing_enable_reading. apply I; [by left|done].
  - destruct (ConnectionDestroyed_spec c) as (c' & E & I' & _); [done|done|]. by exists c'.
Qed.

Lemma run_conns_spec c os :
  conn_inv c -> conn_ops_ok c os -> exists c', run_conns c os = Some c' /\ conn_inv c'.
Proof.
  revert c. induction os as [|o os IH]; intros c I Hok; [by exists c|]. destruct Hok as [Ho Hok].
  destruct (run_conn_spec c o I Ho) as (c1 & E & I1). cbn [run_conns]. rewrite E. cbn [mbind option_bind].
  apply IH; auto.
Qed.

Lemma make_Connection_inv fd b :
  buf_wf b -> BUFFER_PREFIX_SIZE <= read_index_ b -> conn_inv (make_Connection fd b).
Proof. intros Hb Hp. split; try done; cbn; try (repeat constructor). Qed.

(** A connection with output drains: each write event sends more of it. *)
Lemma drain_spec n c sys :
  conn_inv c -> is_open (state_ c) -> takes_more sys -> zlen (accepted c) < 2 ^ 62 ->
  total_chunks (output_buffer_ c) <= IOVEC_MAX -> zlen (ChunkList.content (output_buffer_ c)) <= Z.of_nat n ->
  exists k c', run_conns c (repeat (OpWrite sys) k) = Some c' /\ (k <= n)%nat /\ conn_inv c' /\
    ChunkList.content (output_buffer_ c') = [] /\ wire c' = accepted c.
Proof.
  revert c. induction n as [|n IH]; intros c I Ho Hs Hz Hm Hn.
  - exists 0%nat, c. assert (ChunkList.content (output_buffer_ c) = []) as Hc.
    { apply zlen_0_inv. pose proof (zlen_nonneg (ChunkList.content (output_buffer_ c))). lia. }
    split_and!; try done. by rewrite (ci_stream _ I), Hc, app_nil_r.
  - destruct (decide (ChunkList.content (output_buffer_ c) = [])) as [Hc|Hc].
    { exists 0%nat, c. split_and!; try done; [lia|]. by rewrite (ci_stream _ I), Hc, app_nil_r. }
    pose proof (ci_writing _ I Ho Hc) as Hw.
    assert (GetChunkSize (output_buffer_ c) <= IOVEC_MAX) as Hg.
    { unfold total_chunks, GetChunkSize in *. pose proof (zlen_nonneg (free_buffers_ (output_buffer_ c))). lia. }
    assert (write_ok sys (output_buffer_ c)) as Hwo.
    { unfold write_ok. destruct (Hs (ChunkList.content (output_buffer_ c))) as (k & -> & Hk & _). done. }
    destruct (HandleLtWrite_spec c sys I Hw Hwo Hz) as (c1 & E & I1 & Ha & Hlt & Ht & Hst).
    destruct (IH c1) as (k & c2 & E2 & Hk & I2 & Hc2 & Hw2); [done|by rewrite Hst|done|by rewrite Ha|lia| |].
    { specialize (Hlt Hs Hc). lia. }
    exists (S k), c2. split; [|split_and!; [lia|done|done|congruence]].
    cbn [repeat run_conns run_conn]. unfold HandleWrite. rewrite Hw. cbn [negb]. by rewrite E.
Qed.

End lt.

(** ** Properties *)


(** C27 In such a use, in which a queued close runs while the connection is still open,
    the connection callback is called exactly once when the connection is established
    and once when it goes down, in this order, and the close callback at most once and
    only then, whether the peer, a user or the server closes the connection. *)
Theorem connection_lifecycle `{Heap} (cb : callbacks) (fd : Z) (b : Buffer) (os : list conn_op) :
  can_alloc chunk_node_bytes = true -> callbacks_ok cb -> buf_wf b -> BUFFER_PREFIX_SIZE <= read_index_ b ->
  conn_ops_ok cb (make_Connection fd b) os ->
  exists c, run_conns cb (make_Connection fd b) os = Some c /\
    conn_calls (calls c) = expected_calls (state_ c) /\ (close_calls (calls c) <= 1)%nat /\
    (state_ c <> kDisconnected -> close_calls (calls c) = 0%nat) /\
    (~ is_open (state_ c) -> events_ (channel_ c) = 0).
Proof.
  intros Hal Hcb Hb Hp Hok.
  destruct (run_conns_spec cb Hal Hcb _ os (make_Connection_inv fd b Hb Hp) Hok) as (c & E & I).
  exists c. split; [done|]. split; [apply I|]. destruct (ci_close _ I). by split_and!; [| |apply I].
Qed.

(** C26 Output of up to 1024 chunks drains: from any such state of an open connection
    whose output buffer has at most 1024 chunks, used and free, if the kernel takes at
    least a byte at each write event, at most as many write events as there are bytes
    in the output buffer send everything that was accepted. *)
Theorem connection_drains `{Heap} (cb : callbacks) (fd : Z) (b : Buffer) (os : list conn_op) (c : Connection)
    (sys : sys_write) :
  can_alloc chunk_node_bytes = true -> callbacks_ok cb -> buf_wf b -> BUFFER_PREFIX_SIZE <= read_index_ b ->
  conn_ops_ok cb (make_Connection fd b) os -> run_conns cb (make_Connection fd b) os = Some c ->
  is_open (state_ c) -> takes_more sys -> zlen (accepted c) < 2 ^ 62 ->
  total_chunks (output_buffer_ c) <= IOVEC_MAX ->
  exists k c', run_conns cb c (repeat (OpWrite sys) k) = Some c' /\
    (k <= length (ChunkList.content (output_buffer_ c)))%nat /\
    ChunkList.content (output_buffer_ c') = [] /\ wire c' = accepted c.
Proof.
  intros Hal Hcb Hb Hp Hok Hrun Ho Hs Hz Hm.
  destruct (run_conns_spec cb Hal Hcb _ os (make_Connection_inv fd b Hb Hp) Hok) as (c0 & E & I).
  assert (c0 = c) as -> by congruence.
  destruct (drain_spec cb (length (ChunkList.content (output_buffer_ c))) c sys) as (k & c' & E' & Hk & _ & Hc' & Hw);
    try done. by exists k, c'.
Qed.

(** *** A use of a connection: a refused message, a short write, a read, a write event, a
    close *)

Definition take_n (n : Z) : sys_write := fun bs => WriteBytes (Z.min n (zlen bs)).
Definition eagain : sys_write := fun _ => WriteError EAGAIN.
Definition no_callbacks : callbacks := mkCallbacks None false false false 65536.
Definition with_close : callbacks := mkCallbacks None false false true 65536.
Definition demo_input : Buffer := mkBuffer 8 8 (repeat x00 16).
Definition demo_conn : Connection := make_Connection 5 demo_input.
Definition demo_run : list conn_op :=
  [OpEstablish; OpSend true eagain (str "lost"); OpSend true (take_n 4) (str "HTTP/1.1 200");
   OpRead (ReadvBytes (str "GET")); OpSend false (take_n 1) (str " OK"); OpWrite (take_n 3); OpTask (take_n 1) [] false].
Definition demo_close : list conn_op :=
  [OpEstablish; OpSend true (take_n 4) (str "HTTP/1.1 200"); OpWrite (take_n 9); OpForceClose false;
   OpTask eagain [] false; OpDestroy].

Lemma take_n_more n : 0 < n -> takes_more (take_n n).
Proof.
  intros Hn bs. exists (Z.min n (zlen bs)). pose proof (zlen_nonneg bs). split; [done|]. split; [lia|].
  intros Hne. destruct bs; [done|]. rewrite zlen_cons in *. pose proof (zlen_nonneg bs). lia.
Qed.

Lemma take_n_prefix n : 0 <= n -> takes_prefix (take_n n).
Proof. intros Hn bs k [= <-]. pose proof (zlen_nonneg bs). lia. Qed.

Lemma no_callbacks_ok : callbacks_ok no_callbacks.
Proof. intros f b E. done. Qed.

Lemma with_close_ok : callbacks_ok with_close.
Proof. intros f b E. done. Qed.

Ltac demo_step := split; [|intros ? E; vm_compute in E; injection E as <-].
Ltac demo_send :=
  split; [apply Forall_singleton; first [by apply take_n_prefix|intros ? ? E; discriminate E]|vm_compute; reflexivity].
Ltac demo_write :=
  split; [left; vm_compute; reflexivity|]; split; [|vm_compute; reflexivity]; vm_compute; split_and!; discriminate.

Lemma demo_run_ok : @conn_ops_ok zero_heap no_callbacks demo_conn demo_run.
Proof.
  demo_step; [done|]. demo_step; [demo_send|]. demo_step; [demo_send|].
  demo_step; [split; [reflexivity|]; split; [vm_compute; discriminate|intros E; vm_compute in E; done]|].
  demo_step; [demo_send|]. demo_step; [demo_write|]. demo_step; [demo_send|]. done.
Qed.

Lemma demo_close_ok : @conn_ops_ok zero_heap with_close demo_conn demo_close.
Proof.
  demo_step; [done|]. demo_step; [demo_send|]. demo_step; [demo_write|]. demo_step; [done|].
  demo_step; [right; reflexivity|]. demo_step; [right; reflexivity|]. done.
Qed.


(** The connection is closed by another thread; each callback is called. *)
Example demo_close_calls :
  (c ← @run_conns zero_heap with_close demo_conn demo_close; Some (state_ c, calls c, removed c)) =
  Some (kDisconnected, [CbConnection kConnected; CbConnection kDisconnected; CbClose], true).
Proof. vm_compute. reflexivity. Qed.

Lemma connection_lifecycle_witness :
  exists c, @run_conns zero_heap with_close demo_conn demo_close = Some c /\
    conn_calls (calls c) = expected_calls (state_ c) /\ (close_calls (calls c) <= 1)%nat /\
    (state_ c <> kDisconnected -> close_calls (calls c) = 0%nat) /\
    (~ is_open (state_ c) -> events_ (channel_ c) = 0).
Proof.
  apply (@connection_lifecycle zero_heap); [reflexivity|exact with_close_ok|split; vm_compute; congruence|vm_compute; congruence|].
  exact demo_close_ok.
Defined.

Definition demo_state : Connection :=
  match @run_conns zero_heap no_callbacks demo_conn demo_run with Some c => c | None => demo_conn end.

Lemma connection_drains_witness :
  exists k c', @run_conns zero_heap no_callbacks demo_state (repeat (OpWrite (take_n 2)) k) = Some c' /\
    (k <= length (ChunkList.content (output_buffer_ demo_state)))%nat /\
    ChunkList.content (output_buffer_ c') = [] /\ wire c' = accepted demo_state.
Proof.
  apply (@connection_drains zero_heap no_callbacks 5 demo_input demo_run demo_state (take_n 2));
    [reflexivity|exact no_callbacks_ok|split; vm_compute; congruence|vm_compute; congruence|exact demo_run_ok
    |vm_compute; reflexivity|left; vm_compute; reflexivity|by apply take_n_more|vm_compute; reflexivity|vm_compute; congruence].
Defined.

(** ** Defects *)

Definition with_complete : callbacks := mkCallbacks None true false false 65536.

Definition stuck (c : Connection) : bool :=
  bool_decide (state_ c = kConnected) && HasReadable (output_buffer_ c) && negb (writing c).

(** When the socket's buffer is full, [Send] on an empty output buffer drops the
    data: it is neither sent nor kept. *)
Lemma send_eagain_drops `{Heap} cb c data :
  state_ c = kConnected -> HasReadable (output_buffer_ c) = false ->
  SendInLoop cb eagain c data = Some (refuse c data).
Proof. intros Es Eh. unfold SendInLoop. destruct (decide (state_ c <> kConnected)); [done|]. by rewrite Eh. Qed.

(** Two [ForceClose] from other threads, or one while the peer closes, fail the
    assertion of [HandleClose] in the second. *)
Lemma force_close_twice_fails :
  let run := @run_conns zero_heap no_callbacks demo_conn in
  run [OpEstablish; OpForceClose false; OpForceClose false; OpTask eagain [] false; OpTask eagain [] false] = None /\
  run [OpEstablish; OpForceClose false; OpRead (ReadvBytes []); OpTask eagain [] false] = None.
Proof. split; vm_compute; reflexivity. Qed.

(** [ShutdownWrite] with output pending never shuts the socket down: the retry
    after the output has drained tests for [kConnected]. *)
Lemma shutdown_lost :
  exists c, @run_conns zero_heap no_callbacks demo_conn
      [OpEstablish; OpSend true (take_n 2) (str "bye!"); OpShutdown true; OpWrite (take_n 9)] = Some c /\
    wire c = str "bye!" /\ state_ c = kDisconnecting /\ shut_wr c = false /\ tasks c = [].
Proof. eexists. split; [vm_compute; reflexivity|]. done. Qed.

(** A write complete callback that sends more and returns true, for the last
    part, has its output cut off: writing is disabled while bytes wait. *)
Lemma write_complete_stalls :
  exists c, @run_conns zero_heap with_complete demo_conn
      [OpEstablish; OpSend true (take_n 2) (str "head"); OpWrite (take_n 9);
       OpTask eagain [(take_n 2, str "tail")] true] = Some c /\
    stuck c = true /\ wire c = str "headta".
Proof. eexists. split; [vm_compute; reflexivity|]. split; vm_compute; reflexivity. Qed.

(** A write event handled after a message callback that completed a send fails
    the assertion [state_ == kDisconnected] of [HandleWrite]. *)
Lemma write_event_after_send_fails :
  let before := [OpEstablish; OpSend true (take_n 2) (str "head"); OpWrite (take_n 9); OpTask eagain [] false] in
  (exists c, @run_conns zero_heap with_complete demo_conn before = Some c /\ writing c = true /\ reading c = true) /\
  @run_conns zero_heap with_complete demo_conn
    (before ++ [OpRead (ReadvBytes (str "x")); OpSend true (take_n 9) (str "y"); OpWrite (take_n 9)]) = None.
Proof. split; [eexists; split; [vm_compute; reflexivity|by split]|vm_compute; reflexivity]. Qed.

(** A connection that is being shut down cannot be destroyed. *)
Lemma destroy_disconnecting_fails :
  @run_conns zero_heap no_callbacks demo_conn [OpEstablish; OpShutdown true; OpDestroy] = None.
Proof. vm_compute. reflexivity. Qed.

Definition demo_chunks (s : list byte) : ChunkList :=
  match @ChunkList.Append zero_heap empty_ChunkList s with Some l => l | None => empty_ChunkList end.

(** [Send(OutputBuffer&)] does not ask for write events after a short write, and
    sends before the output that already waits. *)
Lemma send_chunks_stalls :
  let conn := @run_conns zero_heap no_callbacks demo_conn in
  (exists c c' rest, conn [OpEstablish] = Some c /\
     SendChunks no_callbacks true (take_n 2) c (demo_chunks (str "data")) = Some (c', rest) /\
     wire c' = str "da" /\ stuck c' = true) /\
  (exists c c' rest, conn [OpEstablish; OpSend true (take_n 2) (str "1234")] = Some c /\
     SendChunks no_callbacks true (take_n 9) c (demo_chunks (str "5678")) = Some (c', rest) /\
     wire c' = str "125678" /\ ChunkList.content (output_buffer_ c') = str "34" /\ stuck c' = true).
Proof. split; eexists _, _, _; (split; [vm_compute; reflexivity|]); split_and!; vm_compute; reflexivity. Qed.

(** An edge-triggered write event is never done: the loop ends only on EAGAIN
    with nothing left to write, but with nothing to write there is no call. *)
Lemma writev_no_errno sys cnt n cs ret r e :
  takes_some sys -> writev_loop (fun v => sys (concat v)) cnt n cs ret = Some (r, e) -> e = None.
Proof.
  intros Hs. revert cs ret. induction cnt as [|cnt IH]; intros cs ret E; cbn in E; [by injection E as <- <-|].
  destruct (fill_iovecs n cs) as [[v it]|]; [|done]. cbn in E. destruct (Hs (concat v)) as (k & Ek & _).
  rewrite Ek in E. by eapply IH.
Qed.

Lemma et_write_never_returns `{Heap} cb fuel c (sys : nat -> sys_write) :
  (forall k, takes_some (sys k)) -> HandleEtWrite cb fuel c sys = None.
Proof.
  intros Hs. unfold HandleEtWrite. enough (forall k, et_write_loop fuel k c sys = None) as -> by done.
  revert c. induction fuel as [|fuel IH]; intros c k; [done|]. cbn [et_write_loop].
  destruct (WriteFd (sys k) (output_buffer_ c)) as [[[n e] sent]|] eqn:E; [|done]. cbn [mbind option_bind].
  assert (e = None) as ->.
  { unfold WriteFd in E. destruct (ChunkListWriteFd (sys k) (fun v => sys k (concat v)) (output_buffer_ c))
      as [[n' e']|] eqn:Ew; [|done]. injection E as <- <- <-. unfold ChunkListWriteFd in Ew.
    destruct (buffers_ (output_buffer_ c)) as [|x [|y cs]]; [by eapply writev_no_errno| |by eapply writev_no_errno].
    destruct (Hs k (chunk_view x)) as (m & Em & _). rewrite Em in Ew. by injection Ew as <- <-. }
  destruct (ChunkList.AdvanceRead _ n) as [out|]; [|done]. cbn [mbind option_bind].
  rewrite (bool_decide_eq_false_2 (None = Some EAGAIN)) by done. rewrite andb_false_r. apply IH.
Qed.
