(* ===== verification/EndToEnd.v ===== *)
(** * Messages over connections

    The composition that an RPC or a protobuf application uses:
    [GenericPbCodec::Send] builds a frame in a chunk list and passes it to
    [ConnectionBase::Send]; at the peer the read events of the connection append
    to its input buffer and call the codec's [OnMessage] on it. *)

From Stdlib Require Import ZArith Lia.
From S2P Require Import Prelude Buffer ChunkList XXHash Codec Poller Connection.

(** ** The composed operations *)

Section compose.
Context `{Heap} (cb : callbacks).

(** [GenericPbCodec::Send] in the loop's thread. *)
Definition codec_Send (tag : list byte) (sys : sys_write) (c : Connection) (ser : list stream_call) (cached : Z)
  : option Connection :=
  buffer ← Codec.Send tag ser cached;
  '(c, _) ← SendChunks cb true sys c buffer;
  Some c.

Fixpoint codec_Sends (tag : list byte) (sys : sys_write) (c : Connection) (sers : list (list stream_call))
  : option Connection :=
  match sers with
  | [] => Some c
  | ser :: sers => c ← codec_Send tag sys c ser (zlen (written ser)); codec_Sends tag sys c sers
  end.

End compose.

(** The read events of a connection whose message callback is the codec's
    [OnMessage]; what the codec reports is recorded. *)
Definition codec_callbacks {M} (parse : list byte -> option M) (tag : list byte) `{Heap} : callbacks :=
  mkCallbacks (Some (fun b => snd <$> OnMessage parse tag b)) false false false 0.

Definition read_events (segs : list (list byte)) : list conn_op := map (fun s => OpRead (ReadvBytes s)) segs.

(** ** Sending a whole list *)

Section sending.
Context `{Heap} (cb : callbacks).

(** The kernel has room for all of it. *)
Definition takes_all (sys : sys_write) : Prop := forall bs, sys bs = WriteBytes (zlen bs).

(** Advancing over everything frees every chunk, empty ones included. *)
Lemma advance_all fuel cs free :
  cl_wf (mkChunkList cs free) -> zlen (views cs) < 2 ^ 63 -> (length cs < fuel)%nat ->
  exists l, AdvanceRead_loop fuel (mkChunkList cs free) (zlen (views cs)) = Some l /\ buffers_ l = [].
Proof.
  revert cs free. induction fuel as [|k IH]; intros cs free Hwf Hl Hf; [lia|]. cbn [AdvanceRead_loop buffers_].
  destruct cs as [|c cs]; [by eexists|]. rewrite views_cons, zlen_app in *.
  pose proof (cl_chunks _ Hwf) as W. cbn [buffers_] in W. inversion W as [|? ? Hc _]; subst.
  pose proof (zlen_chunk_view c Hc) as Hv. pose proof (zlen_nonneg (views cs)). pose proof (zlen_nonneg (chunk_view c)).
  assert (chunk_readable c = zlen (chunk_view c)) as -> by (rewrite readable_spec by done; lia).
  rewrite (proj2 (Z.leb_le _ _)) by lia. unfold PutToFreeChunk. cbn [buffers_ free_buffers_].
  rewrite (chunk_max _ Hc), Z.eqb_refl. cbn [mbind option_bind].
  rewrite u64_id by lia. replace (zlen (chunk_view c) + zlen (views cs) - zlen (chunk_view c)) with (zlen (views cs)) by lia.
  apply IH; [by apply cl_wf_tail|lia|cbn in Hf; lia].
Qed.

Lemma SendChunks_all c l sys :
  conn_inv c -> state_ c = kConnected -> ChunkList.content (output_buffer_ c) = [] ->
  cl_wf l -> ChunkList.content l <> [] -> zlen (ChunkList.content l) < 2 ^ 63 -> GetChunkSize l <= IOVEC_MAX ->
  takes_all sys ->
  exists c' rest, SendChunks cb true sys c l = Some (c', rest) /\ conn_inv c' /\ state_ c' = kConnected /\
    wire c' = wire c ++ ChunkList.content l /\ ChunkList.content (output_buffer_ c') = [].
Proof.
  intros I Hs Ho Hl Hne Hz Hm Hsys. unfold SendChunks. destruct (decide (state_ c = kConnected)); [|done].
  unfold SendInLoopForChunkList.
  assert (WriteFd sys l = Some (zlen (ChunkList.content l), None, ChunkList.content l)) as ->.
  { assert (1 <= GetChunkSize l) as H1.
    { unfold GetChunkSize. destruct (buffers_ l) as [|x xs] eqn:Eb; [by unfold ChunkList.content in Hne; rewrite Eb in Hne|].
      rewrite zlen_cons. pose proof (zlen_nonneg xs). lia. }
    unfold WriteFd. rewrite (ChunkListWriteFd_sys sys l (zlen (ChunkList.content l))) by (done || lia).
    cbn [mbind option_bind]. by rewrite Hsys, take_ge by (unfold zlen; lia). }
  cbn [mbind option_bind]. assert (0 < zlen (ChunkList.content l)) as Hpos.
  { destruct (ChunkList.content l); [done|]. rewrite zlen_cons. pose proof (zlen_nonneg l0). lia. }
  rewrite (proj2 (Z.ltb_lt _ _)) by lia. destruct l as [cs free].
  destruct (advance_all (S (length cs)) cs free Hl Hz ltac:(lia)) as (l' & E & Eb).
  unfold ChunkList.AdvanceRead. cbn [buffers_]. change (ChunkList.content (mkChunkList cs free)) with (views cs) in *.
  rewrite E. cbn [mbind option_bind]. assert (HasReadable l' = false) as -> by (unfold HasReadable, IsEmpty, GetChunkSize; by rewrite Eb).
  set (c1 := put_wire (accept_bytes c (views cs)) (views cs)).
  assert (conn_inv c1) as I1.
  { destruct I; split; try done. unfold c1. conn_cbn. rewrite ci_stream, Ho, !app_nil_r. done. }
  set (c2 := if write_complete_callback_ cb then QueueTask c1 TCallWriteComplete else c1).
  assert (conn_inv c2 /\ state_ c2 = kConnected /\ wire c2 = wire c ++ views cs /\ output_buffer_ c2 = output_buffer_ c)
    as (I2 & S2 & W2 & O2).
  { unfold c2. destruct (write_complete_callback_ cb); split_and!; try done. by apply inv_queue. }
  eexists _, _. split; [done|]. destruct (writing c2) eqn:Ew.
  - split_and!; try done; [|change (ChunkList.content (output_buffer_ c2) = []); by rewrite O2]. apply inv_events; [done|by left|]. rewrite O2. by rewrite Ho.
  - by rewrite O2.
Qed.

End sending.

(** ** Receiving *)

(** The read events of the connection are the reads of [receive]. *)
Lemma read_events_receive `{Heap} {M} (parse : list byte -> option M) tag segs r evs b :
  Forall (fun s => 0 < zlen s <= extra_buf_size) segs ->
  receive (OnMessage parse tag) segs (input_buffer_ r) = Some (evs, b) ->
  exists r', run_conns (codec_callbacks parse tag) r (read_events segs) = Some r' /\ input_buffer_ r' = b.
Proof.
  intros Hs. revert r evs. induction Hs as [|s segs Hs _ IH]; intros r evs E; cbn [receive read_events map run_conns] in *.
  { injection E as <- <-. by exists r. }
  destruct (BufferReadFromFd (input_buffer_ r) (ReadvBytes s)) as [[[b1 n] e]|] eqn:Er; [|done]. cbn [mbind option_bind] in E.
  assert (n = zlen s /\ e = None) as [-> ->] by (unfold BufferReadFromFd in Er; inv_monad; destruct (_ <=? _) in *; inv_monad; by simplify_eq).
  destruct (OnMessage parse tag b1) as [[evs1 b2]|] eqn:Eo; [|done]. cbn [mbind option_bind] in E.
  destruct (receive _ segs b2) as [[evs2 b3]|] eqn:E2; [|done]. injection E as _ <-.
  cbn [run_conn HandleRead head mbind option_bind]. unfold HandleLtRead. rewrite Er. cbn [mbind option_bind].
  rewrite (proj2 (Z.eqb_neq _ _)) by lia. unfold extra_buf_size in Hs.
  rewrite check_bind_true by (apply andb_true_iff; split; [lia|]; apply negb_true_iff, Z.eqb_neq; change (u64 (-1)) with (2 ^ 64 - 1); lia).
  unfold deliver. cbn [message_callback_ codec_callbacks]. conn_cbn. rewrite Eo. cbn [fmap option_fmap option_map snd mbind option_bind].
  apply (IH (with_input (call (with_input r b1) (CbMessage (Buffer.content b1))) b2) evs2). exact E2.
Qed.

(** ** Properties *)

Section both_ends.
Context `{Heap} {M} (parse : list byte -> option M) (tag : list byte) (cb : callbacks) (sys : sys_write).
Context (Hal : can_alloc chunk_node_bytes = true) (Htag : tag <> []).

(** A message that the codec can send in one call to writev. *)
Definition sendable (x : list stream_call * M * ChunkList) : Prop :=
  sends parse tag x /\ GetChunkSize (snd x) <= IOVEC_MAX.

Lemma codec_Sends_spec s xs :
  conn_inv s -> state_ s = kConnected -> ChunkList.content (output_buffer_ s) = [] -> takes_all sys ->
  Forall sendable xs ->
  exists s', codec_Sends cb tag sys s (map (fun x => fst (fst x)) xs) = Some s' /\ conn_inv s' /\
    wire s' = wire s ++ concat (map (fun x => ChunkList.content (snd x)) xs) /\ ChunkList.content (output_buffer_ s') = [].
Proof.
  intros I Hst Ho Hsys Hxs. revert s I Hst Ho. induction Hxs as [|[[ser m] l] xs [Hx Hg] _ IH]; intros s I Hst Ho.
  { exists s. cbn. by rewrite app_nil_r. }
  destruct (sends_carries parse tag ser m l Hal Htag Hx) as [Hc Hz].
  pose proof (carries_nonempty _ _ _ _ Hc) as Hne. destruct Hx as (Hp & Hsz & l0 & E0 & Hl & E).
  change kMaxMessageLength with 67108864 in *. unfold extra_buf_size in *.
  destruct (Send_spec Hal tag ser l0) as (l' & h & E' & Hwf & _ & _); try done; [lia|].
  rewrite E in E'. injection E' as <-. cbn [map fst snd codec_Sends] in *. unfold codec_Send. rewrite E. cbn [mbind option_bind].
  destruct (SendChunks_all cb s l sys) as (s1 & rest & -> & I1 & Hs1 & Hw1 & Ho1); try done; [lia|].
  cbn [mbind option_bind]. destruct (IH s1 I1 Hs1 Ho1) as (s2 & E2 & I2 & Hw2 & Ho2). exists s2. split_and!; try done.
  rewrite Hw2, Hw1. cbn [concat]. by rewrite <- app_assoc.
Qed.

End both_ends.

(** C2 Messages cross a pair of connections. The sender's connection is open with an
    empty output buffer; each message gives a frame of at most 1024 chunks (about 4 MiB;
    a longer one is never written) whose size with a read of 64 KiB stays below the
    limit of 64 MiB, and the kernel takes each frame whole. Then the frames reach the
    wire whole and in order, and if they reach the peer, whose input buffer is empty, in
    read events of up to 64 KiB, cut anywhere, its connection reports exactly these
    messages in order, without an error and without an assertion failing anywhere. *)
Theorem messages_cross_connections `{Heap} {M} (parse : list byte -> option M) (tag : list byte)
    (cb : callbacks) (sys : sys_write) (fd : Z) (b : Buffer) (os : list conn_op) (s r : Connection)
    (xs : list (list stream_call * M * ChunkList)) (segs : list (list byte)) :
  can_alloc chunk_node_bytes = true -> tag <> [] -> Forall (sendable parse tag) xs ->
  callbacks_ok cb -> buf_wf b -> BUFFER_PREFIX_SIZE <= read_index_ b -> conn_ops_ok cb (make_Connection fd b) os ->
  run_conns cb (make_Connection fd b) os = Some s -> state_ s = kConnected ->
  ChunkList.content (output_buffer_ s) = [] -> takes_all sys ->
  buf_wf (input_buffer_ r) -> BUFFER_PREFIX_SIZE <= read_index_ (input_buffer_ r) ->
  Buffer.content (input_buffer_ r) = [] ->
  exists s' sent, codec_Sends cb tag sys s (map (fun x => fst (fst x)) xs) = Some s' /\ wire s' = wire s ++ sent /\
    accepted s' = wire s' /\
    (concat segs = sent -> Forall (fun s => 0 < zlen s <= extra_buf_size) segs ->
     (forall n, n <= zlen (data_ (input_buffer_ r)) + zlen sent -> can_alloc n = true) ->
     exists r', run_conns (codec_callbacks parse tag) r (read_events segs) = Some r' /\
       receive (OnMessage parse tag) segs (input_buffer_ r) =
         Some (map (fun x => OnMsg (snd (fst x))) xs, input_buffer_ r') /\
       Buffer.content (input_buffer_ r') = []).
Proof.
  intros Hal Htag Hxs Hcb Hb Hp Hok Hrun Hst Ho Hsys Hbr Hpr Hcr.
  destruct (run_conns_spec cb Hal Hcb _ os (make_Connection_inv fd b Hb Hp) Hok) as (s0 & E & I).
  assert (s0 = s) as -> by congruence.
  destruct (codec_Sends_spec parse tag cb sys Hal Htag s xs I Hst Ho Hsys Hxs) as (s' & E' & I' & Hw & Ho').
  exists s', (concat (map (fun x => ChunkList.content (snd x)) xs)). split_and!; try done.
  { by rewrite (ci_stream _ I'), Ho', app_nil_r. }
  intros Hsegs Hsz Hall.
  destruct (codec_receives parse tag xs segs (input_buffer_ r)) as (b' & Er & Hc'); try done.
  - eapply Forall_impl; [exact Hxs|]. by intros x [Hx _].
  - eapply Forall_impl; [exact Hsz|]. cbn. lia.
  - by rewrite Hsegs.
  - destruct (read_events_receive parse tag segs r _ b' Hsz Er) as (r' & Er' & Hb'). exists r'. by rewrite Hb'.
Qed.

Definition roomy_kernel : sys_write := fun bs => WriteBytes (zlen bs).

Definition demo_established : Connection :=
  call (ch_EnableReading (with_state demo_conn kConnected)) (CbConnection kConnected).

Definition demo_messages : list (list stream_call * list byte * ChunkList) :=
  [demo_sent (str "select 1"); demo_sent (str "bye")].

Lemma demo_messages_sendable : Forall (@sendable zero_heap (list byte) Some demo_tag) demo_messages.
Proof.
  repeat apply Forall_cons_2; try apply Forall_nil_2;
    (split; [apply demo_sends; [reflexivity|eexists; vm_compute; reflexivity]|vm_compute; discriminate]).
Qed.

Lemma messages_cross_connections_witness :
  exists s' sent, @codec_Sends zero_heap no_callbacks demo_tag roomy_kernel demo_established
      (map (fun x => fst (fst x)) demo_messages) = Some s' /\ wire s' = wire demo_established ++ sent /\
    accepted s' = wire s' /\
    (concat [take 3 demo_stream; take 20 (drop 3 demo_stream); drop 23 demo_stream] = sent ->
     Forall (fun s => 0 < zlen s <= extra_buf_size) [take 3 demo_stream; take 20 (drop 3 demo_stream); drop 23 demo_stream] ->
     (forall n, n <= zlen (data_ (input_buffer_ demo_established)) + zlen sent -> @can_alloc zero_heap n = true) ->
     exists r', @run_conns zero_heap (@codec_callbacks (list byte) Some demo_tag zero_heap) demo_established
         (read_events [take 3 demo_stream; take 20 (drop 3 demo_stream); drop 23 demo_stream]) = Some r' /\
       @receive zero_heap _ (@OnMessage (list byte) Some zero_heap demo_tag)
         [take 3 demo_stream; take 20 (drop 3 demo_stream); drop 23 demo_stream] (input_buffer_ demo_established) =
         Some (map (fun x => OnMsg (snd (fst x))) demo_messages, input_buffer_ r') /\
       Buffer.content (input_buffer_ r') = []).
Proof.
  apply (@messages_cross_connections zero_heap (list byte) Some demo_tag no_callbacks roomy_kernel 5 demo_input [OpEstablish]
    demo_established demo_established demo_messages);
    [reflexivity|discriminate|exact demo_messages_sendable|exact no_callbacks_ok|split; vm_compute; congruence
    |vm_compute; congruence|split; [reflexivity|intros ? _; exact Logic.I]|reflexivity|reflexivity|reflexivity
    |intros bs; reflexivity|split; vm_compute; congruence|vm_compute; congruence|reflexivity].
Defined.
