(* ===== verification/LengthCodec.v ===== *)
(** * Messages behind a length: example/length_codec/codec.{h,cc} and the
      chat programs that use it, example/chat

    [LengthHeaderCodec] over the models of Buffer and ChunkList. The message
    callback is any function on a state of its own and the input buffer. *)

From Stdlib Require Import ZArith Lia.
From S2P Require Import Prelude Endian StringView Buffer ChunkList Codec.

Definition kHeaderLength : Z := 4.

(** The default of [max_accept_len_]. *)
Definition default_max_accept_len : Z := 65536.

(** ** Sending *)

(** [Send(conn, StringView)]: what it hands to the connection. *)
Definition Send_view `{Heap} (msg : list byte) : option (list byte) :=
  let length := u32 (zlen msg) in
  output_buffer ← make_Buffer BUFFER_INIT_SIZE;
  output_buffer ← Buffer.Append output_buffer msg;
  output_buffer ← Buffer.Prepend32 output_buffer length;
  _ ← Buffer.GetReadBegin32 output_buffer;
  Some (Buffer.content output_buffer).

(** [Send(conn, OutputBuffer &)]; with [NDEBUG] the assertion, and the [Read32]
    inside it, is not compiled. *)
Definition Send_buffer `{Heap} (ndebug : bool) (buffer : ChunkList) : option (list byte) :=
  size ← ChunkList.GetReadableSize buffer;
  let len := u32 size in
  buffer ← ChunkList.Prepend32 buffer len;
  buffer ← (if ndebug then Some buffer
            else '(n, buffer) ← ChunkList.Read32 buffer; assert! (n =? len); Some buffer);
  Some (ChunkList.content buffer).

(** ** Receiving *)

Section receive.
Context {St : Type} (message_callback_ : St -> Buffer -> option (St * Buffer)).

(** The state of the callback, and whether the connection was shut down. *)
Record endpoint := mkEndpoint { user : St; shut : bool }.

(** [OnMessage]: every pass but the last takes a header off the buffer. The sum
    of the header and the message is computed in 32 bits. *)
Fixpoint OnMessage_loop (fuel : nat) (max_accept_len_ : Z) (st : endpoint) (buf : Buffer)
  : option (endpoint * Buffer) :=
  match fuel with
  | O => None
  | S k =>
    if kHeaderLength <=? Buffer.GetReadableSize buf then
      message_len ← Buffer.GetReadBegin32 buf;
      if max_accept_len_ <? message_len then Some (mkEndpoint (user st) true, buf)
      else if u32 (kHeaderLength + message_len) <=? Buffer.GetReadableSize buf then
        buf ← Buffer.AdvanceRead buf kHeaderLength;
        '(u, buf) ← message_callback_ (user st) buf;
        OnMessage_loop k max_accept_len_ (mkEndpoint u (shut st)) buf
      else Some (st, buf)
    else Some (st, buf)
  end.

Definition OnMessage (max_accept_len_ : Z) (st : endpoint) (buf : Buffer) : option (endpoint * Buffer) :=
  OnMessage_loop (S (length (Buffer.content buf))) max_accept_len_ st buf.

End receive.
Arguments endpoint : clear implicits.
Arguments mkEndpoint {St}.

(** ** The chat programs *)

(** The callback of ChatServer and ChatClient: everything that is in the buffer
    is the message. *)
Definition chat_callback (msgs : list (list byte)) (buf : Buffer) : option (list (list byte) * Buffer) :=
  '(msg, buf) ← Buffer.RetrieveAllAsString buf; Some (msgs ++ [msg], buf).

(** [ChatServer::OnConnection]: the set of connections. *)
Definition ChatServer_OnConnection (conns_ : list nat) (conn : nat) (connected : bool) : list nat :=
  if connected then if bool_decide (conn ∈ conns_) then conns_ else conns_ ++ [conn]
  else List.remove Nat.eq_dec conn conns_.

(** [ChatServer::OnStringMessage]: the bytes sent to each connection. *)
Definition ChatServer_OnStringMessage `{Heap} (conns_ : list nat) (msg : list byte) : option (list (nat * list byte)) :=
  mapM (fun c => bytes ← Send_view msg; Some (c, bytes)) conns_.

(** ** Reading fields off a buffer *)

(** [b'] is [b] with bytes taken off its front. *)
Record advanced (b b' : Buffer) : Prop := {
  adv_wf : buf_wf b';
  adv_data : Buffer.data_ b' = Buffer.data_ b;
  adv_prefix : BUFFER_PREFIX_SIZE <= Buffer.read_index_ b -> BUFFER_PREFIX_SIZE <= Buffer.read_index_ b'
}.

Lemma advanced_refl b : buf_wf b -> advanced b b.
Proof. by split. Qed.

Lemma advanced_trans b1 b2 b3 : advanced b1 b2 -> advanced b2 b3 -> advanced b1 b3.
Proof. intros [] []. split; [done|congruence|auto]. Qed.

Lemma AdvanceRead_advanced b n :
  buf_wf b -> 0 <= n <= Buffer.GetReadableSize b ->
  exists b', Buffer.AdvanceRead b n = Some b' /\ advanced b b' /\
    Buffer.content b' = drop (Z.to_nat n) (Buffer.content b).
Proof.
  intros Hb Hn. destruct (AdvanceRead_spec b n Hb Hn) as (b' & E & Hb' & Hc & Hp). exists b'.
  split; [done|]. split; [|done]. split; [done|by eapply AdvanceRead_data|done].
Qed.

Lemma AdvanceRead_advanced_app b p rest :
  buf_wf b -> Buffer.content b = p ++ rest ->
  exists b', Buffer.AdvanceRead b (zlen p) = Some b' /\ advanced b b' /\ Buffer.content b' = rest.
Proof.
  intros Hb Hc. destruct (AdvanceRead_advanced b (zlen p)) as (b' & E & Ha & Hc'); [done| |].
  - rewrite <- Buffer.content_size, Hc, zlen_app by done. pose proof (zlen_nonneg p). pose proof (zlen_nonneg rest). lia.
  - exists b'. split; [done|]. split; [done|]. rewrite Hc', Hc. unfold zlen. rewrite Nat2Z.id. apply drop_app_length.
Qed.

Lemma Read32_advanced b i rest :
  buf_wf b -> Buffer.content b = be_bytes 4 i ++ rest -> 0 <= i < 2 ^ 32 ->
  exists b', Buffer.Read32 b = Some (i, b') /\ advanced b b' /\ Buffer.content b' = rest.
Proof.
  intros Hb Hc Hi. destruct (Read32_spec b i rest Hb Hc Hi) as (b' & E & _ & _).
  destruct (AdvanceRead_advanced_app b (be_bytes 4 i) rest Hb Hc) as (b2 & E2 & Ha & Hc2).
  rewrite zlen_be_bytes in E2. pose proof E as E'. unfold Buffer.Read32 in E'.
  destruct (Buffer.GetReadBegin32 b) as [v|]; [|done]. cbn [mbind option_bind] in E'.
  unfold Buffer.AdvanceRead32 in E'. change (Z.of_nat 4) with 4 in E2. rewrite E2 in E'.
  cbn [mbind option_bind] in E'. injection E' as -> ->. by exists b'.
Qed.

Lemma Read8_advanced b i rest :
  buf_wf b -> Buffer.content b = be_bytes 1 i ++ rest -> 0 <= i < 2 ^ 8 ->
  exists b', Buffer.Read8 b = Some (i, b') /\ advanced b b' /\ Buffer.content b' = rest.
Proof.
  intros Hb Hc Hi. destruct (Read8_spec b i rest Hb Hc Hi) as (b' & E & _ & _).
  destruct (AdvanceRead_advanced_app b (be_bytes 1 i) rest Hb Hc) as (b2 & E2 & Ha & Hc2).
  rewrite zlen_be_bytes in E2. pose proof E as E'. unfold Buffer.Read8 in E'.
  destruct (Buffer.GetReadBegin8 b) as [v|]; [|done]. cbn [mbind option_bind] in E'.
  unfold Buffer.AdvanceRead8 in E'. change (Z.of_nat 1) with 1 in E2. rewrite E2 in E'.
  cbn [mbind option_bind] in E'. injection E' as -> ->. by exists b'.
Qed.

(** ** What is sent *)

Definition length_frame (msg : list byte) : list byte := be_bytes 4 (zlen msg) ++ msg.

Lemma Send_buffer_spec `{Heap} (l : ChunkList) :
  can_alloc chunk_node_bytes = true -> cl_wf l -> roomy l -> zlen (ChunkList.content l) < 2 ^ 32 ->
  Send_buffer true l = Some (length_frame (ChunkList.content l)).
Proof.
  intros Hal Hwf Hro Hl. pose proof (zlen_nonneg (ChunkList.content l)). unfold Send_buffer.
  rewrite GetReadableSize_spec by (done || lia). cbn [mbind option_bind]. rewrite u32_id by lia.
  unfold ChunkList.Prepend32.
  rewrite check_bind_true by (apply Z.eqb_eq; apply byte_order32_involutive; lia).
  unfold ToNetworkByteOrder32 at 1. rewrite le_bytes_bswap.
  destruct (chunks_Prepend_spec Hal l (be_bytes 4 (zlen (ChunkList.content l)))) as (l' & E & _ & Hc & _);
    [done|rewrite zlen_be_bytes; unfold sizeof_size_t; lia|done|].
  rewrite E. cbn [mbind option_bind]. by rewrite Hc.
Qed.

(** ** What is received *)

Section receiver.
Context {St : Type} (cb : St -> Buffer -> option (St * Buffer)) (max_len : Z).
Context (max_len_ok : 0 <= max_len < 2 ^ 32 - kHeaderLength).

(** A callback that takes exactly its message off the buffer. *)
Definition takes (u : St) (msg : list byte) (u' : St) : Prop :=
  forall b rest, buf_wf b -> Buffer.content b = msg ++ rest ->
    exists b', cb u b = Some (u', b') /\ advanced b b' /\ Buffer.content b' = rest.

Definition frame_step (st : endpoint St) (f : list byte) (st' : endpoint St) : Prop :=
  exists msg, f = length_frame msg /\ zlen msg <= max_len /\ takes (user st) msg (user st') /\ shut st' = shut st.

(** The start of a frame with the announced bytes not all there. *)
Definition incomplete (p : list byte) : Prop :=
  zlen p < kHeaderLength \/
  (be_value (take 4 p) <= max_len /\ zlen p < kHeaderLength + be_value (take 4 p)).

Lemma length_frame_header msg rest : zlen msg < 2 ^ 32 -> be_value (take 4 (length_frame msg ++ rest)) = zlen msg.
Proof using.
  intros Hm. pose proof (zlen_nonneg msg). unfold length_frame. rewrite <- app_assoc.
  rewrite take_app_length' by (by rewrite length_be_bytes). rewrite be_value_bytes. apply Z.mod_small. lia.
Qed.

Lemma incomplete_prefix p ext msg :
  p ++ ext = length_frame msg -> ext <> [] -> zlen msg <= max_len -> incomplete p.
Proof using max_len_ok.
  intros E Hne Hm. unfold kHeaderLength in *. pose proof (zlen_nonneg msg).
  assert (zlen p + zlen ext = 4 + zlen msg) as Hz.
  { rewrite <- zlen_app, E. unfold length_frame. rewrite zlen_app, zlen_be_bytes. lia. }
  assert (0 < zlen ext) by (destruct ext; [done|rewrite zlen_cons; pose proof (zlen_nonneg ext); lia]).
  unfold incomplete, kHeaderLength. destruct (Z.ltb_spec (zlen p) 4); [by left|right].
  assert (be_value (take 4 p) = zlen msg) as ->; [|lia].
  rewrite <- (length_frame_header msg []) by lia. rewrite app_nil_r, <- E. f_equal.
  rewrite take_app_le; [done|]. unfold zlen in *. lia.
Qed.

Lemma loop_incomplete k st b :
  buf_wf b -> incomplete (Buffer.content b) -> OnMessage_loop cb (S k) max_len st b = Some (st, b).
Proof using max_len_ok.
  intros Hb Hi. cbn [OnMessage_loop]. pose proof (Buffer.content_size b Hb) as Hs. unfold kHeaderLength in *.
  destruct (Z.leb_spec 4 (Buffer.GetReadableSize b)) as [Hr|]; [|done].
  rewrite GetReadBegin32_spec by done. cbn [mbind option_bind].
  pose proof (be_value_range (take 4 (Buffer.content b))) as Hv.
  destruct Hi as [Hi|[Hi Hj]]; [unfold kHeaderLength in Hi; lia|]. unfold kHeaderLength in Hj.
  rewrite (proj2 (Z.ltb_ge _ _)) by lia. rewrite u32_id by lia. by rewrite (proj2 (Z.leb_gt _ _)) by lia.
Qed.

Lemma loop_frames k : forall fs st st' b part,
  buf_wf b -> Buffer.content b = concat fs ++ part -> frames_run frame_step st fs st' -> incomplete part ->
  (length fs < k)%nat ->
  exists b', OnMessage_loop cb k max_len st b = Some (st', b') /\ advanced b b' /\ Buffer.content b' = part.
Proof using max_len_ok.
  induction k as [|k IH]; intros fs st st' b part Hb Hc HR Hi Hk; [lia|].
  destruct HR as [st|st st1 st2 f fs (msg & -> & Hm & Ht & Hsh) HR].
  - exists b. cbn [concat] in Hc. rewrite loop_incomplete by (rewrite ?Hc; done).
    split; [done|]. split; [by apply advanced_refl|done].
  - cbn [OnMessage_loop]. cbn [concat] in Hc. rewrite <- app_assoc in Hc.
    pose proof (Buffer.content_size b Hb) as Hs. pose proof (zlen_nonneg msg).
    pose proof (zlen_nonneg (concat fs ++ part)). unfold kHeaderLength in *.
    assert (zlen (Buffer.content b) = 4 + zlen msg + zlen (concat fs ++ part)) as Hz.
    { rewrite Hc. unfold length_frame. rewrite zlen_app, zlen_app, zlen_be_bytes. lia. }
    rewrite (proj2 (Z.leb_le _ _)) by lia. rewrite GetReadBegin32_spec by (done || lia). cbn [mbind option_bind].
    rewrite Hc, length_frame_header by lia. rewrite (proj2 (Z.ltb_ge _ _)) by lia. rewrite u32_id by lia.
    rewrite (proj2 (Z.leb_le _ _)) by lia. unfold length_frame in Hc. rewrite <- app_assoc in Hc.
    destruct (AdvanceRead_advanced_app b _ _ Hb Hc) as (b1 & E1 & Ha1 & Hc1). rewrite zlen_be_bytes in E1.
    change (Z.of_nat 4) with 4 in E1. rewrite E1. cbn [mbind option_bind].
    destruct (Ht b1 (concat fs ++ part) (adv_wf _ _ Ha1) Hc1) as (b2 & -> & Ha2 & Hc2). cbn [mbind option_bind].
    rewrite <- Hsh. replace (mkEndpoint (user st1) (shut st1)) with st1 by (by destruct st1).
    destruct (IH fs st1 st2 b2 part (adv_wf _ _ Ha2) Hc2 HR Hi) as (b3 & E3 & Ha3 & Hc3); [cbn in Hk; lia|].
    exists b3. split; [done|]. split; [|done]. eapply advanced_trans; [done|]. by eapply advanced_trans.
Qed.

Lemma concat_length_ge (fs : list (list byte)) : Forall (fun f => f <> []) fs -> (length fs <= length (concat fs))%nat.
Proof using.
  induction 1 as [|f fs Hf _ IH]; [done|]. cbn. rewrite length_app. destruct f; [done|]. cbn. lia.
Qed.

Lemma frame_step_nonempty st f st' : frame_step st f st' -> f <> [].
Proof using.
  intros (msg & -> & _) E. apply (f_equal length) in E. unfold length_frame in E.
  rewrite length_app, length_be_bytes in E. cbn in E. lia.
Qed.

Lemma OnMessage_handles st b fs st' part :
  buf_wf b -> Buffer.content b = concat fs ++ part -> frames_run frame_step st fs st' -> incomplete part ->
  exists b', OnMessage cb max_len st b = Some (st', b') /\ advanced b b' /\ Buffer.content b' = part.
Proof using max_len_ok.
  intros Hb Hc HR Hi. eapply loop_frames; [done..|]. rewrite Hc, length_app.
  pose proof (concat_length_ge fs (frames_run_Forall _ _ _ _ _ frame_step_nonempty HR)). lia.
Qed.

(** Frames cut into any segments arrive one by one. *)
Lemma frames_arrive `{Heap} segs fs st st' b :
  buf_wf b -> BUFFER_PREFIX_SIZE <= Buffer.read_index_ b -> Buffer.content b = [] ->
  concat segs = concat fs -> frames_run frame_step st fs st' ->
  Forall (fun s => zlen s <= extra_buf_size) segs ->
  (forall n, n <= zlen (Buffer.data_ b) + zlen (concat segs) -> can_alloc n = true) ->
  exists b', serve (OnMessage cb max_len) segs st b = Some (st', b') /\ buf_wf b' /\ Buffer.content b' = [].
Proof using max_len_ok.
  intros Hb Hp Hc Hs HR Hsz Hal.
  pose proof (frames_run_Forall _ _ _ _ _ frame_step_nonempty HR) as Hne.
  pose proof (frames_run_Forall _ (fun f => exists msg, f = length_frame msg /\ zlen msg <= max_len) _ _ _
                (fun _ _ _ '(ex_intro _ msg (conj E (conj L _))) => ex_intro _ msg (conj E L)) HR) as Hfr.
  eapply (serve_spec (OnMessage cb max_len) frame_step incomplete (2 ^ 40)); try done.
  - intros ? ? ?. apply frame_step_nonempty.
  - intros st1 b1 fs1 st2 part Hb1 _ Hc1 HR1 Hi1.
    destruct (OnMessage_handles st1 b1 fs1 st2 part) as (b2 & E & [] & Hc2); [done..|]. by exists b2.
  - by rewrite Hc.
  - rewrite Hc. destruct fs as [|f fs]; [done|]. inversion Hne; subst. by exists f.
  - eapply Forall_impl; [exact Hfr|]. cbv beta. intros f (msg & -> & Hm). unfold length_frame, extra_buf_size.
    rewrite zlen_app, zlen_be_bytes. unfold kHeaderLength in *. lia.
  - intros k fs1 fs2 p -> _ Hw. destruct fs2 as [|f fs2]; [cbn in Hw; subst p; left; reflexivity|]. destruct Hw as (ext & E & Hx).
    apply Forall_app in Hfr as [_ Hfr]. inversion Hfr as [|? ? (msg & -> & Hm) _]; subst.
    by eapply incomplete_prefix.
Qed.

(** A callback that returns with no more bytes in the buffer than before. *)
Definition returns : Prop :=
  forall u b, buf_wf b -> exists u' b', cb u b = Some (u', b') /\ buf_wf b' /\
    Buffer.GetReadableSize b' <= Buffer.GetReadableSize b.

Lemma loop_returns k st b :
  returns -> buf_wf b -> Buffer.GetReadableSize b < Z.of_nat k ->
  exists st' b', OnMessage_loop cb k max_len st b = Some (st', b') /\ buf_wf b' /\
    Buffer.GetReadableSize b' <= Buffer.GetReadableSize b.
Proof using.
  intros Hret. revert st b. induction k as [|k IH]; intros st b Hb Hk.
  - rewrite <- Buffer.content_size in Hk by done. pose proof (zlen_nonneg (Buffer.content b)). lia.
  - cbn [OnMessage_loop]. unfold kHeaderLength.
    destruct (Z.leb_spec 4 (Buffer.GetReadableSize b)); [|by exists st, b].
    rewrite GetReadBegin32_spec by done. cbn [mbind option_bind].
    destruct (_ <? _); [by eexists _, b|]. destruct (_ <=? _); [|by exists st, b].
    destruct (AdvanceRead_advanced b 4 Hb) as (b1 & -> & [Hb1 _ _] & Hc1); [lia|]. cbn [mbind option_bind].
    apply (f_equal zlen) in Hc1. rewrite zlen_drop, !Buffer.content_size in Hc1 by (done || lia).
    destruct (Hret (user st) b1 Hb1) as (u & b2 & -> & Hb2 & Hl). cbn [mbind option_bind].
    destruct (IH (mkEndpoint u (shut st)) b2 Hb2) as (st' & b' & E & Hb' & Hl'); [lia|].
    exists st', b'. split; [done|]. split; [done|]. lia.
Qed.
End receiver.

(** ** Properties *)

(** C36 On arbitrary bytes and whatever limit is set, OnMessage returns, provided
    that the message callback does and puts no bytes into the buffer: every pass
    takes a header off, so that there are no more passes than bytes. The buffer
    stays well formed. *)
Theorem on_message_terminates {St} (cb : St -> Buffer -> option (St * Buffer)) (max_accept_len_ : Z)
    (st : endpoint St) (b : Buffer) :
  returns cb -> buf_wf b ->
  exists st' b', OnMessage cb max_accept_len_ st b = Some (st', b') /\ buf_wf b' /\
    Buffer.GetReadableSize b' <= Buffer.GetReadableSize b.
Proof.
  intros Hr Hb. apply loop_returns; [done|done|]. rewrite <- Buffer.content_size by done. unfold zlen. lia.
Qed.

(** The callback of the chat programs takes all there is. *)
Lemma chat_callback_returns : returns chat_callback.
Proof.
  intros msgs b Hb. unfold chat_callback, Buffer.RetrieveAllAsString.
  destruct (RetrieveAsString_spec b (Buffer.GetReadableSize b)) as (b' & -> & Hb' & Hc & _); [done| |].
  - rewrite <- Buffer.content_size by done. pose proof (zlen_nonneg (Buffer.content b)). lia.
  - cbn [mbind option_bind]. eexists _, b'. split; [done|]. split; [done|].
    rewrite <- !Buffer.content_size, Hc by done. rewrite zlen_drop. pose proof (zlen_nonneg (Buffer.content b)). lia.
Qed.

(** Bytes that are no frame. *)
Definition noise : Buffer := mkBuffer 8 28 (repeat x00 8 ++ be_bytes 4 3 ++ repeat x01 16).

Lemma on_message_terminates_witness :
  exists st' b', OnMessage chat_callback default_max_accept_len (mkEndpoint [] false) noise = Some (st', b') /\
    buf_wf b' /\ Buffer.GetReadableSize b' <= Buffer.GetReadableSize noise.
Proof. apply on_message_terminates; [apply chat_callback_returns|by split]. Defined.

(** ** Defects *)

(** Two messages that arrive in one segment reach the chat callback as one, with
    the header of the second in the middle. *)
Lemma chat_merges_messages :
  exists st b', OnMessage chat_callback default_max_accept_len (mkEndpoint [] false)
      (mkBuffer 8 20 (repeat x00 8 ++ length_frame (str "hi") ++ length_frame (str "yo"))) = Some (st, b') /\
    user st = [str "hi" ++ be_bytes 4 2 ++ str "yo"].
Proof. eexists _, _. split; vm_compute; reflexivity. Qed.

(** With assertions compiled, [Send] of an output buffer takes the header it has
    just written off again: the message goes out without its length. *)
Lemma debug_send_drops_header :
  exists l, @ChunkList.Append zero_heap empty_ChunkList (str "hi") = Some l /\
    @Send_buffer zero_heap false l = Some (str "hi") /\ @Send_buffer zero_heap true l = Some (length_frame (str "hi")).
Proof. eexists. split; [vm_compute; reflexivity|]. split; vm_compute; reflexivity. Qed.

(** With a limit near 2^32 the sum of header and length wraps around: a header
    alone passes for a complete message. *)
Lemma length_sum_wraps :
  exists st b', OnMessage chat_callback (2 ^ 32) (mkEndpoint [] false)
      (mkBuffer 8 12 (repeat x00 8 ++ be_bytes 4 (2 ^ 32 - 1))) = Some (st, b') /\ user st = [[]].
Proof. eexists _, _. split; vm_compute; reflexivity. Qed.
