(* ===== verification/FileTransfer.v ===== *)
(** * The file transfer example: example/file_transfer

    The client cuts a file into messages of at most 64 KiB, the session of the
    server writes them to the file they name; both over the models of the length
    codec, Buffer and ChunkList. Files are byte sequences on a disk; whether the
    C library can open and write a file is a parameter. *)

From Stdlib Require Import ZArith Lia.
From S2P Require Import Prelude Endian StringView Buffer ChunkList Codec LengthCodec.

Abbreviation path := (list byte).

(** ** util::File *)

Definition disk := path -> option (list byte).
Definition disk_set (d : disk) (p : path) (content : list byte) : disk :=
  fun q => if bool_decide (q = p) then Some content else d q.

(** The modes of [fopen] that [File::Open] asks for. *)
Inductive fopen_mode := ModeR | ModeRPlus | ModeA | ModeAPlus | ModeW | ModeWPlus.

Definition kRead : Z := 1.
Definition kWriteBegin : Z := 2.
Definition kTruncate : Z := 4.
Definition kAppend : Z := 8.

(** The mode of [File::Open]; no flag at all opens nothing. *)
Definition Open_mode (mode : Z) : option fopen_mode :=
  let has f := negb (Z.land mode f =? 0) in
  if has kWriteBegin then Some ModeRPlus
  else if has kRead then
    if has kAppend then Some ModeAPlus else if has kTruncate then Some ModeWPlus else Some ModeR
  else if has kAppend then Some ModeA
  else if has kTruncate then Some ModeW
  else None.

Definition kInvalidReturn : Z := 2 ^ 64 - 1.

(** What [fread] does: reads what there is up to the length, or stops after [n]
    bytes with an error. *)
Inductive fread_result := FreadOk | FreadError (n : nat).

(** [File::Read] of an open file, given by the bytes not yet read: the result
    and what is in the caller's array. *)
Definition File_Read (rest : list byte) (len : Z) (r : fread_result) : Z * list byte * list byte :=
  let n := match r with FreadOk => Z.to_nat len | FreadError n => Nat.min n (Z.to_nat len) end in
  let got := take n rest in
  let ferror := match r with FreadOk => false | FreadError _ => true end in
  ((if (zlen got <? len) && ferror then kInvalidReturn else zlen got), got, drop n rest).

(** ** FileTransferClient *)

Definition kFileBufferSize : Z := 64 * 1024.

Record FileTransferClient := mkClient {
  remote_path_ : path;
  client_seq_ : Z;
  client_file_ : option (list byte)   (* what is left to read of the open file *)
}.

(** [OnWriteComplete]: what it sends, if anything, and whether it asks to be
    called again when that is written. Without an open file it follows a null
    pointer. *)
Definition OnWriteComplete `{Heap} (ndebug : bool) (c : FileTransferClient) (r : fread_result)
  : option (FileTransferClient * option (list byte) * bool) :=
  file ← client_file_ c;
  let '(n, buf, rest) := File_Read file kFileBufferSize r in
  if n =? kInvalidReturn then Some (mkClient (remote_path_ c) (client_seq_ c) (Some rest), None, false)
  else
    let op := if n <? kFileBufferSize then 129 else 128 in
    msg ← ChunkList.Append8 empty_ChunkList op;
    msg ← ChunkList.Append32 msg (client_seq_ c);
    msg ← ChunkList.Append32 msg (u32 (zlen (remote_path_ c)));
    msg ← ChunkList.Append msg (remote_path_ c);
    msg ← ChunkList.Append32 msg (u32 n);
    msg ← ChunkList.Append msg buf;
    bytes ← Send_buffer ndebug msg;
    Some (if n <? kFileBufferSize then mkClient (remote_path_ c) 0 None
          else mkClient (remote_path_ c) (u32 (client_seq_ c + 1)) (Some rest),
          Some bytes, negb (n <? kFileBufferSize)).

(** [SendFile] of a file that opens, and the write-complete callbacks that
    follow: everything that is sent. *)
Fixpoint send_chunks `{Heap} (fuel : nat) (ndebug : bool) (c : FileTransferClient) : option (list (list byte)) :=
  match fuel with
  | O => None
  | S k =>
    '(c, bytes, again) ← OnWriteComplete ndebug c FreadOk;
    rest ← (if again : bool then send_chunks k ndebug c else Some []);
    Some (match bytes with Some bs => bs :: rest | None => rest end)
  end.

Definition SendFile `{Heap} (ndebug : bool) (content : list byte) (p : path) : option (list (list byte)) :=
  send_chunks (S (length content)) ndebug (mkClient p 0 (Some content)).

(** ** FileTransferSession *)

Definition kMaxAcceptLength : Z := 69655.

Record FileTransferSession := mkSession {
  local_path_ : path;
  seq_ : Z;
  file_ : option path      (* the open file *)
}.

Definition new_session : FileTransferSession := mkSession [] 0 None.

Definition Reset (s : FileTransferSession) : FileTransferSession := mkSession [] 0 None.

Section session.
(** Whether [fopen] in mode [w] succeeds, and whether [fwrite] writes all. *)
Context (fopen_ok : path -> bool) (fwrite_ok : path -> list byte -> bool).

(** [File::Write] at the end of the open file. *)
Definition File_Write (d : disk) (p : path) (bytes : list byte) : option disk :=
  old ← d p; if fwrite_ok p bytes then Some (disk_set d p (old ++ bytes)) else None.

(** The part of [OnLengthMessage] behind the file name. *)
Definition write_chunk (op : Z) (s : FileTransferSession) (d : disk) (buffer : Buffer)
  : option (FileTransferSession * disk * Buffer) :=
  '(filesize, buffer) ← Buffer.Read32 buffer;
  if kFileBufferSize <? filesize then Some (s, d, buffer)
  else
    let opened :=
      match file_ s with
      | Some p => Some (s, d)
      | None =>
        if fopen_ok (local_path_ s)
        then Some (mkSession (local_path_ s) (seq_ s) (Some (local_path_ s)), disk_set d (local_path_ s) [])
        else None
      end in
    match opened with
    | None => Some (s, d, buffer)
    | Some (s, d) =>
      p ← file_ s;
      bytes ← mem_read (Buffer.data_ buffer) (Buffer.read_index_ buffer) filesize;
      buffer ← Buffer.AdvanceRead buffer filesize;
      match File_Write d p bytes with
      | None => Some (s, d, buffer)
      | Some d => Some (if Z.testbit op 0 then Reset s else s, d, buffer)
      end
    end.

(** [OnLengthMessage] *)
Definition OnLengthMessage (st : FileTransferSession * disk) (buffer : Buffer)
  : option (FileTransferSession * disk * Buffer) :=
  let '(s, d) := st in
  '(op, buffer) ← Buffer.Read8 buffer;
  if Z.testbit op 7 then
    '(seq, buffer) ← Buffer.Read32 buffer;
    if negb (seq =? seq_ s) then Some (s, d, buffer)
    else
      let s := mkSession (local_path_ s) (u32 (seq + 1)) (file_ s) in
      '(filename_len, buffer) ← Buffer.Read32 buffer;
      if 4096 <? filename_len then Some (s, d, buffer)
      else
        let name := substr (Buffer.ToStringView buffer) 0 filename_len in
        match local_path_ s with
        | [] =>
          text ← ToString name;
          buffer ← Buffer.AdvanceRead buffer filename_len;
          write_chunk op (mkSession text (seq_ s) (file_ s)) d buffer
        | p =>
          r ← compare name (view_of p);
          if negb (r =? 0) then Some (s, d, buffer)
          else
            buffer ← Buffer.AdvanceRead buffer filename_len;
            write_chunk op s d buffer
        end
  else Some (s, d, buffer).

(** The message callback of the connection. *)
Definition session_callback (st : endpoint (FileTransferSession * disk)) (buffer : Buffer)
  : option (endpoint (FileTransferSession * disk) * Buffer) :=
  OnMessage OnLengthMessage kMaxAcceptLength st buffer.

End session.

(** ** The messages *)

(** A message: operation, sequence number, path and bytes. *)
Definition message (p : path) (seq : Z) (chunk : list byte) (last : bool) : list byte :=
  be_bytes 1 (if last then 129 else 128) ++ be_bytes 4 seq ++ be_bytes 4 (zlen p) ++ p ++
  be_bytes 4 (zlen chunk) ++ chunk.

Lemma zlen_message p seq chunk last : zlen (message p seq chunk last) = 13 + zlen p + zlen chunk.
Proof. unfold message. rewrite !zlen_app, !zlen_be_bytes. lia. Qed.

(** A chunk list under construction. *)
Definition holding (l : ChunkList) (bs : list byte) : Prop := cl_wf l /\ roomy l /\ ChunkList.content l = bs.

Section client.
Context `{Heap} (Halloc : can_alloc chunk_node_bytes = true).

Lemma holding_append l bs x : holding l bs -> bs ++ x <> [] -> exists l', ChunkList.Append l x = Some l' /\ holding l' (bs ++ x).
Proof using Halloc.
  intros (Hwf & Hro & Hc) Hne. destruct (chunks_Append_spec Halloc l x) as (l' & E & Hwf' & Hc' & _ & Hro'); [done| |].
  - destruct x as [|y x]; [left|by right]. rewrite app_nil_r in Hne. intros Eb. unfold ChunkList.content in Hc.
    rewrite Eb in Hc. by subst.
  - exists l'. split; [done|]. split; [done|]. split; [auto|congruence].
Qed.

Lemma Append32_be l i : ChunkList.Append32 l i = ChunkList.Append l (be_bytes 4 i).
Proof using. unfold ChunkList.Append32, ToNetworkByteOrder32. by rewrite le_bytes_bswap. Qed.

(** One call of [OnWriteComplete] sends one message. *)
Lemma OnWriteComplete_spec p seq file chunk rest last :
  zlen p <= 4096 -> take (Z.to_nat kFileBufferSize) file = chunk -> drop (Z.to_nat kFileBufferSize) file = rest ->
  (zlen chunk <? kFileBufferSize) = last ->
  OnWriteComplete true (mkClient p seq (Some file)) FreadOk =
    Some (if last then mkClient p 0 None
          else mkClient p (u32 (seq + 1)) (Some rest),
          Some (length_frame (message p seq chunk last)), negb last).
Proof using Halloc.
  intros Hp Hch Hre Hla. unfold OnWriteComplete, File_Read. cbn [client_file_ mbind option_bind remote_path_ client_seq_].
  rewrite Hch, Hre, andb_false_r. pose proof (zlen_nonneg p). pose proof (zlen_nonneg chunk).
  assert (zlen chunk <= 65536) as Hk.
  { rewrite <- Hch, zlen_take. change kFileBufferSize with 65536. pose proof (zlen_nonneg file). lia. }
  clear Hch Hre. unfold kInvalidReturn. rewrite (proj2 (Z.eqb_neq _ _)) by lia. rewrite Hla.
  rewrite (u32_id (zlen p)), (u32_id (zlen chunk)) by lia.
  assert (holding empty_ChunkList []) as L0 by (split; [repeat constructor|]; split; [intros ? ? [=]|done]).
  assert (ChunkList.Append8 empty_ChunkList (if last then 129 else 128)
          = ChunkList.Append empty_ChunkList (be_bytes 1 (if last then 129 else 128))) as -> by done.
  destruct (holding_append _ _ (be_bytes 1 (if last then 129 else 128)) L0) as (l1 & -> & L1); [by destruct last|].
  cbn [mbind option_bind]. rewrite Append32_be.
  destruct (holding_append _ _ (be_bytes 4 seq) L1) as (l2 & -> & L2); [by destruct last|].
  cbn [mbind option_bind]. rewrite Append32_be.
  destruct (holding_append _ _ (be_bytes 4 (zlen p)) L2) as (l3 & -> & L3); [by destruct last|].
  cbn [mbind option_bind].
  destruct (holding_append _ _ p L3) as (l4 & -> & L4); [by destruct last|].
  cbn [mbind option_bind]. rewrite Append32_be.
  destruct (holding_append _ _ (be_bytes 4 (zlen chunk)) L4) as (l5 & -> & L5); [by destruct last|].
  cbn [mbind option_bind].
  destruct (holding_append _ _ chunk L5) as (l6 & -> & Hwf & Hro & Hc); [by destruct last|].
  cbn [mbind option_bind].
  assert (ChunkList.content l6 = message p seq chunk last) as Em by (by rewrite Hc, <- !app_assoc).
  rewrite Send_buffer_spec, Em; [done|done|done|done|]. rewrite Em, zlen_message. lia.
Qed.
End client.

(** ** The session *)

Section receiver.
Context (fopen_ok : path -> bool) (fwrite_ok : path -> list byte -> bool) (p : path).
Context (path_ok : p <> [] /\ zlen p <= 4096).
Context (disk_ok : fopen_ok p = true /\ forall bs, fwrite_ok p bs = true).

Abbreviation handler := (OnLengthMessage fopen_ok fwrite_ok).

(** The session waits for message [seq] of the file, of which [w] is written. *)
Definition ready (s : FileTransferSession) (d : disk) (seq : Z) (w : list byte) : Prop :=
  seq_ s = seq /\
  ((local_path_ s = [] /\ file_ s = None /\ w = []) \/ (local_path_ s = p /\ file_ s = Some p /\ d p = Some w)).

(** What is on the disk when the next bytes are written. *)
Definition opened_disk (s : FileTransferSession) (d : disk) : disk :=
  match file_ s with Some _ => d | None => disk_set d p [] end.

Definition after (seq : Z) (last : bool) : FileTransferSession :=
  if last then new_session else mkSession p (u32 (seq + 1)) (Some p).

Lemma disk_set_eq d q bs : disk_set d q bs q = Some bs.
Proof using. unfold disk_set. by rewrite bool_decide_true. Qed.

Lemma disk_set_ne d q r bs : q <> r -> disk_set d r bs q = d q.
Proof using. intros. unfold disk_set. by rewrite bool_decide_false. Qed.

Lemma write_chunk_spec op s d seq w chunk b rest :
  ready s d seq w -> zlen chunk <= kFileBufferSize ->
  buf_wf b -> Buffer.content b = be_bytes 4 (zlen chunk) ++ chunk ++ rest ->
  exists b', write_chunk fopen_ok fwrite_ok op (mkSession p (u32 (seq + 1)) (file_ s)) d b =
      Some (after seq (Z.testbit op 0), disk_set (opened_disk s d) p (w ++ chunk), b') /\
    advanced b b' /\ Buffer.content b' = rest.
Proof using disk_ok.
  intros (Hq & Hr) Hk Hb Hc. pose proof (zlen_nonneg chunk). pose proof (zlen_nonneg rest). destruct disk_ok as [Hop Hwr].
  unfold write_chunk, kFileBufferSize in *.
  destruct (Read32_advanced b _ _ Hb Hc) as (b1 & -> & Ha1 & Hc1); [lia|]. cbn [mbind option_bind].
  rewrite (proj2 (Z.ltb_ge _ _)) by lia. cbn [file_ local_path_ seq_].
  pose proof (adv_wf _ _ Ha1) as Hb1. pose proof (Buffer.content_size b1 Hb1) as Hs. rewrite Hc1, zlen_app in Hs.
  destruct (AdvanceRead_advanced_app b1 _ _ Hb1 Hc1) as (b2 & E2 & Ha2 & Hc2).
  exists b2. split; [|split; [by eapply advanced_trans|done]].
  destruct Hr as [(Hl & Hf & ->)|(Hl & Hf & Hd)]; unfold opened_disk; rewrite Hf; cbn [file_ mbind option_bind].
  - rewrite Hop. cbn [file_ mbind option_bind]. rewrite mem_read_content by (done || lia). cbn [mbind option_bind].
    rewrite E2. cbn [mbind option_bind]. unfold File_Write. rewrite disk_set_eq. cbn [mbind option_bind app].
    rewrite Hwr, Hc1. unfold zlen. rewrite Nat2Z.id, take_app_length. by destruct (Z.testbit op 0).
  - rewrite mem_read_content by (done || lia). cbn [mbind option_bind]. rewrite E2. cbn [mbind option_bind].
    unfold File_Write. rewrite Hd. cbn [mbind option_bind]. rewrite Hwr, Hc1. unfold zlen.
    rewrite Nat2Z.id, take_app_length. by destruct (Z.testbit op 0).
Qed.

(** The name in the message, as the session sees it. *)
Lemma name_view b rest :
  buf_wf b -> Buffer.content b = p ++ rest ->
  let name := substr (Buffer.ToStringView b) 0 (zlen p) in view_wf name /\ StringView.content name = p.
Proof using.
  intros Hb Hc. destruct (view_content b Hb) as [Hv Hvc]. pose proof (zlen_nonneg p). pose proof (zlen_nonneg rest).
  assert (len_ (Buffer.ToStringView b) = zlen p + zlen rest) as Hlen.
  { rewrite <- zlen_app, <- Hc. by rewrite Buffer.content_size. }
  destruct (substr_wf (Buffer.ToStringView b) 0 (zlen p) Hv) as [Hw Hs]; [lia|lia|]. split; [done|].
  rewrite Hs, Hvc, Hc, Z.min_l by lia. unfold slice, zlen. rewrite Nat2Z.id. cbn. apply take_app_length.
Qed.

Lemma handler_takes s d seq w chunk last :
  ready s d seq w -> 0 <= seq < 2 ^ 32 -> zlen chunk <= kFileBufferSize ->
  takes handler (s, d) (message p seq chunk last) (after seq last, disk_set (opened_disk s d) p (w ++ chunk)).
Proof using path_ok disk_ok.
  intros Hr Hseq Hk b rest Hb Hc. unfold message in Hc. rewrite <- !app_assoc in Hc. pose proof (zlen_nonneg p).
  destruct path_ok as [Hpne Hpl]. unfold OnLengthMessage.
  destruct (Read8_advanced b _ _ Hb Hc) as (b1 & -> & Ha1 & Hc1); [destruct last; lia|]. cbn [mbind option_bind].
  assert (Z.testbit (if last then 129 else 128) 7 = true) as -> by (by destruct last).
  destruct (Read32_advanced b1 _ _ (adv_wf _ _ Ha1) Hc1 Hseq) as (b2 & -> & Ha2 & Hc2). cbn [mbind option_bind].
  destruct (Hr) as (Hq & Hs). rewrite Hq, Z.eqb_refl. cbn [negb].
  destruct (Read32_advanced b2 _ _ (adv_wf _ _ Ha2) Hc2) as (b3 & -> & Ha3 & Hc3); [lia|]. cbn [mbind option_bind].
  rewrite (proj2 (Z.ltb_ge _ _)) by lia. pose proof (adv_wf _ _ Ha3) as Hb3.
  destruct (name_view b3 _ Hb3 Hc3) as [Hn Hnc].
  destruct (AdvanceRead_advanced_app b3 _ _ Hb3 Hc3) as (b4 & E4 & Ha4 & Hc4).
  assert (Z.testbit (if last then 129 else 128) 0 = last) as Hbit by (by destruct last).
  edestruct (write_chunk_spec (if last then 129 else 128)) as (b5 & E5 & Ha5 & Hc5);
    [exact Hr|exact Hk|exact (adv_wf _ _ Ha4)|exact Hc4|]. rewrite Hbit in E5.
  exists b5. split; [|split; [|done]].
  - cbn [local_path_ seq_ file_]. destruct Hs as [(Hl & Hf & Hw)|(Hl & Hf & Hd)]; rewrite Hl; cbn [local_path_ seq_ file_].
    + rewrite ToString_content, Hnc by done. cbn [mbind option_bind]. rewrite E4. cbn [mbind option_bind]. done.
    + destruct p as [|c q] eqn:Ep; [done|]. rewrite <- Ep in *.
      rewrite compare_spec, Hnc, content_view_of by (done || apply view_of_wf; lia). cbn [mbind option_bind].
      rewrite (proj2 (lex_cmp_eq p p) eq_refl). cbn [sign negb Z.eqb]. rewrite E4. done.
  - eapply advanced_trans; [exact Ha1|]. eapply advanced_trans; [exact Ha2|]. eapply advanced_trans; [exact Ha3|].
    by eapply advanced_trans.
Qed.

(** The next chunk of a file. *)
Lemma next_chunk (file : list byte) :
  exists chunk rest, take (Z.to_nat kFileBufferSize) file = chunk /\ drop (Z.to_nat kFileBufferSize) file = rest /\
    chunk ++ rest = file /\ zlen chunk <= kFileBufferSize /\ (zlen chunk < kFileBufferSize -> chunk = file) /\
    (kFileBufferSize <= zlen chunk -> (length rest < length file)%nat).
Proof using.
  assert (Z.of_nat (Z.to_nat kFileBufferSize) = kFileBufferSize) as HN by (by apply Z2Nat.id).
  assert (0 < kFileBufferSize) as HK by done. revert HN. generalize (Z.to_nat kFileBufferSize) as n. intros n HN.
  exists (take n file), (drop n file). split; [done|]. split; [done|]. split; [apply take_drop|].
  unfold zlen. rewrite length_take, length_drop. split; [lia|]. split; [|lia]. intros. apply take_ge. lia.
Qed.

(** A run of messages: the whole file, one message after the other. *)
Lemma send_chunks_run `{Heap} (Halloc : can_alloc chunk_node_bytes = true) (sh : bool) fuel :
  forall file seq s d w, (length file < fuel)%nat -> ready s d seq w -> 0 <= seq < 2 ^ 32 ->
  exists frames d', send_chunks fuel true (mkClient p seq (Some file)) = Some frames /\
    frames_run (frame_step handler kMaxAcceptLength) (mkEndpoint (s, d) sh) frames (mkEndpoint (new_session, d') sh) /\
    d' p = Some (w ++ file) /\ forall q, q <> p -> d' q = d q.
Proof using path_ok disk_ok.
  induction fuel as [|k IH]; intros file seq s d w Hf Hr Hseq; [lia|]. cbn [send_chunks].
  destruct (path_ok) as [_ Hpl]. pose proof (zlen_nonneg p).
  destruct (next_chunk file) as (chunk & rest & Hch & Hre & Htd & Hk & Hlast & Hmore).
  rewrite (OnWriteComplete_spec Halloc p seq file chunk rest _ Hpl Hch Hre eq_refl). cbn [mbind option_bind].
  clear Hch Hre.
  assert (forall last, frame_step handler kMaxAcceptLength (mkEndpoint (s, d) sh)
    (length_frame (message p seq chunk last))
    (mkEndpoint (after seq last, disk_set (opened_disk s d) p (w ++ chunk)) sh)) as Hstep.
  { intros last. eexists. split; [done|]. rewrite zlen_message. split.
    - change kFileBufferSize with 65536 in Hk. unfold kMaxAcceptLength. lia.
    - split; [|done]. by apply handler_takes. }
  assert (forall q bs, q <> p -> disk_set (opened_disk s d) p bs q = d q) as Hoth.
  { intros q bs Hq. rewrite disk_set_ne by done. unfold opened_disk. destruct (file_ s); [done|].
    by rewrite disk_set_ne. }
  destruct (Z.ltb_spec (zlen chunk) kFileBufferSize) as [El|El]; cbn [negb mbind option_bind].
  - exists [length_frame (message p seq chunk true)], (disk_set (opened_disk s d) p (w ++ chunk)).
    split; [done|]. split; [econstructor; [apply Hstep|constructor]|]. split; [|auto].
    by rewrite disk_set_eq, Hlast.
  - destruct (IH rest (u32 (seq + 1)) (after seq false)
                 (disk_set (opened_disk s d) p (w ++ chunk)) (w ++ chunk)) as (frames & d' & E & HR & Hd & Hq).
    + specialize (Hmore El). lia.
    + split; [done|]. right. split; [done|]. split; [done|apply disk_set_eq].
    + apply Z.mod_pos_bound. lia.
    + rewrite E. cbn [mbind option_bind]. eexists _, d'. split; [done|].
      split; [econstructor; [apply Hstep|exact HR]|]. split.
      * by rewrite Hd, <- app_assoc, Htd.
      * intros q Hne. by rewrite Hq, Hoth.
Qed.

(** All the messages of a file, from a new session on. *)
Lemma SendFile_run `{Heap} (Halloc : can_alloc chunk_node_bytes = true) file d :
  exists frames d', SendFile true file p = Some frames /\
    frames_run (frame_step handler kMaxAcceptLength) (mkEndpoint (new_session, d) false) frames
      (mkEndpoint (new_session, d') false) /\
    d' p = Some file /\ forall q, q <> p -> d' q = d q.
Proof using path_ok disk_ok.
  apply (send_chunks_run Halloc false (S (length file)) file 0 new_session d []); [lia|by split; [|left]|lia].
Qed.

End receiver.

(** ** Properties *)

(** C20 A file arrives: whatever its bytes are, and however the network cuts what
    the client sends into segments, the session ends with exactly the bytes of
    the file under the name the client gave, other files untouched, ready for
    the next file, the connection not shut down and nothing left in the input
    buffer (with assertions compiled out, see [debug_send_drops_header]).  The name
    has 1 to 4096 bytes, the server can open and write the file, and segments have at
    most 64 KiB. *)
Theorem file_arrives `{Heap} (fopen_ok : path -> bool) (fwrite_ok : path -> list byte -> bool) (p : path)
    (file : list byte) (d : disk) (frames segs : list (list byte)) (b : Buffer) :
  can_alloc chunk_node_bytes = true -> p <> [] -> zlen p <= 4096 ->
  fopen_ok p = true -> (forall bs, fwrite_ok p bs = true) ->
  SendFile true file p = Some frames ->
  buf_wf b -> BUFFER_PREFIX_SIZE <= Buffer.read_index_ b -> Buffer.content b = [] ->
  concat segs = concat frames -> Forall (fun s => zlen s <= extra_buf_size) segs ->
  (forall n, n <= zlen (Buffer.data_ b) + zlen (concat segs) -> can_alloc n = true) ->
  exists d' b', serve (session_callback fopen_ok fwrite_ok) segs (mkEndpoint (new_session, d) false) b =
      Some (mkEndpoint (new_session, d') false, b') /\ Buffer.content b' = [] /\
    d' p = Some file /\ forall q, q <> p -> d' q = d q.
Proof.
  intros Hal Hp1 Hp2 Ho Hw Hsend Hb Hpre Hc Hs Hsz Hmem.
  destruct (SendFile_run fopen_ok fwrite_ok p (conj Hp1 Hp2) (conj Ho Hw) Hal file d)
    as (frames' & d' & E & HR & Hd & Hq).
  rewrite Hsend in E. injection E as <-.
  destruct (frames_arrive (OnLengthMessage fopen_ok fwrite_ok) kMaxAcceptLength ltac:(done) segs frames
              (mkEndpoint (new_session, d) false) (mkEndpoint (new_session, d') false) b) as (b' & E' & _ & Hc'); [done..|].
  exists d', b'. split; [exact E'|]. by split.
Qed.

Definition demo_path : path := str "/tmp/a".

Definition demo_frames : list (list byte) := default [] (@SendFile zero_heap true (str "hello") demo_path).

Lemma file_arrives_witness :
  exists d' b', @serve zero_heap _ (session_callback (fun _ => true) (fun _ _ => true))
      [take 3 (concat demo_frames); drop 3 (concat demo_frames)]
      (mkEndpoint (new_session, fun _ => None) false) (mkBuffer 8 8 (repeat x00 16)) =
      Some (mkEndpoint (new_session, d') false, b') /\ Buffer.content b' = [] /\
    d' demo_path = Some (str "hello") /\ forall q, q <> demo_path -> d' q = None.
Proof.
  apply (@file_arrives zero_heap (fun _ => true) (fun _ _ => true) demo_path (str "hello") (fun _ => None) demo_frames).
  - reflexivity.
  - discriminate.
  - vm_compute. discriminate.
  - reflexivity.
  - reflexivity.
  - vm_compute. reflexivity.
  - by split.
  - done.
  - reflexivity.
  - vm_compute. reflexivity.
  - repeat constructor; vm_compute; discriminate.
  - intros n Hn. apply Z.ltb_lt. eapply Z.le_lt_trans; [exact Hn|]. vm_compute. reflexivity.
Defined.

(** The client stops: there is a message sequence for every file. *)
Lemma SendFile_returns `{Heap} (p : path) (file : list byte) :
  can_alloc chunk_node_bytes = true -> p <> [] -> zlen p <= 4096 -> exists frames, SendFile true file p = Some frames.
Proof.
  intros Hal H1 H2.
  destruct (SendFile_run (fun _ => true) (fun _ _ => true) p (conj H1 H2) (conj eq_refl (fun _ => eq_refl)) Hal file
              (fun _ => None)) as (frames & _ & E & _). by exists frames.
Qed.

(** ** Defects *)

(** A message of length zero, four zero bytes, makes the session read a byte that
    is not there. *)
Lemma empty_message_aborts fopen_ok fwrite_ok d :
  session_callback fopen_ok fwrite_ok (mkEndpoint (new_session, d) false)
    (mkBuffer 8 12 (repeat x00 8 ++ be_bytes 4 0)) = None.
Proof. vm_compute. reflexivity. Qed.

(** The lengths inside a message are not checked against the length of the
    message: one that announces more bytes than it has runs into the bytes of the
    next one, or past the end of the buffer. *)
Lemma inner_length_unchecked :
  session_callback (fun _ => true) (fun _ _ => true) (mkEndpoint (new_session, fun _ => None) false)
    (mkBuffer 8 35 (repeat x00 8 ++ be_bytes 4 23 ++ be_bytes 1 129 ++ be_bytes 4 0 ++ be_bytes 4 6 ++ demo_path ++
                    be_bytes 4 9 ++ str "hell")) = None.
Proof. vm_compute. reflexivity. Qed.

(** A message with an unexpected sequence number is left half read: what follows
    in the buffer is its own file name, not the header of the next message. *)
Lemma bad_sequence_desynchronises :
  exists s d b, OnLengthMessage (fun _ => true) (fun _ _ => true) (new_session, fun _ => None)
      (mkBuffer 0 24 (message demo_path 5 (str "hello") true)) = Some (s, d, b) /\
    s = new_session /\ Buffer.content b = be_bytes 4 6 ++ demo_path ++ be_bytes 4 5 ++ str "hello".
Proof. eexists _, _, _. split; [vm_compute; reflexivity|]. split; vm_compute; reflexivity. Qed.
