(* ===== verification/Connector.v ===== *)
(** * Connector: kanon/net/connector.{h,cc}, kanon/linux/net/connector.cc

    The state machine that opens a connection to a server: a non-blocking
    connect, a channel that waits for its result, and retries with growing
    delays.  The state records which descriptors are open, which timers are
    armed and what is queued to the loop; the results of the system calls are
    arguments of the operations. *)

From Stdlib Require Import ZArith Lia.
From stdpp Require Import gmap.
From S2P Require Import Prelude.

Inductive State := kDisconnected | kConnecting | kConnected.

#[export] Instance State_eq_dec : EqDecision State.
Proof. solve_decision. Defined.

Definition INIT_RETRY_INTERVAL : Z := 500.
Definition MAX_RETRY_INTERVAL : Z := 30000.

Definition EINTR : Z := 4.
Definition EAGAIN : Z := 11.
Definition EADDRNOTAVAIL : Z := 99.
Definition ENETUNREACH : Z := 101.
Definition ETIMEDOUT : Z := 110.
Definition ECONNREFUSED : Z := 111.
Definition EHOSTUNREACH : Z := 113.
Definition EINPROGRESS : Z := 115.

Record Connector := mkConnector {
  state_ : State;
  connect_ : bool;
  retry_interval_ : Z;
  channel_ : option Z;       (* the descriptor of the channel *)
  watched : bool;            (* the channel is in the poller *)
  resets : nat;              (* queued calls of channel_.reset() *)
  timer_ : option nat;       (* the id of the last retry timer *)
  armed : list nat;          (* the timers of the loop that did not fire *)
  next_timer : nat;
  open_fds : gset Z;
  handed : list Z;           (* given to new_connection_callback_ *)
  delays : list Z            (* of the retries, in milliseconds *)
}.

Definition make_Connector : Connector :=
  mkConnector kDisconnected true INIT_RETRY_INTERVAL None false 0 None [] 0 ∅ [] [].

Definition SetState (c : Connector) (s : State) : Connector :=
  mkConnector s (connect_ c) (retry_interval_ c) (channel_ c) (watched c) (resets c) (timer_ c) (armed c)
    (next_timer c) (open_fds c) (handed c) (delays c).
Definition with_connect (c : Connector) (b : bool) : Connector :=
  mkConnector (state_ c) b (retry_interval_ c) (channel_ c) (watched c) (resets c) (timer_ c) (armed c)
    (next_timer c) (open_fds c) (handed c) (delays c).
Definition with_interval (c : Connector) (n : Z) : Connector :=
  mkConnector (state_ c) (connect_ c) n (channel_ c) (watched c) (resets c) (timer_ c) (armed c)
    (next_timer c) (open_fds c) (handed c) (delays c).
Definition with_chan (c : Connector) (ch : option Z) (w : bool) (r : nat) : Connector :=
  mkConnector (state_ c) (connect_ c) (retry_interval_ c) ch w r (timer_ c) (armed c)
    (next_timer c) (open_fds c) (handed c) (delays c).
Definition with_fds (c : Connector) (fds : gset Z) (h : list Z) : Connector :=
  mkConnector (state_ c) (connect_ c) (retry_interval_ c) (channel_ c) (watched c) (resets c) (timer_ c) (armed c)
    (next_timer c) fds h (delays c).
Definition with_armed (c : Connector) (l : list nat) : Connector :=
  mkConnector (state_ c) (connect_ c) (retry_interval_ c) (channel_ c) (watched c) (resets c) (timer_ c) l
    (next_timer c) (open_fds c) (handed c) (delays c).

(** socket(2) and close(2). *)
Definition open_fd (c : Connector) (fd : Z) : Connector := with_fds c ({[fd]} ∪ open_fds c) (handed c).
Definition Close (c : Connector) (fd : Z) : option Connector :=
  assert! bool_decide (fd ∈ open_fds c);
  Some (with_fds c (open_fds c ∖ {[fd]}) (handed c)).

(** [RunAfter] and [CancelTimer] of the loop; a timer that fired was deleted. *)
Definition RunAfter (c : Connector) (delay : Z) : Connector :=
  mkConnector (state_ c) (connect_ c) (retry_interval_ c) (channel_ c) (watched c) (resets c)
    (Some (next_timer c)) (armed c ++ [next_timer c]) (S (next_timer c)) (open_fds c) (handed c) (delays c ++ [delay]).
Definition CancelTimer (c : Connector) (id : nat) : option Connector :=
  assert! bool_decide (id ∈ armed c);
  Some (with_armed c (List.filter (fun i => negb (Nat.eqb i id)) (armed c))).

Definition Retry (c : Connector) (sockfd : Z) : option Connector :=
  c ← Close c sockfd;
  let c := SetState c kDisconnected in
  if connect_ c then
    let c := RunAfter c (Z.min (retry_interval_ c) MAX_RETRY_INTERVAL) in
    Some (with_interval c (u32 (retry_interval_ c * 2)))
  else Some c.

(** Disables and removes the channel; the object lives until the functor runs. *)
Definition ResetChannel (c : Connector) : option Connector :=
  fd ← channel_ c;
  Some (with_chan c (channel_ c) false (S (resets c))).

Definition CompleteConnect (c : Connector) (sockfd : Z) : option Connector :=
  assert! bool_decide (state_ c = kDisconnected) && connect_ c;
  let c := SetState c kConnecting in
  assert! bool_decide (channel_ c = None);
  Some (with_chan c (Some sockfd) true (resets c)).

(** [fd] is the socket created, [saved_errno] the result of connect. *)
Definition Connect (c : Connector) (fd : Z) (saved_errno : Z) : option Connector :=
  if decide (state_ c <> kDisconnected) then Some c
  else
    let c := open_fd c fd in
    if bool_decide (saved_errno ∈ [0; EINTR; EINPROGRESS]) then CompleteConnect c fd
    else if bool_decide (saved_errno ∈ [EAGAIN; EADDRNOTAVAIL; ENETUNREACH; EHOSTUNREACH; ECONNREFUSED; ETIMEDOUT])
    then Retry c fd
    else Close c fd.

(** The body of [StartRun], in the loop. *)
Definition StartRun (c : Connector) (fd : Z) (saved_errno : Z) : option Connector :=
  assert! bool_decide (state_ c = kDisconnected);
  if connect_ c then Connect c fd saved_errno else Some c.

(** The write callback of the channel: [err] is SO_ERROR, [self] the result of
    [IsSelfConnect]. *)
Definition write_callback (c : Connector) (err : Z) (self : bool) : option Connector :=
  sockfd ← channel_ c;
  if decide (state_ c = kConnecting) then
    c ← ResetChannel c;
    if negb (err =? 0) then Retry c sockfd
    else if self then Retry c sockfd
    else
      let c := SetState c kConnected in
      if connect_ c then Some (with_fds c (open_fds c) (handed c ++ [sockfd]))
      else Close c sockfd
  else Some c.

Definition error_callback (c : Connector) (err : Z) : option Connector :=
  if decide (state_ c = kConnecting) then
    sockfd ← channel_ c;
    c ← ResetChannel c;
    Retry c sockfd
  else Some c.

Definition StopInLoop (c : Connector) : option Connector :=
  let c := with_connect c false in
  c ← match timer_ c with Some id => CancelTimer c id | None => Some c end;
  if decide (state_ c = kConnecting) then
    sockfd ← channel_ c;
    c ← ResetChannel c;
    c ← Close c sockfd;
    Some (SetState c kDisconnected)
  else Some c.

(** The body of [Restrat], with the [StartRun] it calls in the loop. *)
Definition Restrat (c : Connector) (fd : Z) (saved_errno : Z) : option Connector :=
  let c := with_connect c true in
  let c := SetState c kDisconnected in
  let c := with_interval c INIT_RETRY_INTERVAL in
  StartRun c fd saved_errno.

(** The functor queued by [ResetChannel]. *)
Definition run_reset (c : Connector) : Connector :=
  match resets c with
  | O => c
  | S r => with_chan c None (watched c) r
  end.

(** A retry timer fires: it leaves the loop and calls [StartRun]. *)
Definition fire (c : Connector) (id : nat) (fd : Z) (saved_errno : Z) : option Connector :=
  assert! bool_decide (id ∈ armed c);
  StartRun (with_armed c (List.filter (fun i => negb (Nat.eqb i id)) (armed c))) fd saved_errno.

(** ** Use *)

Inductive op :=
| OStart (fd errno : Z)
| OWrite (err : Z) (self : bool)
| OError (err : Z)
| OFire (id : nat) (fd errno : Z)
| OStop
| ORestart (fd errno : Z)
| OFunctor.

Definition run_op (c : Connector) (o : op) : option Connector :=
  match o with
  | OStart fd e => StartRun c fd e
  | OWrite err self => write_callback c err self
  | OError err => error_callback c err
  | OFire id fd e => fire c id fd e
  | OStop => StopInLoop c
  | ORestart fd e => Restrat c fd e
  | OFunctor => Some (run_reset c)
  end.

Fixpoint run (c : Connector) (os : list op) : option Connector :=
  match os with [] => Some c | o :: os => c ← run_op c o; run c os end.




(** ** The invariant *)



Lemma filter_self (id : nat) : List.filter (fun i => negb (Nat.eqb i id)) [id] = [].
Proof. cbn. by rewrite Nat.eqb_refl. Qed.






(** ** Delays *)

(** The [n]-th retry of a server that refuses. *)
Definition refused (n : nat) : list op :=
  OStart 3 ECONNREFUSED :: map (fun k => OFire k 3 ECONNREFUSED) (seq 0 n).

Definition refused_state (n : nat) : Connector :=
  mkConnector kDisconnected true (u32 (INIT_RETRY_INTERVAL * 2 ^ Z.of_nat (S n))) None false 0 (Some n) [n] (S n) ∅ []
    (map (fun k => Z.min (u32 (INIT_RETRY_INTERVAL * 2 ^ Z.of_nat k)) MAX_RETRY_INTERVAL) (seq 0 (S n))).

Lemma run_snoc c os o : run c (os ++ [o]) = (c ← run c os; run_op c o).
Proof.
  revert c. induction os as [|x os IH]; intros c; cbn; [by destruct (run_op c o)|].
  destruct (run_op c x); cbn; auto.
Qed.

Lemma refused_run n : run make_Connector (refused n) = Some (refused_state n).
Proof.
  induction n as [|n IH]; [vm_compute; reflexivity|].
  assert (refused (S n) = refused n ++ [OFire n 3 ECONNREFUSED]) as ->.
  { unfold refused. rewrite seq_S, map_app. done. }
  rewrite run_snoc, IH. cbn [mbind option_bind run_op]. unfold fire, refused_state. cbn [armed].
  rewrite check_bind_true by (apply bool_decide_eq_true, list_elem_of_singleton; done).
  rewrite filter_self. unfold StartRun, with_armed. cbn [state_ connect_ retry_interval_ channel_ watched resets timer_ next_timer open_fds handed delays].
  rewrite check_bind_true by done. unfold Connect. cbn [state_].
  destruct (decide (kDisconnected <> kDisconnected)) as [|_]; [done|].
  assert (bool_decide (ECONNREFUSED ∈ [0; EINTR; EINPROGRESS]) = false) as -> by (vm_compute; reflexivity).
  assert (bool_decide (ECONNREFUSED ∈ [EAGAIN; EADDRNOTAVAIL; ENETUNREACH; EHOSTUNREACH; ECONNREFUSED; ETIMEDOUT]) = true)
    as -> by (vm_compute; reflexivity).
  unfold Retry, Close, open_fd, with_fds. cbn [open_fds handed].
  rewrite check_bind_true by (apply bool_decide_eq_true; set_solver). cbn [mbind option_bind].
  unfold SetState, RunAfter, with_interval. cbn [state_ connect_ retry_interval_ channel_ watched resets timer_ armed next_timer open_fds handed delays app].
  assert (({[3]} ∪ ∅ : gset Z) ∖ {[3]} = ∅) as -> by set_solver.
  assert (u32 (u32 (INIT_RETRY_INTERVAL * 2 ^ Z.of_nat (S n)) * 2) = u32 (INIT_RETRY_INTERVAL * 2 ^ Z.of_nat (S (S n)))) as ->.
  { unfold u32, wrap. rewrite Zmult_mod_idemp_l. rewrite (Nat2Z.inj_succ (S n)), (Z.pow_succ_r _ (Z.of_nat (S n))) by lia. f_equal. lia. }
  rewrite (seq_S (S n)), map_app. done.
Qed.

Lemma interval_wrap_lo k : (k < 30)%nat -> Z.min (u32 (INIT_RETRY_INTERVAL * 2 ^ Z.of_nat k)) MAX_RETRY_INTERVAL =
  Z.min (INIT_RETRY_INTERVAL * 2 ^ Z.of_nat k) MAX_RETRY_INTERVAL.
Proof. intros Hk. do 30 (destruct k as [|k]; [vm_compute; reflexivity|]). lia. Qed.

Lemma interval_wrap_hi k : (30 <= k)%nat -> u32 (INIT_RETRY_INTERVAL * 2 ^ Z.of_nat k) = 0.
Proof.
  intros Hk. unfold wrap, INIT_RETRY_INTERVAL. replace (Z.of_nat k) with (30 + (Z.of_nat k - 30)) by lia.
  rewrite Z.pow_add_r by lia. replace (500 * (2 ^ 30 * 2 ^ (Z.of_nat k - 30))) with (125 * 2 ^ (Z.of_nat k - 30) * 2 ^ 32) by lia.
  apply Z_mod_mult.
Qed.

(** ** Properties *)





(** The delays between retries double from half a second up to thirty: the
    delay before the k-th retry, for k up to 29, is the smaller of 500 * 2^k and
    30000 milliseconds. *)
Theorem retry_backoff (n : nat) :
  (n < 30)%nat ->
  exists c, run make_Connector (refused n) = Some c /\
    delays c = map (fun k => Z.min (INIT_RETRY_INTERVAL * 2 ^ Z.of_nat k) MAX_RETRY_INTERVAL) (seq 0 (S n)).
Proof.
  intros Hn. exists (refused_state n). split; [apply refused_run|]. unfold refused_state. cbn [delays].
  apply map_ext_in. intros k Hk. apply in_seq in Hk. apply interval_wrap_lo. lia.
Qed.

Lemma retry_backoff_witness :
  exists c, run make_Connector (refused 7) = Some c /\
    delays c = [500; 1000; 2000; 4000; 8000; 16000; 30000; 30000].
Proof. apply (retry_backoff 7). lia. Defined.

(** ** Defects *)

(** The interval is doubled without a bound in 32 bits: from the 31st retry on it
    is zero, and the connector tries again at once, forever. *)
Lemma retry_interval_wraps n :
  (30 <= n)%nat -> exists c, run make_Connector (refused n) = Some c /\ last (delays c) = Some 0.
Proof.
  intros Hn. exists (refused_state n). split; [apply refused_run|]. unfold refused_state. cbn [delays].
  rewrite seq_S, map_app. cbn [map]. rewrite last_snoc, Nat.add_0_l, interval_wrap_hi by done. done.
Qed.

(** [timer_] is kept after the timer fired: [Stop] then cancels a timer that no
    longer exists. *)
Lemma stop_after_retry_fails :
  is_Some (run make_Connector [OStart 3 ECONNREFUSED; OFire 0 3 EINPROGRESS]) /\
  run make_Connector [OStart 3 ECONNREFUSED; OFire 0 3 EINPROGRESS; OStop] = None.
Proof. split; [eexists; vm_compute; reflexivity|vm_compute; reflexivity]. Qed.

(** Connecting again while a retry is pending makes the retry fail its
    assertion. *)
Lemma start_while_retrying_fails :
  run make_Connector [OStart 3 ECONNREFUSED; OStart 4 EINPROGRESS; OFire 0 5 EINPROGRESS] = None.
Proof. vm_compute. reflexivity. Qed.
