(* ===== verification/Client.v ===== *)
(** * TcpClient: kanon/net/tcp_client.{h,cc}

    A client drives a [Connector] and owns at most one connection.  A connection
    is its descriptor and where it is in its life; its destruction is queued to
    the loop and closes the descriptor.  The steps of the loop's thread interleave with
    [Disconnect], [Stop] and [EnableRetry] of other threads. *)

From Stdlib Require Import ZArith Lia.
From stdpp Require Import gmap.
From S2P Require Import Prelude Connector.

Inductive life := Connecting | Established | ShuttingDown | Closed | Destroyed.

#[global] Instance life_eq_dec : EqDecision life.
Proof. solve_decision. Defined.

Record TcpClient := mkTcpClient {
  connector_ : Connector;
  retry_ : bool;
  conn_ : option nat;               (* an index of [conns] *)
  conns : list (Z * life);          (* the connections made, oldest first *)
  destroys : list nat;              (* queued calls of ConnectionDestroyed() *)
  stops : nat;                      (* queued calls of the connector's StopInLoop() *)
  establishing : option nat         (* the loop's thread is in NewConnection(), past setting conn_ *)
}.

Definition make_TcpClient : TcpClient := mkTcpClient make_Connector false None [] [] 0 None.

Definition with_connector (c : TcpClient) (k : Connector) : TcpClient :=
  mkTcpClient k (retry_ c) (conn_ c) (conns c) (destroys c) (stops c) (establishing c).
Definition with_retry (c : TcpClient) (b : bool) (n : nat) : TcpClient :=
  mkTcpClient (connector_ c) b (conn_ c) (conns c) (destroys c) n (establishing c).

(** The callback of the connector; the client exists while its loop runs it. First it
    makes the connection and sets [conn_], under the lock. *)
Definition NewConnection (c : TcpClient) (sockfd : Z) : TcpClient :=
  match conn_ c with
  | Some _ => c
  | None =>
    mkTcpClient (connector_ c) (retry_ c) (Some (length (conns c))) (conns c ++ [(sockfd, Connecting)]) (destroys c)
      (stops c) (Some (length (conns c)))
  end.

(** Then it calls [ConnectionEstablished]. *)
Definition NewConnection_establish (c : TcpClient) : option TcpClient :=
  i ← establishing c;
  '(sock, l) ← conns c !! i;
  assert! bool_decide (l = Connecting);
  Some (mkTcpClient (connector_ c) (retry_ c) (conn_ c) (<[i := (sock, Established)]> (conns c)) (destroys c) (stops c) None).

(** An operation of the connector, with the callback for what it hands over. *)
Definition connector_op (c : TcpClient) (o : Connector.op) : option TcpClient :=
  k ← Connector.run_op (connector_ c) o;
  let news := drop (length (handed (connector_ c))) (handed k) in
  Some (fold_left NewConnection news (with_connector c k)).

Definition Connect (c : TcpClient) (fd errno : Z) : option TcpClient := connector_op c (OStart fd errno).

(** In the calling thread. [ShutdownWrite] does nothing on a connection that is not
    established. *)
Definition Disconnect (c : TcpClient) : TcpClient :=
  let c := with_retry c false (stops c) in
  match conn_ c with
  | Some i =>
    match conns c !! i with
    | Some (sock, Established) =>
      mkTcpClient (connector_ c) (retry_ c) (conn_ c) (<[i := (sock, ShuttingDown)]> (conns c)) (destroys c) (stops c)
        (establishing c)
    | _ => c
    end
  | None => c
  end.

(** In the calling thread, with what it queues to the loop. *)
Definition Stop (c : TcpClient) : TcpClient := with_retry c false (S (stops c)).

Definition run_stop (c : TcpClient) : option TcpClient :=
  match stops c with
  | O => Some c
  | S n => connector_op (with_retry c (retry_ c) n) OStop
  end.

Definition EnableRetry (c : TcpClient) : TcpClient := with_retry c true (stops c).

(** The close callback of connection [i]; [fd] and [errno] are the environment of
    the restart. *)
Definition CloseConnectionHandler (c : TcpClient) (i : nat) (fd errno : Z) : option TcpClient :=
  assert! bool_decide (conn_ c = Some i);
  '(sock, _) ← conns c !! i;
  let c := mkTcpClient (connector_ c) (retry_ c) None (<[i := (sock, Closed)]> (conns c)) (destroys c ++ [i]) (stops c)
             (establishing c) in
  if retry_ c then connector_op c (ORestart fd errno) else Some c.

(** The oldest queued [ConnectionDestroyed]: the last reference to the connection
    goes, and its socket is closed. *)
Definition run_destroy (c : TcpClient) : option TcpClient :=
  match destroys c with
  | [] => Some c
  | i :: rest =>
    '(sock, l) ← conns c !! i;
    assert! bool_decide (l = Closed);
    let k := connector_ c in
    assert! bool_decide (sock ∈ open_fds k);
    let k := with_fds k (open_fds k ∖ {[sock]}) (List.filter (fun x => negb (x =? sock)) (handed k)) in
    Some (mkTcpClient k (retry_ c) (conn_ c) (<[i := (sock, Destroyed)]> (conns c)) rest (stops c) (establishing c))
  end.

(** ** Use *)

Inductive client_op :=
  | CConnect (fd errno : Z)
  | CWrite (err : Z) (self : bool)      (* the events of the connector's channel *)
  | CError (err : Z)
  | CFire (id : nat) (fd errno : Z)     (* a retry timer *)
  | CFunctor                            (* the reset queued by the connector *)
  | CEstablish                          (* the rest of NewConnection() *)
  | CDisconnect
  | CStop
  | CRunStop                            (* the StopInLoop() queued by Stop() *)
  | CEnableRetry
  | CClose (fd errno : Z)               (* the connection is closed *)
  | CDestroy.

Definition client_step (c : TcpClient) (o : client_op) : option TcpClient :=
  match o with
  | CConnect fd e => Connect c fd e
  | CWrite err self => connector_op c (OWrite err self)
  | CError err => connector_op c (OError err)
  | CFire id fd e => connector_op c (OFire id fd e)
  | CFunctor => connector_op c OFunctor
  | CEstablish => NewConnection_establish c
  | CDisconnect => Some (Disconnect c)
  | CStop => Some (Stop c)
  | CRunStop => run_stop c
  | CEnableRetry => Some (EnableRetry c)
  | CClose fd e => i ← conn_ c; CloseConnectionHandler c i fd e
  | CDestroy => run_destroy c
  end.

Fixpoint client_run (c : TcpClient) (os : list client_op) : option TcpClient :=
  match os with [] => Some c | o :: os => c ← client_step c o; client_run c os end.




(** ** Connections and descriptors *)




























(** ** Defects *)

(** The connector stays in kConnected when the connection is lost or given up
    without a retry: a later Connect() fails its assertion. *)
Lemma reconnect_fails :
  is_Some (client_run make_TcpClient
    [CConnect 3 EINPROGRESS; CWrite 0 false; CEstablish; CFunctor; CDisconnect; CClose 0 0; CDestroy]) /\
  client_run make_TcpClient
    [CConnect 3 EINPROGRESS; CWrite 0 false; CEstablish; CFunctor; CDisconnect; CClose 0 0; CDestroy; CConnect 4 EINPROGRESS] = None.
Proof. split; [eexists; vm_compute; reflexivity|vm_compute; reflexivity]. Qed.

(** [Disconnect] of another thread that comes between the two parts of [NewConnection]
    finds a connection on which [ShutdownWrite] does nothing: it stays up. *)
Lemma disconnect_lost :
  (c ← client_run make_TcpClient [CConnect 3 EINPROGRESS; CWrite 0 false; CDisconnect; CEstablish; CFunctor];
   Some (conn_ c, conns c)) = Some (Some 0%nat, [(3, Established)]).
Proof. vm_compute. reflexivity. Qed.
