(* ===== verification/Acceptor.v ===== *)
(** * Acceptor: kanon/net/acceptor.{h,cc} and [sock::Accept] of
    kanon/linux/net/sock_api.cc

    The listening socket of a server.  When the process has no descriptor left,
    the acceptor gives up a spare one to take the client out of the queue of the
    kernel and close it at once.  The descriptors of the process and the queue of
    the socket are a state that the other threads change too. *)

From Stdlib Require Import ZArith Lia.
From S2P Require Import Prelude.

(** ** The kernel *)

Definition EINTR : Z := 4.
Definition EAGAIN : Z := 11.
Definition EMFILE : Z := 24.
Definition ECONNABORTED : Z := 103.

(** The open descriptors, their limit, and the clients waiting in the queue. *)
Record kernel := mkKernel { fds : list Z; limit : nat; backlog : nat }.

(** The lowest number that is free. *)
Definition lowest_free (k : kernel) : Z :=
  default 0 (head (filter (fun z => z ∉ fds k) (map Z.of_nat (seq 0 (S (length (fds k))))))).

Definition full (k : kernel) : bool := (limit k <=? length (fds k))%nat.

Definition alloc (k : kernel) : Z * kernel :=
  let fd := lowest_free k in (fd, mkKernel (fd :: fds k) (limit k) (backlog k)).

(** [open("/dev/null", ...)] *)
Definition sys_open (k : kernel) : Z * kernel := if full k then (-1, k) else alloc k.

(** close(2); a number that is not open is EBADF and changes nothing. *)
Definition sys_close (k : kernel) (fd : Z) : kernel :=
  mkKernel (filter (fun z => z <> fd) (fds k)) (limit k) (backlog k).

(** accept4(2): the descriptor is allocated before the queue is looked at;
    [err] is an error that the kernel reports for this call. *)
Definition sys_accept (k : kernel) (err : option Z) : Z * Z * kernel :=
  if full k then (-1, EMFILE, k)
  else match err with
       | Some e => (-1, e, k)
       | None =>
         match backlog k with
         | O => (-1, EAGAIN, k)
         | S n => let '(fd, k) := alloc k in (fd, 0, mkKernel (fds k) (limit k) n)
         end
       end.

(** ** [sock::Accept]: the errors it expects; any other one ends the process. *)
Definition expected_error (e : Z) : bool :=
  (e =? EAGAIN) || (e =? ECONNABORTED) || (e =? EINTR) || (e =? EMFILE).

Definition Accept (k : kernel) (err : option Z) : option (Z * Z * kernel) :=
  let '(cli_sock, errno, k) := sys_accept k err in
  if cli_sock <? 0 then
    assert! expected_error errno; Some (cli_sock, errno, k)
  else Some (cli_sock, errno, k).

(** ** The acceptor *)

Record Acceptor := mkAcceptor {
  socket_ : Z;
  dummyfd_ : Z;
  listening_ : bool;
  reading : bool;
  has_callback : bool;
  handed : list Z;     (* what new_connection_callback_ was given, latest first *)
}.

(** The constructor; the callback is set later. Creating the socket must not
    fail. *)
Definition make_Acceptor (k : kernel) : option (Acceptor * kernel) :=
  let '(sock, k) := sys_open k in
  assert! 0 <=? sock;
  let '(dummy, k) := sys_open k in
  Some (mkAcceptor sock dummy false false false [], k).

Definition SetNewConnectionCallback (a : Acceptor) : Acceptor :=
  mkAcceptor (socket_ a) (dummyfd_ a) (listening_ a) (reading a) true (handed a).

Definition Listen (a : Acceptor) : option Acceptor :=
  assert! negb (listening_ a);
  Some (mkAcceptor (socket_ a) (dummyfd_ a) true true (has_callback a) (handed a)).

Definition set_dummyfd (a : Acceptor) (fd : Z) : Acceptor :=
  mkAcceptor (socket_ a) fd (listening_ a) (reading a) (has_callback a) (handed a).

(** The read callback of the channel. [others] is what the other threads do
    with the descriptors after the spare one was closed. *)
Definition read_callback (others : kernel -> kernel) (err : option Z) (a : Acceptor) (k : kernel)
  : option (Acceptor * kernel) :=
  '(cli_fd, errno, k) ← Accept k err;
  if 0 <=? cli_fd then
    if has_callback a then
      Some (mkAcceptor (socket_ a) (dummyfd_ a) (listening_ a) (reading a) true (cli_fd :: handed a), k)
    else Some (a, sys_close k cli_fd)
  else if errno =? EMFILE then
    let k := sys_close k (dummyfd_ a) in
    let k := others k in
    let '(dummyfd, _, k) := sys_accept k err in
    let k := sys_close k dummyfd in
    let '(dummyfd, k) := sys_open k in
    Some (set_dummyfd a dummyfd, k)
  else Some (a, k).

(** The destructor, with that of the socket. *)
Definition destroy_Acceptor (a : Acceptor) (k : kernel) : kernel :=
  sys_close (sys_close k (dummyfd_ a)) (socket_ a).

(** ** The acceptor in its process *)

(** A read event, a client, and the other users of descriptors, who close what
    is not the acceptor's own. *)
Inductive label := LRead (err : option Z) | LClient | LOpen | LClose (fd : Z).

Definition step (s : Acceptor * kernel) (l : label) : option (Acceptor * kernel) :=
  let '(a, k) := s in
  match l with
  | LRead err => read_callback (fun k => k) err a k
  | LClient => Some (a, mkKernel (fds k) (limit k) (S (backlog k)))
  | LOpen => Some (a, snd (sys_open k))
  | LClose fd =>
    if decide (fd = socket_ a \/ fd = dummyfd_ a) then Some s else
    Some (mkAcceptor (socket_ a) (dummyfd_ a) (listening_ a) (reading a) (has_callback a)
            (filter (fun z => z <> fd) (handed a)), sys_close k fd)
  end.

Fixpoint run (s : Acceptor * kernel) (ls : list label) : option (Acceptor * kernel) :=
  match ls with [] => Some s | l :: ls => s ← step s l; run s ls end.

(** ** Descriptors *)

Lemma lowest_free_spec k : (lowest_free k ∉ fds k) /\ 0 <= lowest_free k.
Proof.
  unfold lowest_free. set (cand := map Z.of_nat (seq 0 (S (length (fds k))))).
  destruct (filter (fun z => z ∉ fds k) cand) as [|x xs] eqn:E.
  - exfalso. assert (incl cand (fds k)) as Hin.
    { intros z Hz. apply list_elem_of_In in Hz. destruct (decide (z ∈ fds k)) as [H|H]; [by apply list_elem_of_In|].
      assert (z ∈ filter (fun z => z ∉ fds k) cand) as Hf by (by apply list_elem_of_filter).
      rewrite E in Hf. by apply elem_of_nil in Hf. }
    assert (List.NoDup cand) as Hnd.
    { apply NoDup_ListNoDup. unfold cand. apply (NoDup_fmap_2 Z.of_nat). apply NoDup_seq. }
    pose proof (NoDup_incl_length Hnd Hin) as Hl. unfold cand in Hl. rewrite length_map, length_seq in Hl. lia.
  - cbn. assert (x ∈ filter (fun z => z ∉ fds k) cand) as Hx by (rewrite E; left).
    apply list_elem_of_filter in Hx as [Hx Hc]. split; [done|]. unfold cand in Hc.
    apply list_elem_of_In, in_map_iff in Hc as (n & <- & _). lia.
Qed.

(** What holds between two events. *)
Record acceptor_inv (a : Acceptor) (k : kernel) : Prop := {
  ai_nodup : NoDup (fds k);
  ai_nonneg : Forall (fun z => 0 <= z) (fds k);
  ai_limit : (length (fds k) <= limit k)%nat;
  ai_socket : socket_ a ∈ fds k;
  ai_dummy : dummyfd_ a ∈ fds k;
  ai_apart : socket_ a <> dummyfd_ a;
  ai_handed : Forall (fun fd => fd ∈ fds k /\ fd <> socket_ a /\ fd <> dummyfd_ a) (handed a);
  ai_once : NoDup (handed a);
}.

Lemma close_length k fd : NoDup (fds k) -> fd ∈ fds k -> S (length (fds (sys_close k fd))) = length (fds k).
Proof.
  intros Hnd Hin. cbn. revert Hnd Hin. generalize (fds k) as l. induction l as [|x l IH]; intros Hnd Hin; [by apply elem_of_nil in Hin|].
  apply NoDup_cons in Hnd as [Hx Hnd]. rewrite filter_cons. destruct (decide (x = fd)) as [->|Hne].
  - rewrite decide_False by auto. cbn. f_equal. clear IH Hnd Hin. induction l as [|y l IH]; [done|].
    apply not_elem_of_cons in Hx as [Hy Hx]. rewrite filter_cons, decide_True by done. cbn. f_equal. by apply IH.
  - rewrite decide_True by done. cbn. f_equal. apply IH; [done|]. apply elem_of_cons in Hin as [->|]; done.
Qed.

Lemma close_elem k fd z : z ∈ fds (sys_close k fd) <-> z <> fd /\ z ∈ fds k.
Proof. cbn. by rewrite list_elem_of_filter. Qed.

Lemma close_id (l : list Z) fd : fd ∉ l -> filter (fun z => z <> fd) l = l.
Proof.
  induction l as [|x l IH]; [done|]. intros [Hx Hl]%not_elem_of_cons.
  rewrite filter_cons, decide_True by done. by rewrite IH.
Qed.

Lemma filter_nodup (l : list Z) fd : NoDup l -> NoDup (filter (fun z => z <> fd) l).
Proof. apply NoDup_filter. Qed.

(** The table with the spare descriptor closed and a new one opened. *)
Lemma reopen_inv a k n fd :
  acceptor_inv a k -> (fd ∉ fds (sys_close k (dummyfd_ a))) -> 0 <= fd ->
  acceptor_inv (set_dummyfd a fd) (mkKernel (fd :: fds (sys_close k (dummyfd_ a))) (limit k) n).
Proof.
  intros [I1 I2 I3 I4 I5 I6 I7 I8] Hfd H0. pose proof (close_length k (dummyfd_ a) I1 I5) as Hl.
  assert (forall z, z ∈ fds k -> z <> dummyfd_ a -> z ∈ fds (sys_close k (dummyfd_ a)) /\ z <> fd) as Hk.
  { intros z Hz Hne. assert (z ∈ fds (sys_close k (dummyfd_ a))) as Hz' by (by apply close_elem).
    split; [done|]. by intros ->. }
  split; cbn [fds limit socket_ dummyfd_ handed set_dummyfd].
  - apply NoDup_cons. split; [done|]. cbn. by apply filter_nodup.
  - constructor; [done|]. apply Forall_forall. intros z Hz. apply close_elem in Hz as [_ Hz].
    rewrite Forall_forall in I2. by apply I2.
  - cbn [length]. lia.
  - right. by apply Hk.
  - left.
  - by apply Hk.
  - eapply Forall_impl; [exact I7|]. intros z (Hz & Hs & Hd). split; [right; by apply Hk|]. split; [done|by apply Hk].
  - done.
Qed.

(** The way out when there is no descriptor left. *)
Lemma drop_client a k err :
  acceptor_inv a k -> full k = true ->
  exists a' k', read_callback (fun k => k) err a k = Some (a', k') /\ acceptor_inv a' k' /\
    handed a' = handed a /\ socket_ a' = socket_ a /\ has_callback a' = has_callback a /\ limit k' = limit k /\
    length (fds k') = length (fds k) /\ (err = None -> backlog k' = pred (backlog k)).
Proof.
  intros I Hf. pose proof I as [I1 I2 I3 _ I5 _ _ _]. pose proof (close_length k (dummyfd_ a) I1 I5) as Hl.
  unfold read_callback, Accept, sys_accept. rewrite Hf. cbn [Z.ltb Z.compare]. change (expected_error EMFILE) with true.
  cbn [check mbind option_bind]. change (0 <=? -1) with false. change (EMFILE =? EMFILE) with true. cbv iota.
  set (k1 := sys_close k (dummyfd_ a)) in *. assert (full k1 = false) as Hf1.
  { unfold full in *. apply Nat.leb_gt. apply Nat.leb_le in Hf. change (limit k1) with (limit k). lia. }
  rewrite Hf1. destruct (lowest_free_spec k1) as [Hlow H0].
  assert ((-1) ∉ fds k1) as Hm1.
  { intros Hx. apply close_elem in Hx as [_ Hx]. rewrite Forall_forall in I2. apply I2 in Hx. lia. }
  assert (forall n, filter (fun z => z <> lowest_free k1) (fds (mkKernel (lowest_free k1 :: fds k1) (limit k1) n)) = fds k1) as Hcl.
  { intros n. cbn [fds]. rewrite filter_cons, decide_False by auto. by apply close_id. }
  assert (forall n, exists a' k',
    (let '(dummyfd, k0) := sys_open (mkKernel (fds k1) (limit k) n) in Some (set_dummyfd a dummyfd, k0)) = Some (a', k') /\
    acceptor_inv a' k' /\ handed a' = handed a /\ socket_ a' = socket_ a /\ has_callback a' = has_callback a /\
    limit k' = limit k /\ length (fds k') = length (fds k) /\ backlog k' = n) as Hopen.
  { intros n. unfold sys_open, full. cbn [limit fds]. rewrite (proj2 (Nat.leb_gt _ _)) by (apply Nat.leb_gt in Hf1; exact Hf1).
    unfold alloc. change (lowest_free (mkKernel (fds k1) (limit k) n)) with (lowest_free k1). eexists _, _.
    split; [done|]. split; [by apply (reopen_inv a k n (lowest_free k1))|]. cbn [fds length]. split_and!; try done; lia. }
  destruct err as [e|].
  - unfold sys_close at 1. rewrite close_id by done.
    destruct (Hopen (backlog k1)) as (a' & k' & E & Hi & H1 & H2 & H3 & H4 & H5 & _). exists a', k'. by split_and!.
  - destruct (backlog k1) as [|n] eqn:Eb.
    + unfold sys_close at 1. rewrite close_id by done. change (backlog k1) with (backlog k) in Eb.
      destruct (Hopen (backlog k1)) as (a' & k' & E & Hi & H1 & H2 & H3 & H4 & H5 & H6). exists a', k'.
      split_and!; try done. rewrite H6. change (backlog k1) with (backlog k). by rewrite Eb.
    + unfold alloc, sys_close at 1. cbn [fds limit backlog]. change (backlog k1) with (backlog k) in Eb.
      pose proof (Hcl 0%nat) as Hc. cbn [fds] in Hc. rewrite Hc. change (limit k1) with (limit k).
      destruct (Hopen n) as (a' & k' & E & Hi & H1 & H2 & H3 & H4 & H5 & H6). exists a', k'.
      split_and!; try done. rewrite H6, Eb. done.
Qed.

Lemma alloc_inv a k n :
  acceptor_inv a k -> full k = false -> acceptor_inv a (mkKernel (lowest_free k :: fds k) (limit k) n).
Proof.
  intros [I1 I2 I3 I4 I5 I6 I7 I8] Hf. destruct (lowest_free_spec k) as [Hlow H0]. unfold full in Hf. apply Nat.leb_gt in Hf.
  split; cbn [fds limit]; try done; [by apply NoDup_cons|by constructor|by right|by right|].
  eapply Forall_impl; [exact I7|]. intros z (Hz & Hs & Hd). split_and!; try done. by right.
Qed.

Definition err_ok (err : option Z) : Prop := match err with Some e => expected_error e = true | None => True end.

(** One read event: a client leaves the queue, with a descriptor of its own for
    the server or closed when there is none. *)
Definition served (a : Acceptor) (k : kernel) (a' : Acceptor) (k' : kernel) : Prop :=
  backlog k' = pred (backlog k) /\
  ((full k = false /\ backlog k <> 0%nat /\
    exists fd, handed a' = fd :: handed a /\ (fd ∉ fds k) /\ fds k' = fd :: fds k) \/
   ((full k = true \/ backlog k = 0%nat) /\ handed a' = handed a /\ length (fds k') = length (fds k))).

Lemma read_callback_spec a k err :
  acceptor_inv a k -> has_callback a = true -> err_ok err ->
  exists a' k', read_callback (fun k => k) err a k = Some (a', k') /\ acceptor_inv a' k' /\
    has_callback a' = true /\ (err = None -> served a k a' k').
Proof.
  intros I Hcb He. destruct (full k) eqn:Hf.
  { destruct (drop_client a k err I Hf) as (a' & k' & E & I' & Hh & _ & Hc & _ & Hl & Hb). exists a', k'.
    split_and!; try done; [by rewrite Hc|]. intros Hn. split; [by apply Hb|]. right. split_and!; auto. }
  unfold read_callback, Accept, sys_accept. rewrite Hf. destruct err as [e|]; cbn [err_ok] in He.
  { change (-1 <? 0) with true. cbv iota. rewrite He. cbn [check mbind option_bind]. change (0 <=? -1) with false. cbv iota.
    destruct (Z.eqb_spec e EMFILE) as [->|Hne]; [|by exists a, k].
    change (EMFILE =? EMFILE) with true. cbv iota.
    pose proof I as [I1 I2 I3 _ I5 _ _ _]. pose proof (close_length k (dummyfd_ a) I1 I5) as Hl.
    set (k1 := sys_close k (dummyfd_ a)) in *. unfold full in Hf. apply Nat.leb_gt in Hf.
    assert (full k1 = false) as Hf1 by (apply Nat.leb_gt; change (limit k1) with (limit k); lia).
    rewrite Hf1.
    assert ((-1) ∉ fds k1) as Hm1.
    { intros Hx. apply close_elem in Hx as [_ Hx]. rewrite Forall_forall in I2. apply I2 in Hx. lia. }
    unfold sys_close at 1. rewrite close_id by done. unfold sys_open, full. cbn [limit fds].
    rewrite (proj2 (Nat.leb_gt _ _)) by (change (limit k1) with (limit k); lia). unfold alloc. eexists _, _. split; [done|].
    split; [|done]. destruct (lowest_free_spec k1) as [Hlow H0]. by apply (reopen_inv a k (backlog k) (lowest_free k1)). }
  destruct (backlog k) as [|n] eqn:Eb.
  { exists a, k. split_and!; try done. intros _. split; [by rewrite Eb|]. right. split_and!; auto. }
  destruct (lowest_free_spec k) as [Hlow H0]. unfold alloc. cbn [fds limit backlog].
  rewrite (proj2 (Z.ltb_ge _ _)) by lia. cbn [mbind option_bind]. rewrite (proj2 (Z.leb_le _ _)) by lia. rewrite Hcb.
  eexists _, _. split; [done|]. pose proof (alloc_inv a k n I Hf) as [J1 J2 J3 J4 J5 J6 J7 J8].
  pose proof I as [_ _ _ I4 I5 _ I7 _]. split; [|split; [done|]].
  - split; cbn [socket_ dummyfd_ handed fds limit] in *; try done.
    + constructor; [|done]. split_and!; [left| |]; intros E; rewrite E in *; done.
    + apply NoDup_cons. split; [|done]. intros Hx. rewrite Forall_forall in I7. by apply I7 in Hx as [Hx _].
  - intros _. split; [by rewrite Eb|]. left. rewrite Hf, Eb. split_and!; try done. by exists (lowest_free k).
Qed.

Definition label_ok (l : label) : Prop := match l with LRead err => err_ok err | _ => True end.

Lemma acceptor_step_inv a k l :
  acceptor_inv a k -> has_callback a = true -> label_ok l ->
  exists a' k', step (a, k) l = Some (a', k') /\ acceptor_inv a' k' /\ has_callback a' = true.
Proof.
  intros I Hcb Hl. destruct l as [err| | |fd]; cbn [step label_ok] in *.
  - destruct (read_callback_spec a k err I Hcb Hl) as (a' & k' & E & I' & Hc & _). by exists a', k'.
  - eexists _, _. split; [done|]. split; [|done]. by destruct I.
  - eexists _, _. split; [done|]. split; [|done]. unfold sys_open. destruct (full k) eqn:Hf; [done|].
    by apply (alloc_inv a k (backlog k)).
  - case_decide as Hd; [by exists a, k|]. apply Decidable.not_or in Hd as [Hs Hd]. eexists _, _. split; [done|]. split; [|done].
    destruct I as [I1 I2 I3 I4 I5 I6 I7 I8]. split; cbn [socket_ dummyfd_ handed]; try done.
    + cbn. by apply filter_nodup.
    + apply Forall_forall. intros z Hz. apply close_elem in Hz as [_ Hz]. rewrite Forall_forall in I2. by apply I2.
    + cbn. pose proof (length_filter (fun z => z <> fd) (fds k)). lia.
    + by apply close_elem.
    + by apply close_elem.
    + apply Forall_forall. intros z Hz. apply list_elem_of_filter in Hz as [Hzf Hz]. rewrite Forall_forall in I7.
      apply I7 in Hz as (? & ? & ?). split_and!; try done. by apply close_elem.
    + by apply filter_nodup.
Qed.

Lemma acceptor_run_inv a k ls :
  acceptor_inv a k -> has_callback a = true -> Forall label_ok ls ->
  exists a' k', run (a, k) ls = Some (a', k') /\ acceptor_inv a' k' /\ has_callback a' = true.
Proof.
  intros I Hcb Hls. revert a k I Hcb. induction Hls as [|l ls Hl _ IH]; intros a k I Hcb; [by exists a, k|].
  destruct (acceptor_step_inv a k l I Hcb Hl) as (a1 & k1 & E & I1 & Hc1). cbn [run]. rewrite E. cbn [mbind option_bind].
  by apply IH.
Qed.

Lemma make_Acceptor_inv k :
  NoDup (fds k) -> Forall (fun z => 0 <= z) (fds k) -> (2 + length (fds k) <= limit k)%nat ->
  exists a k', make_Acceptor k = Some (a, k') /\ acceptor_inv a k' /\ listening_ a = false /\ handed a = [].
Proof.
  intros Hnd Hnn Hl. unfold make_Acceptor, sys_open, full. rewrite (proj2 (Nat.leb_gt _ _)) by lia.
  destruct (lowest_free_spec k) as [L1 P1]. unfold alloc at 1. rewrite check_bind_true by (by apply Z.leb_le).
  cbn [fds limit]. rewrite (proj2 (Nat.leb_gt _ _)) by (cbn; lia). unfold alloc.
  set (k1 := mkKernel (lowest_free k :: fds k) (limit k) (backlog k)).
  destruct (lowest_free_spec k1) as [L2 P2]. eexists _, _. split; [done|]. split; [|done].
  split; cbn [fds limit socket_ dummyfd_ handed] in *.
  - apply NoDup_cons. split; [done|]. by apply NoDup_cons.
  - constructor; [done|]. by constructor.
  - cbn. lia.
  - right. left.
  - left.
  - intros E. apply L2. rewrite <- E. left.
  - constructor.
  - constructor.
Qed.

(** ** Properties *)

(** C24 The listening socket never makes the loop spin: whatever clients arrive
    and whatever descriptors the other parts of the process open and close
    between two events, a read event whose [accept] meets no error but missing
    descriptors takes a waiting client out of the queue, with a fresh descriptor for the server or, with none left, closed
    with the help of the spare one, which is open again afterwards.  The
    descriptors handed out are open, distinct and never the acceptor's own. *)
Theorem acceptor_serves (k0 : kernel) (ls : list label) :
  NoDup (fds k0) -> Forall (fun z => 0 <= z) (fds k0) -> (2 + length (fds k0) <= limit k0)%nat -> Forall label_ok ls ->
  exists a0 k1 a1 a k, make_Acceptor k0 = Some (a0, k1) /\ Listen (SetNewConnectionCallback a0) = Some a1 /\
    run (a1, k1) ls = Some (a, k) /\ acceptor_inv a k /\
    exists a' k', step (a, k) (LRead None) = Some (a', k') /\ served a k a' k' /\ acceptor_inv a' k'.
Proof.
  intros Hnd Hnn Hl Hls. destruct (make_Acceptor_inv k0 Hnd Hnn Hl) as (a0 & k1 & E0 & I0 & Hli & Hh).
  eexists a0, k1, _. unfold Listen. cbn [SetNewConnectionCallback listening_]. rewrite Hli. cbn [negb check mbind option_bind].
  set (a1 := mkAcceptor _ _ _ _ _ _). assert (acceptor_inv a1 k1) as I1 by (by destruct I0).
  destruct (acceptor_run_inv a1 k1 ls I1 eq_refl Hls) as (a & k & E & I & Hc).
  destruct (read_callback_spec a k None I Hc Logic.I) as (a' & k' & E' & I' & _ & Hs).
  exists a, k. split_and!; try done. exists a', k'. split_and!; auto.
Qed.

Definition busy_process : kernel := mkKernel [0; 1; 2] 6 0.
Definition busy_day : list label := [LClient; LClient; LClient; LRead None; LOpen; LRead None; LRead (Some EINTR); LClose 5; LOpen].

Lemma acceptor_serves_witness :
  exists a0 k1 a1 a k, make_Acceptor busy_process = Some (a0, k1) /\ Listen (SetNewConnectionCallback a0) = Some a1 /\
    run (a1, k1) busy_day = Some (a, k) /\ acceptor_inv a k /\
    exists a' k', step (a, k) (LRead None) = Some (a', k') /\ served a k a' k' /\ acceptor_inv a' k'.
Proof.
  apply (acceptor_serves busy_process busy_day).
  - apply (bool_decide_unpack _). vm_compute. exact Logic.I.
  - repeat constructor; cbn; lia.
  - cbn. lia.
  - repeat constructor.
Defined.

(** ** Defects *)

(** Another thread that takes the descriptor between closing the spare one and
    accepting leaves the acceptor without a spare: from then on a waiting client
    is neither accepted nor dropped and its event is reported for ever. *)
Lemma spare_stolen_spins :
  let steal k := snd (sys_open k) in
  let k := mkKernel [0; 1; 2; 3; 4; 5] 6 1 in
  let a := mkAcceptor 3 4 true true true [5] in
  exists a' k', read_callback steal None a k = Some (a', k') /\ dummyfd_ a' = -1 /\
    backlog k' = 1%nat /\ read_callback (fun k => k) None a' k' = Some (a', k').
Proof. eexists _, _. split; [vm_compute; reflexivity|]. split_and!; vm_compute; reflexivity. Qed.

(** An error of the network that accept(2) passes on, such as EPROTO, ends the
    server. *)
Lemma network_error_ends_server others a k : full k = false -> read_callback others (Some 71) a k = None.
Proof. intros Hf. unfold read_callback, Accept, sys_accept. by rewrite Hf. Qed.
