(* ===== verification/Server.v ===== *)
(** * TcpServer, Acceptor and EventLoopPool: kanon/net/tcp_server.cc,
    acceptor.cc, event_loop_pool.cc

    The server gives every accepted connection a name and an IO loop, keeps it
    in a map by name while it lives, and removes it when it closes.  A connection
    is its place in its life cycle here; [Connection] models it in full.  Steps
    run in the server's loop or in the IO loop of the connection; what is queued
    to a loop is a step of its own. *)

From Stdlib Require Import ZArith Lia.
From stdpp Require Import gmap.
From S2P Require Import Prelude.


(** ** EventLoopPool *)

Definition loop_id := nat.

Record EventLoopPool := mkPool {
  base_loop_ : loop_id;
  started_ : bool;
  loop_num_ : Z;
  next_ : Z;
  loop_threads_ : list loop_id
}.

Definition make_EventLoopPool (base : loop_id) : EventLoopPool := mkPool base false 0 0 [].

Definition SetLoopNum (p : EventLoopPool) (n : Z) : EventLoopPool :=
  mkPool (base_loop_ p) (started_ p) n (next_ p) (loop_threads_ p).

(** [threads i] is the loop of the i-th thread that is started. *)
Definition Pool_StartRun (p : EventLoopPool) (threads : nat -> loop_id) : option EventLoopPool :=
  assert! negb (started_ p);
  Some (mkPool (base_loop_ p) true (loop_num_ p) (next_ p)
          (loop_threads_ p ++ map threads (seq 0 (Z.to_nat (loop_num_ p))))).

Definition GetNextLoop (p : EventLoopPool) : option (loop_id * EventLoopPool) :=
  assert! started_ p;
  match loop_threads_ p with
  | [] => Some (base_loop_ p, p)
  | ls =>
    assert! 0 <=? next_ p;
    loop ← ls !! Z.to_nat (next_ p);
    let next := next_ p + 1 in
    let next := if loop_num_ p <=? next then 0 else next in
    Some (loop, mkPool (base_loop_ p) (started_ p) (loop_num_ p) next ls)
  end.

(** ** TcpServer *)

(** The place of a connection in its life. *)
Inductive life := Connecting | Up | Down | Destroyed.

#[export] Instance life_eq_dec : EqDecision life.
Proof. solve_decision. Defined.

Definition conn_ref := nat.

Record Server := mkServer {
  name_ : list byte;
  ip_port_ : list byte;
  next_conn_id : Z;
  connections_ : gmap (list byte) conn_ref;
  conns : gmap conn_ref (list byte * loop_id * life);   (* the connections made *)
  made : conn_ref;
  pool_ : EventLoopPool;
  listening_ : bool;
  start_once_ : bool
}.

(** printf's %u. *)
Definition digit (d : Z) : byte := Z_to_byte (48 + d).

Fixpoint decimal (fuel : nat) (z : Z) : list byte :=
  match fuel with
  | O => []
  | S fuel => if z <? 10 then [digit z] else decimal fuel (z / 10) ++ [digit (z mod 10)]
  end.

Definition conn_suffix (ip_port : list byte) (id : Z) : list byte :=
  take 63 (str "-" ++ ip_port ++ str "#" ++ decimal 10 id).

Definition conn_name (s : Server) : list byte := name_ s ++ conn_suffix (ip_port_ s) (next_conn_id s).

Definition make_Server (name ip_port : list byte) (loop : loop_id) : Server :=
  mkServer name ip_port 1 ∅ ∅ 0%nat (make_EventLoopPool loop) false false.

Definition with_pool (s : Server) (p : EventLoopPool) : Server :=
  mkServer (name_ s) (ip_port_ s) (next_conn_id s) (connections_ s) (conns s) (made s) p (listening_ s) (start_once_ s).
Definition set_life (s : Server) (r : conn_ref) (x : list byte * loop_id * life) : Server :=
  mkServer (name_ s) (ip_port_ s) (next_conn_id s) (connections_ s) (<[r := x]> (conns s)) (made s) (pool_ s)
    (listening_ s) (start_once_ s).

(** [Acceptor::Listen]. *)
Definition Listen (s : Server) : option Server :=
  assert! negb (listening_ s);
  Some (mkServer (name_ s) (ip_port_ s) (next_conn_id s) (connections_ s) (conns s) (made s) (pool_ s) true (start_once_ s)).

(** The functor of [StartRun] in the server's loop; [StartRun] queues it unless
    [start_once_] is set. *)
Definition start_in_loop (s : Server) (threads : nat -> loop_id) : option Server :=
  p ← Pool_StartRun (pool_ s) threads;
  s ← Listen (with_pool s p);
  Some (mkServer (name_ s) (ip_port_ s) (next_conn_id s) (connections_ s) (conns s) (made s) (pool_ s) (listening_ s) true).

(** The new connection callback of the acceptor. *)
Definition new_connection (s : Server) : option Server :=
  let name := conn_name s in
  '(io_loop, p) ← GetNextLoop (pool_ s);
  let r := made s in
  Some (mkServer (name_ s) (ip_port_ s) (u32 (next_conn_id s + 1)) (<[name := r]> (connections_ s))
          (<[r := (name, io_loop, Connecting)]> (conns s)) (S r) p (listening_ s) (start_once_ s)).

(** [ConnectionEstablished] in the IO loop. *)
Definition established (s : Server) (r : conn_ref) : option Server :=
  '(name, loop, l) ← conns s !! r;
  assert! bool_decide (l = Connecting);
  Some (set_life s r (name, loop, Up)).

(** [HandleClose] of the connection with the close callback the server sets. *)
Definition closed (s : Server) (r : conn_ref) : option Server :=
  '(name, loop, l) ← conns s !! r;
  assert! bool_decide (l = Up);
  let s := set_life s r (name, loop, Down) in
  assert! bool_decide (is_Some (connections_ s !! name));
  Some (mkServer (name_ s) (ip_port_ s) (next_conn_id s) (delete name (connections_ s)) (conns s) (made s) (pool_ s)
          (listening_ s) (start_once_ s)).

(** [ConnectionDestroyed], queued by the close callback or run by the server's
    destructor. *)
Definition destroyed (s : Server) (r : conn_ref) : option Server :=
  '(name, loop, l) ← conns s !! r;
  assert! bool_decide (l = Up \/ l = Down);
  Some (set_life s r (name, loop, Destroyed)).

Inductive server_op := SAccept | SEstablished (r : conn_ref) | SClosed (r : conn_ref) | SDestroyed (r : conn_ref).

Definition run_server (s : Server) (o : server_op) : option Server :=
  match o with
  | SAccept => new_connection s
  | SEstablished r => established s r
  | SClosed r => closed s r
  | SDestroyed r => destroyed s r
  end.

Fixpoint run_servers (s : Server) (os : list server_op) : option Server :=
  match os with [] => Some s | o :: os => s ← run_server s o; run_servers s os end.

(** Functors and events reach a connection in the order of its life; a server
    makes fewer than 2^32 connections. *)
Definition life_of (s : Server) (r : conn_ref) : option life := snd <$> conns s !! r.

Definition server_op_ok (s : Server) (o : server_op) : Prop :=
  match o with
  | SAccept => Z.of_nat (made s) < 2 ^ 32 - 2
  | SEstablished r => life_of s r = Some Connecting
  | SClosed r => life_of s r = Some Up
  | SDestroyed r => life_of s r = Some Down
  end.

Fixpoint server_ops_ok (s : Server) (os : list server_op) : Prop :=
  match os with
  | [] => True
  | o :: os => server_op_ok s o /\ forall s', run_server s o = Some s' -> server_ops_ok s' os
  end.

(** ** Names *)

Definition dec_value (l : list byte) : Z := fold_left (fun a b => 10 * a + (byte_to_Z b - 48)) l 0.

Lemma digit_value d : 0 <= d < 10 -> byte_to_Z (digit d) - 48 = d.
Proof. intros Hd. unfold digit. rewrite byte_to_Z_to_byte, Z.mod_small; lia. Qed.

Lemma dec_value_decimal fuel z : 0 <= z < 10 ^ Z.of_nat fuel -> dec_value (decimal fuel z) = z.
Proof.
  revert z. induction fuel as [|fuel IH]; intros z Hz; [cbn in Hz; cbn; lia|]. cbn [decimal]. case_bool.
  - unfold dec_value. cbn [fold_left]. rewrite digit_value; lia.
  - rewrite Nat2Z.inj_succ, Z.pow_succ_r in Hz by lia. unfold dec_value in *. rewrite fold_left_app. cbn [fold_left].
    rewrite IH.
    + pose proof (Z.mod_pos_bound z 10 ltac:(lia)). rewrite digit_value by lia. pose proof (Z.div_mod z 10 ltac:(lia)). lia.
    + split; [apply Z.div_pos; lia|]. apply Z.div_lt_upper_bound; lia.
Qed.

Lemma length_decimal fuel z : (length (decimal fuel z) <= fuel)%nat.
Proof.
  revert z. induction fuel as [|fuel IH]; intros z; [done|]. cbn [decimal]. case_bool; cbn; [lia|].
  rewrite length_app. cbn. specialize (IH (z / 10)). lia.
Qed.

Lemma conn_suffix_inj ip i j :
  zlen ip <= 51 -> 0 <= i < 2 ^ 32 -> 0 <= j < 2 ^ 32 -> conn_suffix ip i = conn_suffix ip j -> i = j.
Proof.
  intros Hip Hi Hj. unfold conn_suffix. pose proof (length_decimal 10 i). pose proof (length_decimal 10 j).
  unfold zlen in Hip. rewrite !take_ge by (rewrite !length_app; change (length (str "-")) with 1%nat; change (length (str "#")) with 1%nat; lia).
  intros E. apply app_inv_head in E. apply app_inv_head in E. apply app_inv_head in E.
  rewrite <- (dec_value_decimal 10 i), <- (dec_value_decimal 10 j) by lia. by rewrite E.
Qed.

(** ** The invariant *)

Section server.
Context (name ip : list byte) (base : loop_id) (threads : nat -> loop_id) (num : Z).
Context (Hip : zlen ip <= 51) (Hnum : 0 <= num).

(** The [r]-th connection: its name and its loop. *)
Definition nth_name (r : conn_ref) : list byte := name ++ conn_suffix ip (Z.of_nat r + 1).
Definition nth_loop (r : conn_ref) : loop_id :=
  if num =? 0 then base else threads (Z.to_nat (Z.of_nat r mod num)).

Definition alive (l : life) : Prop := l = Connecting \/ l = Up.

Record server_inv (s : Server) : Prop := {
  si_name : name_ s = name;
  si_ip : ip_port_ s = ip;
  si_made : Z.of_nat (made s) < 2 ^ 32 - 1;
  si_id : next_conn_id s = Z.of_nat (made s) + 1;
  si_pool : pool_ s = mkPool base true num (if num =? 0 then 0 else Z.of_nat (made s) mod num)
                        (map threads (seq 0 (Z.to_nat num)));
  si_conns : forall (r : conn_ref) n l st, conns s !! r = Some (n, l, st) -> (r < made s)%nat /\ n = nth_name r /\ l = nth_loop r;
  si_map : forall n r, connections_ s !! n = Some r <->
    exists l st, conns s !! r = Some (n, l, st) /\ alive st
}.

Lemma nth_name_inj r r' :
  Z.of_nat r < 2 ^ 32 - 1 -> Z.of_nat r' < 2 ^ 32 - 1 -> nth_name r = nth_name r' -> r = r'.
Proof.
  intros Hr Hr' E. apply app_inv_head in E. apply conn_suffix_inj in E; try done; lia.
Qed.

Lemma GetNextLoop_spec k :
  let p i := mkPool base true num (if num =? 0 then 0 else Z.of_nat i mod num) (map threads (seq 0 (Z.to_nat num))) in
  GetNextLoop (p k) = Some (nth_loop k, p (S k)).
Proof.
  cbn zeta. unfold GetNextLoop, nth_loop. cbn [started_ loop_threads_ next_ base_loop_ loop_num_].
  rewrite check_bind_true by done. destruct (Z.eqb_spec num 0) as [->|Hn]; [done|].
  pose proof (Z.mod_pos_bound (Z.of_nat k) num ltac:(lia)) as Hk.
  destruct (map threads (seq 0 (Z.to_nat num))) as [|t ts] eqn:Em.
  { apply map_eq_nil in Em. destruct (Z.to_nat num) eqn:E; [lia|done]. }
  rewrite <- Em. rewrite check_bind_true by lia.
  rewrite list_lookup_fmap, lookup_seq_lt by lia. cbn [fmap option_fmap option_map mbind option_bind].
  do 3 f_equal. rewrite Nat2Z.inj_succ, <- Z.add_1_r. case_bool.
  - assert (Z.of_nat k mod num = num - 1) as E by lia. pose proof (Z.div_mod (Z.of_nat k) num ltac:(lia)) as Hd.
    rewrite E in Hd. replace (Z.of_nat k + 1) with (num * (Z.of_nat k / num + 1)) by lia.
    by rewrite Z.mul_comm, Z_mod_mult.
  - pose proof (Z.div_mod (Z.of_nat k) num ltac:(lia)) as Hd. apply (Z.mod_unique _ _ (Z.of_nat k / num)); lia.
Qed.

Lemma run_server_spec s o :
  server_inv s -> server_op_ok s o -> exists s', run_server s o = Some s' /\ server_inv s'.
Proof.
  intros I Hok. pose proof I as [Nn Np Hm Hid Hp Hc Hmap]. destruct o; cbn [run_server server_op_ok] in *.
  - unfold new_connection. rewrite Hp, GetNextLoop_spec. cbn [mbind option_bind]. eexists. split; [done|].
    assert (conns s !! made s = None) as Hfr.
    { destruct (conns s !! made s) as [[[n l] st]|] eqn:E; [|done]. apply Hc in E as [? _]. lia. }
    assert (conn_name s = nth_name (made s)) as En.
    { unfold conn_name, nth_name. by rewrite Nn, Np, Hid. }
    split; cbn; try done.
    + lia.
    + rewrite Hid, u32_id by lia. lia.
    + intros r n l st. rewrite lookup_insert_Some. intros [[<- [= <- <- <-]]|[N E]]; [split_and!; [lia|done|done]|].
      apply Hc in E as (? & ? & ?). split_and!; [lia|done|done].
    + intros n r. rewrite lookup_insert_Some. split.
      * intros [[<- <-]|[N E]]; [exists (nth_loop (made s)), Connecting; split; [by rewrite lookup_insert_eq|by left]|].
        apply Hmap in E as (l & st & E & Ha). exists l, st. split; [|done]. rewrite lookup_insert_ne; [done|].
        intros Heq. rewrite <- Heq in E. congruence.
      * intros (l & st & E & Ha). apply lookup_insert_Some in E as [[<- [= <- <- <-]]|[N E]]; [by left|]. right.
        split; [|apply Hmap; by exists l, st]. intros Heq. apply Hc in E as (Hr & Hn & _). apply N.
        apply nth_name_inj; [lia|lia|congruence].
  - unfold established, life_of in *. destruct (conns s !! r) as [[[n l] st]|] eqn:E; [|done]. injection Hok as ->.
    cbn [mbind option_bind]. rewrite check_bind_true by done. eexists. split; [done|]. split; cbn; try done.
    + intros r' n' l' st'. rewrite lookup_insert_Some. intros [[<- [= <- <- <-]]|[N E']]; by eapply Hc.
    + intros n' r'. rewrite Hmap. split; intros (l' & st' & E' & Ha).
      * destruct (decide (r' = r)) as [->|N]; [|exists l', st'; by rewrite lookup_insert_ne].
        rewrite E in E'. injection E' as <- <- <-. exists l, Up. rewrite lookup_insert_eq. split; [done|by right].
      * apply lookup_insert_Some in E' as [[<- [= <- <- <-]]|[N E']]; [exists l, Connecting; split; [done|by left]|by exists l', st'].
  - unfold closed, life_of in *. destruct (conns s !! r) as [[[n l] st]|] eqn:E; [|done]. injection Hok as ->.
    cbn [mbind option_bind]. rewrite check_bind_true by done.
    assert (connections_ s !! n = Some r) as Hn by (apply Hmap; exists l, Up; split; [done|by right]).
    cbn. rewrite Hn. rewrite check_bind_true by (by apply bool_decide_eq_true). eexists. split; [done|]. split; cbn; try done.
    + intros r' n' l' st'. rewrite lookup_insert_Some. intros [[<- [= <- <- <-]]|[N E']]; by eapply Hc.
    + intros n' r'. rewrite lookup_delete_Some, Hmap. split.
      * intros [N (l' & st' & E' & Ha)]. exists l', st'. rewrite lookup_insert_ne; [done|]. intros <-. congruence.
      * intros (l' & st' & E' & Ha). apply lookup_insert_Some in E' as [[<- [= <- <- <-]]|[N E']]; [by destruct Ha|].
        split; [|by exists l', st']. intros <-. apply N. assert (connections_ s !! n = Some r') as Hn' by (apply Hmap; by exists l', st').
        congruence.
  - unfold destroyed, life_of in *. destruct (conns s !! r) as [[[n l] st]|] eqn:E; [|done]. injection Hok as ->.
    cbn [mbind option_bind]. rewrite check_bind_true by (apply bool_decide_eq_true; by right). eexists. split; [done|].
    split; cbn; try done.
    + intros r' n' l' st'. rewrite lookup_insert_Some. intros [[<- [= <- <- <-]]|[N E']]; by eapply Hc.
    + intros n' r'. rewrite Hmap. split; intros (l' & st' & E' & Ha).
      * exists l', st'. rewrite lookup_insert_ne; [done|]. intros <-. rewrite E in E'. injection E' as <- <- <-. by destruct Ha.
      * apply lookup_insert_Some in E' as [[<- [= <- <- <-]]|[N E']]; [by destruct Ha|by exists l', st'].
Qed.

Lemma run_servers_spec s os :
  server_inv s -> server_ops_ok s os -> exists s', run_servers s os = Some s' /\ server_inv s'.
Proof.
  revert s. induction os as [|o os IH]; intros s I Hok; [by exists s|]. destruct Hok as [Ho Hok].
  destruct (run_server_spec s o I Ho) as (s1 & E & I1). cbn [run_servers]. rewrite E. cbn [mbind option_bind]. auto.
Qed.

(** A server that was started with [num] IO threads. *)
Definition started_server : Server :=
  mkServer name ip 1 ∅ ∅ 0%nat (mkPool base true num 0 (map threads (seq 0 (Z.to_nat num)))) true true.

Lemma start_spec :
  start_in_loop (with_pool (make_Server name ip base) (SetLoopNum (make_EventLoopPool base) num)) threads
  = Some started_server.
Proof. done. Qed.

Lemma started_inv : server_inv started_server.
Proof.
  split; cbn; try done; [case_bool; [done|by rewrite Z.mod_0_l]|].
  intros n r. split; [done|]. by intros (? & ? & ? & _).
Qed.

End server.

(** ** Properties *)

(** C11 The server's map is right: however connections are accepted, established,
    closed and destroyed, no assertion fails, the map holds under its name
    exactly each connection that is being established or is up, different
    connections have different names, and the k-th one runs in loop k modulo the
    number of IO loops, or in the server's own loop when there are none.  Up to
    2^32 - 2 connections are accepted: behind them the counter of the names wraps. *)
Theorem server_registry (name ip : list byte) (base : loop_id) (threads : nat -> loop_id) (num : Z) (os : list server_op) :
  zlen ip <= 51 -> 0 <= num -> server_ops_ok (started_server name ip base threads num) os ->
  exists s, (s0 ← start_in_loop (with_pool (make_Server name ip base) (SetLoopNum (make_EventLoopPool base) num)) threads;
             run_servers s0 os) = Some s /\
    (forall n r, connections_ s !! n = Some r <-> exists l st, conns s !! r = Some (n, l, st) /\ alive st) /\
    (forall r r' n l l' st st', conns s !! r = Some (n, l, st) -> conns s !! r' = Some (n, l', st') -> r = r') /\
    (forall r n l st, conns s !! r = Some (n, l, st) -> l = nth_loop base threads num r).
Proof.
  intros Hip Hnum Hok. rewrite start_spec. cbn [mbind option_bind].
  destruct (run_servers_spec name ip base threads num Hip Hnum _ os (started_inv name ip base threads num) Hok)
    as (s & E & [_ _ Hm _ _ Hc Hmap]).
  exists s. split; [done|]. split; [done|]. split.
  - intros r r' n l l' st st' E1 E2. apply Hc in E1 as (H1 & N1 & _). apply Hc in E2 as (H2 & N2 & _).
    apply (nth_name_inj name ip Hip); [lia|lia|congruence].
  - intros r n l st E1. by apply Hc in E1 as (_ & _ & ?).
Qed.

(** The same condition as a function. *)
Definition server_op_okb (s : Server) (o : server_op) : bool :=
  match o with
  | SAccept => Z.of_nat (made s) <? 2 ^ 32 - 2
  | SEstablished r => bool_decide (life_of s r = Some Connecting)
  | SClosed r => bool_decide (life_of s r = Some Up)
  | SDestroyed r => bool_decide (life_of s r = Some Down)
  end.

Fixpoint server_ops_okb (s : Server) (os : list server_op) : bool :=
  match os with
  | [] => true
  | o :: os => server_op_okb s o && match run_server s o with Some s => server_ops_okb s os | None => true end
  end.

Lemma server_ops_okb_sound s os : server_ops_okb s os = true -> server_ops_ok s os.
Proof.
  revert s. induction os as [|o os IH]; intros s E; [done|]. cbn [server_ops_okb] in E.
  apply andb_true_iff in E as [Eo E]. split.
  - destruct o; cbn [server_op_ok server_op_okb] in *; [lia|by apply bool_decide_eq_true in Eo..].
  - intros s' Es. rewrite Es in E. auto.
Qed.

Definition demo_server_ops : list server_op :=
  [SAccept; SAccept; SEstablished 1%nat; SAccept; SEstablished 0%nat; SClosed 1%nat; SDestroyed 1%nat].

Lemma server_registry_witness :
  exists s, (s0 ← start_in_loop (with_pool (make_Server (str "echo") (str "127.0.0.1:9999") 0%nat)
                 (SetLoopNum (make_EventLoopPool 0%nat) 2)) (fun i => (10 + i)%nat);
             run_servers s0 demo_server_ops) = Some s /\
    (forall n r, connections_ s !! n = Some r <-> exists l st, conns s !! r = Some (n, l, st) /\ alive st) /\
    (forall r r' n l l' st st', conns s !! r = Some (n, l, st) -> conns s !! r' = Some (n, l', st') -> r = r') /\
    (forall r n l st, conns s !! r = Some (n, l, st) -> l = nth_loop 0%nat (fun i => (10 + i)%nat) 2 r).
Proof.
  apply (server_registry (str "echo") (str "127.0.0.1:9999") 0%nat (fun i => (10 + i)%nat) 2 demo_server_ops);
    [vm_compute; discriminate|lia|].
  apply server_ops_okb_sound. vm_compute. reflexivity.
Defined.

(** ** Defects *)

(** [StartRun] tests [start_once_] before its functor sets it: called twice before
    the loop runs, the second functor fails its assertion. *)
Lemma start_twice_fails name ip base threads :
  (s ← start_in_loop (make_Server name ip base) threads; start_in_loop s threads) = None.
Proof. done. Qed.

(** Changing the number of loops after the start makes the pool index past its
    threads. *)
Lemma set_loop_num_late base threads :
  (p ← Pool_StartRun (SetLoopNum (make_EventLoopPool base) 1) threads;
   '(_, p) ← GetNextLoop (SetLoopNum p 2); GetNextLoop p) = None.
Proof. done. Qed.

(** The connection id is 32 bits wide: once it wraps, a new connection takes the
    name of an old one that is still up, and the second of them to close fails. *)
Lemma id_wrap_collides :
  let s := mkServer [] [] 1 {[ conn_suffix [] 1 := 0%nat ]} {[ 0%nat := (conn_suffix [] 1, 0%nat, Up) ]} 1%nat
             (mkPool 0%nat true 0 0 []) true true in
  is_Some (run_servers s [SAccept; SEstablished 1%nat; SClosed 1%nat]) /\
  run_servers s [SAccept; SEstablished 1%nat; SClosed 1%nat; SClosed 0%nat] = None.
Proof. split; [eexists; vm_compute; reflexivity|vm_compute; reflexivity]. Qed.
