(* ===== verification/MemPool.v ===== *)
(** * FixedChunkMemoryPool: kanon/mem/fixed_chunk_memory_pool.{h,cc}

    Blocks of equal chunks taken from malloc; the free chunks form a list
    through a pointer stored in their payload.  Memory is a map from addresses to
    words, and an access outside the blocks fails.  The users of the pool write
    to their chunks, where the pool's pointers were. *)

From Stdlib Require Import ZArith Lia.
From stdpp Require Import gmap sorting.
From S2P Require Import Prelude.

Definition ALLOCATED : Z := 0.
Definition FREE : Z := 1.
Definition CHUNK_NEXT_OFFSET : Z := 8.   (* offsetof(Chunk, next) *)
Definition sizeof_Block : Z := 8.
Definition chunk_next_space : Z := 8.

Definition ALIGN_SIZE (sz : Z) : Z := if sz <? chunk_next_space then chunk_next_space else sz.

Record Pool := mkPool {
  chunk_per_block_ : Z;
  free_chunk_header_ : Z;
  block_chain_ : Z;
  block_count_ : Z;
  mem : gmap Z Z;
  blocks : list (Z * Z)      (* what malloc gave: address and size *)
}.

Definition make_Pool (n : Z) : Pool := mkPool n 0 0 0 ∅ [].

(** In size_t, which wraps around. *)
Definition BLOCK_SPACE (p : Pool) (sz : Z) : Z :=
  u64 (sizeof_Block + u64 (u64 (CHUNK_NEXT_OFFSET + sz) * chunk_per_block_ p)).

(** The word at [a] lies in a block. *)
Definition valid (p : Pool) (a : Z) : bool :=
  existsb (fun b => (b.1 <=? a) && (a + 8 <=? b.1 + b.2)) (blocks p).

Definition rd (p : Pool) (a : Z) : option Z := assert! valid p a; mem p !! a.
Definition wr (p : Pool) (a v : Z) : option Pool :=
  assert! valid p a;
  Some (mkPool (chunk_per_block_ p) (free_chunk_header_ p) (block_chain_ p) (block_count_ p) (<[a := v]> (mem p)) (blocks p)).

Definition with_header (p : Pool) (h : Z) : Pool :=
  mkPool (chunk_per_block_ p) h (block_chain_ p) (block_count_ p) (mem p) (blocks p).

(** Links [n] more chunks after the one at [chunk_header]; returns the last. *)
Fixpoint link_chunks (n : nat) (p : Pool) (chunk_header sz : Z) : option (Z * Pool) :=
  match n with
  | O => Some (chunk_header, p)
  | S n =>
    let next := chunk_header + CHUNK_NEXT_OFFSET + sz in
    p ← wr p (chunk_header + CHUNK_NEXT_OFFSET) next;
    p ← wr p next FREE;
    link_chunks n p next sz
  end.

(** [addr] is the result of malloc, 0 when it fails. Returns the header. *)
Definition AllocBlock (p : Pool) (sz addr : Z) : option (Z * Pool) :=
  assert! 8 <=? sz;
  if addr =? 0 then Some (0, p)
  else
    let p := mkPool (chunk_per_block_ p) (free_chunk_header_ p) (block_chain_ p) (block_count_ p) (mem p)
               ((addr, BLOCK_SPACE p sz) :: blocks p) in
    p ← wr p addr (block_chain_ p);
    let p := mkPool (chunk_per_block_ p) (addr + sizeof_Block) addr (block_count_ p) (mem p) (blocks p) in
    p ← wr p (free_chunk_header_ p) FREE;
    '(last, p) ← link_chunks (Z.to_nat (chunk_per_block_ p - 1)) p (free_chunk_header_ p) sz;
    p ← wr p (last + CHUNK_NEXT_OFFSET) 0;
    Some (free_chunk_header_ p,
          mkPool (chunk_per_block_ p) (free_chunk_header_ p) (block_chain_ p) (block_count_ p + 1) (mem p) (blocks p)).

Definition Malloc (p : Pool) (sz addr : Z) : option (Z * Pool) :=
  if sz =? 0 then Some (0, p)
  else
    let sz := ALIGN_SIZE sz in
    '(header, p) ← (if free_chunk_header_ p =? 0 then AllocBlock p sz addr else Some (free_chunk_header_ p, p));
    if header =? 0 then assert! free_chunk_header_ p =? 0; Some (0, p)
    else
      next ← rd p (free_chunk_header_ p + CHUNK_NEXT_OFFSET);
      p ← wr (with_header p next) header ALLOCATED;
      Some (header + CHUNK_NEXT_OFFSET, p).

Definition Free (p : Pool) (ptr : Z) : option Pool :=
  if ptr =? 0 then Some p
  else
    let new_free_chunk := ptr - CHUNK_NEXT_OFFSET in
    status ← rd p new_free_chunk;
    assert! status =? ALLOCATED;
    p ← wr p new_free_chunk FREE;
    p ← wr p (new_free_chunk + CHUNK_NEXT_OFFSET) (free_chunk_header_ p);
    Some (with_header p new_free_chunk).

(** [IsBlockFree]: [n] chunks from the one at [chunk_iter] on. *)
Fixpoint chunks_free (n : nat) (p : Pool) (chunk_iter sz : Z) : option bool :=
  match n with
  | O => Some true
  | S n =>
    status ← rd p chunk_iter;
    if status =? ALLOCATED then Some false
    else chunks_free n p (chunk_iter + CHUNK_NEXT_OFFSET + sz) sz
  end.

Definition IsBlockFree (p : Pool) (block sz : Z) : option bool :=
  assert! 8 <=? sz;
  chunks_free (Z.to_nat (chunk_per_block_ p)) p (block + sizeof_Block) sz.

(** free(3): the block is gone. *)
Definition free_block (p : Pool) (a : Z) : option Pool :=
  assert! existsb (fun b => b.1 =? a) (blocks p);
  Some (mkPool (chunk_per_block_ p) (free_chunk_header_ p) (block_chain_ p) (block_count_ p) (mem p)
          (List.filter (fun b => negb (b.1 =? a)) (blocks p))).

(** The two loops of [Shrink]. *)
Fixpoint shrink_head (fuel : nat) (p : Pool) (sz : Z) : option Pool :=
  match fuel with
  | O => None
  | S fuel =>
    free ← IsBlockFree p (block_chain_ p) sz;
    if (free : bool) then
      next ← rd p (block_chain_ p);
      p ← free_block p (block_chain_ p);
      shrink_head fuel (mkPool (chunk_per_block_ p) (free_chunk_header_ p) next (block_count_ p - 1) (mem p) (blocks p)) sz
    else Some p
  end.

Fixpoint shrink_rest (fuel : nat) (p : Pool) (block_iter sz : Z) : option Pool :=
  match fuel with
  | O => None
  | S fuel =>
    tmp_next ← rd p block_iter;
    if tmp_next =? 0 then Some p
    else
      free ← IsBlockFree p tmp_next sz;
      p ← (if (free : bool) then
             next ← rd p tmp_next;
             p ← wr p block_iter next;
             p ← free_block p tmp_next;
             Some (mkPool (chunk_per_block_ p) (free_chunk_header_ p) (block_chain_ p) (block_count_ p - 1) (mem p) (blocks p))
           else Some p);
      next ← rd p block_iter;
      shrink_rest fuel p next sz
  end.

Definition Shrink (fuel : nat) (p : Pool) (sz : Z) : option Pool :=
  let sz := ALIGN_SIZE sz in
  p ← shrink_head fuel p sz;
  shrink_rest fuel p (block_chain_ p) sz.

(** The destructor: [while (block_chain_)]. *)
Fixpoint destroy_Pool (fuel : nat) (p : Pool) : option Pool :=
  if block_chain_ p =? 0 then Some p
  else
    match fuel with
    | O => None
    | S fuel =>
      next ← rd p (block_chain_ p);
      p ← free_block p (block_chain_ p);
      destroy_Pool fuel (mkPool (chunk_per_block_ p) (free_chunk_header_ p) next (block_count_ p) (mem p) (blocks p))
    end.

Definition SetChunkPerBlock (p : Pool) (n : Z) : Pool :=
  mkPool n (free_chunk_header_ p) (block_chain_ p) (block_count_ p) (mem p) (blocks p).

Definition GetUsage (p : Pool) (sz : Z) : Z := u64 (BLOCK_SPACE p (ALIGN_SIZE sz) * block_count_ p).

(** [GetFreeChunkNum], over the chain of blocks. *)
Fixpoint count_free (n : nat) (p : Pool) (chunk_iter sz : Z) : option Z :=
  match n with
  | O => Some 0
  | S n =>
    status ← rd p chunk_iter;
    rest ← count_free n p (chunk_iter + CHUNK_NEXT_OFFSET + sz) sz;
    Some ((if status =? FREE then 1 else 0) + rest)
  end.

Definition GetFreeChunkNumInBlock (p : Pool) (block sz : Z) : option Z :=
  count_free (Z.to_nat (chunk_per_block_ p)) p (block + sizeof_Block) sz.

Fixpoint GetFreeChunkNum (fuel : nat) (p : Pool) (block_iter sz : Z) : option Z :=
  match fuel with
  | O => None
  | S fuel =>
    if block_iter =? 0 then Some 0
    else
      n ← GetFreeChunkNumInBlock p block_iter sz;
      next ← rd p block_iter;
      rest ← GetFreeChunkNum fuel p next sz;
      Some (n + rest)
  end.

(** ** Use *)

Inductive pool_op :=
| PMalloc (addr : Z)          (* [addr]: what malloc returns if it is called *)
| PFree (ptr : Z)
| PWrite (ptr v : Z).         (* the user stores to the start of its chunk *)

(** The pool and the pointers its users hold. *)
Definition run_pool (sz : Z) (s : Pool * list Z) (o : pool_op) : option (Pool * list Z) :=
  let '(p, live) := s in
  match o with
  | PMalloc addr => '(ptr, p) ← Malloc p sz addr; Some (p, if ptr =? 0 then live else ptr :: live)
  | PFree ptr => p ← Free p ptr; Some (p, List.filter (fun x => negb (x =? ptr)) live)
  | PWrite ptr v => p ← wr p ptr v; Some (p, live)
  end.

Fixpoint run_pools (sz : Z) (s : Pool * list Z) (os : list pool_op) : option (Pool * list Z) :=
  match os with [] => Some s | o :: os => s ← run_pool sz s o; run_pools sz s os end.

(** malloc gives fresh memory or fails; users keep to the pointers they hold. *)
Definition pool_op_ok (sz : Z) (s : Pool * list Z) (o : pool_op) : Prop :=
  let '(p, live) := s in
  match o with
  | PMalloc addr => addr = 0 \/
    (0 < addr /\ Forall (fun b => addr + BLOCK_SPACE p (ALIGN_SIZE sz) <= b.1 \/ b.1 + b.2 <= addr) (blocks p))
  | PFree ptr | PWrite ptr _ => ptr ∈ live
  end.

Fixpoint pool_ops_ok (sz : Z) (s : Pool * list Z) (os : list pool_op) : Prop :=
  match os with
  | [] => True
  | o :: os => pool_op_ok sz s o /\ forall s', run_pool sz s o = Some s' -> pool_ops_ok sz s' os
  end.

(** ** Layout *)

Section pool.
Context (sz n : Z) (Hsz : 8 <= sz) (Hn : 1 <= n).

(** [k] chunks from the address [c] on. *)
Fixpoint chunks_from (k : nat) (c : Z) : list Z :=
  match k with O => [] | S k => c :: chunks_from k (c + 8 + sz) end.

Definition space : Z := 8 + (8 + sz) * n.
Definition block_chunks (b : Z) : list Z := chunks_from (Z.to_nat n) (b + 8).
Definition all_chunks (bs : list (Z * Z)) : list Z := concat (map (fun b => block_chunks b.1) bs).

Lemma elem_of_chunks_from k c x :
  x ∈ chunks_from k c <-> exists j, 0 <= j < Z.of_nat k /\ x = c + j * (8 + sz).
Proof.
  revert c. induction k as [|k IH]; intros c; cbn [chunks_from].
  - split; [intros Hx; by apply not_elem_of_nil in Hx|]. intros (j & Hj & _). lia.
  - rewrite elem_of_cons, IH. split.
    + intros [->|(j & Hj & ->)]; [exists 0; lia|exists (j + 1); lia].
    + intros (j & Hj & ->). destruct (decide (j = 0)) as [->|]; [left; lia|right; exists (j - 1); lia].
Qed.

Lemma NoDup_chunks_from k c : NoDup (chunks_from k c).
Proof.
  revert c. induction k as [|k IH]; intros c; cbn [chunks_from]; constructor; [|done].
  intros (j & Hj & E)%elem_of_chunks_from. nia.
Qed.

Lemma in_block b x :
  x ∈ block_chunks b -> exists j, 0 <= j < n /\ x = b + 8 + j * (8 + sz) /\ b + 8 <= x /\ x + 8 + sz <= b + space.
Proof.
  intros (j & Hj & ->)%elem_of_chunks_from. exists j. unfold space. rewrite Z2Nat.id in Hj by lia.
  split; [lia|]. split; [lia|]. nia.
Qed.

(** The blocks do not overlap. *)
Definition apart (b b' : Z * Z) : Prop := b.1 + b.2 <= b'.1 \/ b'.1 + b'.2 <= b.1.

Fixpoint blocks_ok (bs : list (Z * Z)) : Prop :=
  match bs with
  | [] => True
  | b :: bs => 0 < b.1 /\ b.2 = space /\ Forall (apart b) bs /\ blocks_ok bs
  end.

Lemma blocks_ok_in bs b : blocks_ok bs -> b ∈ bs -> 0 < b.1 /\ b.2 = space.
Proof.
  induction bs as [|b' bs IH]; intros Hb Hin; [by apply not_elem_of_nil in Hin|].
  destruct Hb as (H1 & H2 & _ & H3). apply elem_of_cons in Hin as [->|Hin]; auto.
Qed.

Lemma elem_of_all_chunks bs x : x ∈ all_chunks bs <-> exists b, b ∈ bs /\ x ∈ block_chunks b.1.
Proof.
  unfold all_chunks. induction bs as [|b bs IH]; cbn.
  - split; [intros Hx; by apply not_elem_of_nil in Hx|]. intros (b & Hb & _). by apply not_elem_of_nil in Hb.
  - rewrite elem_of_app, IH. split.
    + intros [Hx|(b' & Hb & Hx)]; [exists b; split; [by left|done]|exists b'; split; [by right|done]].
    + intros (b' & Hb & Hx). apply elem_of_cons in Hb as [->|Hb]; [by left|right; by exists b'].
Qed.

Lemma blocks_apart bs b b' : blocks_ok bs -> b ∈ bs -> b' ∈ bs -> b.1 = b'.1 \/ apart b b'.
Proof.
  intros Hb Hbi Hbi'. induction bs as [|c bs IH]; [by apply not_elem_of_nil in Hbi|]. destruct Hb as (_ & _ & Hf & Hb).
  rewrite Forall_forall in Hf. apply elem_of_cons in Hbi. apply elem_of_cons in Hbi'.
  destruct Hbi as [->|Hbi], Hbi' as [->|Hbi']; [by left|right; by apply Hf| |by apply IH].
  right. destruct (Hf _ Hbi) as [?|?]; [by right|by left].
Qed.

(** Two chunks are at least a chunk apart. *)
Lemma chunks_apart bs x y :
  blocks_ok bs -> x ∈ all_chunks bs -> y ∈ all_chunks bs -> x <> y -> x + 8 + sz <= y \/ y + 8 + sz <= x.
Proof.
  intros Hb Hx Hy Hne. apply elem_of_all_chunks in Hx as (b & Hbi & Hx). apply elem_of_all_chunks in Hy as (b' & Hbi' & Hy).
  pose proof (blocks_apart bs b b' Hb Hbi Hbi') as Hap.
  apply in_block in Hx as (i & Hi & Ex & Hx1 & Hx2). apply in_block in Hy as (j & Hj & Ey & Hy1 & Hy2).
  destruct Hap as [E|Hap].
  - subst x y. rewrite E in *. assert (i <> j) by congruence. nia.
  - pose proof (blocks_ok_in _ _ Hb Hbi) as [_ S1]. pose proof (blocks_ok_in _ _ Hb Hbi') as [_ S2].
    unfold apart in Hap. rewrite S1, S2 in Hap. lia.
Qed.

Lemma NoDup_all_chunks bs : blocks_ok bs -> NoDup (all_chunks bs).
Proof.
  induction bs as [|b bs IH]; intros Hb; [constructor|]. destruct Hb as (Hp & Hs & Hf & Hb). unfold all_chunks. cbn.
  apply NoDup_app. split; [apply NoDup_chunks_from|]. split; [|by apply IH].
  intros x Hx Hx'. apply elem_of_all_chunks in Hx' as (b' & Hb' & Hx'). apply in_block in Hx as (i & Hi & Ex & H1 & H2).
  apply in_block in Hx' as (j & Hj & Ey & H3 & H4). rewrite Forall_forall in Hf. pose proof (Hf _ Hb') as Ha.
  pose proof (blocks_ok_in _ _ Hb Hb') as [_ S2]. unfold apart in Ha. rewrite Hs, S2 in Ha. lia.
Qed.

Lemma valid_intro p b a : b ∈ blocks p -> b.1 <= a -> a + 8 <= b.1 + b.2 -> valid p a = true.
Proof.
  intros Hb H1 H2. unfold valid. apply existsb_exists. exists b. split; [by apply list_elem_of_In|].
  apply andb_true_iff. split; lia.
Qed.

Lemma chunk_valid p x :
  blocks_ok (blocks p) -> x ∈ all_chunks (blocks p) -> valid p x = true /\ valid p (x + 8) = true /\ 0 < x.
Proof.
  intros Hb Hx. apply elem_of_all_chunks in Hx as (b & Hbi & Hx). apply in_block in Hx as (i & Hi & Ex & H1 & H2).
  pose proof (blocks_ok_in _ _ Hb Hbi) as [Hp Hs].
  split; [apply (valid_intro p b); [done|lia|lia]|]. split; [apply (valid_intro p b); [done|lia|lia]|lia].
Qed.

(** ** The free list *)

Fixpoint free_list (m : gmap Z Z) (h : Z) (l : list Z) : Prop :=
  match l with
  | [] => h = 0
  | c :: l => h = c /\ exists nx, m !! (c + 8) = Some nx /\ free_list m nx l
  end.

Lemma free_list_frame m h l a v :
  (forall x, x ∈ l -> x + 8 <> a) -> free_list m h l -> free_list (<[a := v]> m) h l.
Proof.
  revert h. induction l as [|c l IH]; intros h Ha Hl; [done|]. destruct Hl as (-> & nx & E & Hl).
  split; [done|]. exists nx. split.
  - rewrite lookup_insert_ne; [done|]. intros Eq. apply (Ha c); [by left|done].
  - apply IH; [|done]. intros x Hx. apply Ha. by right.
Qed.

(** The chain of blocks, through their first words. *)
Fixpoint block_list (m : gmap Z Z) (h : Z) (bs : list (Z * Z)) : Prop :=
  match bs with
  | [] => h = 0
  | b :: bs => h = b.1 /\ exists nx, m !! b.1 = Some nx /\ block_list m nx bs
  end.

Lemma block_list_frame m m' h bs :
  (forall b, b ∈ bs -> m' !! b.1 = m !! b.1) -> block_list m h bs -> block_list m' h bs.
Proof.
  revert h. induction bs as [|b bs IH]; intros h Hm Hl; [done|]. destruct Hl as (-> & nx & E & Hl).
  split; [done|]. exists nx. split; [rewrite Hm by left; done|]. apply IH; [|done]. intros b' Hb'. apply Hm. by right.
Qed.

(** The words of a chunk are not first words of blocks. *)
Lemma chunk_not_head bs b x a : blocks_ok bs -> b ∈ bs -> x ∈ all_chunks bs -> a = x \/ a = x + 8 -> a <> b.1.
Proof.
  intros Hb Hbi Hx Ha. apply elem_of_all_chunks in Hx as (b' & Hbi' & Hx). apply in_block in Hx as (i & _ & _ & H1 & H2).
  pose proof (blocks_ok_in _ _ Hb Hbi) as [_ S1]. pose proof (blocks_ok_in _ _ Hb Hbi') as [_ S2].
  destruct (blocks_apart bs b b' Hb Hbi Hbi') as [E|Hap]; [lia|]. unfold apart in Hap. rewrite S1, S2 in Hap.
  assert (16 <= space) by (unfold space; nia). lia.
Qed.

Lemma block_list_insert m h bs x a v :
  blocks_ok bs -> x ∈ all_chunks bs -> a = x \/ a = x + 8 -> block_list m h bs -> block_list (<[a := v]> m) h bs.
Proof.
  intros Hb Hx Ha. apply block_list_frame. intros b Hbi. apply lookup_insert_ne. by eapply chunk_not_head.
Qed.

Definition same_meta (p p' : Pool) : Prop :=
  chunk_per_block_ p' = chunk_per_block_ p /\ free_chunk_header_ p' = free_chunk_header_ p /\
  block_chain_ p' = block_chain_ p /\ block_count_ p' = block_count_ p /\ blocks p' = blocks p.

Lemma wr_ok p a v :
  valid p a = true ->
  wr p a v = Some (mkPool (chunk_per_block_ p) (free_chunk_header_ p) (block_chain_ p) (block_count_ p) (<[a := v]> (mem p)) (blocks p)).
Proof. intros Hv. unfold wr. by rewrite check_bind_true. Qed.

Lemma link_spec k p c :
  (forall a, c <= a -> a + 8 <= c + (Z.of_nat k + 1) * (8 + sz) -> valid p a = true) ->
  exists p', link_chunks k p c sz = Some (c + Z.of_nat k * (8 + sz), p') /\ same_meta p p' /\
    (forall a, a <= c \/ c + Z.of_nat k * (8 + sz) < a -> mem p' !! a = mem p !! a) /\
    (forall x, x ∈ chunks_from k (c + 8 + sz) -> mem p' !! x = Some FREE) /\
    free_list (<[c + Z.of_nat k * (8 + sz) + 8 := 0]> (mem p')) c (chunks_from (S k) c).
Proof.
  revert p c. induction k as [|k IH]; intros p c Hv.
  { exists p. cbn [link_chunks]. split; [do 2 f_equal; lia|]. split; [done|]. split; [done|].
    split; [intros x Hx; by apply not_elem_of_nil in Hx|]. replace (c + Z.of_nat 0 * (8 + sz) + 8) with (c + 8) by lia.
    cbn [chunks_from free_list]. split; [done|]. exists 0. by rewrite lookup_insert_eq. }
  cbn [link_chunks]. unfold CHUNK_NEXT_OFFSET. rewrite wr_ok by (apply Hv; lia). cbn [mbind option_bind].
  set (nx := c + 8 + sz). set (p1 := mkPool _ _ _ _ _ _). rewrite wr_ok by (apply (Hv nx); unfold nx; lia).
  cbn [mbind option_bind]. set (p2 := mkPool _ _ _ _ _ _).
  destruct (IH p2 nx) as (p' & E & Hs & Hfr & Hfree & Hl).
  { intros a Ha1 Ha2. apply (Hv a); unfold nx in *; lia. }
  assert (nx + Z.of_nat k * (8 + sz) = c + Z.of_nat (S k) * (8 + sz)) as Elast by (unfold nx; lia).
  rewrite Elast in *. exists p'. split; [done|]. split; [done|]. split; [|split].
  - intros a Ha. rewrite Hfr by (unfold nx; lia). cbn. rewrite !lookup_insert_ne; [done|unfold nx; lia|lia].
  - intros x Hx. cbn [chunks_from] in Hx. apply elem_of_cons in Hx as [->|Hx]; [|by apply Hfree].
    fold nx. rewrite Hfr by lia. cbn. by rewrite lookup_insert_eq.
  - cbn [chunks_from]. split; [done|]. exists nx. split; [|exact Hl].
    rewrite lookup_insert_ne by lia. rewrite Hfr by (unfold nx; lia). cbn.
    rewrite lookup_insert_ne by (unfold nx; lia). by rewrite lookup_insert_eq.
Qed.

(** ** The invariant *)

Record pool_inv (p : Pool) (live free : list Z) : Prop := {
  pi_cpb : chunk_per_block_ p = n;
  pi_blocks : blocks_ok (blocks p);
  pi_list : free_list (mem p) (free_chunk_header_ p) free;
  pi_perm : free ++ map (fun x => x - 8) live ≡ₚ all_chunks (blocks p);
  pi_free : forall c, c ∈ free -> mem p !! c = Some FREE;
  pi_live : forall x, x ∈ live -> mem p !! (x - 8) = Some ALLOCATED;
  pi_count : block_count_ p = zlen (blocks p);
  pi_chain : block_list (mem p) (block_chain_ p) (blocks p)
}.

Lemma inv_nodup p live free : pool_inv p live free -> NoDup (free ++ map (fun x => x - 8) live).
Proof. intros I. rewrite (pi_perm _ _ _ I). apply NoDup_all_chunks, I. Qed.

Lemma free_in p live free c : pool_inv p live free -> c ∈ free -> c ∈ all_chunks (blocks p).
Proof. intros I Hc. rewrite <- (pi_perm _ _ _ I). apply elem_of_app. by left. Qed.

Lemma elem_of_live x live : x ∈ live <-> x - 8 ∈ map (fun x => x - 8) live.
Proof.
  rewrite !list_elem_of_In, in_map_iff. split; [intros Hx; by exists x|]. intros (y & E & Hy). assert (y = x) as -> by lia. done.
Qed.

Lemma live_chunk x live : x ∈ live -> x - 8 ∈ map (fun x => x - 8) live.
Proof. apply elem_of_live. Qed.

Lemma live_in p live free x : pool_inv p live free -> x ∈ live -> x - 8 ∈ all_chunks (blocks p).
Proof. intros I Hx. rewrite <- (pi_perm _ _ _ I). apply elem_of_app. right. by apply live_chunk. Qed.

(** The size of a block does not wrap around. *)
Context (Hfit : space < 2 ^ 64).

Lemma BLOCK_SPACE_fits p : chunk_per_block_ p = n -> BLOCK_SPACE p sz = space.
Proof using Hsz Hn Hfit.
  unfold space in Hfit. intros E. unfold BLOCK_SPACE, sizeof_Block, CHUNK_NEXT_OFFSET. rewrite E.
  assert (8 + sz <= (8 + sz) * n) as Hle by (rewrite <- (Z.mul_1_r (8 + sz)) at 1; apply Z.mul_le_mono_nonneg_l; lia).
  rewrite (u64_id (8 + sz)) by lia. rewrite (u64_id ((8 + sz) * n)) by lia. apply u64_id. unfold space. lia.
Qed.

(** A free and a live chunk are apart, as are two free or two live ones. *)
Lemma apart_free_live p live free c x :
  pool_inv p live free -> c ∈ free -> x ∈ live -> c + 8 + sz <= x - 8 \/ x + sz <= c.
Proof.
  intros I Hc Hx. pose proof (inv_nodup _ _ _ I) as Hnd. apply NoDup_app in Hnd as (_ & Hd & _).
  assert (c <> x - 8) as Hne by (intros ->; apply (Hd _ Hc); by apply live_chunk).
  destruct (chunks_apart (blocks p) c (x - 8) (pi_blocks _ _ _ I) (free_in _ _ _ _ I Hc) (live_in _ _ _ _ I Hx) Hne)
    as [?|?]; lia.
Qed.

Lemma AllocBlock_spec p live addr :
  pool_inv p live [] -> 0 < addr ->
  Forall (fun b => addr + space <= b.1 \/ b.1 + b.2 <= addr) (blocks p) ->
  exists p', AllocBlock p sz addr = Some (addr + 8, p') /\ pool_inv p' live (block_chunks addr) /\
    free_chunk_header_ p' = addr + 8.
Proof.
  intros I Ha Hf. unfold AllocBlock. rewrite check_bind_true by lia. rewrite (proj2 (Z.eqb_neq _ _)) by lia.
  pose proof (BLOCK_SPACE_fits p (pi_cpb _ _ _ I)) as Es.
  rewrite Es. set (p0 := mkPool _ _ _ _ _ _).
  assert (forall a, addr <= a -> a + 8 <= addr + space -> valid p0 a = true) as Hv.
  { intros a H1 H2. apply (valid_intro p0 (addr, space)); [by left|done|done]. }
  assert (16 + sz <= space) as Hsp by (unfold space; nia).
  rewrite wr_ok by (apply Hv; lia). cbn [mbind option_bind chunk_per_block_ free_chunk_header_ block_chain_ block_count_ mem blocks].
  set (p1 := mkPool _ _ _ _ _ _). rewrite wr_ok by (apply Hv; unfold p1, sizeof_Block; cbn; lia).
  cbn [mbind option_bind chunk_per_block_ free_chunk_header_]. set (p2 := mkPool _ _ _ _ _ _).
  change sizeof_Block with 8 in *. set (k := Z.to_nat (chunk_per_block_ p0 - 1)).
  assert (chunk_per_block_ p0 = n) as En by apply I.
  assert (Z.of_nat k = n - 1) as Ek by (unfold k; lia).
  destruct (link_spec k p2 (addr + 8)) as (p3 & E & (M1 & M2 & M3 & M4 & M5) & Hfr & Hfree & Hl).
  { intros a H1 H2. apply (Hv a); [lia|]. rewrite Ek in H2. unfold space. lia. }
  match goal with |- context [link_chunks ?a ?b ?c ?d] => change (link_chunks a b c d) with (link_chunks k p2 (addr + 8) sz) end.
  rewrite E. cbn [mbind option_bind].
  change CHUNK_NEXT_OFFSET with 8. rewrite wr_ok.
  2:{ unfold valid. rewrite M5. apply (Hv (addr + 8 + Z.of_nat k * (8 + sz) + 8)); rewrite Ek; unfold space; lia. }
  cbn [mbind option_bind]. rewrite M2. eexists. split; [done|]. split; [|done].
  assert (block_chunks addr = chunks_from (S k) (addr + 8)) as Ebc.
  { unfold block_chunks. f_equal. lia. }
  assert (forall a, a + 8 <= addr \/ addr + space <= a -> <[addr + 8 + Z.of_nat k * (8 + sz) + 8 := 0]> (mem p3) !! a = mem p !! a) as Hout.
  { intros a Hoa. rewrite lookup_insert_ne by (rewrite Ek; unfold space in *; lia). rewrite Hfr by (rewrite Ek; unfold space in *; lia).
    cbn. rewrite !lookup_insert_ne; [done|lia|lia]. }
  assert (forall x, x ∈ all_chunks (blocks p) -> x + 16 + sz <= addr + 8 \/ addr + space <= x) as Hold.
  { intros x Hx. apply elem_of_all_chunks in Hx as (b & Hb & Hx). apply in_block in Hx as (i & _ & _ & H1 & H2).
    rewrite Forall_forall in Hf. pose proof (blocks_ok_in _ _ (pi_blocks _ _ _ I) Hb) as [_ S2].
    destruct (Hf _ Hb) as [?|?]; [right; lia|left; lia]. }
  split; cbn; rewrite ?M1, ?M2, ?M3, ?M4, ?M5; cbn; try done.
  - split; [done|]. split; [done|]. split; [|apply I]. eapply Forall_impl; [exact Hf|]. intros b. unfold apart. cbn. lia.
  - rewrite Ebc. exact Hl.
  - unfold all_chunks. cbn. fold (all_chunks (blocks p)). rewrite <- (pi_perm _ _ _ I). done.
  - intros c Hc. rewrite lookup_insert_ne.
    2:{ intros Eq. pose proof (in_block addr c Hc) as (j & Hj & Ec & _). rewrite Ek in Eq. nia. }
    rewrite Ebc in Hc. cbn [chunks_from] in Hc. apply elem_of_cons in Hc as [->|Hc]; [|by apply Hfree].
    rewrite Hfr by lia. cbn. by rewrite lookup_insert_eq.
  - intros x Hx. pose proof (live_in _ _ _ _ I Hx) as Hin. apply Hold in Hin. rewrite Hout by lia. by apply I.
  - rewrite (pi_count _ _ _ I), zlen_cons. lia.
  - split; [done|]. exists (block_chain_ p). split.
    + rewrite lookup_insert_ne by (rewrite Ek; nia). rewrite Hfr by lia. cbn.
      rewrite lookup_insert_ne by lia. by rewrite lookup_insert_eq.
    + apply block_list_frame with (m := mem p); [|apply I]. intros b Hb. apply Hout. rewrite Forall_forall in Hf.
      pose proof (blocks_ok_in _ _ (pi_blocks _ _ _ I) Hb) as [_ S2]. destruct (Hf _ Hb) as [?|?]; lia.
Qed.

Lemma take_first p live c free :
  pool_inv p live (c :: free) ->
  exists p', (next ← rd p (free_chunk_header_ p + 8); wr (with_header p next) c ALLOCATED) = Some p' /\
    free_chunk_header_ p = c /\ 0 < c /\ pool_inv p' (c + 8 :: live) free.
Proof.
  intros I. pose proof I as [Hc Hb Hl Hp Hf Hli Hcn Hch]. destruct Hl as (Eh & nx & Enx & Hl).
  assert (c ∈ all_chunks (blocks p)) as Hin by (eapply free_in; [done|by left]).
  destruct (chunk_valid p c Hb Hin) as (V1 & V2 & Hpos).
  unfold rd. rewrite Eh, check_bind_true by done. rewrite Enx. cbn [mbind option_bind].
  rewrite wr_ok by exact V1. eexists. split; [done|]. split; [done|]. split; [done|].
  pose proof (inv_nodup _ _ _ I) as Hnd. cbn in Hnd. apply NoDup_cons in Hnd as [Hnin Hnd].
  split; cbn; try done.
  - apply free_list_frame; [|done]. intros x Hx Eq.
    assert (x ∈ all_chunks (blocks p)) as Hxin by (eapply free_in; [done|by right]).
    destruct (chunks_apart (blocks p) x c) as [?|?]; try done; [|lia|lia].
    intros ->. apply Hnin. apply elem_of_app. by left.
  - replace (c + 8 - 8) with c by lia. rewrite <- Hp. symmetry. exact (Permutation_middle free (map (fun x => x - 8) live) c).
  - intros x Hx. rewrite lookup_insert_ne; [apply Hf; by right|]. intros ->. apply Hnin. apply elem_of_app. by left.
  - intros x Hx. apply elem_of_cons in Hx as [->|Hx]; [replace (c + 8 - 8) with c by lia; by rewrite lookup_insert_eq|].
    rewrite lookup_insert_ne; [by apply Hli|]. intros ->. apply Hnin. apply elem_of_app. right. by apply live_chunk.
  - apply (block_list_insert _ _ _ c); [done|done|by left|done].
Qed.

Context (sz0 : Z) (Hsz0 : 0 < sz0) (Halign : ALIGN_SIZE sz0 = sz).

Lemma Malloc_spec p live free addr :
  pool_inv p live free -> pool_op_ok sz0 (p, live) (PMalloc addr) ->
  exists ptr p' free', Malloc p sz0 addr = Some (ptr, p') /\
    pool_inv p' (if ptr =? 0 then live else ptr :: live) free' /\ (ptr = 0 -> free = [] /\ addr = 0).
Proof.
  intros I Hok. unfold Malloc. rewrite (proj2 (Z.eqb_neq _ _)) by lia. rewrite Halign. cbv zeta.
  assert (forall q free1, pool_inv q live free1 -> free1 <> [] ->
    exists ptr p' free', (let header := free_chunk_header_ q in
      if header =? 0 then assert! free_chunk_header_ q =? 0; Some (0, q)
      else next ← rd q (free_chunk_header_ q + CHUNK_NEXT_OFFSET);
           p ← wr (with_header q next) header ALLOCATED; Some (header + CHUNK_NEXT_OFFSET, p)) = Some (ptr, p') /\
      pool_inv p' (if ptr =? 0 then live else ptr :: live) free' /\ ptr <> 0) as Htake.
  { intros q [|c rest] Iq Hne; [done|]. destruct (take_first q live c rest Iq) as (p' & E & Eh & Hpos & I').
    exists (c + 8), p', rest. cbv zeta. rewrite Eh in *. change CHUNK_NEXT_OFFSET with 8.
    rewrite (proj2 (Z.eqb_neq c 0)) by lia. split.
    - destruct (rd q (c + 8)) as [nx|]; [|done]. cbn in *. by rewrite E.
    - rewrite (proj2 (Z.eqb_neq (c + 8) 0)) by lia. split; [done|lia]. }
  destruct free as [|c rest].
  - pose proof (pi_list _ _ _ I) as Hl. cbn in Hl. rewrite Hl. cbn [Z.eqb]. destruct Hok as [->|[Ha Hf]].
    + unfold AllocBlock. rewrite check_bind_true by lia. cbn. rewrite Hl. cbn. by exists 0, p, [].
    + rewrite Halign in Hf.
      pose proof (BLOCK_SPACE_fits p (pi_cpb _ _ _ I)) as Es.
      rewrite Es in Hf. destruct (AllocBlock_spec p live addr I Ha Hf) as (q & -> & Iq & Hh). cbn [mbind option_bind].
      destruct (Htake q (block_chunks addr) Iq) as (ptr & p' & free' & E & I' & Hne).
      { unfold block_chunks. by destruct (Z.to_nat n) eqn:En; [lia|]. }
      rewrite Hh in E. exists ptr, p', free'. rewrite Hh. by split_and!.
  - assert (free_chunk_header_ p = c) as Eh by (pose proof (pi_list _ _ _ I) as Hl; apply Hl).
    assert (0 < c) as Hpos by (eapply chunk_valid; [apply I|eapply free_in; [exact I|by left]]).
    destruct (Htake p (c :: rest) I) as (ptr & p' & free' & E & I' & Hne); [done|]. cbv zeta in E.
    rewrite Eh in *. rewrite (proj2 (Z.eqb_neq c 0)) in * by lia. cbn [mbind option_bind].
    rewrite Eh, (proj2 (Z.eqb_neq c 0)) by lia. by exists ptr, p', free'.
Qed.

Lemma filter_live (l : list Z) ptr :
  NoDup l -> ptr ∈ l -> l ≡ₚ ptr :: List.filter (fun x => negb (x =? ptr)) l.
Proof.
  induction l as [|y l IH]; intros Hnd Hin; [by apply not_elem_of_nil in Hin|].
  apply NoDup_cons in Hnd as [Hy Hnd]. cbn. destruct (Z.eqb_spec y ptr) as [->|Hne]; cbn [negb].
  - f_equiv. clear IH Hin Hnd. induction l as [|z l IH]; [done|]. cbn. rewrite not_elem_of_cons in Hy. destruct Hy as [Hz Hy].
    rewrite (proj2 (Z.eqb_neq z ptr)) by congruence. cbn. f_equiv. by apply IH.
  - apply elem_of_cons in Hin as [->|Hin]; [done|]. rewrite (IH Hnd Hin) at 1. apply Permutation_swap.
Qed.

Lemma NoDup_live p live free : pool_inv p live free -> NoDup live.
Proof.
  intros I. pose proof (inv_nodup _ _ _ I) as Hnd. apply NoDup_app in Hnd as (_ & _ & Hnd).
  apply (NoDup_fmap_1 (fun x => x - 8)). exact Hnd.
Qed.

Lemma Free_spec p live free ptr :
  pool_inv p live free -> ptr ∈ live ->
  exists p', Free p ptr = Some p' /\ pool_inv p' (List.filter (fun x => negb (x =? ptr)) live) (ptr - 8 :: free).
Proof.
  intros I Hin. pose proof I as [Hc Hb Hl Hp Hf Hli Hcn Hbl]. pose proof (live_in _ _ _ _ I Hin) as Hch.
  destruct (chunk_valid p (ptr - 8) Hb Hch) as (V1 & V2 & Hpos).
  unfold Free. rewrite (proj2 (Z.eqb_neq _ _)) by lia. change CHUNK_NEXT_OFFSET with 8.
  unfold rd. rewrite check_bind_true by done. rewrite (Hli _ Hin). cbn [mbind option_bind].
  rewrite check_bind_true by done. rewrite wr_ok by done. cbn [mbind option_bind]. rewrite wr_ok by exact V2.
  cbn [mbind option_bind]. eexists. split; [done|].
  assert (forall c, c ∈ free -> c + 8 + sz <= ptr - 8 \/ ptr + sz <= c) as Hap by (intros c Hcf; by eapply apart_free_live).
  pose proof (filter_live live ptr (NoDup_live _ _ _ I) Hin) as Hperm.
  split; cbn; try done.
  - split; [done|]. exists (free_chunk_header_ p). rewrite lookup_insert_eq. split; [done|].
    apply free_list_frame; [intros x Hx; specialize (Hap x Hx); lia|].
    apply free_list_frame; [intros x Hx; specialize (Hap x Hx); lia|done].
  - rewrite <- Hp. rewrite Hperm at 2. cbn. exact (Permutation_middle free _ (ptr - 8)).
  - intros c Hcf. rewrite lookup_insert_ne.
    2:{ apply elem_of_cons in Hcf as [->|Hcf]; [lia|]. specialize (Hap c Hcf). lia. }
    apply elem_of_cons in Hcf as [->|Hcf]; [by rewrite lookup_insert_eq|]. specialize (Hap c Hcf).
    rewrite lookup_insert_ne by lia. by apply Hf.
  - intros x Hx. apply list_elem_of_In, filter_In in Hx as [Hx Hne]. apply list_elem_of_In in Hx.
    apply negb_true_iff, Z.eqb_neq in Hne. pose proof (live_in _ _ _ _ I Hx) as Hxc.
    destruct (chunks_apart (blocks p) (x - 8) (ptr - 8) Hb Hxc Hch) as [?|?]; [lia| |];
      (rewrite !lookup_insert_ne by lia; by apply Hli).
  - apply (block_list_insert _ _ _ (ptr - 8)); [done|done|by right|].
    apply (block_list_insert _ _ _ (ptr - 8)); [done|done|by left|done].
Qed.

Lemma Write_spec p live free ptr v :
  pool_inv p live free -> ptr ∈ live -> exists p', wr p ptr v = Some p' /\ pool_inv p' live free.
Proof.
  intros I Hin. pose proof I as [Hc Hb Hl Hp Hf Hli Hcn Hbl]. pose proof (live_in _ _ _ _ I Hin) as Hch.
  destruct (chunk_valid p (ptr - 8) Hb Hch) as (V1 & V2 & Hpos). replace (ptr - 8 + 8) with ptr in V2 by lia.
  rewrite wr_ok by done. eexists. split; [done|].
  assert (forall c, c ∈ free -> c + 8 + sz <= ptr - 8 \/ ptr + sz <= c) as Hap by (intros c Hcf; by eapply apart_free_live).
  split; cbn; try done.
  - apply free_list_frame; [intros x Hx; specialize (Hap x Hx); lia|done].
  - intros c Hcf. specialize (Hap c Hcf). rewrite lookup_insert_ne by lia. by apply Hf.
  - intros x Hx. rewrite lookup_insert_ne; [by apply Hli|]. intros Eq. pose proof (live_in _ _ _ _ I Hx) as Hxc.
    destruct (decide (x = ptr)) as [->|Hne]; [lia|].
    destruct (chunks_apart (blocks p) (x - 8) (ptr - 8) Hb Hxc Hch) as [?|?]; lia.
  - apply (block_list_insert _ _ _ (ptr - 8)); [done|done|right; lia|done].
Qed.

(** The destructor releases every block, once. *)
Lemma destroy_spec bs : forall p, blocks p = bs -> blocks_ok bs -> block_list (mem p) (block_chain_ p) bs ->
  exists p', destroy_Pool (length bs) p = Some p' /\ blocks p' = [].
Proof.
  induction bs as [|b bs IH]; intros p Hbs Hok Hl; cbn [destroy_Pool length].
  - cbn in Hl. rewrite Hl. cbn. by exists p.
  - destruct Hl as (Eh & nx & Enx & Hl). pose proof Hok as (Hpos & Hsp & Hf & Hok').
    rewrite Eh. rewrite (proj2 (Z.eqb_neq b.1 0)) by lia.
    assert (8 <= b.2) by (rewrite Hsp; unfold space; nia). unfold rd.
    rewrite check_bind_true by (apply (valid_intro p b); [rewrite Hbs; left|lia|lia]).
    rewrite Enx. cbn [mbind option_bind]. unfold free_block. rewrite Hbs. cbn [existsb]. rewrite Z.eqb_refl.
    cbn [orb check mbind option_bind]. apply IH; cbn.
    + rewrite Z.eqb_refl. cbn [negb]. clear -Hf Hok' Hsp Hsz Hn. rewrite Forall_forall in Hf.
      apply (List.forallb_filter_id (fun x => negb (x.1 =? b.1))). apply forallb_forall. intros b' Hb'.
      apply list_elem_of_In in Hb'. apply negb_true_iff, Z.eqb_neq. intros E.
      pose proof (blocks_ok_in _ _ Hok' Hb') as [_ S2]. assert (0 < space) by (unfold space; nia).
      destruct (Hf _ Hb') as [?|?]; lia.
    + done.
    + done.
Qed.

Lemma run_pools_spec s os free :
  pool_inv s.1 s.2 free -> pool_ops_ok sz0 s os ->
  exists s' free', run_pools sz0 s os = Some s' /\ pool_inv s'.1 s'.2 free'.
Proof.
  revert s free. induction os as [|o os IH]; intros [p live] free I Hok; [by exists (p, live), free|].
  destruct Hok as [Ho Hok]. cbn [fst snd] in I.
  assert (exists s1 free1, run_pool sz0 (p, live) o = Some s1 /\ pool_inv s1.1 s1.2 free1) as (s1 & free1 & E & I1).
  { destruct o; cbn [run_pool].
    - destruct (Malloc_spec p live free addr I Ho) as (ptr & p' & free' & -> & I' & _). cbn [mbind option_bind].
      by eexists _, free'.
    - destruct (Free_spec p live free ptr I Ho) as (p' & -> & I'). cbn [mbind option_bind]. by eexists _, _.
    - destruct (Write_spec p live free ptr v I Ho) as (p' & -> & I'). cbn [mbind option_bind]. by eexists _, _. }
  cbn [run_pools]. rewrite E. cbn [mbind option_bind]. eapply IH; [exact I1|]. by apply Hok.
Qed.

Lemma make_Pool_inv : pool_inv (make_Pool n) [] [].
Proof. split; cbn; try done; intros x Hx; by apply not_elem_of_nil in Hx. Qed.

End pool.

(** ** Properties *)

(** C10 Chunks given out never overlap, as long as the size of a block is less than 2^64:
    after any sequence of [Malloc] of one size, [Free] and stores by the users to the
    start of their chunks, with malloc giving fresh memory or failing, the chunks in use
    lie inside the pool's blocks, apart from each other and from the pool's own words,
    the pool never accesses memory outside its blocks and no assertion fails; malloc is
    called only for blocks that are needed; destroying the pool releases every block. *)
Theorem pool_chunks_disjoint (sz n : Z) (os : list pool_op) :
  0 < sz -> 1 <= n -> 8 + (8 + ALIGN_SIZE sz) * n < 2 ^ 64 -> pool_ops_ok sz (make_Pool n, []) os ->
  exists p live, run_pools sz (make_Pool n, []) os = Some (p, live) /\ NoDup live /\
    (forall x y, x ∈ live -> y ∈ live -> x <> y -> x + ALIGN_SIZE sz <= y - 8 \/ y + ALIGN_SIZE sz <= x - 8) /\
    (forall x, x ∈ live -> exists b, b ∈ blocks p /\ b.1 + 16 <= x /\ x + ALIGN_SIZE sz <= b.1 + b.2) /\
    block_count_ p = zlen (blocks p) /\ zlen live <= n * block_count_ p /\
    exists p', destroy_Pool (length (blocks p)) p = Some p' /\ blocks p' = [].
Proof.
  intros Hsz Hn Hfit Hok. assert (8 <= ALIGN_SIZE sz) as Hal by (unfold ALIGN_SIZE, chunk_next_space; case_bool; lia).
  destruct (run_pools_spec (ALIGN_SIZE sz) n Hal Hn Hfit sz Hsz eq_refl (make_Pool n, []) os [] (make_Pool_inv _ n) Hok)
    as ([p live] & free & E & I). cbn [fst snd] in I. exists p, live. split; [done|].
  split; [by eapply (NoDup_live (ALIGN_SIZE sz) n)|]. split; [|split; [|split; [|split]]].
  - intros x y Hx Hy Hne.
    destruct (chunks_apart (ALIGN_SIZE sz) n Hal Hn (blocks p) (x - 8) (y - 8)) as [?|?];
      [apply I|by eapply (live_in _ _ p)|by eapply (live_in _ _ p)|lia|lia|lia].
  - intros x Hx. pose proof (live_in _ _ _ _ _ _ I Hx) as Hin. apply elem_of_all_chunks in Hin as (b & Hb & Hin).
    apply (in_block _ _ Hal Hn) in Hin as (j & _ & _ & H1 & H2). exists b. split; [done|].
    pose proof (blocks_ok_in _ _ _ _ (pi_blocks _ _ _ _ _ I) Hb) as [_ ->]. lia.
  - apply I.
  - pose proof (pi_perm _ _ _ _ _ I) as Hp. apply Permutation_length in Hp. rewrite length_app, length_map in Hp.
    assert (forall bs, Z.of_nat (length (all_chunks (ALIGN_SIZE sz) n bs)) = n * zlen bs) as Hlen.
    { clear -Hn. induction bs as [|b bs IH]; [change (zlen (@nil (Z * Z))) with 0; change (Z.of_nat (length (all_chunks (ALIGN_SIZE sz) n []))) with 0; lia|]. unfold all_chunks in *. cbn [map concat]. rewrite length_app, zlen_cons.
      assert (forall k c, length (chunks_from (ALIGN_SIZE sz) k c) = k) as Hk
        by (induction k as [|k IHk]; intros c; cbn; [done|by rewrite IHk]).
      unfold block_chunks in *. rewrite Hk. rewrite Nat2Z.inj_add, IH, Z2Nat.id by lia. ring. }
    specialize (Hlen (blocks p)). rewrite <- (pi_count _ _ _ _ _ I) in Hlen. unfold zlen. lia.
  - eapply (destroy_spec (ALIGN_SIZE sz) n); [done|done|done|apply I|apply I].
Qed.

(** The condition on the operations as a function. *)
Definition pool_op_okb (sz : Z) (s : Pool * list Z) (o : pool_op) : bool :=
  let '(p, live) := s in
  match o with
  | PMalloc addr => (addr =? 0) ||
    ((0 <? addr) && forallb (fun b => (addr + BLOCK_SPACE p (ALIGN_SIZE sz) <=? b.1) || (b.1 + b.2 <=? addr)) (blocks p))
  | PFree ptr | PWrite ptr _ => bool_decide (ptr ∈ live)
  end.

Fixpoint pool_ops_okb (sz : Z) (s : Pool * list Z) (os : list pool_op) : bool :=
  match os with
  | [] => true
  | o :: os => pool_op_okb sz s o && match run_pool sz s o with Some s => pool_ops_okb sz s os | None => true end
  end.

Lemma pool_ops_okb_sound sz s os : pool_ops_okb sz s os = true -> pool_ops_ok sz s os.
Proof.
  revert s. induction os as [|o os IH]; intros s E; [done|]. cbn [pool_ops_okb] in E.
  apply andb_true_iff in E as [Eo E]. split; [|intros s' Es; rewrite Es in E; auto].
  destruct s as [p live], o; cbn [pool_op_ok pool_op_okb] in *; [|by apply bool_decide_eq_true in Eo..].
  apply orb_true_iff in Eo as [Eo|Eo]; [left; lia|right]. apply andb_true_iff in Eo as [Ep Ef]. split; [lia|].
  rewrite Forall_forall. intros b Hb. rewrite forallb_forall in Ef. apply list_elem_of_In, Ef in Hb.
  apply orb_true_iff in Hb. lia.
Qed.

Definition demo_pool_ops : list pool_op :=
  [PMalloc 4096; PWrite 4112 77; PMalloc 1; PMalloc 8192; PFree 4112; PMalloc 1; PWrite 4112 78; PFree 4144].

Lemma pool_chunks_disjoint_witness :
  exists p live, run_pools 24 (make_Pool 2, []) demo_pool_ops = Some (p, live) /\ NoDup live /\
    (forall x y, x ∈ live -> y ∈ live -> x <> y -> x + 24 <= y - 8 \/ y + 24 <= x - 8) /\
    (forall x, x ∈ live -> exists b, b ∈ blocks p /\ b.1 + 16 <= x /\ x + 24 <= b.1 + b.2) /\
    block_count_ p = zlen (blocks p) /\ zlen live <= 2 * block_count_ p /\
    exists p', destroy_Pool (length (blocks p)) p = Some p' /\ blocks p' = [].
Proof.
  apply (pool_chunks_disjoint 24 2 demo_pool_ops); [lia|lia|reflexivity|]. apply pool_ops_okb_sound. vm_compute. reflexivity.
Defined.

(** ** Defects *)

(** The size of a block is computed in size_t without a check. A chunk of 2^64 - 8 bytes
    needs 8 bytes by that computation, and the first chunk's status is stored past the
    block. *)
Lemma block_space_wraps :
  BLOCK_SPACE (make_Pool 1) (2 ^ 64 - 8) = 8 /\ Malloc (make_Pool 1) (2 ^ 64 - 8) 4096 = None.
Proof. split; vm_compute; reflexivity. Qed.

(** [Shrink] frees blocks whose chunks stay on the free list: the next [Malloc]
    reads a block that is gone. *)
Lemma shrink_leaves_dangling :
  let used := run_pools 8 (make_Pool 1, []) [PMalloc 1000; PMalloc 2000; PMalloc 3000; PFree 2016] in
  is_Some ('(p, _) ← used; Shrink 10 p 8) /\
  ('(p, _) ← used; p ← Shrink 10 p 8; Malloc p 8 4000) = None.
Proof. cbn zeta. split; [eexists; vm_compute; reflexivity|vm_compute; reflexivity]. Qed.

(** When it frees the last block of the chain, or all of them, it goes on at a
    null pointer. *)
Lemma shrink_null_block :
  ('(p, _) ← run_pools 8 (make_Pool 1, []) [PMalloc 1000; PFree 1016]; Shrink 10 p 8) = None /\
  ('(p, _) ← run_pools 8 (make_Pool 1, []) [PMalloc 1000; PMalloc 2000; PFree 1016]; Shrink 10 p 8) = None.
Proof. split; vm_compute; reflexivity. Qed.
