(* ===== verification/ObjectPool.v ===== *)
(** * Pools of objects: kanon/mem/object_memory_pool.h, object_pool_allocator.h,
      and the connection pool of kanon/net/tcp_server.cc

    The two adapters that give out chunks of a FixedChunkMemoryPool for objects of
    one type, and the pool shared by threads: TcpServer allocates connections in
    the thread of its own loop, and the last owner of a connection, in general the
    thread of an IO loop, gives the chunk back.  The pool has no lock, so that the
    steps of [Malloc] and [Free] interleave.  Executed alone the steps are the
    operations of MemPool.v. *)

From Stdlib Require Import ZArith Lia.
From stdpp Require Import gmap.
From S2P Require Import Prelude MemPool.

(** ** The adapters *)

Section object_pool.
Context (sizeof_T : Z).

Definition make_ObjectMemoryPool (chunk_per_block : Z) : Pool := make_Pool chunk_per_block.
Definition ObjectMalloc (p : Pool) (addr : Z) : option (Z * Pool) := Malloc p sizeof_T addr.
Definition ObjectFree (p : Pool) (ptr : Z) : option Pool := Free p ptr.
Definition ObjectShrink (fuel : nat) (p : Pool) : option Pool := Shrink fuel p sizeof_T.
Definition ObjectGetUsage (p : Pool) : Z := GetUsage p sizeof_T.

(** [allocate]: an exception, or the chunk; a failed [Malloc] is returned as null. *)
Inductive allocation := Throws | Chunk_at (ptr : Z).

Definition allocate (p : Pool) (n addr : Z) : option (allocation * Pool) :=
  if 1 <? n then Some (Throws, p)
  else '(ptr, p) ← Malloc p sizeof_T addr; Some (Chunk_at ptr, p).

Definition deallocate (p : Pool) (ptr n : Z) : option Pool := Free p ptr.

(** ** The pool among threads *)

(** Where a thread is in [Malloc] or [Free]: each constructor is the state before
    an access to the shared words. *)
Inductive pool_pc :=
| MHeader                        (* header = free_chunk_header_ *)
| MAlloc                         (* header = AllocBlock(sz) *)
| MReload (header : Z)           (* free_chunk_header_->next: the pointer *)
| MNext (header again : Z)       (* free_chunk_header_->next: the field *)
| MStore (header next : Z)       (* free_chunk_header_ = ... *)
| MStatus (header : Z)           (* header->status = ALLOCATED *)
| FCheck (chunk : Z)             (* assert(status == ALLOCATED) *)
| FStatus (chunk : Z)            (* status = FREE *)
| FLoad (chunk : Z)              (* the value of free_chunk_header_ *)
| FNext (chunk head : Z)         (* next = free_chunk_header_ *)
| FStore (chunk : Z)             (* free_chunk_header_ = new_free_chunk *)
| Done (result : Z).

Definition pool_step (addr : Z) (pc : pool_pc) (p : Pool) : option (pool_pc * Pool) :=
  match pc with
  | MHeader =>
    let header := free_chunk_header_ p in
    Some (if header =? 0 then MAlloc else MReload header, p)
  | MAlloc =>
    '(header, p) ← AllocBlock p (ALIGN_SIZE sizeof_T) addr;
    if header =? 0 then assert! free_chunk_header_ p =? 0; Some (Done 0, p) else Some (MReload header, p)
  | MReload header => Some (MNext header (free_chunk_header_ p), p)
  | MNext header again => next ← rd p (again + CHUNK_NEXT_OFFSET); Some (MStore header next, p)
  | MStore header next => Some (MStatus header, with_header p next)
  | MStatus header => p ← wr p header ALLOCATED; Some (Done (header + CHUNK_NEXT_OFFSET), p)
  | FCheck chunk => status ← rd p chunk; assert! status =? ALLOCATED; Some (FStatus chunk, p)
  | FStatus chunk => p ← wr p chunk FREE; Some (FLoad chunk, p)
  | FLoad chunk => Some (FNext chunk (free_chunk_header_ p), p)
  | FNext chunk head => p ← wr p (chunk + CHUNK_NEXT_OFFSET) head; Some (FStore chunk, p)
  | FStore chunk => Some (Done 0, with_header p chunk)
  | Done r => None
  end.

(** The calls, up to their first access. *)
Definition start_Malloc : pool_pc := if sizeof_T =? 0 then Done 0 else MHeader.
Definition start_Free (ptr : Z) : pool_pc := if ptr =? 0 then Done 0 else FCheck (ptr - CHUNK_NEXT_OFFSET).

(** One thread alone. *)
Fixpoint run_alone (fuel : nat) (addr : Z) (pc : pool_pc) (p : Pool) : option (Z * Pool) :=
  match pc with
  | Done r => Some (r, p)
  | _ =>
    match fuel with
    | O => None
    | S fuel => '(pc, p) ← pool_step addr pc p; run_alone fuel addr pc p
    end
  end.

(** Two threads: [true] is a step of the first. *)
Fixpoint run_two (schedule : list bool) (addr : Z) (pc1 pc2 : pool_pc) (p : Pool) : option (pool_pc * pool_pc * Pool) :=
  match schedule with
  | [] => Some (pc1, pc2, p)
  | first :: schedule =>
    if first : bool then '(pc1, p) ← pool_step addr pc1 p; run_two schedule addr pc1 pc2 p
    else '(pc2, p) ← pool_step addr pc2 p; run_two schedule addr pc1 pc2 p
  end.

Definition finished (pc : pool_pc) : bool := match pc with Done _ => true | _ => false end.

Lemma run_alone_step fuel addr pc p :
  finished pc = false -> run_alone (S fuel) addr pc p = '(pc, p) ← pool_step addr pc p; run_alone fuel addr pc p.
Proof using. by destruct pc. Qed.

Lemma run_alone_done fuel addr r p : run_alone fuel addr (Done r) p = Some (r, p).
Proof using. by destruct fuel. Qed.

Ltac alone_step := rewrite run_alone_step by done; cbn [pool_step mbind option_bind].

(** The steps of one thread, with nothing between them, are [Malloc] and [Free]. *)
Lemma malloc_rest fuel addr header p :
  run_alone (4 + fuel) addr (MReload header) p =
    (next ← rd p (free_chunk_header_ p + CHUNK_NEXT_OFFSET);
     p ← wr (with_header p next) header ALLOCATED; Some (header + CHUNK_NEXT_OFFSET, p)).
Proof using.
  cbn [Nat.add]. alone_step. alone_step. destruct (rd p _) as [next|]; [|done]. cbn [mbind option_bind]. alone_step.
  alone_step. destruct (wr _ header ALLOCATED); [|done]. apply run_alone_done.
Qed.

Lemma malloc_alone p addr : run_alone 6 addr start_Malloc p = Malloc p sizeof_T addr.
Proof using.
  unfold start_Malloc, Malloc. destruct (sizeof_T =? 0); [done|]. alone_step.
  destruct (free_chunk_header_ p =? 0) eqn:Eh; cbn [mbind option_bind].
  - alone_step. destruct (AllocBlock p (ALIGN_SIZE sizeof_T) addr) as [[header p']|]; [|done].
    cbn [mbind option_bind]. destruct (header =? 0); [|apply (malloc_rest 0)].
    destruct (check _); [|done]. apply run_alone_done.
  - rewrite Eh. apply (malloc_rest 1).
Qed.

Lemma free_alone p ptr addr : run_alone 5 addr (start_Free ptr) p = p ← Free p ptr; Some (0, p).
Proof using.
  unfold start_Free, Free. destruct (ptr =? 0); [done|]. alone_step. destruct (rd p _) as [st|]; [|done].
  cbn [mbind option_bind]. destruct (check _); [|done]. cbn [mbind option_bind]. alone_step.
  destruct (wr p _ FREE) as [p1|]; [|done]. cbn [mbind option_bind]. alone_step. alone_step.
  destruct (wr p1 _ _); [|done]. cbn [mbind option_bind]. alone_step. apply run_alone_done.
Qed.
End object_pool.

(** ** Properties *)

(** A call of the pool by one thread, executed in the steps that other threads can
    see, with no step of another thread between them, is the whole operation of the
    pool: the pool is right for one thread, and for threads that exclude each other. *)
Theorem pool_steps_refine (sizeof_T : Z) (p : Pool) (ptr addr : Z) :
  run_alone sizeof_T 6 addr (start_Malloc sizeof_T) p = Malloc p sizeof_T addr /\
  run_alone sizeof_T 5 addr (start_Free ptr) p = p ← Free p ptr; Some (0, p).
Proof. split; [apply malloc_alone|apply free_alone]. Qed.

(** ** Defects *)

(** Three chunks of one block; the first is in use, the other two are free. *)
Definition one_used : option (Pool * list Z) := run_pools 8 (make_Pool 3, []) [PMalloc 1000].

(** The loop's thread allocates a connection while an IO thread releases another:
    the second chunk is given out and stays on the free list, behind the released
    one, and two later allocations get the first and the second chunk. *)
Lemma unlocked_pool_reuses_chunk :
  (s ← one_used;
   '(pc1, pc2, p) ← run_two 8 [true; true; true; false; false; false; false; true; true; false] 0
                      (start_Malloc 8) (start_Free 1016) s.1;
   '(x, p) ← Malloc p 8 0; '(y, p) ← Malloc p 8 0;
   Some (pc1, pc2, x, y)) = Some (Done 1032, Done 0, 1016, 1032).
Proof. vm_compute. reflexivity. Qed.

(** [allocate] returns null when there is no memory, where an allocator throws:
    the caller constructs its object there. *)
Lemma allocate_returns_null : allocate 8 (make_Pool 3) 1 0 = Some (Chunk_at 0, make_Pool 3).
Proof. reflexivity. Qed.
