(* ===== verification/LinearPool.v ===== *)
(** * The pool of equal blocks: kanon/mem/linear_fixed_memory_pool.h

    [LinearFixedMemoryPool<T>]: one array of [size_] blocks of [sizeof(T)] bytes,
    the set of the indices of its free blocks, and the C heap for what the array
    cannot serve. Addresses are integers; the answers of [malloc] and
    [reallocarray] are arguments of the operations. *)

From Stdlib Require Import ZArith Lia List.
From stdpp Require Import list.
From S2P Require Import Prelude.
Local Open Scope Z_scope.

Section pool.
(** [BLOCK_SIZE], which is [sizeof(T)]. *)
Context (BLOCK_SIZE : Z).

(** The pool and, of the C heap, the blocks that [Malloc] took from it. *)
Record LinearFixedMemoryPool := mkPool {
  pool_ : Z;
  size_ : Z;
  free_hset_ : list Z;
  c_heap : list Z
}.

(** The blocks at [p] and at [q] share no byte. *)
Definition apart (p q : Z) : Prop := p + BLOCK_SIZE <= q \/ q + BLOCK_SIZE <= p.

(** [free_hset_.insert(i)] for the indices from [i], [n] of them *)
Fixpoint insert_indices (i : Z) (n : nat) : list Z :=
  match n with O => [] | S n => i :: insert_indices (i + 1) n end.

(** The constructor; a null answer of [malloc] makes it throw. *)
Definition make_pool (answer : option Z) (size : Z) : option LinearFixedMemoryPool :=
  base ← answer; Some (mkPool base size (insert_indices 0 (Z.to_nat size)) []).

(** [Malloc]; [pick] is the first element of the hash set in its own order,
    [answer] what the C heap gives. *)
Definition Malloc (pick : list Z -> option Z) (answer : option Z) (s : LinearFixedMemoryPool)
  : option (option Z * LinearFixedMemoryPool) :=
  match free_hset_ s with
  | [] =>
      Some (answer, mkPool (pool_ s) (size_ s) [] (match answer with Some p => p :: c_heap s | None => c_heap s end))
  | _ =>
      ret ← pick (free_hset_ s);
      Some (Some (pool_ s + ret * BLOCK_SIZE),
            mkPool (pool_ s) (size_ s) (List.remove Z.eq_dec ret (free_hset_ s)) (c_heap s))
  end.

(** [std::unordered_set::insert] *)
Definition hset_insert (i : Z) (l : list Z) : list Z := if bool_decide (i ∈ l) then l else i :: l.

(** [free] of the C library; of what it did not give it is undefined. *)
Definition c_free (p : Z) (l : list Z) : option (list Z) :=
  if bool_decide (p ∈ l) then Some (List.remove Z.eq_dec p l) else None.

(** [Free] *)
Definition Free (ptr : Z) (s : LinearFixedMemoryPool) : option LinearFixedMemoryPool :=
  if (pool_ s <=? ptr) && (ptr <? pool_ s + size_ s * BLOCK_SIZE)
  then Some (mkPool (pool_ s) (size_ s) (hset_insert ((ptr - pool_ s) / BLOCK_SIZE) (free_hset_ s)) (c_heap s))
  else h ← c_free ptr (c_heap s); Some (mkPool (pool_ s) (size_ s) (free_hset_ s) h).

(** [Reserve]; [answer] is the address the array gets. *)
Definition Reserve (answer : Z) (sz : Z) (s : LinearFixedMemoryPool) : LinearFixedMemoryPool :=
  if sz <=? size_ s then s
  else mkPool answer sz (free_hset_ s ++ insert_indices (size_ s) (Z.to_nat (sz - size_ s))) (c_heap s).

Definition freesize (s : LinearFixedMemoryPool) : Z := zlen (free_hset_ s).

(** ** Runs *)

Inductive pool_op :=
  | PMalloc (answer : option Z)
  | PFree (ptr : Z)
  | PReserve (answer : Z) (sz : Z).

(** The state of a client: the pool and the blocks it has been given and has
    not freed. *)
Record client := mkClient { pool : LinearFixedMemoryPool; live : list Z }.

Context (pick : list Z -> option Z).

Definition pool_step (c : client) (o : pool_op) : option client :=
  match o with
  | PMalloc answer =>
      '(r, s) ← Malloc pick answer (pool c);
      Some (mkClient s (match r with Some p => p :: live c | None => live c end))
  | PFree ptr => s ← Free ptr (pool c); Some (mkClient s (List.remove Z.eq_dec ptr (live c)))
  | PReserve answer sz => Some (mkClient (Reserve answer sz (pool c)) (live c))
  end.

Fixpoint pool_run (c : client) (os : list pool_op) : option client :=
  match os with [] => Some c | o :: os => c ← pool_step c o; pool_run c os end.

(** Addresses that share no byte with the array. *)
Definition outside (s : LinearFixedMemoryPool) (p : Z) : Prop :=
  p + BLOCK_SIZE <= pool_ s \/ pool_ s + size_ s * BLOCK_SIZE <= p.

(** The C library gives a block that shares no byte with those in use, and an
    array that is not null; the client
    frees a block it holds; the array is not moved while the client holds a
    block of it, and what it grows over is not in use. *)
Definition allowed (c : client) (o : pool_op) : Prop :=
  match o with
  | PMalloc (Some p) => free_hset_ (pool c) = [] -> outside (pool c) p /\ forall q, q ∈ c_heap (pool c) -> apart p q
  | PMalloc None => True
  | PFree ptr => ptr ∈ live c
  | PReserve answer sz =>
      size_ (pool c) < sz -> answer <> 0 /\
      ((forall p, p ∈ live c -> p ∈ c_heap (pool c)) \/ answer = pool_ (pool c)) /\
      forall q, q ∈ c_heap (pool c) -> outside (mkPool answer sz [] []) q
  end.

Fixpoint allowed_run (c : client) (os : list pool_op) : Prop :=
  match os with
  | [] => True
  | o :: os => allowed c o /\ match pool_step c o with Some c => allowed_run c os | None => True end
  end.

(** ** The invariant *)

(** The address of block [i]. *)
Definition block (s : LinearFixedMemoryPool) (i : Z) : Z := pool_ s + i * BLOCK_SIZE.

(** Each block of the array is either free or held, once; the other blocks held
    are those of the C heap; no two share a byte. *)
Record pool_inv (c : client) : Prop := {
  inv_size : 0 <= size_ (pool c);
  inv_free : forall i, i ∈ free_hset_ (pool c) -> 0 <= i < size_ (pool c);
  inv_nodup : NoDup (free_hset_ (pool c));
  inv_array : forall i, 0 <= i < size_ (pool c) -> block (pool c) i ∈ live c <-> (i ∉ free_hset_ (pool c));
  inv_live : forall p, p ∈ live c ->
    p ∈ c_heap (pool c) \/ exists i, 0 <= i < size_ (pool c) /\ p = block (pool c) i;
  inv_heap : forall p, p ∈ c_heap (pool c) -> (p ∈ live c) /\ outside (pool c) p;
  inv_apart : forall p q, p ∈ c_heap (pool c) -> q ∈ c_heap (pool c) -> p <> q -> apart p q;
  inv_once : NoDup (live c)
}.

Hypothesis block_pos : 0 < BLOCK_SIZE.
(** [begin()] of a set that is not empty is one of its elements. *)
Hypothesis pick_elem : forall l, l <> [] -> exists i, pick l = Some i /\ (i ∈ l).

Lemma elem_of_indices i n x : x ∈ insert_indices i n <-> i <= x < i + Z.of_nat n.
Proof using.
  revert i. induction n as [|n IH]; intros i; cbn [insert_indices].
  - rewrite elem_of_nil. lia.
  - rewrite elem_of_cons, IH. lia.
Qed.

Lemma NoDup_indices n : forall i, NoDup (insert_indices i n).
Proof using.
  induction n as [|n IH]; intros i; cbn; constructor; [|apply IH]. rewrite elem_of_indices. lia.
Qed.

Lemma elem_of_remove (x y : Z) l : x ∈ List.remove Z.eq_dec y l <-> (x ∈ l) /\ x <> y.
Proof using.
  rewrite !list_elem_of_In. split; [apply in_remove|]. intros [H1 H2]. by apply in_in_remove.
Qed.

Lemma NoDup_remove_one (y : Z) l : NoDup l -> NoDup (List.remove Z.eq_dec y l).
Proof using.
  induction 1 as [|x l Hx Hl IH]; cbn; [constructor|]. destruct (Z.eq_dec y x); [done|].
  constructor; [|done]. rewrite elem_of_remove. tauto.
Qed.

Lemma block_inj s i j : block s i = block s j -> i = j.
Proof using block_pos. unfold block. nia. Qed.

(** A block of the array is not outside the array. *)
Lemma block_not_outside s i : 0 <= i < size_ s -> ~ outside s (block s i).
Proof using block_pos. unfold block, outside. nia. Qed.

(** The blocks the client holds share no byte. *)
Lemma pool_inv_apart c p q : pool_inv c -> p ∈ live c -> q ∈ live c -> p <> q -> apart p q.
Proof using block_pos.
  intros I Hp Hq Hne. pose proof (inv_live c I p Hp) as [Hp'|(i & Hi & ->)];
    pose proof (inv_live c I q Hq) as [Hq'|(j & Hj & ->)].
  - by apply (inv_apart c I).
  - destruct (inv_heap c I p Hp') as [_ Ho]. unfold outside, apart, block in *. nia.
  - destruct (inv_heap c I q Hq') as [_ Ho]. unfold outside, apart, block in *. nia.
  - unfold apart, block in *. destruct (Z.lt_trichotomy i j) as [?|[->|?]]; [left; nia|done|right; nia].
Qed.

Lemma make_pool_inv base size : 0 <= size ->
  pool_inv (mkClient (mkPool base size (insert_indices 0 (Z.to_nat size)) []) []).
Proof using.
  intros Hs. split; cbn; try done.
  - intros i Hi. apply elem_of_indices in Hi. lia.
  - apply NoDup_indices.
  - intros i Hi. rewrite elem_of_nil, elem_of_indices. lia.
  - intros p Hp. by apply not_elem_of_nil in Hp.
  - intros p Hp. by apply not_elem_of_nil in Hp.
  - intros p q Hp. by apply not_elem_of_nil in Hp.
  - constructor.
Qed.

Lemma pool_inv_malloc c answer : pool_inv c -> allowed c (PMalloc answer) ->
  exists c', pool_step c (PMalloc answer) = Some c' /\ pool_inv c'.
Proof using block_pos pick_elem.
  destruct c as [s l]. intros I HA. cbn. unfold Malloc. destruct (free_hset_ s) as [|f fs] eqn:Hf.
  - cbn. destruct answer as [p|]; cbn in HA; eexists; (split; [done|]); destruct I; cbn in *;
      rewrite Hf in *; split; cbn; try done.
    + intros i Hi. specialize (inv_array0 i Hi). destruct (HA eq_refl) as [Ho _].
      rewrite elem_of_cons. unfold block in *; cbn. rewrite inv_array0. split; [intros _; apply not_elem_of_nil|by right].
    + intros q Hq. apply elem_of_cons in Hq as [->|Hq]; [left; constructor|].
      destruct (inv_live0 q Hq) as [?|?]; [left; by constructor|by right].
    + intros q Hq. apply elem_of_cons in Hq as [->|Hq]; [split; [constructor|apply HA; done]|].
      destruct (inv_heap0 q Hq). split; [by constructor|done].
    + intros q r Hq Hr Hne. destruct (HA eq_refl) as [_ HAp].
      apply elem_of_cons in Hq as [->|Hq], Hr as [->|Hr]; [done|by apply HAp| |by apply inv_apart0].
      specialize (HAp q Hq). unfold apart in *. tauto.
    + constructor; [|done]. intros Hp. destruct (HA eq_refl) as [Ho HAp].
      destruct (inv_live0 p Hp) as [Hh|(i & Hi & ->)].
      * specialize (HAp p Hh). unfold apart in HAp. lia.
      * by eapply block_not_outside.
  - destruct (pick_elem (f :: fs)) as (i & -> & Hi); [done|]. rewrite <- Hf in *. cbn. eexists. split; [done|].
    pose proof (inv_free _ I i Hi) as Hr. pose proof (inv_array _ I i Hr) as Hfree. destruct I; cbn in *.
    split; cbn; try done.
    + intros j Hj. apply elem_of_remove in Hj as [Hj _]. by apply inv_free0.
    + by apply NoDup_remove_one.
    + intros j Hj. rewrite elem_of_cons, elem_of_remove. specialize (inv_array0 j Hj).
      unfold block in *; cbn in *. rewrite inv_array0. split.
      * intros [E|Hn]; [|tauto]. assert (j = i) by nia. tauto.
      * intros Hn. destruct (decide (j = i)) as [->|]; [by left|right; tauto].
    + intros q Hq. apply elem_of_cons in Hq as [->|Hq]; [right; by exists i|by apply inv_live0].
    + intros q Hq. destruct (inv_heap0 q Hq). split; [by constructor|done].
    + constructor; [|done]. unfold block in Hfree. tauto.
Qed.

Lemma pool_inv_free c ptr : pool_inv c -> allowed c (PFree ptr) ->
  exists c', pool_step c (PFree ptr) = Some c' /\ pool_inv c'.
Proof using block_pos.
  destruct c as [s l]. intros I HA. cbn in HA |- *. unfold Free.
  destruct (inv_live _ I ptr HA) as [Hh|(i & Hi & ->)]; cbn in *.
  - destruct (inv_heap _ I ptr Hh) as [_ Ho]. cbn in Ho.
    assert ((pool_ s <=? ptr) && (ptr <? pool_ s + size_ s * BLOCK_SIZE) = false) as ->.
    { unfold outside in Ho. apply andb_false_iff. rewrite Z.leb_gt, Z.ltb_ge. lia. }
    unfold c_free. rewrite bool_decide_true by done. cbn. eexists. split; [done|]. destruct I; cbn in *.
    split; cbn; try done.
    + intros i Hi. rewrite <- (inv_array0 i Hi), elem_of_remove. unfold block; cbn. split; [tauto|].
      intros Hl. split; [done|]. intros <-. by apply (block_not_outside s i).
    + intros q Hq. apply elem_of_remove in Hq as [Hq Hne]. destruct (inv_live0 q Hq) as [?|?]; [left|by right].
      by apply elem_of_remove.
    + intros q Hq. apply elem_of_remove in Hq as [Hq Hne]. destruct (inv_heap0 q Hq). split; [|done].
      by apply elem_of_remove.
    + intros q r Hq Hr. apply elem_of_remove in Hq as [Hq _], Hr as [Hr _]. by apply inv_apart0.
    + by apply NoDup_remove_one.
  - assert ((pool_ s <=? block s i) && (block s i <? pool_ s + size_ s * BLOCK_SIZE) = true) as ->.
    { unfold block. apply andb_true_iff. rewrite Z.leb_le, Z.ltb_lt. nia. }
    replace ((block s i - pool_ s) / BLOCK_SIZE) with i
      by (unfold block; rewrite Z.add_simpl_l, Z.div_mul; lia).
    pose proof (inv_array _ I i Hi) as Hfree. cbn in Hfree.
    unfold hset_insert. rewrite bool_decide_false by tauto. cbn. eexists. split; [done|]. destruct I; cbn in *.
    split; cbn; try done.
    + intros j Hj. apply elem_of_cons in Hj as [->|Hj]; [done|by apply inv_free0].
    + constructor; [tauto|done].
    + intros j Hj. specialize (inv_array0 j Hj). rewrite elem_of_cons, elem_of_remove.
      change (block (mkPool (pool_ s) (size_ s) (i :: free_hset_ s) (c_heap s)) j) with (block s j).
      rewrite inv_array0. split; [intros [Hn Hne] [->|?]; tauto|].
      intros Hn. split; [tauto|]. intros E. apply block_inj in E. tauto.
    + intros q Hq. apply elem_of_remove in Hq as [Hq Hne]. by apply inv_live0.
    + intros q Hq. destruct (inv_heap0 q Hq) as [Hl Ho]. split; [|done]. apply elem_of_remove. split; [done|].
      intros ->. by apply (block_not_outside s i).
    + by apply NoDup_remove_one.
Qed.

Lemma pool_inv_reserve c answer sz : pool_inv c -> allowed c (PReserve answer sz) ->
  exists c', pool_step c (PReserve answer sz) = Some c' /\ pool_inv c'.
Proof using block_pos.
  destruct c as [s l]. intros I HA. cbn in HA |- *. unfold Reserve. eexists. split; [done|].
  case_bool; [done|]. destruct HA as (_ & HA & HO); [lia|]. 
  pose proof (inv_size _ I) as Hs. cbn in Hs.
  assert (Hnew : forall i, block (mkPool answer sz [] []) i ∈ l <-> 0 <= i < size_ s /\ (i ∉ free_hset_ s) \/
    block (mkPool answer sz [] []) i ∈ c_heap s).
  { intros i. destruct HA as [HA| ->].
    - split; [intros Hi; right; by apply HA|]. intros [[Hi Hn]|Hi]; [|by apply (inv_heap _ I)].
      apply (inv_array _ I) in Hn; [|done]. cbn in Hn. destruct (inv_heap _ I _ (HA _ Hn)) as [_ Ho].
      by apply block_not_outside in Ho.
    - change (block (mkPool (pool_ s) sz [] []) i) with (block s i). split.
      + intros Hi. destruct (inv_live _ I _ Hi) as [?|(j & Hj & E)]; [by right|left].
        apply block_inj in E as ->. split; [done|]. by apply (inv_array _ I).
      + intros [[Hi Hn]|Hi]; [by apply (inv_array _ I)|by apply (inv_heap _ I)]. }
  destruct I; cbn in *. split; cbn; try done.
  - lia.
  - intros i Hi. apply elem_of_app in Hi as [Hi|Hi]; [specialize (inv_free0 i Hi); lia|].
    apply elem_of_indices in Hi. lia.
  - apply NoDup_app. split; [done|]. split; [|apply NoDup_indices].
    intros i Hi. rewrite elem_of_indices. specialize (inv_free0 i Hi). lia.
  - intros i Hi. change (block (mkPool answer sz (free_hset_ s ++ _) _) i) with (block (mkPool answer sz [] []) i).
    rewrite Hnew, elem_of_app, elem_of_indices. split.
    + intros [[Hr Hn]|Hh]; [intros [?|?]; [done|lia]|]. exfalso.
      by apply (block_not_outside (mkPool answer sz [] []) i) in HO.
    + intros Hn. left. split; [|tauto]. lia.
  - intros p Hp. destruct HA as [HA| ->]; [left; by apply HA|].
    destruct (inv_live0 p Hp) as [?|(i & Hi & ->)]; [by left|right]. exists i. split; [lia|done].
  - intros p Hp. split; [by apply inv_heap0|]. by apply HO.
Qed.

Lemma pool_inv_run os : forall c, pool_inv c -> allowed_run c os ->
  exists c', pool_run c os = Some c' /\ pool_inv c'.
Proof using block_pos pick_elem.
  induction os as [|o os IH]; intros c I HA; [by exists c|]. cbn in HA |- *. destruct HA as [H1 H2].
  assert (exists c', pool_step c o = Some c' /\ pool_inv c') as (c' & Hc & I').
  { destruct o; [by apply pool_inv_malloc|by apply pool_inv_free|by apply pool_inv_reserve]. }
  rewrite Hc in *. cbn. by apply IH.
Qed.

(** C34 A client of the linear pool that frees only blocks it holds, and does
    not let Reserve move the array while it holds a block of it, is served
    correctly for ever: no operation is undefined (no block is given to the C
    library that is not one of its own), the blocks it holds share no byte, and
    each block of the array is in the free set exactly when the client does not
    hold it, so none is lost. *)
Theorem linear_pool_disjoint base size os s :
  0 <= size -> make_pool (Some base) size = Some s -> allowed_run (mkClient s []) os ->
  exists c, pool_run (mkClient s []) os = Some c /\
    (forall p q, p ∈ live c -> q ∈ live c -> p <> q -> apart p q) /\ NoDup (live c) /\
    forall i, 0 <= i < size_ (pool c) -> i ∈ free_hset_ (pool c) <-> (block (pool c) i ∉ live c).
Proof using block_pos pick_elem.
  intros Hs [= <-] HA. destruct (pool_inv_run os _ (make_pool_inv base size Hs) HA) as (c & Hc & I).
  exists c. split; [done|]. split; [intros p q; by apply pool_inv_apart|]. split; [by apply inv_once|].
  intros i Hi. rewrite (inv_array c I i Hi). destruct (decide (i ∈ free_hset_ (pool c))); tauto.
Qed.
End pool.

(** ** A pool of two blocks of eight bytes *)

Definition pick_first (l : list Z) : option Z := head l.

Lemma pick_first_elem (l : list Z) : l <> [] -> exists i, pick_first l = Some i /\ (i ∈ l).
Proof. destruct l as [|i l]; [done|]. intros _. exists i. split; [done|constructor]. Qed.

(** Both blocks, a third from the C heap, the first one back and out again, and
    the array grown in place. *)
Definition pool_program : list pool_op :=
  [PMalloc None; PMalloc None; PMalloc (Some 500); PFree 100; PMalloc None; PReserve 100 4; PFree 500; PMalloc None].

Definition two_blocks : LinearFixedMemoryPool := mkPool 100 2 [0; 1] [].

Lemma linear_pool_disjoint_witness :
  exists c, pool_run 8 pick_first (mkClient two_blocks []) pool_program = Some c /\
    (forall p q, p ∈ live c -> q ∈ live c -> p <> q -> apart 8 p q) /\ NoDup (live c) /\
    forall i, 0 <= i < size_ (pool c) -> i ∈ free_hset_ (pool c) <-> (block 8 (pool c) i ∉ live c).
Proof.
  apply (linear_pool_disjoint 8 pick_first ltac:(lia) pick_first_elem 100 2 pool_program two_blocks).
  - lia.
  - reflexivity.
  - cbn. unfold outside, apart. cbn.
    repeat split; try (intros q Hq; apply not_elem_of_nil in Hq; done); try lia;
      try (intros q Hq; apply list_elem_of_singleton in Hq as ->; lia);
      first [by right | apply (bool_decide_unpack _); vm_compute; exact I].
Defined.

(** [Reserve] moves the array under a block that is in use: the client's next
    [Free] of it gives the C library an address that is not one of its own. *)
Lemma reserve_invalidates :
  exists c, pool_run 8 pick_first (mkClient two_blocks []) [PMalloc None; PReserve 900 4] = Some c /\
    live c = [100] /\ Free 8 100 (pool c) = None.
Proof. eexists. split; [reflexivity|]. split; reflexivity. Qed.
