(* ===== verification/ReservedArray.v ===== *)
(** * ReservedArray of a class type: kanon/algo/reserved_array.h,
      kanon/algo/libc_allocator_with_realloc.h, kanon/zstl/uninitialized.h

    The array over elements with constructors and destructors, which may throw,
    in blocks of the C heap. (Buffer.v has the array of chars, whose elements
    are trivial.) A computation returns or throws, with the heap it leaves;
    undefined behaviour is [None]. *)

From Stdlib Require Import ZArith Lia.
From stdpp Require Import gmap.
From S2P Require Import Prelude.
Local Open Scope nat_scope.

Section array.
Context {V : Type}.

(** What the templates ask of the element type, and two of its values. *)
Record elem_type := mkElem {
  default_value : V;
  moved_from : V;                 (* what a move leaves behind *)
  member_can_reallocate : bool;   (* the class says [can_reallocate = true] *)
  nothrow_move : bool;
  copyable : bool;
  nothrow_copy_assignable : bool;
  nothrow_constructible : bool    (* the default constructor *)
}.

(** A class is not trivial, so it is reallocated when it says so and its default
    constructor does not throw. *)
Definition can_reallocate (ty : elem_type) : bool := member_can_reallocate ty && nothrow_constructible ty.

(** The heap: blocks of cells, a cell is raw memory or an object. Whether the next
    allocations succeed and the next constructions throw is given; [leaked] counts
    the objects in blocks that were released. *)
Record world := mkWorld {
  heap : gmap positive (list (option V));
  allocs : list bool;
  throws : list bool;
  leaked : nat
}.

Inductive exn := bad_alloc | thrown.

Definition M (A : Type) : Type := world -> option ((exn + A) * world).

Definition ret {A} (a : A) : M A := fun w => Some (inr a, w).
Definition throw {A} (e : exn) : M A := fun w => Some (inl e, w).
Definition undefined {A} : M A := fun _ => None.
Definition bind {A B} (m : M A) (k : A -> M B) : M B := fun w =>
  match m w with
  | None => None
  | Some (inl e, w) => Some (inl e, w)
  | Some (inr a, w) => k a w
  end.

(** [try { m } catch (...) { h; throw; }] *)
Definition catch {A} (m : M A) (h : M unit) : M A := fun w =>
  match m w with
  | Some (inl e, w) => bind h (fun _ => throw e) w
  | r => r
  end.

Notation "x <- m ;; k" := (bind m (fun x => k)) (at level 60, m at level 59, right associativity).
Notation "m ;;; k" := (bind m (fun _ => k)) (at level 60, right associativity).

(** ** The C heap *)

Context (alloc : gmap positive (list (option V)) -> positive) (sizeof_T : Z).

(** [n*sizeof(T)] bytes, in size_t, which wraps around; and the cells they hold. *)
Definition byte_size (n : nat) : Z := u64 (Z.of_nat n * sizeof_T).
Definition cells_of (n : nat) : nat := Z.to_nat (byte_size n / sizeof_T).

Definition objects (cells : list (option V)) : nat := length (List.filter (fun c => bool_decide (is_Some c)) cells).

(** Whether the next allocation succeeds; it does when nothing is given. *)
Definition next_alloc : M bool := fun w =>
  match allocs w with
  | [] => Some (inr true, w)
  | b :: bs => Some (inr b, mkWorld (heap w) bs (throws w) (leaked w))
  end.

Definition allocate (n : nat) : M (option positive) :=
  ok <- next_alloc;;
  if ok then fun w =>
    let p := alloc (heap w) in
    Some (inr (Some p), mkWorld (<[p := replicate (cells_of n) None]> (heap w)) (allocs w) (throws w) (leaked w))
  else ret None.

Definition deallocate (p : option positive) : M unit := fun w =>
  match p with
  | None => Some (inr tt, w)
  | Some p =>
    cells ← heap w !! p;
    Some (inr tt, mkWorld (delete p (heap w)) (allocs w) (throws w) (leaked w + objects cells))
  end.

(** [realloc]; with size 0 it releases the block and returns null. The cells are
    moved as bytes. *)
Definition reallocate (p : option positive) (n : nat) : M (option positive) :=
  match p with
  | None => allocate n
  | Some p =>
    if (byte_size n =? 0)%Z then deallocate (Some p);;; ret None
    else
      ok <- next_alloc;;
      if ok then fun w =>
        cells ← heap w !! p;
        let q := alloc (delete p (heap w)) in
        let k := cells_of n in
        Some (inr (Some q),
              mkWorld (<[q := take k cells ++ replicate (k - length cells) None]> (delete p (heap w)))
                (allocs w) (throws w) (leaked w + objects (drop k cells)))
      else ret None
  end.

(** ** Objects *)

Definition read (p : positive) (i : nat) : M V := fun w =>
  cells ← heap w !! p; c ← cells !! i; v ← c; Some (inr v, w).

Definition put (p : positive) (i : nat) (c : option V) : M unit := fun w =>
  cells ← heap w !! p; _ ← cells !! i;
  Some (inr tt, mkWorld (<[p := <[i := c]> cells]> (heap w)) (allocs w) (throws w) (leaked w)).

Definition may_throw (nothrow : bool) : M unit :=
  if nothrow then ret tt
  else fun w =>
    match throws w with
    | [] => Some (inr tt, w)
    | b :: bs =>
      Some (if b then inl thrown else inr tt, mkWorld (heap w) (allocs w) bs (leaked w))
    end.

(** A constructor, a destructor, an assignment to an object. *)
Definition construct (nothrow : bool) (p : positive) (i : nat) (v : V) : M unit :=
  may_throw nothrow;;; put p i (Some v).
Definition destroy (p : positive) (i : nat) : M unit := _ <- read p i;; put p i None.
Definition assign (p : positive) (i : nat) (v : V) : M unit := _ <- read p i;; put p i (Some v).

(** [DestroyRange(p + i, p + i + n)] *)
Fixpoint DestroyRange (p : positive) (i n : nat) : M unit :=
  match n with O => ret tt | S n => destroy p i;;; DestroyRange p (S i) n end.

Section templates.
Context (ty : elem_type).

(** [UninitializedDefaultConstruct(p + i, p + i + n)]; [done] objects are
    already constructed, an exception destroys them. *)
Fixpoint UninitializedDefaultConstruct_loop (p : positive) (i done n : nat) : M unit :=
  match n with
  | O => ret tt
  | S n =>
    catch (construct (nothrow_constructible ty) p i (default_value ty)) (DestroyRange p (i - done) done);;;
    UninitializedDefaultConstruct_loop p (S i) (S done) n
  end.
Definition UninitializedDefaultConstruct (p : positive) (i n : nat) : M unit :=
  UninitializedDefaultConstruct_loop p i 0 n.

(** [std::uninitialized_copy] from block [src] to block [dst], by copying or by
    moving. *)
Fixpoint uninitialized_loop (moves : bool) (src dst : positive) (i done n : nat) : M unit :=
  match n with
  | O => ret tt
  | S n =>
    v <- read src i;;
    catch (construct (moves && nothrow_move ty) dst i v) (DestroyRange dst (i - done) done);;;
    (if moves then put src i (Some (moved_from ty)) else ret tt);;;
    uninitialized_loop moves src dst (S i) (S done) n
  end.
Definition uninitialized_copy (src dst : positive) (i n : nat) : M unit := uninitialized_loop false src dst i 0 n.

(** [MoveIfNoexcept]: types that cannot be copied are moved anyway. *)
Definition MoveIfNoexcept : bool := negb (negb (nothrow_move ty) && copyable ty).
Definition UninitializedMoveIfNoexcept (src dst : positive) (n : nat) : M unit :=
  uninitialized_loop MoveIfNoexcept src dst 0 0 n.

(** [std::copy] over objects *)
Fixpoint copy_range (src dst : positive) (i n : nat) : M unit :=
  match n with O => ret tt | S n => v <- read src i;; assign dst i v;;; copy_range src dst (S i) n end.

(** ** ReservedArray *)

(** [data_], and [end_ - data_] *)
Record ReservedArray := mkArray { data_ : option positive; size : nat }.

Definition empty_array : ReservedArray := mkArray None 0.

(** A pointer that must not be null where there are elements. *)
Definition deref (p : option positive) (n : nat) (k : positive -> M unit) : M unit :=
  match p with Some p => k p | None => if n =? 0 then ret tt else undefined end.

Definition make_array (n : nat) : M ReservedArray :=
  data <- allocate n;;
  match data with
  | None => throw bad_alloc
  | Some p => catch (UninitializedDefaultConstruct p 0 n) (deallocate (Some p));;; ret (mkArray (Some p) n)
  end.

(** The copy constructor does not test the result of [allocate]. *)
Definition copy_array (other : ReservedArray) : M ReservedArray :=
  data <- allocate (size other);;
  catch (deref (data_ other) (size other) (fun src =>
           deref data (size other) (fun dst => uninitialized_copy src dst 0 (size other))))
        (deallocate data);;;
  ret (mkArray data (size other)).

Definition destroy_array (a : ReservedArray) : M unit :=
  deref (data_ a) (size a) (fun p => DestroyRange p 0 (size a));;; deallocate (data_ a).

(** The two versions of [Reallocate]. *)
Definition Reallocate (a : ReservedArray) (n : nat) : M ReservedArray :=
  if can_reallocate ty then
    tmp <- reallocate (data_ a) n;;
    match tmp with
    | None => throw bad_alloc
    | Some p => UninitializedDefaultConstruct p (size a) (n - size a);;; ret (mkArray (Some p) n)
    end
  else
    new_data <- allocate n;;
    match new_data with
    | None => throw bad_alloc
    | Some q =>
      catch (deref (data_ a) (size a) (fun p => UninitializedMoveIfNoexcept p q (size a));;;
             UninitializedDefaultConstruct q (size a) (n - size a))
            (deallocate (Some q));;;
      deallocate (data_ a);;;
      ret (mkArray (Some q) n)
    end.

Definition Grow (a : ReservedArray) (n : nat) : M ReservedArray :=
  if n <=? size a then ret a else Reallocate a n.

(** The two versions of [Shrink_impl]. *)
Definition Shrink_impl (a : ReservedArray) (n : nat) : M ReservedArray :=
  if can_reallocate ty then
    deref (data_ a) (size a - n) (fun p => DestroyRange p n (size a - n));;;
    tmp <- reallocate (data_ a) n;;
    if n =? 0 then ret empty_array
    else match tmp with None => throw bad_alloc | Some p => ret (mkArray (Some p) n) end
  else
    new_data <- allocate n;;
    match new_data with
    | None => throw bad_alloc
    | Some q =>
      catch (deref (data_ a) n (fun p => UninitializedMoveIfNoexcept p q n)) (deallocate (Some q));;;
      deref (data_ a) (size a - n) (fun p => DestroyRange p n (size a - n));;;
      deallocate (data_ a);;;
      ret (mkArray (Some q) n)
    end.

Definition Shrink (a : ReservedArray) (n : nat) : M ReservedArray :=
  if size a <=? n then ret a else Shrink_impl a n.

(** The two versions of [CopyAssignmentForSizeEqual]; in the second the temporary
    is swapped with the array and destroyed. *)
Definition CopyAssignmentForSizeEqual (a other : ReservedArray) : M ReservedArray :=
  if nothrow_copy_assignable ty then
    deref (data_ other) (size other) (fun src => deref (data_ a) (size a) (fun dst => copy_range src dst 0 (size other)));;;
    ret a
  else b <- copy_array other;; destroy_array a;;; ret b.

Definition cond : bool := can_reallocate ty && nothrow_copy_assignable ty && nothrow_constructible ty.

(** The two versions of [CopyAssignmentForSizeNotEqual]. *)
Definition CopyAssignmentForSizeNotEqual (a other : ReservedArray) : M ReservedArray :=
  if cond then
    tmp <- reallocate (data_ a) (size other);;
    match tmp with
    | None => throw bad_alloc
    | Some p =>
      (if size a <? size other then
         deref (data_ other) (size other) (fun src =>
           copy_range src p 0 (size a);;; uninitialized_copy src p (size a) (size other - size a))
       else
         deref (data_ other) (size other) (fun src => copy_range src p 0 (size other));;;
         DestroyRange p (size other) (size a - size other));;;
      ret (mkArray (Some p) (size other))
    end
  else
    data <- allocate (size other);;
    match data with
    | None => throw bad_alloc
    | Some q =>
      catch (deref (data_ other) (size other) (fun src => uninitialized_copy src q 0 (size other)))
            (deallocate (Some q));;;
      destroy_array a;;;
      ret (mkArray (Some q) (size other))
    end.

(** [operator=] from another object. *)
Definition copy_assign (a other : ReservedArray) : M ReservedArray :=
  if size a =? size other then CopyAssignmentForSizeEqual a other else CopyAssignmentForSizeNotEqual a other.

(** The move constructor and move assignment, on both objects. *)
Definition move_construct (other : ReservedArray) : ReservedArray * ReservedArray := (other, empty_array).
Definition swap (a other : ReservedArray) : ReservedArray * ReservedArray := (other, a).
Definition move_assign (a other : ReservedArray) : ReservedArray * ReservedArray := swap a other.
End templates.

(** ** Runs of objects *)

Definition set_block (w : world) (p : positive) (cells : list (option V)) : world :=
  mkWorld (<[p := cells]> (heap w)) (allocs w) (throws w) (leaked w).

Lemma read_at w p pre v post :
  heap w !! p = Some (pre ++ Some v :: post) -> read p (length pre) w = Some (inr v, w).
Proof using. intros Hp. unfold read. rewrite Hp. cbn. by rewrite list_lookup_middle. Qed.

Lemma put_at w p pre c c' post :
  heap w !! p = Some (pre ++ c :: post) ->
  put p (length pre) c' w = Some (inr tt, set_block w p (pre ++ c' :: post)).
Proof using.
  intros Hp. unfold put. rewrite Hp. cbn. rewrite list_lookup_middle by done. cbn.
  unfold set_block. by rewrite <- (Nat.add_0_r (length pre)), insert_app_r.
Qed.

Lemma set_block_twice w p c c' : set_block (set_block w p c) p c' = set_block w p c'.
Proof using. unfold set_block. cbn. by rewrite insert_insert_eq. Qed.

Lemma set_block_same w p c : heap w !! p = Some c -> set_block w p c = w.
Proof using. intros Hp. unfold set_block. rewrite insert_id by done. by destruct w. Qed.

Lemma set_block_lookup w p c : heap (set_block w p c) !! p = Some c.
Proof using. apply lookup_insert_eq. Qed.

Lemma set_block_other w p q c : p <> q -> heap (set_block w p c) !! q = heap w !! q.
Proof using. intros. by apply lookup_insert_ne. Qed.

(** The raw cells and the objects of a block. *)
Abbreviation raw n := (replicate n (@None V)).
Abbreviation objs vs := (map (@Some V) vs).

Lemma snoc_raw n l : raw n ++ @None V :: l = raw (S n) ++ l.
Proof using. induction n as [|n IH]; cbn; [done|]. by rewrite IH. Qed.

Lemma DestroyRange_spec p vs : forall w pre post,
  heap w !! p = Some (pre ++ objs vs ++ post) ->
  DestroyRange p (length pre) (length vs) w = Some (inr tt, set_block w p (pre ++ raw (length vs) ++ post)).
Proof using.
  induction vs as [|v vs IH]; intros w pre post Hp; cbn [DestroyRange length].
  - cbn in *. by rewrite set_block_same.
  - unfold bind, destroy, bind. cbn [map app] in Hp. rewrite (read_at _ _ _ _ _ Hp), (put_at _ _ _ _ None _ Hp).
    specialize (IH (set_block w p (pre ++ None :: objs vs ++ post)) (pre ++ [None]) post).
    rewrite length_app, Nat.add_1_r in IH. rewrite IH by (rewrite set_block_lookup, <- app_assoc; done).
    by rewrite set_block_twice, <- app_assoc.
Qed.

(** Two worlds that differ in the heap and in what may fail next. *)
Definition turns (w : world) (h : gmap positive (list (option V))) (w' : world) : Prop :=
  heap w' = h /\ leaked w' = leaked w /\ allocs w' = allocs w.

Lemma may_throw_spec b w : exists r w', may_throw b w = Some (r, w') /\ turns w (heap w) w' /\ r <> inl bad_alloc.
Proof using.
  unfold may_throw, ret. destruct b; [by exists (inr tt), w|]. destruct (throws w) as [|c bs]; [by exists (inr tt), w|].
  eexists _, _. split; [done|]. split; [done|]. by destruct c.
Qed.

(** A constructor with the clean-up of the objects before it. *)
Lemma construct_spec b p w pre ws post v :
  heap w !! p = Some (pre ++ objs ws ++ None :: post) ->
  exists r w', catch (construct b p (length pre + length ws) v)
      (DestroyRange p (length pre + length ws - length ws) (length ws)) w = Some (r, w') /\
    turns w (<[p := pre ++ match r with inl _ => raw (S (length ws)) | inr _ => objs (ws ++ [v]) end ++ post]> (heap w)) w'.
Proof using.
  intros Hp. destruct (may_throw_spec b w) as (r & w1 & E & (Hh & Hl & Ha) & _).
  unfold catch, construct, bind at 1. rewrite E. destruct r as [e|[]].
  - unfold bind. rewrite Nat.add_sub. rewrite (DestroyRange_spec p ws w1 pre (None :: post)) by (by rewrite Hh).
    eexists _, _. split; [done|]. split; [|done]. cbn [set_block heap]. rewrite Hh. do 2 f_equal. apply snoc_raw.
  - assert (heap w1 !! p = Some ((pre ++ objs ws) ++ None :: post)) as Hp1 by (by rewrite Hh, <- app_assoc).
    pose proof (put_at _ _ _ _ (Some v) _ Hp1) as Hput. rewrite length_app, length_map in Hput. rewrite Hput.
    eexists _, _. split; [done|]. split; [|done]. cbn [set_block heap]. rewrite Hh, map_app, <- !app_assoc. done.
Qed.

Section typed.
Context (ty : elem_type).

Lemma default_construct_spec p n : forall w pre ws post,
  heap w !! p = Some (pre ++ objs ws ++ raw n ++ post) ->
  exists r w', UninitializedDefaultConstruct_loop ty p (length pre + length ws) (length ws) n w = Some (r, w') /\
    turns w (<[p := pre ++ match r with inl _ => raw (length ws + n)
                           | inr _ => objs (ws ++ replicate n (default_value ty)) end ++ post]> (heap w)) w'.
Proof using.
  induction n as [|n IH]; intros w pre ws post Hp; cbn [UninitializedDefaultConstruct_loop].
  - eexists (inr tt), w. split; [done|]. split; [|done]. cbn in *. rewrite app_nil_r. by rewrite insert_id.
  - unfold bind at 1.
    destruct (construct_spec (nothrow_constructible ty) p w pre ws (raw n ++ post) (default_value ty) Hp)
      as (r & w1 & -> & Hh & Hl & Ha). destruct r as [e|[]].
    + eexists _, w1. split; [done|]. split; [|done]. rewrite Hh. do 2 f_equal.
      by rewrite app_assoc, <- replicate_add, Nat.add_succ_comm.
    + specialize (IH w1 pre (ws ++ [default_value ty]) post).
      rewrite length_app, Nat.add_1_r, <- plus_n_Sm in IH.
      destruct IH as (r & w2 & -> & Hh2 & Hl2 & Ha2); [by rewrite Hh, lookup_insert_eq|].
      exists r, w2. split; [done|]. split; [|split; congruence]. rewrite Hh2, Hh, insert_insert_eq. do 2 f_equal.
      destruct r; [by rewrite Nat.add_succ_comm|]. by rewrite <- app_assoc.
Qed.

Lemma uninitialized_copy_spec src p vs : src <> p -> forall w spre spost pre ws post,
  heap w !! src = Some (spre ++ objs vs ++ spost) -> length spre = (length pre + length ws)%nat ->
  heap w !! p = Some (pre ++ objs ws ++ raw (length vs) ++ post) ->
  exists r w', uninitialized_loop ty false src p (length pre + length ws) (length ws) (length vs) w = Some (r, w') /\
    turns w (<[p := pre ++ match r with inl _ => raw (length ws + length vs) | inr _ => objs (ws ++ vs) end ++ post]>
               (heap w)) w'.
Proof using.
  intros Hne. induction vs as [|v vs IH]; intros w spre spost pre ws post Hs Hi Hp; cbn [uninitialized_loop length].
  - eexists (inr tt), w. split; [done|]. split; [|done]. cbn in *. rewrite app_nil_r. by rewrite insert_id.
  - cbn [map app] in Hs. unfold bind at 1. rewrite <- Hi, (read_at _ _ _ _ _ Hs), Hi. unfold bind at 1. cbn [andb].
    destruct (construct_spec false p w pre ws (raw (length vs) ++ post) v Hp) as (r & w1 & -> & Hh & Hl & Ha).
    destruct r as [e|[]].
    + eexists _, w1. split; [done|]. split; [|done]. rewrite Hh. do 2 f_equal.
      by rewrite app_assoc, <- replicate_add, Nat.add_succ_comm.
    + unfold bind at 1, ret at 1. specialize (IH w1 (spre ++ [Some v]) spost pre (ws ++ [v]) post).
      rewrite !length_app, !Nat.add_1_r, <- plus_n_Sm in IH.
      destruct IH as (r & w2 & -> & Hh2 & Hl2 & Ha2).
      * rewrite Hh, lookup_insert_ne, <- app_assoc by done. done.
      * lia.
      * by rewrite Hh, lookup_insert_eq.
      * exists r, w2. split; [done|]. split; [|split; congruence]. rewrite Hh2, Hh, insert_insert_eq. do 2 f_equal.
        destruct r; [by rewrite Nat.add_succ_comm|]. by rewrite <- app_assoc.
Qed.

Lemma copy_range_spec src p vs : src <> p -> forall w spre spost pre olds post,
  heap w !! src = Some (spre ++ objs vs ++ spost) -> length spre = length pre -> length olds = length vs ->
  heap w !! p = Some (pre ++ objs olds ++ post) ->
  copy_range src p (length pre) (length vs) w = Some (inr tt, set_block w p (pre ++ objs vs ++ post)).
Proof using.
  intros Hne. induction vs as [|v vs IH]; intros w spre spost pre olds post Hs Hi Ho Hp; cbn [copy_range length].
  - destruct olds; [|done]. cbn in *. by rewrite set_block_same.
  - destruct olds as [|o olds]; [done|]. cbn [map app] in Hs, Hp. unfold bind at 1.
    rewrite <- Hi, (read_at _ _ _ _ _ Hs), Hi. unfold bind, assign, bind.
    rewrite (read_at _ _ _ _ _ Hp), (put_at _ _ _ _ (Some v) _ Hp).
    specialize (IH (set_block w p (pre ++ Some v :: objs olds ++ post)) (spre ++ [Some v]) spost (pre ++ [Some v]) olds post).
    rewrite !length_app, !Nat.add_1_r in IH. rewrite IH.
    + by rewrite set_block_twice, <- app_assoc.
    + by rewrite set_block_other, <- app_assoc.
    + lia.
    + by injection Ho.
    + by rewrite set_block_lookup, <- app_assoc.
Qed.

(** ** Whole arrays *)

Definition holds (w : world) (a : ReservedArray) (vs : list V) : Prop :=
  size a = length vs /\
  match data_ a with Some p => heap w !! p = Some (objs vs) | None => vs = [] end.

Context (alloc_fresh : forall h, h !! alloc h = None) (sizeof_pos : (0 < sizeof_T)%Z).

(** Arrays whose size in bytes does not wrap around. *)
Definition fits (n : nat) : Prop := (Z.of_nat n * sizeof_T < 2 ^ 64)%Z.

Lemma fits_cells n : fits n -> cells_of n = n.
Proof using sizeof_pos.
  unfold fits, cells_of, byte_size. intros Hn. rewrite u64_id by lia. rewrite Z.div_mul by lia. lia.
Qed.

Lemma allocate_spec n w : fits n -> exists w', leaked w' = leaked w /\
  (allocate n w = Some (inr None, w') /\ heap w' = heap w /\ head (allocs w) = Some false \/
   allocate n w = Some (inr (Some (alloc (heap w))), w') /\ heap w' = <[alloc (heap w) := raw n]> (heap w)).
Proof using sizeof_pos.
  intros Hn. unfold allocate, bind, next_alloc. rewrite (fits_cells n Hn). destruct (allocs w) as [|[] bs]; (eexists; split; [|by eauto]); done.
Qed.

Lemma deallocate_spec p w cells : heap w !! p = Some cells ->
  exists w', deallocate (Some p) w = Some (inr tt, w') /\ heap w' = delete p (heap w).
Proof using. intros Hp. unfold deallocate. rewrite Hp. cbn. by eauto. Qed.

(** A block that is filled by copying and default construction, and given back if
    that throws. *)
Lemma block_fill_spec (m : M unit) q n vs h w :
  h !! q = None -> heap w = <[q := raw n]> h ->
  (exists r w', m w = Some (r, w') /\
     match r with inl _ => exists cells, heap w' = <[q := cells]> h | inr _ => heap w' = <[q := objs vs]> h end) ->
  exists r w', catch m (deallocate (Some q)) w = Some (r, w') /\
    match r with inl _ => heap w' = h | inr _ => heap w' = <[q := objs vs]> h end.
Proof using.
  intros Hq Hw (r & w1 & E & H). unfold catch. rewrite E. destruct r as [e|[]]; [|by exists (inr tt), w1].
  destruct H as [cells H]. destruct (deallocate_spec q w1 cells) as (w2 & E2 & H2); [by rewrite H, lookup_insert_eq|].
  unfold bind. rewrite E2. eexists (inl e), w2. split; [done|]. by rewrite H2, H, delete_insert_id.
Qed.

(** The objects [vs] at the front of a block copied into a new block of [n] cells. *)
Lemma copy_front w h p q vs rest n :
  h !! q = None -> h !! p = Some (objs vs ++ rest) -> (length vs <= n)%nat -> heap w = <[q := raw n]> h ->
  exists r w', uninitialized_loop ty false p q 0 0 (length vs) w = Some (r, w') /\
    heap w' = <[q := match r with inl _ => raw n | inr _ => objs vs ++ raw (n - length vs) end]> h.
Proof using.
  intros Hq Hp Hn Hw. assert (p <> q) as Hne by congruence.
  assert (raw n = raw (length vs) ++ raw (n - length vs)) as En by (rewrite <- replicate_add; f_equal; lia).
  destruct (uninitialized_copy_spec p q vs Hne w [] rest [] [] (raw (n - length vs))) as (r & w1 & E & Hh & _).
  - by rewrite Hw, lookup_insert_ne.
  - done.
  - by rewrite Hw, lookup_insert_eq, En.
  - exists r, w1. split; [done|]. rewrite Hh, Hw, insert_insert_eq. f_equal. by destruct r; cbn.
Qed.

(** [a] became [a'], which holds [vs]: its old block is gone or is still the block
    of [a'], and no other block changed. *)
Definition replaced (w : world) (a : ReservedArray) (vs : list V) (w' : world) (a' : ReservedArray) : Prop :=
  holds w' a' vs /\
  (forall q, data_ a <> Some q -> data_ a' <> Some q -> heap w' !! q = heap w !! q) /\
  (data_ a' = data_ a \/ forall p, data_ a = Some p -> heap w' !! p = None).

(** The end of each operation: the old block is released for the new one. *)
Lemma handover w w1 a q vs :
  heap w1 !! q = Some (objs vs) -> data_ a <> Some q ->
  (forall p, data_ a = Some p -> is_Some (heap w1 !! p)) ->
  (forall x, x <> q -> data_ a <> Some x -> heap w1 !! x = heap w !! x) ->
  exists w', (deallocate (data_ a);;; ret (mkArray (Some q) (length vs))) w1 = Some (inr (mkArray (Some q) (length vs)), w') /\
    replaced w a vs w' (mkArray (Some q) (length vs)).
Proof using.
  intros Hq Hne Hblk Hfr. unfold bind. destruct (data_ a) as [p|] eqn:Ea.
  - destruct (Hblk p eq_refl) as [cells Hp]. destruct (deallocate_spec p w1 cells Hp) as (w2 & -> & Hw2).
    eexists. split; [done|]. split; [|split].
    + split; [done|]. cbn. rewrite Hw2, lookup_delete_ne by congruence. done.
    + cbn. intros x H1 H2. rewrite Hw2, lookup_delete_ne by congruence. apply Hfr; congruence.
    + right. intros p' Hp'. rewrite Hw2. assert (p' = p) as -> by congruence. apply lookup_delete_eq.
  - cbn. eexists. split; [done|]. split; [|split].
    + done.
    + cbn. intros x _ H2. apply Hfr; congruence.
    + right. intros p' Hp'. congruence.
Qed.

(** What the strong guarantee says of an operation that turns [a] into an array of
    [vs]: it does so, or throws and the heap is as before. *)
Definition strong (w : world) (a : ReservedArray) (vs : list V) (m : M ReservedArray) : Prop :=
  exists r w', m w = Some (r, w') /\
    match r with inl _ => heap w' = heap w | inr a' => replaced w a vs w' a' end.

Lemma strong_same w a vs : holds w a vs -> strong w a vs (ret a).
Proof using. intros H. eexists (inr a), w. split; [done|]. split; [done|]. split; [done|]. by left. Qed.

(** The shape of every operation that fills a new block. *)
Lemma strong_fill w a vs n (body : positive -> M unit) (finish : positive -> M ReservedArray) :
  fits n ->
  (forall q w1, heap w !! q = None -> heap w1 = <[q := raw n]> (heap w) ->
     exists r w', body q w1 = Some (r, w') /\
       match r with inl _ => exists cells, heap w' = <[q := cells]> (heap w)
       | inr _ => heap w' = <[q := objs vs]> (heap w) end) ->
  (forall q w1, heap w !! q = None -> heap w1 = <[q := objs vs]> (heap w) ->
     exists w', finish q w1 = Some (inr (mkArray (Some q) (length vs)), w') /\
       replaced w a vs w' (mkArray (Some q) (length vs))) ->
  strong w a vs
    (data <- allocate n;;
     match data with
     | None => throw bad_alloc
     | Some q => catch (body q) (deallocate (Some q));;; finish q
     end).
Proof using alloc_fresh sizeof_pos.
  intros Hfit Hbody Hfin. unfold strong, bind at 1.
  destruct (allocate_spec n w Hfit) as (w1 & _ & [(-> & Hw1 & _)|(-> & Hw1)]); [by eexists (inl bad_alloc), w1|].
  set (q := alloc (heap w)) in *. assert (heap w !! q = None) as Hq by apply alloc_fresh.
  destruct (block_fill_spec (body q) q n vs (heap w) w1 Hq Hw1 (Hbody q w1 Hq Hw1)) as (r & w2 & E & H2).
  unfold bind at 1. rewrite E. destruct r as [e|[]]; [by eexists (inl e), w2|].
  destruct (Hfin q w2 Hq H2) as (w3 & E3 & H3). by eexists (inr _), w3.
Qed.

Lemma holds_block w a vs p : holds w a vs -> data_ a = Some p -> heap w !! p = Some (objs vs).
Proof using. intros [_ H] E. by rewrite E in H. Qed.

(** Copying the first objects of an array into a new block. *)
Lemma copy_from w a vs k n q w1 :
  holds w a vs -> (k <= length vs)%nat -> (k <= n)%nat -> heap w !! q = None -> heap w1 = <[q := raw n]> (heap w) ->
  exists r w', deref (data_ a) k (fun p => uninitialized_loop ty false p q 0 0 k) w1 = Some (r, w') /\
    heap w' = <[q := match r with inl _ => raw n | inr _ => objs (take k vs) ++ raw (n - k) end]> (heap w).
Proof using.
  intros [Hsz Ha] Hk Hn Hq Hw1. unfold deref. destruct (data_ a) as [p|].
  - assert (length (take k vs) = k) as Hl by (rewrite length_take; lia).
    destruct (copy_front w1 (heap w) p q (take k vs) (objs (drop k vs)) n) as (r & w2 & E & H); rewrite ?Hl in *; try done.
    + by rewrite <- map_app, take_drop.
    + by eauto.
  - subst vs. cbn in Hk. assert (k = 0)%nat as -> by lia. cbn. eexists (inr tt), w1. split; [done|].
    cbn. by rewrite Nat.sub_0_r.
Qed.

(** Destroying the last objects of an array. *)
Lemma destroy_from w a vs k : holds w a vs -> (k <= length vs)%nat -> forall w1,
  (forall p, data_ a = Some p -> heap w1 !! p = heap w !! p) ->
  exists w', deref (data_ a) (length vs - k) (fun p => DestroyRange p k (length vs - k)) w1 = Some (inr tt, w') /\
    (forall p, data_ a = Some p -> is_Some (heap w' !! p)) /\
    (forall x, data_ a <> Some x -> heap w' !! x = heap w1 !! x).
Proof using.
  intros [Hsz Ha] Hk w1 Hw1. unfold deref. destruct (data_ a) as [p|].
  - pose proof (DestroyRange_spec p (drop k vs) w1 (objs (take k vs)) []) as E.
    rewrite length_map, length_take, length_drop, Nat.min_l in E by lia. rewrite E.
    + eexists. split; [done|]. split.
      * intros p' Hp'. assert (p' = p) as -> by congruence. rewrite set_block_lookup. by eauto.
      * intros x Hx. by rewrite set_block_other by congruence.
    + rewrite app_nil_r, <- map_app, take_drop, (Hw1 p eq_refl). done.
  - subst vs. cbn. eexists. split; [done|]. split; [done|]. done.
Qed.

Lemma holds_fresh w a vs q : holds w a vs -> heap w !! q = None -> data_ a <> Some q.
Proof using. intros [_ Ha] Hq E. rewrite E in Ha. congruence. Qed.

(** The old array with its last objects destroyed and its block released. *)
Lemma release_from w a vs k ws q w1 :
  holds w a vs -> (k <= length vs)%nat -> heap w !! q = None -> heap w1 = <[q := objs ws]> (heap w) ->
  exists w', (deref (data_ a) (length vs - k) (fun p => DestroyRange p k (length vs - k));;;
              deallocate (data_ a);;; ret (mkArray (Some q) (length ws))) w1
             = Some (inr (mkArray (Some q) (length ws)), w') /\
    replaced w a ws w' (mkArray (Some q) (length ws)).
Proof using.
  intros Ha Hk Hq Hw1. pose proof (holds_fresh w a vs q Ha Hq) as Hne. unfold bind at 1.
  destruct (destroy_from w a vs k Ha Hk w1) as (w2 & -> & Hblk & Hfr).
  { intros p Hp. rewrite Hw1, lookup_insert_ne by congruence. done. }
  apply handover; [|done|done|].
  - by rewrite Hfr, Hw1, lookup_insert_eq.
  - intros x Hx Hx'. by rewrite Hfr, Hw1, lookup_insert_ne.
Qed.

Section copied.
Context (Hno : can_reallocate ty = false).

Lemma Reallocate_strong w a vs n :
  MoveIfNoexcept ty = false -> fits n -> holds w a vs -> (length vs < n)%nat ->
  strong w a (vs ++ replicate (n - length vs) (default_value ty)) (Reallocate ty a n).
Proof using alloc_fresh sizeof_pos Hno.
  intros Hm Hfit Ha Hn. pose proof (proj1 Ha) as Hsz. unfold Reallocate. rewrite Hno, Hsz.
  assert (length (vs ++ replicate (n - length vs) (default_value ty)) = n) as Hl by (rewrite length_app, length_replicate; lia).
  apply strong_fill with (finish := fun q => _); [done| |].
  - intros q w1 Hq Hw1. unfold UninitializedMoveIfNoexcept. rewrite Hm. unfold bind.
    destruct (copy_from w a vs (length vs) n q w1) as (r & w2 & -> & H2); [done|lia|lia|done|done|].
    rewrite take_ge in H2 by lia. destruct r as [e|[]]; [by eexists (inl e), w2; eauto|].
    destruct (default_construct_spec q (n - length vs) w2 (objs vs) [] []) as (r & w3 & E & H3 & _).
    { by rewrite H2, lookup_insert_eq, app_nil_r. }
    rewrite length_map in E. cbn [length] in E. rewrite Nat.add_0_r in E. unfold UninitializedDefaultConstruct. rewrite E.
    eexists _, w3. split; [done|]. rewrite H3, H2, insert_insert_eq, app_nil_r. destruct r; [by eauto|].
    by rewrite <- map_app.
  - intros q w1 Hq Hw1. remember (vs ++ replicate (n - length vs) (default_value ty)) as ws eqn:Ews. clear Ews. subst n.
    pose proof (holds_fresh w a vs q Ha Hq) as Hne. apply handover; [by rewrite Hw1, lookup_insert_eq|done| |].
    + intros p Hp. rewrite Hw1, lookup_insert_ne, (holds_block _ _ _ _ Ha Hp) by congruence. by eauto.
    + intros x Hx Hx'. by rewrite Hw1, lookup_insert_ne.
Qed.

Lemma Shrink_strong w a vs n :
  MoveIfNoexcept ty = false -> fits n -> holds w a vs -> (n < length vs)%nat -> strong w a (take n vs) (Shrink_impl ty a n).
Proof using alloc_fresh sizeof_pos Hno.
  intros Hm Hfit Ha Hn. pose proof (proj1 Ha) as Hsz. unfold Shrink_impl. rewrite Hno, Hsz.
  assert (length (take n vs) = n) as Hl by (rewrite length_take; lia).
  apply strong_fill with (finish := fun q => _); [done| |].
  - intros q w1 Hq Hw1. unfold UninitializedMoveIfNoexcept. rewrite Hm.
    destruct (copy_from w a vs n n q w1) as (r & w2 & E & H2); [done|lia|lia|done|done|].
    exists r, w2. split; [done|]. rewrite Nat.sub_diag, app_nil_r in H2. destruct r; by eauto.
  - intros q w1 Hq Hw1. pose proof (release_from w a vs n (take n vs) q w1 Ha ltac:(lia) Hq Hw1) as H.
    rewrite Hl in *. exact H.
Qed.

Lemma destroy_release w a vs ws q w1 :
  holds w a vs -> heap w !! q = None -> heap w1 = <[q := objs ws]> (heap w) ->
  exists w', (destroy_array a;;; ret (mkArray (Some q) (length ws))) w1 = Some (inr (mkArray (Some q) (length ws)), w') /\
    replaced w a ws w' (mkArray (Some q) (length ws)).
Proof using.
  intros Ha Hq Hw1. pose proof (proj1 Ha) as Hsz.
  destruct (release_from w a vs 0 ws q w1 Ha ltac:(lia) Hq Hw1) as (w' & E & H). rewrite Nat.sub_0_r in E.
  exists w'. split; [|done]. rewrite <- E. unfold destroy_array, bind. rewrite Hsz.
  destruct (deref _ _ _ w1) as [[[|[]] ?]|]; done.
Qed.

Lemma copy_other w other ws q w1 :
  holds w other ws -> heap w !! q = None -> heap w1 = <[q := raw (length ws)]> (heap w) ->
  exists r w', deref (data_ other) (length ws) (fun src => uninitialized_copy ty src q 0 (length ws)) w1 = Some (r, w') /\
    match r with inl _ => exists cells, heap w' = <[q := cells]> (heap w) | inr _ => heap w' = <[q := objs ws]> (heap w) end.
Proof using.
  intros Ho Hq Hw1.
  destruct (copy_from w other ws (length ws) (length ws) q w1) as (r & w2 & E & H2); [done|lia|lia|done|done|].
  exists r, w2. split; [done|]. rewrite Nat.sub_diag, app_nil_r, take_ge in H2 by lia. destruct r; by eauto.
Qed.

Lemma copy_array_spec w other ws :
  holds w other ws -> fits (length ws) -> head (allocs w) <> Some false ->
  exists r w', copy_array ty other w = Some (r, w') /\
    match r with
    | inl _ => heap w' = heap w
    | inr b => exists q, b = mkArray (Some q) (length ws) /\ heap w !! q = None /\ heap w' = <[q := objs ws]> (heap w)
    end.
Proof using alloc_fresh sizeof_pos.
  intros Ho Hfit Hnull. unfold copy_array, bind at 1. rewrite (proj1 Ho).
  destruct (allocate_spec (length ws) w Hfit) as (w1 & _ & [(_ & _ & ?)|(-> & Hw1)]); [done|].
  set (q := alloc (heap w)) in *. assert (heap w !! q = None) as Hq by apply alloc_fresh. cbn [deref].
  destruct (block_fill_spec _ q (length ws) ws (heap w) w1 Hq Hw1 (copy_other w other ws q w1 Ho Hq Hw1)) as (r & w2 & E & H2).
  unfold bind. rewrite E. destruct r as [e|[]]; [by eexists (inl e), w2|]. eexists (inr _), w2. by eauto.
Qed.

Lemma assign_in_place w a vs other ws :
  holds w a vs -> holds w other ws -> (data_ a = data_ other -> data_ a = None) -> length vs = length ws ->
  strong w a ws (deref (data_ other) (length ws) (fun src =>
                   deref (data_ a) (length vs) (fun dst => copy_range src dst 0 (length ws)));;; ret a).
Proof using.
  intros [Hsz Ha] [Hso Ho] Hdist Heq. unfold strong, bind, deref. destruct (data_ other) as [s|] eqn:Es.
  - destruct (data_ a) as [p|] eqn:Ep.
    + assert (s <> p) as Hne by (intros ->; by specialize (Hdist eq_refl)).
      pose proof (copy_range_spec s p ws Hne w [] [] [] vs []) as E. rewrite !app_nil_r in E. cbn in E.
      rewrite E by done. eexists (inr a), _. split; [done|]. split; [|split].
      * split; [congruence|]. rewrite Ep. by rewrite set_block_lookup.
      * intros x Hx _. apply set_block_other. congruence.
      * by left.
    + subst vs. destruct ws; [|done]. cbn. apply strong_same. split; [done|]. by rewrite Ep.
  - subst ws. destruct vs; [|done]. cbn. by apply strong_same.
Qed.

(** Assignment never moves, so it needs no condition on moves. *)
Lemma copy_assign_strong w a vs other ws :
  holds w a vs -> holds w other ws -> fits (length ws) -> (data_ a = data_ other -> data_ a = None) ->
  (length vs = length ws -> nothrow_copy_assignable ty = false -> head (allocs w) <> Some false) ->
  strong w a ws (copy_assign ty a other).
Proof using alloc_fresh sizeof_pos Hno.
  intros Ha Ho Hfit Hdist Hnull. pose proof (proj1 Ha) as Hsz. pose proof (proj1 Ho) as Hso. unfold copy_assign. rewrite Hsz, Hso.
  destruct (Nat.eqb_spec (length vs) (length ws)) as [Heq|Hneq].
  - unfold CopyAssignmentForSizeEqual. destruct (nothrow_copy_assignable ty).
    + rewrite Hsz, Hso. by apply assign_in_place.
    + destruct (copy_array_spec w other ws Ho Hfit) as (r & w1 & E & H1); [by apply Hnull|].
      unfold strong, bind at 1. rewrite E. destruct r as [e|b]; [by eexists (inl e), w1|].
      destruct H1 as (q & -> & Hq & H1). destruct (destroy_release w a vs ws q w1) as (w2 & E2 & H2); [done..|].
      rewrite E2. by eexists (inr _), w2.
  - unfold CopyAssignmentForSizeNotEqual, cond. rewrite Hno, Hso. cbn [andb].
    apply strong_fill with (finish := fun q => _); [done| |]; intros q w1; [by apply copy_other|by apply (destroy_release w a vs)].
Qed.
Lemma make_array_strong w n : fits n -> strong w empty_array (replicate n (default_value ty)) (make_array ty n).
Proof using alloc_fresh sizeof_pos.
  intros Hfit. set (vs := replicate n (default_value ty)). assert (length vs = n) as Hl by apply length_replicate.
  apply strong_fill with (finish := fun q => _); [done| |]; intros q w1 Hq Hw1.
  - destruct (default_construct_spec q n w1 [] [] []) as (r & w2 & E & H2 & _).
    { by rewrite Hw1, lookup_insert_eq, app_nil_r. }
    eexists _, w2. split; [exact E|]. rewrite H2, Hw1, insert_insert_eq, app_nil_r. destruct r; by eauto.
  - unfold ret. eexists. split; [by rewrite Hl|]. split; [|split].
    + split; [done|]. cbn. by rewrite Hw1, lookup_insert_eq.
    + intros x _ Hx. cbn in Hx. rewrite Hw1, lookup_insert_ne by congruence. done.
    + by right.
Qed.

Lemma destroy_array_spec w a vs : holds w a vs ->
  exists w', destroy_array a w = Some (inr tt, w') /\ leaked w' = leaked w /\
    heap w' = match data_ a with Some p => delete p (heap w) | None => heap w end.
Proof using.
  intros [Hsz Ha]. unfold destroy_array, bind, deref. rewrite Hsz. destruct (data_ a) as [p|].
  - pose proof (DestroyRange_spec p vs w [] []) as E. rewrite !app_nil_r in E. cbn [app length] in E. rewrite E by done.
    unfold deallocate. rewrite set_block_lookup. cbn. eexists. split; [done|]. cbn. split.
    + assert (forall n, objects (raw n) = 0)%nat as Hraw by (by intros n; induction n). rewrite Hraw. lia.
    + by rewrite delete_insert_eq.
  - subst vs. cbn. by eauto.
Qed.
End copied.
End typed.
(** C35 For elements that are copied when the storage moves (their move constructor
    may throw, and the allocator does not reallocate them) and new sizes that
    in bytes are less than 2^64, construction, growing,
    shrinking and copy assignment give the strong guarantee of the comments: each
    returns an array with the right values, with the old block gone and no other block
    touched, or throws and leaves the whole heap as it was, whatever allocation fails
    and whatever constructor throws; the destructor destroys every object of the
    array. Assignment through the copy constructor, for equal sizes, needs its
    allocation to succeed. *)
Theorem array_exception_safe (alloc_fresh : forall h, h !! alloc h = None) ty w a vs other ws n :
  (0 < sizeof_T)%Z -> fits n -> fits (length ws) ->
  can_reallocate ty = false -> MoveIfNoexcept ty = false ->
  holds w a vs -> holds w other ws -> (data_ a = data_ other -> data_ a = None) ->
  strong w empty_array (replicate n (default_value ty)) (make_array ty n) /\
  strong w a (vs ++ replicate (n - length vs) (default_value ty)) (Grow ty a n) /\
  strong w a (take n vs) (Shrink ty a n) /\
  (length vs <> length ws \/ nothrow_copy_assignable ty = true \/ head (allocs w) <> Some false ->
   strong w a ws (copy_assign ty a other)) /\
  (exists w', destroy_array a w = Some (inr tt, w') /\ leaked w' = leaked w /\
     heap w' = match data_ a with Some p => delete p (heap w) | None => heap w end).
Proof using.
  intros Hpos Hn Hws Hno Hm Ha Ho Hdist. pose proof (proj1 Ha) as Hsz. split; [|split; [|split; [|split]]].
  - by apply make_array_strong.
  - unfold Grow. rewrite Hsz. destruct (Nat.leb_spec n (length vs)).
    + replace (n - length vs)%nat with 0%nat by lia. cbn. rewrite app_nil_r. by apply strong_same.
    + by apply Reallocate_strong.
  - unfold Shrink. rewrite Hsz. destruct (Nat.leb_spec (length vs) n).
    + rewrite take_ge by lia. by apply strong_same.
    + by apply Shrink_strong.
  - intros Hc. apply (copy_assign_strong ty alloc_fresh Hpos Hno w a vs other ws); try done.
    intros Heq Hass. destruct Hc as [?|[?|?]]; congruence.
  - by apply (destroy_array_spec w a vs).
Qed.
End array.
Arguments elem_type : clear implicits.
Arguments world : clear implicits.

(** ** Examples *)

Section examples.
Local Open Scope Z_scope.

(** A heap that allocates the first free address. *)
Definition free_block (h : gmap positive (list (option Z))) : positive := fresh (dom h : gset positive).

Lemma free_block_fresh h : h !! free_block h = None.
Proof using. unfold free_block. apply (not_elem_of_dom (D := gset positive)), is_fresh. Qed.

(** Default value 0, moved-from value -1; whether the type is reallocated, whether
    its moves throw and whether its assignments and default constructor do. *)
Definition elem (realloc nothrow_moves nothrow_rest : bool) : elem_type Z :=
  mkElem 0 (-1) realloc nothrow_moves true nothrow_rest nothrow_rest.

(** An array [1; 2], an array [3; 4; 5] and an empty one. *)
Definition two_arrays (allocs throws : list bool) : world Z :=
  mkWorld {[ 1%positive := [Some 1; Some 2]; 2%positive := [Some 3; Some 4; Some 5] ]} allocs throws 0.
Definition array_1 : ReservedArray := mkArray (Some 1%positive) 2.
Definition array_2 : ReservedArray := mkArray (Some 2%positive) 3.

Lemma array_exception_safe_witness :
  let w := two_arrays [] [false; true] in
  strong w empty_array [0; 0; 0] (make_array free_block 32 (elem false false false) 3%nat) /\
  strong w array_1 [1; 2; 0] (Grow free_block 32 (elem false false false) array_1 3%nat) /\
  strong w array_1 [1; 2] (Shrink free_block 32 (elem false false false) array_1 3%nat) /\
  (2%nat <> 3%nat \/ false = true \/ None <> Some false ->
   strong w array_1 [3; 4; 5] (copy_assign free_block 32 (elem false false false) array_1 array_2)) /\
  (exists w', destroy_array array_1 w = Some (inr tt, w') /\ leaked w' = leaked w /\ heap w' = delete 1%positive (heap w)).
Proof using.
  apply (array_exception_safe free_block 32 free_block_fresh (elem false false false) (two_arrays [] [false; true])
           array_1 [1; 2] array_2 [3; 4; 5] 3%nat eq_refl eq_refl eq_refl eq_refl eq_refl (conj eq_refl eq_refl) (conj eq_refl eq_refl)).
  discriminate.
Defined.

(** ** Where the array departs from what its comments say *)

Definition outcome {A} (r : option ((exn + A) * world Z)) : option ((exn + A) * list (option (list (option Z))) * nat) :=
  r ← r; Some (r.1, [heap r.2 !! 1%positive; heap r.2 !! 2%positive; heap r.2 !! 3%positive], leaked r.2).

(** [Reallocate] releases the old block without destroying the objects in it. *)
Lemma grow_leaks_objects :
  outcome (Grow free_block 32 (elem false false true) array_1 3%nat (two_arrays [] []))
  = Some (inr (mkArray (Some 3%positive) 3), [None; Some [Some 3; Some 4; Some 5]; Some [Some 1; Some 2; Some 0]], 2%nat).
Proof using. vm_compute. reflexivity. Qed.

(** So does [Shrink_impl] for the objects that stay. *)
Lemma shrink_leaks_objects :
  outcome (Shrink free_block 32 (elem false false true) array_1 1%nat (two_arrays [] []))
  = Some (inr (mkArray (Some 3%positive) 1), [None; Some [Some 3; Some 4; Some 5]; Some [Some 1]], 1%nat).
Proof using. vm_compute. reflexivity. Qed.

(** Where the elements are moved and a default constructor then throws, the array
    is left with moved-from elements. *)
Lemma grow_loses_values :
  outcome (Grow free_block 32 (elem false true false) array_1 3%nat (two_arrays [] [true]))
  = Some (inl thrown, [Some [Some (-1); Some (-1)]; Some [Some 3; Some 4; Some 5]; None], 2%nat).
Proof using. vm_compute. reflexivity. Qed.

(** Assigning an empty array to an array that is reallocated frees its block and
    throws: [data_] dangles. *)
Lemma assign_empty_dangles :
  outcome (copy_assign free_block 32 (elem true true true) array_1 empty_array (two_arrays [] []))
  = Some (inl bad_alloc, [None; Some [Some 3; Some 4; Some 5]; None], 2%nat) /\
  (w ← copy_assign free_block 32 (elem true true true) array_1 empty_array (two_arrays [] []); destroy_array array_1 w.2) = None.
Proof using. split; vm_compute; reflexivity. Qed.

(** Assigning a shorter array to one that is reallocated destroys objects past the
    end of the new block. *)
Lemma assign_shorter_undefined :
  copy_assign free_block 32 (elem true true true) array_2 array_1 (two_arrays [] []) = None.
Proof using. vm_compute. reflexivity. Qed.

(** [Shrink_impl] destroys the tail before a [realloc] that may fail; the array
    then still counts it, and the destructor destroys it again. *)
Lemma shrink_failure_destroys :
  outcome (Shrink free_block 32 (elem true true true) array_1 1%nat (two_arrays [false] []))
  = Some (inl bad_alloc, [Some [Some 1; None]; Some [Some 3; Some 4; Some 5]; None], 0%nat) /\
  (w ← Shrink free_block 32 (elem true true true) array_1 1%nat (two_arrays [false] []); destroy_array array_1 w.2) = None.
Proof using. split; vm_compute; reflexivity. Qed.

(** The size in bytes is not checked: 2^59 elements of 32 bytes get a block of 0 bytes,
    and the first default constructor writes past it. *)
Lemma array_size_wraps n : Z.of_nat n = 2 ^ 59 ->
  cells_of 32 n = 0%nat /\ make_array free_block 32 (elem false false true) n (two_arrays [] []) = None.
Proof using.
  intros Hn. assert (cells_of 32 n = 0%nat) as Hc by (unfold cells_of, byte_size; rewrite Hn; reflexivity).
  split; [done|]. unfold make_array, bind, allocate, next_alloc. cbn. rewrite Hc. unfold catch.
  destruct n as [|n]; [done|]. reflexivity.
Qed.

(** The copy constructor writes through the null pointer of a failed allocation. *)
Lemma copy_unchecked_allocation :
  copy_array free_block 32 (elem false false false) array_1 (two_arrays [false] []) = None.
Proof using. vm_compute. reflexivity. Qed.
End examples.
