(* ===== verification/RingBuffer.v ===== *)
(** * RingBuffer: kanon/buffer/ring_buffer.h

    A buffer of elements in a temporary file that is mapped twice, so that the
    region after the end is meant to be the region at the start again.  The
    address space around [data_] is a list of mappings; an access goes to the file
    through the mapping that covers it, and fails outside of all mappings and
    behind the end of the file.  Offsets are relative to [data_], in bytes.
    The results of the system calls are arguments.  The copy constructor calls
    [std::copy] with two arguments and does not compile; it and the assignment
    that uses it are left out. *)

From Stdlib Require Import ZArith Lia.
From stdpp Require Import gmap.
From S2P Require Import Prelude.

Definition ROUNDUP_PGSIZE (size : Z) : Z := u64 (Z.land (u64 (size + 0xfff)) (u64 (-4096))).
Definition IS_PGSIZE (size : Z) : bool := negb (Z.land size (u64 (-4096)) =? 0).

(** Part of the address space. A reserved part cannot be accessed. *)
Inductive backing := Reserved | File (offset : Z).
Record mapping := mkMapping { m_start : Z; m_len : Z; m_back : backing }.

Section ring.
Context {V : Type} (sizeof_T : Z).

Record RingBuffer := mkRing {
  null : bool;                 (* data_ is NULL *)
  count_ : Z;
  write_index_ : Z;
  read_index_ : Z;
  space : list mapping;        (* the newest first: MAP_FIXED replaces what was there *)
  file_size : Z;
  file : gmap Z V              (* the objects, by their offset in the file *)
}.

(** ** Memory *)

Fixpoint find_mapping (ms : list mapping) (off : Z) : option mapping :=
  match ms with
  | [] => None
  | m :: ms => if (m_start m <=? off) && (off <? m_start m + m_len m) then Some m else find_mapping ms off
  end.

(** Where the byte at [off] is in the file: behind the last page of the file an
    access raises SIGBUS. *)
Definition locate (b : RingBuffer) (off : Z) : option Z :=
  m ← find_mapping (space b) off;
  match m_back m with
  | Reserved => None
  | File o => let f := o + (off - m_start m) in assert! f <? ROUNDUP_PGSIZE (file_size b); Some f
  end.

(** The object at [data_ + i]. *)
Definition address (b : RingBuffer) (i : Z) : option Z :=
  let off := i * sizeof_T in
  f ← locate b off; l ← locate b (off + sizeof_T - 1);
  assert! l =? f + sizeof_T - 1; Some f.

Definition set_file (b : RingBuffer) (m : gmap Z V) : RingBuffer :=
  mkRing (null b) (count_ b) (write_index_ b) (read_index_ b) (space b) (file_size b) m.
Definition set_index (b : RingBuffer) (w r : Z) : RingBuffer :=
  mkRing (null b) (count_ b) w r (space b) (file_size b) (file b).

(** Reading an object, and constructing one in place. *)
Definition load (b : RingBuffer) (i : Z) : option V := f ← address b i; file b !! f.
Definition construct (b : RingBuffer) (i : Z) (v : V) : option RingBuffer :=
  f ← address b i; Some (set_file b (<[f := v]> (file b))).
Definition destroy (b : RingBuffer) (i : Z) : option RingBuffer :=
  _ ← load b i; f ← address b i; Some (set_file b (delete f (file b))).

(** ** Operations *)

(** The results of mkstemp, ftruncate and the three mmap; a failure of unlink or
    close is only logged, the others end the program. *)
Record calls := mkCalls { mkstemp_ok : bool; ftruncate_ok : bool; mmap_ok : bool; mmap1_ok : bool; mmap2_ok : bool }.

Definition make_RingBuffer (sys : calls) (n : Z) : option RingBuffer :=
  assert! mkstemp_ok sys;
  let count := ROUNDUP_PGSIZE (u64 (n * sizeof_T)) in
  assert! IS_PGSIZE count;
  assert! ftruncate_ok sys;
  assert! mmap_ok sys;
  let sp := [mkMapping 0 (u64 (Z.shiftl count 1)) Reserved] in
  assert! mmap1_ok sys;
  let sp := mkMapping 0 count (File 0) :: sp in
  assert! mmap2_ok sys;
  let sp := mkMapping (count * sizeof_T) count (File count) :: sp in
  Some (mkRing false n 0 0 sp count ∅).

(** What is still mapped when the object is gone. *)
Definition unmap (off len : Z) (m : mapping) : bool := negb ((off <=? m_start m) && (m_start m + m_len m <=? off + len)).
Definition destroy_RingBuffer (munmap_ok : bool) (b : RingBuffer) : option (list mapping) :=
  if null b then Some (space b)
  else
    assert! munmap_ok;
    Some (List.filter (unmap 0 (u64 (Z.shiftl (ROUNDUP_PGSIZE (u64 (count_ b * sizeof_T))) 1))) (space b)).

Definition readable (b : RingBuffer) : Z := u64 (write_index_ b - read_index_ b).
Definition writeable (b : RingBuffer) : Z := u64 (count_ b - readable b).
Definition max_size (b : RingBuffer) : Z := count_ b.

Definition AdvanceRead (b : RingBuffer) (n : Z) : RingBuffer :=
  let read_index := u64 (read_index_ b + n) in
  if count_ b <? read_index
  then set_index b (u64 (write_index_ b - count_ b)) (u64 (read_index - count_ b))
  else set_index b (write_index_ b) read_index.

(** [std::copy] assigns to the objects from [data_ + i] on. *)
Fixpoint copy_to (b : RingBuffer) (i : Z) (vs : list V) : option RingBuffer :=
  match vs with
  | [] => Some b
  | v :: vs => b ← construct b i v; copy_to b (i + 1) vs
  end.

Definition Append (b : RingBuffer) (vs : list V) : option (Z * RingBuffer) :=
  assert! Z.of_nat (length vs) <=? count_ b;
  b ← copy_to b (read_index_ b) vs;
  Some (0, b).

Definition emplace (b : RingBuffer) (v : V) : option RingBuffer :=
  if 1 <=? writeable b then
    b ← construct b (write_index_ b) v;
    Some (set_index b (u64 (write_index_ b + 1)) (read_index_ b))
  else
    b ← destroy b (read_index_ b);
    b ← construct b (read_index_ b) v;
    Some (AdvanceRead (set_index b (u64 (write_index_ b + 1)) (read_index_ b)) 1).

(** What a user sees through [GetReadBegin] and [readable]. *)
Fixpoint load_from (b : RingBuffer) (i : Z) (n : nat) : option (list V) :=
  match n with
  | O => Some []
  | S n => v ← load b i; vs ← load_from b (i + 1) n; Some (v :: vs)
  end.
Definition GetReadable (b : RingBuffer) : option (list V) := load_from b (read_index_ b) (Z.to_nat (readable b)).

Definition moved_from (b : RingBuffer) : RingBuffer := mkRing true 0 0 0 [] 0 ∅.
Definition move_RingBuffer (other : RingBuffer) : RingBuffer * RingBuffer := (other, moved_from other).
Definition swap (b other : RingBuffer) : RingBuffer * RingBuffer := (other, b).

(** ** The queue *)

Inductive ring_op := REmplace (v : V) | RAdvance (n : Z) | RAppend (vs : list V).

Definition run_ring (b : RingBuffer) (o : ring_op) : option RingBuffer :=
  match o with
  | REmplace v => emplace b v
  | RAdvance n => Some (AdvanceRead b n)
  | RAppend vs => snd <$> Append b vs
  end.

Fixpoint run_rings (b : RingBuffer) (os : list ring_op) : option RingBuffer :=
  match os with
  | [] => Some b
  | o :: os => b ← run_ring b o; run_rings b os
  end.

(** The same on a list that starts [room] places before the end of the buffer: more
    than is there cannot be taken.  [Append] writes over the oldest elements, which it
    should put behind the newest, and makes nothing readable. *)
Fixpoint run_queue (room : Z) (q : list V) (os : list ring_op) : option (list V) :=
  match os with
  | [] => Some q
  | REmplace v :: os => run_queue room (q ++ [v]) os
  | RAdvance n :: os =>
    assert! (0 <=? n) && (n <=? Z.of_nat (length q)); run_queue (room - n) (drop (Z.to_nat n) q) os
  | RAppend vs :: os =>
    assert! Z.of_nat (length vs) <=? room; run_queue room (take (length q) vs ++ drop (length vs) q) os
  end.

Definition emplaces (os : list ring_op) : Z :=
  Z.of_nat (length (List.filter (fun o => match o with REmplace _ => true | _ => false end) os)).

(** ** Pages *)

Lemma roundup_spec x : 0 <= x < 2 ^ 63 -> ROUNDUP_PGSIZE x = (x + 4095) / 4096 * 4096.
Proof using.
  intros Hx. unfold ROUNDUP_PGSIZE. rewrite (u64_id (x + 0xfff)) by lia.
  assert (Z.land (x + 0xfff) (u64 (-4096)) = (x + 4095) / 4096 * 4096) as ->.
  { change (u64 (-4096)) with (Z.shiftl (Z.ones 52) 12). change (x + 0xfff) with (x + 4095).
    replace ((x + 4095) / 4096 * 4096) with (Z.shiftl (Z.shiftr (x + 4095) 12) 12)
      by (rewrite Z.shiftl_mul_pow2, Z.shiftr_div_pow2 by lia; done).
    apply Z.bits_inj'. intros i Hi. rewrite Z.land_spec, !Z.shiftl_spec by lia.
    destruct (Z.ltb_spec i 12) as [L|L]; [rewrite !(Z.testbit_neg_r _ (i - 12)) by lia; apply andb_false_r|].
    rewrite Z.shiftr_spec by lia. replace (i - 12 + 12) with i by lia.
    destruct (Z.ltb_spec i 64) as [L'|L'].
    - rewrite Z.ones_spec_low by lia. apply andb_true_r.
    - rewrite (Z.bits_above_log2 (x + 4095) i); [done|lia|]. apply Z.log2_lt_pow2; [lia|].
      apply Z.lt_le_trans with (2 ^ 64); [lia|]. apply Z.pow_le_mono_r; lia. }
  apply u64_id. pose proof (Z.div_mod (x + 4095) 4096 ltac:(lia)). pose proof (Z.mod_pos_bound (x + 4095) 4096 ltac:(lia)). lia.
Qed.

Lemma roundup_range x : 0 <= x < 2 ^ 63 -> x <= ROUNDUP_PGSIZE x < x + 4096.
Proof using.
  intros Hx. rewrite roundup_spec by done.
  pose proof (Z.div_mod (x + 4095) 4096 ltac:(lia)). pose proof (Z.mod_pos_bound (x + 4095) 4096 ltac:(lia)). lia.
Qed.

Lemma roundup_idem x : 0 <= x < 2 ^ 62 -> ROUNDUP_PGSIZE (ROUNDUP_PGSIZE x) = ROUNDUP_PGSIZE x.
Proof using.
  intros Hx. pose proof (roundup_range x ltac:(lia)). rewrite (roundup_spec (ROUNDUP_PGSIZE x)) by lia.
  rewrite roundup_spec by lia. rewrite (Z.div_add_l _ 4096 4095) by lia.
  change (4095 / 4096) with 0. lia.
Qed.

Lemma roundup_page x : 1 <= x < 2 ^ 62 -> IS_PGSIZE (ROUNDUP_PGSIZE x) = true.
Proof using.
  intros Hx. unfold IS_PGSIZE. pose proof (roundup_range x ltac:(lia)).
  assert (Z.land (ROUNDUP_PGSIZE x) (u64 (-4096)) = ROUNDUP_PGSIZE x) as ->.
  { rewrite roundup_spec by lia. set (k := (x + 4095) / 4096).
    change (u64 (-4096)) with (Z.shiftl (Z.ones 52) 12).
    replace (k * 4096) with (Z.shiftl k 12) by (rewrite Z.shiftl_mul_pow2 by lia; done).
    rewrite <- Z.shiftl_land, Z.land_ones by lia. rewrite Z.mod_small; [done|].
    subst k. split; [apply Z.div_pos; lia|]. apply Z.div_lt_upper_bound; lia. }
  by rewrite (proj2 (Z.eqb_neq _ _)) by lia.
Qed.

(** ** A buffer that has not wrapped *)

Section capacity.
Context (n : Z) (Hn : 1 <= n) (Hsz : 1 <= sizeof_T) (Hbound : n * sizeof_T < 2 ^ 62).

Abbreviation C := (ROUNDUP_PGSIZE (n * sizeof_T)).

Definition made (b : RingBuffer) : Prop :=
  count_ b = n /\ file_size b = C /\
  space b = [mkMapping (C * sizeof_T) C (File C); mkMapping 0 C (File 0);
             mkMapping 0 (u64 (Z.shiftl C 1)) Reserved].

Lemma C_range : n * sizeof_T <= C < n * sizeof_T + 4096.
Proof using Hn Hsz Hbound. apply roundup_range. nia. Qed.

Lemma locate_in b off : made b -> 0 <= off < C -> locate b off = Some off.
Proof using Hn Hsz Hbound.
  intros (_ & Hf & Hs) Ho. unfold locate. rewrite Hs, Hf. cbn [find_mapping m_start m_len].
  rewrite (proj2 (Z.leb_gt (C * sizeof_T) off)) by nia. cbn [andb].
  rewrite (proj2 (Z.leb_le 0 off)), (proj2 (Z.ltb_lt off (0 + C))) by lia. cbn [andb mbind option_bind m_back m_start].
  rewrite roundup_idem by nia. replace (0 + (off - 0)) with off by lia. by rewrite check_bind_true by (apply Z.ltb_lt; lia).
Qed.

Lemma address_in b i : made b -> 0 <= i < n -> address b i = Some (i * sizeof_T).
Proof using Hn Hsz Hbound.
  intros Hb Hi. pose proof C_range. unfold address. rewrite !locate_in by (done || nia). cbn [mbind option_bind].
  by rewrite check_bind_true by (apply Z.eqb_eq; lia).
Qed.

(** Behind the first mapping nothing can be accessed. *)
Lemma locate_out b off : made b -> C <= off -> locate b off = None.
Proof using Hn Hsz Hbound.
  intros (_ & Hf & Hs) Ho. unfold locate. rewrite Hs, Hf. cbn [find_mapping m_start m_len].
  destruct ((C * sizeof_T <=? off) && (off <? C * sizeof_T + C)) eqn:E1; cbn [mbind option_bind m_back m_start].
  - rewrite roundup_idem by nia. apply andb_prop in E1 as [E1 _]. apply Z.leb_le in E1.
    by rewrite (proj2 (Z.ltb_ge _ _)) by lia.
  - rewrite (proj2 (Z.ltb_ge off (0 + C))) by lia. rewrite andb_false_r.
    by destruct ((0 <=? off) && (off <? 0 + u64 (Z.shiftl C 1))).
Qed.

Abbreviation zlength q := (Z.of_nat (length q)).

(** The elements from [r] on are [q]. *)
Record holds (b : RingBuffer) (r : Z) (q : list V) : Prop := {
  h_made : made b;
  h_read : read_index_ b = r;
  h_write : write_index_ b = r + zlength q;
  h_range : 0 <= r /\ r + zlength q <= n;
  h_elem : forall k v, q !! k = Some v -> file b !! ((r + Z.of_nat k) * sizeof_T) = Some v
}.

(** Nothing was ever put at or behind the index [i]. *)
Definition untouched (b : RingBuffer) (i : Z) : Prop := forall j, i <= j -> file b !! (j * sizeof_T) = None.

Lemma n_small : n < 2 ^ 62.
Proof using Hn Hsz Hbound. nia. Qed.

Lemma make_holds :
  exists b, make_RingBuffer (mkCalls true true true true true) n = Some b /\ holds b 0 [] /\ untouched b 0.
Proof using Hn Hsz Hbound.
  unfold make_RingBuffer. cbn [mkstemp_ok ftruncate_ok mmap_ok mmap1_ok mmap2_ok].
  rewrite (u64_id (n * sizeof_T)) by nia. rewrite !check_bind_true by (done || by apply roundup_page; nia).
  eexists. split; [done|]. split; [split; cbn; try done; lia|by intros ? ?].
Qed.

Lemma holds_readable b r q : holds b r q -> readable b = zlength q.
Proof using Hn Hsz Hbound.
  intros [_ Hr Hw Hrg _]. pose proof n_small. unfold readable. rewrite Hr, Hw. rewrite u64_id; lia.
Qed.

Lemma holds_writeable b r q : holds b r q -> writeable b = n - zlength q.
Proof using Hn Hsz Hbound.
  intros H. pose proof n_small. unfold writeable. rewrite (holds_readable _ _ _ H). destruct H as [(-> & _) _ _ Hrg _].
  rewrite u64_id; lia.
Qed.

Lemma emplace_holds b r q v :
  holds b r q -> r + zlength q < n -> exists b', emplace b v = Some b' /\ holds b' r (q ++ [v]) /\
    (untouched b (r + zlength q) -> untouched b' (r + zlength (q ++ [v]))).
Proof using Hn Hsz Hbound.
  intros H Hlt. pose proof n_small. unfold emplace. rewrite (holds_writeable _ _ _ H).
  destruct H as [Hm Hr Hw [Hr0 Hrn] He]. rewrite (proj2 (Z.leb_le 1 _)) by lia. unfold construct.
  rewrite Hw, (address_in _ _ Hm) by lia. cbn [mbind option_bind set_file write_index_ read_index_].
  eexists. split; [done|]. rewrite Hw. split; [split; cbn; rewrite ?length_app; cbn; try done|].
  - rewrite u64_id by lia. lia.
  - lia.
  - intros k x Hk. apply lookup_app_Some in Hk as [Hk|[Hk1 Hk2]].
    + rewrite lookup_insert_ne; [by apply He|]. apply lookup_lt_Some in Hk. nia.
    + apply list_lookup_singleton_Some in Hk2 as [Hk2 <-]. assert (k = length q) as -> by lia. apply lookup_insert_eq.
  - rewrite length_app. cbn. intros Hf i Hi. cbn. rewrite lookup_insert_ne by nia. apply Hf. lia.
Qed.

Lemma advance_holds b r q k :
  holds b r q -> 0 <= k <= zlength q -> holds (AdvanceRead b k) (r + k) (drop (Z.to_nat k) q).
Proof using Hn Hsz Hbound.
  intros [Hm Hr Hw [Hr0 Hrn] He] Hk. pose proof n_small. unfold AdvanceRead. rewrite Hr, (proj1 Hm).
  rewrite (u64_id (r + k)) by lia. rewrite (proj2 (Z.ltb_ge n (r + k))) by lia.
  split; cbn; rewrite ?length_drop; try done; try lia.
  intros i v Hi. rewrite lookup_drop in Hi. apply He in Hi. rewrite <- Hi. f_equal. lia.
Qed.

(** [Append] writes over the elements at the front. *)
Lemma copy_to_spec vs : forall b i,
  made b -> 0 <= i -> i + zlength vs <= n ->
  exists m, copy_to b i vs = Some (set_file b m) /\
    (forall k v, vs !! k = Some v -> m !! ((i + Z.of_nat k) * sizeof_T) = Some v) /\
    (forall j, (j < i \/ i + zlength vs <= j) -> m !! (j * sizeof_T) = file b !! (j * sizeof_T)).
Proof using Hn Hsz Hbound.
  induction vs as [|v vs IH]; intros b i Hm Hi Hl; cbn [copy_to].
  { exists (file b). split; [by destruct b|]. split; [done|done]. }
  cbn [length] in Hl. unfold construct. rewrite (address_in _ _ Hm) by lia. cbn [mbind option_bind].
  destruct (IH (set_file b (<[i * sizeof_T := v]> (file b))) (i + 1)) as (m & E & Hin & Hout); [done|lia|lia|].
  exists m. split; [exact E|]. split.
  - intros [|k] x Hk; cbn in Hk.
    + injection Hk as ->. rewrite Z.add_0_r, Hout by lia. cbn. apply lookup_insert_eq.
    + rewrite <- (Hin k x Hk). f_equal. lia.
  - intros j Hj. cbn [length] in Hj. rewrite Hout by lia. cbn. apply lookup_insert_ne. nia.
Qed.

Lemma append_holds b r q vs :
  holds b r q -> r + zlength vs <= n ->
  exists b', Append b vs = Some (0, b') /\ holds b' r (take (length q) vs ++ drop (length vs) q).
Proof using Hn Hsz Hbound.
  intros [Hm Hr Hw [Hr0 Hrn] He] Hl. unfold Append. rewrite (proj1 Hm). rewrite check_bind_true by (apply Z.leb_le; lia).
  rewrite Hr. destruct (copy_to_spec vs b r Hm Hr0 Hl) as (m & -> & Hin & Hout). cbn [mbind option_bind].
  assert (length (take (length q) vs ++ drop (length vs) q) = length q) as El
    by (rewrite length_app, length_take, length_drop; lia).
  eexists. split; [done|]. split; rewrite ?El; cbn; try done.
  intros k x Hk. apply lookup_app_Some in Hk as [Hk|[Hk1 Hk2]].
  - apply lookup_take_Some in Hk as [Hk _]. by apply Hin.
  - rewrite length_take in Hk1, Hk2. rewrite lookup_drop in Hk2. pose proof (lookup_lt_Some _ _ _ Hk2).
    replace (length vs + (k - length q `min` length vs))%nat with k in Hk2 by lia.
    rewrite Hout by lia. by apply He.
Qed.

Lemma load_from_holds b r q k :
  holds b r q -> (k <= length q)%nat ->
  load_from b (r + Z.of_nat (length q - k)) k = Some (drop (length q - k) q).
Proof using Hn Hsz Hbound.
  intros H Hk. induction k as [|k IH].
  - rewrite drop_ge by lia. done.
  - pose proof H as [Hm _ _ Hrg He]. cbn [load_from]. destruct (q !! (length q - S k)%nat) as [v|] eqn:E.
    2: { apply lookup_ge_None in E. lia. }
    unfold load. rewrite (address_in _ _ Hm) by lia. cbn [mbind option_bind]. rewrite (He _ _ E). cbn [mbind option_bind].
    replace (r + Z.of_nat (length q - S k) + 1) with (r + Z.of_nat (length q - k)) by lia. rewrite IH by lia.
    cbn [mbind option_bind]. rewrite (drop_S _ _ _ E). do 3 f_equal. lia.
Qed.

Lemma GetReadable_holds b r q : holds b r q -> GetReadable b = Some q.
Proof using Hn Hsz Hbound.
  intros H. unfold GetReadable. rewrite (holds_readable _ _ _ H), Nat2Z.id.
  pose proof (load_from_holds b r q (length q) H ltac:(lia)) as E. rewrite Nat.sub_diag, Z.add_0_r in E.
  rewrite (h_read _ _ _ H). exact E.
Qed.

Lemma run_rings_holds os : forall b r q q',
  holds b r q -> r + zlength q + emplaces os <= n -> run_queue (n - r) q os = Some q' ->
  exists b' r', run_rings b os = Some b' /\ holds b' r' q'.
Proof using Hn Hsz Hbound.
  induction os as [|o os IH]; intros b r q q' H Hle Hq; [injection Hq as <-; by exists b, r|].
  destruct o as [v|k|vs]; cbn [run_queue] in Hq; cbn [run_rings run_ring].
  - unfold emplaces in Hle. cbn in Hle. destruct (emplace_holds b r q v H) as (b1 & -> & H1 & _); [lia|].
    cbn [mbind option_bind]. apply (IH b1 r (q ++ [v])); [done| |done]. unfold emplaces. rewrite length_app. cbn. lia.
  - destruct ((0 <=? k) && (k <=? zlength q)) eqn:E; [|done]. apply andb_prop in E as [E1 E2].
    apply Z.leb_le in E1, E2. cbn in Hq. cbn [mbind option_bind].
    apply (IH _ (r + k) (drop (Z.to_nat k) q)); [by apply advance_holds| |].
    + rewrite length_drop. unfold emplaces in *. cbn in Hle. lia.
    + by replace (n - (r + k)) with (n - r - k) by lia.
  - destruct (zlength vs <=? n - r) eqn:E; [|done]. apply Z.leb_le in E. cbn in Hq.
    destruct (append_holds b r q vs H) as (b1 & -> & H1); [lia|]. cbn [fmap option_fmap option_map snd mbind option_bind].
    apply (IH b1 r (take (length q) vs ++ drop (length vs) q)); [done| |done].
    rewrite length_app, length_take, length_drop. unfold emplaces in *. cbn in Hle. lia.
Qed.

Lemma load_from_none b i k m : (k < m)%nat -> load b (i + Z.of_nat k) = None -> load_from b i m = None.
Proof using.
  revert i k. induction m as [|m IH]; intros i k Hk Hl; [lia|]. cbn [load_from]. destruct k as [|k].
  - rewrite Z.add_0_r in Hl. by rewrite Hl.
  - destruct (load b i); [|done]. cbn [mbind option_bind].
    rewrite (IH (i + 1) k); [done|lia|]. rewrite <- Hl. f_equal. lia.
Qed.

(** An object behind the ones that were put is not there. *)
Lemma load_behind b i : made b -> n <= i -> file b !! (i * sizeof_T) = None -> load b i = None.
Proof using Hn Hsz Hbound.
  intros Hm Hi Hf. unfold load, address. destruct (Z.ltb_spec (i * sizeof_T) C) as [L|L].
  - assert (0 <= i * sizeof_T) by nia. rewrite (locate_in b (i * sizeof_T)) by (done || lia). cbn [mbind option_bind]. destruct (locate b _) as [l|]; [|done].
    cbn [mbind option_bind]. destruct (l =? _); [|done]. done.
  - by rewrite (locate_out b (i * sizeof_T) Hm L).
Qed.

(** One element more than fits: the oldest is overwritten, but the element at the
    end of the readable region is not the one that was put. *)
Lemma full_not_readable b q v :
  holds b 0 q -> untouched b n -> zlength q = n -> exists b', emplace b v = Some b' /\ readable b' = n /\ GetReadable b' = None.
Proof using Hn Hsz Hbound.
  intros H Hf Hl. pose proof n_small. unfold emplace. rewrite (holds_writeable _ _ _ H), Hl, Z.sub_diag. cbn [Z.leb].
  destruct H as [Hm Hr Hw Hrg He]. destruct q as [|x q]; [cbn in Hl; lia|].
  assert (address b 0 = Some 0) as Ha by (rewrite (address_in b 0) by (done || lia); f_equal; lia).
  unfold destroy, load, construct. rewrite Hr, Ha. cbn [mbind option_bind]. specialize (He 0%nat x eq_refl).
  change ((0 + Z.of_nat 0) * sizeof_T) with 0 in He. rewrite He. cbn [mbind option_bind].
  set (b1 := set_file b (delete 0 (file b))). assert (read_index_ b1 = 0) as Hr1 by done. rewrite Hr1.
  assert (address b1 0 = Some 0) as Ha1 by done. rewrite Ha1. cbn [mbind option_bind]. eexists. split; [done|].
  unfold AdvanceRead, b1. cbn [set_index read_index_ write_index_ count_ set_file]. rewrite Hr, Hw, (proj1 Hm), Hl.
  change (u64 (0 + 1)) with 1. rewrite (u64_id (0 + n + 1)) by lia. rewrite (proj2 (Z.ltb_ge n 1)) by lia.
  set (b2 := set_index _ _ _). assert (readable b2 = n) as Hrd.
  { unfold readable, b2. cbn. rewrite u64_id; lia. }
  split; [done|]. unfold GetReadable. rewrite Hrd. apply (load_from_none _ _ (Z.to_nat (n - 1))); [lia|].
  assert (read_index_ b2 = 1) as -> by done. replace (1 + Z.of_nat (Z.to_nat (n - 1))) with n by lia.
  apply load_behind; [done|lia|]. cbn. rewrite lookup_insert_ne, lookup_delete_ne by nia. apply Hf. lia.
Qed.
End capacity.
End ring.

(** ** Properties *)

(** C38 A RingBuffer for [n] elements, with [emplace] and [AdvanceRead], is a queue as
    long as no more than [n] elements were put in: its readable region holds what was
    put with [emplace] and not yet taken, in order, and its sizes are those of the
    queue.  [Append] puts nothing in: for values that fit between the read position
    and the end it leaves the sizes as they are, and writes over the oldest elements. *)
Theorem ring_is_queue {V} (sizeof_T n : Z) (os : list (@ring_op V)) (q : list V) :
  1 <= n -> 1 <= sizeof_T -> n * sizeof_T < 2 ^ 62 ->
  emplaces os <= n -> run_queue n [] os = Some q ->
  exists b b', make_RingBuffer sizeof_T (mkCalls true true true true true) n = Some b /\
    run_rings sizeof_T b os = Some b' /\ GetReadable sizeof_T b' = Some q /\
    readable b' = Z.of_nat (length q) /\ writeable b' = n - Z.of_nat (length q).
Proof.
  intros Hn Hsz Hb Hle Hq. destruct (make_holds (V := V) sizeof_T n Hn Hsz Hb) as (b & E & H & _).
  destruct (run_rings_holds sizeof_T n Hn Hsz Hb os b 0 [] q H) as (b' & r' & E' & H'); [cbn; lia|by rewrite Z.sub_0_r|].
  exists b, b'. split_and!; try done.
  - exact (GetReadable_holds sizeof_T n Hn Hsz Hb _ _ _ H').
  - exact (holds_readable sizeof_T n Hn Hsz Hb _ _ _ H').
  - exact (holds_writeable sizeof_T n Hn Hsz Hb _ _ _ H').
Qed.

Definition demo_ring : list ring_op := [REmplace 1; REmplace 2; RAdvance 1; REmplace 3; RAppend [4]].

Lemma ring_is_queue_witness :
  exists b b', make_RingBuffer 8 (mkCalls true true true true true) 3 = Some b /\
    run_rings 8 b demo_ring = Some b' /\ GetReadable 8 b' = Some [4; 3] /\
    readable b' = 2 /\ writeable b' = 3 - 2.
Proof. apply (ring_is_queue 8 3 demo_ring [4; 3]); first [lia | reflexivity | vm_compute; discriminate]. Defined.

(** ** Defects *)

(** The buffer does not close to a ring: with one element more than fits, the
    readable region ends in memory that was never written, for every capacity. *)
Lemma ring_does_not_wrap {V} (sizeof_T n : Z) (vs : list V) (v : V) :
  1 <= n -> 1 <= sizeof_T -> n * sizeof_T < 2 ^ 62 -> Z.of_nat (length vs) = n ->
  exists b b', make_RingBuffer sizeof_T (mkCalls true true true true true) n = Some b /\
    run_rings sizeof_T b (map REmplace vs ++ [REmplace v]) = Some b' /\
    readable b' = n /\ GetReadable sizeof_T b' = None.
Proof.
  intros Hn Hsz Hb Hl. destruct (make_holds (V := V) sizeof_T n Hn Hsz Hb) as (b & E & H & Hu). exists b.
  assert (forall (xs : list V) b r q, holds sizeof_T n b r q -> untouched sizeof_T b (r + Z.of_nat (length q)) ->
    r + Z.of_nat (length q + length xs) <= n ->
    exists b1, run_rings sizeof_T b (map REmplace xs) = Some b1 /\ holds sizeof_T n b1 r (q ++ xs) /\
      untouched sizeof_T b1 (r + Z.of_nat (length q + length xs))) as Hput.
  { induction xs as [|x xs IH]; intros b0 r q H0 Hu0 Hle; [rewrite app_nil_r, Nat.add_0_r; by exists b0|]. cbn [length] in Hle |- *. cbn [map run_rings run_ring].
    destruct (emplace_holds sizeof_T n Hn Hsz Hb b0 r q x H0) as (b1 & -> & H1 & Hu1); [lia|]. cbn [mbind option_bind].
    destruct (IH b1 r (q ++ [x]) H1 (Hu1 Hu0)) as (b2 & -> & H2 & Hu2); [rewrite length_app; cbn; lia|].
    exists b2. rewrite <- app_assoc in H2. split_and!; [done|done|]. rewrite length_app in Hu2. cbn in Hu2.
    by replace (length q + S (length xs))%nat with (length q + 1 + length xs)%nat by lia. }
  destruct (Hput vs b 0 [] H Hu) as (b1 & E1 & H1 & Hu1); [cbn; lia|]. cbn in Hu1. rewrite Hl in Hu1.
  destruct (full_not_readable sizeof_T n Hn Hsz Hb b1 vs v H1 Hu1 Hl) as (b2 & E2 & H2). exists b2. split_and!; try done; [|by apply H2..].
  clear -E1 E2. revert b E1. induction vs as [|x vs IH]; intros b E1.
  - injection E1 as ->. cbn. by rewrite E2.
  - cbn in E1 |- *. destruct (emplace sizeof_T b x); [|done]. by apply IH.
Qed.

(** [Append] does not move the write index: what it wrote is not readable. *)
Lemma append_not_readable :
  (b ← make_RingBuffer 1 (mkCalls true true true true true) 8; '(r, b) ← Append 1 b [1; 2; 3];
   Some (r, readable b)) = Some (0, 0).
Proof. vm_compute. reflexivity. Qed.

(** For elements of more than one byte the second mapping is placed by element
    count instead of bytes, outside of the reserved region, and the destructor does
    not unmap it. *)
Lemma second_mapping_stays :
  (b ← make_RingBuffer (V := Z) 8 (mkCalls true true true true true) 8; destroy_RingBuffer 8 true b)
  = Some [mkMapping (4096 * 8) 4096 (File 4096)].
Proof. vm_compute. reflexivity. Qed.

(** A buffer for no elements is refused by an assertion. *)
Lemma empty_ring_aborts : make_RingBuffer (V := Z) 1 (mkCalls true true true true true) 0 = None.
Proof. reflexivity. Qed.
