(* ===== verification/Any.v ===== *)
(** * kanon::Any: kanon/util/any.h

    An object that holds a value of any copyable type in a holder on the heap.
    The model keeps the heap of holders and the pointers of the objects; the
    specification is value semantics: objects as variables that are empty or
    hold a typed value of their own. *)

From Stdlib Require Import ZArith Lia.
From stdpp Require Import gmap.
From S2P Require Import Prelude.

Section any.
(** The values of all types; a type is its [type_info]. *)
Context {V : Type}.
Definition type_info := nat.

(** [Holder<V>] *)
Record Holder := mkHolder { type : type_info; value : V }.

(** The heap, and [holder_] of each object; [None] for an object that does not
    exist (any more), [Some None] for a null pointer. *)
Record world := mkWorld {
  heap : gmap positive Holder;
  objs : list (option (option positive))
}.

(** [new] *)
Context (alloc : gmap positive Holder -> positive).

Definition new_holder (w : world) (h : Holder) : positive * world :=
  let p := alloc (heap w) in (p, mkWorld (<[p := h]> (heap w)) (objs w)).

(** [delete]; of a null pointer it does nothing, of one that does not point to a
    holder it is undefined. *)
Definition delete_holder (w : world) (p : option positive) : option world :=
  match p with
  | None => Some w
  | Some p => _ ← heap w !! p; Some (mkWorld (delete p (heap w)) (objs w))
  end.

Definition get_obj (w : world) (i : nat) : option (option positive) := o ← objs w !! i; o.
Definition set_obj (w : world) (i : nat) (o : option (option positive)) : world :=
  mkWorld (heap w) (<[i := o]> (objs w)).
Definition add_obj (w : world) (o : option positive) : world := mkWorld (heap w) (objs w ++ [Some o]).

(** [Any()] and [Any(V &&)] *)
Definition make_empty (w : world) : world := add_obj w None.
Definition make_value (w : world) (h : Holder) : world := let '(p, w) := new_holder w h in add_obj w (Some p).

(** [rhs.empty() ? nullptr : rhs.holder_->clone()] *)
Definition clone_of (w : world) (p : option positive) : option (option positive * world) :=
  match p with
  | None => Some (None, w)
  | Some p => h ← heap w !! p; let '(q, w) := new_holder w h in Some (Some q, w)
  end.

(** [Any(Any const &)] *)
Definition make_copy (w : world) (i : nat) : option world :=
  p ← get_obj w i; '(q, w) ← clone_of w p; Some (add_obj w q).

(** [Any(Any &&)] *)
Definition make_move (w : world) (i : nat) : option world :=
  p ← get_obj w i; Some (add_obj (set_obj w i (Some None)) p).

Definition swap (w : world) (i j : nat) : option world :=
  p ← get_obj w i; q ← get_obj w j; Some (set_obj (set_obj w i (Some q)) j (Some p)).

(** [clear] *)
Definition clear (w : world) (i : nat) : option world :=
  p ← get_obj w i; w ← delete_holder w p; Some (set_obj w i (Some None)).

(** The destructor. *)
Definition destroy (w : world) (i : nat) : option world := w ← clear w i; Some (set_obj w i None).

(** [Any(...).swap( *this)] with the temporary destroyed: [holder_] becomes [q]
    and the holder it pointed to is deleted. *)
Definition replace (w : world) (i : nat) (q : option positive) : option world :=
  p ← get_obj w i; delete_holder (set_obj w i (Some q)) p.

(** [operator=(V &&)], [operator=(Any const &)], [operator=(Any &&)] *)
Definition assign_value (w : world) (i : nat) (h : Holder) : option world :=
  let '(q, w) := new_holder w h in replace w i (Some q).
Definition assign_copy (w : world) (i j : nat) : option world :=
  p ← get_obj w j; '(q, w) ← clone_of w p; replace w i q.
Definition assign_move (w : world) (i j : nat) : option world := swap w i j.

Definition empty (w : world) (i : nat) : option bool := p ← get_obj w i; Some (bool_decide (p = None)).

(** [SafeAnyCast<V>]: a null pointer is followed by [type()]; the result is the
    address of the value, or [nullptr]. *)
Definition SafeAnyCast (w : world) (i : nat) (t : type_info) : option (option V) :=
  p ← get_obj w i; q ← p; h ← heap w !! q;
  Some (if bool_decide (type h = t) then Some (value h) else None).

(** [UnsafeAnyCast<V>]: a holder of another type read as one of [V] is undefined. *)
Definition UnsafeAnyCast (w : world) (i : nat) (t : type_info) : option V :=
  p ← get_obj w i; q ← p; h ← heap w !! q; if bool_decide (type h = t) then Some (value h) else None.

(** [AnyCast<V>], with [NDEBUG] defined or not. *)
Definition AnyCast (ndebug : bool) (w : world) (i : nat) (t : type_info) : option (option V) :=
  if ndebug then v ← UnsafeAnyCast w i t; Some (Some v) else SafeAnyCast w i t.

Inductive any_op :=
  | AEmpty
  | AValue (h : Holder)
  | ACopy (i : nat)
  | AMove (i : nat)
  | AAssignValue (i : nat) (h : Holder)
  | AAssignCopy (i j : nat)
  | AAssignMove (i j : nat)
  | ASwap (i j : nat)
  | AClear (i : nat)
  | ADestroy (i : nat).

Definition any_step (w : world) (o : any_op) : option world :=
  match o with
  | AEmpty => Some (make_empty w)
  | AValue h => Some (make_value w h)
  | ACopy i => make_copy w i
  | AMove i => make_move w i
  | AAssignValue i h => assign_value w i h
  | AAssignCopy i j => assign_copy w i j
  | AAssignMove i j => assign_move w i j
  | ASwap i j => swap w i j
  | AClear i => clear w i
  | ADestroy i => destroy w i
  end.

(** ** Value semantics *)

Abbreviation vars := (list (option (option Holder))).

Definition var (s : vars) (i : nat) : option (option Holder) := o ← s !! i; o.

Definition value_step (s : vars) (o : any_op) : option vars :=
  match o with
  | AEmpty => Some (s ++ [Some None])
  | AValue h => Some (s ++ [Some (Some h)])
  | ACopy i => x ← var s i; Some (s ++ [Some x])
  | AMove i => x ← var s i; Some (<[i := Some None]> s ++ [Some x])
  | AAssignValue i h => _ ← var s i; Some (<[i := Some (Some h)]> s)
  | AAssignCopy i j => y ← var s j; _ ← var s i; Some (<[i := Some y]> s)
  | AAssignMove i j | ASwap i j => x ← var s i; y ← var s j; Some (<[j := Some x]> (<[i := Some y]> s))
  | AClear i => _ ← var s i; Some (<[i := Some None]> s)
  | ADestroy i => _ ← var s i; Some (<[i := None]> s)
  end.

Fixpoint run_ops {S} (step : S -> any_op -> option S) (s : S) (os : list any_op) : option S :=
  match os with [] => Some s | o :: os => s ← step s o; run_ops step s os end.

(** The values the objects show. *)
Definition shown (w : world) : vars :=
  map (fmap (M := option) (fun p => p ≫= fun q => heap w !! q)) (objs w).

(** ** The representation *)

(** The holder behind a pointer. *)
Definition holds (m : gmap positive Holder) (o : option (option positive)) (x : option (option Holder)) : Prop :=
  match o, x with
  | None, None => True
  | Some None, Some None => True
  | Some (Some p), Some (Some h) => m !! p = Some h
  | _, _ => False
  end.

(** Every object shows its value, every holder belongs to exactly one object. *)
Record rep (m : gmap positive Holder) (os : list (option (option positive))) (s : vars) : Prop := {
  rep_len : length os = length s;
  rep_vals : forall i o x, os !! i = Some o -> s !! i = Some x -> holds m o x;
  rep_owned : forall p, is_Some (m !! p) -> exists i, os !! i = Some (Some (Some p));
  rep_once : forall i j p, os !! i = Some (Some (Some p)) -> os !! j = Some (Some (Some p)) -> i = j
}.

Hypothesis alloc_fresh : forall m, m !! alloc m = None.

Lemma rep_init : rep ∅ [] [].
Proof using. split; try done. intros p [h Hp]. by rewrite lookup_empty in Hp. Qed.

(** Where an object is, its value is, and the two agree. *)
Lemma rep_obj m os s i o : rep m os s -> os !! i = Some o -> exists x, s !! i = Some x /\ holds m o x.
Proof using.
  intros R Ho. destruct (lookup_lt_is_Some_2 s i) as [x Hx].
  - rewrite <- (rep_len _ _ _ R). by eapply lookup_lt_Some.
  - exists x. split; [done|]. by eapply rep_vals.
Qed.

Lemma rep_none m os s i : rep m os s -> os !! i = None -> s !! i = None.
Proof using. intros R Ho. apply lookup_ge_None. rewrite <- (rep_len _ _ _ R). by apply lookup_ge_None. Qed.

(** A holder changes where no object points. *)
Lemma holds_insert m p h o x : m !! p = None -> holds m o x -> holds (<[p := h]> m) o x.
Proof using.
  intros Hp. destruct o as [[q|]|], x as [[k|]|]; cbn; try done. intros Hq.
  rewrite lookup_insert_ne; [done|]. congruence.
Qed.

Lemma rep_snoc m m' os s o x :
  rep m os s -> (forall i o x, os !! i = Some o -> holds m o x -> holds m' o x) -> holds m' o x ->
  (forall p, is_Some (m' !! p) -> is_Some (m !! p) \/ o = Some (Some p)) ->
  (forall p, o = Some (Some p) -> m !! p = None) ->
  rep m' (os ++ [o]) (s ++ [x]).
Proof using.
  intros R Hm Ho Hown Hfresh. pose proof (rep_len _ _ _ R) as Hl.
  assert (Hold : forall i p, os !! i = Some (Some (Some p)) -> is_Some (m !! p)).
  { intros i p Hi. destruct (rep_obj _ _ _ _ _ R Hi) as ([[h|]|] & _ & Hh); cbn in Hh; try done. }
  split.
  - rewrite !length_app. cbn. lia.
  - intros i o' x' Hi Hx. apply lookup_app_Some in Hi, Hx. destruct Hi as [Hi|[Hi1 Hi2]].
    + destruct Hx as [Hx|[Hx _]]; [|apply lookup_lt_Some in Hi; lia].
      eapply Hm; [done|]. by eapply rep_vals.
    + destruct Hx as [Hx|[_ Hx]]; [apply lookup_lt_Some in Hx; lia|].
      apply list_lookup_singleton_Some in Hi2 as [? E1]; apply list_lookup_singleton_Some in Hx as [? E2]. by subst.
  - intros p Hp. destruct (Hown p Hp) as [Hm'| ->].
    + destruct (rep_owned _ _ _ R p Hm') as [i Hi]. exists i. by apply lookup_app_l_Some.
    + exists (length os). by apply list_lookup_middle.
  - intros i j p Hi Hj. apply lookup_app_Some in Hi, Hj.
    destruct Hi as [Hi|[Hi1 Hi2]], Hj as [Hj|[Hj1 Hj2]];
      repeat match goal with H : [_] !! _ = Some _ |- _ => apply list_lookup_singleton_Some in H as [? ?] end.
    + by eapply rep_once.
    + destruct (Hold _ _ Hi) as [h Hh]. rewrite Hfresh in Hh; done.
    + destruct (Hold _ _ Hj) as [h Hh]. rewrite Hfresh in Hh; done.
    + lia.
Qed.

Lemma rep_new m os s p h :
  rep m os s -> m !! p = None -> rep (<[p := h]> m) (os ++ [Some (Some p)]) (s ++ [Some (Some h)]).
Proof using.
  intros R Hp. eapply rep_snoc; [done|..].
  - intros i o x _. by apply holds_insert.
  - cbn. by rewrite lookup_insert_eq.
  - intros q [k Hq]. destruct (decide (q = p)) as [-> |Hne]; [by right|left].
    rewrite lookup_insert_ne in Hq by done. by exists k.
  - intros q [= ->]. done.
Qed.

Lemma rep_null m os s : rep m os s -> rep m (os ++ [Some None]) (s ++ [Some None]).
Proof using. intros R. eapply rep_snoc; eauto; done. Qed.

(** Two objects exchange their pointers. *)
Lemma rep_swap m os s i j a b x y :
  rep m os s -> os !! i = Some a -> os !! j = Some b -> s !! i = Some x -> s !! j = Some y ->
  rep m (<[j := a]> (<[i := b]> os)) (<[j := x]> (<[i := y]> s)).
Proof using.
  intros R Hi Hj Hx Hy. pose proof (rep_len _ _ _ R) as Hl.
  pose proof (lookup_lt_Some _ _ _ Hi) as Li. pose proof (lookup_lt_Some _ _ _ Hj) as Lj.
  set (t k := if decide (k = j) then i else if decide (k = i) then j else k).
  assert (Hos : forall k, <[j := a]> (<[i := b]> os) !! k = os !! t k).
  { intros k. unfold t. rewrite list_lookup_insert, length_insert, list_lookup_insert. repeat case_decide; naive_solver. }
  assert (Hs : forall k, <[j := x]> (<[i := y]> s) !! k = s !! t k).
  { intros k. unfold t. rewrite list_lookup_insert, length_insert, list_lookup_insert. repeat case_decide; naive_solver lia. }
  assert (Ht : forall k, t (t k) = k) by (intros k; unfold t; repeat case_decide; congruence).
  split.
  - by rewrite !length_insert.
  - intros k o z. rewrite Hos, Hs. apply (rep_vals _ _ _ R).
  - intros p Hp. destruct (rep_owned _ _ _ R p Hp) as [k Hk]. exists (t k). by rewrite Hos, Ht.
  - intros k l p. rewrite !Hos. intros Hk Hq. pose proof (rep_once _ _ _ R _ _ _ Hk Hq) as E.
    by rewrite <- (Ht k), <- (Ht l), E.
Qed.

(** An object loses its holder, which is deleted. *)
Lemma rep_delete m os s i p o x :
  rep m os s -> os !! i = Some (Some (Some p)) -> (o, x) = (None, None) \/ (o, x) = (Some None, Some None) ->
  rep (delete p m) (<[i := o]> os) (<[i := x]> s).
Proof using.
  intros R Hi Hox. pose proof (rep_len _ _ _ R) as Hl. pose proof (lookup_lt_Some _ _ _ Hi) as Li.
  split.
  - by rewrite !length_insert.
  - intros k o' x'. rewrite !list_lookup_insert. repeat case_decide; try (destruct Hox; naive_solver lia).
    intros Ho Hx. pose proof (rep_vals _ _ _ R _ _ _ Ho Hx) as Hh.
    destruct o' as [[q|]|], x' as [[h|]|]; cbn in *; try done. rewrite lookup_delete_ne; [done|].
    intros ->. pose proof (rep_once _ _ _ R _ _ _ Ho Hi). naive_solver.
  - intros q [h Hq]. apply lookup_delete_Some in Hq as [Hne Hq].
    destruct (rep_owned _ _ _ R q) as [k Hk]; [by exists h|]. exists k.
    rewrite list_lookup_insert_ne; [done|]. naive_solver.
  - intros k l q. rewrite !list_lookup_insert. repeat case_decide; try (destruct Hox; naive_solver).
    apply (rep_once _ _ _ R).
Qed.

(** An object that points to no holder changes to another such object. *)
Lemma rep_unpointed m os s i o0 o x :
  rep m os s -> os !! i = Some o0 -> (forall p, o0 <> Some (Some p)) ->
  (o, x) = (None, None) \/ (o, x) = (Some None, Some None) -> rep m (<[i := o]> os) (<[i := x]> s).
Proof using.
  intros R Hi Hn Hox. pose proof (rep_len _ _ _ R) as Hl. pose proof (lookup_lt_Some _ _ _ Hi) as Li.
  split.
  - by rewrite !length_insert.
  - intros k o' x'. rewrite !list_lookup_insert. repeat case_decide; try (destruct Hox; naive_solver lia).
    apply (rep_vals _ _ _ R).
  - intros q Hq. destruct (rep_owned _ _ _ R q Hq) as [k Hk]. exists k.
    rewrite list_lookup_insert_ne; [done|]. naive_solver.
  - intros k l q. rewrite !list_lookup_insert. repeat case_decide; try (destruct Hox; naive_solver).
    apply (rep_once _ _ _ R).
Qed.

(** A last object that points to no holder is forgotten. *)
Lemma rep_forget m os s o x : rep m (os ++ [o]) (s ++ [x]) -> (forall p, o <> Some (Some p)) -> rep m os s.
Proof using.
  intros R Hn. pose proof (rep_len _ _ _ R) as Hl. rewrite !length_app in Hl. cbn in Hl.
  split.
  - lia.
  - intros i o' x' Ho Hx. eapply (rep_vals _ _ _ R); by apply lookup_app_l_Some.
  - intros p Hp. destruct (rep_owned _ _ _ R p Hp) as [k Hk]. exists k.
    apply lookup_app_Some in Hk as [Hk|[_ Hk]]; [done|].
    apply list_lookup_singleton_Some in Hk as [_ Hk]. naive_solver.
  - intros i j p Hi Hj. eapply (rep_once _ _ _ R); by apply lookup_app_l_Some.
Qed.

(** ** The operations *)

Definition represents (w : world) (s : vars) : Prop := rep (heap w) (objs w) s.

(** The two runs both stop, or both go on and agree. *)
Definition agree (r : option world) (x : option vars) : Prop :=
  match r, x with Some w, Some s => represents w s | None, None => True | _, _ => False end.

(** An object exists exactly where its variable does. *)
Lemma get_obj_var w s i :
  represents w s ->
  (exists p x, get_obj w i = Some p /\ var s i = Some x /\ objs w !! i = Some (Some p) /\
     s !! i = Some (Some x) /\ holds (heap w) (Some p) (Some x)) \/
  get_obj w i = None /\ var s i = None.
Proof using.
  intros R. unfold get_obj, var. destruct (objs w !! i) as [o|] eqn:Ho; cbn.
  - destruct (rep_obj _ _ _ _ _ R Ho) as (x & -> & Hx). cbn.
    destruct o as [p|], x as [x|]; [left; by exists p, x|by destruct p|by destruct x|by right].
  - rewrite (rep_none _ _ _ _ R Ho). by right.
Qed.

Lemma clone_of_rep w s p x :
  represents w s -> holds (heap w) (Some p) (Some x) ->
  exists q w', clone_of w p = Some (q, w') /\ objs w' = objs w /\
    rep (heap w') (objs w ++ [Some q]) (s ++ [Some x]).
Proof using alloc_fresh.
  intros R Hx. destruct p as [p|], x as [h|]; try done; cbn in Hx |- *.
  - rewrite Hx. eexists _, _. split; [done|]. split; [done|]. by apply rep_new.
  - eexists _, _. split; [done|]. split; [done|]. by apply rep_null.
Qed.

(** The last object. *)
Lemma insert_last {A} (l : list A) n (a b : A) : n = length l -> <[n := b]> (l ++ [a]) = l ++ [b].
Proof using. intros ->. rewrite <- (Nat.add_0_r (length l)). by rewrite insert_app_r. Qed.

Lemma rep_swap_last m os s i a b x y :
  rep m (os ++ [b]) (s ++ [y]) -> os !! i = Some a -> s !! i = Some x ->
  rep m (<[i := b]> os ++ [a]) (<[i := y]> s ++ [x]).
Proof using.
  intros R Hi Hx. pose proof (rep_len _ _ _ R) as Hl. rewrite !length_app in Hl. cbn in Hl.
  pose proof (lookup_lt_Some _ _ _ Hi) as Li.
  rewrite <- (insert_last (<[i := b]> os) (length os) b a) by (by rewrite length_insert).
  rewrite <- (insert_last (<[i := y]> s) (length os) y x) by (rewrite length_insert; lia).
  rewrite <- !insert_app_l by lia. eapply rep_swap; [done|..].
  - by apply lookup_app_l_Some.
  - by apply list_lookup_middle.
  - by apply lookup_app_l_Some.
  - apply list_lookup_middle. lia.
Qed.

(** The object takes the pointer of the temporary, whose destructor deletes the
    holder the object had. *)
Lemma replace_rep w s i p x q y :
  rep (heap w) (objs w ++ [Some q]) (s ++ [Some y]) -> objs w !! i = Some (Some p) -> s !! i = Some (Some x) ->
  holds (heap w) (Some p) (Some x) -> agree (replace w i q) (Some (<[i := Some y]> s)).
Proof using.
  intros R Hi Hx Hh. pose proof (rep_swap_last _ _ _ _ _ _ _ _ R Hi Hx) as R'.
  pose proof (rep_len _ _ _ R') as Hl. rewrite !length_app in Hl. cbn in Hl.
  unfold replace, get_obj. rewrite Hi. cbn. destruct p as [p|], x as [h|]; try done; cbn in Hh |- *.
  - rewrite Hh. apply (rep_forget _ _ _ (Some None) (Some None)); [|done].
    set (n := length (<[i := Some q]> (objs w))).
    rewrite <- (insert_last _ n (Some (Some p)) (Some None)) by done.
    rewrite <- (insert_last _ n (Some (Some h)) (Some None)) by (unfold n; lia).
    eapply rep_delete; [done| |by right]. by apply list_lookup_middle.
  - by eapply rep_forget.
Qed.

Lemma clear_rep w s i p x o z :
  represents w s -> objs w !! i = Some (Some p) -> s !! i = Some (Some x) ->
  holds (heap w) (Some p) (Some x) -> (o, z) = (None, None) \/ (o, z) = (Some None, Some None) ->
  exists w', delete_holder w p = Some w' /\ objs w' = objs w /\ rep (heap w') (<[i := o]> (objs w)) (<[i := z]> s).
Proof using.
  intros R Hi Hx Hh Hoz. destruct p as [p|], x as [h|]; try done; cbn in Hh |- *.
  - rewrite Hh. eexists. split; [done|]. split; [done|]. by eapply rep_delete.
  - eexists. split; [done|]. split; [done|]. by eapply rep_unpointed.
Qed.

(** One operation keeps the objects and the values together. *)
Lemma any_step_agree w s o : represents w s -> agree (any_step w o) (value_step s o).
Proof using alloc_fresh.
  intros R.
  assert (HN : forall h, rep (<[alloc (heap w) := h]> (heap w))
    (objs w ++ [Some (Some (alloc (heap w)))]) (s ++ [Some (Some h)])) by (intros h; by apply rep_new).
  destruct o as [|h|i|i|i h|i j|i j|i j|i|i]; cbn [any_step value_step].
  - by apply rep_null.
  - apply HN.
  - unfold make_copy. destruct (get_obj_var w s i R) as [(p & x & -> & -> & _ & _ & Hh)|[-> ->]]; [|done].
    destruct (clone_of_rep w s p x R Hh) as (q & w' & HC & Ho & R'). cbn. rewrite HC. cbn.
    unfold represents. cbn. by rewrite Ho.
  - unfold make_move. destruct (get_obj_var w s i R) as [(p & x & -> & -> & Hi & Hx & _)|[-> ->]]; [|done].
    cbn. unfold represents. cbn. apply rep_swap_last; [|done..]. by apply rep_null.
  - unfold assign_value. cbn. destruct (get_obj_var w s i R) as [(p & x & _ & -> & Hi & Hx & Hh)|[HN' ->]].
    + eapply replace_rep; [apply HN|done..|]. by apply holds_insert.
    + unfold replace. unfold get_obj in *. cbn. by rewrite HN'.
  - unfold assign_copy. destruct (get_obj_var w s j R) as [(p & y & -> & -> & _ & _ & Hh)|[-> ->]]; [|done].
    destruct (clone_of_rep w s p y R Hh) as (q & w' & HC & Ho & R'). cbn. rewrite HC. cbn.
    destruct (get_obj_var w s i R) as [(p' & x & _ & -> & Hi & Hx & _)|[HN' ->]].
    + rewrite <- Ho in Hi, R'. eapply replace_rep; [done..|]. eapply (rep_vals _ _ _ R').
      * by apply lookup_app_l_Some.
      * by apply lookup_app_l_Some.
    + unfold replace. unfold get_obj in *. cbn. by rewrite Ho, HN'.
  - unfold assign_move, swap. destruct (get_obj_var w s i R) as [(p & x & -> & -> & Hi & Hx & _)|[-> ->]]; [|done].
    destruct (get_obj_var w s j R) as [(q & y & -> & -> & Hj & Hy & _)|[-> ->]]; [|done]. by apply rep_swap.
  - unfold swap. destruct (get_obj_var w s i R) as [(p & x & -> & -> & Hi & Hx & _)|[-> ->]]; [|done].
    destruct (get_obj_var w s j R) as [(q & y & -> & -> & Hj & Hy & _)|[-> ->]]; [|done]. by apply rep_swap.
  - unfold clear. destruct (get_obj_var w s i R) as [(p & x & -> & -> & Hi & Hx & Hh)|[-> ->]]; [|done].
    destruct (clear_rep w s i p x (Some None) (Some None) R Hi Hx Hh) as (w' & HD & Ho & R'); [by right|].
    cbn. rewrite HD. cbn. unfold represents. cbn. by rewrite Ho.
  - unfold destroy, clear. destruct (get_obj_var w s i R) as [(p & x & -> & -> & Hi & Hx & Hh)|[-> ->]]; [|done].
    destruct (clear_rep w s i p x None None R Hi Hx Hh) as (w' & HD & Ho & R'); [by left|].
    cbn. rewrite HD. cbn. unfold represents. cbn. by rewrite Ho, list_insert_insert_eq.
Qed.

Lemma any_run_agree os : forall w s, represents w s -> agree (run_ops any_step w os) (run_ops value_step s os).
Proof using alloc_fresh.
  induction os as [|o os IH]; intros w s R; [done|]. cbn. pose proof (any_step_agree w s o R) as HS.
  destruct (any_step w o) as [w'|], (value_step s o) as [s'|]; try done. by apply IH.
Qed.

Lemma represents_shown w s : represents w s -> shown w = s.
Proof using.
  intros R. apply list_eq. intros i. unfold shown. rewrite list_lookup_fmap.
  destruct (objs w !! i) as [o|] eqn:Ho; cbn; [|by rewrite (rep_none _ _ _ _ R Ho)].
  destruct (rep_obj _ _ _ _ _ R Ho) as (x & -> & Hx). f_equal.
  destruct o as [[p|]|], x as [[h|]|]; cbn in *; try done. by rewrite Hx.
Qed.

Definition no_objects : world := mkWorld ∅ [].

Lemma any_agree_shown os :
  fmap shown (run_ops any_step no_objects os) = run_ops value_step [] os /\
  forall w, run_ops any_step no_objects os = Some w ->
    forall p h, heap w !! p = Some h -> exists! i, objs w !! i = Some (Some (Some p)).
Proof using alloc_fresh.
  pose proof (any_run_agree os no_objects [] rep_init) as HA.
  destruct (run_ops any_step no_objects os) as [w|], (run_ops value_step [] os) as [s|]; try done.
  split; [cbn; by rewrite (represents_shown w s HA)|]. intros ? [= <-] p h Hp.
  destruct (rep_owned _ _ _ HA p) as [i Hi]; [by exists h|]. exists i. split; [done|].
  intros j Hj. by eapply (rep_once _ _ _ HA).
Qed.

(** C22 Objects of class Any are values: under every sequence of
    constructions, copies, moves, assignments, swaps, clears and destructions
    an object shows what a variable holding its own value would show, a program
    of these operations is defined exactly when it only uses objects that
    exist (no holder is deleted twice or used after its deletion), and every
    holder on the heap is the one of exactly one object (none leaks). *)
Theorem any_value_semantics os :
  fmap shown (run_ops any_step no_objects os) = run_ops value_step [] os /\
  forall w, run_ops any_step no_objects os = Some w ->
    forall p h, heap w !! p = Some h -> exists! i, objs w !! i = Some (Some (Some p)).
Proof using alloc_fresh. apply any_agree_shown. Qed.
End any.
Arguments Holder : clear implicits.
Arguments world : clear implicits.
Arguments any_op : clear implicits.

(** A heap that allocates the first free address. *)
Definition next_free {V} (m : gmap positive (Holder V)) : positive := fresh (dom m).

Lemma next_free_fresh {V} (m : gmap positive (Holder V)) : m !! next_free m = None.
Proof. apply not_elem_of_dom. apply is_fresh. Qed.

(** A value, a copy of it, an assignment to the original, a move and the
    destruction of all. *)
Definition any_program : list (any_op Z) :=
  [AValue (mkHolder 1%nat 7%Z); ACopy 0%nat; AAssignValue 0%nat (mkHolder 2%nat 9%Z); AMove 1%nat;
   AAssignCopy 1%nat 1%nat; AAssignMove 0%nat 2%nat;
   AEmpty; ADestroy 3%nat].

Lemma any_value_semantics_witness :
  (fmap shown (run_ops (any_step next_free) no_objects any_program) =
     Some [Some (Some (mkHolder 1%nat 7%Z)); Some None; Some (Some (mkHolder 2%nat 9%Z)); None]) /\
  forall w, run_ops (any_step next_free) no_objects any_program = Some w ->
    forall p h, heap w !! p = Some h -> exists! i, objs w !! i = Some (Some (Some p)).
Proof. exact (any_value_semantics next_free next_free_fresh any_program). Defined.

(** [SafeAnyCast] follows the null pointer of an empty object, where its
    exception's text speaks of an object that may not be initialised. *)
Lemma cast_of_empty (t : type_info) : SafeAnyCast (V := Z) (make_empty no_objects) 0%nat t = None.
Proof. reflexivity. Qed.
