(* ===== verification/UniqueAny.v ===== *)
(** * UniqueAny and RawAny: kanon/util/unique_any.h, kanon/util/raw_any.h

    UniqueAny owns a value of any movable type in a holder on the heap; it is Any
    without the copies, and its model uses the heap of holders of Any.v.  RawAny is
    a pointer that owns nothing. *)

From Stdlib Require Import ZArith Lia.
From stdpp Require Import gmap.
From S2P Require Import Prelude Any.

Section unique.
Context {V : Type} (alloc : gmap positive (Holder V) -> positive).

(** ** UniqueAny *)

Definition UniqueAny_empty (w : world V) : world V := add_obj w None.
Definition UniqueAny_value (w : world V) (h : Holder V) : world V :=
  let '(p, w) := new_holder alloc w h in add_obj w (Some p).
Definition UniqueAny_move (w : world V) (i : nat) : option (world V) :=
  p ← get_obj w i; Some (add_obj (set_obj w i (Some None)) p).

Definition unique_swap (w : world V) (i j : nat) : option (world V) :=
  p ← get_obj w i; q ← get_obj w j; Some (set_obj (set_obj w i (Some q)) j (Some p)).

(** [if (holder_) delete holder_; holder_ = nullptr;] *)
Definition unique_clear (w : world V) (i : nat) : option (world V) :=
  p ← get_obj w i; w ← delete_holder w p; Some (set_obj w i (Some None)).

Definition destroy_UniqueAny (w : world V) (i : nat) : option (world V) :=
  w ← unique_clear w i; Some (set_obj w i None).

(** [operator=(V &&)]: the temporary takes the old holder and deletes it. *)
Definition unique_assign_value (w : world V) (i : nat) (h : Holder V) : option (world V) :=
  let '(q, w) := new_holder alloc w h in
  p ← get_obj w i; delete_holder (set_obj w i (Some (Some q))) p.

Definition unique_assign_move (w : world V) (i j : nat) : option (world V) := unique_swap w i j.

Definition unique_is_empty (w : world V) (i : nat) : option bool := p ← get_obj w i; Some (bool_decide (p = None)).

(** The casts return the address of the value in the holder. *)
Definition SafeUniqueAnyCast (w : world V) (i : nat) (t : type_info) : option (option positive) :=
  p ← get_obj w i; q ← p; h ← heap w !! q; Some (if bool_decide (type h = t) then Some q else None).
Definition UnsafeUniqueAnyCast (w : world V) (i : nat) (t : type_info) : option positive :=
  p ← get_obj w i; q ← p; h ← heap w !! q; if bool_decide (type h = t) then Some q else None.
Definition UniqueAnyCast (ndebug : bool) (w : world V) (i : nat) (t : type_info) : option (option positive) :=
  if ndebug then q ← UnsafeUniqueAnyCast w i t; Some (Some q) else SafeUniqueAnyCast w i t.

Inductive unique_op :=
| UEmpty
| UValue (h : Holder V)
| UMove (i : nat)
| UAssignValue (i : nat) (h : Holder V)
| UAssignMove (i j : nat)
| USwap (i j : nat)
| UClear (i : nat)
| UDestroy (i : nat).

Definition unique_step (w : world V) (o : unique_op) : option (world V) :=
  match o with
  | UEmpty => Some (UniqueAny_empty w)
  | UValue h => Some (UniqueAny_value w h)
  | UMove i => UniqueAny_move w i
  | UAssignValue i h => unique_assign_value w i h
  | UAssignMove i j => unique_assign_move w i j
  | USwap i j => unique_swap w i j
  | UClear i => unique_clear w i
  | UDestroy i => destroy_UniqueAny w i
  end.

Fixpoint run_unique (w : world V) (os : list unique_op) : option (world V) :=
  match os with [] => Some w | o :: os => w ← unique_step w o; run_unique w os end.

(** The operation of Any with the same effect. *)
Definition as_any (o : unique_op) : any_op V :=
  match o with
  | UEmpty => AEmpty
  | UValue h => AValue h
  | UMove i => AMove i
  | UAssignValue i h => AAssignValue i h
  | UAssignMove i j => AAssignMove i j
  | USwap i j => ASwap i j
  | UClear i => AClear i
  | UDestroy i => ADestroy i
  end.

Lemma run_unique_any os : forall w, run_unique w os = run_ops (any_step alloc) w (map as_any os).
Proof using.
  induction os as [|o os IH]; intros w; [done|]. cbn [run_unique run_ops map].
  assert (unique_step w o = any_step alloc w (as_any o)) as -> by (by destruct o).
  destruct (any_step alloc w (as_any o)); [|done]. apply IH.
Qed.

(** The operations that pass objects on. *)
Definition passes (o : unique_op) : bool :=
  match o with UMove _ | UAssignMove _ _ | USwap _ _ => true | _ => false end.

Lemma passes_heap os : forallb passes os = true -> forall w w', run_unique w os = Some w' -> heap w' = heap w.
Proof using.
  induction os as [|o os IH]; intros Hp w w' E; [by injection E as <-|]. cbn in Hp, E.
  apply andb_prop in Hp as [Ho Hp]. destruct (unique_step w o) as [w1|] eqn:E1; [|done].
  rewrite (IH Hp w1 w' E). clear -Ho E1.
  destruct o; try done; cbn in E1; unfold UniqueAny_move, unique_assign_move, unique_swap in E1; inv_monad; done.
Qed.

Lemma run_unique_app os os' : forall w, run_unique w (os ++ os') = w ← run_unique w os; run_unique w os'.
Proof using. induction os as [|o os IH]; intros w; [done|]. cbn. destruct (unique_step w o); [apply IH|done]. Qed.

(** A UniqueAny owns its object alone: any program of constructions, moves,
    assignments, swaps, clears and destructions shows what variables holding the
    objects would show, every holder belongs to exactly one UniqueAny (none leaks,
    none is deleted twice), and while objects are only moved and swapped every held
    object stays where it is in memory, so that pointers to it remain good. *)
Theorem unique_any_owns (alloc_fresh : forall m, m !! alloc m = None) (os moves : list unique_op) (w w' : world V) :
  run_unique no_objects os = Some w -> forallb passes moves = true -> run_unique w moves = Some w' ->
  run_ops value_step [] (map as_any (os ++ moves)) = Some (shown w') /\
  (forall p h, heap w' !! p = Some h -> exists! i, objs w' !! i = Some (Some (Some p))) /\
  heap w' = heap w.
Proof using.
  intros E Hp E'. assert (run_ops (any_step alloc) no_objects (map as_any (os ++ moves)) = Some w') as Er
    by (by rewrite <- run_unique_any, run_unique_app, E).
  destruct (any_agree_shown alloc alloc_fresh (map as_any (os ++ moves))) as [H1 H2]. rewrite Er in H1.
  split_and!; [done|by apply H2|by eapply passes_heap].
Qed.
End unique.
Arguments unique_op : clear implicits.

Definition unique_program : list (unique_op Z) :=
  [UValue (mkHolder 1%nat 7%Z); UEmpty; UAssignValue 0%nat (mkHolder 2%nat 9%Z)].

Lemma unique_any_owns_witness :
  exists w w', run_unique next_free no_objects unique_program = Some w /\
    run_unique next_free w [UMove 0%nat; UAssignMove 1%nat 2%nat] = Some w' /\
    run_ops value_step [] (map as_any (unique_program ++ [UMove 0%nat; UAssignMove 1%nat 2%nat])) = Some (shown w') /\
    (forall p h, heap w' !! p = Some h -> exists! i, objs w' !! i = Some (Some (Some p))) /\ heap w' = heap w.
Proof.
  eexists _, _. split; [reflexivity|]. split; [reflexivity|].
  eapply (unique_any_owns next_free next_free_fresh unique_program [UMove 0%nat; UAssignMove 1%nat 2%nat]); reflexivity.
Defined.

(** ** RawAny *)

(** A pointer to any object, or null; the objects with their types are the heap. *)
Record RawAny := mkRaw { obj_ : option positive }.

Definition raw_empty : RawAny := mkRaw None.
Definition raw_of (obj : option positive) : RawAny := mkRaw obj.
Definition raw_copy (rhs : RawAny) : RawAny := rhs.
Definition raw_move (rhs : RawAny) : RawAny * RawAny := (rhs, raw_empty).
(** [same]: both are the same object. *)
Definition raw_assign_move (same : bool) (self rhs : RawAny) : RawAny * RawAny :=
  if same then (self, rhs) else (rhs, self).
Definition raw_clear (self : RawAny) : RawAny := raw_empty.
Definition raw_swap (self rhs : RawAny) : RawAny * RawAny := (rhs, self).
Definition raw_is_empty (self : RawAny) : bool := bool_decide (obj_ self = None).
Definition RawAnyCast (from : RawAny) : option positive := obj_ from.

(** Using the result of a cast: the object must be there and of the type. *)
Definition use_as {V} (m : gmap positive (Holder V)) (p : option positive) (t : type_info) : option V :=
  p ← p; h ← m !! p; if bool_decide (type h = t) then Some (value h) else None.

(** A RawAny to an object held by a UniqueAny stays good when that is moved. *)
Lemma raw_any_survives_moves {V} (alloc : gmap positive (Holder V) -> positive) moves (w w' : world V) p t :
  forallb passes moves = true -> run_unique alloc w moves = Some w' ->
  use_as (heap w') (RawAnyCast (raw_of (Some p))) t = use_as (heap w) (RawAnyCast (raw_of (Some p))) t.
Proof. intros Hp E. by rewrite (passes_heap alloc moves Hp w w' E). Qed.
