(* ===== verification/FixedBuffer.v ===== *)
(** * FixedBuffer and LexicalStream: kanon/string/fixed_buffer.{h,cc},
      kanon/string/lexical_stream.h

    A log line is put together in an array of [SZ] bytes.  An item that does not
    fit is dropped as a whole; integers and pointers are rendered by the
    library's own routines, a [double] by [snprintf], whose text is an argument. *)

From Stdlib Require Import ZArith Lia.
From S2P Require Import Prelude.

(** ** Rendering of integers and pointers *)

Definition digits : list byte := str "9876543210123456789".
Definition hex_digits : list byte := str "0123456789ABCDEF".
Definition minus_sign : byte := "-"%byte.
Definition zero_digit : byte := "0"%byte.

(** The do-while loop of [int2Str]; [T]'s division truncates, so the remainder
    carries the sign and indexes [digits] from its middle. *)
Fixpoint int2Str_loop (fuel : nat) (integer : Z) : option (list byte) :=
  match fuel with
  | O => None
  | S fuel =>
    let left := Z.rem integer 10 in
    let integer := Z.quot integer 10 in
    c ← digits !! Z.to_nat (9 + left);
    if integer =? 0 then Some [c]
    else cs ← int2Str_loop fuel integer; Some (c :: cs)
  end.

(** Twenty rounds are enough for the integers of at most 64 bits. *)
Definition int2Str_fuel : nat := 20.

Definition int2Str (integer : Z) : option (list byte) :=
  cs ← int2Str_loop int2Str_fuel integer;
  Some (rev (if integer <? 0 then cs ++ [minus_sign] else cs)).

Fixpoint hex_loop (fuel : nat) (p : Z) : option (list byte) :=
  match fuel with
  | O => None
  | S fuel =>
    let r := p mod 16 in
    let p := p / 16 in
    c ← hex_digits !! Z.to_nat r;
    if p =? 0 then Some [c] else cs ← hex_loop fuel p; Some (c :: cs)
  end.

Definition ptrToHexStr (p : Z) : option (list byte) :=
  cs ← hex_loop 16 p;
  let count := length cs in
  Some (rev (if (count <? 16)%nat then cs ++ repeat zero_digit (16 - count) else cs)).

(** ** The buffer *)

Record FixedBuffer := mkFixedBuffer { data_ : list byte; len_ : Z }.

Definition kMaxIntSize : Z := 32.
Definition kMaxFloatingSize : Z := 324.

Section fixed_buffer.
Context (SZ : Z).

Definition make_FixedBuffer (garbage : list byte) : FixedBuffer := mkFixedBuffer garbage 0.

Definition zero (b : FixedBuffer) : FixedBuffer := mkFixedBuffer (repeat x00 (Z.to_nat SZ)) (len_ b).

Definition avali (b : FixedBuffer) : Z := u32 (SZ - len_ b).

Definition ToStringView (b : FixedBuffer) : option (list byte) := mem_read (data_ b) 0 (len_ b).

Definition reset (b : FixedBuffer) : FixedBuffer := mkFixedBuffer (data_ b) 0.

(** [*cur() = 0] *)
Definition terminate (b : FixedBuffer) : option FixedBuffer :=
  d ← mem_write (data_ b) (len_ b) [x00]; Some (mkFixedBuffer d (len_ b)).

Definition Append (b : FixedBuffer) (s : list byte) : option FixedBuffer :=
  if zlen s <? avali b then
    d ← mem_write (data_ b) (len_ b) s;
    terminate (mkFixedBuffer d (u32 (len_ b + zlen s)))
  else Some b.

Definition AdvanceRead (b : FixedBuffer) (diff : Z) : option FixedBuffer :=
  let len := u32 (len_ b + diff) in
  assert! len <? SZ;
  Some (mkFixedBuffer (data_ b) len).

(** Text and terminator, written by a routine that is given [cur() + off]. *)
Definition write_cstr (b : FixedBuffer) (off : Z) (txt : list byte) : option FixedBuffer :=
  d ← mem_write (data_ b) (len_ b + off) (txt ++ [x00]); Some (mkFixedBuffer d (len_ b)).

Definition appendInt (b : FixedBuffer) (i : Z) : option FixedBuffer :=
  if kMaxIntSize <? avali b then
    txt ← int2Str i;
    b ← write_cstr b 0 txt;
    b ← AdvanceRead b (zlen txt);
    terminate b
  else Some b.

Definition appendBool (b : FixedBuffer) (x : bool) : option FixedBuffer :=
  if x then Append b (str "True") else Append b (str "False").

Definition appendChar (b : FixedBuffer) (c : byte) : option FixedBuffer := Append b [c].

(** [txt] is what ["%.12g"] gives for the number; [snprintf] cuts it to its
    bound and returns the whole length. *)
Definition appendFloat (b : FixedBuffer) (txt : list byte) : option FixedBuffer :=
  if kMaxFloatingSize <? avali b then
    b ← write_cstr b 0 (take (Z.to_nat (kMaxFloatingSize - 1)) txt);
    b ← AdvanceRead b (zlen txt);
    terminate b
  else Some b.

Definition appendPtr (b : FixedBuffer) (p : Z) : option FixedBuffer :=
  if (p =? 0) && (6 <? avali b) then Append b (str "(null)")
  else if 10 <? avali b then
    d ← mem_write (data_ b) (len_ b) (str "0x");
    let b := mkFixedBuffer d (len_ b) in
    txt ← ptrToHexStr p;
    b ← write_cstr b 2 txt;
    b ← AdvanceRead b (zlen txt + 2);
    terminate b
  else Some b.

(** ** The stream: one constructor per kind of [operator<<] *)

Inductive item :=
  | IBool (x : bool)
  | IChar (c : byte)
  | IInt (i : Z)               (* short to unsigned long long, unsigned char *)
  | IDouble (txt : list byte)  (* float, double *)
  | IString (s : list byte)    (* char const *, std::string, StringView, FmtStream *)
  | IPointer (p : Z).

Definition put (b : FixedBuffer) (it : item) : option FixedBuffer :=
  match it with
  | IBool x => appendBool b x
  | IChar c => appendChar b c
  | IInt i => appendInt b i
  | IDouble txt => appendFloat b txt
  | IString s => Append b s
  | IPointer p => appendPtr b p
  end.

Fixpoint puts (b : FixedBuffer) (its : list item) : option FixedBuffer :=
  match its with
  | [] => Some b
  | it :: its => b ← put b it; puts b its
  end.

Lemma puts_app b xs ys : puts b (xs ++ ys) = (b ← puts b xs; puts b ys).
Proof.
  revert b. induction xs as [|x xs IH]; intros b; [done|]. cbn [app puts]. destruct (put b x); [apply IH|done].
Qed.

End fixed_buffer.

(** ** Reading numbers back *)

Definition digit_of (v : Z) : byte := Z_to_byte (48 + v).

(** The value of a digit of the decimal system. *)
Definition digit_value (c : byte) : option Z :=
  let v := byte_to_Z c - 48 in if (0 <=? v) && (v <=? 9) then Some v else None.

Fixpoint read_digits (acc : Z) (l : list byte) : option Z :=
  match l with
  | [] => Some acc
  | c :: l => v ← digit_value c; read_digits (10 * acc + v) l
  end.

(** A decimal numeral in its shortest form, with its sign. *)
Definition read_decimal (l : list byte) : option Z :=
  match l with
  | [] => None
  | c :: rest =>
    if decide (c = minus_sign) then
      if decide (head rest = Some zero_digit \/ rest = []) then None
      else v ← read_digits 0 rest; Some (- v)
    else if decide (c = zero_digit /\ rest <> []) then None
    else read_digits 0 l
  end.

(** The number with the given digits, the least significant first. *)
Fixpoint le_value (ds : list Z) : Z :=
  match ds with [] => 0 | d :: ds => d + 10 * le_value ds end.

Lemma digits_lookup left : -9 <= left <= 9 -> digits !! Z.to_nat (9 + left) = Some (digit_of (Z.abs left)).
Proof.
  intros Hl. assert (forallb (fun n => bool_decide (digits !! n = Some (digit_of (Z.abs (Z.of_nat n - 9))))) (seq 0 19) = true)
    as Hf by (vm_compute; reflexivity).
  rewrite forallb_forall in Hf. specialize (Hf (Z.to_nat (9 + left))). rewrite bool_decide_eq_true, in_seq in Hf.
  rewrite Hf by lia. do 3 f_equal. lia.
Qed.

Lemma digit_value_of v : 0 <= v <= 9 -> digit_value (digit_of v) = Some v.
Proof.
  intros Hv. unfold digit_value, digit_of. rewrite byte_to_Z_to_byte, Z.mod_small by lia.
  replace (48 + v - 48) with v by lia. by rewrite !(proj2 (Z.leb_le _ _)) by lia.
Qed.

Lemma read_digits_app acc l m : read_digits acc (l ++ m) = (v ← read_digits acc l; read_digits v m).
Proof.
  revert acc. induction l as [|c l IH]; intros acc; [done|]. cbn. destruct (digit_value c); cbn; [apply IH|done].
Qed.

Lemma read_digits_rev ds :
  Forall (fun d => 0 <= d <= 9) ds -> read_digits 0 (rev (map digit_of ds)) = Some (le_value ds).
Proof.
  induction ds as [|d ds IH]; [done|]. intros [Hd Hds]%Forall_cons. cbn [map rev le_value].
  rewrite read_digits_app, IH by done. cbn. rewrite digit_value_of by done. cbn. f_equal. lia.
Qed.

(** One digit per round, the least significant first; no leading zero. *)
Lemma int2Str_loop_spec fuel i :
  Z.abs i < 10 ^ Z.of_nat fuel -> (0 < fuel)%nat ->
  exists ds, int2Str_loop fuel i = Some (map digit_of ds) /\ Forall (fun d => 0 <= d <= 9) ds /\
    le_value ds = Z.abs i /\ (length ds <= fuel)%nat /\
    (exists d, last ds = Some d /\ (d = 0 -> i = 0 /\ ds = [0])).
Proof.
  revert i. induction fuel as [|fuel IH]; intros i Hi Hf; [lia|]. cbn [int2Str_loop].
  pose proof (Z.quot_rem i 10 ltac:(lia)) as Hqr.
  pose proof (Z.rem_bound_abs i 10 ltac:(lia)) as Hr.
  assert (Z.abs i = Z.abs (Z.rem i 10) + 10 * Z.abs (Z.quot i 10)) as Habs.
  { pose proof (Z.rem_sign_mul i 10 ltac:(lia)). destruct (Z.le_gt_cases 0 i) as [H0|H0].
    - pose proof (Z.quot_pos i 10 H0 ltac:(lia)). pose proof (Z.rem_nonneg i 10 ltac:(lia) H0). lia.
    - pose proof (Z.rem_nonpos i 10 ltac:(lia) ltac:(lia)).
      assert (Z.quot i 10 <= 0) by (rewrite <- (Z.opp_involutive i), Z.quot_opp_l by lia;
        pose proof (Z.quot_pos (- i) 10 ltac:(lia) ltac:(lia)); lia). lia. }
  rewrite digits_lookup by lia. cbn [mbind option_bind]. destruct (Z.eqb_spec (Z.quot i 10) 0) as [E|E].
  - exists [Z.abs (Z.rem i 10)]. split_and!; [done|repeat constructor; lia|cbn; lia|cbn; lia|].
    eexists. split; [done|]. intros H0. rewrite H0. split; [lia|done].
  - rewrite Nat2Z.inj_succ, Z.pow_succ_r in Hi by lia.
    destruct fuel as [|fuel]; [cbn in Hi; lia|].
    destruct (IH (Z.quot i 10)) as (ds & -> & Hds & Hv & Hlen & d & Hd & Hz); [lia|lia|].
    exists (Z.abs (Z.rem i 10) :: ds). split_and!; [done|constructor; [lia|done]|cbn; lia|cbn; lia|].
    exists d. destruct ds as [|d' ds]; [discriminate|]. split; [done|]. intros H0. apply Hz in H0. lia.
Qed.

Lemma le_value_lower ds d :
  Forall (fun d => 0 <= d <= 9) ds -> last ds = Some d -> d <> 0 -> 10 ^ (zlen ds - 1) <= le_value ds.
Proof.
  induction ds as [|x ds IH]; [done|]. intros [Hx Hds]%Forall_cons Hl Hd. destruct ds as [|y ds].
  - injection Hl as ->. change (10 ^ (zlen [d] - 1)) with 1. cbn [le_value]. lia.
  - rewrite zlen_cons. cbn [le_value]. specialize (IH Hds Hl Hd). rewrite zlen_cons in IH |- *. cbn [le_value] in IH.
    pose proof (zlen_nonneg ds). replace (zlen ds + 1 + 1 - 1) with (Z.succ (zlen ds + 1 - 1)) by lia.
    rewrite Z.pow_succ_r by lia. lia.
Qed.

Lemma digit_of_inj d e : 0 <= d <= 9 -> 0 <= e <= 9 -> digit_of d = digit_of e -> d = e.
Proof. intros Hd He E. apply (f_equal digit_value) in E. rewrite !digit_value_of in E by done. congruence. Qed.

Lemma digit_of_not_minus d : 0 <= d <= 9 -> digit_of d <> minus_sign.
Proof. intros Hd E. apply (f_equal digit_value) in E. rewrite digit_value_of in E by done. by vm_compute in E. Qed.

Lemma rev_map_head {A B} (f : A -> B) (ds : list A) d : last ds = Some d -> exists m, rev (map f ds) = f d :: map f m.
Proof.
  intros [l ->]%last_Some. exists (rev l). by rewrite map_app, rev_app_distr, map_rev.
Qed.

(** The text of an integer: it reads back, and it is short. *)
Lemma int2Str_spec i :
  - 2 ^ 63 <= i < 2 ^ 64 -> exists txt, int2Str i = Some txt /\ read_decimal txt = Some i /\ zlen txt <= 20 < kMaxIntSize.
Proof.
  intros Hi. unfold int2Str, int2Str_fuel.
  destruct (int2Str_loop_spec 20 i) as (ds & -> & Hds & Hv & Hlen & d & Hd & Hz);
    [change (10 ^ Z.of_nat 20) with 100000000000000000000; lia|lia|]. cbn [mbind option_bind].
  destruct (rev_map_head digit_of ds d Hd) as (m & Hm).
  assert (0 <= d <= 9) as Hd9.
  { rewrite Forall_forall in Hds. apply Hds, list_elem_of_In. by apply last_Some_elem_of, list_elem_of_In in Hd. }
  assert (d <> 0 -> head (rev (map digit_of ds)) <> Some zero_digit) as Hhead.
  { intros Hd0. rewrite Hm. intros [= E]. by apply (digit_of_inj d 0) in E. }
  destruct (Z.ltb_spec i 0) as [Hneg|Hpos]; eexists; (split; [done|]).
  - rewrite rev_app_distr. cbn [rev app read_decimal]. rewrite decide_True by done.
    assert (d <> 0) as Hd0 by (intros E; apply Hz in E as [-> _]; lia).
    rewrite decide_False.
    2:{ intros [E|E]; [by apply Hhead|]. rewrite Hm in E. discriminate. }
    rewrite read_digits_rev by done. cbn. split; [f_equal; lia|].
    pose proof (le_value_lower ds d Hds Hd Hd0) as Hlow. rewrite zlen_cons. unfold zlen in *. rewrite length_rev, length_map.
    assert (Z.of_nat (length ds) - 1 < 19); [|unfold kMaxIntSize; lia].
    apply (Z.pow_lt_mono_r_iff 10); [lia|lia|]. change (10 ^ 19) with 10000000000000000000. lia.
  - split; [|unfold zlen, kMaxIntSize; rewrite length_rev, length_map; lia].
    pose proof (read_digits_rev ds Hds) as Hrd. rewrite Hm in *. cbn [read_decimal].
    rewrite decide_False by (by apply digit_of_not_minus). rewrite decide_False; [rewrite Hrd; f_equal; lia|].
    intros [E Hne]. apply (digit_of_inj d 0) in E as ->; [|lia|lia]. destruct Hz as [_ ->]; [done|].
    injection Hm as E. by rewrite <- E in Hne.
Qed.

(** An integer of at most 64 bits rendered by [int2Str] is the shortest
    decimal numeral of its value: it reads back as the integer, and it has at
    most 20 characters, below the room [appendInt] asks for. *)
Theorem int2Str_roundtrip i :
  - 2 ^ 63 <= i < 2 ^ 64 ->
  exists txt, int2Str i = Some txt /\ read_decimal txt = Some i /\ zlen txt <= 20 < kMaxIntSize.
Proof. apply int2Str_spec. Qed.

Lemma int2Str_roundtrip_witness :
  - 2 ^ 63 <= - 2 ^ 63 < 2 ^ 64 /\
  exists txt, int2Str (- 2 ^ 63) = Some txt /\ read_decimal txt = Some (- 2 ^ 63) /\ zlen txt <= 20 < kMaxIntSize.
Proof. split; [lia|]. apply (int2Str_roundtrip (- 2 ^ 63)). lia. Defined.

(** ** The stream as a bounded list of bytes *)

Definition item_text (it : item) : list byte :=
  match it with
  | IBool x => if x then str "True" else str "False"
  | IChar c => [c]
  | IInt i => default [] (int2Str i)
  | IDouble txt => txt
  | IString s => s
  | IPointer p => if p =? 0 then str "(null)" else str "0x" ++ default [] (ptrToHexStr p)
  end.

(** The room an item asks for before it is written. *)
Definition item_room (it : item) : Z :=
  match it with
  | IInt _ => kMaxIntSize
  | IDouble _ => kMaxFloatingSize
  | IPointer p => if p =? 0 then 6 else 10
  | _ => zlen (item_text it)
  end.

Definition item_ok (it : item) : Prop :=
  match it with
  | IInt i => - 2 ^ 63 <= i < 2 ^ 64
  | IDouble txt => zlen txt < kMaxFloatingSize
  | IString s => zlen s < 2 ^ 32
  | IPointer p => 0 <= p < 2 ^ 64
  | _ => True
  end.

(** Items are taken as a whole or not at all; one whose text is longer than the
    room it asks for runs over the end of the array. *)
Definition spec_put (SZ : Z) (c : list byte) (it : item) : option (list byte) :=
  let room := SZ - zlen c in
  if item_room it <? room then
    assert! zlen (item_text it) <? room; Some (c ++ item_text it)
  else Some c.

Fixpoint spec_puts (SZ : Z) (c : list byte) (its : list item) : option (list byte) :=
  match its with
  | [] => Some c
  | it :: its => c ← spec_put SZ c it; spec_puts SZ c its
  end.

Lemma hex_loop_spec fuel p :
  0 <= p < 16 ^ Z.of_nat fuel -> (0 < fuel)%nat -> exists cs, hex_loop fuel p = Some cs /\ (length cs <= fuel)%nat.
Proof.
  revert p. induction fuel as [|fuel IH]; intros p Hp Hf; [lia|]. cbn [hex_loop].
  pose proof (Z.mod_pos_bound p 16 ltac:(lia)) as Hm. pose proof (Z.div_mod p 16 ltac:(lia)) as Hdm.
  destruct (lookup_lt_is_Some_2 hex_digits (Z.to_nat (p mod 16))) as (c & ->); [change (length hex_digits) with 16%nat; lia|].
  cbn [mbind option_bind]. destruct (Z.eqb_spec (p / 16) 0) as [E|E]; [exists [c]; cbn; split; [done|lia]|].
  rewrite Nat2Z.inj_succ, Z.pow_succ_r in Hp by lia. destruct fuel as [|fuel]; [cbn in Hp; lia|].
  destruct (IH (p / 16)) as (cs & -> & Hl); [lia|lia|]. exists (c :: cs). split; [done|cbn; lia].
Qed.

Lemma ptrToHexStr_spec p : 0 <= p < 2 ^ 64 -> exists txt, ptrToHexStr p = Some txt /\ zlen txt = 16.
Proof.
  intros Hp. unfold ptrToHexStr. destruct (hex_loop_spec 16 p) as (cs & -> & Hl); [exact Hp|lia|].
  cbn [mbind option_bind]. eexists. split; [done|]. unfold zlen. rewrite length_rev.
  destruct (Nat.ltb_spec (length cs) 16); [rewrite length_app, repeat_length|]; lia.
Qed.

Section stream.
Context (SZ : Z).
Hypothesis HSZ : 0 < SZ < 2 ^ 32.

Definition fb_wf (b : FixedBuffer) : Prop := zlen (data_ b) = SZ /\ 0 <= len_ b < SZ.
Definition contents (b : FixedBuffer) : list byte := slice 0 (len_ b) (data_ b).

(** [b'] is [b] with [t] appended and a terminator after it. *)
Definition appended (b : FixedBuffer) (t : list byte) (b' : FixedBuffer) : Prop :=
  fb_wf b' /\ contents b' = contents b ++ t /\ slice (len_ b') 1 (data_ b') = [x00].

Lemma contents_zlen b : fb_wf b -> zlen (contents b) = len_ b.
Proof. intros [Hd Hl]. unfold contents. apply zlen_slice; lia. Qed.

Lemma avali_eq b : fb_wf b -> avali SZ b = SZ - len_ b.
Proof. intros [Hd Hl]. unfold avali. apply u32_id. lia. Qed.

Lemma ToStringView_eq b : fb_wf b -> ToStringView b = Some (contents b).
Proof. intros [Hd Hl]. apply mem_read_ok; lia. Qed.

Lemma terminate_spec b d t :
  fb_wf b -> zlen d = SZ -> slice 0 (len_ b) d = contents b -> slice (len_ b) (zlen t) d = t ->
  len_ b + zlen t < SZ ->
  exists b', terminate (mkFixedBuffer d (len_ b + zlen t)) = Some b' /\ appended b t b'.
Proof.
  intros [Hd Hl] Hzd Hpre Ht Hroom. pose proof (zlen_nonneg t) as Ht0. unfold terminate. cbn [data_ len_].
  assert (zlen [x00] = 1) as H1 by done.
  rewrite mem_write_ok by lia. cbn [mbind option_bind]. eexists. split; [done|]. split_and!.
  - split; cbn; [rewrite zlen_overwrite|]; lia.
  - unfold contents at 1. cbn [data_ len_]. rewrite slice_overwrite_before by lia.
    rewrite (slice_split 0 _ (len_ b)) by lia. rewrite Hpre. f_equal.
    by replace (len_ b + zlen t - len_ b) with (zlen t) by lia.
  - cbn [data_ len_]. apply slice_overwrite_eq; lia.
Qed.

(** A text written at the end with bytes after it, then counted and terminated. *)
Lemma write_spec b t rest :
  fb_wf b -> zlen t < SZ - len_ b -> len_ b + zlen t + zlen rest <= SZ ->
  exists d, mem_write (data_ b) (len_ b) (t ++ rest) = Some d /\
  exists b', terminate (mkFixedBuffer d (u32 (len_ b + zlen t))) = Some b' /\ appended b t b'.
Proof.
  intros Hwf Ht Hrest. pose proof Hwf as [Hd Hl]. pose proof (zlen_nonneg t). pose proof (zlen_nonneg rest).
  assert (zlen (t ++ rest) = zlen t + zlen rest) as Hz by apply zlen_app.
  rewrite mem_write_ok by lia. eexists. split; [done|]. rewrite u32_id by lia.
  apply terminate_spec; [done|rewrite zlen_overwrite; lia| | |lia].
  - apply slice_overwrite_before; lia.
  - rewrite <- (take_slice _ (zlen (t ++ rest))) by lia. rewrite slice_overwrite_eq by lia.
    unfold zlen. by rewrite Nat2Z.id, take_app_length.
Qed.

Lemma FixedBuffer_Append_spec b s :
  fb_wf b -> zlen s < SZ - len_ b -> exists b', Append SZ b s = Some b' /\ appended b s b'.
Proof.
  intros Hwf Hs. unfold Append. rewrite avali_eq, (proj2 (Z.ltb_lt _ _)) by done.
  destruct (write_spec b s []) as (d & Ed & b' & Eb & Hb); [done|done|change (zlen (@nil byte)) with 0; lia|].
  rewrite app_nil_r in Ed. rewrite Ed. exists b'. split; [exact Eb|done].
Qed.

Lemma FixedBuffer_Append_full b s : fb_wf b -> SZ - len_ b <= zlen s -> Append SZ b s = Some b.
Proof. intros Hwf Hs. unfold Append. rewrite avali_eq by done. by rewrite (proj2 (Z.ltb_ge _ _)). Qed.

(** The last three steps of the numeric appends. *)
Lemma write_cstr_spec b t :
  fb_wf b -> zlen t < SZ - len_ b ->
  exists b', (b ← write_cstr b 0 t; b ← AdvanceRead SZ b (zlen t); terminate b) = Some b' /\ appended b t b'.
Proof.
  intros Hwf Ht. pose proof Hwf as [Hd Hl]. pose proof (zlen_nonneg t).
  destruct (write_spec b t [x00]) as (d & Ed & b' & Eb & Hb); [done|done|change (zlen [x00]) with 1; lia|].
  unfold write_cstr. rewrite Z.add_0_r, Ed. cbn [mbind option_bind]. unfold AdvanceRead. cbn [len_ data_].
  rewrite check_bind_true by (rewrite u32_id by lia; lia). cbn [mbind option_bind]. eauto.
Qed.

Lemma appendPtr_spec b p :
  fb_wf b -> 0 < p < 2 ^ 64 -> 18 < SZ - len_ b ->
  exists b', appendPtr SZ b p = Some b' /\ appended b (str "0x" ++ default [] (ptrToHexStr p)) b'.
Proof.
  intros Hwf Hp Hroom. pose proof Hwf as [Hd Hl]. unfold appendPtr. rewrite avali_eq by done.
  rewrite (proj2 (Z.eqb_neq p 0)), (proj2 (Z.ltb_lt 10 _)) by lia. cbn [andb].
  destruct (ptrToHexStr_spec p) as (txt & -> & Hz); [lia|]. cbn [from_option]. unfold id.
  assert (zlen (str "0x") = 2) as H2 by done. rewrite mem_write_ok by lia. cbn [mbind option_bind].
  assert (zlen (txt ++ [x00]) = 17) as H17 by (rewrite zlen_app, Hz; done).
  unfold write_cstr. cbn [data_ len_]. rewrite mem_write_ok by (rewrite ?zlen_overwrite; lia).
  cbn [mbind option_bind]. unfold AdvanceRead. cbn [len_ data_]. rewrite Hz.
  rewrite check_bind_true by (rewrite u32_id by lia; lia). cbn [mbind option_bind].
  rewrite u32_id by lia. assert (zlen (str "0x" ++ txt) = 16 + 2) as H18 by (rewrite zlen_app, Hz; done).
  rewrite <- H18. apply terminate_spec; [done| | | |lia].
  - rewrite !zlen_overwrite; rewrite ?zlen_overwrite; lia.
  - rewrite !slice_overwrite_before by (rewrite ?zlen_overwrite; lia). done.
  - rewrite H18, (slice_split _ _ 2) by lia. f_equal.
    + rewrite slice_overwrite_before by (rewrite ?zlen_overwrite; lia). apply slice_overwrite_eq; lia.
    + change (16 + 2 - 2) with 16. rewrite <- (take_slice _ 17) by lia.
      rewrite slice_overwrite_eq by (rewrite ?zlen_overwrite; lia). rewrite <- Hz. unfold zlen.
      by rewrite Nat2Z.id, take_app_length.
Qed.

Lemma appendPtr_fails b p : fb_wf b -> 0 < p < 2 ^ 64 -> 10 < SZ - len_ b <= 18 -> appendPtr SZ b p = None.
Proof.
  intros Hwf Hp Hroom. pose proof Hwf as [Hd Hl]. unfold appendPtr. rewrite avali_eq by done.
  rewrite (proj2 (Z.eqb_neq p 0)), (proj2 (Z.ltb_lt 10 _)) by lia. cbn [andb].
  destruct (ptrToHexStr_spec p) as (txt & -> & Hz); [lia|].
  assert (zlen (str "0x") = 2) as H2 by done. rewrite mem_write_ok by lia. cbn [mbind option_bind].
  unfold write_cstr, mem_write at 1. cbn [data_ len_].
  assert (zlen (txt ++ [x00]) = 17) as H17 by (rewrite zlen_app, Hz; done). rewrite H17, zlen_overwrite by lia.
  rewrite (proj2 (Z.leb_gt _ SZ)) || rewrite Hd, (proj2 (Z.leb_gt _ SZ)); [|lia]. by rewrite andb_false_r.
Qed.

(** An item of a fixed text, which asks for as much room as it takes. *)
Lemma Append_put b s :
  fb_wf b -> zlen s < 2 ^ 32 ->
  exists b', Append SZ b s = Some b' /\ fb_wf b' /\
    (if zlen s <? SZ - len_ b then assert! zlen s <? SZ - len_ b; Some (contents b ++ s) else Some (contents b)) = Some (contents b').
Proof.
  intros Hwf Hs. destruct (Z.ltb_spec (zlen s) (SZ - len_ b)) as [H|H].
  - destruct (FixedBuffer_Append_spec b s Hwf H) as (b' & E & Hwf' & Hc & _). exists b'. by rewrite Hc.
  - exists b. by rewrite FixedBuffer_Append_full.
Qed.

(** One item: the buffer holds what the bounded list holds, and the array is
    overrun exactly when the item's text does not fit. *)
Lemma put_spec b it :
  fb_wf b -> item_ok it ->
  match spec_put SZ (contents b) it with
  | Some c => exists b', put SZ b it = Some b' /\ fb_wf b' /\ contents b' = c
  | None => put SZ b it = None
  end.
Proof.
  intros Hwf Hok.
  assert (forall s, zlen s < 2 ^ 32 -> item_room it = zlen s -> item_text it = s -> put SZ b it = Append SZ b s ->
    match spec_put SZ (contents b) it with
    | Some c => exists b', put SZ b it = Some b' /\ fb_wf b' /\ contents b' = c
    | None => put SZ b it = None end) as Htext.
  { intros s Hs Hr Ht Hp. unfold spec_put. rewrite Hr, Ht, Hp, contents_zlen by done.
    destruct (Append_put b s Hwf Hs) as (b' & E & Hwf' & Hc). rewrite Hc. eauto. }
  assert (forall t, 0 <= zlen t < item_room it -> item_text it = t ->
    put SZ b it = (if item_room it <? avali SZ b then b ← write_cstr b 0 t; b ← AdvanceRead SZ b (zlen t); terminate b else Some b) ->
    match spec_put SZ (contents b) it with
    | Some c => exists b', put SZ b it = Some b' /\ fb_wf b' /\ contents b' = c
    | None => put SZ b it = None end) as Hnum.
  { intros t Hr Ht Hp. unfold spec_put. rewrite Hp, contents_zlen, avali_eq, Ht by done. destruct (Z.ltb_spec (item_room it) (SZ - len_ b)); [|by exists b].
    rewrite check_bind_true by lia. destruct (write_cstr_spec b t Hwf ltac:(lia)) as (b' & E & Hwf' & Hc & _). eauto. }
  destruct it as [x|c|i|txt|s|p].
  - apply (Htext (item_text (IBool x))); [by destruct x|done|done|by destruct x].
  - by apply (Htext [c]).
  - destruct (int2Str_spec i Hok) as (t & E & _ & Hl). apply (Hnum t); cbn [item_text item_room]; rewrite ?E; [|done|].
    + pose proof (zlen_nonneg t). unfold kMaxIntSize in *. lia.
    + cbn [put]. unfold appendInt. by rewrite E.
  - cbn [item_ok] in Hok. apply (Hnum txt); cbn [item_text item_room]; [pose proof (zlen_nonneg txt); lia|done|].
    cbn [put]. unfold appendFloat. rewrite firstn_all2; [done|]. unfold zlen in Hok. lia.
  - by apply (Htext s).
  - cbn [item_ok] in Hok. destruct (Z.eqb_spec p 0) as [->|Hp].
    + apply (Htext (str "(null)")); [done|done|done|]. cbn [put]. unfold appendPtr. rewrite Z.eqb_refl. cbn [andb].
      destruct (Z.ltb_spec 6 (avali SZ b)) as [H|H]; [done|]. rewrite (proj2 (Z.ltb_ge 10 _)) by lia.
      rewrite avali_eq in H by done. by rewrite FixedBuffer_Append_full.
    + unfold spec_put. cbn [item_room item_text put]. rewrite (proj2 (Z.eqb_neq _ _) Hp), contents_zlen by done.
      destruct (ptrToHexStr_spec p Hok) as (txt & E & Hz).
      assert (zlen (str "0x" ++ default [] (ptrToHexStr p)) = 18) as H18 by (rewrite E; cbn [from_option]; unfold id; by rewrite zlen_app, Hz).
      rewrite H18. destruct (Z.ltb_spec 10 (SZ - len_ b)) as [H|H].
      * destruct (Z.ltb_spec 18 (SZ - len_ b)) as [H'|H']; cbn [check mbind option_bind]; [|by apply appendPtr_fails; [|lia|]].
        destruct (appendPtr_spec b p Hwf ltac:(lia) H') as (b' & Eb & Hwf' & Hc & _). eauto.
      * exists b. unfold appendPtr. rewrite (proj2 (Z.eqb_neq _ _) Hp), avali_eq, (proj2 (Z.ltb_ge 10 _)) by done. done.
Qed.

Lemma puts_spec b its :
  fb_wf b -> Forall item_ok its ->
  match spec_puts SZ (contents b) its with
  | Some c => exists b', puts SZ b its = Some b' /\ fb_wf b' /\ contents b' = c
  | None => puts SZ b its = None
  end.
Proof.
  revert b. induction its as [|it its IH]; intros b Hwf Hok; cbn [spec_puts puts].
  - by exists b.
  - apply Forall_cons in Hok as [Hit Hok]. pose proof (put_spec b it Hwf Hit) as Hput.
    destruct (spec_put SZ (contents b) it) as [c|]; cbn [mbind option_bind]; [|by rewrite Hput].
    destruct Hput as (b' & -> & Hwf' & <-). by apply IH.
Qed.

(** A stream holds exactly the texts of the items put into it that found the
    room they ask for, in order; every access stays inside the array, except
    where a pointer finds more than 10 and at most 18 bytes left. *)
Theorem stream_refines_bytes b its :
  fb_wf b -> Forall item_ok its ->
  match spec_puts SZ (contents b) its with
  | Some c => exists b', puts SZ b its = Some b' /\ fb_wf b' /\ ToStringView b' = Some c
  | None => puts SZ b its = None
  end.
Proof.
  intros Hwf Hok. pose proof (puts_spec b its Hwf Hok) as Hp. destruct (spec_puts SZ (contents b) its) as [c|]; [|done].
  destruct Hp as (b' & E & Hwf' & <-). exists b'. by rewrite ToStringView_eq.
Qed.

End stream.

(** A line of 4096 bytes, as the logger uses it. *)
Definition kSmallStreamSize : Z := 4096.

Definition sample_items : list item :=
  [IString (str "sent "); IInt (-17); IChar " "%byte; IBool true; IPointer 255; IPointer 0].

Lemma stream_refines_bytes_witness :
  0 < kSmallStreamSize < 2 ^ 32 /\ fb_wf kSmallStreamSize (mkFixedBuffer (repeat x00 4096) 0) /\ Forall item_ok sample_items /\
  match spec_puts kSmallStreamSize [] sample_items with
  | Some c => exists b', puts kSmallStreamSize (mkFixedBuffer (repeat x00 4096) 0) sample_items = Some b' /\
      fb_wf kSmallStreamSize b' /\ ToStringView b' = Some c
  | None => puts kSmallStreamSize (mkFixedBuffer (repeat x00 4096) 0) sample_items = None
  end.
Proof.
  assert (0 < kSmallStreamSize < 2 ^ 32) as H1 by (unfold kSmallStreamSize; lia).
  assert (fb_wf kSmallStreamSize (mkFixedBuffer (repeat x00 4096) 0)) as H2 by (split; [done|unfold kSmallStreamSize; cbn; lia]).
  assert (Forall item_ok sample_items) as H3 by (repeat constructor; cbn; lia).
  split; [done|]. split; [done|]. split; [done|].
  exact (stream_refines_bytes kSmallStreamSize H1 _ sample_items H2 H3).
Defined.

(** A pointer put into a stream with 15 bytes left runs over its end. *)
Lemma pointer_overruns :
  puts kSmallStreamSize (mkFixedBuffer (repeat x00 4096) 0) [IString (repeat "x"%byte 4081); IPointer 255] = None.
Proof. vm_compute. reflexivity. Qed.
