(* ===== verification/Convert.v ===== *)
(** * Text conversions: kanon/string/fmt_stream.h, lexical_cast.{h,cc},
      string_view_util.{h,cc}, string_util.h, and the part of
      kanon/util/optional.h their results go through

    Formatting with [%] placeholders into a fixed buffer, numbers to text and
    back by way of the C library's [strtol] family (base 10), and the
    concatenation of strings that fills its result from the end. *)

From Stdlib Require Import ZArith Lia.
From S2P Require Import Prelude StringView FixedBuffer.

Abbreviation sv_size := StringView.size.

(** ** strtol and strtoul of the C library, base 10 *)

(** The bytes a C string at the start of [bs] holds. *)
Fixpoint cstr (bs : list byte) : list byte :=
  match bs with
  | [] => []
  | c :: bs => if decide (c = x00) then [] else c :: cstr bs
  end.

Definition isspace (c : byte) : bool :=
  (byte_to_Z c =? 32) || ((9 <=? byte_to_Z c) && (byte_to_Z c <=? 13)).

Fixpoint skip_space (s : list byte) : list byte :=
  match s with c :: s' => if isspace c then skip_space s' else s | [] => [] end.

(** The value of the digits at the start, whether there is one, and the rest. *)
Fixpoint scan_digits (acc : Z) (some : bool) (s : list byte) : Z * bool * list byte :=
  match s with
  | c :: s' => match digit_value c with Some v => scan_digits (10 * acc + v) true s' | None => (acc, some, s) end
  | [] => (acc, some, [])
  end.

(** Sign, magnitude and rest; [None] when nothing can be converted. *)
Definition parse_number (s : list byte) : option (bool * Z * list byte) :=
  let s := skip_space s in
  let '(neg, s) :=
    match s with
    | c :: s' => if decide (c = minus_sign) then (true, s') else if decide (c = "+"%byte) then (false, s') else (false, s)
    | [] => (false, [])
    end in
  let '(v, some, rest) := scan_digits 0 false s in
  if (some : bool) then Some (neg, v, rest) else None.

(** The result and the text [*endptr] points at; out of range values are
    clamped, [long] and [long long] have 64 bits. *)
Definition strtol (s : list byte) : Z * list byte :=
  match parse_number s with
  | None => (0, s)
  | Some (neg, v, rest) => (Z.max (- 2 ^ 63) (Z.min (2 ^ 63 - 1) (if neg then - v else v)), rest)
  end.

Definition strtoul (s : list byte) : Z * list byte :=
  match parse_number s with
  | None => (0, s)
  | Some (neg, v, rest) => (if 2 ^ 64 <=? v then 2 ^ 64 - 1 else u64 (if neg then - v else v), rest)
  end.

(** ** lexical_cast *)

(** The integer types it converts to: width and signedness. *)
Record int_type := mkIntType { width : Z; signed : bool }.

Definition int_type_ok (ty : int_type) : Prop := width ty ∈ [8; 16; 32; 64].
Definition in_range_of (ty : int_type) (n : Z) : Prop :=
  if signed ty then - 2 ^ (width ty - 1) <= n < 2 ^ (width ty - 1) else 0 <= n < 2 ^ width ty.

(** [static_cast<integer_type>] *)
Definition cast_to (ty : int_type) (z : Z) : Z :=
  if signed ty then swrap (width ty) z else wrap (width ty) z.

(** [static char lexical_cvt_buf[64]]: [strncpy] stops at a NUL and pads. *)
Definition lexical_cvt (src : list byte) : list byte := cstr src.

Definition lexical_cast_int (ty : int_type) (src : list byte) : option Z :=
  if 63 <? zlen src then None else
  let '(ret, endptr) := (if signed ty then strtol else strtoul) (lexical_cvt src) in
  match endptr with [] => Some (cast_to ty ret) | _ => None end.

Definition kCastStreamSize : Z := 64.

(** [_cast_stream], shared by all casts to text. *)
Definition cast_stream := FixedBuffer.

(** [_cast_stream.reset(); _cast_stream << src; _cast_stream << '\0';] *)
Definition cast_put (s : cast_stream) (src : item) : option cast_stream :=
  s ← put kCastStreamSize (FixedBuffer.reset s) src; put kCastStreamSize s (IChar x00).

(** [std::string(data(), size() - 1)]: a copy. *)
Definition lexical_cast_string (s : cast_stream) (src : item) : option (list byte * cast_stream) :=
  s ← cast_put s src;
  txt ← mem_read (FixedBuffer.data_ s) 0 (u32 (FixedBuffer.len_ s - 1));
  Some (txt, s).

(** [StringView(data(), size() - 1)]: a view into the stream. *)
Definition lexical_cast_view (s : cast_stream) (src : item) : option ((Z * Z) * cast_stream) :=
  s ← cast_put s src; Some ((0, u32 (FixedBuffer.len_ s - 1)), s).

Definition view_text (s : cast_stream) (v : Z * Z) : option (list byte) :=
  mem_read (FixedBuffer.data_ s) (fst v) (snd v).

(** ** string_view_util: an outer [None] is a failed assertion, an inner one the
       null [optional] *)

(** [kanon::optional]: [value()] asserts that there is a value, and the
    converting constructor from [optional<U>] calls it. *)
Definition optional_convert (ty : int_type) (o : option Z) : option (option Z) :=
  match o with Some v => Some (Some (cast_to ty v)) | None => None end.

(** [memcpy] to a static buffer and a terminator; [ret == 0 && end == buf] is
    the test for failure. *)
Definition view_to_int (bufsz : Z) (func : list byte -> Z * list byte) (ty : int_type) (sv : StringView)
  : option (option Z) :=
  assert! sv_size sv <? bufsz;
  bs ← ToString sv;
  let s := cstr bs in
  let '(r, endptr) := func s in
  let ret := cast_to ty r in
  Some (if (ret =? 0) && (zlen endptr =? zlen s) then None else Some ret).

Definition StringViewToU64 := view_to_int 64 strtoul (mkIntType 64 false).
Definition StringViewToU32 := view_to_int 32 strtoul (mkIntType 32 false).
Definition StringViewTo32 := view_to_int 32 strtol (mkIntType 32 true).
Definition StringViewTo64 := view_to_int 64 strtol (mkIntType 64 true).
Definition StringViewTo16 sv := o ← StringViewTo32 sv; optional_convert (mkIntType 16 true) o.
Definition StringViewToU16 sv := o ← StringViewToU32 sv; optional_convert (mkIntType 16 false) o.
Definition StringViewTo8 sv := o ← StringViewTo32 sv; optional_convert (mkIntType 8 true) o.
Definition StringViewToU8 sv := o ← StringViewToU32 sv; optional_convert (mkIntType 8 false) o.

(** ** FmtStream *)

Definition percent : byte := "%"%byte.

Section fmt_stream.
Context (SZ : Z).

(** [stream_.Append(sv)] *)
Definition append_view (b : FixedBuffer) (sv : StringView) : option FixedBuffer :=
  bs ← ToString sv; FixedBuffer.Append SZ b bs.

(** [ParseAndSerialize(fmt)], no argument left. *)
Fixpoint ParseAndSerialize0 (fuel : nat) (b : FixedBuffer) (fmt : StringView) : option FixedBuffer :=
  match fuel with
  | O => None
  | S k =>
    pos ← find_char fmt percent 0;
    if pos <? sv_size fmt then
      assert! negb (pos =? sv_size fmt - 1);
      c ← sv_at fmt (pos + 1);
      assert! bool_decide (c = percent);
      b ← append_view b (substr fmt 0 (pos + 1));
      ParseAndSerialize0 k b (remove_prefix fmt (pos + 2))
    else append_view b fmt
  end.

(** [ParseAndSerialize(fmt, args...)] *)
Fixpoint ParseAndSerialize (fuel : nat) (b : FixedBuffer) (fmt : StringView) (args : list item)
  : option FixedBuffer :=
  match args with
  | [] => ParseAndSerialize0 fuel b fmt
  | arg :: rest =>
    match fuel with
    | O => None
    | S k =>
      pos ← find fmt (view_of (str "%")) 0;
      b ← append_view b (mkView (block fmt) (StringView.data_ fmt) (if pos =? npos then sv_size fmt else pos));
      if pos <? sv_size fmt then
        c ← sv_at fmt (pos + 1);
        if bool_decide (c = percent) then
          b ← FixedBuffer.Append SZ b (str "%");
          ParseAndSerialize k b (substr fmt (pos + 2) npos) args
        else
          b ← put SZ b arg;
          ParseAndSerialize k b (substr fmt (pos + 1) npos) rest
      else None
    end
  end.

(** Every call consumes at least one byte of the format. *)
Definition Serialize (b : FixedBuffer) (fmt : StringView) (args : list item) : option FixedBuffer :=
  ParseAndSerialize (S (Z.to_nat (sv_size fmt))) b fmt args.
End fmt_stream.

(** ** StrAppend, StrCat *)

(** An argument: a string of its own, or the string that is appended to. *)
Inductive str_arg :=
  | ABytes (bs : list byte)   (* std::string, StringView, char const *, char *)
  | ASelf.                    (* the std::string passed by reference *)

Definition arg_bytes (s : list byte) (a : str_arg) : list byte :=
  match a with ABytes bs => bs | ASelf => s end.

(** [str.resize(n)] *)
Definition str_resize (s : list byte) (n : Z) : list byte :=
  take (Z.to_nat n) s ++ repeat x00 (Z.to_nat n - length s).

(** The string, the size it will have and the index of what has been written;
    the arguments are read again each time they are used. *)
Fixpoint StrAppend_impl (s : list byte) (size : Z) (args : list str_arg) : option (list byte * Z) :=
  match args with
  | [] => None
  | [head] =>
    let size := u64 (size + zlen (arg_bytes s head)) in
    let s := str_resize s size in
    let index := u64 (size - zlen (arg_bytes s head)) in
    s ← mem_write s index (arg_bytes s head);
    Some (s, index)
  | head :: strs =>
    let size := u64 (size + zlen (arg_bytes s head)) in
    '(s, index) ← StrAppend_impl s size strs;
    assert! zlen (arg_bytes s head) <=? index;
    let index := u64 (index - zlen (arg_bytes s head)) in
    s ← mem_write s index (arg_bytes s head);
    Some (s, index)
  end.

Definition StrAppend (s : list byte) (args : list str_arg) : option (list byte) :=
  '(s, _) ← StrAppend_impl s (zlen s) args; Some s.

Definition StrCat (args : list str_arg) : option (list byte) := StrAppend [] args.

(** ** StrAppend fills its result from the end *)

Lemma str_resize_grow s n : zlen s <= n -> str_resize s n = s ++ repeat x00 (Z.to_nat (n - zlen s)).
Proof. unfold zlen. intros H. unfold str_resize. rewrite take_ge by lia. do 2 f_equal. lia. Qed.

Lemma mem_write_over (a b c bs : list byte) :
  length b = length bs -> mem_write (a ++ b ++ c) (zlen a) bs = Some (a ++ bs ++ c).
Proof.
  intros Hl. pose proof (zlen_nonneg a). rewrite mem_write_ok; [|lia|rewrite !zlen_app; unfold zlen in *; lia].
  f_equal. unfold overwrite. unfold zlen. rewrite !Nat2Z.id, take_app_length.
  by rewrite (app_assoc a b c), <- Hl, <- length_app, drop_app_length.
Qed.

Lemma zlen_repeat {A} (x : A) n : 0 <= n -> zlen (repeat x (Z.to_nat n)) = n.
Proof. intros. unfold zlen. rewrite repeat_length. lia. Qed.

(** The bytes between the old string and the part of [args] are not set yet. *)
Lemma StrAppend_impl_spec s size bss :
  bss <> [] -> zlen s <= size -> size + zlen (concat bss) < 2 ^ 64 ->
  StrAppend_impl s size (map ABytes bss)
  = Some (s ++ repeat x00 (Z.to_nat (size - zlen s)) ++ concat bss, size).
Proof.
  revert size. induction bss as [|h bss IH]; intros size Hne Hs Hb; [done|].
  pose proof (zlen_nonneg s). pose proof (zlen_nonneg h). cbn [concat] in Hb. rewrite zlen_app in Hb.
  pose proof (zlen_nonneg (concat bss)). destruct bss as [|h' bss].
  - cbn [map StrAppend_impl arg_bytes concat]. rewrite (u64_id (size + zlen h)) by lia.
    replace (size + zlen h - zlen h) with size by lia. rewrite u64_id by lia.
    rewrite str_resize_grow by lia. rewrite app_nil_r.
    replace (Z.to_nat (size + zlen h - zlen s)) with (Z.to_nat (size - zlen s) + length h)%nat by (unfold zlen in *; lia).
    rewrite repeat_app. rewrite <- (app_nil_r (repeat x00 (length h))), !app_assoc, <- (app_assoc _ (repeat x00 (length h))).
    pose proof (mem_write_over (s ++ repeat x00 (Z.to_nat (size - zlen s))) (repeat x00 (length h)) [] h) as Hw.
    rewrite zlen_app, zlen_repeat in Hw by lia. replace (zlen s + (size - zlen s)) with size in Hw by lia.
    rewrite Hw by apply repeat_length. cbn. by rewrite app_nil_r.
  - change (map ABytes (h :: h' :: bss)) with (ABytes h :: map ABytes (h' :: bss)).
    cbn [StrAppend_impl]. change (map ABytes (h' :: bss)) with (ABytes h' :: map ABytes bss) at 1.
    cbn [arg_bytes]. rewrite (u64_id (size + zlen h)) by lia.
    change (ABytes h' :: map ABytes bss) with (map ABytes (h' :: bss)).
    rewrite IH by (done || lia). cbn [mbind option_bind]. rewrite check_bind_true by (apply Z.leb_le; lia).
    replace (size + zlen h - zlen h) with size by lia. rewrite u64_id by lia.
    replace (Z.to_nat (size + zlen h - zlen s)) with (Z.to_nat (size - zlen s) + length h)%nat by (unfold zlen in *; lia).
    rewrite repeat_app, <- app_assoc, (app_assoc s).
    pose proof (mem_write_over (s ++ repeat x00 (Z.to_nat (size - zlen s))) (repeat x00 (length h)) (concat (h' :: bss)) h) as Hw.
    rewrite zlen_app, zlen_repeat in Hw by lia. replace (zlen s + (size - zlen s)) with size in Hw by lia.
    rewrite Hw by apply repeat_length. cbn [mbind option_bind concat]. by rewrite <- !app_assoc.
Qed.

(** ** Reading back what int2Str writes *)

Lemma digit_value_facts c v : digit_value c = Some v -> isspace c = false /\ c <> x00 /\ c <> minus_sign /\ c <> "+"%byte.
Proof.
  unfold digit_value, isspace. intros H. destruct (_ && _) eqn:E; [|done]. apply andb_true_iff in E as [E1 E2].
  rewrite Z.leb_le in E1, E2. split; [|repeat split; intros ->; vm_compute in E1; done].
  replace (byte_to_Z c =? 32) with false by lia. replace (byte_to_Z c <=? 13) with false by lia. by rewrite andb_false_r.
Qed.

Lemma read_digits_scan l acc v b :
  read_digits acc l = Some v -> scan_digits acc b l = (v, b || negb (bool_decide (l = [])), []).
Proof.
  revert acc b. induction l as [|c l IH]; intros acc b H; cbn in *.
  - injection H as ->. by rewrite orb_false_r.
  - destruct (digit_value c) as [d|]; [|done]. cbn in H. rewrite (IH _ true H). cbn. by rewrite orb_true_r.
Qed.

Lemma read_digits_cstr l acc v : read_digits acc l = Some v -> cstr l = l.
Proof.
  revert acc. induction l as [|c l IH]; intros acc H; [done|]. cbn in *.
  destruct (digit_value c) as [d|] eqn:E; [|done]. apply digit_value_facts in E as (_ & E & _).
  rewrite decide_False by done. f_equal. by eapply IH.
Qed.

(** A numeral is read by the C library as the number it stands for. *)
Lemma read_decimal_parse txt i :
  read_decimal txt = Some i ->
  cstr txt = txt /\ exists neg v, parse_number txt = Some (neg, v, []) /\ (if (neg : bool) then - v else v) = i.
Proof.
  destruct txt as [|c rest]; [done|]. unfold read_decimal. destruct (decide (c = minus_sign)) as [->|Hc].
  - destruct (decide _) as [|Hr]; [done|]. intros H. apply bind_Some in H as (v & Hv & [= <-]).
    pose proof (read_digits_cstr _ _ _ Hv) as Hcs. split.
    { cbn [cstr]. rewrite decide_False by done. by rewrite Hcs. }
    exists true, v. split; [|done]. unfold parse_number. cbv zeta.
    change (skip_space (minus_sign :: rest)) with (minus_sign :: rest). cbv beta iota.
    rewrite decide_True by done.
    rewrite (read_digits_scan _ _ _ false Hv). rewrite bool_decide_false; [done|]. tauto.
  - destruct (decide _) as [|_]; [done|]. intros H. split; [by eapply read_digits_cstr|].
    exists false, i. split; [|done]. pose proof (read_digits_scan _ _ _ false H) as Hs.
    cbn in H. destruct (digit_value c) as [d|] eqn:E; [|done]. apply digit_value_facts in E as (Hsp & _ & _ & Hp).
    unfold parse_number. cbv zeta. cbn [skip_space]. rewrite Hsp. rewrite !decide_False by done. by rewrite Hs.
Qed.

Lemma swrap_id w z : 0 < w -> - 2 ^ (w - 1) <= z < 2 ^ (w - 1) -> swrap w z = z.
Proof.
  intros Hw Hz. unfold swrap. rewrite wrap_id; [lia|]. replace (2 ^ w) with (2 * 2 ^ (w - 1)); [lia|].
  rewrite <- Z.pow_succ_r by lia. f_equal. lia.
Qed.

Lemma cast_to_id ty n : int_type_ok ty -> in_range_of ty n -> cast_to ty n = n.
Proof.
  unfold int_type_ok, in_range_of, cast_to. intros Hw Hn. destruct (signed ty).
  - apply swrap_id; [|done]. rewrite !elem_of_cons, elem_of_nil in Hw. lia.
  - by apply wrap_id.
Qed.

Lemma in_range_64 ty n : int_type_ok ty -> in_range_of ty n ->
  if signed ty then - 2 ^ 63 <= n < 2 ^ 63 else 0 <= n < 2 ^ 64.
Proof.
  unfold int_type_ok, in_range_of. rewrite !elem_of_cons, elem_of_nil. intros Hw Hn.
  assert (2 ^ width ty <= 2 ^ 64 /\ 2 ^ (width ty - 1) <= 2 ^ 63) as [H1 H2]
    by (split; apply Z.pow_le_mono_r; lia).
  destruct (signed ty); lia.
Qed.

(** Text that reads as a number of the type is cast to that number. *)
Lemma lexical_cast_int_spec ty txt n :
  int_type_ok ty -> in_range_of ty n -> zlen txt <= 63 -> read_decimal txt = Some n ->
  lexical_cast_int ty txt = Some n.
Proof.
  intros Hty Hn Hl Hr. unfold lexical_cast_int, lexical_cvt. replace (63 <? zlen txt) with false by lia.
  destruct (read_decimal_parse txt n Hr) as (-> & neg & v & Hp & Hv). pose proof (in_range_64 ty n Hty Hn) as Hb.
  destruct (signed ty) eqn:Es; unfold strtol, strtoul; rewrite Hp, Hv.
  - rewrite Z.min_r, Z.max_r by lia. by rewrite cast_to_id.
  - replace (2 ^ 64 <=? v) with false by (destruct neg; lia). rewrite u64_id by lia. by rewrite cast_to_id.
Qed.

(** ** FmtStream against a specification on the bytes of the format *)

(** [%%] is a percent sign, any other [%] the next argument; there must be as
    many of them as arguments. *)
Fixpoint fmt_spec (f : list byte) (args : list item) {struct f} : option (list byte) :=
  match f with
  | [] => match args with [] => Some [] | _ => None end
  | c :: f' =>
    if decide (c = percent) then
      match f' with
      | d :: f'' =>
        if decide (d = percent) then cons percent <$> fmt_spec f'' args
        else match args with a :: rest => app (item_text a) <$> fmt_spec f' rest | [] => None end
      | [] => match args with a :: rest => app (item_text a) <$> fmt_spec f' rest | [] => None end
      end
    else cons c <$> fmt_spec f' args
  end.

(** A view that ends at the terminator of its string. *)
Definition cstring_view (v : StringView) : Prop := view_wf v /\ sv_at v (StringView.len_ v) = Some x00.

Lemma fmt_spec_text pre f args : percent ∉ pre -> fmt_spec (pre ++ f) args = app pre <$> fmt_spec f args.
Proof.
  induction pre as [|c pre IH]; intros Hp; [change ([] ++ f) with f; by destruct (fmt_spec f args)|]. rewrite not_elem_of_cons in Hp.
  cbn [app fmt_spec]. rewrite decide_False by (intros ->; tauto). rewrite IH by tauto. by destruct (fmt_spec f args).
Qed.

Lemma fmt_spec_no_percent f args : percent ∉ f -> fmt_spec f args = match args with [] => Some f | _ => None end.
Proof.
  intros Hp. rewrite <- (app_nil_r f) at 1. rewrite fmt_spec_text by done. cbn [fmt_spec].
  destruct args; cbn; [by rewrite app_nil_r|done].
Qed.

Lemma find_percent v : view_wf v -> exists r, find v (view_of (str "%")) 0 = Some r /\ splits_at percent v r.
Proof.
  intros Hv. pose proof (view_len v Hv). destruct (find_spec v (view_of (str "%")) 0) as (r & -> & Hr);
    [done|by apply view_of_wf|by apply (bool_decide_unpack _)|lia|].
  exists r. split; [done|]. apply first_char; [done|].
  assert (forall i, 0 <= i -> occurs_at (content (view_of (str "%"))) (content v) i <-> content v !! Z.to_nat i = Some percent) as Ho.
  { intros i Hi. unfold occurs_at. rewrite content_view_of. change (zlen (str "%")) with 1.
    change (str "%") with [percent]. unfold slice. change (Z.to_nat 1) with 1%nat. rewrite <- (Z2Nat.id i Hi) at 1 2.
    rewrite <- (Nat.add_0_r (Z.to_nat i)) at 4. rewrite <- lookup_drop.
    split.
    - intros (_ & _ & E). destruct (drop (Z.to_nat i) (content v)); [done|]. cbn in E. by injection E as ->.
    - intros E. split; [lia|]. destruct (drop (Z.to_nat i) (content v)) as [|x l] eqn:Ed; [done|]. cbn in E. injection E as ->.
      split; [|done]. apply (f_equal length) in Ed. rewrite length_drop in Ed. cbn in Ed. unfold zlen. lia. }
  destruct Hr as [[-> Hn]|(Hr & Hp & Hb)]; [left|right].
  - split; [done|]. intros i Hi E. apply (Hn i); [lia|]. apply Ho; [lia|done].
  - apply Ho in Hp; [|lia]. apply lookup_lt_Some in Hp as Hlt. pose proof (content_len v Hv). unfold zlen in *.
    split; [lia|]. split; [done|]. intros i Hi E. apply (Hb i Hi). apply Ho; [lia|done].
Qed.

(** The rest of the format behind offset [k]. *)
Lemma cstring_suffix v k :
  cstring_view v -> 0 <= k <= StringView.len_ v ->
  remove_prefix v k = substr v k npos /\ cstring_view (substr v k npos) /\
  content (substr v k npos) = drop (Z.to_nat k) (content v) /\
  StringView.len_ (substr v k npos) = StringView.len_ v - k.
Proof.
  intros [Hv Hz] Hk. destruct (substr_wf v k npos Hv Hk) as [Hw Hc]; [done|]. destruct (Hv) as [? ? ? ?].
  assert (Z.min npos (u64 (StringView.len_ v - k)) = StringView.len_ v - k) as El.
  { rewrite u64_id by lia. unfold npos, npos64. lia. }
  unfold substr in *. rewrite El in *. split_and!; [|split; [done|]| |done].
  - unfold remove_prefix. by rewrite u64_id by lia.
  - unfold sv_at in *. cbn [StringView.data_ StringView.len_ block].
    by replace (StringView.data_ v + k + (StringView.len_ v - k)) with (StringView.data_ v + StringView.len_ v) by lia.
  - rewrite Hc. rewrite Z.min_r by (unfold npos, npos64; lia). symmetry. rewrite <- (content_len v Hv).
    apply drop_slice_eq. lia.
Qed.

Section fmt_proofs.
Context (SZ : Z) (HSZ : 0 < SZ < 2 ^ 32).

(** The stream holds [out] behind what it held. *)
Definition wrote (b : FixedBuffer) (out : list byte) (b' : FixedBuffer) : Prop :=
  fb_wf SZ b' /\ contents b' = contents b ++ out.

Lemma append_view_room b v :
  fb_wf SZ b -> view_wf v -> zlen (contents b) + zlen (content v) < SZ ->
  exists b', append_view SZ b v = Some b' /\ wrote b (content v) b'.
Proof.
  intros Hb Hv Hr. unfold append_view. rewrite ToString_content by done. cbn [mbind option_bind].
  destruct (FixedBuffer_Append_spec SZ HSZ b (content v)) as (b' & E & Hw & Hc & _); [done| |by exists b'].
  rewrite <- (contents_zlen SZ b Hb). lia.
Qed.

Lemma append_bytes_room b bs :
  fb_wf SZ b -> zlen (contents b) + zlen bs < SZ -> exists b', FixedBuffer.Append SZ b bs = Some b' /\ wrote b bs b'.
Proof.
  intros Hb Hr. destruct (FixedBuffer_Append_spec SZ HSZ b bs) as (b' & E & Hw & Hc & _); [done| |by exists b'].
  rewrite <- (contents_zlen SZ b Hb). lia.
Qed.

Lemma put_ok b it :
  fb_wf SZ b -> item_ok it -> zlen (contents b) + item_room it < SZ -> zlen (contents b) + zlen (item_text it) < SZ ->
  exists b', put SZ b it = Some b' /\ wrote b (item_text it) b'.
Proof using HSZ.
  intros Hb Hok Hr Ht. pose proof (put_spec SZ HSZ b it Hb Hok) as Hp. unfold spec_put in Hp.
  replace (item_room it <? SZ - zlen (contents b)) with true in Hp by lia.
  by replace (zlen (item_text it) <? SZ - zlen (contents b)) with true in Hp by lia.
Qed.

Lemma put_fits b it :
  fb_wf SZ b -> item_ok it -> zlen (contents b) + zlen (item_text it) + kMaxFloatingSize < SZ ->
  exists b', put SZ b it = Some b' /\ wrote b (item_text it) b'.
Proof using HSZ.
  intros Hb Hok Hr. pose proof (zlen_nonneg (item_text it)). unfold kMaxFloatingSize in *. apply put_ok; try done; [|lia].
  destruct it; cbn [item_room]; unfold kMaxIntSize, kMaxFloatingSize; try lia. case_bool; lia.
Qed.

(** What is left of a format behind its first percent sign, at offset [pos]. *)
Lemma split_suffix v pre post k :
  cstring_view v -> content v = pre ++ percent :: post -> k = zlen pre + 1 ->
  exists d, sv_at v k = Some d /\
    match post with [] => d = x00 | x :: _ => d = x end /\
    cstring_view (substr v k npos) /\ content (substr v k npos) = post /\
    StringView.len_ (substr v k npos) < StringView.len_ v /\
    (forall x post', post = x :: post' ->
      remove_prefix v (k + 1) = substr v (k + 1) npos /\
      cstring_view (substr v (k + 1) npos) /\ content (substr v (k + 1) npos) = post' /\
      StringView.len_ (substr v (k + 1) npos) < StringView.len_ v).
Proof using.
  clear SZ HSZ. intros Hv Hc ->. destruct (Hv) as [Hwf Hz]. pose proof (content_len v Hwf) as Hl.
  rewrite Hc, zlen_app, zlen_cons in Hl. pose proof (zlen_nonneg pre). pose proof (zlen_nonneg post).
  destruct (cstring_suffix v (zlen pre + 1) Hv) as (_ & Hs & Hsc & Hsl); [lia|].
  assert (drop (Z.to_nat (zlen pre + 1)) (content v) = post) as Hd.
  { rewrite Hc. replace (Z.to_nat (zlen pre + 1)) with (length (pre ++ [percent])) by (rewrite length_app; unfold zlen; cbn; lia).
    change (percent :: post) with ([percent] ++ post). by rewrite app_assoc, drop_app_length. }
  rewrite Hd in Hsc. destruct post as [|x post].
  - exists x00. rewrite zlen_nil in Hl. replace (zlen pre + 1) with (StringView.len_ v) in * by lia.
    split_and!; try done; lia.
  - rewrite zlen_cons in *. pose proof (zlen_nonneg post). exists x. split_and!; try done; [|lia|].
    + rewrite sv_at_content by (done || lia). rewrite <- (Nat.add_0_r (Z.to_nat _)), <- lookup_drop, Hd. done.
    + intros y post' [= <- <-]. destruct (cstring_suffix v (zlen pre + 1 + 1) Hv) as (? & ? & Hc2 & ?); [lia|].
      split_and!; try done; [|lia]. rewrite Hc2. replace (Z.to_nat (zlen pre + 1 + 1)) with (Z.to_nat (zlen pre + 1) + 1)%nat by lia.
      by rewrite <- drop_drop, Hd.
Qed.

(** The text in front of the percent sign. *)
Lemma split_at_prefix v pre post n :
  cstring_view v -> content v = pre ++ percent :: post -> n <= zlen pre + 1 -> 0 <= n ->
  view_wf (mkView (block v) (StringView.data_ v) n) /\
  content (mkView (block v) (StringView.data_ v) n) = take (Z.to_nat n) (pre ++ [percent]).
Proof using.
  clear SZ HSZ. intros [Hv _] Hc Hn H0. pose proof (content_len v Hv) as Hl. destruct (Hv) as [? ? ? ?].
  rewrite Hc, zlen_app, zlen_cons in Hl. pose proof (zlen_nonneg post). split; [split; cbn; lia|].
  assert (content (mkView (block v) (StringView.data_ v) n) = take (Z.to_nat n) (content v)) as ->.
  { unfold content, slice. cbn [block StringView.data_ StringView.len_]. rewrite take_take. f_equal. lia. }
  rewrite Hc. change (percent :: post) with ([percent] ++ post). rewrite app_assoc.
  rewrite take_app_le; [done|]. rewrite length_app. unfold zlen in *. cbn. lia.
Qed.

Lemma wrote_trans b o1 b1 o2 b2 : wrote b o1 b1 -> wrote b1 o2 b2 -> wrote b (o1 ++ o2) b2.
Proof using. clear HSZ. intros [_ E1] [H2 E2]. split; [done|]. by rewrite E2, E1, <- app_assoc. Qed.

Lemma ParseAndSerialize0_spec fuel b fmt out :
  fb_wf SZ b -> cstring_view fmt -> StringView.len_ fmt < Z.of_nat fuel ->
  fmt_spec (content fmt) [] = Some out -> zlen (contents b) + zlen out < SZ ->
  exists b', ParseAndSerialize0 SZ fuel b fmt = Some b' /\ wrote b out b'.
Proof using HSZ.
  revert b fmt out. induction fuel as [|k IH]; intros b fmt out Hb Hf Hfuel Hs Hr.
  { destruct Hf as [[? ? ? ?] _]. lia. }
  cbn [ParseAndSerialize0]. pose proof (proj1 Hf) as Hwf.
  destruct (find_char_split fmt percent Hwf) as (pos & -> & Hp). cbn [mbind option_bind].
  destruct Hp as [[-> Hn]|(Hpos & pre & post & Hc & Hlen & Hn)].
  - rewrite fmt_spec_no_percent in Hs by done. injection Hs as <-.
    replace (npos <? sv_size fmt) with false; [by apply append_view_room|].
    destruct Hwf. unfold sv_size, npos, npos64. lia.
  - unfold sv_size. replace (pos <? StringView.len_ fmt) with true by lia.
    destruct (split_suffix fmt pre post (pos + 1) Hf Hc) as (d & Hd & Hdp & _ & _ & _ & Hsuf); [lia|].
    rewrite Hc, fmt_spec_text in Hs by done. cbn [fmt_spec] in Hs. rewrite decide_True in Hs by done.
    destruct post as [|x post]; [done|]. subst d.
    destruct (decide (x = percent)) as [->|]; [|done].
    pose proof (content_len fmt Hwf) as Hl. rewrite Hc, zlen_app, !zlen_cons in Hl. pose proof (zlen_nonneg post).
    rewrite check_bind_true by (apply negb_true_iff, Z.eqb_neq; lia). rewrite Hd. cbn [mbind option_bind].
    rewrite check_bind_true by (by apply bool_decide_eq_true).
    destruct (fmt_spec post []) as [o|] eqn:Eo; [|done]. cbn in Hs. injection Hs as <-.
    replace (pre ++ percent :: o) with ((pre ++ [percent]) ++ o) in * by (by rewrite <- app_assoc).
    rewrite zlen_app in Hr. pose proof (zlen_nonneg o).
    assert (substr fmt 0 (pos + 1) = mkView (block fmt) (StringView.data_ fmt) (pos + 1)) as ->.
    { unfold substr. destruct Hwf. rewrite u64_id by lia. f_equal; lia. }
    destruct (split_at_prefix fmt pre _ (pos + 1) Hf Hc) as [Hpw Hpc]; [lia|lia|].
    rewrite take_ge in Hpc by (rewrite length_app; unfold zlen in *; cbn; lia).
    destruct (append_view_room b _ Hb Hpw) as (b1 & -> & Hw1); [rewrite Hpc; lia|]. cbn [mbind option_bind].
    rewrite Hpc in Hw1. replace (pos + 2) with (pos + 1 + 1) by lia. destruct (Hsuf _ _ eq_refl) as (-> & Hf' & Hc' & Hl').
    destruct (IH b1 (substr fmt (pos + 1 + 1) npos) o) as (b2 & E & Hw2);
      [apply Hw1|done|lia|by rewrite Hc'|destruct Hw1 as [_ ->]; rewrite zlen_app; lia|].
    exists b2. split; [done|]. by eapply wrote_trans.
Qed.

Lemma ParseAndSerialize_spec fuel b fmt args out :
  fb_wf SZ b -> cstring_view fmt -> StringView.len_ fmt < Z.of_nat fuel -> Forall item_ok args ->
  fmt_spec (content fmt) args = Some out -> zlen (contents b) + zlen out + kMaxFloatingSize < SZ ->
  exists b', ParseAndSerialize SZ fuel b fmt args = Some b' /\ wrote b out b'.
Proof using HSZ.
  revert b fmt args out. induction fuel as [|k IH]; intros b fmt args out Hb Hf Hfuel Hok Hs Hr.
  { destruct Hf as [[? ? ? ?] _]. lia. }
  unfold kMaxFloatingSize in *. destruct args as [|arg rest]; [apply ParseAndSerialize0_spec; (done || lia)|].
  cbn [ParseAndSerialize]. pose proof (proj1 Hf) as Hwf.
  destruct (find_percent fmt Hwf) as (pos & -> & Hp). cbn [mbind option_bind].
  destruct Hp as [[-> Hn]|(Hpos & pre & post & Hc & Hlen & Hn)]; [by rewrite fmt_spec_no_percent in Hs|].
  pose proof (content_len fmt Hwf) as Hl. rewrite Hc, zlen_app, zlen_cons in Hl. pose proof (zlen_nonneg post).
  replace (pos =? npos) with false by (destruct Hwf; unfold npos, npos64; lia).
  unfold sv_size. replace (pos <? StringView.len_ fmt) with true by lia.
  rewrite Hc, fmt_spec_text in Hs by done. destruct (fmt_spec (percent :: post) (arg :: rest)) as [o|] eqn:Eo; [|done].
  cbn in Hs. injection Hs as <-. rewrite zlen_app in Hr. pose proof (zlen_nonneg o).
  destruct (split_at_prefix fmt pre _ pos Hf Hc) as [Hpw Hpc]; [lia|lia|].
  rewrite take_app_le, take_ge in Hpc by (unfold zlen in *; lia).
  destruct (append_view_room b _ Hb Hpw) as (b1 & -> & Hw1); [rewrite Hpc; lia|]. cbn [mbind option_bind]. rewrite Hpc in Hw1.
  destruct (split_suffix fmt pre post (pos + 1) Hf Hc) as (d & -> & Hdp & Hf1 & Hc1 & Hl1 & Hsuf); [lia|]. cbn [mbind option_bind].
  assert (zlen (contents b1) = zlen (contents b) + zlen pre) as Hb1 by (destruct Hw1 as [_ ->]; by rewrite zlen_app).
  cbn [fmt_spec] in Eo. rewrite decide_True in Eo by done.
  destruct (decide (d = percent)) as [->|Hd].
  - destruct post as [|x post]; [done|]. subst x. rewrite decide_True in Eo by done. rewrite bool_decide_true by done.
    destruct (fmt_spec post (arg :: rest)) as [o'|] eqn:Eo'; [|done]. cbn in Eo. injection Eo as <-. rewrite zlen_cons in *.
    destruct (append_bytes_room b1 (str "%") (proj1 Hw1)) as (b2 & -> & Hw2); [change (zlen (str "%")) with 1; lia|].
    cbn [mbind option_bind]. replace (pos + 2) with (pos + 1 + 1) by lia. destruct (Hsuf _ _ eq_refl) as (_ & Hf' & Hc' & Hl').
    destruct (IH b2 (substr fmt (pos + 1 + 1) npos) (arg :: rest) o') as (b3 & E & Hw3);
      [apply Hw2|done|lia|done|by rewrite Hc'|destruct Hw2 as [_ ->]; rewrite zlen_app; change (zlen (str "%")) with 1; lia|].
    exists b3. split; [done|]. eapply wrote_trans; [done|]. change (percent :: o') with (str "%" ++ o'). by eapply wrote_trans.
  - rewrite bool_decide_false by done. assert (exists o', fmt_spec post rest = Some o' /\ o = item_text arg ++ o') as (o' & Eo' & ->).
    { destruct post as [|x post]; [|subst x; rewrite decide_False in Eo by done];
        (destruct (fmt_spec _ rest) as [o'|]; [|done]); cbn in Eo; injection Eo as <-; eauto. }
    apply Forall_cons in Hok as [Hok1 Hok2]. rewrite zlen_app in *. pose proof (zlen_nonneg o'). pose proof (zlen_nonneg (item_text arg)).
    destruct (put_fits b1 arg (proj1 Hw1) Hok1) as (b2 & -> & Hw2); [unfold kMaxFloatingSize; lia|].
    cbn [mbind option_bind].
    destruct (IH b2 (substr fmt (pos + 1) npos) rest o') as (b3 & E & Hw3);
      [apply Hw2|done|lia|done|by rewrite Hc1|destruct Hw2 as [_ ->]; rewrite zlen_app; lia|].
    exists b3. split; [done|]. eapply wrote_trans; [done|]. by eapply wrote_trans.
Qed.

Lemma ParseAndSerialize0_none fuel b fmt :
  cstring_view fmt -> fmt_spec (content fmt) [] = None -> ParseAndSerialize0 SZ fuel b fmt = None.
Proof using.
  clear HSZ. revert b fmt. induction fuel as [|k IH]; intros b fmt Hf Hs; [done|].
  cbn [ParseAndSerialize0]. pose proof (proj1 Hf) as Hwf.
  destruct (find_char_split fmt percent Hwf) as (pos & -> & Hp). cbn [mbind option_bind].
  destruct Hp as [[-> Hn]|(Hpos & pre & post & Hc & Hlen & Hn)]; [by rewrite fmt_spec_no_percent in Hs|].
  unfold sv_size. replace (pos <? StringView.len_ fmt) with true by lia.
  destruct (split_suffix fmt pre post (pos + 1) Hf Hc) as (d & -> & Hdp & _ & _ & _ & Hsuf); [lia|].
  rewrite Hc, fmt_spec_text in Hs by done. cbn [fmt_spec] in Hs. rewrite decide_True in Hs by done.
  destruct (check _); [|done]. cbn [mbind option_bind].
  destruct post as [|x post]; subst d; [done|]. case_bool_decide; [|done]. subst x. cbn [check mbind option_bind].
  rewrite decide_True in Hs by done. destruct (append_view SZ b _) as [b1|]; [|done]. cbn [mbind option_bind].
  replace (pos + 2) with (pos + 1 + 1) by lia. destruct (Hsuf _ _ eq_refl) as (-> & Hf' & Hc' & _).
  apply IH; [done|]. rewrite Hc'. by destruct (fmt_spec post []).
Qed.

Lemma ParseAndSerialize_none fuel b fmt args :
  cstring_view fmt -> fmt_spec (content fmt) args = None -> ParseAndSerialize SZ fuel b fmt args = None.
Proof using.
  clear HSZ. revert b fmt args. induction fuel as [|k IH]; intros b fmt args Hf Hs;
    (destruct args as [|arg rest]; [by apply ParseAndSerialize0_none|]); [done|].
  cbn [ParseAndSerialize]. pose proof (proj1 Hf) as Hwf.
  destruct (find_percent fmt Hwf) as (pos & -> & Hp). cbn [mbind option_bind].
  destruct (append_view SZ b _) as [b1|]; [|done]. cbn [mbind option_bind]. unfold sv_size.
  destruct Hp as [[-> Hn]|(Hpos & pre & post & Hc & Hlen & Hn)].
  { replace (npos <? StringView.len_ fmt) with false; [done|]. destruct Hwf. unfold npos, npos64. lia. }
  replace (pos <? StringView.len_ fmt) with true by lia.
  rewrite Hc, fmt_spec_text in Hs by done. destruct (fmt_spec (percent :: post) (arg :: rest)) as [o|] eqn:Eo; [done|].
  destruct (split_suffix fmt pre post (pos + 1) Hf Hc) as (d & -> & Hdp & Hf1 & Hc1 & Hl1 & Hsuf); [lia|]. cbn [mbind option_bind].
  cbn [fmt_spec] in Eo. rewrite decide_True in Eo by done. case_bool_decide as Hd.
  - destruct post as [|x post]; subst; [done|]. rewrite decide_True in Eo by done.
    destruct (FixedBuffer.Append SZ b1 _) as [b2|]; [|done]. cbn [mbind option_bind].
    replace (zlen pre + 2) with (zlen pre + 1 + 1) by lia. destruct (Hsuf _ _ eq_refl) as (_ & Hf' & Hc' & _).
    apply IH; [done|]. rewrite Hc'. by destruct (fmt_spec post (arg :: rest)).
  - destruct (put SZ b1 arg) as [b2|]; [|done]. cbn [mbind option_bind]. apply IH; [done|]. rewrite Hc1.
    destruct post as [|x post]; [|rewrite decide_False in Eo by (by subst)]; by destruct (fmt_spec _ rest).
Qed.

End fmt_proofs.

(** ** Properties *)

(** A format is written to a stream with room for the result as the format
    says: its text with [%%] as a percent sign and every other [%] as the text
    of the next argument; and the assertions of the stream fail exactly when
    the number of placeholders is not the number of arguments. *)
Theorem fmt_stream_formats (SZ : Z) (b : FixedBuffer) (fmt : StringView) (args : list item) :
  0 < SZ < 2 ^ 32 -> fb_wf SZ b -> cstring_view fmt -> Forall item_ok args ->
  match fmt_spec (content fmt) args with
  | Some out =>
    zlen (contents b) + zlen out + kMaxFloatingSize < SZ ->
    exists b', Serialize SZ b fmt args = Some b' /\ fb_wf SZ b' /\ ToStringView b' = Some (contents b ++ out)
  | None => Serialize SZ b fmt args = None
  end.
Proof.
  intros HSZ Hb Hf Hok. unfold Serialize, sv_size. destruct (fmt_spec (content fmt) args) as [out|] eqn:E.
  - intros Hr. destruct (ParseAndSerialize_spec SZ HSZ (S (Z.to_nat (StringView.len_ fmt))) b fmt args out)
      as (b' & -> & Hw & Hc); [done|done|destruct (proj1 Hf); lia|done|done|done|].
    exists b'. split; [done|]. split; [done|]. by rewrite (ToStringView_eq SZ), Hc.
  - by apply ParseAndSerialize_none.
Qed.

(** ["port % of %%: %"] and its terminator. *)
Definition demo_format : StringView := mkView (str "port % of %%: %" ++ [x00]) 0 15.

Lemma fmt_stream_formats_witness :
  0 < 4096 < 2 ^ 32 /\ fb_wf 4096 (mkFixedBuffer (repeat x00 4096) 0) /\ cstring_view demo_format /\
  exists b', Serialize 4096 (mkFixedBuffer (repeat x00 4096) 0) demo_format [IInt 80; IBool true] = Some b' /\
    fb_wf 4096 b' /\ ToStringView b' = Some (str "port 80 of %: True").
Proof.
  assert (fb_wf 4096 (mkFixedBuffer (repeat x00 4096) 0)) as H1 by (split; [done|cbn; lia]).
  assert (cstring_view demo_format) as H2 by (split; [by apply (bool_decide_unpack _)|reflexivity]).
  split; [lia|]. split; [done|]. split; [done|].
  apply (fmt_stream_formats 4096 (mkFixedBuffer (repeat x00 4096) 0) demo_format [IInt 80; IBool true]); try done.
  - repeat constructor; cbn; lia.
Defined.

(** C37 Every integer, cast to text and back to its type, is the same integer:
    for each of the ten integer types lexical_cast supports and each of its
    values. *)
Theorem lexical_cast_roundtrip (s : cast_stream) (ty : int_type) (n : Z) :
  fb_wf kCastStreamSize s -> int_type_ok ty -> in_range_of ty n ->
  exists txt s', lexical_cast_string s (IInt n) = Some (txt, s') /\ fb_wf kCastStreamSize s' /\
    lexical_cast_int ty txt = Some n.
Proof.
  intros Hs Hty Hn. pose proof (in_range_64 ty n Hty Hn) as Hb.
  assert (- 2 ^ 63 <= n < 2 ^ 64) as Hn64 by (destruct (signed ty); lia).
  destruct (int2Str_spec n Hn64) as (txt & Et & Hr & Hlen). unfold kMaxIntSize in Hlen. pose proof (zlen_nonneg txt).
  assert (0 < kCastStreamSize < 2 ^ 32) as HSZ by (unfold kCastStreamSize; lia).
  assert (fb_wf kCastStreamSize (FixedBuffer.reset s)) as Hs0 by (destruct Hs as [? ?]; split; [done|cbn; unfold kCastStreamSize; lia]).
  change kCastStreamSize with 64 in *.
  destruct (put_ok 64 HSZ (FixedBuffer.reset s) (IInt n) Hs0 Hn64) as (s1 & E1 & Hw1 & Hc1);
    [done|cbn [item_text]; rewrite Et; change (zlen (contents (FixedBuffer.reset s))) with 0; cbn [default id]; lia|].
  cbn [item_text] in Hc1. rewrite Et in Hc1. cbn [default id] in Hc1. change (contents (FixedBuffer.reset s) ++ txt) with txt in Hc1.
  destruct (put_ok 64 HSZ s1 (IChar x00) Hw1 I) as (s2 & E2 & Hw2 & Hc2);
    [rewrite Hc1; cbn [item_room item_text]; change (zlen [x00]) with 1; lia..|]. cbn [item_text] in Hc2. rewrite Hc1 in Hc2.
  pose proof (contents_zlen _ _ Hw2) as Hl2. rewrite Hc2, zlen_app in Hl2.
  change (zlen [x00]) with 1 in Hl2. unfold lexical_cast_string, cast_put.
  change kCastStreamSize with 64. rewrite E1. cbn [mbind option_bind].
  rewrite E2. cbn [mbind option_bind]. rewrite u32_id by lia. replace (FixedBuffer.len_ s2 - 1) with (zlen txt) by lia.
  rewrite mem_read_ok by (destruct Hw2; lia). cbn [mbind option_bind].
  assert (slice 0 (zlen txt) (FixedBuffer.data_ s2) = txt) as ->.
  { unfold contents in Hc2. rewrite <- Hl2 in Hc2. unfold slice, zlen in *. cbn [Z.to_nat drop] in *.
    rewrite <- Nat2Z.inj_add with (m := 1%nat), Nat2Z.id in Hc2. rewrite Nat2Z.id. apply (f_equal (take (length txt))) in Hc2.
    rewrite take_take, take_app_length in Hc2. by replace (length txt `min` (length txt + 1))%nat with (length txt) in Hc2 by lia. }
  exists txt, s2. split; [done|]. split; [done|]. apply lexical_cast_int_spec; (done || lia).
Qed.

Lemma lexical_cast_roundtrip_witness :
  fb_wf kCastStreamSize (mkFixedBuffer (repeat x00 64) 0) /\ in_range_of (mkIntType 64 true) (- 2 ^ 63) /\
  exists txt s', lexical_cast_string (mkFixedBuffer (repeat x00 64) 0) (IInt (- 2 ^ 63)) = Some (txt, s') /\
    fb_wf kCastStreamSize s' /\ lexical_cast_int (mkIntType 64 true) txt = Some (- 2 ^ 63).
Proof.
  assert (fb_wf kCastStreamSize (mkFixedBuffer (repeat x00 64) 0)) as H1 by (split; [done|unfold kCastStreamSize; cbn; lia]).
  assert (in_range_of (mkIntType 64 true) (- 2 ^ 63)) as H2 by (cbn; lia).
  split; [done|]. split; [done|]. apply lexical_cast_roundtrip; [done| |done]. by apply (bool_decide_unpack _).
Defined.

(** [StrAppend] appends its arguments in order, whatever their number. *)
Lemma StrAppend_concat s bss :
  bss <> [] -> zlen s + zlen (concat bss) < 2 ^ 64 -> StrAppend s (map ABytes bss) = Some (s ++ concat bss).
Proof.
  intros Hne Hb. unfold StrAppend. rewrite StrAppend_impl_spec by (done || lia). cbn. by rewrite Z.sub_diag.
Qed.

(** ** Defects *)

(** Casts do not check the range of the type, and take the empty text for 0. *)
Lemma lexical_cast_unchecked :
  lexical_cast_int (mkIntType 8 true) (str "300") = Some 44 /\ lexical_cast_int (mkIntType 32 false) (str "-1") = Some (2 ^ 32 - 1) /\
  lexical_cast_int (mkIntType 32 true) [] = Some 0.
Proof. by vm_compute. Qed.

(** A view a cast returned shows the text of the next cast. *)
Lemma cast_view_overwritten :
  exists v1 s1 v2 s2, lexical_cast_view (mkFixedBuffer (repeat x00 64) 0) (IInt 12345) = Some (v1, s1) /\
    view_text s1 v1 = Some (str "12345") /\ lexical_cast_view s1 (IInt 678) = Some (v2, s2) /\
    view_text s2 v1 = Some (str "678" ++ [x00] ++ [x00]).
Proof. eexists _, _, _, _. split; [vm_compute; reflexivity|]. split; [reflexivity|]. split; vm_compute; reflexivity. Qed.

(** A text that fills the stream loses its last byte: there is no room for the
    terminator the cast takes off again. *)
Lemma cast_string_loses_last :
  exists s, lexical_cast_string (mkFixedBuffer (repeat x00 64) 0) (IString (repeat "a"%byte 63)) = Some (repeat "a"%byte 62, s).
Proof. eexists. vm_compute. reflexivity. Qed.

(** The conversions to 16 and 8 bits fail an assertion where the text is not a
    number, and cut numbers that are too large; text behind a number is ignored. *)
Lemma view_to_u16_unchecked :
  StringViewToU16 (view_of (str "http")) = None /\ StringViewToU16 (view_of (str "70000")) = Some (Some 4464) /\
  StringViewTo32 (view_of (str "12abc")) = Some (Some 12).
Proof. by vm_compute. Qed.

(** Appending a string to itself appends NUL bytes. *)
Lemma str_append_self : StrAppend (str "ab") [ASelf] = Some (str "ab" ++ [x00; x00]).
Proof. by vm_compute. Qed.
