(* ===== verification/InetAddr.v ===== *)
(** * Addresses: kanon/net/inet_addr.{h,cc}, and the address functions of
      kanon/net/sock_api.{h,cc}

    Socket addresses, their text and back.  The presentation of the numeric
    address is [inet_ntop] and [inet_pton], name resolution is [getaddrinfo]:
    an interface with the laws their manual pages state.  A failed assertion, a
    fatal log and an access outside of a string are [None]; the exception of a
    constructor is [inl]. *)

From Stdlib Require Import ZArith Lia.
From stdpp Require Import sets.
From S2P Require Import Prelude Endian StringView FixedBuffer Convert.

(** ** Addresses *)

Inductive Family := AF_INET | AF_INET6.
#[export] Instance Family_eq_dec : EqDecision Family.
Proof. solve_decision. Defined.

(** The union of [sockaddr_in] and [sockaddr_in6]; the port is in network byte
    order, the address the bytes on the wire.  [sin6_scope_id] is [None] where
    nothing was stored. *)
Record InetAddr := mkInetAddr {
  sin_family : Family;
  sin_port : Z;
  sin_addr : list byte;
  sin6_scope_id : option Z
}.

Definition addr_bytes (f : Family) : nat := match f with AF_INET => 4 | AF_INET6 => 16 end.

Definition addr_wf (a : InetAddr) : Prop :=
  0 <= sin_port a < 2 ^ 16 /\ length (sin_addr a) = addr_bytes (sin_family a).

Definition IsIpv4 (a : InetAddr) : bool := bool_decide (sin_family a = AF_INET).
Definition GetFamily (a : InetAddr) : Family := sin_family a.
Definition GetPort (a : InetAddr) : Z := ToHostByteOrder16 (sin_port a).

Definition ToIpv4 (a : InetAddr) : option InetAddr := assert! IsIpv4 a; Some a.
Definition ToIpv6 (a : InetAddr) : option InetAddr := assert! negb (IsIpv4 a); Some a.

Definition INADDR_LOOPBACK : Z := 2130706433. (* 127.0.0.1 *)
Definition INADDR_ANY : Z := 0.
Definition in6addr_any : list byte := repeat x00 16.
Definition in6addr_loopback : list byte := repeat x00 15 ++ [x01].

(** [InetAddr(port, loopback, v6)] *)
Definition InetAddr_port (port : Z) (loopback v6 : bool) : InetAddr :=
  if v6 then
    mkInetAddr AF_INET6 (ToNetworkByteOrder16 port) (if loopback then in6addr_loopback else in6addr_any) None
  else
    mkInetAddr AF_INET (ToNetworkByteOrder16 port)
      (le_bytes 4 (ToNetworkByteOrder32 (if loopback then INADDR_LOOPBACK else INADDR_ANY))) None.

(** ** The system's conversions *)

Class AddrText := {
  inet_ntop : Family -> list byte -> list byte;
  inet_pton : Family -> list byte -> option (list byte);
  (** host, service and whether the addresses are for binding *)
  getaddrinfo : list byte -> list byte -> bool -> option (list InetAddr)
}.

Definition dot : byte := "."%byte.
Definition colon : byte := ":"%byte.
Definition lbracket : byte := "["%byte.
Definition rbracket : byte := "]"%byte.
Definition star : byte := "*"%byte.

Definition isdigit (c : byte) : bool := bool_decide (is_Some (digit_value c)).
Definition isalpha (c : byte) : bool :=
  let z := byte_to_Z c in (65 <=? z) && (z <=? 90) || (97 <=? z) && (z <=? 122).
Definition isalnum (c : byte) : bool := isalpha c || isdigit c.

(** inet_ntop(3), inet_pton(3): dotted decimal for IPv4, colons and hexadecimal
    digits for IPv6, at most INET_ADDRSTRLEN and INET6_ADDRSTRLEN bytes with the
    terminator; [inet_pton] reads what [inet_ntop] writes. *)
Class AddrTextLaws `{!AddrText} : Prop := {
  ntop_pton f a : length a = addr_bytes f -> inet_pton f (inet_ntop f a) = Some a;
  ntop4_chars a : length a = addr_bytes AF_INET ->
    (exists c t, inet_ntop AF_INET a = c :: t /\ isdigit c = true) /\ (dot ∈ inet_ntop AF_INET a) /\
    Forall (fun c => isdigit c = true \/ c = dot) (inet_ntop AF_INET a) /\ zlen (inet_ntop AF_INET a) < 16;
  ntop6_chars a : length a = addr_bytes AF_INET6 ->
    (rbracket ∉ inet_ntop AF_INET6 a) /\ (x00 ∉ inet_ntop AF_INET6 a) /\ zlen (inet_ntop AF_INET6 a) < 46
}.

Section text.
Context `{!AddrText}.

(** [sock::ToIp]: the assertions are on the size of the buffer. *)
Definition sock_ToIp (size : Z) (a : InetAddr) : option (list byte) :=
  let txt := inet_ntop (sin_family a) (sin_addr a) in
  match sin_family a with
  | AF_INET => assert! 16 <=? size; assert! zlen txt <? size; Some txt
  | AF_INET6 => assert! 46 <=? size; assert! zlen txt <? size; Some txt
  end.

(** [snprintf(buf, size, ":%hu", port)] *)
Definition port_text (size port : Z) : option (list byte) :=
  txt ← int2Str port; Some (take (Z.to_nat (size - 1)) (colon :: txt)).

Definition sock_ToIpPort (size : Z) (a : InetAddr) : option (list byte) :=
  match sin_family a with
  | AF_INET6 =>
    ip ← sock_ToIp (size - 1) a;
    assert! zlen ip + 1 <? size;
    p ← port_text (size - 1 - (zlen ip + 1)) (ToHostByteOrder16 (sin_port a));
    Some ([lbracket] ++ ip ++ [rbracket] ++ p)
  | AF_INET =>
    ip ← sock_ToIp size a;
    p ← port_text (size - zlen ip) (ToHostByteOrder16 (sin_port a));
    Some (ip ++ p)
  end.

(** [char buf[64]] *)
Definition ToIpPort (a : InetAddr) : option (list byte) := sock_ToIpPort 64 a.
Definition ToIp (a : InetAddr) : option (list byte) := sock_ToIp 64 a.

(** [sock::FromIpPort]; the rest of the address keeps what it held. *)
Definition FromIpPort (f : Family) (ip : list byte) (port : Z) : option InetAddr :=
  bytes ← inet_pton f (cstr ip);
  Some (mkInetAddr f (ToNetworkByteOrder16 port) bytes None).

Definition exn := list byte.

(** [Resolve]: what is neither IPv4 nor IPv6 is left out; on an error it is
    logged and nothing is returned. *)
Definition Resolve (hostname service : list byte) (is_server : bool) : list InetAddr :=
  match getaddrinfo (cstr hostname) (cstr service) is_server with Some addrs => addrs | None => [] end.

(** [InetAddr(hostname, service)] *)
Definition InetAddr_resolve (hostname service : list byte) : exn + InetAddr :=
  match Resolve hostname service false with
  | [] => inl (str "There is no matched hostname or service")
  | a :: _ => inr a
  end.

Definition invalid_address : exn := str "This a invalid address".

(** [isalpha] and [isalnum] of a negative [char] are undefined. *)
Definition ctype (p : byte -> bool) (c : byte) : option bool :=
  assert! byte_to_Z c <? 128; Some (p c).

(** [InetAddr(StringView addr)] *)
Definition InetAddr_parse (addr : StringView) : option (exn + InetAddr) :=
  a0 ← sv_at addr 0;
  alpha ← ctype isalpha a0;
  if (alpha : bool) then
    colon_pos ← find_char addr colon 0;
    if negb (colon_pos =? npos) then
      hostname ← ToString (substr addr 0 colon_pos);
      service ← ToString (substr addr (colon_pos + 1) npos);
      Some (InetAddr_resolve hostname service)
    else Some (inl invalid_address)
  else
    alnum ← ctype isalnum a0;
    dot_pos ← (if (alnum : bool) then find_char addr dot 0 else Some npos);
    if (alnum && negb (dot_pos =? npos)) || bool_decide (a0 = star) then
      colon_pos ← find_char addr colon 0;
      if negb (colon_pos =? npos) then
        ip ← ToString (substr addr 0 colon_pos);
        let ip := if bool_decide (ip = [star]) then str "0.0.0.0" else ip in
        port ← ToString (substr addr (colon_pos + 1) npos);
        o_port ← StringViewToU16 (view_of port);
        match o_port with
        | Some p => a ← FromIpPort AF_INET ip p; Some (inr a)
        | None => Some (inl invalid_address)
        end
      else Some (inl invalid_address)
    else if bool_decide (a0 = lbracket) then
      right_pos ← find_char addr rbracket 0;
      if negb (right_pos =? npos) then
        ip ← ToString (substr_range addr 1 right_pos);
        port ← ToString (substr addr (right_pos + 2) npos);
        o_port ← StringViewToU16 (view_of port);
        match o_port with
        | Some p => a ← FromIpPort AF_INET6 ip p; Some (inr a)
        | None => Some (inl invalid_address)
        end
      else Some (inl invalid_address)
    else Some (inl invalid_address).

(** [InetAddr(ip, port)]: the view's length is not used for the conversion; the
    exception thrown is the one the constructor called in the [throw] throws. *)
Definition InetAddr_ip (ip : StringView) (port : Z) : option (exn + InetAddr) :=
  d ← find_char ip dot 0;
  if negb (d =? npos) then a ← FromIpPort AF_INET (ptr ip 0) port; Some (inr a)
  else
    c ← find_char ip colon 0;
    if negb (c =? npos) then a ← FromIpPort AF_INET6 (ptr ip 0) port; Some (inr a)
    else
      r ← InetAddr_parse (mkView (str "This is invalid ip argument" ++ [x00]) 0 27);
      match r with inl e => Some (inl e) | inr _ => None end.
End text.

(** [sock::IsSelfConnect]; [None] for an address the socket does not have; both
    addresses have the family of the socket. *)
Definition IsSelfConnect (local peer : option InetAddr) : bool :=
  match local, peer with
  | Some l, Some p => (sin_port l =? sin_port p) && bool_decide (sin_addr l = sin_addr p)
  | _, _ => false
  end.

(** ** Lemmas *)

Lemma splits_at_unique c v r pre post :
  view_wf v -> content v = pre ++ c :: post -> c ∉ pre -> splits_at c v r -> r = zlen pre.
Proof.
  intros Hv Hc Hn [[_ Hni]|(_ & pre' & post' & Hc' & <- & Hn')]; [rewrite Hc in Hni; set_solver|].
  rewrite Hc in Hc'. clear -Hc' Hn Hn'. revert pre' Hc' Hn'. induction pre as [|x pre IH]; intros [|y pre'] E Hn'; cbn in E; [done|..].
  - injection E as -> _. set_solver.
  - injection E as -> _. set_solver.
  - injection E as -> E. rewrite !zlen_cons. f_equal. apply IH; set_solver.
Qed.

Lemma found_not_npos c v r : view_wf v -> c ∈ content v -> splits_at c v r -> (r =? npos) = false.
Proof. intros Hv Hin [[_ ?]|[Hr _]]; [done|]. destruct Hv. apply Z.eqb_neq. unfold npos, npos64. lia. Qed.

(** The parts of a string, read back through views of it. *)
Lemma view_part txt pre mid post :
  zlen txt < 2 ^ 63 -> txt = pre ++ mid ++ post ->
  ToString (substr (view_of txt) (zlen pre) (zlen mid)) = Some mid.
Proof.
  intros Hb ->. pose proof (zlen_nonneg pre). pose proof (zlen_nonneg mid). pose proof (zlen_nonneg post).
  rewrite !zlen_app in Hb. set (txt := pre ++ mid ++ post).
  assert (zlen txt = zlen pre + (zlen mid + zlen post)) as Hl by (unfold txt; by rewrite !zlen_app).
  destruct (substr_wf (view_of txt) (zlen pre) (zlen mid)) as [Hw Hc];
    [apply view_of_wf; lia|cbn [view_of StringView.len_]; lia|lia|].
  rewrite ToString_content, Hc, content_view_of by done. cbn [view_of StringView.len_]. rewrite Z.min_l by lia.
  f_equal. unfold slice, txt. unfold zlen. rewrite !Nat2Z.id, drop_app_length, take_app_length. done.
Qed.

Lemma view_tail txt pre post :
  zlen txt < 2 ^ 63 -> txt = pre ++ post -> ToString (substr (view_of txt) (zlen pre) npos) = Some post.
Proof.
  intros Hb E. pose proof (zlen_nonneg pre). pose proof (zlen_nonneg post).
  assert (substr (view_of txt) (zlen pre) npos = substr (view_of txt) (zlen pre) (zlen post)) as ->.
  { unfold substr. cbn [view_of StringView.len_]. f_equal. rewrite E, zlen_app in *. rewrite u64_id by lia.
    unfold npos, npos64. lia. }
  apply (view_part txt pre post []); [done|by rewrite app_nil_r].
Qed.

Lemma view_to_u16_decimal txt p :
  read_decimal txt = Some p -> 0 <= p < 2 ^ 16 -> zlen txt < 32 -> StringViewToU16 (view_of txt) = Some (Some p).
Proof.
  intros Hr Hp Hl. unfold StringViewToU16, StringViewToU32, view_to_int, sv_size. cbn [view_of StringView.len_].
  rewrite check_bind_true by (apply Z.ltb_lt; lia). change (mkView txt 0 (zlen txt)) with (view_of txt).
  rewrite ToString_content, content_view_of by (apply view_of_wf; lia). cbn [mbind option_bind].
  destruct (read_decimal_parse txt p Hr) as (-> & neg & v & Hpn & Hv). unfold strtoul. rewrite Hpn, Hv.
  assert (zlen txt <> 0) by (intros ->%zlen_0_inv; done).
  replace (2 ^ 64 <=? v) with false by (destruct neg; lia). rewrite u64_id by lia.
  assert (cast_to (mkIntType 32 false) p = p) as -> by (apply wrap_id; cbn [width]; lia).
  change (zlen (@nil byte)) with 0. replace (0 =? zlen txt) with false by lia. rewrite andb_false_r.
  cbn [mbind option_bind optional_convert]. do 2 f_equal. apply wrap_id. cbn [width]. lia.
Qed.

Lemma port_roundtrip p : 0 <= p < 2 ^ 16 -> 0 <= ToHostByteOrder16 p < 2 ^ 16 /\ ToNetworkByteOrder16 (ToHostByteOrder16 p) = p.
Proof.
  intros Hp. unfold ToHostByteOrder16, ToNetworkByteOrder16. rewrite bswap_involutive. split; [|by apply Z.mod_small].
  unfold bswap. pose proof (Endian.le_value_range (rev (le_bytes 2 p))) as H. unfold zlen in H.
  rewrite length_rev, length_le_bytes in H. exact H.
Qed.

Lemma int2Str_loop_more k fuel i cs : int2Str_loop fuel i = Some cs -> int2Str_loop (fuel + k) i = Some cs.
Proof.
  revert i cs. induction fuel as [|fuel IH]; intros i cs H; [done|]. cbn [int2Str_loop Nat.add] in *.
  apply bind_Some in H as (c & -> & H). cbn [mbind option_bind]. case_bool; [done|].
  apply bind_Some in H as (cs' & H & E). by rewrite (IH _ _ H).
Qed.

(** A port has at most five digits. *)
Lemma port_digits p :
  0 <= p < 2 ^ 16 -> exists pt, int2Str p = Some pt /\ read_decimal pt = Some p /\ zlen pt <= 5.
Proof.
  intros Hp. destruct (int2Str_spec p) as (pt & E & Hr & _); [lia|]. exists pt. split; [done|]. split; [done|].
  destruct (int2Str_loop_spec 5 p) as (ds & E5 & _ & _ & Hl & _); [change (10 ^ Z.of_nat 5) with 100000; lia|lia|].
  unfold int2Str, int2Str_fuel in E. change 20%nat with (5 + 15)%nat in E. rewrite (int2Str_loop_more 15 5 p _ E5) in E. cbn [mbind option_bind] in E.
  replace (p <? 0) with false in E by lia. injection E as <-. unfold zlen. rewrite length_rev, length_map. lia.
Qed.

Lemma isdigit_facts c : isdigit c = true ->
  byte_to_Z c < 128 /\ isalpha c = false /\ isalnum c = true /\ c <> colon /\ c <> x00 /\ c <> star.
Proof.
  intros H. pose proof H as H'. unfold isdigit in H. apply bool_decide_eq_true in H as [v Hv].
  unfold digit_value in Hv. destruct (_ && _) eqn:E; [|done]. apply andb_true_iff in E as [E1 E2]. rewrite Z.leb_le in E1, E2.
  assert (isalpha c = false) as Ha.
  { unfold isalpha. replace (65 <=? byte_to_Z c) with false by lia. by replace (97 <=? byte_to_Z c) with false by lia. }
  split_and!; [lia|done|by unfold isalnum; rewrite H', orb_true_r|..]; intros ->; vm_compute in E1, E2; done.
Qed.

Lemma cstr_no_nul bs : x00 ∉ bs -> cstr bs = bs.
Proof.
  induction bs as [|c bs IH]; intros Hn; [done|]. rewrite not_elem_of_cons in Hn. cbn.
  rewrite decide_False by (intros ->; tauto). f_equal. tauto.
Qed.

Section roundtrip.
Context `{!AddrText} `{!AddrTextLaws}.

Lemma FromIpPort_spec f a p :
  length a = addr_bytes f -> x00 ∉ inet_ntop f a ->
  FromIpPort f (inet_ntop f a) p = Some (mkInetAddr f (ToNetworkByteOrder16 p) a None).
Proof. intros Hl Hn. unfold FromIpPort. by rewrite cstr_no_nul, ntop_pton. Qed.

Lemma parse_ipv4 a pt p :
  length a = addr_bytes AF_INET -> read_decimal pt = Some p -> 0 <= p < 2 ^ 16 -> zlen pt < 32 ->
  InetAddr_parse (view_of (inet_ntop AF_INET a ++ colon :: pt))
  = Some (inr (mkInetAddr AF_INET (ToNetworkByteOrder16 p) a None)).
Proof.
  intros Hl Hr Hp Hpt. destruct (ntop4_chars a Hl) as ((c & t & Hc & Hd) & Hdot & Hall & Hlen).
  set (ip := inet_ntop AF_INET a) in *. set (txt := ip ++ colon :: pt).
  assert (zlen txt < 2 ^ 63) as Hb by (unfold txt; rewrite zlen_app, zlen_cons; lia).
  pose proof (view_of_wf txt Hb) as Hv. destruct (isdigit_facts c Hd) as (Hc128 & Ha & Hn & _).
  assert (colon ∉ ip) as Hcol.
  { intros Hin. rewrite Forall_forall in Hall. destruct (Hall _ Hin) as [E|E]; [|done].
    destruct (isdigit_facts _ E) as (_ & _ & _ & E' & _). done. }
  assert (x00 ∉ ip) as Hnul.
  { intros Hin. rewrite Forall_forall in Hall. destruct (Hall _ Hin) as [E|E]; [|done].
    destruct (isdigit_facts _ E) as (_ & _ & _ & _ & E' & _). done. }
  unfold InetAddr_parse. assert (sv_at (view_of txt) 0 = Some c) as -> by (unfold txt; by rewrite Hc).
  cbn [mbind option_bind]. unfold ctype. rewrite !check_bind_true by (apply Z.ltb_lt; lia). cbn [mbind option_bind].
  rewrite Ha, Hn. destruct (find_char_split (view_of txt) dot Hv) as (d & -> & Hds). cbn [mbind option_bind].
  rewrite (found_not_npos dot (view_of txt) d Hv) by (done || (rewrite content_view_of; unfold txt; set_solver)).
  cbn [negb andb orb]. destruct (find_char_split (view_of txt) colon Hv) as (r & -> & Hrs). cbn [mbind option_bind].
  rewrite (found_not_npos colon (view_of txt) r Hv) by (done || (rewrite content_view_of; unfold txt; set_solver)). cbn [negb].
  assert (r = zlen ip) as -> by (eapply splits_at_unique; [exact Hv|by rewrite content_view_of|done|done]).
  change (substr (view_of txt) 0 (zlen ip)) with (substr (view_of txt) (zlen (@nil byte)) (zlen ip)).
  rewrite (view_part txt [] ip (colon :: pt)) by done. cbn [mbind option_bind].
  rewrite bool_decide_false by (rewrite Hc; intros [= -> _]; by destruct (isdigit_facts _ Hd) as (_ & _ & _ & _ & _ & E)).
  replace (zlen ip + 1) with (zlen (ip ++ [colon])) by (by rewrite zlen_app).
  rewrite (view_tail txt (ip ++ [colon]) pt) by (done || (unfold txt; by rewrite <- app_assoc)). cbn [mbind option_bind].
  rewrite (view_to_u16_decimal pt p) by done. cbn [mbind option_bind]. unfold ip. by rewrite FromIpPort_spec.
Qed.

Lemma parse_ipv6 a pt p :
  length a = addr_bytes AF_INET6 -> read_decimal pt = Some p -> 0 <= p < 2 ^ 16 -> zlen pt < 32 ->
  InetAddr_parse (view_of ([lbracket] ++ inet_ntop AF_INET6 a ++ [rbracket] ++ colon :: pt))
  = Some (inr (mkInetAddr AF_INET6 (ToNetworkByteOrder16 p) a None)).
Proof.
  intros Hl Hr Hp Hpt. destruct (ntop6_chars a Hl) as (Hrb & Hnul & Hlen).
  set (ip := inet_ntop AF_INET6 a) in *. set (txt := [lbracket] ++ ip ++ [rbracket] ++ colon :: pt).
  assert (zlen txt = zlen ip + zlen pt + 3) as Hz by (unfold txt; rewrite !zlen_app, !zlen_cons, zlen_nil; lia).
  pose proof (zlen_nonneg ip). assert (zlen txt < 2 ^ 63) as Hb by lia. pose proof (view_of_wf txt Hb) as Hv.
  unfold InetAddr_parse. change (sv_at (view_of txt) 0) with (Some lbracket). cbn [mbind option_bind].
  change (ctype isalpha lbracket) with (Some false). change (ctype isalnum lbracket) with (Some false). cbn [mbind option_bind].
  change (npos =? npos) with true. rewrite (bool_decide_false (lbracket = star)), (bool_decide_true (lbracket = lbracket)) by done.
  cbn [negb andb orb]. destruct (find_char_split (view_of txt) rbracket Hv) as (r & -> & Hrs). cbn [mbind option_bind].
  rewrite (found_not_npos rbracket (view_of txt) r Hv) by (done || (rewrite content_view_of; unfold txt; set_solver)). cbn [negb].
  assert (r = zlen ([lbracket] ++ ip)) as ->.
  { eapply splits_at_unique; [exact Hv|rewrite content_view_of; unfold txt; by rewrite app_assoc|set_solver|done]. }
  rewrite zlen_app. change (zlen [lbracket]) with 1. unfold substr_range. replace (1 + zlen ip - 1) with (zlen ip) by lia.
  rewrite u64_id by lia. change (substr (view_of txt) 1) with (substr (view_of txt) (zlen [lbracket])).
  rewrite (view_part txt [lbracket] ip ([rbracket] ++ colon :: pt)) by done. cbn [mbind option_bind].
  replace (1 + zlen ip + 2) with (zlen ([lbracket] ++ ip ++ [rbracket] ++ [colon]))
    by (rewrite !zlen_app, !zlen_cons, zlen_nil; lia).
  rewrite (view_tail txt _ pt) by (done || (unfold txt; by rewrite <- !app_assoc)). cbn [mbind option_bind].
  rewrite (view_to_u16_decimal pt p) by done. cbn [mbind option_bind]. unfold ip. by rewrite FromIpPort_spec.
Qed.
End roundtrip.

(** ** An implementation of the system's conversions *)

Fixpoint decimal_dotted (a : list byte) : list byte :=
  match a with
  | [] => []
  | [b] => default [] (int2Str (byte_to_Z b))
  | b :: a => default [] (int2Str (byte_to_Z b)) ++ dot :: decimal_dotted a
  end.

(** [n] numbers and one more, with a dot in between. *)
Fixpoint parse_dotted (n : nat) (s : list byte) : option (list byte) :=
  let '(v, some, rest) := scan_digits 0 false s in
  assert! some && (v <? 256);
  match n, rest with
  | O, [] => Some [Z_to_byte v]
  | S m, d :: rest => assert! bool_decide (d = dot); a ← parse_dotted m rest; Some (Z_to_byte v :: a)
  | _, _ => None
  end.

Definition nibble (z : Z) : byte := default x00 (hex_digits !! Z.to_nat z).

Definition nibble_value (c : byte) : option Z :=
  Z.of_nat ∘ fst <$> list_find (fun d => d = c) hex_digits.

(** Two hexadecimal digits per byte, a colon after every second one. *)
Fixpoint hex_groups (odd : bool) (a : list byte) : list byte :=
  match a with
  | [] => []
  | b :: a =>
    nibble (byte_to_Z b / 16) :: nibble (byte_to_Z b mod 16) ::
    (if odd && negb (bool_decide (a = [])) then [colon] else []) ++ hex_groups (negb odd) a
  end.

Fixpoint parse_nibbles (s : list byte) : option (list byte) :=
  match s with
  | [] => Some []
  | [_] => None
  | c :: d :: s => x ← nibble_value c; y ← nibble_value d; a ← parse_nibbles s; Some (Z_to_byte (16 * x + y) :: a)
  end.

Definition parse_hex (s : list byte) : option (list byte) :=
  parse_nibbles (List.filter (fun c => negb (bool_decide (c = colon))) s).

#[export] Instance plain_text : AddrText := {
  inet_ntop f a := match f with AF_INET => decimal_dotted a | AF_INET6 => hex_groups false a end;
  inet_pton f s := match f with AF_INET => parse_dotted 3 s | AF_INET6 => parse_hex s end;
  getaddrinfo host service is_server := None
}.

Definition all_bytes : list byte := map (fun n => Z_to_byte (Z.of_nat n)) (seq 0 256).

Lemma all_bytes_in b : b ∈ all_bytes.
Proof.
  unfold all_bytes. rewrite <- (Z_to_byte_to_Z b). pose proof (byte_to_Z_range b). apply list_elem_of_In, in_map_iff.
  exists (Z.to_nat (byte_to_Z b)). rewrite Z2Nat.id by lia. split; [done|]. apply in_seq. lia.
Qed.

(** A decidable property of bytes holds if it holds of the 256. *)
Lemma bytes_forall (p : byte -> bool) : forallb p all_bytes = true -> forall b, p b = true.
Proof. rewrite forallb_forall. intros H b. apply H, list_elem_of_In, all_bytes_in. Qed.

Definition byte_text (b : byte) : list byte := default [] (int2Str (byte_to_Z b)).

Lemma byte_text_facts b :
  bool_decide (read_digits 0 (byte_text b) = Some (byte_to_Z b)) && negb (bool_decide (byte_text b = [])) &&
  forallb isdigit (byte_text b) && (length (byte_text b) <=? 3)%nat = true.
Proof. revert b. apply bytes_forall. vm_compute. reflexivity. Qed.

Lemma nibble_facts b :
  bool_decide (nibble_value (nibble (byte_to_Z b / 16)) = Some (byte_to_Z b / 16)) &&
  bool_decide (nibble_value (nibble (byte_to_Z b mod 16)) = Some (byte_to_Z b mod 16)) &&
  forallb (fun c => negb (bool_decide (c = colon)) && negb (bool_decide (c = rbracket)) && negb (bool_decide (c = x00)))
    [nibble (byte_to_Z b / 16); nibble (byte_to_Z b mod 16)] = true.
Proof. revert b. apply bytes_forall. vm_compute. reflexivity. Qed.

Lemma scan_digits_stop acc b l v c r :
  read_digits acc l = Some v -> digit_value c = None ->
  scan_digits acc b (l ++ c :: r) = (v, b || negb (bool_decide (l = [])), c :: r).
Proof.
  revert acc b. induction l as [|d l IH]; intros acc b H Hc; cbn in *.
  - injection H as ->. by rewrite Hc, orb_false_r.
  - destruct (digit_value d) as [x|]; [|done]. cbn in H. rewrite (IH _ true H Hc). cbn. by rewrite orb_true_r.
Qed.

Lemma parse_dotted_spec b a : parse_dotted (length a) (decimal_dotted (b :: a)) = Some (b :: a).
Proof.
  revert b. induction a as [|b' a IH]; intros b; pose proof (byte_text_facts b) as Hb;
    rewrite !andb_true_iff, bool_decide_eq_true, negb_true_iff, bool_decide_eq_false in Hb;
    destruct Hb as (((Hr & Hn) & _) & _); pose proof (byte_to_Z_range b).
  - cbn [length parse_dotted]. change (decimal_dotted [b]) with (byte_text b).
    rewrite (read_digits_scan _ _ _ false Hr), bool_decide_false by done. cbn [negb orb andb].
    rewrite check_bind_true by (apply Z.ltb_lt; lia). by rewrite Z_to_byte_to_Z.
  - change (decimal_dotted (b :: b' :: a)) with (byte_text b ++ dot :: decimal_dotted (b' :: a)).
    cbn [length parse_dotted]. rewrite (scan_digits_stop _ false _ _ dot _ Hr eq_refl), (bool_decide_false (byte_text b = [])) by done. cbn [negb orb andb].
    rewrite check_bind_true by (apply Z.ltb_lt; lia). rewrite check_bind_true by done. rewrite IH. cbn [mbind option_bind].
    by rewrite Z_to_byte_to_Z.
Qed.

Lemma decimal_dotted_chars a : Forall (fun c => isdigit c = true \/ c = dot) (decimal_dotted a).
Proof.
  assert (forall b, Forall (fun c => isdigit c = true \/ c = dot) (byte_text b)) as Hb.
  { intros b. pose proof (byte_text_facts b) as H. rewrite !andb_true_iff, forallb_forall in H.
    apply Forall_forall. intros c Hc. left. apply H. by apply list_elem_of_In. }
  induction a as [|b a IH]; [constructor|]. destruct a as [|b' a]; [apply Hb|].
  change (decimal_dotted (b :: b' :: a)) with (byte_text b ++ dot :: decimal_dotted (b' :: a)).
  apply Forall_app. split; [apply Hb|]. constructor; [by right|done].
Qed.

Lemma decimal_dotted_length a : (length (decimal_dotted a) <= 4 * length a - 1)%nat.
Proof.
  induction a as [|b a IH]; [done|]. pose proof (byte_text_facts b) as H. rewrite !andb_true_iff, Nat.leb_le in H.
  destruct H as [_ H]. destruct a as [|b' a]; [cbn [decimal_dotted length]; unfold byte_text in H; lia|].
  change (decimal_dotted (b :: b' :: a)) with (byte_text b ++ dot :: decimal_dotted (b' :: a)).
  rewrite length_app. cbn [length] in *. lia.
Qed.

Lemma filter_colon odd a :
  List.filter (fun c => negb (bool_decide (c = colon))) (hex_groups odd a)
  = flat_map (fun b => [nibble (byte_to_Z b / 16); nibble (byte_to_Z b mod 16)]) a.
Proof.
  revert odd. induction a as [|b a IH]; intros odd; [done|]. pose proof (nibble_facts b) as H.
  cbn [forallb] in H. rewrite !andb_true_iff in H. destruct H as (_ & ((H1 & _) & _) & ((H2 & _) & _) & _).
  cbn [hex_groups List.filter flat_map app]. rewrite H1, H2. do 2 f_equal.
  destruct (odd && _); [|apply IH]. cbn [app List.filter]. rewrite bool_decide_true by done. apply IH.
Qed.

Lemma parse_hex_spec odd a : parse_hex (hex_groups odd a) = Some a.
Proof.
  unfold parse_hex. rewrite filter_colon. induction a as [|b a IH]; [done|]. pose proof (nibble_facts b) as H.
  rewrite !andb_true_iff, !bool_decide_eq_true in H. destruct H as ((H1 & H2) & _).
  cbn [flat_map app parse_nibbles]. rewrite H1, H2. cbn [mbind option_bind]. rewrite IH. cbn [mbind option_bind].
  rewrite <- Z.div_mod by lia. by rewrite Z_to_byte_to_Z.
Qed.

Lemma hex_groups_chars odd a : Forall (fun c => c <> rbracket /\ c <> x00) (hex_groups odd a).
Proof.
  revert odd. induction a as [|b a IH]; intros odd; [constructor|]. pose proof (nibble_facts b) as H.
  cbn [forallb] in H. rewrite !andb_true_iff, !negb_true_iff, !bool_decide_eq_false in H.
  destruct H as (_ & ((_ & H1) & H2) & ((_ & H3) & H4) & _). cbn [hex_groups].
  constructor; [done|]. constructor; [done|]. apply Forall_app. split; [|apply IH].
  destruct (odd && _); [|constructor]. by repeat constructor.
Qed.

Lemma hex_groups_length odd a : (2 * length (hex_groups odd a) <= 5 * length a + (if odd then 1 else 0))%nat.
Proof.
  revert odd. induction a as [|b a IH]; intros odd; [cbn; lia|]. cbn [hex_groups length]. rewrite length_app.
  specialize (IH (negb odd)). destruct odd, (bool_decide (a = [])); cbn [andb negb length] in *; lia.
Qed.

#[export] Instance plain_text_laws : AddrTextLaws.
Proof.
  split.
  - intros [] a Hl; cbn [inet_pton inet_ntop plain_text addr_bytes] in *; [|apply parse_hex_spec].
    destruct a as [|b a]; [done|]. injection Hl as Hl. rewrite <- Hl. apply parse_dotted_spec.
  - intros a Hl. cbn [inet_ntop plain_text addr_bytes] in *. split; [|split; [|split]].
    + destruct a as [|b a]; [done|]. pose proof (byte_text_facts b) as H.
      rewrite !andb_true_iff, negb_true_iff, bool_decide_eq_false in H. destruct H as (((_ & Hn) & Hd) & _).
      assert (exists s, decimal_dotted (b :: a) = byte_text b ++ s) as (s & ->).
      { destruct a; [exists []; by rewrite app_nil_r|by eexists]. }
      destruct (byte_text b) as [|c u]; [done|]. cbn [forallb] in Hd. apply andb_true_iff in Hd as [Hd _]. by exists c, (u ++ s).
    + destruct a as [|b [|b' a]]; [done..|]. cbn [decimal_dotted]. set_solver.
    + apply decimal_dotted_chars.
    + pose proof (decimal_dotted_length a). unfold zlen. lia.
  - intros a Hl. cbn [inet_ntop plain_text addr_bytes] in *. pose proof (hex_groups_chars false a) as H. rewrite Forall_forall in H.
    split; [|split]; [intros Hin; by destruct (H _ Hin)..|]. pose proof (hex_groups_length false a) as Hn. cbv iota in Hn. unfold zlen. lia.
Qed.

(** ** Properties *)

(** C23 An address, printed with its port and parsed again, is the same address:
    family, port and bytes, for IPv4 and IPv6. *)
Theorem inet_addr_roundtrip `{!AddrText} `{!AddrTextLaws} (a : InetAddr) :
  addr_wf a ->
  exists txt b, ToIpPort a = Some txt /\ InetAddr_parse (view_of txt) = Some (inr b) /\
    sin_family b = sin_family a /\ sin_port b = sin_port a /\ sin_addr b = sin_addr a /\ GetPort b = GetPort a.
Proof.
  intros [Hp Hl]. destruct (port_roundtrip _ Hp) as [Hh Hpp].
  destruct (port_digits (ToHostByteOrder16 (sin_port a)) Hh) as (pt & Ept & Hr & Hlen). pose proof (zlen_nonneg pt).
  assert (forall n, 7 <= n -> port_text n (ToHostByteOrder16 (sin_port a)) = Some (colon :: pt)) as Hpt.
  { intros n Hn. unfold port_text. rewrite Ept. cbn [mbind option_bind]. f_equal. apply take_ge. cbn [length]. unfold zlen in *. lia. }
  unfold ToIpPort, sock_ToIpPort, sock_ToIp, GetPort. destruct (sin_family a) eqn:Ef.
  - destruct (ntop4_chars (sin_addr a) Hl) as (_ & _ & _ & Hz). pose proof (zlen_nonneg (inet_ntop AF_INET (sin_addr a))).
    rewrite !check_bind_true by (apply Z.leb_le || apply Z.ltb_lt; lia). cbn [mbind option_bind].
    rewrite Hpt by lia. cbn [mbind option_bind]. eexists _, _. split; [done|].
    rewrite (parse_ipv4 (sin_addr a) pt _ Hl Hr Hh) by lia. cbn [sin_port sin_family sin_addr]. by rewrite Hpp.
  - destruct (ntop6_chars (sin_addr a) Hl) as (_ & _ & Hz). pose proof (zlen_nonneg (inet_ntop AF_INET6 (sin_addr a))).
    rewrite !check_bind_true by (apply Z.leb_le || apply Z.ltb_lt; lia). cbn [mbind option_bind].
    rewrite check_bind_true by (apply Z.ltb_lt; lia). rewrite Hpt by lia. cbn [mbind option_bind]. eexists _, _. split; [done|].
    rewrite (parse_ipv6 (sin_addr a) pt _ Hl Hr Hh) by lia. cbn [sin_port sin_family sin_addr]. by rewrite Hpp.
Qed.

(** 127.0.0.1:9999 *)
Definition demo_addr : InetAddr := InetAddr_port 9999 true false.

Lemma inet_addr_roundtrip_witness :
  addr_wf demo_addr /\ ToIpPort demo_addr = Some (str "127.0.0.1:9999") /\
  exists txt b, ToIpPort demo_addr = Some txt /\ InetAddr_parse (view_of txt) = Some (inr b) /\
    sin_family b = sin_family demo_addr /\ sin_port b = sin_port demo_addr /\ sin_addr b = sin_addr demo_addr /\
    GetPort b = GetPort demo_addr.
Proof.
  assert (addr_wf demo_addr) as H by (split; [by apply (bool_decide_unpack _)|reflexivity]).
  split; [done|]. split; [vm_compute; reflexivity|]. by apply inet_addr_roundtrip.
Defined.

(** The port the constructors store is the port [GetPort] returns. *)
Lemma GetPort_InetAddr_port port loopback v6 : 0 <= port < 2 ^ 16 -> GetPort (InetAddr_port port loopback v6) = port.
Proof.
  intros Hp. unfold GetPort, InetAddr_port, ToHostByteOrder16, ToNetworkByteOrder16.
  destruct v6; cbn [sin_port]; rewrite bswap_involutive; by apply Z.mod_small.
Qed.

(** ** Defects *)

(** A port above 65535 is cut to 16 bits; one that is not a number fails an
    assertion instead of throwing; so does the empty one. *)
Lemma port_unchecked :
  (exists a, InetAddr_parse (view_of (str "10.0.0.1:70000")) = Some (inr a) /\ GetPort a = 4464) /\
  InetAddr_parse (view_of (str "10.0.0.1:http")) = None /\ InetAddr_parse (view_of (str "10.0.0.1:")) = None.
Proof. split; [|split; vm_compute; reflexivity]. eexists. split; vm_compute; reflexivity. Qed.

(** An IPv6 address without a port makes the length of the port wrap around. *)
Lemma ipv6_without_port : InetAddr_parse (view_of (str "[::1]")) = None.
Proof. vm_compute. reflexivity. Qed.

(** A malformed numeric address is fatal, not an exception. *)
Lemma bad_ip_is_fatal : InetAddr_parse (view_of (str "10.0.0.256:80")) = None.
Proof. vm_compute. reflexivity. Qed.
