(* ===== verification/TimeStamp.v ===== *)
(** * TimeStamp: kanon/util/time_stamp.{h,cc}

    Microseconds since the epoch in a signed 64-bit integer.  Signed overflow is
    undefined, so the arithmetic is partial.  The C library's calendar functions
    are arguments; the conversions of [snprintf] that the sources use are
    modelled here, for the logger as well.  The operators that take a [double]
    are left out. *)

From Stdlib Require Import ZArith Lia.
From S2P Require Import Prelude FixedBuffer.

(** ** Integers of the machine *)

(** The result of signed arithmetic of width [w], undefined on overflow. *)
Definition sint (w z : Z) : option Z :=
  assert! (- 2 ^ (w - 1) <=? z) && (z <? 2 ^ (w - 1)); Some z.

(** ** [snprintf] *)

(** [%d] and [%ld] *)
Definition decimal (n : Z) : list byte := default [] (int2Str n).

(** [%0wd]: zeros between the sign and the digits. *)
Definition decimal0 (w : nat) (n : Z) : list byte :=
  let ds := decimal (Z.abs n) in
  let sg := if n <? 0 then [minus_sign] else [] in
  sg ++ repeat zero_digit (w - length sg - length ds) ++ ds.

(** [%wd]: blanks in front. *)
Definition decimal_blank (w : nat) (n : Z) : list byte :=
  repeat " "%byte (w - length (decimal n)) ++ decimal n.

(** What is left of the text in an array of [size] bytes, without terminator. *)
Definition snprintf (size : Z) (txt : list byte) : list byte := take (Z.to_nat (size - 1)) txt.

(** ** Time *)

Record tm := mkTm { tm_year : Z; tm_mon : Z; tm_mday : Z; tm_hour : Z; tm_min : Z; tm_sec : Z }.

Record TimeStamp := mkTimeStamp { microseconds_ : Z }.

Definition kMicrosecondsPerSeconds_ : Z := 1000000.

Definition GetMicroseconds (t : TimeStamp) : Z := microseconds_ t.
Definition GetSeconds (t : TimeStamp) : Z := Z.quot (microseconds_ t) kMicrosecondsPerSeconds_.
Definition GetMilliseconds (t : TimeStamp) : Z := Z.quot (microseconds_ t) 1000.

Definition ts_plus (x y : TimeStamp) : option TimeStamp :=
  us ← sint 64 (microseconds_ x + microseconds_ y); Some (mkTimeStamp us).
Definition ts_minus (x y : TimeStamp) : option TimeStamp :=
  us ← sint 64 (microseconds_ x - microseconds_ y); Some (mkTimeStamp us).
Definition ts_opp (x : TimeStamp) : option TimeStamp :=
  us ← sint 64 (- microseconds_ x); Some (mkTimeStamp us).

(** The units count in an [int]: they are multiplied in 32 bits. *)
Inductive unit := Microsecond (count : Z) | MilliSecond (count : Z) | Second (count : Z).

Definition in_microseconds (u : unit) : option Z :=
  match u with
  | Microsecond count => Some count
  | MilliSecond count => sint 32 (count * 1000)
  | Second count => sint 32 (count * 1000000)
  end.

Definition plus_unit (t : TimeStamp) (u : unit) : option TimeStamp :=
  n ← in_microseconds u;
  us ← sint 64 (microseconds_ t + n);
  Some (mkTimeStamp us).

Definition opp_unit (u : unit) : option unit :=
  match u with
  | Microsecond count => n ← sint 32 (- count); Some (Microsecond n)
  | MilliSecond count => n ← sint 32 (- count); Some (MilliSecond n)
  | Second count => n ← sint 32 (- count); Some (Second n)
  end.

Definition minus_unit (t : TimeStamp) (u : unit) : option TimeStamp :=
  u ← opp_unit u; plus_unit t u.

(** [operator-(unit, TimeStamp)] *)
Definition unit_minus (u : unit) (t : TimeStamp) : option TimeStamp :=
  d ← minus_unit t u; ts_opp d.

Definition FromUnixTime (seconds microseconds : Z) : option TimeStamp :=
  s ← sint 64 (seconds * kMicrosecondsPerSeconds_);
  us ← sint 64 (s + microseconds);
  Some (mkTimeStamp us).

(** [Now], at the clock's reading. *)
Definition Now (tv_sec tv_usec : Z) : option TimeStamp := FromUnixTime tv_sec tv_usec.

Definition ts_eq (x y : TimeStamp) : bool := microseconds_ x =? microseconds_ y.
Definition ts_lt (x y : TimeStamp) : bool := microseconds_ x <? microseconds_ y.

(** The count is unsigned; the product wraps and is then taken as signed. *)
Definition AddTimeUs (x : TimeStamp) (us : Z) : option TimeStamp :=
  r ← sint 64 (microseconds_ x + swrap 64 us); Some (mkTimeStamp r).
Definition AddTimeMs (x : TimeStamp) (ms : Z) : option TimeStamp := AddTimeUs x (u64 (ms * 1000)).

Definition ToString (t : TimeStamp) : list byte :=
  let seconds := Z.quot (microseconds_ t) kMicrosecondsPerSeconds_ in
  let microseconds := Z.rem (microseconds_ t) kMicrosecondsPerSeconds_ in
  snprintf 64 (decimal seconds ++ str ".6" ++ decimal microseconds).

Section calendar.
Context (localtime : Z -> tm).

Definition ToFormattedString (isShowMicroseconds : bool) (t : TimeStamp) : list byte :=
  let tm := localtime (Z.quot (microseconds_ t) kMicrosecondsPerSeconds_) in
  let date y := y ++ decimal0 2 (tm_mon tm + 1) ++ decimal0 2 (tm_mday tm) ++ str " " ++
    decimal0 2 (tm_hour tm) ++ str ":" ++ decimal0 2 (tm_min tm) ++ str ":" ++ decimal0 2 (tm_sec tm) in
  if isShowMicroseconds then
    let microseconds := Z.rem (microseconds_ t) kMicrosecondsPerSeconds_ in
    snprintf 64 (date (decimal_blank 4 (tm_year tm + 1900)) ++ str "." ++ decimal0 6 microseconds)
  else snprintf 64 (date (decimal0 4 (tm_year tm + 1900))).

(** [strptime] stores what it could parse, also when it fails. *)
Context (strptime : list byte -> list byte -> bool * tm) (mktime : tm -> Z).

(** The time stamp and what [*ok] is set to; [with_ok] when it is not null. *)
Definition FromTimeStr (format rep : list byte) (with_ok : bool) : option (TimeStamp * option bool) :=
  let '(parsed, tm) := strptime rep format in
  if negb parsed && with_ok then Some (mkTimeStamp 0, Some false)
  else
    us ← sint 64 (mktime tm * kMicrosecondsPerSeconds_);
    Some (mkTimeStamp us, if with_ok then Some true else None).

End calendar.

(** ** Properties *)

Lemma sint_Some w z : - 2 ^ (w - 1) <= z < 2 ^ (w - 1) -> sint w z = Some z.
Proof. intros Hz. unfold sint. by rewrite check_bind_true by lia. Qed.

Lemma sint_inv w z r : sint w z = Some r -> r = z /\ - 2 ^ (w - 1) <= z < 2 ^ (w - 1).
Proof. unfold sint. intros E. inv_monad. bool_prop. lia. Qed.

(** A time is the seconds and the microseconds it was made from. *)
Lemma unix_time_roundtrip seconds microseconds t :
  0 <= seconds -> 0 <= microseconds < 1000000 -> FromUnixTime seconds microseconds = Some t ->
  GetSeconds t = seconds /\ Z.rem (GetMicroseconds t) kMicrosecondsPerSeconds_ = microseconds.
Proof.
  unfold FromUnixTime, GetSeconds, GetMicroseconds, kMicrosecondsPerSeconds_. intros Hs Hu E. inv_monad.
  repeat match goal with H : sint _ _ = Some _ |- _ => apply sint_inv in H as [-> _] end. cbn [microseconds_].
  rewrite Z.quot_div_nonneg, Z.rem_mod_nonneg by lia. split.
  - rewrite Z.div_add_l, Z.div_small by lia. lia.
  - rewrite Z.add_comm, Z.mod_add, Z.mod_small by lia. done.
Qed.

(** Adding and taking away again. *)
Lemma plus_minus_unit t u t' : plus_unit t u = Some t' ->
  forall t'', minus_unit t' u = Some t'' -> microseconds_ t = microseconds_ t''.
Proof.
  unfold minus_unit, opp_unit, plus_unit. intros E t'' E'.
  destruct u; cbn [in_microseconds] in *; inv_monad; cbn [in_microseconds] in *; inv_monad;
    repeat match goal with H : sint _ _ = Some _ |- _ => apply sint_inv in H as [? ?] end; cbn [microseconds_] in *; lia.
Qed.

(** Microseconds of at most 35 minutes and 47 seconds fit the 32 bits in which
    the units are multiplied; an hour does not. *)
Lemma seconds_bound count :
  in_microseconds (Second count) = (if Z.abs count <=? 2147 then Some (count * 1000000) else None).
Proof.
  unfold in_microseconds, sint. change (2 ^ (32 - 1)) with 2147483648. case_bool.
  - rewrite check_bind_true; [done|]. apply andb_true_iff. rewrite Z.leb_le, Z.ltb_lt. lia.
  - destruct (andb _ _) eqn:E; [|done]. bool_prop. lia.
Qed.

(** ** Defects *)

Lemma hour_overflows t : plus_unit t (Second 3600) = None.
Proof. unfold plus_unit. by rewrite seconds_bound. Qed.

(** Half past one second reads as 1.65 seconds and more. *)
Lemma ToString_wrong : ToString (mkTimeStamp 1500000) = str "1.6500000".
Proof. reflexivity. Qed.

(** Without the out parameter a string that does not parse gives the time of
    whatever the fields hold. *)
Lemma unparsed_time_accepted strptime mktime format rep tm :
  strptime rep format = (false, tm) -> - 2 ^ 43 <= mktime tm < 2 ^ 43 ->
  FromTimeStr strptime mktime format rep false =
  Some (mkTimeStamp (mktime tm * kMicrosecondsPerSeconds_), None).
Proof.
  intros E Hm. unfold FromTimeStr. rewrite E. cbn [negb andb].
  rewrite sint_Some; [done|]. unfold kMicrosecondsPerSeconds_. change (64 - 1) with 63. lia.
Qed.
