(* ===== verification/LoopTimers.v ===== *)
(** * Timers of an event loop, from any thread:
      kanon/net/event_loop.{h,cc} with kanon/linux/net/timer/timer_queue.cc

    The timer entry points of EventLoop over the models of EventLoop.v and
    Timer.v.  [AddTimer] makes the timer in the calling thread and hands a functor
    to the loop, [RunInLoop]: in the loop's thread it runs at once, from another
    thread it waits in the queue of functors; the timer is then known to the
    caller, who reads it again for the [TimerId], and to the queued functor.  The
    read callback of the timerfd runs in the loop's thread.  A state is that of the
    loop, of the timer queue and of the threads inside [AddTimer]. *)

From Stdlib Require Import ZArith Lia.
From stdpp Require Import gmap.
From S2P Require Import Prelude EventLoop Timer TimeStamp.

(** What a functor asks of the timer queue: the functors of [AddTimer] and
    [CancelTimer], and the read callback of the timerfd. *)
Inductive timer_call :=
| CAdd (p : ptr) (cb : nat) (time intv : Z) (rep : bool)
| CCancel (id : TimerEntry)
| CFire.

(** ** The entry points *)

(** [p] is the address of the timer; an interval of zero does not repeat. *)
Definition RunAt (p : ptr) (cb : nat) (expiration : TimeStamp) : timer_call :=
  CAdd p cb (microseconds_ expiration) 0 false.
Definition RunAfterMs (p : ptr) (cb : nat) (now : TimeStamp) (delay : Z) : option timer_call :=
  t ← AddTimeMs now delay; Some (RunAt p cb t).
Definition RunAfterUs (p : ptr) (cb : nat) (now : TimeStamp) (delay : Z) : option timer_call :=
  t ← AddTimeUs now delay; Some (RunAt p cb t).
Definition RunEvery (p : ptr) (cb : nat) (expiration : TimeStamp) (intv : Z) (rep : bool) : timer_call :=
  CAdd p cb (microseconds_ expiration) intv rep.

Section system.
Context (body : functor -> list act) (call : functor -> option timer_call).
Context (callbacks : nat -> list timer_action) (bucket : Z -> TimerEntry -> Z).

(** The functor run by the loop's thread; [now'] is the clock after the callbacks
    of expired timers. *)
Definition timer_functor (c : timer_call) (q : TimerQueue) (now now' : Z) : option TimerQueue :=
  match c with
  | CAdd p _ _ _ _ => AddTimerInLoop q p now
  | CCancel id => CancelTimer bucket q id now
  | CFire => '(_, q) ← ProcessAllExpiredTimers bucket callbacks q now now'; Some q
  end.

(** The whole entry point called in the loop's thread. *)
Definition timer_in_thread (c : timer_call) (q : TimerQueue) (now now' : Z) : option TimerQueue :=
  match c with
  | CAdd p cb time intv rep => '(_, q) ← AddTimer q p cb time intv rep now; Some q
  | _ => timer_functor c q now now'
  end.

(** ** Steps *)

Record system := mkSystem {
  loop : EventLoop.EventLoop;
  queue : TimerQueue;
  clock : Z;
  returning : list TimerEntry   (* threads about to make a TimerId: the timer and its sequence number *)
}.

(** The functor that a step of the loop's thread calls, and whether it does so in
    [RunInLoop]; the other ones come from the queue. *)
Definition called (l : label) (s : EventLoop.EventLoop) : option (bool * functor) :=
  match l, at_ s with
  | Owner, Handling (ARun f :: _) _ => Some (true, f)
  | Owner, Calling (ARun f :: _) _ => Some (true, f)
  | Owner, Calling [] (f :: _) => Some (false, f)
  | _, _ => None
  end.

Definition queue_effect (l : label) (st : system) (now now' : Z) : option TimerQueue :=
  match called l (loop st) with
  | Some (in_run, f) =>
    match call f with
    | Some c => if in_run : bool then timer_in_thread c (queue st) now now' else timer_functor c (queue st) now now'
    | None => Some (queue st)
    end
  | None => Some (queue st)
  end.

Inductive sys_label :=
| SLoop (l : label) (now now' : Z)
| SAdd (f : functor) (now : Z)    (* another thread: AddTimer up to the end of RunInLoop *)
| SReturn (i : nat).              (* one of these threads: TimerId(timer) *)

Definition sys_step (l : sys_label) (st : system) : option system :=
  match l with
  | SLoop l now now' =>
    q ← queue_effect l st now now';
    s ← step body l (loop st);
    Some (mkSystem s q now' (returning st))
  | SAdd f now =>
    match call f with
    | Some (CAdd p cb time intv rep) =>
      q ← new_Timer (queue st) p cb time intv rep;
      s ← step body (OtherQueues f) (loop st);
      Some (mkSystem s q now ((p, s_counter_ (queue st)) :: returning st))
    | _ => None
    end
  | SReturn i =>
    e ← returning st !! i;
    _ ← make_TimerId (queue st) e.1;
    Some (mkSystem (loop st) (queue st) (clock st) (delete i (returning st)))
  end.

Fixpoint sys_run (ls : list sys_label) (st : system) : option system :=
  match ls with
  | [] => Some st
  | l :: ls => st ← sys_step l st; sys_run ls st
  end.

Definition new_system (now : Z) : system := mkSystem (make_EventLoop []) empty_queue now [].

(** ** Legal steps *)

(** The handles that the threads hold after a step: a handle belongs to a timer that was
    made, until the timer, unless it repeats, has run. *)
Definition sys_handles (l : sys_label) (st : system) (G : handles) : handles :=
  match l with
  | SLoop l now now' =>
    match called l (loop st) with
    | Some (in_run, f) =>
      match call f with
      | Some (CAdd p _ _ _ rep) => if in_run : bool then ((p, s_counter_ (queue st)), rep) :: G else G
      | Some CFire => op_handles bucket (queue st) G (OpFire callbacks now now')
      | _ => G
      end
    | None => G
    end
  | SAdd f _ =>
    match call f with
    | Some (CAdd p _ _ _ rep) => ((p, s_counter_ (queue st)), rep) :: G
    | _ => G
    end
  | SReturn _ => G
  end.

(** What the functor may rely on: [new] returns a free address, and the handle is held
    when the loop's thread runs the cancellation, and so for the callbacks of expired
    timers. *)
Definition call_legal (in_run : bool) (c : timer_call) (q : TimerQueue) (G : handles) (now now' : Z) : Prop :=
  match c with
  | CAdd p _ _ _ _ => in_run = true -> heap q !! p = None
  | CCancel id => holds G id
  | CFire => op_legal bucket q G (OpFire callbacks now now')
  end.

(** A functor that a step puts in the queue without making a timer for it. *)
Definition queued_by (l : label) (s : EventLoop.EventLoop) : list functor :=
  match l, at_ s with
  | OtherQueues f, _ => [f]
  | Owner, Handling (AQueue f :: _) _ => [f]
  | Owner, Calling (AQueue f :: _) _ => [f]
  | _, _ => []
  end.

Definition adds (f : functor) : option ptr := match call f with Some (CAdd p _ _ _ _) => Some p | _ => None end.

(** A step that can be taken, at a time that does not go back. A thread leaves
    [AddTimer] before its timer, unless it repeats, has run. *)
Definition legal (l : sys_label) (st : system) (G : handles) : Prop :=
  match l with
  | SLoop l now now' =>
    is_Some (step body l (loop st)) /\ clock st <= now <= now' /\
    Forall (fun f => adds f = None) (queued_by l (loop st)) /\
    (forall b f c, called l (loop st) = Some (b, f) -> call f = Some c -> call_legal b c (queue st) G now now')
  | SAdd f now => clock st <= now /\ exists p, adds f = Some p /\ heap (queue st) !! p = None
  | SReturn i => exists e, returning st !! i = Some e /\ holds G e
  end.

Fixpoint legal_run (ls : list sys_label) (st : system) (G : handles) : Prop :=
  match ls with
  | [] => True
  | l :: ls => legal l st G /\ forall st', sys_step l st = Some st' -> legal_run ls st' (sys_handles l st G)
  end.

Fixpoint run_handles (ls : list sys_label) (st : system) (G : handles) : handles :=
  match ls with
  | [] => G
  | l :: ls => match sys_step l st with Some st' => run_handles ls st' (sys_handles l st G) | None => G end
  end.

(** ** The invariant *)

(** The functors that the loop has still to call, in order, and the timers they add. *)
Definition waiting (s : EventLoop.EventLoop) : list functor := todo (at_ s) ++ functors_ s.
Definition pending (s : EventLoop.EventLoop) : list ptr := omap adds (waiting s).

(** A functor that adds a timer finds the timer its caller made. *)
Definition made (q : TimerQueue) (f : functor) : Prop :=
  match call f with
  | Some (CAdd p cb time intv rep) => exists n, heap q !! p = Some (mkTimer cb time intv rep n)
  | _ => True
  end.

Record sys_inv (G : handles) (st : system) : Prop := {
  si_held : held G (queue st);
  si_loop : loop_inv [] (loop st);
  si_wf : tq_wf (queue st);
  si_armed : armed (queue st) (clock st);
  si_pending : detached (pending (loop st)) (queue st);
  si_made : Forall (made (queue st)) (waiting (loop st))
}.

Lemma run_act_waiting s a s' new :
  run_act body s a = (s', new) ->
  at_ s' = at_ s /\ functors_ s' = functors_ s ++ match a with AQueue f => [f] | _ => [] end.
Proof using.
  destruct a; cbn; unfold Quit_test; intros E; try (injection E as <- <-; by rewrite ?app_nil_r).
  destruct (quit_ s); cbn in E; injection E as <- <-; by rewrite app_nil_r.
Qed.

Lemma loop_test_waiting s : todo (at_ s) = [] -> waiting (loop_test s) = waiting s.
Proof using. unfold waiting, loop_test. intros ->. by destruct (quit_ s). Qed.

(** The queue of functors is first in, first out. *)
Lemma step_waiting l s s' :
  step body l s = Some s' ->
  match called l s with
  | Some (false, f) => waiting s = f :: waiting s'
  | _ => waiting s' = waiting s ++ queued_by l s
  end.
Proof using.
  destruct l; cbn [step].
  - unfold StartLoop_step, called, queued_by. destruct (at_ s) as [| |acts rest|acts rest|] eqn:Ea; try done.
    + intros E. inv_monad. rewrite app_nil_r. rewrite loop_test_waiting; [done|]. cbn. by rewrite Ea.
    + destruct acts as [|a acts]; [destruct rest as [|h rest]|].
      * intros [= <-]. unfold CallFunctors. rewrite app_nil_r. destruct (quit_ s).
        { apply loop_test_waiting. by rewrite Ea. }
        unfold waiting. cbn. by rewrite Ea, app_nil_r.
      * destruct h; cbn; intros [= <-]; unfold waiting; cbn; by rewrite Ea, app_nil_r.
      * destruct (run_act body s a) as [s1 new] eqn:E1. intros [= <-].
        destruct (run_act_waiting _ _ _ _ E1) as [H1 H2]. unfold waiting. cbn. rewrite H2, Ea. by destruct a.
    + destruct acts as [|a acts]; [destruct rest as [|f rest]|].
      * intros [= <-]. unfold end_functors. rewrite app_nil_r. rewrite loop_test_waiting; [done|]. cbn. by rewrite Ea.
      * intros [= <-]. unfold waiting. cbn. by rewrite Ea.
      * destruct (run_act body s a) as [s1 new] eqn:E1. intros [= <-].
        destruct (run_act_waiting _ _ _ _ E1) as [H1 H2]. unfold waiting. cbn. rewrite H2, Ea. cbn.
        by destruct a; rewrite app_assoc.
  - destruct (at_ s) eqn:Ea; try done. intros E. inv_monad. unfold waiting. cbn. by rewrite Ea, app_nil_r.
  - cbn. intros [= <-]. unfold waiting. cbn. by rewrite app_assoc.
  - cbn. destruct (Quit_test s); intros [= <-]; unfold waiting; cbn; by rewrite app_nil_r.
  - destruct (quitting s); [done|]. cbn. intros [= <-]. unfold waiting. cbn. by rewrite app_nil_r.
  - destruct (owed s); [done|]. cbn. intros [= <-]. unfold waiting. cbn. by rewrite app_nil_r.
Qed.

(** ** The queue under the functors *)

(** The queue is in order again, and the timers [E] are as they were. *)
Definition in_order (E : list ptr) (q q' : TimerQueue) (now : Z) : Prop :=
  tq_wf q' /\ armed q' now /\ detached E q' /\ forall p, p ∈ E -> heap q' !! p = heap q !! p.

(** The handles after a call of the timer queue. *)
Definition call_handles (in_run : bool) (c : timer_call) (q : TimerQueue) (G : handles) (now now' : Z) : handles :=
  match c with
  | CAdd p _ _ _ rep => if in_run then ((p, s_counter_ q), rep) :: G else G
  | CCancel _ => G
  | CFire => op_handles bucket q G (OpFire callbacks now now')
  end.

Lemma timer_in_thread_spec c q G E now now' :
  tq_wf q -> held G q -> armed q now -> now <= now' -> detached E q -> call_legal true c q G now now' ->
  exists q', timer_in_thread c q now now' = Some q' /\ in_order E q q' now' /\ held (call_handles true c q G now now') q'.
Proof using.
  intros Hwf Hh Har Hle Hd Hok. destruct c as [p cb time intv rep|id|];
    cbn [call_legal timer_in_thread timer_functor call_handles] in Hok |- *.
  - destruct (run_action_spec bucket q (DoAdd p cb time intv rep now) E Hwf (Hok eq_refl) Hd)
      as (q' & E1 & Hwf' & Hd' & K & _). cbn in E1. exists q'. split; [done|].
    destruct (AddTimer _ _ _ _ _ _ _) as [[i q2]|] eqn:E2; [|done]. injection E1 as <-.
    split; [|exact (add_held _ _ _ _ _ _ _ _ _ _ Hwf (Hok eq_refl) Hh E2)]. split; [done|]. split; [|done].
    apply armed_later with now; [|done]. exact (AddTimer_armed _ _ _ _ _ _ _ _ _ Hwf Har E2).
  - pose proof (held_valid q G id Hwf Hh Hok) as Hv.
    destruct (run_action_spec bucket q (DoCancel id now) E Hwf Hv Hd) as (q' & E1 & Hwf' & Hd' & K & _).
    destruct (act_legal_spec bucket q G (DoCancel id now) Hwf Hh Hok) as [_ Hh']. specialize (Hh' _ E1). cbn in E1, Hh'.
    exists q'. split; [done|]. split; [|done]. split; [done|]. split; [|done].
    apply armed_later with now; [|done]. exact (CancelTimer_armed bucket _ _ _ _ Hwf Hv Har E1).
  - destruct (fire_legal_spec bucket callbacks q G now now' Hwf Hh Hok) as (Hall & ran & q1 & E1 & _ & _ & Hh').
    destruct (Process_keeps bucket callbacks q E now now' Hwf (proj1 Hok) Hall Hd) as (r & q' & E2 & H).
    rewrite E1 in E2. injection E2 as <- <-. rewrite E1. by exists q1.
Qed.

(** The functor of [AddTimer] from the queue. *)
Lemma add_functor_spec q p E now t :
  tq_wf q -> armed q now -> detached (p :: E) q -> heap q !! p = Some t ->
  exists q', AddTimerInLoop q p now = Some q' /\ in_order E q q' now /\ heap q' = heap q /\ (p, sequence t) ∈ timers_ q'.
Proof using.
  intros Hwf Har [Hnd Hd] Ht. apply NoDup_cons in Hnd as [Hp Hnd]. apply Forall_cons in Hd as [[_ Hn] Hd].
  destruct (AddTimerInLoop_spec q p t now Hwf Ht Hn) as (q' & E1 & Hwf' & Hl & Hh & _). exists q'. split; [done|].
  split; [|split; [done|rewrite Hl; left]]. split; [done|]. split; [by eapply AddTimerInLoop_armed|]. split; [|by rewrite Hh].
  split; [done|]. rewrite Forall_forall in *. intros p' Hp'. destruct (Hd p' Hp') as [Hs Hn']. rewrite Hh.
  split; [done|]. intros Hin. apply list_elem_of_In, in_map_iff in Hin as (e & <- & He).
  apply list_elem_of_In in He. rewrite Hl in He. apply elem_of_cons in He as [->|He]; [done|].
  by apply (not_in_fst_ne _ _ _ Hn' He).
Qed.

Lemma made_frame q q' fs :
  (forall p, p ∈ omap adds fs -> heap q' !! p = heap q !! p) -> Forall (made q) fs -> Forall (made q') fs.
Proof using.
  rewrite !Forall_forall. intros Hf Hm f Hin. specialize (Hm f Hin). unfold made in *.
  destruct (call f) as [[p cb time intv rep| |]|] eqn:Ec; try done. destruct Hm as [n Hm]. exists n.
  rewrite Hf; [done|]. apply list_elem_of_omap. exists f. split; [done|]. unfold adds. by rewrite Ec.
Qed.

(** A functor from the queue. *)
Lemma timer_functor_spec f c q G fs now now' :
  tq_wf q -> held G q -> armed q now -> now <= now' -> detached (omap adds (f :: fs)) q -> made q f -> call f = Some c ->
  call_legal false c q G now now' ->
  exists q', timer_functor c q now now' = Some q' /\ in_order (omap adds fs) q q' now' /\
    held (call_handles false c q G now now') q' /\ forall p, adds f = Some p -> p ∈ map fst (timers_ q').
Proof using.
  intros Hwf Hh Har Hle Hd Hm Ec Hok. cbn in Hd. unfold made in Hm. unfold adds in Hd at 1 |- * at 2. rewrite Ec in *.
  destruct c as [p cb time intv rep|id|].
  - destruct Hm as [n Hm]. destruct (add_functor_spec q p _ now _ Hwf Har Hd Hm) as (q' & E1 & (H1 & H2 & H3) & Hheap & Hin).
    exists q'. split; [done|]. split; [split; [done|split; [by eapply armed_later|done]]|].
    split; [apply (held_frame G q); [|done]; intros p' t Et; exists t; by rewrite Hheap|].
    intros p' [= <-]. by apply list_elem_of_In, (in_map fst _ _), list_elem_of_In in Hin.
  - destruct (timer_in_thread_spec (CCancel id) q G _ now now' Hwf Hh Har Hle Hd Hok) as (q' & E1 & H & Hh'). by exists q'.
  - destruct (timer_in_thread_spec CFire q G _ now now' Hwf Hh Har Hle Hd Hok) as (q' & E1 & H & Hh'). by exists q'.
Qed.

(** ** Every step *)

Lemma adds_none fs : Forall (fun f => adds f = None) fs -> omap adds fs = [] /\ forall q, Forall (made q) fs.
Proof using.
  intros H. split.
  - induction H as [|f fs Hf _ IH]; [done|]. cbn. by rewrite Hf.
  - intros q. eapply Forall_impl; [exact H|]. intros f. unfold adds, made.
    by destruct (call f) as [[]|].
Qed.

(** The effect of a step of the loop on the timer queue. *)
Lemma queue_effect_spec l st G s' now now' :
  sys_inv G st -> legal (SLoop l now now') st G -> step body l (loop st) = Some s' ->
  exists q', queue_effect l st now now' = Some q' /\ in_order (pending s') (queue st) q' now' /\
    held (sys_handles (SLoop l now now') st G) q' /\ Forall (made (queue st)) (waiting s') /\
    forall f p, called l (loop st) = Some (false, f) -> adds f = Some p -> p ∈ map fst (timers_ q').
Proof using.
  intros [Hh Hl Hwf Har Hd Hm] (_ & [Hle1 Hle2] & Hnq & Hok) Es. pose proof (step_waiting _ _ _ Es) as Hw.
  apply (armed_later _ _ now) in Har; [|done]. destruct (adds_none _ Hnq) as [Hnone Hnm].
  assert (in_order (pending (loop st)) (queue st) (queue st) now') as Hsame.
  { split; [done|]. split; [by eapply armed_later|]. done. }
  unfold queue_effect, pending in *. cbn [sys_handles]. destruct (called l (loop st)) as [[[] f]|] eqn:Ec.
  - rewrite Hw, omap_app, Hnone, app_nil_r. assert (Forall (made (queue st)) (waiting (loop st) ++ queued_by l (loop st))) as Hm'
      by (by apply Forall_app).
    destruct (call f) as [c|] eqn:Ef; [|exists (queue st); split_and!; done].
    destruct (timer_in_thread_spec c (queue st) G _ now now' Hwf Hh Har Hle2 Hd (Hok _ _ _ eq_refl Ef)) as (q' & E1 & H & Hh').
    exists q'. by split_and!.
  - rewrite Hw in Hd, Hm. apply Forall_cons in Hm as [Hmf Hm]. destruct (call f) as [c|] eqn:Ef.
    + destruct (timer_functor_spec f c (queue st) G (waiting s') now now' Hwf Hh Har Hle2 Hd Hmf Ef (Hok _ _ _ eq_refl Ef))
        as (q' & E1 & H & Hh' & Hin). exists q'. split_and!; try done. intros f' p [= <-]. apply Hin.
    + assert (adds f = None) as Hf by (unfold adds; by rewrite Ef). rewrite Hw in Hsame. cbn in Hsame. rewrite Hf in Hsame.
      exists (queue st). split_and!; try done. intros f' p [= <-]. congruence.
  - rewrite Hw, omap_app, Hnone, app_nil_r. exists (queue st). split_and!; try done. by apply Forall_app.
Qed.

(** Another thread makes a timer and queues its functor. *)
Lemma SAdd_inv st G f now p :
  sys_inv G st -> clock st <= now -> adds f = Some p -> heap (queue st) !! p = None ->
  exists st', sys_step (SAdd f now) st = Some st' /\ sys_inv (sys_handles (SAdd f now) st G) st'.
Proof using.
  intros [Hh0 Hl Hwf Har [Hnd Hd] Hm] Hle Hf Hfree. cbn [sys_handles]. unfold sys_step. unfold adds in Hf.
  destruct (call f) as [[p' cb time intv rep| |]|] eqn:Ec; try done. injection Hf as ->.
  destruct (new_Timer_spec (queue st) p cb time intv rep Hwf Hfree) as (q' & E1 & Hwf' & Ht & Hh & _). rewrite E1.
  cbn [mbind option_bind]. destruct (step body (OtherQueues f) (loop st)) as [s'|] eqn:Es; [|done].
  cbn [mbind option_bind]. eexists. split; [done|]. pose proof (step_waiting _ _ _ Es) as Hw. cbn in Hw.
  assert (p ∉ pending (loop st)) as Hp.
  { intros Hin. rewrite Forall_forall in Hd. destruct (Hd p Hin) as [[? ?] _]. congruence. }
  assert (forall p', p' ∈ pending (loop st) -> heap q' !! p' = heap (queue st) !! p') as Hkeep.
  { intros p' Hp'. rewrite Hh, lookup_insert_ne; [done|]. congruence. }
  split; cbn.
  - constructor.
    + exists (mkTimer cb time intv rep (s_counter_ (queue st))). rewrite Hh. cbn. by rewrite lookup_insert_eq.
    + apply (held_frame G (queue st)); [|done]. intros p' t Et. exists t. split_and!; try done. rewrite Hh.
      rewrite lookup_insert_ne; [done|]. intros ->. congruence.
  - by eapply inv_step.
  - done.
  - apply armed_later with (clock st); [|done]. exact (new_Timer_armed _ _ _ _ _ _ _ _ Hwf Har E1).
  - assert (adds f = Some p) as Haf by (unfold adds; by rewrite Ec).
    unfold pending. rewrite Hw, omap_app. cbn. rewrite Haf. fold (pending (loop st)). split.
    + apply NoDup_app. split; [done|]. split; [|apply NoDup_singleton].
      intros p' Hp' Hin. apply list_elem_of_singleton in Hin. congruence.
    + apply Forall_app. split; [|constructor; [|done]].
      * rewrite Forall_forall in *. intros p' Hp'. rewrite Hkeep, Ht by done. by apply Hd.
      * rewrite Hh, Ht. split; [by rewrite lookup_insert_eq|by apply fresh_not_timer].
  - rewrite Hw. apply Forall_app. split; [by eapply made_frame|]. constructor; [|done].
    unfold made. rewrite Ec. exists (s_counter_ (queue st)). by rewrite Hh, lookup_insert_eq.
Qed.

Lemma sys_step_spec l st G :
  sys_inv G st -> legal l st G -> exists st', sys_step l st = Some st' /\ sys_inv (sys_handles l st G) st'.
Proof using.
  intros Hinv Hleg. destruct l as [l now now'|f now|i].
  - pose proof Hleg as ([s' Es] & _). destruct (queue_effect_spec l st G s' now now' Hinv Hleg Es) as (q' & E1 & H & Hh & Hm & _).
    unfold sys_step. rewrite E1. cbn [mbind option_bind]. rewrite Es. cbn [mbind option_bind].
    eexists. split; [done|]. destruct Hinv as [_ Hl _ _ _ _]. destruct H as (H1 & H2 & H3 & H4). split; try done; cbn [loop queue].
    + by eapply inv_step.
    + by eapply made_frame.
  - destruct Hleg as (Hle & p & Hp & Hfree). by eapply SAdd_inv.
  - destruct Hleg as (e & He & [rep Hin]). pose proof (si_held _ _ Hinv) as Hh. unfold held in Hh. rewrite Forall_forall in Hh.
    destruct (Hh _ Hin) as (t & Et & _). cbn in Et.
    unfold sys_step, make_TimerId. rewrite He. cbn [mbind option_bind].
    rewrite Et. cbn [mbind option_bind]. eexists. split; [done|]. by destruct Hinv.
Qed.

Lemma new_system_inv now : sys_inv [] (new_system now).
Proof using.
  split; cbn.
  - constructor.
  - apply inv_init.
  - apply empty_wf.
  - done.
  - by split; constructor.
  - constructor.
Qed.

Lemma sys_run_spec ls st G :
  sys_inv G st -> legal_run ls st G -> exists st', sys_run ls st = Some st' /\ sys_inv (run_handles ls st G) st'.
Proof using.
  revert st G. induction ls as [|l ls IH]; intros st G Hinv Hleg; [by exists st|]. destruct Hleg as [Hl Hleg].
  destruct (sys_step_spec l st G Hinv Hl) as (st1 & E1 & Hinv1). destruct (IH st1 _ Hinv1 (Hleg _ E1)) as (st2 & E2 & Hinv2).
  exists st2. cbn [sys_run run_handles]. by rewrite E1.
Qed.

(** C6 Timers added, cancelled and fired while any threads use the loop, in any
    interleaving that keeps two rules: a cancellation is run by the loop, and a thread
    leaves [AddTimer], before the timer they are about, unless it repeats, has run. The
    timer queue, which has no lock, then never follows a deleted timer and stays in
    order with its timerfd armed for the earliest timer, and every handle denotes its
    timer. A timer added by another thread waits, alive and unchanged, for its functor;
    while functors wait the loop does not sleep without a wakeup on its way; and when
    the loop calls the functor the timer is in the queue. *)
Theorem timers_cross_threads (ls : list sys_label) (start : Z) :
  legal_run ls (new_system start) [] ->
  exists st, sys_run ls (new_system start) = Some st /\
    tq_wf (queue st) /\ armed (queue st) (clock st) /\ held (run_handles ls (new_system start) []) (queue st) /\
    (at_ (loop st) = Polling -> functors_ (loop st) <> [] -> signalled (loop st)) /\
    (forall f p cb time intv rep, f ∈ waiting (loop st) -> call f = Some (CAdd p cb time intv rep) ->
       (p ∉ map fst (timers_ (queue st))) /\
       (exists n, heap (queue st) !! p = Some (mkTimer cb time intv rep n)) /\
       forall rest now now', at_ (loop st) = Calling [] (f :: rest) -> clock st <= now <= now' ->
         exists st', sys_step (SLoop Owner now now') st = Some st' /\ p ∈ map fst (timers_ (queue st'))).
Proof using.
  intros Hleg. destruct (sys_run_spec ls _ [] (new_system_inv start) Hleg) as (st & E & Hinv). exists st.
  pose proof Hinv as [Hh Hl Hwf Har [_ Hd] Hm]. split_and!; try done.
  - intros Ha Hf. destruct (blocked_signalled _ _ Hl Ha (or_introl Hf)) as [?|(_ & E' & _)]; done.
  - intros f p cb time intv rep Hf Ec. assert (adds f = Some p) as Hp by (unfold adds; by rewrite Ec).
    rewrite Forall_forall in Hd. pose proof (proj1 (Forall_forall _ _) Hm f Hf) as Hmf. unfold made in Hmf. rewrite Ec in Hmf. split_and!; [|done|].
    + apply (Hd p). apply list_elem_of_omap. by exists f.
    + intros rest now now' Ha Hle.
      assert (called Owner (loop st) = Some (false, f)) as Hc by (unfold called; by rewrite Ha).
      assert (step body Owner (loop st) = Some (call_functor body (loop st) f rest)) as Es
        by (cbn; unfold StartLoop_step; by rewrite Ha).
      assert (legal (SLoop Owner now now') st (run_handles ls (new_system start) [])) as Hlo.
      { split; [by eexists|]. split; [done|]. unfold queued_by. rewrite Ha. split; [done|].
        intros b g c. rewrite Hc. intros [= <- <-]. rewrite Ec. by intros [= <-]. }
      destruct (queue_effect_spec Owner st _ _ now now' Hinv Hlo Es) as (q' & E1 & _ & _ & _ & Hin).
      exists (mkSystem (call_functor body (loop st) f rest) q' now' (returning st)). split; [|by eapply Hin].
      unfold sys_step. rewrite E1. cbn [mbind option_bind]. by rewrite Es.
Qed.
End system.

(** ** Examples *)

(** Functor 0 adds a timer for 2000 microseconds, functor 1 is the callback of the
    timerfd. *)
Definition demo_calls (f : functor) : option timer_call :=
  match f with
  | O => Some (RunAt 1%positive 7%nat (mkTimeStamp 2000))
  | S O => Some CFire
  | _ => None
  end.
Definition no_acts (_ : functor) : list act := [].
Definition no_callbacks (_ : nat) : list timer_action := [].
Definition same_bucket (_ : Z) (_ : TimerEntry) : Z := 0.

(** The loop blocks; a thread adds the timer, the loop adds it to its queue and
    blocks again; the timerfd expires and the timer runs. *)
Definition add_and_fire : list sys_label :=
  [SLoop Owner 1000 1000; SAdd 0%nat 1000; SLoop OtherWakes 1010 1010; SLoop (PollReturns [EvChannel]) 1020 1020;
   SLoop Owner 1030 1030; SLoop Owner 1030 1030; SLoop Owner 1040 1040; SLoop Owner 1050 1050;
   SLoop (PollReturns [UserChannel [ARun 1%nat]]) 2100 2100; SLoop Owner 2110 2110; SLoop Owner 2110 2120].

(** A step of a concrete run is legal, and the state after it. *)
Ltac legal_call :=
  let E1 := fresh in let E2 := fresh in
  intros ? ? ? E1 E2; vm_compute in E1; try discriminate E1; injection E1 as <- <-;
  vm_compute in E2; try discriminate E2; injection E2 as <-;
  first [discriminate
        | split; [vm_compute; reflexivity|]; intros ? ? E1; vm_compute in E1; injection E1 as <- <-;
          cbn [timers_legal]; repeat (intros ? ?; split; [exact I|]; intros ? ?); exact I].
Ltac legal_step :=
  split;
  [ lazymatch goal with
    | |- legal _ _ _ _ (SLoop _ _ _) _ _ =>
      split; [eexists; vm_compute; reflexivity|]; split; [cbn; lia|];
      split; [vm_compute; apply Forall_nil_2|]; legal_call
    | |- legal _ _ _ _ (SAdd _ _) _ _ => split; [cbn; lia|]; eexists; split; reflexivity
    | |- _ => eexists; split; [reflexivity|]; eexists; vm_compute; left
    end
  | let E := fresh in intros ? E; vm_compute in E; injection E as <- ].

(** The thread leaves [AddTimer] before its timer has run. *)
Lemma timers_cross_threads_witness :
  let ls := take 3 add_and_fire ++ [SReturn 0] ++ drop 3 add_and_fire in
  exists st, sys_run no_acts demo_calls no_callbacks same_bucket ls (new_system 1000) = Some st /\
    tq_wf (queue st) /\ armed (queue st) (clock st) /\
    held (run_handles no_acts demo_calls no_callbacks same_bucket ls (new_system 1000) []) (queue st) /\
    (at_ (loop st) = Polling -> functors_ (loop st) <> [] -> signalled (loop st)) /\
    (forall f p cb time intv rep, f ∈ waiting (loop st) -> demo_calls f = Some (CAdd p cb time intv rep) ->
       (p ∉ map fst (timers_ (queue st))) /\
       (exists n, heap (queue st) !! p = Some (mkTimer cb time intv rep n)) /\
       forall rest now now', at_ (loop st) = Calling [] (f :: rest) -> clock st <= now <= now' ->
         exists st', sys_step no_acts demo_calls no_callbacks same_bucket (SLoop Owner now now') st = Some st' /\
           p ∈ map fst (timers_ (queue st'))).
Proof.
  apply (timers_cross_threads no_acts demo_calls no_callbacks same_bucket). cbn [take drop app add_and_fire legal_run].
  do 12 legal_step. exact I.
Defined.

(** ** Defects *)

(** A thread that is still in [AddTimer] when its timer has run reads the deleted
    timer for the [TimerId]. *)
Lemma TimerId_of_deleted :
  (st ← sys_run no_acts demo_calls no_callbacks same_bucket add_and_fire (new_system 1000);
   Some (returning st, heap (queue st) !! 1%positive)) = Some ([(1%positive, 0)], None) /\
  sys_run no_acts demo_calls no_callbacks same_bucket (add_and_fire ++ [SReturn 0]) (new_system 1000) = None.
Proof. split; vm_compute; reflexivity. Qed.
