(* ===== verification/Logger.v ===== *)
(** * Logger: kanon/log/logger.{h,cc}, kanon/thread/current_thread.h

    A log statement builds a [Logger] on the stack, which writes a prefix into
    its stream, takes the user's items and hands the line to the output callback
    when it is destroyed.  The text of the current second is cached per thread.
    The clock, the calendar and [strerror_r] are arguments. *)

From Stdlib Require Import ZArith Lia.
From S2P Require Import Prelude StringView FixedBuffer TimeStamp.

(** ** Levels *)

Inductive LogLevel :=
  | KANON_LL_TRACE | KANON_LL_DEBUG | KANON_LL_INFO | KANON_LL_WARN | KANON_LL_ERROR
  | KANON_LL_SYS_ERROR | KANON_LL_FATAL | KANON_LL_SYS_FATAL | KANON_LL_NUM_LOG_LEVEL | KANON_LL_OFF.

#[export] Instance LogLevel_eq_dec : EqDecision LogLevel.
Proof. solve_decision. Defined.

(** The values of the enumerators. *)
Definition level_value (l : LogLevel) : nat :=
  match l with
  | KANON_LL_TRACE => 0 | KANON_LL_DEBUG => 1 | KANON_LL_INFO => 2 | KANON_LL_WARN => 3 | KANON_LL_ERROR => 4
  | KANON_LL_SYS_ERROR => 5 | KANON_LL_FATAL => 6 | KANON_LL_SYS_FATAL => 7 | KANON_LL_NUM_LOG_LEVEL => 8
  | KANON_LL_OFF => 9
  end.

Definition s_log_level_names_ : list (list byte) :=
  [str "TRACE"; str "DEBUG"; str "INFO"; str "WARN"; str "ERROR"; str "SYS_ERROR"; str "FATAL"; str "SYS_FATAL"].

Definition NONE : list byte := x1b :: str "[0m".
Definition RED : list byte := x1b :: str "[0;31m".
Definition L_RED : list byte := x1b :: str "[1;31m".
Definition GREEN : list byte := x1b :: str "[0;32m".
Definition YELLOW : list byte := x1b :: str "[1;33m".
Definition BLUE : list byte := x1b :: str "[0;34m".
Definition CYAN : list byte := x1b :: str "[0;36m".

Definition g_logLevelColor : list (list byte) := [CYAN; BLUE; GREEN; YELLOW; RED; L_RED; RED; L_RED].

(** [!StrCaseCompare(a, b)] *)
Definition to_lower (c : byte) : byte :=
  let v := byte_to_Z c in if (65 <=? v) && (v <=? 90) then Z_to_byte (v + 32) else c.
Definition same_ignoring_case (a b : list byte) : bool := bool_decide (map to_lower a = map to_lower b).

(** The initial level and [g_kanon_log], from the environment. *)
Definition initLogLevel (g_all_log g_kanon_log : bool) (getenv : list byte -> option (list byte)) : LogLevel * bool :=
  if negb g_all_log then (KANON_LL_OFF, g_kanon_log)
  else
    let g_kanon_log :=
      match getenv (str "KANON_LOG_ENABLE") with
      | Some log_enable => if same_ignoring_case log_enable (str "0") then false else g_kanon_log
      | None => g_kanon_log
      end in
    match getenv (str "KANON_LOG") with
    | None => (KANON_LL_INFO, g_kanon_log)
    | Some log_level =>
      let matches s := same_ignoring_case log_level (str s) in
      (if matches "trace"%string then KANON_LL_TRACE
       else if matches "debug"%string then KANON_LL_DEBUG
       else if matches "warn"%string || matches "warning"%string then KANON_LL_WARN
       else if matches "error"%string then KANON_LL_ERROR
       else if matches "fatal"%string then KANON_LL_FATAL
       else if matches "off"%string then KANON_LL_OFF
       else KANON_LL_INFO, g_kanon_log)
    end.

(** The guard of the [LOG_...] macros: the two fatal ones have none. *)
Definition log_guard (log_level_ level : LogLevel) : bool :=
  match level with
  | KANON_LL_FATAL | KANON_LL_SYS_FATAL => true
  | _ => (level_value log_level_ <=? level_value level)%nat
  end.

(** ** Thread-local state *)

Record thread_log := mkThreadLog {
  t_lastSecond : Z;
  t_timebuf : list byte;
  t_tid : Z;
  t_tidString : list byte;
  t_tidLength : Z;
  t_name : option (list byte);
  t_errorBuf : list byte;
}.

Definition ERRNO_BUFFER_SIZE : Z := 1124.

Definition new_thread (name : option (list byte)) : thread_log :=
  mkThreadLog 0 (repeat x00 64) 0 (repeat x00 32) 0 name (repeat x00 (Z.to_nat ERRNO_BUFFER_SIZE)).

(** The string at the start of an array. *)
Fixpoint cstr (l : list byte) : list byte :=
  match l with
  | [] => []
  | c :: l => if decide (c = x00) then [] else c :: cstr l
  end.

Definition LOG_SZ : Z := kSmallStreamSize.

(** [SourceFile]'s constructor: the part behind the last slash. *)
Definition basename_ (fullname : list byte) : option (list byte) :=
  let v := view_of fullname in
  pos ← rfind_char v "/"%byte npos;
  if negb (pos =? npos) then
    pos' ← rfind_char v "/"%byte npos;
    StringView.ToString (substr v (pos' + 1) npos)
  else StringView.ToString v.

Section logger.
(** [strerror_r] is what the function leaves in the array it is given: the POSIX one
    writes the text of the error there, the GNU one may leave the array as it is and
    return the text elsewhere. *)
Context (localtime : Z -> tm) (strerror_r : Z -> list byte -> list byte) (gettid : Z) (need_color_ : bool).

(** ["%04d%02d%02d:%02d%02d%02d.%06d"] *)
Definition second_text (tm : tm) : list byte :=
  decimal0 4 (tm_year tm + 1900) ++ decimal0 2 (tm_mon tm + 1) ++ decimal0 2 (tm_mday tm) ++ str ":" ++
  decimal0 2 (tm_hour tm) ++ decimal0 2 (tm_min tm) ++ decimal0 2 (tm_sec tm) ++ str ".".

Definition FormatTime (t : thread_log) (stream_ : FixedBuffer) (tv_sec tv_usec : Z)
  : option (thread_log * FixedBuffer) :=
  if negb (tv_sec =? t_lastSecond t) then
    let tm := localtime tv_sec in
    buf ← mem_write (t_timebuf t) 0 (snprintf 64 (second_text tm ++ decimal0 6 tv_usec) ++ [x00]);
    assert! (zlen (cstr buf) =? 22);
    stream_ ← puts LOG_SZ stream_ [IString (cstr buf); IString (str " ")];
    Some (mkThreadLog tv_sec buf (t_tid t) (t_tidString t) (t_tidLength t) (t_name t) (t_errorBuf t), stream_)
  else
    sv ← mem_read (t_timebuf t) 0 16;
    stream_ ← put LOG_SZ stream_ (IString sv);
    stream_ ← put LOG_SZ stream_ (IString (snprintf 32 (decimal0 6 tv_usec)));
    stream_ ← put LOG_SZ stream_ (IChar " "%byte);
    Some (t, stream_).

Definition cacheTid (t : thread_log) : option thread_log :=
  let txt := decimal gettid in
  buf ← mem_write (t_tidString t) 0 txt;
  Some (mkThreadLog (t_lastSecond t) (t_timebuf t) gettid buf (zlen txt) (t_name t) (t_errorBuf t)).

Definition tid (t : thread_log) : option thread_log := if t_tid t =? 0 then cacheTid t else Some t.

(** The constructor that the others forward to; [garbage] is what the stream's
    array held before. *)
Definition make_Logger (t : thread_log) (level : LogLevel) (tv_sec tv_usec : Z) (garbage : list byte)
  : option (thread_log * FixedBuffer) :=
  '(t, stream_) ← FormatTime t (make_FixedBuffer garbage) tv_sec tv_usec;
  t ← tid t;
  id ← mem_read (t_tidString t) 0 (t_tidLength t);
  name ← s_log_level_names_ !! level_value level;
  color ← g_logLevelColor !! level_value level;
  stream_ ← puts LOG_SZ stream_ [IString id; IString (str " ")];
  stream_ ← (match t_name t with
             | Some n => puts LOG_SZ stream_ [IString n; IString (str " ")]
             | None => puts LOG_SZ stream_ [IString (str "Unnamed ")]
             end);
  stream_ ← (if need_color_
             then puts LOG_SZ stream_ [IString color; IString (str "["); IString name; IString (str "]");
                                       IString NONE; IString (str " ")]
             else puts LOG_SZ stream_ [IString (str "["); IString name; IString (str "] ")]);
  Some (t, stream_).

(** With the name of the function, for [LOG_TRACE] and [LOG_DEBUG]. *)
Definition make_Logger_func (t : thread_log) (level : LogLevel) (tv_sec tv_usec : Z) (garbage func : list byte)
  : option (thread_log * FixedBuffer) :=
  '(t, stream_) ← make_Logger t level tv_sec tv_usec garbage;
  stream_ ← puts LOG_SZ stream_ [IString func; IString (str "() ")];
  Some (t, stream_).

(** The text in the array of the thread; what [strerror_r] returns is not used. *)
Definition strerror_tl (t : thread_log) (savedErrno : Z) : thread_log * list byte :=
  let buf := strerror_r savedErrno (t_errorBuf t) in
  (mkThreadLog (t_lastSecond t) (t_timebuf t) (t_tid t) (t_tidString t) (t_tidLength t) (t_name t) buf, cstr buf).

(** ["errno: %d, errmsg: %s"] in [ERRNO_BUFFER_SIZE] bytes. *)
Definition errno_text (errno : Z) (errmsg : list byte) : list byte :=
  snprintf ERRNO_BUFFER_SIZE (str "errno: " ++ decimal errno ++ str ", errmsg: " ++ errmsg).

(** With [errno]; without an error [error_buf] is read uninitialised. *)
Definition make_Logger_sys (t : thread_log) (level : LogLevel) (tv_sec tv_usec : Z) (garbage : list byte) (errno : Z)
  : option (thread_log * FixedBuffer) :=
  '(t, stream_) ← make_Logger t level tv_sec tv_usec garbage;
  '(t, error_buf) ← (if negb (errno =? 0)
                     then let '(t, errmsg) := strerror_tl t errno in Some (t, errno_text errno errmsg)
                     else None);
  stream_ ← puts LOG_SZ stream_ [IString error_buf; IString (str " ")];
  Some (t, stream_).

Inductive log_event := Output (line : list byte) | Flush | Abort.

Definition fatal (level : LogLevel) : bool :=
  match level with KANON_LL_FATAL | KANON_LL_SYS_FATAL => true | _ => false end.

(** The destructor. *)
Definition destroy_Logger (stream_ : FixedBuffer) (basename : list byte) (line_ : Z) (cur_log_level_ : LogLevel)
  : option (list log_event) :=
  stream_ ← puts LOG_SZ stream_ [IString (str " - "); IString basename; IString (str ":"); IInt line_;
                                 IString (str (String (Ascii.ascii_of_nat 10) EmptyString))];
  line ← ToStringView stream_;
  Some (Output line :: if fatal cur_log_level_ then [Flush; Abort] else []).

(** ** A log statement *)

Record statement := mkStatement {
  st_level : LogLevel;
  st_file : list byte;
  st_line : Z;
  st_func : list byte;
  st_items : list item;
  st_sec : Z;
  st_usec : Z;
  st_errno : Z;
  st_garbage : list byte;
}.

(** [LOG_<level> << items;] *)
Definition log_statement (log_level_ : LogLevel) (t : thread_log) (s : statement)
  : option (thread_log * list log_event) :=
  let level := st_level s in
  if log_guard log_level_ level then
    basename ← basename_ (st_file s);
    '(t, stream_) ←
      (match level with
       | KANON_LL_TRACE | KANON_LL_DEBUG =>
         make_Logger_func t level (st_sec s) (st_usec s) (st_garbage s) (st_func s)
       | KANON_LL_SYS_ERROR | KANON_LL_SYS_FATAL =>
         make_Logger_sys t level (st_sec s) (st_usec s) (st_garbage s) (st_errno s)
       | _ => make_Logger t level (st_sec s) (st_usec s) (st_garbage s)
       end);
    stream_ ← puts LOG_SZ stream_ (st_items s);
    evs ← destroy_Logger stream_ basename (st_line s) level;
    Some (t, evs)
  else Some (t, []).

(** The statements of a thread, up to the first fatal one. *)
Fixpoint log_statements (log_level_ : LogLevel) (t : thread_log) (ss : list statement)
  : option (list log_event) :=
  match ss with
  | [] => Some []
  | s :: ss =>
    '(t, evs) ← log_statement log_level_ t s;
    if fatal (st_level s) then Some evs
    else rest ← log_statements log_level_ t ss; Some (evs ++ rest)
  end.

End logger.

(** ** Reference: the lines of a thread *)

(** The part of a path behind its last slash. *)
Definition spec_basename (path : list byte) : list byte :=
  foldl (fun acc x => if decide (x = "/"%byte) then [] else acc ++ [x]) [] path.

Section lines.
Context (localtime : Z -> tm) (strerror_r : Z -> list byte -> list byte) (gettid : Z) (need_color_ : bool).
Context (name : option (list byte)).

(** Date and time, without any cache. *)
Definition time_text (sec usec : Z) : list byte := second_text (localtime sec) ++ decimal0 6 usec ++ str " ".

Definition prefix_items (level : LogLevel) : list item :=
  let lname := default [] (s_log_level_names_ !! level_value level) in
  [IString (decimal gettid); IString (str " ")] ++
  (match name with Some n => [IString n; IString (str " ")] | None => [IString (str "Unnamed ")] end) ++
  (if need_color_ then
     [IString (default [] (g_logLevelColor !! level_value level)); IString (str "["); IString lname; IString (str "]");
      IString NONE; IString (str " ")]
   else [IString (str "["); IString lname; IString (str "] ")]).

(** [errors] is the thread's array for the texts of errors, [error_array] what a
    statement leaves in it. *)
Definition has_errno (l : LogLevel) : bool :=
  match l with KANON_LL_SYS_ERROR | KANON_LL_SYS_FATAL => true | _ => false end.

Definition error_array (log_level_ : LogLevel) (errors : list byte) (s : statement) : list byte :=
  if log_guard log_level_ (st_level s) && has_errno (st_level s) then strerror_r (st_errno s) errors else errors.

Definition extra_items (errors : list byte) (s : statement) : list item :=
  match st_level s with
  | KANON_LL_TRACE | KANON_LL_DEBUG => [IString (st_func s); IString (str "() ")]
  | KANON_LL_SYS_ERROR | KANON_LL_SYS_FATAL =>
    [IString (errno_text (st_errno s) (cstr (strerror_r (st_errno s) errors))); IString (str " ")]
  | _ => []
  end.

Definition trailer_items (s : statement) : list item :=
  [IString (str " - "); IString (spec_basename (st_file s)); IString (str ":"); IInt (st_line s);
   IString (str (String (Ascii.ascii_of_nat 10) EmptyString))].

(** All that a statement streams behind the time. *)
Definition statement_items (errors : list byte) (s : statement) : list item :=
  prefix_items (st_level s) ++ extra_items errors s ++ st_items s ++ trailer_items s.

Definition spec_statement (log_level_ : LogLevel) (errors : list byte) (s : statement) : option (list log_event) :=
  if log_guard log_level_ (st_level s) then
    line ← spec_puts LOG_SZ (time_text (st_sec s) (st_usec s)) (statement_items errors s);
    Some (Output line :: if fatal (st_level s) then [Flush; Abort] else [])
  else Some [].

Fixpoint spec_statements (log_level_ : LogLevel) (errors : list byte) (ss : list statement) : option (list log_event) :=
  match ss with
  | [] => Some []
  | s :: ss =>
    evs ← spec_statement log_level_ errors s;
    if fatal (st_level s) then Some evs
    else rest ← spec_statements log_level_ (error_array log_level_ errors s) ss; Some (evs ++ rest)
  end.

Definition is_pointer (it : item) : bool := match it with IPointer _ => true | _ => false end.

(** The ranges of the fields that [localtime] documents, up to the year 9999. *)
Definition tm_ok (tm : tm) : Prop :=
  0 <= tm_year tm + 1900 <= 9999 /\ 0 <= tm_mon tm <= 11 /\ 1 <= tm_mday tm <= 31 /\
  0 <= tm_hour tm <= 23 /\ 0 <= tm_min tm <= 59 /\ 0 <= tm_sec tm <= 60.

Record statement_ok (s : statement) : Prop := {
  ok_level : (level_value (st_level s) < 8)%nat;
  ok_file : st_file s <> [] /\ zlen (st_file s) < 2 ^ 32;
  ok_line : 0 <= st_line s < 2 ^ 64;
  ok_func : zlen (st_func s) < 2 ^ 32;
  ok_items : Forall item_ok (st_items s);
  ok_sec : st_sec s <> 0 /\ tm_ok (localtime (st_sec s));
  ok_usec : 0 <= st_usec s < 1000000;
  ok_errno : has_errno (st_level s) = true -> st_errno s <> 0;
  ok_garbage : zlen (st_garbage s) = LOG_SZ;
}.

(** The caches hold what they would be filled with. *)
Record thread_ok (errors : list byte) (t : thread_log) : Prop := {
  th_timebuf : zlen (t_timebuf t) = 64;
  th_second : t_lastSecond t <> 0 -> slice 0 16 (t_timebuf t) = second_text (localtime (t_lastSecond t));
  th_tidbuf : zlen (t_tidString t) = 32;
  th_tid : t_tid t <> 0 -> mem_read (t_tidString t) 0 (t_tidLength t) = Some (decimal gettid);
  th_name : t_name t = name;
  th_errors : t_errorBuf t = errors;
}.

End lines.

(** ** Texts of numbers *)

(** Between one digit and as many as the bound has. *)
Lemma decimal_spec n w :
  0 <= n < 10 ^ Z.of_nat w -> (0 < w <= 20)%nat ->
  exists ds, decimal n = rev (map digit_of ds) /\ Forall (fun d => 0 <= d <= 9) ds /\ (1 <= length ds <= w)%nat.
Proof.
  intros Hn Hw. unfold decimal, int2Str, int2Str_fuel.
  assert (10 ^ Z.of_nat w <= 10 ^ 20) by (apply Z.pow_le_mono_r; lia).
  destruct (int2Str_loop_spec 20 n) as (ds & -> & Hds & Hv & Hlen & d & Hd & Hz); [lia|lia|].
  cbn [mbind option_bind from_option]. rewrite (proj2 (Z.ltb_ge _ _)) by lia. exists ds.
  split; [done|]. split; [done|]. split; [destruct ds; [done|cbn; lia]|].
  destruct (decide (d = 0)) as [E|E]; [apply Hz in E as [_ ->]; cbn; lia|].
  pose proof (le_value_lower ds d Hds Hd E) as Hl. rewrite Hv, Z.abs_eq in Hl by lia.
  assert (zlen ds - 1 < Z.of_nat w); [|unfold zlen in *; lia].
  apply (Z.pow_lt_mono_r_iff 10); lia.
Qed.

Definition no_nul (l : list byte) : Prop := Forall (fun c => c <> x00) l.

Lemma digit_of_nonnul d : 0 <= d <= 9 -> digit_of d <> x00.
Proof. intros Hd E. apply (f_equal digit_value) in E. rewrite digit_value_of in E by done. by vm_compute in E. Qed.

(** [%0wd] of a number of at most [w] digits has [w] characters. *)
Lemma decimal0_spec w n :
  0 <= n < 10 ^ Z.of_nat w -> (0 < w <= 20)%nat -> zlen (decimal0 w n) = Z.of_nat w /\ no_nul (decimal0 w n).
Proof.
  intros Hn Hw. destruct (decimal_spec n w Hn Hw) as (ds & E & Hds & Hl).
  unfold decimal0. rewrite Z.abs_eq, E by lia. rewrite (proj2 (Z.ltb_ge _ _)) by lia. cbn [app length].
  split.
  - unfold zlen. rewrite length_app, repeat_length, length_rev, length_map. lia.
  - apply Forall_app. split; [|apply Forall_rev, Forall_map].
    { apply Forall_forall. intros c Hc. by apply list_elem_of_In, repeat_spec in Hc as ->. }
    eapply Forall_impl; [exact Hds|]. apply digit_of_nonnul.
Qed.

Lemma second_text_spec tm : tm_ok tm -> zlen (second_text tm) = 16 /\ no_nul (second_text tm).
Proof.
  intros (Hy & Hm & Hd & Hh & Hmi & Hs). unfold second_text.
  destruct (decimal0_spec 4 (tm_year tm + 1900)) as [L1 N1]; [change (10 ^ Z.of_nat 4) with 10000; lia|lia|].
  destruct (decimal0_spec 2 (tm_mon tm + 1)) as [L2 N2]; [change (10 ^ Z.of_nat 2) with 100; lia|lia|].
  destruct (decimal0_spec 2 (tm_mday tm)) as [L3 N3]; [change (10 ^ Z.of_nat 2) with 100; lia|lia|].
  destruct (decimal0_spec 2 (tm_hour tm)) as [L4 N4]; [change (10 ^ Z.of_nat 2) with 100; lia|lia|].
  destruct (decimal0_spec 2 (tm_min tm)) as [L5 N5]; [change (10 ^ Z.of_nat 2) with 100; lia|lia|].
  destruct (decimal0_spec 2 (tm_sec tm)) as [L6 N6]; [change (10 ^ Z.of_nat 2) with 100; lia|lia|].
  split; [rewrite !zlen_app, L1, L2, L3, L4, L5, L6; done|].
  unfold no_nul in *. rewrite !Forall_app. split_and!; try done; by repeat constructor.
Qed.

Section refinement.
Context (localtime : Z -> tm) (strerror_r : Z -> list byte -> list byte) (gettid : Z) (need_color_ : bool).
Context (name : option (list byte)).
Hypothesis Htid : 0 < gettid < 2 ^ 31.
Hypothesis Hname : match name with Some n => zlen n < 2 ^ 32 | None => True end.

Abbreviation thread_ok := (thread_ok localtime gettid name).

Lemma cstr_app txt rest : no_nul txt -> cstr (txt ++ x00 :: rest) = txt.
Proof.
  induction 1 as [|c txt Hc _ IH]; cbn [app cstr]; [by rewrite decide_True|]. rewrite decide_False by done. by f_equal.
Qed.

Lemma overwrite_0 (ys l : list byte) : overwrite 0 ys l = ys ++ drop (length ys) l.
Proof. done. Qed.

Lemma empty_stream garbage :
  zlen garbage = LOG_SZ -> fb_wf LOG_SZ (make_FixedBuffer garbage) /\ contents (make_FixedBuffer garbage) = [].
Proof. intros E. split; [split; cbn; [done|unfold LOG_SZ, kSmallStreamSize; lia]|apply slice_0]. Qed.

Ltac log_room := rewrite ?zlen_nil; change (zlen (str " ")) with 1; change LOG_SZ with 4096; lia.

Lemma put_string b s :
  fb_wf LOG_SZ b -> zlen (contents b) + zlen s < LOG_SZ ->
  exists b', put LOG_SZ b (IString s) = Some b' /\ fb_wf LOG_SZ b' /\ contents b' = contents b ++ s.
Proof.
  intros Hwf Hl. rewrite (contents_zlen LOG_SZ) in Hl by done.
  destruct (FixedBuffer_Append_spec LOG_SZ ltac:(unfold LOG_SZ, kSmallStreamSize; lia) b s) as (b' & E & Hwf' & Hc & _);
    [done|lia|]. by exists b'.
Qed.

(** Cached or not, the time written is the same, and the cache stays right. *)
Lemma FormatTime_spec errors t garbage sec usec :
  thread_ok errors t -> zlen garbage = LOG_SZ -> sec <> 0 -> tm_ok (localtime sec) -> 0 <= usec < 1000000 ->
  exists t' b, FormatTime localtime t (make_FixedBuffer garbage) sec usec = Some (t', b) /\
    thread_ok errors t' /\ fb_wf LOG_SZ b /\ contents b = time_text localtime sec usec.
Proof.
  intros [T1 T2 T3 T4 T5 T6] Hg Hs Htm Hu. destruct (empty_stream garbage Hg) as [W0 C0].
  destruct (second_text_spec _ Htm) as [L1 N1].
  destruct (decimal0_spec 6 usec) as [L2 N2]; [change (10 ^ Z.of_nat 6) with 1000000; lia|lia|].
  change (Z.of_nat 6) with 6 in L2. unfold FormatTime, time_text.
  destruct (Z.eqb_spec sec (t_lastSecond t)) as [E|E]; cbn [negb].
  - rewrite mem_read_ok by lia. cbn [mbind option_bind]. rewrite T2, <- E by (by rewrite <- E).
    destruct (put_string _ (second_text (localtime sec)) W0) as (b1 & -> & W1 & C1);
      [rewrite C0, L1; log_room|]. cbn [mbind option_bind].
    assert (snprintf 32 (decimal0 6 usec) = decimal0 6 usec) as ->.
    { unfold snprintf. apply firstn_all2. unfold zlen in L2. lia. }
    destruct (put_string b1 (decimal0 6 usec) W1) as (b2 & -> & W2 & C2);
      [rewrite C1, C0, zlen_app, L1, L2; log_room|]. cbn [mbind option_bind].
    destruct (put_string b2 (str " ") W2) as (b3 & E3 & W3 & C3);
      [rewrite C2, C1, C0, !zlen_app, L1, L2; log_room|].
    change (put LOG_SZ b2 (IChar " "%byte)) with (put LOG_SZ b2 (IString (str " "))). rewrite E3. cbn [mbind option_bind].
    exists t, b3. split_and!; [done|by split|done|]. rewrite C3, C2, C1, C0. by rewrite <- app_assoc.
  - assert (snprintf 64 (second_text (localtime sec) ++ decimal0 6 usec) = second_text (localtime sec) ++ decimal0 6 usec) as ->.
    { unfold snprintf. apply firstn_all2. rewrite length_app. unfold zlen in *. lia. }
    set (txt := second_text (localtime sec) ++ decimal0 6 usec).
    assert (zlen txt = 22) as Lt by (unfold txt; rewrite zlen_app; lia).
    assert (zlen (txt ++ [x00]) = 23) as Lt' by (rewrite zlen_app, Lt; done).
    rewrite mem_write_ok by lia. cbn [mbind option_bind]. rewrite overwrite_0, <- app_assoc.
    cbn [app]. rewrite cstr_app by (unfold txt; by apply Forall_app). rewrite check_bind_true by lia.
    cbn [puts]. destruct (put_string _ txt W0) as (b1 & -> & W1 & C1);
      [rewrite C0, Lt; log_room|]. cbn [mbind option_bind].
    destruct (put_string b1 (str " ") W1) as (b2 & -> & W2 & C2);
      [rewrite C1, C0, zlen_app, Lt; log_room|]. cbn [mbind option_bind].
    eexists _, b2. split_and!; [done| |done|].
    + split; cbn [t_timebuf t_lastSecond t_tidString t_tid t_tidLength t_name t_errorBuf]; try done.
      * rewrite zlen_app, zlen_cons, Lt. unfold zlen in *. rewrite length_drop. lia.
      * intros _. unfold slice. cbn [Z.to_nat drop]. unfold txt. rewrite <- app_assoc.
        apply take_app_length'. unfold zlen in L1. lia.
    + rewrite C2, C1, C0. unfold txt. cbn [app]. by rewrite <- app_assoc.
Qed.

Lemma decimal_tid : zlen (decimal gettid) <= 10.
Proof.
  destruct (decimal_spec gettid 10) as (ds & -> & _ & Hl); [change (10 ^ Z.of_nat 10) with 10000000000; lia|lia|].
  unfold zlen. rewrite length_rev, length_map. lia.
Qed.

Lemma tid_spec errors t :
  thread_ok errors t -> exists t', tid gettid t = Some t' /\ thread_ok errors t' /\
    mem_read (t_tidString t') 0 (t_tidLength t') = Some (decimal gettid).
Proof.
  intros [T1 T2 T3 T4 T5 T6]. unfold tid, cacheTid. pose proof decimal_tid. pose proof (zlen_nonneg (decimal gettid)).
  destruct (Z.eqb_spec (t_tid t) 0) as [E|E]; [|exists t; split_and!; [done|by split|by apply T4]].
  rewrite mem_write_ok by lia. cbn [mbind option_bind].
  assert (mem_read (overwrite 0 (decimal gettid) (t_tidString t)) 0 (zlen (decimal gettid)) = Some (decimal gettid)) as Er.
  { rewrite mem_read_ok by (rewrite ?zlen_overwrite; lia). by rewrite slice_overwrite_eq by lia. }
  eexists. split_and!; [done| |exact Er]. split; try done. cbn [t_tidString]. rewrite zlen_overwrite; lia.
Qed.

Lemma level_texts level : (level_value level < 8)%nat ->
  exists n c, s_log_level_names_ !! level_value level = Some n /\ g_logLevelColor !! level_value level = Some c /\
    zlen n <= 9 /\ zlen c <= 7.
Proof. intros Hl. destruct level; cbn in Hl; try lia; eexists _, _; split_and!; done. Qed.

(** The constructor streams the time and the prefix. *)
Lemma make_Logger_eq errors t level sec usec garbage :
  thread_ok errors t -> (level_value level < 8)%nat -> zlen garbage = LOG_SZ -> sec <> 0 -> tm_ok (localtime sec) ->
  0 <= usec < 1000000 ->
  exists t' b, thread_ok errors t' /\ fb_wf LOG_SZ b /\ contents b = time_text localtime sec usec /\
    make_Logger localtime gettid need_color_ t level sec usec garbage =
    (stream_ ← puts LOG_SZ b (prefix_items gettid need_color_ name level); Some (t', stream_)).
Proof.
  intros Ht Hl Hg Hs Htm Hu. unfold make_Logger, prefix_items.
  destruct (FormatTime_spec errors t garbage sec usec) as (t1 & b & -> & Ht1 & Hwf & Hc); try done. cbn [mbind option_bind].
  destruct (tid_spec errors t1 Ht1) as (t2 & -> & Ht2 & Er). cbn [mbind option_bind]. rewrite Er. cbn [mbind option_bind].
  destruct (level_texts level Hl) as (n & c & -> & -> & _). cbn [mbind option_bind from_option].
  exists t2, b. split_and!; try done. rewrite (th_name _ _ _ _ _ Ht2). rewrite puts_app.
  destruct (puts LOG_SZ b _) as [b1|]; [|done]. cbn [mbind option_bind]. rewrite puts_app.
  destruct name as [nm|]; (destruct (puts LOG_SZ b1 _) as [b2|]; [|done]); cbn [mbind option_bind]; by destruct need_color_.
Qed.

Lemma foldl_no_slash acc l : Forall (fun x => x <> "/"%byte) l ->
  foldl (fun acc x => if decide (x = "/"%byte) then [] else acc ++ [x]) acc l = acc ++ l.
Proof.
  intros Hl. revert acc. induction Hl as [|x l Hx _ IH]; intros acc; cbn; [by rewrite app_nil_r|].
  rewrite decide_False by done. rewrite IH. by rewrite <- app_assoc.
Qed.

Lemma spec_basename_cut a b : Forall (fun x => x <> "/"%byte) b -> spec_basename (a ++ "/"%byte :: b) = b.
Proof.
  intros Hb. unfold spec_basename. rewrite foldl_app. cbn [foldl]. rewrite decide_True by done.
  by rewrite foldl_no_slash.
Qed.

Lemma basename_spec f : f <> [] -> zlen f < 2 ^ 63 -> basename_ f = Some (spec_basename f).
Proof.
  intros Hne Hl. pose proof (view_of_wf f Hl) as Hv. pose proof (content_view_of f) as Hcv.
  assert (0 < zlen f) as Hpos by (destruct f; [done|rewrite zlen_cons; pose proof (zlen_nonneg f); lia]).
  assert (exists r, rfind_char (view_of f) "/"%byte npos = Some r /\
    last_in (fun i => f !! Z.to_nat i = Some "/"%byte) 0 (zlen f - 1) r) as (r & Er & Hr).
  { unfold rfind_char, npos, npos64. change (StringView.len_ (view_of f)) with (zlen f). rewrite u64_id, Z.min_l by lia.
    apply scan_down_spec; [unfold down_fuel, zlen in *; cbn [block view_of]; lia|].
    intros i Hi. destruct (sv_at_Some (view_of f) i Hv) as (x & -> & Hx); [cbn; lia|]. rewrite Hcv in Hx.
    cbn [mbind option_bind]. eexists. split; [done|]. rewrite bool_decide_eq_true, Hx. split; [by intros ->|by intros [=]]. }
  unfold basename_. rewrite Er. cbn [mbind option_bind]. destruct Hr as [[-> Hn]|(Hr & Hat & Hn)].
  - rewrite Z.eqb_refl. cbn [negb]. rewrite ToString_content, Hcv by done. f_equal. unfold spec_basename.
    rewrite foldl_no_slash; [done|]. apply Forall_lookup. intros i x Hx ->.
    apply (Hn (Z.of_nat i)); [pose proof (lookup_lt_Some _ _ _ Hx); unfold zlen; lia|by rewrite Nat2Z.id].
  - rewrite (proj2 (Z.eqb_neq _ _)) by (unfold npos, npos64; lia). cbn [negb mbind option_bind].
    destruct (substr_wf (view_of f) (r + 1) npos Hv) as [Hsw Hsc]; [cbn; lia|unfold npos, npos64; lia|].
    rewrite ToString_content, Hsc, Hcv by done. f_equal. change (StringView.len_ (view_of f)) with (zlen f).
    rewrite Z.min_r by (unfold npos, npos64; lia). rewrite <- drop_slice_eq by lia.
    rewrite <- (take_drop_middle f (Z.to_nat r) "/"%byte Hat) at 2.
    replace (Z.to_nat (r + 1)) with (S (Z.to_nat r)) by lia. rewrite spec_basename_cut; [done|].
    apply Forall_lookup. intros i x Hx ->. rewrite lookup_drop in Hx. pose proof (lookup_lt_Some _ _ _ Hx).
    apply (Hn (Z.of_nat (S (Z.to_nat r) + i))); [unfold zlen; lia|by rewrite Nat2Z.id].
Qed.

Lemma spec_basename_short f : zlen (spec_basename f) <= zlen f.
Proof.
  unfold spec_basename. assert (forall acc, zlen (foldl (fun acc x => if decide (x = "/"%byte) then [] else acc ++ [x]) acc f)
    <= zlen acc + zlen f) as Hg; [|specialize (Hg []); rewrite zlen_nil in Hg; lia].
  induction f as [|x f IH]; intros acc; cbn [foldl]; [rewrite zlen_nil; lia|]. rewrite zlen_cons.
  pose proof (zlen_nonneg acc). case_decide; rewrite IH; rewrite ?zlen_nil, ?zlen_app, ?zlen_cons, ?zlen_nil; lia.
Qed.

Abbreviation statement_ok := (statement_ok localtime).
Abbreviation statement_items := (statement_items strerror_r gettid need_color_ name).

Ltac items_ok := repeat first [apply Forall_nil_2 | apply Forall_cons; split]; cbn [item_ok].

Lemma statement_items_ok errors s : statement_ok s -> Forall item_ok (statement_items errors s).
Proof.
  intros [Hl [Hf Hfl] Hli Hfu Hit _ _ _ _]. unfold Logger.statement_items, prefix_items, extra_items, trailer_items.
  destruct (level_texts _ Hl) as (n & c & -> & -> & Hn & Hc). cbn [from_option].
  pose proof decimal_tid. pose proof (spec_basename_short (st_file s)).
  assert (forall msg, zlen (errno_text (st_errno s) msg) <= 1123) as He.
  { intros msg. unfold errno_text, snprintf, zlen, ERRNO_BUFFER_SIZE. rewrite length_take. lia. }
  rewrite !Forall_app. split_and!; try done.
  - items_ok; done || lia.
  - destruct name; items_ok; done.
  - destruct need_color_; items_ok; done || (unfold id; lia).
  - destruct (st_level s); items_ok; try done; by (eapply Z.le_lt_trans; [apply He|]).
  - items_ok; done || lia.
Qed.

(** The constructors of the three kinds of levels, whatever the caches hold. *)
Lemma constructors_eq log_level_ errors t s :
  thread_ok errors t -> statement_ok s -> log_guard log_level_ (st_level s) = true ->
  exists t' b, thread_ok (error_array strerror_r log_level_ errors s) t' /\ fb_wf LOG_SZ b /\
    contents b = time_text localtime (st_sec s) (st_usec s) /\
    (match st_level s with
     | KANON_LL_TRACE | KANON_LL_DEBUG =>
       make_Logger_func localtime gettid need_color_ t (st_level s) (st_sec s) (st_usec s) (st_garbage s) (st_func s)
     | KANON_LL_SYS_ERROR | KANON_LL_SYS_FATAL =>
       make_Logger_sys localtime strerror_r gettid need_color_ t (st_level s) (st_sec s) (st_usec s) (st_garbage s) (st_errno s)
     | _ => make_Logger localtime gettid need_color_ t (st_level s) (st_sec s) (st_usec s) (st_garbage s)
     end) = (stream_ ← puts LOG_SZ b (prefix_items gettid need_color_ name (st_level s) ++ extra_items strerror_r errors s);
             Some (t', stream_)).
Proof.
  intros Ht [Hl _ _ _ _ [Hs Htm] Hu He Hg] Hguard. unfold error_array. rewrite Hguard. cbn [andb].
  destruct (make_Logger_eq errors t (st_level s) (st_sec s) (st_usec s) (st_garbage s)) as (t' & b & Ht' & Hwf & Hc & Em); try done.
  exists (if has_errno (st_level s) then fst (strerror_tl strerror_r t' (st_errno s)) else t'), b.
  split_and!; [|done|done|].
  { destruct Ht' as [T1 T2 T3 T4 T5 T6]. destruct (has_errno (st_level s)); split; cbn; try done. by rewrite T6. }
  rewrite puts_app. unfold make_Logger_func, make_Logger_sys. rewrite Em. unfold extra_items.
  destruct (puts LOG_SZ b _) as [b1|]; cbn [mbind option_bind]; [|by destruct (st_level s)].
  destruct (st_level s); try done; rewrite (proj2 (Z.eqb_neq _ _)) by (by apply He); cbn [negb];
    unfold strerror_tl; rewrite (th_errors _ _ _ _ _ Ht'); done.
Qed.

(** A statement, whatever the caches hold. *)
Lemma log_statement_spec log_level_ errors t s :
  thread_ok errors t -> statement_ok s ->
  match spec_statement localtime strerror_r gettid need_color_ name log_level_ errors s with
  | Some evs => exists t', log_statement localtime strerror_r gettid need_color_ log_level_ t s = Some (t', evs) /\
      thread_ok (error_array strerror_r log_level_ errors s) t'
  | None => log_statement localtime strerror_r gettid need_color_ log_level_ t s = None
  end.
Proof.
  intros Ht Hok. pose proof Hok as [_ [Hf Hfl] _ _ _ _ _ _ _].
  unfold spec_statement, log_statement. destruct (log_guard log_level_ (st_level s)) eqn:Hguard.
  2: { exists t. split; [done|]. unfold error_array. by rewrite Hguard. }
  rewrite basename_spec by (done || lia). cbn [mbind option_bind].
  destruct (constructors_eq log_level_ errors t s Ht Hok Hguard) as (t' & b & Ht' & Hwf & Hc & ->).
  pose proof (puts_spec LOG_SZ ltac:(unfold LOG_SZ, kSmallStreamSize; lia) b (statement_items errors s) Hwf
    (statement_items_ok errors s Hok)) as Hp.
  rewrite Hc in Hp. unfold Logger.statement_items in *. rewrite app_assoc in *.
  set (pre := prefix_items gettid need_color_ name (st_level s) ++ extra_items strerror_r errors s) in *.
  rewrite puts_app in Hp. destruct (puts LOG_SZ b pre) as [b1|]; cbn [mbind option_bind] in *.
  2: { by destruct (spec_puts LOG_SZ _ _); [destruct Hp as (? & ? & _)|]. }
  rewrite puts_app in Hp. destruct (puts LOG_SZ b1 (st_items s)) as [b2|]; cbn [mbind option_bind] in *.
  2: { by destruct (spec_puts LOG_SZ _ _); [destruct Hp as (? & ? & _)|]. }
  unfold destroy_Logger. fold (trailer_items s). destruct (spec_puts LOG_SZ _ _) as [line|]; [|by rewrite Hp].
  destruct Hp as (b' & -> & Hwf' & <-). cbn [mbind option_bind]. rewrite (ToStringView_eq LOG_SZ) by done. by exists t'.
Qed.

Lemma log_statements_spec log_level_ errors t ss :
  thread_ok errors t -> Forall statement_ok ss ->
  log_statements localtime strerror_r gettid need_color_ log_level_ t ss =
  spec_statements localtime strerror_r gettid need_color_ name log_level_ errors ss.
Proof.
  intros Ht Hss. revert errors t Ht. induction Hss as [|s ss Hs _ IH]; intros errors t Ht; [done|]. cbn [log_statements spec_statements].
  pose proof (log_statement_spec log_level_ errors t s Ht Hs) as H1. destruct (spec_statement _ _ _ _ _ _ _ _) as [evs|].
  - destruct H1 as (t' & -> & Ht'). cbn [mbind option_bind]. destruct (fatal _); [done|]. by erewrite IH.
  - by rewrite H1.
Qed.

(** Without a pointer among the items nothing can overrun the stream. *)
Lemma spec_puts_total its c :
  Forall item_ok its -> Forall (fun it => is_pointer it = false) its -> is_Some (spec_puts LOG_SZ c its).
Proof using.
  intros Hok Hp. revert c. induction Hok as [|it its Hit _ IH]; intros c; cbn [spec_puts]; [done|].
  apply Forall_cons in Hp as [Hit' Hp]. unfold spec_put. destruct (item_room it <? LOG_SZ - zlen c) eqn:E; [|by apply IH].
  apply Z.ltb_lt in E. rewrite check_bind_true; [by apply IH|]. apply Z.ltb_lt.
  assert (zlen (item_text it) <= item_room it); [|lia]. destruct it; cbn [item_ok item_room item_text is_pointer] in Hit, Hit' |- *; try done; try lia.
  destruct (int2Str_spec i) as (txt & -> & _ & ?); [done|]. cbn. lia.
Qed.

Lemma spec_statements_total log_level_ errors ss :
  Forall statement_ok ss -> Forall (fun s => Forall (fun it => is_pointer it = false) (st_items s)) ss ->
  is_Some (spec_statements localtime strerror_r gettid need_color_ name log_level_ errors ss).
Proof.
  intros Hss Hp. revert errors. induction Hss as [|s ss Hs _ IH]; intros errors; cbn [spec_statements]; [done|].
  apply Forall_cons in Hp as [Hs' Hp].
  assert (is_Some (spec_statement localtime strerror_r gettid need_color_ name log_level_ errors s)) as [evs ->].
  { unfold spec_statement. destruct (log_guard _ _); [|done].
    destruct (spec_puts_total (statement_items errors s) (time_text localtime (st_sec s) (st_usec s))) as [line ->]; [by apply statement_items_ok| |done].
    unfold Logger.statement_items, prefix_items, extra_items, trailer_items.
    rewrite !Forall_app. split_and!; try done; try by repeat constructor.
    - destruct name; by repeat constructor.
    - destruct need_color_; by repeat constructor.
    - destruct (st_level s); by repeat constructor. }
  cbn [mbind option_bind]. destruct (fatal _); [done|].
  destruct (IH Hp (error_array strerror_r log_level_ errors s)) as [rest ->]. done.
Qed.

End refinement.

(** ** Properties *)

(** C40 What a thread logs is the reference: each line is the time and what the
    statement streams behind it, each item whole or not at all; the cached second and
    thread id make no difference.  Statements below the level log nothing, a fatal one
    is flushed and ends the process.  A statement for an error of the system, which is
    only covered with [errno] set, shows what [strerror_r] leaves in the thread's
    array.  The result is defined, the stream's array never overrun, when no pointer is
    streamed; with one, it is overrun exactly when the reference says so. *)
Theorem logger_lines (localtime : Z -> tm) (strerror_r : Z -> list byte -> list byte) (gettid : Z) (need_color_ : bool)
    (name : option (list byte)) (log_level_ : LogLevel) (ss : list statement) :
  0 < gettid < 2 ^ 31 -> (forall n, name = Some n -> zlen n < 2 ^ 32) -> Forall (statement_ok localtime) ss ->
  log_statements localtime strerror_r gettid need_color_ log_level_ (new_thread name) ss =
    spec_statements localtime strerror_r gettid need_color_ name log_level_ (t_errorBuf (new_thread name)) ss /\
  (Forall (fun s => Forall (fun it => is_pointer it = false) (st_items s)) ss ->
   is_Some (log_statements localtime strerror_r gettid need_color_ log_level_ (new_thread name) ss)).
Proof.
  intros Ht Hn Hss. assert (match name with Some n => zlen n < 2 ^ 32 | None => True end) as Hn' by (destruct name; auto).
  assert (log_statements localtime strerror_r gettid need_color_ log_level_ (new_thread name) ss =
    spec_statements localtime strerror_r gettid need_color_ name log_level_ (t_errorBuf (new_thread name)) ss) as E
    by (apply log_statements_spec; done || by split).
  split; [exact E|]. intros Hp. rewrite E. by apply spec_statements_total.
Qed.

Definition sample_localtime (s : Z) : tm := mkTm 126 10 16 ((s / 3600) mod 24) ((s / 60) mod 60) (s mod 60).

Definition sample_statement (level : LogLevel) (sec usec : Z) (msg : list item) : statement :=
  mkStatement level (str "kanon/net/tcp_server.cc") 42 (str "OnMessage") msg sec usec 2 (repeat x2a (Z.to_nat LOG_SZ)).

Lemma sample_tm_ok s : tm_ok (sample_localtime s).
Proof.
  unfold tm_ok, sample_localtime. cbn [tm_year tm_mon tm_mday tm_hour tm_min tm_sec].
  pose proof (Z.mod_pos_bound (s / 3600) 24). pose proof (Z.mod_pos_bound (s / 60) 60). pose proof (Z.mod_pos_bound s 60). lia.
Qed.

Definition sample_log : list statement :=
  [sample_statement KANON_LL_INFO 1000 7 [IString (str "bytes: "); IInt (-5)];
   sample_statement KANON_LL_DEBUG 1000 9 [IString (str "hidden")];
   sample_statement KANON_LL_WARN 1000 999999 [IBool true];
   sample_statement KANON_LL_SYS_FATAL 1001 0 [IString (str "bye")]].

Lemma sample_log_ok : Forall (statement_ok sample_localtime) sample_log.
Proof.
  repeat apply Forall_cons_2; try apply Forall_nil_2; split;
    cbn [sample_statement st_level st_file st_line st_func st_items st_sec st_usec st_errno st_garbage level_value];
    try done; try lia; try (split; [done|apply sample_tm_ok]); repeat constructor; done.
Qed.

(** The POSIX function. *)
Definition xsi_strerror_r (errno : Z) (buf : list byte) : list byte :=
  overwrite 0 (str "No such file or directory" ++ [x00]) buf.

Lemma logger_lines_witness :
  log_statements sample_localtime xsi_strerror_r 7 false KANON_LL_INFO (new_thread (Some (str "main"))) sample_log =
    spec_statements sample_localtime xsi_strerror_r 7 false (Some (str "main")) KANON_LL_INFO
      (t_errorBuf (new_thread (Some (str "main")))) sample_log /\
  is_Some (log_statements sample_localtime xsi_strerror_r 7 false KANON_LL_INFO (new_thread (Some (str "main"))) sample_log).
Proof.
  destruct (logger_lines sample_localtime xsi_strerror_r 7 false (Some (str "main")) KANON_LL_INFO sample_log) as [E Ht];
    [lia| |exact sample_log_ok|].
  - intros n E. injection E as <-. vm_compute. reflexivity.
  - split; [exact E|]. apply Ht. repeat constructor.
Defined.

(** The first line of the sample. *)
Lemma sample_first_line :
  log_statements sample_localtime xsi_strerror_r 7 false KANON_LL_INFO (new_thread (Some (str "main"))) (take 1 sample_log) =
  Some [Output (str "20261116:001640.000007 7 main [INFO] bytes: -5 - tcp_server.cc:42" ++ [x0a])].
Proof. vm_compute. reflexivity. Qed.

(** ** Defects *)

(** A message that fills the stream takes the end of the line with it: the next
    line is appended to this one. *)
Lemma long_message_loses_newline :
  exists line, log_statements sample_localtime xsi_strerror_r 7 false KANON_LL_INFO (new_thread (Some (str "main")))
      [sample_statement KANON_LL_INFO 1000 7 [IString (repeat x61 4058)]] = Some [Output line] /\
    last line = Some x61.
Proof. eexists. split; vm_compute; reflexivity. Qed.

(** With the GNU [strerror_r], which leaves the array alone for an error it knows, the
    message of the error is always missing: the returned text is dropped. *)
Lemma gnu_error_text_lost :
  log_statements sample_localtime (fun _ buf => buf) 7 false KANON_LL_INFO (new_thread (Some (str "main"))) (drop 3 sample_log) =
  Some [Output (str "20261116:001641.000000 7 main [SYS_FATAL] errno: 2, errmsg:  bye - tcp_server.cc:42" ++ [x0a]); Flush; Abort].
Proof. vm_compute. reflexivity. Qed.

(** Without an error in [errno] the text of the error is read from an array that
    was never written. *)
Lemma sys_logger_uninitialised localtime strerror_r gettid color t level sec usec garbage :
  make_Logger_sys localtime strerror_r gettid color t level sec usec garbage 0 = None.
Proof. unfold make_Logger_sys. by destruct (make_Logger _ _ _ _ _ _ _ _) as [[t' b]|]. Qed.
