(* ===== verification/LogFile.v ===== *)
(** * Log files: kanon/log/append_file.{h,cc}, kanon/log/log_file.{h,cc}

    A log file is a sequence of files that are rolled by size and by time.  The
    file system is the list of what reached it, with the name of the file; what
    [fwrite] took and [fflush] has not yet passed on is kept apart.  The clock,
    the results of [fopen], [mkdir] and [fwrite], and the rendering of a local
    time are arguments.  The class [LogSink] states what a log file promises to
    a client that writes through it. *)

From Stdlib Require Import ZArith Lia.
From S2P Require Import Prelude.

(** ** What a client of a log may rely on *)

Class LogSink (S E : Type) := {
  sink_append : S -> list byte -> E -> option S;
  sink_flush : S -> S;
  sink_ok : E -> Prop;               (* the environment has no failure *)
  sink_wf : S -> Prop;
  sink_bytes : S -> list byte;       (* everything appended, in order *)
  sink_durable : S -> list byte;     (* what has reached the files *)
  sink_append_law : forall s bs e, sink_wf s -> sink_ok e ->
    exists s', sink_append s bs e = Some s' /\ sink_wf s' /\ sink_bytes s' = sink_bytes s ++ bs;
  sink_flush_law : forall s, sink_wf s ->
    sink_wf (sink_flush s) /\ sink_bytes (sink_flush s) = sink_bytes s /\
    sink_durable (sink_flush s) = sink_bytes s
}.

(** ** AppendFile *)

Definition filename := list byte.

Record AppendFile := mkAppendFile {
  name_ : filename;
  fp_ : list byte;          (* taken by fwrite, not yet flushed *)
  writtenBytes_ : Z
}.

Definition ENOENT : Z := 2.

(** One round of the constructor's loop: what [fopen] returned, and [mkdir]. *)
Inductive open_result := Opened | OpenFailed (errno : Z) (mkdir : Z).

(** [None]: the program aborts, or the loop does not end. *)
Fixpoint open_loop (rs : list open_result) : option unit :=
  match rs with
  | [] => None
  | Opened :: _ => Some tt
  | OpenFailed errno mkdir :: rs =>
    assert! errno =? ENOENT;
    assert! mkdir =? 0;
    open_loop rs
  end.

Definition make_AppendFile (filename : filename) (rs : list open_result) : option AppendFile :=
  _ ← open_loop rs; Some (mkAppendFile filename [] 0).

(** [fwrite] takes all of its argument, or [n] bytes and sets the error flag;
    either way the loop of [_Append] makes one round. *)
Definition file_Append (f : AppendFile) (data : list byte) (short : option Z) : AppendFile :=
  let num := zlen data in
  let n := default num short in
  let written := if n =? num then n else 0 in
  mkAppendFile (name_ f) (fp_ f ++ take (Z.to_nat n) data) (u64 (writtenBytes_ f + written)).

(** ** LogFile *)

Record LogFile := mkLogFile {
  basename_ : list byte;
  prefix_ : list byte;
  roll_size_ : Z;
  start_of_period_ : Z;
  roll_interval_ : Z;
  last_roll_ : Z;
  last_flush_ : Z;
  flush_interval_ : Z;
  log_file_num_ : Z;
  file_ : option AppendFile;
  log_files_ : list filename;
  log_files_dup_ : list filename;
  disk : list (filename * list byte)     (* what reached the files, in order *)
}.

Definition UINT_MAX : Z := 2 ^ 32 - 1.

Definition with_file (l : LogFile) (f : AppendFile) (d : list (filename * list byte)) : LogFile :=
  mkLogFile (basename_ l) (prefix_ l) (roll_size_ l) (start_of_period_ l) (roll_interval_ l) (last_roll_ l)
    (last_flush_ l) (flush_interval_ l) (log_file_num_ l) (Some f) (log_files_ l) (log_files_dup_ l) d.

(** [AppendFile::Flush] *)
Definition file_Flush (l : LogFile) : option LogFile :=
  f ← file_ l;
  Some (with_file l (mkAppendFile (name_ f) [] (writtenBytes_ f)) (disk l ++ [(name_ f, fp_ f)])).

(** The C string in a [std::string]: up to its first NUL. *)
Definition c_str (s : list byte) : list byte :=
  (fix go l := match l with [] => [] | c :: l => if decide (c = x00) then [] else c :: go l end) s.

Record roll_env := mkRollEnv { re_now : Z; re_open : list open_result }.

(** What the environment does during an [Append]: [fwrite], the clock of
    [Append], and the clock and [fopen] of a roll. *)
Record append_env := mkAppendEnv { ae_short : option Z; ae_now : Z; ae_roll : roll_env }.

Section log_file.
Context (stamp : Z -> list byte).     (* strftime(".%Y%m%d-%H%M%S.", localtime(now)) *)
Context (PidString Hostname : list byte).

Definition GetLogFilename (l : LogFile) (now : Z) : filename :=
  c_str (prefix_ l)
  ++ (match last (prefix_ l) with Some c => if decide (c = "/"%byte) then [] else str "/" | None => [] end)
  ++ c_str (basename_ l) ++ stamp now ++ c_str PidString ++ str "." ++ c_str Hostname ++ str ".log".

(** The destructor of the file that is replaced flushes it. *)
Definition RollFile (l : LogFile) (e : roll_env) : option LogFile :=
  let now := re_now e in
  assert! negb (roll_interval_ l =? 0);
  let new_start_period := Z.quot now (roll_interval_ l) in
  if last_roll_ l <? now then
    let filename := GetLogFilename l now in
    f ← make_AppendFile filename (re_open e);
    Some (mkLogFile (basename_ l) (prefix_ l) (roll_size_ l) new_start_period (roll_interval_ l) now now
            (flush_interval_ l) (log_file_num_ l) (Some f) (log_files_ l ++ [filename]) (log_files_dup_ l)
            (match file_ l with Some old => disk l ++ [(name_ old, fp_ old)] | None => disk l end))
  else Some l.

Definition make_LogFile (basename : list byte) (roll_size : Z) (prefix : list byte) (log_file_num roll_interval flush_interval : Z)
    (e : roll_env) : option LogFile :=
  assert! bool_decide ("/"%byte ∉ basename);
  RollFile (mkLogFile basename prefix roll_size 0 roll_interval 0 0 flush_interval log_file_num None [] [] []) e.

(** The old names move to the list of the removing thread; what that thread had
    not removed yet comes back. *)
Definition hand_over (l : LogFile) : option LogFile :=
  if log_file_num_ l <=? zlen (log_files_ l) then
    last_file ← last (log_files_ l);
    Some (mkLogFile (basename_ l) (prefix_ l) (roll_size_ l) (start_of_period_ l) (roll_interval_ l) (last_roll_ l)
            (last_flush_ l) (flush_interval_ l) (log_file_num_ l) (file_ l) (log_files_dup_ l ++ [last_file])
            (removelast (log_files_ l)) (disk l))
  else Some l.

Definition with_last_flush (l : LogFile) (now : Z) : LogFile :=
  mkLogFile (basename_ l) (prefix_ l) (roll_size_ l) (start_of_period_ l) (roll_interval_ l) (last_roll_ l)
    now (flush_interval_ l) (log_file_num_ l) (file_ l) (log_files_ l) (log_files_dup_ l) (disk l).

Definition Append (l : LogFile) (data : list byte) (e : append_env) : option LogFile :=
  f ← file_ l;
  let f := file_Append f data (ae_short e) in
  let l := with_file l f (disk l) in
  l ← (if roll_size_ l <? writtenBytes_ f then RollFile l (ae_roll e)
       else
         let now := ae_now e in
         assert! negb (roll_interval_ l =? 0);
         let this_period := Z.quot now (roll_interval_ l) in
         if start_of_period_ l <? this_period then RollFile l (ae_roll e)
         else if flush_interval_ l <? now - last_flush_ l then file_Flush (with_last_flush l now)
         else Some l);
  hand_over l.

Definition Flush (l : LogFile) : option LogFile := file_Flush l.

(** One round of the removing thread, once it is woken: the names it removes. *)
Definition remove_round (l : LogFile) : list filename * LogFile :=
  (log_files_dup_ l,
   mkLogFile (basename_ l) (prefix_ l) (roll_size_ l) (start_of_period_ l) (roll_interval_ l) (last_roll_ l)
     (last_flush_ l) (flush_interval_ l) (log_file_num_ l) (file_ l) (log_files_ l) [] (disk l)).

(** The condition under which the removing thread waits. *)
Definition remover_waits (l : LogFile) : bool := zlen (log_files_dup_ l) <? u64 (log_file_num_ l - 1).

(** ** The contract *)

Definition appended_bytes (l : LogFile) : list byte :=
  concat (map snd (disk l)) ++ match file_ l with Some f => fp_ f | None => [] end.

Definition log_wf (l : LogFile) : Prop :=
  roll_interval_ l <> 0 /\ exists f, file_ l = Some f /\ last (log_files_ l) = Some (name_ f).

Definition append_env_ok (e : append_env) : Prop :=
  ae_short e = None /\ open_loop (re_open (ae_roll e)) = Some tt.

Lemma concat_snd_snoc (d : list (filename * list byte)) n bs :
  concat (map snd (d ++ [(n, bs)])) = concat (map snd d) ++ bs.
Proof. rewrite map_app, concat_app. cbn. by rewrite app_nil_r. Qed.

Lemma file_Flush_spec l :
  log_wf l -> exists l', file_Flush l = Some l' /\ log_wf l' /\ appended_bytes l' = appended_bytes l /\
    concat (map snd (disk l')) = appended_bytes l.
Proof.
  intros (Hr & f & Ef & Hl). unfold file_Flush. rewrite Ef. cbn [mbind option_bind]. eexists. split; [done|].
  unfold log_wf, appended_bytes, with_file. cbn. rewrite Ef, concat_snd_snoc. cbn.
  split; [split; [done|]; by eexists|]. by rewrite app_nil_r.
Qed.

Lemma RollFile_spec l e :
  log_wf l -> open_loop (re_open e) = Some tt ->
  exists l', RollFile l e = Some l' /\ log_wf l' /\ appended_bytes l' = appended_bytes l.
Proof.
  intros (Hr & f & Ef & Hl) Ho. unfold RollFile. rewrite check_bind_true by (by apply negb_true_iff, Z.eqb_neq).
  destruct (last_roll_ l <? re_now e).
  - unfold make_AppendFile. rewrite Ho. cbn [mbind option_bind]. eexists. split; [done|].
    unfold log_wf, appended_bytes. cbn. rewrite Ef, concat_snd_snoc, app_nil_r. split; [|done].
    split; [done|]. eexists. split; [done|]. by rewrite last_snoc.
  - exists l. split; [done|]. split; [|done]. split; [done|]. by exists f.
Qed.

Lemma hand_over_spec l :
  log_wf l -> exists l', hand_over l = Some l' /\ log_wf l' /\ appended_bytes l' = appended_bytes l.
Proof.
  intros (Hr & f & Ef & Hl). unfold hand_over. destruct (log_file_num_ l <=? zlen (log_files_ l)).
  - rewrite Hl. cbn [mbind option_bind]. eexists. split; [done|]. unfold log_wf, appended_bytes. cbn. rewrite Ef.
    split; [|done]. split; [done|]. exists f. split; [done|]. by rewrite last_snoc.
  - exists l. split; [done|]. split; [|done]. split; [done|]. by exists f.
Qed.

Lemma LogFile_Append_spec l bs e :
  log_wf l -> append_env_ok e ->
  exists l', Append l bs e = Some l' /\ log_wf l' /\ appended_bytes l' = appended_bytes l ++ bs.
Proof.
  intros (Hr & f & Ef & Hl) [Hs Ho]. unfold Append. rewrite Ef. cbn [mbind option_bind]. rewrite Hs.
  set (f' := file_Append f bs None). set (l1 := with_file l f' (disk l)).
  assert (log_wf l1) as Hwf1 by (split; [done|]; by exists f').
  assert (appended_bytes l1 = appended_bytes l ++ bs) as Hb1.
  { unfold appended_bytes, l1, with_file. cbn. rewrite Ef. unfold zlen. by rewrite Nat2Z.id, firstn_all, app_assoc. }
  assert (forall o, (exists l2, o = Some l2 /\ log_wf l2 /\ appended_bytes l2 = appended_bytes l1) ->
    exists l', (l2 ← o; hand_over l2) = Some l' /\ log_wf l' /\ appended_bytes l' = appended_bytes l ++ bs) as Hk.
  { intros o (l2 & -> & Hwf2 & Hb2). cbn [mbind option_bind]. destruct (hand_over_spec l2 Hwf2) as (l' & E & Hwf' & Hb').
    exists l'. split; [done|]. split; [done|]. congruence. }
  apply Hk. destruct (_ <? _); [by apply RollFile_spec|].
  rewrite check_bind_true by (by apply negb_true_iff, Z.eqb_neq). destruct (_ <? _); [by apply RollFile_spec|].
  destruct (_ <? _); [|by exists l1].
  destruct (file_Flush_spec (with_last_flush l1 (ae_now e))) as (l2 & E & Hwf2 & Hb2 & _); [by destruct Hwf1|].
  exists l2. split; [done|]. by split.
Qed.

#[global] Instance LogFile_sink : LogSink LogFile append_env.
Proof.
  refine {| sink_append := Append; sink_flush := fun l => default l (Flush l); sink_ok := append_env_ok; sink_wf := log_wf;
            sink_bytes := appended_bytes; sink_durable := fun l => concat (map snd (disk l)) |}.
  - intros s bs e. apply LogFile_Append_spec.
  - intros s Hs. destruct (file_Flush_spec s Hs) as (s' & E & Hwf & Hb & Hd). unfold Flush. rewrite E. by split_and!.
Defined.

End log_file.

(** ** Removal of old files

    The appends of the logging thread and the rounds of the removing thread, in
    any order; [removed] collects what was removed. *)
Inductive log_op := OpAppend (data : list byte) (e : append_env) | OpRemove.

Section removal.
Context (stamp : Z -> list byte) (PidString Hostname : list byte).

Definition log_step (st : LogFile * list filename) (op : log_op) : option (LogFile * list filename) :=
  match op with
  | OpAppend data e => l ← Append stamp PidString Hostname st.1 data e; Some (l, st.2)
  | OpRemove => let (r, l) := remove_round st.1 in Some (l, st.2 ++ r)
  end.

Fixpoint log_run (st : LogFile * list filename) (ops : list log_op) : option (LogFile * list filename) :=
  match ops with
  | [] => Some st
  | op :: ops => st ← log_step st op; log_run st ops
  end.

(** Local times of different seconds are rendered differently: the zone of the
    process has no hour that is repeated. *)
Hypothesis stamp_inj : forall t t', stamp t = stamp t' -> t = t'.

Lemma GetLogFilename_inj l l' t t' :
  prefix_ l = prefix_ l' -> basename_ l = basename_ l' ->
  GetLogFilename stamp PidString Hostname l t = GetLogFilename stamp PidString Hostname l' t' -> t = t'.
Proof.
  intros Hp Hb. unfold GetLogFilename. rewrite Hp, Hb. intros E. do 3 apply app_inv_head in E.
  apply app_inv_tail in E. by apply stamp_inj.
Qed.

(** Every name in use, handed over or removed belongs to one roll. *)
Definition names_inv (base : LogFile) (st : LogFile * list filename) : Prop :=
  prefix_ st.1 = prefix_ base /\ basename_ st.1 = basename_ base /\
  (exists f, file_ st.1 = Some f /\ last (log_files_ st.1) = Some (name_ f)) /\
  NoDup (log_files_ st.1 ++ log_files_dup_ st.1 ++ st.2) /\
  Forall (fun n => exists t, t <= last_roll_ st.1 /\ n = GetLogFilename stamp PidString Hostname base t)
    (log_files_ st.1 ++ log_files_dup_ st.1 ++ st.2).

Lemma names_inv_weaken base l l' rm :
  names_inv base (l, rm) -> prefix_ l' = prefix_ l -> basename_ l' = basename_ l -> last_roll_ l' = last_roll_ l ->
  log_files_ l' = log_files_ l -> log_files_dup_ l' = log_files_dup_ l ->
  (forall f, file_ l = Some f -> exists f', file_ l' = Some f' /\ name_ f' = name_ f) -> names_inv base (l', rm).
Proof.
  intros (Hp & Hb & (f & Ef & Hl) & Hn & Hf) P B R L D F. cbn in *. unfold names_inv. cbn.
  rewrite P, B, R, L, D. split_and!; try done. destruct (F f Ef) as (f' & -> & Ef'). exists f'. split; [done|congruence].
Qed.

Lemma RollFile_names base l e rm l' :
  names_inv base (l, rm) -> RollFile stamp PidString Hostname l e = Some l' -> names_inv base (l', rm).
Proof.
  intros Hinv E. unfold RollFile in E. apply bind_Some in E as ([] & _ & E).
  destruct (Z.ltb_spec (last_roll_ l) (re_now e)) as [Hlt|]; [|by injection E as <-].
  unfold make_AppendFile in E. destruct (open_loop (re_open e)); [|discriminate]. injection E as <-.
  destruct Hinv as (Hp & Hb & _ & Hn & Hf). cbn in *. unfold names_inv. cbn.
  set (n := GetLogFilename stamp PidString Hostname l (re_now e)).
  assert (n = GetLogFilename stamp PidString Hostname base (re_now e)) as En by (unfold n, GetLogFilename; by rewrite Hp, Hb).
  assert (Forall (fun n => exists t, t <= re_now e /\ n = GetLogFilename stamp PidString Hostname base t)
    (log_files_ l ++ log_files_dup_ l ++ rm)) as Hf'.
  { eapply Forall_impl; [exact Hf|]. intros x (t & Ht & ->). exists t. split; [lia|done]. }
  split; [done|]. split; [done|]. split; [eexists; split; [done|by rewrite last_snoc]|].
  assert (Permutation ((log_files_ l ++ [n]) ++ log_files_dup_ l ++ rm) (n :: log_files_ l ++ log_files_dup_ l ++ rm)) as Hperm
    by (rewrite <- app_assoc; cbn; symmetry; apply Permutation_middle).
  rewrite Hperm. split.
  - constructor; [|done]. intros Hin. rewrite Forall_forall in Hf. destruct (Hf _ Hin) as (t & Ht & E).
    rewrite En in E. apply GetLogFilename_inj in E; [lia|done|done].
  - constructor; [|done]. exists (re_now e). split; [lia|done].
Qed.

Lemma hand_over_names base l rm l' : names_inv base (l, rm) -> hand_over l = Some l' -> names_inv base (l', rm).
Proof.
  intros Hinv E. unfold hand_over in E. destruct (log_file_num_ l <=? zlen (log_files_ l)); [|by injection E as <-].
  destruct Hinv as (Hp & Hb & (f & Ef & Hl) & Hn & Hf). cbn in *. rewrite Hl in E. injection E as <-.
  apply last_Some in Hl as (m & Em). rewrite Em in *. rewrite removelast_last. unfold names_inv. cbn.
  assert (Permutation ((log_files_dup_ l ++ [name_ f]) ++ m ++ rm) ((m ++ [name_ f]) ++ log_files_dup_ l ++ rm)) as Hperm.
  { rewrite <- !app_assoc. cbn. rewrite <- Permutation_middle, <- Permutation_middle, !app_assoc. f_equiv. f_equiv. apply Permutation_app_comm. }
  rewrite Hperm. split_and!; try done. exists f. split; [done|]. by rewrite last_snoc.
Qed.

Lemma log_step_names base st op st' : names_inv base st -> log_step st op = Some st' -> names_inv base st'.
Proof.
  intros Hinv E. destruct st as [l rm], op as [data e|]; cbn in E.
  - apply bind_Some in E as (l2 & E & [= <-]). unfold Append in E. apply bind_Some in E as (f & Ef & E).
    apply bind_Some in E as (l1 & E1 & E). apply (hand_over_names base l1); [|done].
    set (l0 := with_file l _ _) in E1.
    assert (names_inv base (l0, rm)) as H0.
    { apply (names_inv_weaken base l); try done. intros f0 E0. rewrite Ef in E0. injection E0 as <-. by eexists. }
    destruct (_ <? _) in E1; [by eapply RollFile_names|]. apply bind_Some in E1 as ([] & _ & E1).
    destruct (_ <? _) in E1; [by eapply RollFile_names|]. destruct (_ <? _) in E1; [|by injection E1 as <-].
    unfold file_Flush in E1. apply bind_Some in E1 as (f1 & Ef1 & [= <-]). apply (names_inv_weaken base l0); try done.
    intros f0 E0. exists (mkAppendFile (name_ f1) [] (writtenBytes_ f1)). split; [done|]. cbn in Ef1, E0 |- *. congruence.
  - injection E as <-. destruct Hinv as (Hp & Hb & Hfile & Hn & Hf). unfold names_inv. cbn in *.
    assert (Permutation (log_files_ l ++ rm ++ log_files_dup_ l) (log_files_ l ++ log_files_dup_ l ++ rm)) as Hperm
      by (f_equiv; apply Permutation_app_comm).
    by rewrite Hperm.
Qed.

(** However many files are rolled and removed, the file being written is never
    among the removed ones, and no name is removed twice. *)
Theorem file_in_use_kept basename roll_size prefix num interval flush e l ops l' removed :
  0 < re_now e ->
  make_LogFile stamp PidString Hostname basename roll_size prefix num interval flush e = Some l ->
  log_run (l, []) ops = Some (l', removed) ->
  exists f, file_ l' = Some f /\ last (log_files_ l') = Some (name_ f) /\
    (name_ f ∉ removed) /\ (name_ f ∉ log_files_dup_ l') /\ NoDup removed.
Proof.
  intros Hnow E Hrun. assert (names_inv l (l, [])) as Hinit.
  { unfold make_LogFile in E. apply bind_Some in E as ([] & _ & E). unfold RollFile in E. apply bind_Some in E as ([] & _ & E).
    cbn [last_roll_] in E. rewrite (proj2 (Z.ltb_lt 0 _)) in E by done. unfold make_AppendFile in E.
    destruct (open_loop (re_open e)); [|discriminate]. injection E as <-. unfold names_inv. cbn. split_and!; try done.
    - by eexists.
    - apply NoDup_singleton.
    - constructor; [|done]. exists (re_now e). split; [lia|done]. }
  assert (forall st, names_inv l st -> forall st', log_run st ops = Some st' -> names_inv l st') as Hind.
  { clear -stamp_inj. induction ops as [|op ops IH]; intros st Hinv st' E; cbn in E; [by injection E as <-|].
    apply bind_Some in E as (st1 & E1 & E). eapply IH; [|done]. by eapply log_step_names. }
  destruct (Hind _ Hinit _ Hrun) as (_ & _ & (f & Ef & Hl) & Hn & _). cbn in *.
  exists f. split; [done|]. split; [done|]. apply last_Some in Hl as (m & Em). rewrite Em in Hn.
  rewrite <- app_assoc in Hn. apply NoDup_app in Hn as (_ & _ & Hn). cbn in Hn. apply NoDup_cons in Hn as [Hnot Hn].
  rewrite elem_of_app in Hnot. apply NoDup_app in Hn as (_ & _ & Hn). tauto.
Qed.

End removal.

(** A clock read in seconds, rendered as that many characters. *)
Definition sample_stamp (t : Z) : list byte := Z_to_byte 0 :: repeat (if 0 <=? t then x61 else x62) (Z.to_nat (Z.abs t)).

Lemma sample_stamp_inj t t' : sample_stamp t = sample_stamp t' -> t = t'.
Proof.
  unfold sample_stamp. intros [= E]. pose proof (f_equal length E) as Hl. rewrite !repeat_length in Hl.
  destruct (Z.leb_spec 0 t), (Z.leb_spec 0 t'); try lia.
  - destruct (Z.to_nat (Z.abs t)) eqn:E1, (Z.to_nat (Z.abs t')) eqn:E2; try lia. discriminate E.
  - destruct (Z.to_nat (Z.abs t)) eqn:E1, (Z.to_nat (Z.abs t')) eqn:E2; try lia. discriminate E.
Qed.

Definition sample_roll (t : Z) : roll_env := mkRollEnv t [Opened].

(** Three rolls with a limit of two files, and a round of the removing thread. *)
Definition sample_ops : list log_op :=
  [OpAppend (str "one") (mkAppendEnv None 1 (sample_roll 2)); OpAppend (str "two") (mkAppendEnv None 2 (sample_roll 3));
   OpRemove; OpAppend (str "three") (mkAppendEnv None 3 (sample_roll 4))].

Lemma file_in_use_kept_witness :
  exists l l' removed, make_LogFile sample_stamp [] [] (str "app") 2 [] 2 86400 3 (sample_roll 1) = Some l /\
  log_run sample_stamp [] [] (l, []) sample_ops = Some (l', removed) /\ length removed = 1%nat /\
  exists f, file_ l' = Some f /\ last (log_files_ l') = Some (name_ f) /\
    (name_ f ∉ removed) /\ (name_ f ∉ log_files_dup_ l') /\ NoDup removed.
Proof.
  eexists _, _, _. split; [vm_compute; reflexivity|]. split; [vm_compute; reflexivity|]. split; [reflexivity|].
  eapply (file_in_use_kept sample_stamp [] [] sample_stamp_inj (str "app") 2 [] 2 86400 3 (sample_roll 1) _ sample_ops);
    [reflexivity|vm_compute; reflexivity|vm_compute; reflexivity].
Defined.
