(* ===== verification/AsyncLog.v ===== *)
(** * The asynchronous log: kanon/log/async_log.{h,cc}

    Front threads fill buffers under a mutex; a back thread takes all of them at
    once and writes them to a log file, leaving two emptied buffers behind.  The
    critical sections and the back thread's steps between them are the steps of
    a transition system, in any interleaving.  The output is any [LogSink]. *)

From Stdlib Require Import ZArith Lia.
From S2P Require Import Prelude FixedBuffer LogFile.

Definition BUFFER_BOUND : nat := 16.

(** Where the back thread is. *)
Inductive phase :=
  | Idle          (* StartRun was not called *)
  | Top           (* at the test of the while loop *)
  | Locking       (* before the critical section *)
  | Waiting       (* in WaitForSeconds *)
  | Writing       (* after the critical section *)
  | Ended.        (* the loop was left and the output flushed *)

#[global] Instance phase_eq_dec : EqDecision phase.
Proof. solve_decision. Defined.

Section async_log.
Context (SZ : Z).                        (* kLargeStreamSize *)
Context (garbage : list byte).           (* the bytes of an array from new *)
Context {S E : Type} `{!LogSink S E}.

Abbreviation Buffer := FixedBuffer.

Record AsyncLog := mkAsyncLog {
  running_ : bool;
  current_buffer_ : option Buffer;
  next_buffer_ : option Buffer;
  buffers_ : list (option Buffer);
  buffers_dup_ : list (option Buffer);
  buffer1 : option Buffer;               (* the back thread's locals *)
  buffer2 : option Buffer;
  output : S;
  at_ : phase
}.

Definition new_Buffer : Buffer := make_FixedBuffer garbage.

Definition make_AsyncLog (out : S) : AsyncLog :=
  mkAsyncLog false (Some (zero SZ new_Buffer)) (Some (zero SZ new_Buffer)) [] [] None None out Idle.

(** ** The front threads *)

Definition Append (s : AsyncLog) (data : list byte) : option AsyncLog :=
  let len := zlen data in
  cur ← current_buffer_ s;
  if len <? avali SZ cur then
    cur ← FixedBuffer.Append SZ cur (take (Z.to_nat (u32 len)) data);
    Some (mkAsyncLog (running_ s) (Some cur) (next_buffer_ s) (buffers_ s) (buffers_dup_ s) (buffer1 s) (buffer2 s)
            (output s) (at_ s))
  else
    let bufs := buffers_ s ++ [current_buffer_ s] in
    let next := match next_buffer_ s with None => new_Buffer | Some b => b end in
    cur ← FixedBuffer.Append SZ next (take (Z.to_nat (u32 len)) data);
    Some (mkAsyncLog (running_ s) (Some cur) None bufs (buffers_dup_ s) (buffer1 s) (buffer2 s) (output s) (at_ s)).

(** The first half of [Stop]; the join waits for [Ended]. *)
Definition Stop (s : AsyncLog) : option AsyncLog :=
  assert! running_ s;
  Some (mkAsyncLog false (current_buffer_ s) (next_buffer_ s) (buffers_ s) (buffers_dup_ s) (buffer1 s) (buffer2 s)
          (output s) (at_ s)).

Definition StartRun (s : AsyncLog) : option AsyncLog :=
  assert! negb (running_ s);
  Some (mkAsyncLog true (current_buffer_ s) (next_buffer_ s) (buffers_ s) (buffers_dup_ s)
          (Some (zero SZ new_Buffer)) (Some (zero SZ new_Buffer)) (output s) Top).

(** ** The back thread *)

Definition with_phase (s : AsyncLog) (p : phase) : AsyncLog :=
  mkAsyncLog (running_ s) (current_buffer_ s) (next_buffer_ s) (buffers_ s) (buffers_dup_ s) (buffer1 s) (buffer2 s)
    (output s) p.

Definition holds_empty (b : option Buffer) : bool :=
  match b with Some b => len_ b =? 0 | None => false end.

(** The test of the loop and the assertions at the top of its body. *)
Definition loop_test (s : AsyncLog) : option AsyncLog :=
  if running_ s then
    assert! holds_empty (buffer1 s);
    assert! holds_empty (buffer2 s);
    assert! bool_decide (buffers_dup_ s = []);
    Some (with_phase s Locking)
  else
    Some (mkAsyncLog (running_ s) (current_buffer_ s) (next_buffer_ s) (buffers_ s) (buffers_dup_ s) (buffer1 s) (buffer2 s)
            (sink_flush (output s)) Ended).

(** The critical section after the wait. *)
Definition collect (s : AsyncLog) : AsyncLog :=
  let bufs := buffers_ s ++ [current_buffer_ s] in
  let s := mkAsyncLog (running_ s) (buffer1 s) (next_buffer_ s) (buffers_dup_ s) bufs None (buffer2 s) (output s) Writing in
  match next_buffer_ s with
  | None => mkAsyncLog (running_ s) (current_buffer_ s) (buffer2 s) (buffers_ s) (buffers_dup_ s) None None (output s) Writing
  | Some _ => s
  end.

Definition lock_mutex (s : AsyncLog) : AsyncLog :=
  match buffers_ s with [] => with_phase s Waiting | _ => collect s end.

(** [n] appends to the output, the k-th of them in environment [es k]. *)
Fixpoint write_buffers (out : S) (bs : list (option Buffer)) (es : list E) : option S :=
  match bs, es with
  | [], _ => Some out
  | b :: bs, e :: es =>
    b ← b;
    data ← ToStringView b;
    out ← sink_append out data e;
    write_buffers out bs es
  | _ :: _, [] => None
  end.

(** ["Discard %lu large buffer at %s\n"] into 64 bytes. *)
Definition discard_notice (n : nat) (time : list byte) : option (list byte) :=
  num ← int2Str (u64 (Z.of_nat n));
  Some (take 63 (str "Discard " ++ num ++ str " large buffer at " ++ time ++ [x0a])).

(** What takes the place of a buffer handed to the front threads. *)
Definition refill (b : option Buffer) (dup : list (option Buffer)) : option (option Buffer * list (option Buffer)) :=
  match b with
  | Some b => Some (Some b, dup)
  | None =>
    back ← mjoin (last dup);
    Some (Some (reset back), removelast dup)
  end.

(** [e0] is the environment of the notice, [es] that of the buffers. *)
Definition write_out (s : AsyncLog) (time : list byte) (e0 : E) (es : list E) : option AsyncLog :=
  let size := length (buffers_dup_ s) in
  '(out, dup) ← (if (BUFFER_BOUND <? size)%nat then
                   notice ← discard_notice (size - BUFFER_BOUND) time;
                   out ← sink_append (output s) notice e0;
                   Some (out, take BUFFER_BOUND (buffers_dup_ s))
                 else Some (output s, buffers_dup_ s));
  out ← write_buffers out dup es;
  let dup := if (2 <? length dup)%nat then take 2 dup else dup in
  '(b1, dup) ← refill (buffer1 s) dup;
  '(b2, dup) ← refill (buffer2 s) dup;
  Some (mkAsyncLog (running_ s) (current_buffer_ s) (next_buffer_ s) (buffers_ s) [] b1 b2 (sink_flush out) Top).

(** ** The transition system *)

Inductive label :=
  | LAppend (data : list byte)
  | LStart
  | LStop
  | LTest                                       (* the back thread tests running_ *)
  | LLock                                       (* it takes the mutex *)
  | LWake                                       (* the wait is over *)
  | LWrite (time : list byte) (e0 : E) (es : list E).

Definition enabled (l : label) (s : AsyncLog) : bool :=
  match l with
  | LAppend _ => true
  | LStart => bool_decide (at_ s = Idle)
  | LStop => running_ s
  | LTest => bool_decide (at_ s = Top)
  | LLock => bool_decide (at_ s = Locking)
  | LWake => bool_decide (at_ s = Waiting)
  | LWrite _ _ es => bool_decide (at_ s = Writing) && (length (buffers_dup_ s) <=? length es)%nat
  end.

Definition exec (l : label) (s : AsyncLog) : option AsyncLog :=
  match l with
  | LAppend data => Append s data
  | LStart => StartRun s
  | LStop => Stop s
  | LTest => loop_test s
  | LLock => Some (lock_mutex s)
  | LWake => Some (collect s)
  | LWrite time e0 es => write_out s time e0 es
  end.

Fixpoint run (s : AsyncLog) (ls : list label) : option AsyncLog :=
  match ls with
  | [] => Some s
  | l :: ls => assert! enabled l s; s ← exec l s; run s ls
  end.

End async_log.

(** ** What is promised

    A message is kept whole.  A pass of the back thread writes the buffers it
    collected, in order, up to the bound; beyond it they are discarded and a
    notice is written first. *)

Section promises.
Context (SZ : Z) (garbage : list byte).
Context {S E : Type} `{!LogSink S E}.
Hypothesis HSZ : 0 < SZ < 2 ^ 32.
Hypothesis Hgarbage : zlen garbage = SZ.

(** A message as it enters a buffer; one that does not fit an empty buffer is dropped. *)
Definition accept (data : list byte) : list (list byte) :=
  let m := take (Z.to_nat (u32 (zlen data))) data in if zlen m <? SZ then [m] else [].

Definition accepted (ls : list (label (E := E))) : list (list byte) :=
  flat_map (fun l => match l with LAppend data => accept data | _ => [] end) ls.

(** The buffers of a pass, each as the messages in it, and the time of the notice. *)
Definition pass : Type := list (list (list byte)) * list byte.

Definition pass_out (p : pass) : list byte :=
  let n := length p.1 in
  (if (BUFFER_BOUND <? n)%nat then default [] (discard_notice (n - BUFFER_BOUND) p.2) else [])
  ++ concat (map (@concat byte) (take BUFFER_BOUND p.1)).

Definition content_of (b : option FixedBuffer) : list byte := match b with Some b => contents b | None => [] end.

(** The bytes that are in memory only, oldest first. *)
Definition memory (s : AsyncLog (S := S)) : list byte :=
  concat (map content_of (buffers_dup_ s ++ buffers_ s ++ [current_buffer_ s])).

Definition label_ok (l : label (E := E)) : Prop :=
  match l with LWrite _ e0 es => sink_ok e0 /\ Forall sink_ok es | _ => True end.

Definition is_empty (b : option FixedBuffer) : Prop := exists x, b = Some x /\ fb_wf SZ x /\ len_ x = 0.

Definition holds (b : option FixedBuffer) (g : list (list byte)) : Prop :=
  exists x, b = Some x /\ fb_wf SZ x /\ contents x = concat g.

(** The back thread's locals and its share, by its position. *)
Definition phase_inv (s : AsyncLog (S := S)) : Prop :=
  match at_ s with
  | Idle => running_ s = false /\ buffers_dup_ s = []
  | Top | Locking | Waiting => is_empty (buffer1 s) /\ is_empty (buffer2 s) /\ buffers_dup_ s = []
  | Writing =>
    buffer1 s = None /\ (0 < length (buffers_dup_ s))%nat /\
    (is_empty (buffer2 s) \/ buffer2 s = None /\ (1 < length (buffers_dup_ s))%nat)
  | Ended => running_ s = false /\ buffers_dup_ s = []
  end.

Record log_inv (out0 : list byte) (s : AsyncLog (S := S)) (passes : list pass) (gd gb : list (list (list byte)))
    (gc : list (list byte)) : Prop := {
  li_current : holds (current_buffer_ s) gc;
  li_buffers : Forall2 holds (buffers_ s) gb;
  li_dup : Forall2 holds (buffers_dup_ s) gd;
  li_next : is_empty (next_buffer_ s) \/ next_buffer_ s = None /\ buffers_ s <> [];
  li_phase : phase_inv s;
  li_sink : sink_wf (output s);
  li_out : sink_bytes (output s) = out0 ++ concat (map pass_out passes)
}.

Lemma zero_empty : is_empty (Some (zero SZ (new_Buffer garbage))).
Proof.
  eexists. split; [done|]. unfold fb_wf, zero, new_Buffer, make_FixedBuffer. cbn. unfold zlen. rewrite repeat_length. lia.
Qed.

Lemma new_Buffer_empty : is_empty (Some (new_Buffer garbage)).
Proof. eexists. split; [done|]. unfold fb_wf, new_Buffer, make_FixedBuffer. cbn. lia. Qed.

Lemma reset_empty b g : holds b g -> exists x, b = Some x /\ is_empty (Some (reset x)).
Proof.
  intros (x & -> & [Hd Hl] & _). exists x. split; [done|]. eexists. split; [done|]. unfold fb_wf, reset. cbn. lia.
Qed.

Lemma is_empty_holds b : is_empty b -> holds b [].
Proof.
  intros (x & -> & Hwf & Hl). exists x. split; [done|]. split; [done|]. unfold contents. rewrite Hl. apply slice_0.
Qed.

Lemma is_empty_holds_empty b : is_empty b -> holds_empty b = true.
Proof. intros (x & -> & _ & Hl). cbn. rewrite Hl. done. Qed.

Lemma holds_content b g : holds b g -> content_of b = concat g.
Proof. by intros (x & -> & _ & H). Qed.

Lemma holds_contents bs gs : Forall2 holds bs gs -> map content_of bs = map (@concat byte) gs.
Proof. induction 1 as [|b g bs gs Hb _ IH]; [done|]. cbn. by rewrite IH, (holds_content b g Hb). Qed.

(** Filling a buffer, once the message is known to fit. *)
Lemma fill_spec b g data :
  holds b g -> zlen data < avali SZ (default (mkFixedBuffer [] 0) b) ->
  exists x x', b = Some x /\ FixedBuffer.Append SZ x data = Some x' /\ holds (Some x') (g ++ [data]).
Proof.
  intros (x & -> & Hwf & Hc) Hlen. cbn in Hlen. rewrite avali_eq in Hlen by done.
  destruct (FixedBuffer_Append_spec SZ HSZ x data Hwf Hlen) as (x' & E' & Hwf' & Hc' & _).
  exists x, x'. split; [done|]. split; [done|]. exists x'. split; [done|]. split; [done|].
  rewrite Hc', Hc, concat_app. cbn. by rewrite app_nil_r.
Qed.

Lemma fill_empty_spec b data :
  is_empty b ->
  exists x x', b = Some x /\ FixedBuffer.Append SZ x (take (Z.to_nat (u32 (zlen data))) data) = Some x' /\
    holds (Some x') (accept data).
Proof.
  intros Hb. pose proof Hb as (x & -> & Hwf & Hl). unfold accept. set (m := take _ data).
  destruct (Z.ltb_spec (zlen m) SZ) as [H|H].
  - destruct (fill_spec (Some x) [] m) as (y & x' & [= <-] & E' & Hx'); [by apply is_empty_holds|cbn; rewrite avali_eq by done; lia|].
    by exists x, x'.
  - exists x, x. split; [done|]. rewrite FixedBuffer_Append_full by (done || lia). split; [done|]. by apply is_empty_holds.
Qed.

Lemma u32_take (data : list byte) : zlen data < 2 ^ 32 -> take (Z.to_nat (u32 (zlen data))) data = data.
Proof. intros H. pose proof (zlen_nonneg data). rewrite u32_id by lia. unfold zlen. by rewrite Nat2Z.id, firstn_all. Qed.

Lemma Append_inv out0 s ps gd gb gc data :
  log_inv out0 s ps gd gb gc ->
  exists s' gb' gc', Append SZ garbage s data = Some s' /\ log_inv out0 s' ps gd gb' gc' /\
    concat gb' ++ gc' = concat gb ++ gc ++ accept data /\ at_ s' = at_ s.
Proof.
  intros I. pose proof (li_current _ _ _ _ _ _ I) as Hc. pose proof Hc as (x & Ex & Hwf & Hcont).
  unfold Append. rewrite Ex. cbn [mbind option_bind]. destruct (Z.ltb_spec (zlen data) (avali SZ x)) as [H|H].
  - assert (zlen data < SZ) as Hlt by (rewrite avali_eq in H by done; destruct Hwf; lia).
    rewrite u32_take by lia. destruct (fill_spec _ _ data Hc) as (y & x' & Ey & E' & Hx'); [by rewrite Ex|].
    rewrite Ex in Ey. injection Ey as <-. rewrite E'. cbn [mbind option_bind]. eexists _, gb, (gc ++ [data]).
    split; [done|]. split; [|unfold accept; rewrite u32_take, (proj2 (Z.ltb_lt _ _)) by lia; split; [by rewrite app_assoc|done]].
    by destruct I; split.
  - assert (exists b x', (match next_buffer_ s with None => new_Buffer garbage | Some b => b end) = b /\
      FixedBuffer.Append SZ b (take (Z.to_nat (u32 (zlen data))) data) = Some x' /\ holds (Some x') (accept data)) as (b & x' & Eb & E' & Hx').
    { destruct (li_next _ _ _ _ _ _ I) as [Hn|[Hn _]].
      - destruct (fill_empty_spec _ data Hn) as (b & x' & Eb & E' & Hx'). exists b, x'. by rewrite Eb.
      - destruct (fill_empty_spec _ data new_Buffer_empty) as (b & x' & [= <-] & E' & Hx'). exists (new_Buffer garbage), x'. by rewrite Hn. }
    rewrite Eb, E'. cbn [mbind option_bind]. eexists _, (gb ++ [gc]), (accept data). split; [done|].
    split; [|split; [rewrite concat_app; cbn; by rewrite app_nil_r, app_assoc|done]].
    destruct I; split; cbn; try done.
    + apply Forall2_app; [done|]. constructor; [by rewrite <- Ex|constructor].
    + right. split; [done|]. by destruct (buffers_ s).
Qed.

Lemma collect_inv out0 s ps gd gb gc :
  log_inv out0 s ps gd gb gc -> at_ s = Locking \/ at_ s = Waiting ->
  log_inv out0 (collect s) ps (gb ++ [gc]) [] [] /\ gd = [] /\ at_ (collect s) = Writing.
Proof.
  intros [Hc Hb Hd Hn Hp Hs Ho] Hat.
  assert (is_empty (buffer1 s) /\ is_empty (buffer2 s) /\ buffers_dup_ s = []) as (H1 & H2 & Hdup).
  { unfold phase_inv in Hp. by destruct Hat as [E'|E']; rewrite E' in Hp. }
  rewrite Hdup in Hd. apply Forall2_nil_inv_l in Hd as ->.
  assert (Forall2 holds (buffers_ s ++ [current_buffer_ s]) (gb ++ [gc])) as Hall
    by (apply Forall2_app; [done|]; constructor; [done|constructor]).
  assert (0 < length (buffers_ s ++ [current_buffer_ s]))%nat as Hlen by (rewrite length_app; cbn; lia).
  pose proof (is_empty_holds _ H1) as H1'.
  unfold collect. rewrite Hdup. cbn [next_buffer_ buffers_ buffers_dup_ buffer1 buffer2 running_ current_buffer_ output].
  destruct (next_buffer_ s) as [n|]; (split; [|done]); split; cbn; try done.
  - by destruct Hn as [Hn|[Hn _]]; [left|].
  - unfold phase_inv. cbn. by split_and!; [| |left].
  - by left.
  - unfold phase_inv. cbn. split_and!; [done|done|]. right. split; [done|]. destruct Hn as [(y & ? & _)|[_ Hn]]; [done|].
    rewrite length_app. destruct (buffers_ s); [done|cbn; lia].
Qed.

Lemma write_buffers_spec out bs gs es :
  Forall2 holds bs gs -> (length bs <= length es)%nat -> Forall sink_ok es -> sink_wf out ->
  exists out', write_buffers out bs es = Some out' /\ sink_wf out' /\
    sink_bytes out' = sink_bytes out ++ concat (map (@concat byte) gs).
Proof.
  intros Hbs. revert out es. induction Hbs as [|b g bs gs Hb _ IH]; intros out es Hlen Hes Hout; cbn [write_buffers].
  - exists out. cbn. by rewrite app_nil_r.
  - destruct es as [|e es]; [cbn in Hlen; lia|]. apply Forall_cons in Hes as [He Hes].
    destruct Hb as (x & -> & Hwf & Hc). cbn [mbind option_bind]. rewrite (ToStringView_eq SZ x Hwf), Hc. cbn [mbind option_bind].
    destruct (sink_append_law out (concat g) e Hout He) as (out1 & -> & Hout1 & Hb1). cbn [mbind option_bind].
    destruct (IH out1 es) as (out2 & -> & Hout2 & Hb2); [cbn in Hlen; lia|done|done|].
    exists out2. split; [done|]. split; [done|]. cbn. by rewrite Hb2, Hb1, app_assoc.
Qed.

Lemma refill_spec b dup gs :
  Forall2 holds dup gs -> is_empty b \/ b = None /\ (0 < length dup)%nat ->
  exists b' dup' gs', refill b dup = Some (b', dup') /\ is_empty b' /\ Forall2 holds dup' gs' /\
    (b = None -> length dup' = pred (length dup)) /\ (b <> None -> dup' = dup).
Proof.
  intros Hd [Hb|[-> Hlen]].
  - destruct Hb as (x & -> & Hx). exists (Some x), dup, gs. split; [done|]. split; [by exists x|]. by split.
  - destruct dup as [|b0 dup0] using rev_ind; [cbn in Hlen; lia|]. clear IHdup0.
    apply Forall2_app_inv_l in Hd as (g1 & g2 & Hd1 & Hd2 & ->). inversion Hd2 as [|? g ? ? Hb0]; subst.
    destruct (reset_empty _ _ Hb0) as (x & -> & Hx). unfold refill. rewrite last_snoc. cbn.
    rewrite removelast_last. eexists _, _, g1. split; [done|]. split; [done|]. split; [done|].
    split; [|done]. intros _. rewrite length_app. cbn. lia.
Qed.

Lemma discard_notice_Some n time : exists txt, discard_notice n time = Some txt.
Proof.
  unfold discard_notice. pose proof (wrap_range 64 (Z.of_nat n) ltac:(lia)).
  destruct (int2Str_spec (u64 (Z.of_nat n))) as (t & -> & _); [lia|]. by eexists.
Qed.

(** Everything up to the end of a pass, in the output. *)
Lemma write_pass_spec out dup gd time e0 es :
  Forall2 holds dup gd -> (length dup <= length es)%nat -> sink_ok e0 -> Forall sink_ok es -> sink_wf out ->
  exists out1 out2, (if (BUFFER_BOUND <? length dup)%nat then
      notice ← discard_notice (length dup - BUFFER_BOUND) time; o ← sink_append out notice e0; Some (o, take BUFFER_BOUND dup)
    else Some (out, dup)) = Some (out1, take BUFFER_BOUND dup) /\
    write_buffers out1 (take BUFFER_BOUND dup) es = Some out2 /\ sink_wf out2 /\
    sink_bytes out2 = sink_bytes out ++ pass_out (gd, time).
Proof.
  intros Hd Hlen He0 Hes Hout. pose proof (Forall2_length _ _ _ Hd) as Hl.
  assert (Forall2 holds (take BUFFER_BOUND dup) (take BUFFER_BOUND gd)) as Ht by by apply Forall2_take.
  assert (length (take BUFFER_BOUND dup) <= length es)%nat as Hlt by (rewrite length_take; lia).
  unfold pass_out. cbn [fst snd]. rewrite <- Hl. destruct (Nat.ltb_spec BUFFER_BOUND (length dup)) as [H|H].
  - destruct (discard_notice_Some (length dup - BUFFER_BOUND) time) as (txt & ->). cbn [mbind option_bind from_option].
    destruct (sink_append_law out txt e0 Hout He0) as (out1 & -> & Hout1 & Hb1). cbn [mbind option_bind].
    destruct (write_buffers_spec out1 _ _ es Ht Hlt Hes Hout1) as (out2 & E2 & Hout2 & Hb2).
    exists out1, out2. split; [done|]. split; [done|]. split; [done|]. by rewrite Hb2, Hb1, app_assoc.
  - destruct (write_buffers_spec out _ _ es Ht Hlt Hes Hout) as (out2 & E2 & Hout2 & Hb2).
    exists out, out2. split; [|done]. by rewrite (take_ge dup).
Qed.

Lemma write_out_inv out0 s ps gd gb gc time e0 es :
  log_inv out0 s ps gd gb gc -> at_ s = Writing -> (length (buffers_dup_ s) <= length es)%nat ->
  sink_ok e0 -> Forall sink_ok es ->
  exists s', write_out s time e0 es = Some s' /\ log_inv out0 s' (ps ++ [(gd, time)]) [] gb gc /\ at_ s' = Top /\
    sink_durable (output s') = sink_bytes (output s') /\ running_ s' = running_ s.
Proof.
  intros [Hc Hb Hd Hn Hp Hs Ho] Hat Hlen He0 Hes. unfold phase_inv in Hp. rewrite Hat in Hp. destruct Hp as (H1 & Hne & H2).
  destruct (write_pass_spec (output s) _ gd time e0 es Hd Hlen He0 Hes Hs) as (out1 & out2 & E1 & E2 & Hs2 & Hb2).
  unfold write_out. rewrite E1. cbn [mbind option_bind]. rewrite E2. cbn [mbind option_bind].
  set (dup := if (2 <? _)%nat then _ else _).
  assert (dup = take 2 (take BUFFER_BOUND (buffers_dup_ s))) as Edup.
  { unfold dup. destruct (Nat.ltb_spec 2 (length (take BUFFER_BOUND (buffers_dup_ s)))) as [H|H]; [done|]. by rewrite (take_ge _ 2). }
  rewrite take_take in Edup. change (2 `min` BUFFER_BOUND)%nat with 2%nat in Edup.
  assert (Forall2 holds dup (take 2 gd)) as Hdup by (rewrite Edup; by apply Forall2_take).
  assert (length dup = Nat.min 2 (length (buffers_dup_ s))) as Hld by (rewrite Edup; apply length_take).
  destruct (refill_spec (buffer1 s) dup _ Hdup) as (b1 & dup1 & g1 & -> & Hb1 & Hdup1 & Hl1 & _); [right; split; [done|lia]|].
  cbn [mbind option_bind]. specialize (Hl1 H1).
  destruct (refill_spec (buffer2 s) dup1 _ Hdup1) as (b2 & dup2 & g2 & -> & Hbb2 & _).
  { destruct H2 as [H2|[H2 H2']]; [by left|]. right. split; [done|lia]. }
  cbn [mbind option_bind]. destruct (sink_flush_law out2 Hs2) as (F1 & F2 & F3).
  eexists. split; [done|]. split; [|split_and!; [done|cbn; congruence|done]].
  split; cbn; try done. rewrite map_app, concat_app. cbn. rewrite app_nil_r, app_assoc, <- Ho, F2. done.
Qed.

Definition back_label (l : label (E := E)) : bool :=
  match l with LTest | LLock | LWake | LWrite _ _ _ => true | _ => false end.

(** Every enabled step succeeds, keeps the invariant and loses no message. *)
Lemma log_exec_inv out0 s ps gd gb gc l :
  log_inv out0 s ps gd gb gc -> label_ok l -> enabled l s = true ->
  exists s' ps' gd' gb' gc', exec SZ garbage l s = Some s' /\ log_inv out0 s' ps' gd' gb' gc' /\
    concat (concat (map fst ps')) ++ concat gd' ++ concat gb' ++ gc' =
      concat (concat (map fst ps)) ++ concat gd ++ concat gb ++ gc ++ accepted [l].
Proof.
  intros I Hok Hen. destruct l as [data| | | | | |time e0 es]; cbn [enabled exec] in *.
  - destruct (Append_inv _ _ _ _ _ _ data I) as (s' & gb' & gc' & E' & I' & Heq & _).
    exists s', ps, gd, gb', gc'. split; [done|]. split; [done|]. rewrite Heq. cbn. by rewrite app_nil_r.
  - apply bool_decide_eq_true_1 in Hen. pose proof (li_phase _ _ _ _ _ _ I) as Hp. unfold phase_inv in Hp. rewrite Hen in Hp.
    destruct Hp as [Hr Hdup]. unfold StartRun. rewrite Hr. cbn [check negb mbind option_bind].
    eexists _, ps, gd, gb, gc. split; [done|]. split; [|cbn; by rewrite app_nil_r].
    destruct I; split; try done. unfold phase_inv. cbn. split_and!; [apply zero_empty|apply zero_empty|done].
  - unfold Stop. rewrite Hen. cbn [check mbind option_bind]. eexists _, ps, gd, gb, gc. split; [done|].
    split; [|cbn; by rewrite app_nil_r]. destruct I as [? ? ? ? Hp ? ?]; split; try done. unfold phase_inv in *. cbn.
    destruct (at_ s); try done. all: by destruct Hp as [Hr _]; rewrite Hr in Hen.
  - apply bool_decide_eq_true_1 in Hen. pose proof (li_phase _ _ _ _ _ _ I) as Hp. unfold phase_inv in Hp. rewrite Hen in Hp.
    destruct Hp as (H1 & H2 & Hdup). unfold loop_test. destruct (running_ s) eqn:Hr.
    + rewrite !check_bind_true by (by apply is_empty_holds_empty || by apply bool_decide_eq_true_2).
      eexists _, ps, gd, gb, gc. split; [done|]. split; [|cbn; by rewrite app_nil_r]. by destruct I; split.
    + destruct (sink_flush_law (output s)) as (F1 & F2 & F3); [apply I|]. eexists _, ps, gd, gb, gc. split; [done|].
      split; [|cbn; by rewrite app_nil_r]. destruct I; split; try done. cbn. by rewrite F2.
  - apply bool_decide_eq_true_1 in Hen. unfold lock_mutex. destruct (buffers_ s) eqn:Eb.
    + eexists _, ps, gd, gb, gc. split; [done|]. split; [|cbn; by rewrite app_nil_r]. destruct I as [? ? ? ? Hp ? ?]; split; try done.
      unfold phase_inv in *. by rewrite Hen in Hp.
    + destruct (collect_inv _ _ _ _ _ _ I) as (I' & -> & _); [by left|]. eexists _, ps, _, _, _. split; [done|].
      split; [exact I'|]. rewrite concat_app. cbn. by rewrite !app_nil_r.
  - apply bool_decide_eq_true_1 in Hen. destruct (collect_inv _ _ _ _ _ _ I) as (I' & -> & _); [by right|].
    eexists _, ps, _, _, _. split; [done|]. split; [exact I'|]. rewrite concat_app. cbn. by rewrite !app_nil_r.
  - apply andb_true_iff in Hen as [Hen Hlen]. apply bool_decide_eq_true_1 in Hen. apply Nat.leb_le in Hlen. destruct Hok as [He0 Hes].
    destruct (write_out_inv _ _ _ _ _ _ time e0 es I Hen Hlen He0 Hes) as (s' & E' & I' & _).
    eexists _, _, _, _, _. split; [exact E'|]. split; [exact I'|]. rewrite map_app, concat_app, concat_app. cbn.
    by rewrite !app_nil_r, <- !app_assoc.
Qed.

Lemma log_run_app ls1 ls2 s : run SZ garbage s (ls1 ++ ls2) = (s' ← run SZ garbage s ls1; run SZ garbage s' ls2).
Proof.
  revert s. induction ls1 as [|l ls1 IH]; intros s; [done|]. cbn. destruct (enabled l s); [|done]. cbn.
  destruct (exec SZ garbage l s); [apply IH|done].
Qed.

Lemma log_run_inv ls out0 s ps gd gb gc s' :
  log_inv out0 s ps gd gb gc -> Forall label_ok ls -> run SZ garbage s ls = Some s' ->
  exists ps' gd' gb' gc', log_inv out0 s' ps' gd' gb' gc' /\
    concat (concat (map fst ps')) ++ concat gd' ++ concat gb' ++ gc' =
      concat (concat (map fst ps)) ++ concat gd ++ concat gb ++ gc ++ accepted ls.
Proof.
  revert s ps gd gb gc. induction ls as [|l ls IH]; intros s ps gd gb gc I Hok E'.
  - injection E' as <-. exists ps, gd, gb, gc. cbn. by rewrite app_nil_r.
  - apply Forall_cons in Hok as [Hl Hok]. cbn in E'. destruct (enabled l s) eqn:En; [|discriminate]. cbn in E'.
    destruct (log_exec_inv _ _ _ _ _ _ l I Hl En) as (s1 & ps1 & gd1 & gb1 & gc1 & E1 & I1 & Heq). rewrite E1 in E'. cbn in E'.
    destruct (IH _ _ _ _ _ I1 Hok E') as (ps2 & gd2 & gb2 & gc2 & I2 & Heq2). exists ps2, gd2, gb2, gc2. split; [done|].
    rewrite Heq2. rewrite !app_assoc in Heq |- *. rewrite Heq. rewrite <- !app_assoc. do 4 f_equal. cbn. by rewrite app_nil_r.
Qed.

Lemma make_AsyncLog_inv out : sink_wf out -> log_inv (sink_bytes out) (make_AsyncLog SZ garbage out) [] [] [] [].
Proof.
  intros Hout. split; cbn; try done.
  - apply is_empty_holds, zero_empty.
  - left. apply zero_empty.
  - by rewrite app_nil_r.
Qed.

Lemma concat_concat {A} (l : list (list (list A))) : concat (concat l) = concat (map (@concat A) l).
Proof. induction l as [|x l IH]; [done|]. cbn. by rewrite concat_app, IH. Qed.

Lemma memory_eq out0 s ps gd gb gc : log_inv out0 s ps gd gb gc -> memory s = concat (concat gd ++ concat gb ++ gc).
Proof.
  intros [Hc Hb Hd _ _ _ _]. unfold memory. rewrite !map_app, (holds_contents _ _ Hd), (holds_contents _ _ Hb).
  rewrite !concat_app, !concat_concat. cbn. by rewrite (holds_content _ _ Hc), app_nil_r.
Qed.

(** C14 In every interleaving of front threads with the back thread the accepted
    messages are, in the order of the appends, those of the passes made so far
    followed by those still in memory; the log file got what each pass writes,
    which is all of its messages unless it found more than 16 buffers; and no
    step that can be taken fails an assertion, follows a null pointer or writes
    outside a buffer. *)
Theorem log_stream out ls s :
  sink_wf out -> Forall label_ok ls -> run SZ garbage (make_AsyncLog SZ garbage out) ls = Some s ->
  (exists passes pending,
    accepted ls = concat (concat (map fst passes)) ++ pending /\ memory s = concat pending /\
    sink_bytes (output s) = sink_bytes out ++ concat (map pass_out passes)) /\
  (forall l, label_ok l -> enabled l s = true -> is_Some (exec SZ garbage l s)).
Proof.
  intros Hout Hok E'. destruct (log_run_inv ls _ _ _ _ _ _ s (make_AsyncLog_inv out Hout) Hok E') as (ps & gd & gb & gc & I & Heq).
  split.
  - exists ps, (concat gd ++ concat gb ++ gc). split; [by rewrite Heq|]. split; [by eapply memory_eq|apply I].
  - intros l Hl En. destruct (log_exec_inv _ _ _ _ _ _ l I Hl En) as (s' & _ & _ & _ & _ & E1 & _). by exists s'.
Qed.

(** The rest of a pass, once the mutex is about to be taken. *)
Lemma pass_from_collected out0 s ps gd gb gc e :
  log_inv out0 s ps gd gb gc -> at_ s = Writing -> sink_ok e ->
  exists l s', back_label l = true /\ label_ok l /\ run SZ garbage s [l] = Some s' /\ at_ s' = Top /\ running_ s' = running_ s /\
    (exists ps', log_inv out0 s' ps' [] gb gc) /\ sink_durable (output s') = sink_bytes (output s').
Proof.
  intros I Hat He. set (es := repeat e (length (buffers_dup_ s))).
  assert (Forall sink_ok es) as Hes by (apply Forall_forall; intros x Hx%list_elem_of_In%repeat_spec; by subst).
  assert (length es = length (buffers_dup_ s)) as Hlen by apply repeat_length.
  destruct (write_out_inv _ _ _ _ _ _ [] e es I Hat ltac:(lia) He Hes) as (s' & E' & I' & Ht & Hd & Hr).
  exists (LWrite [] e es), s'. split; [done|]. split; [done|]. split.
  { cbn [run enabled exec]. rewrite Hat, bool_decide_eq_true_2 by done. rewrite (proj2 (Nat.leb_le _ _)) by lia. cbn [andb check mbind option_bind]. by rewrite E'. }
  split_and!; try done. by eexists.
Qed.

Lemma pass_from_locking out0 s ps gd gb gc e :
  log_inv out0 s ps gd gb gc -> at_ s = Locking -> sink_ok e ->
  exists ls s', forallb back_label ls = true /\ (length ls <= 3)%nat /\ run SZ garbage s ls = Some s' /\
    (exists ps', log_inv out0 s' ps' [] [] []) /\ sink_durable (output s') = sink_bytes (output s').
Proof.
  intros I Hat He. assert (exists ls1 s1, forallb back_label ls1 = true /\ (length ls1 <= 2)%nat /\ run SZ garbage s ls1 = Some s1 /\
    at_ s1 = Writing /\ exists gd1, log_inv out0 s1 ps gd1 [] []) as (ls1 & s1 & Hb1 & Hl1 & E1 & Hat1 & gd1 & I1).
  { destruct (collect_inv _ _ _ _ _ _ I) as (I1 & -> & Hat1); [by left|]. destruct (buffers_ s) eqn:Eb.
    - exists [LLock; LWake], (collect (with_phase s Waiting)). split; [done|]. split; [done|].
      split; [cbn; rewrite Hat; cbn; unfold lock_mutex; by rewrite Eb|].
      assert (log_inv out0 (with_phase s Waiting) ps [] gb gc) as I3
        by (destruct I as [? ? ? ? Hp ? ?]; split; try done; unfold phase_inv in *; by rewrite Hat in Hp).
      destruct (collect_inv _ _ _ _ _ _ I3) as (I4 & _ & Hat4); [by right|]. split; [done|]. by eexists.
    - exists [LLock], (collect s). split; [done|]. split; [cbn; lia|].
      split; [cbn; rewrite Hat; cbn; unfold lock_mutex; by rewrite Eb|]. split; [done|]. by eexists. }
  destruct (pass_from_collected _ _ _ _ _ _ e I1 Hat1 He) as (l & s2 & Hbl & _ & E2 & _ & _ & I2 & Hd).
  exists (ls1 ++ [l]), s2. split; [rewrite forallb_app, Hb1; cbn; by rewrite Hbl|]. split; [rewrite length_app; cbn; lia|].
  split; [rewrite log_run_app, E1; exact E2|]. by split.
Qed.

(** While the log runs, at most five steps of the back thread alone put
    everything that was accepted before them into the log file, or into the
    buffers it discards, and flush the file. *)
Theorem log_pass_writes out ls s e :
  sink_wf out -> Forall label_ok ls -> run SZ garbage (make_AsyncLog SZ garbage out) ls = Some s ->
  running_ s = true -> sink_ok e ->
  exists ls' s', forallb back_label ls' = true /\ (length ls' <= 5)%nat /\ run SZ garbage s ls' = Some s' /\
    memory s' = [] /\ sink_durable (output s') = sink_bytes (output s').
Proof.
  intros Hout Hok E' Hr He.
  destruct (log_run_inv ls _ _ _ _ _ _ s (make_AsyncLog_inv out Hout) Hok E') as (ps & gd & gb & gc & I & _). clear E'.
  assert (forall s1 ls1, forallb back_label ls1 = true -> (length ls1 <= 2)%nat -> run SZ garbage s ls1 = Some s1 -> at_ s1 = Locking ->
    (exists ps1 gd1 gb1 gc1, log_inv (sink_bytes out) s1 ps1 gd1 gb1 gc1) ->
    exists ls' s', forallb back_label ls' = true /\ (length ls' <= 5)%nat /\ run SZ garbage s ls' = Some s' /\
    memory s' = [] /\ sink_durable (output s') = sink_bytes (output s')) as Hlock.
  { intros s1 ls1 Hb1 Hl1 E1 Hat1 (ps1 & gd1 & gb1 & gc1 & I1).
    destruct (pass_from_locking _ _ _ _ _ _ e I1 Hat1 He) as (ls2 & s2 & Hb2 & Hl2 & E2 & (ps2 & I2) & Hd).
    exists (ls1 ++ ls2), s2. split; [by rewrite forallb_app, Hb1, Hb2|]. split; [rewrite length_app; lia|].
    split; [by rewrite log_run_app, E1|]. split; [by rewrite (memory_eq _ _ _ _ _ _ I2)|done]. }
  assert (forall s1 ps1 gd1 gb1 gc1, log_inv (sink_bytes out) s1 ps1 gd1 gb1 gc1 -> running_ s1 = true -> at_ s1 = Top ->
    run SZ garbage s1 [LTest] = Some (with_phase s1 Locking) /\ log_inv (sink_bytes out) (with_phase s1 Locking) ps1 gd1 gb1 gc1) as Htest.
  { intros s1 ps1 gd1 gb1 gc1 I1 Hr1 Hat1. pose proof (li_phase _ _ _ _ _ _ I1) as Hp. unfold phase_inv in Hp. rewrite Hat1 in Hp.
    destruct Hp as (H1 & H2 & Hdup). split; [|by destruct I1; split]. cbn [run enabled exec]. rewrite Hat1. unfold loop_test. rewrite Hr1.
    cbn [check bool_decide]. rewrite (is_empty_holds_empty _ H1), (is_empty_holds_empty _ H2), (bool_decide_eq_true_2 _ Hdup). done. }
  destruct (at_ s) eqn:Hat.
  - pose proof (li_phase _ _ _ _ _ _ I) as Hp. unfold phase_inv in Hp. rewrite Hat in Hp. destruct Hp as [Hp _]. congruence.
  - destruct (Htest _ _ _ _ _ I Hr Hat) as [E1 I1]. apply (Hlock (with_phase s Locking) [LTest]); [done|cbn; lia|done|done|by eauto].
  - apply (Hlock s []); [done|cbn; lia|done|done|by eauto].
  - destruct (collect_inv _ _ _ _ _ _ I) as (I1 & -> & Hat1); [by right|].
    destruct (pass_from_collected _ _ _ _ _ _ e I1 Hat1 He) as (l & s2 & Hbl & _ & E2 & _ & _ & (ps2 & I2) & Hd).
    exists [LWake; l], s2. split; [cbn; by rewrite Hbl|]. split; [cbn; lia|]. split; [|split; [by rewrite (memory_eq _ _ _ _ _ _ I2)|done]].
    change [LWake; l] with ([LWake] ++ [l]). rewrite log_run_app. cbn [run enabled exec]. rewrite Hat. exact E2.
  - destruct (pass_from_collected _ _ _ _ _ _ e I Hat He) as (l & s1 & Hbl & _ & E1 & Hat1 & Hr1 & (ps1 & I1) & _).
    destruct (Htest _ _ _ _ _ I1 ltac:(congruence) Hat1) as [E2 I2].
    apply (Hlock (with_phase s1 Locking) [l; LTest]); [cbn; by rewrite Hbl|cbn; lia| |done|by eauto].
    change [l; LTest] with ([l] ++ [LTest]). rewrite log_run_app, E1. exact E2.
  - pose proof (li_phase _ _ _ _ _ _ I) as Hp. unfold phase_inv in Hp. rewrite Hat in Hp. destruct Hp as [Hp _]. congruence.
Qed.

End promises.

(** ** Concrete runs, with buffers of eight bytes *)

Definition sample_env : append_env := mkAppendEnv None 1 (sample_roll 1).

Definition sample_log : LogFile :=
  mkLogFile (str "app") [] 1000 0 86400 1 1 3 UINT_MAX (Some (mkAppendFile (str "app.log") [] 0)) [str "app.log"] [] [].

Definition sample_sink : LogSink LogFile append_env := LogFile_sink sample_stamp [] [].

Definition sample_labels : list (label (E := append_env)) :=
  [LStart; LAppend (str "hello"); LTest; LAppend (str "world"); LLock; LAppend (str "!"); LWrite [] sample_env [sample_env; sample_env];
   LTest; LLock].

Definition sample_run : option (AsyncLog (S := LogFile)) :=
  @run 8 (repeat x00 8) LogFile append_env sample_sink
    (@make_AsyncLog 8 (repeat x00 8) LogFile sample_log) sample_labels.

Lemma sample_ok :
  0 < 8 < 2 ^ 32 /\ zlen (repeat x00 8) = 8 /\ @sink_wf LogFile append_env sample_sink sample_log /\
  Forall (@label_ok LogFile append_env sample_sink) sample_labels /\ @sink_ok LogFile append_env sample_sink sample_env.
Proof.
  split; [done|]. split; [done|]. assert (append_env_ok sample_env) as He by done. split; [|split; [|exact He]].
  - split; [done|]. by eexists.
  - repeat (apply Forall_cons; split); try exact Logic.I; [|apply Forall_nil; exact Logic.I].
    split; [exact He|]. by repeat constructor.
Qed.

Lemma log_stream_witness :
  exists s, sample_run = Some s /\
  (exists passes pending,
    accepted 8 sample_labels = concat (concat (map fst passes)) ++ pending /\ memory s = concat pending /\
    appended_bytes (output s) = appended_bytes sample_log ++ concat (map pass_out passes)) /\
  (forall l, @label_ok LogFile append_env sample_sink l -> enabled l s = true ->
    is_Some (@exec 8 (repeat x00 8) LogFile append_env sample_sink l s)).
Proof.
  destruct sample_ok as (H1 & H2 & H3 & H4 & _).
  assert (is_Some sample_run) as [s Es] by (vm_compute; by eexists). exists s. split; [exact Es|].
  exact (@log_stream 8 (repeat x00 8) LogFile append_env sample_sink H1 H2 sample_log sample_labels s H3 H4 Es).
Defined.

Lemma log_pass_writes_witness :
  exists s, sample_run = Some s /\ running_ s = true /\
  exists ls' s', forallb back_label ls' = true /\ (length ls' <= 5)%nat /\
    @run 8 (repeat x00 8) LogFile append_env sample_sink s ls' = Some s' /\
    memory s' = [] /\ @sink_durable LogFile append_env sample_sink (output s') = @sink_bytes LogFile append_env sample_sink (output s').
Proof.
  destruct sample_ok as (H1 & H2 & H3 & H4 & H5).
  assert (exists s, sample_run = Some s /\ running_ s = true) as (s & Es & Hr) by (vm_compute; by eexists).
  exists s. split; [exact Es|]. split; [exact Hr|].
  exact (@log_pass_writes 8 (repeat x00 8) LogFile append_env sample_sink H1 H2 sample_log sample_labels s sample_env H3 H4 Es Hr H5).
Defined.

(** Stop called while the back thread is at the test of its loop: the thread
    ends and the message appended before is never written. *)
Lemma stop_drops_messages :
  exists s, @run 8 (repeat x00 8) LogFile append_env sample_sink (@make_AsyncLog 8 (repeat x00 8) LogFile sample_log)
              [LStart; LAppend (str "bye"); LStop; LTest] = Some s /\
    at_ s = Ended /\ memory s = str "bye" /\ appended_bytes (output s) = [].
Proof. eexists. split; [vm_compute; reflexivity|]. by split_and!. Qed.
