(* ===== verification/Rpc.v ===== *)
(** * Remote procedure calls: kanon/rpc/rpc_channel.{h,cc}, rpc_controller.{h,cc},
      rpc_server.h, rpc.proto

    A channel is used on both sides of a connection: the client's sends requests
    and keeps the calls that wait for a response, the server's looks up services
    and answers.  Messages travel in order in both directions, which is what the
    codec and the connection provide; services complete their calls in any
    order.  Services, methods and the payloads' serialisation are protobuf's and
    parameters.  A fatal log line ends the program and is a failure here. *)

From Stdlib Require Import ZArith Lia.
From stdpp Require Import gmap.
From S2P Require Import Prelude.

(** ** rpc.proto *)

Inductive ErrorCode :=
  kNoError | kInvalidMessage | kNoService | kNoMethod | kInvalidRequest | kInvalidResponse | kCancelRpc.

Inductive MessageType := kResponse | kRequest.

#[global] Instance ErrorCode_eq_dec : EqDecision ErrorCode.
Proof. solve_decision. Defined.

Record RpcMessage := mkRpcMessage {
  m_type : MessageType;
  m_id : Z;
  m_service : option (list byte);
  m_method : option (list byte);
  m_request : option (list byte);
  m_response : option (list byte);
  m_error : option ErrorCode;
  m_deadline : option Z
}.

(** ** RpcController *)

Definition INVALID_DEADLINE : Z := 2 ^ 64 - 1.

(** A controller is its deadline, in milliseconds. *)
Definition RpcController := Z.

Definition make_RpcController : RpcController := INVALID_DEADLINE.
Definition Reset (_ : RpcController) : RpcController := INVALID_DEADLINE.
Definition SetTimeout (now_ms timeout : Z) : RpcController := u64 (now_ms + timeout).
Definition SetDeadline (dead_line : Z) : RpcController := u64 dead_line.
Definition IsCanceled (c : RpcController) (now_us : Z) : bool :=
  if negb (c =? INVALID_DEADLINE) then c <? Z.quot now_us 1000 else false.

(** ** RpcChannel *)

Definition closure := nat.   (* a user's done *)
Definition msg_ptr := nat.   (* a user's response object *)

Record OutstandingCall := mkOutstandingCall { oc_response : option msg_ptr; oc_done : option closure }.

Section rpc.
Context {Service Method Request Response : Type}.
Context (FindMethodByName : Service -> list byte -> option Method).
Context (ParseRequest : Method -> list byte -> option Request).
Context (SerializeResponse : Response -> list byte).
Context (ParseResponse : list byte -> option Response).

(** A call the service works on; its done is [SendRpcResponse] with the id. *)
Record served := mkServed { sv_id : Z; sv_method : Method; sv_request : Request; sv_controller : RpcController }.

Record RpcChannel := mkRpcChannel {
  id_ : Z;
  services_ : gmap (list byte) Service;
  outstanding_calls_ : gmap Z OutstandingCall;
  sent : list RpcMessage;                        (* given to the codec, not yet at the peer *)
  timers : list (Z * Z);                         (* RunAt: microseconds and the id to erase *)
  serving : list served;
  ran : list (closure * msg_ptr * Response)      (* the dones run, with the parsed response *)
}.

Definition make_RpcChannel (id : Z) (services : gmap (list byte) Service) : RpcChannel :=
  mkRpcChannel id services ∅ [] [] [] [].

Definition codec_Send (ch : RpcChannel) (m : RpcMessage) : RpcChannel :=
  mkRpcChannel (id_ ch) (services_ ch) (outstanding_calls_ ch) (sent ch ++ [m]) (timers ch) (serving ch) (ran ch).

Definition with_calls (ch : RpcChannel) (m : gmap Z OutstandingCall) : RpcChannel :=
  mkRpcChannel (id_ ch) (services_ ch) m (sent ch) (timers ch) (serving ch) (ran ch).

Definition ErrorHandle (ch : RpcChannel) (id : Z) (error_code : ErrorCode) : RpcChannel :=
  codec_Send ch (mkRpcMessage kResponse id None None None None (Some error_code) None).

(** What a stub asks for: names, serialised request, response object and done
    (both absent for a notification) and the controller. *)
Record call := mkCall {
  c_service : list byte;
  c_method : list byte;
  c_request : list byte;
  c_response : option msg_ptr;
  c_done : option closure;
  c_controller : RpcController
}.

(** What [CallMethod] hands to the loop. *)
Record task := mkTask {
  t_message : RpcMessage;
  t_response : option msg_ptr;
  t_done : option closure;
  t_controller : RpcController
}.

(** [CallMethod]. The id is read and then incremented, in two atomic operations between
    which other threads may come. *)
Definition load_id (ch : RpcChannel) : Z := id_ ch.
Definition fetch_add_id (ch : RpcChannel) : RpcChannel :=
  mkRpcChannel (u64 (id_ ch + 1)) (services_ ch) (outstanding_calls_ ch) (sent ch) (timers ch) (serving ch) (ran ch).

Definition request_message (id : Z) (c : call) : RpcMessage :=
  mkRpcMessage kRequest id (Some (c_service c)) (Some (c_method c)) (Some (c_request c)) None None None.

(** A thread in [CallMethod] that has read the id, and whether it has incremented it. *)
Record calling_thread := mkCalling { th_call : call; th_in_loop : bool; th_id : Z; th_added : bool }.

Definition CallMethod_load (ch : RpcChannel) (in_loop : bool) (c : call) : calling_thread :=
  mkCalling c in_loop (load_id ch) false.

Definition CallMethod_add (ch : RpcChannel) (th : calling_thread) : calling_thread * RpcChannel :=
  (mkCalling (th_call th) (th_in_loop th) (th_id th) true, fetch_add_id ch).

(** What it gives to [RunInLoop]. *)
Definition CallMethod_task (th : calling_thread) : task :=
  mkTask (request_message (th_id th) (th_call th)) (c_response (th_call th)) (c_done (th_call th))
    (c_controller (th_call th)).

Definition set_deadline (m : RpcMessage) (d : RpcController) : RpcMessage :=
  if negb (d =? INVALID_DEADLINE)
  then mkRpcMessage (m_type m) (m_id m) (m_service m) (m_method m) (m_request m) (m_response m) (m_error m) (Some d)
  else m.

(** [emplace] leaves an entry that is there. *)
Definition emplace_call (m : gmap Z OutstandingCall) (id : Z) (oc : OutstandingCall) : gmap Z OutstandingCall :=
  match m !! id with Some _ => m | None => <[id := oc]> m end.

Definition SendRpcRequest (ch : RpcChannel) (t : task) : option RpcChannel :=
  let message := t_message t in
  ch ← (match t_done t with
        | Some done => Some (with_calls ch (emplace_call (outstanding_calls_ ch) (m_id message)
                                              (mkOutstandingCall (t_response t) (Some done))))
        | None => assert! negb (bool_decide (is_Some (t_response t))); Some ch
        end);
  let message := set_deadline message (t_controller t) in
  let ch := codec_Send ch message in
  Some (if negb (t_controller t =? INVALID_DEADLINE)
        then mkRpcChannel (id_ ch) (services_ ch) (outstanding_calls_ ch) (sent ch)
               (timers ch ++ [(swrap 64 (t_controller t * 1000), m_id message)]) (serving ch) (ran ch)
        else ch).

(** The timer set for a deadline. *)
Definition deadline_callback (ch : RpcChannel) (id : Z) : RpcChannel :=
  with_calls ch (delete id (outstanding_calls_ ch)).

Definition SendRpcResponse (ch : RpcChannel) (response : Response) (id : Z) : RpcChannel :=
  codec_Send ch (mkRpcMessage kResponse id None None None (Some (SerializeResponse response)) None None).

Definition OnRpcMessageForResponse (ch : RpcChannel) (message : RpcMessage) : option RpcChannel :=
  match m_error message with
  | None =>
    response ← m_response message;
    let id := m_id message in
    assert! id <=? id_ ch;
    match outstanding_calls_ ch !! id with
    | None => Some ch
    | Some oc =>
      let ch := with_calls ch (delete id (outstanding_calls_ ch)) in
      p ← oc_response oc;
      done ← oc_done oc;
      res ← ParseResponse response;
      Some (mkRpcChannel (id_ ch) (services_ ch) (outstanding_calls_ ch) (sent ch) (timers ch) (serving ch)
              (ran ch ++ [(done, p, res)]))
    end
  | Some error => None     (* LOG_FATAL *)
  end.

Definition serve_call (ch : RpcChannel) (s : served) : RpcChannel :=
  mkRpcChannel (id_ ch) (services_ ch) (outstanding_calls_ ch) (sent ch) (timers ch) (serving ch ++ [s]) (ran ch).

Definition OnRpcMessageForRequest (ch : RpcChannel) (message : RpcMessage) : RpcChannel :=
  match m_request message, m_service message, m_method message with
  | Some request, Some service, Some method =>
    match services_ ch !! service with
    | Some service =>
      match FindMethodByName service method with
      | Some method =>
        match ParseRequest method request with
        | Some request =>
          let controller := match m_deadline message with Some d => SetDeadline d | None => make_RpcController end in
          serve_call ch (mkServed (m_id message) method request controller)
        | None => ErrorHandle ch (m_id message) kInvalidRequest
        end
      | None => ErrorHandle ch (m_id message) kNoMethod
      end
    | None => ErrorHandle ch (m_id message) kNoService
    end
  | _, _, _ => ErrorHandle ch (m_id message) kInvalidMessage
  end.

Definition OnRpcMessage (ch : RpcChannel) (message : RpcMessage) : option RpcChannel :=
  match m_type message with
  | kResponse => OnRpcMessageForResponse ch message
  | kRequest => Some (OnRpcMessageForRequest ch message)
  end.

(** [RpcServer::AddServices] *)
Definition AddServices (m : gmap (list byte) Service) (full_name : list byte) (s : Service) : gmap (list byte) Service :=
  match m !! full_name with Some _ => m | None => <[full_name := s]> m end.

(** ** Two channels over one connection *)

Context (serve : Method -> Request -> Response).   (* what the services compute *)

Record system := mkSystem {
  client : RpcChannel;
  server : RpcChannel;
  tasks : list task;        (* queued in the client's loop *)
  calling : list calling_thread
}.

Inductive label :=
  | LLoad (in_loop : bool) (c : call)   (* a thread enters CallMethod and reads the id *)
  | LAdd (i : nat)          (* it increments the id *)
  | LSubmit (i : nat)       (* RunInLoop: SendRpcRequest at once in the loop's thread, queued in others *)
  | LTask                   (* the loop runs the oldest SendRpcRequest *)
  | LRequest                (* the server gets the next message *)
  | LFinish (i : nat)       (* a service completes a call *)
  | LResponse               (* the client gets the next message *)
  | LDeadline (i : nat).    (* a timer set for a deadline expires *)

Definition take_sent (ch : RpcChannel) : option (RpcMessage * RpcChannel) :=
  match sent ch with
  | [] => None
  | m :: ms => Some (m, mkRpcChannel (id_ ch) (services_ ch) (outstanding_calls_ ch) ms (timers ch) (serving ch) (ran ch))
  end.

Definition enabled (l : label) (s : system) : bool :=
  match l with
  | LLoad _ _ => true
  | LAdd i => match calling s !! i with Some th => negb (th_added th) | None => false end
  | LSubmit i => match calling s !! i with Some th => th_added th | None => false end
  | LTask => negb (bool_decide (tasks s = []))
  | LRequest => (0 <? length (sent (client s)))%nat
  | LFinish i => (i <? length (serving (server s)))%nat
  | LResponse => (0 <? length (sent (server s)))%nat
  | LDeadline i => (i <? length (timers (client s)))%nat
  end.

Definition exec (l : label) (s : system) : option system :=
  match l with
  | LLoad in_loop c =>
    Some (mkSystem (client s) (server s) (tasks s) (calling s ++ [CallMethod_load (client s) in_loop c]))
  | LAdd i =>
    th ← calling s !! i;
    let (th, cl) := CallMethod_add (client s) th in
    Some (mkSystem cl (server s) (tasks s) (<[i := th]> (calling s)))
  | LSubmit i =>
    th ← calling s !! i;
    let t := CallMethod_task th in
    if th_in_loop th
    then cl ← SendRpcRequest (client s) t; Some (mkSystem cl (server s) (tasks s) (delete i (calling s)))
    else Some (mkSystem (client s) (server s) (tasks s ++ [t]) (delete i (calling s)))
  | LTask =>
    match tasks s with
    | [] => None
    | t :: ts => cl ← SendRpcRequest (client s) t; Some (mkSystem cl (server s) ts (calling s))
    end
  | LRequest =>
    '(m, cl) ← take_sent (client s);
    sv ← OnRpcMessage (server s) m;
    Some (mkSystem cl sv (tasks s) (calling s))
  | LFinish i =>
    w ← serving (server s) !! i;
    let sv := server s in
    let sv := mkRpcChannel (id_ sv) (services_ sv) (outstanding_calls_ sv) (sent sv) (timers sv)
                (delete i (serving sv)) (ran sv) in
    Some (mkSystem (client s) (SendRpcResponse sv (serve (sv_method w) (sv_request w)) (sv_id w)) (tasks s) (calling s))
  | LResponse =>
    '(m, sv) ← take_sent (server s);
    cl ← OnRpcMessage (client s) m;
    Some (mkSystem cl sv (tasks s) (calling s))
  | LDeadline i =>
    t ← timers (client s) !! i;
    let cl := deadline_callback (client s) t.2 in
    Some (mkSystem (mkRpcChannel (id_ cl) (services_ cl) (outstanding_calls_ cl) (sent cl)
                      (delete i (timers cl)) (serving cl) (ran cl)) (server s) (tasks s) (calling s))
  end.

Fixpoint run (s : system) (ls : list label) : option system :=
  match ls with
  | [] => Some s
  | l :: ls => assert! enabled l s; s ← exec l s; run s ls
  end.

End rpc.

(** ** Every call is answered once *)

Section exactly_once.
Context {Service Method Request Response : Type}.
Context (FindMethodByName : Service -> list byte -> option Method).
Context (ParseRequest : Method -> list byte -> option Request).
Context (SerializeResponse : Response -> list byte).
Context (ParseResponse : list byte -> option Response).
Context (serve : Method -> Request -> Response).
Context (services : gmap (list byte) Service) (id0 : Z).

(** A message of protobuf is read back from its serialisation. *)
Hypothesis response_roundtrip : forall r, ParseResponse (SerializeResponse r) = Some r.

Abbreviation system := (@system Service Method Request Response).
Abbreviation channel := (@RpcChannel Service Method Request Response).
Abbreviation exec := (exec FindMethodByName ParseRequest SerializeResponse ParseResponse serve).
Abbreviation run := (run FindMethodByName ParseRequest SerializeResponse ParseResponse serve).

#[local] Instance call_eq_dec : EqDecision call.
Proof. solve_decision. Defined.

(** The method a call names and the request it carries. *)
Definition resolve (c : call) : option (Method * Request) :=
  service ← services !! c_service c;
  m ← FindMethodByName service (c_method c);
  r ← ParseRequest m (c_request c);
  Some (m, r).

Definition call_ok (c : call) : Prop :=
  is_Some (resolve c) /\ (is_Some (c_response c) <-> is_Some (c_done c)) /\ 0 <= c_controller c < 2 ^ 64.

Definition label_ok (l : label) : Prop :=
  match l with LLoad _ c => call_ok c | _ => True end.

Definition calls_of (ls : list label) : list call :=
  omap (fun l => match l with LLoad _ c => Some c | _ => None end) ls.

(** No thread reads the id between another thread's reading and incrementing it. *)
Definition loads_apart (l : label) (s : system) : Prop :=
  match l with LLoad _ _ => Forall (fun th => th_added th = true) (calling s) | _ => True end.

Fixpoint ids_apart (s : system) (ls : list label) : Prop :=
  match ls with
  | [] => True
  | l :: ls => loads_apart l s /\ forall s', exec l s = Some s' -> ids_apart s' ls
  end.

(** The condition as a function. *)
Fixpoint ids_apartb (s : system) (ls : list label) : bool :=
  match ls with
  | [] => true
  | l :: ls =>
    match l with LLoad _ _ => forallb th_added (calling s) | _ => true end &&
    match exec l s with Some s' => ids_apartb s' ls | None => true end
  end.

Lemma ids_apartb_sound s ls : ids_apartb s ls = true -> ids_apart s ls.
Proof.
  revert s. induction ls as [|l ls IH]; intros s E; [done|]. apply andb_true_iff in E as [E1 E2]. split.
  - destruct l; try done. cbn. rewrite Forall_forall. intros th Hin. rewrite forallb_forall in E1.
    by apply E1, list_elem_of_In.
  - intros s' Es. rewrite Es in E2. by apply IH.
Qed.

Definition init : system := mkSystem (make_RpcChannel id0 ∅) (make_RpcChannel 0 services) [] [].

(** The calls made, numbered; the k-th has the id [id0 + k]. *)
Definition item : Type := nat * call.
Definition items (calls : list call) : list item := imap pair calls.
Definition idof (x : item) : Z := id0 + Z.of_nat x.1.

Definition task_of (x : item) : task :=
  mkTask (request_message (idof x) x.2) (c_response x.2) (c_done x.2) (c_controller x.2).
Definition calling_ok (th : calling_thread) (x : item) : Prop := th_id th = idof x /\ th_call th = x.2.
Definition pending (ths : list calling_thread) : nat := length (List.filter (fun th => negb (th_added th)) ths).

(** The calls [kq] not yet sent: those in [CallMethod] and those queued. *)
Definition waiting_calls (ts : list task) (ths : list calling_thread) (kq : list item) : Prop :=
  exists kc kt, Permutation kq (kc ++ kt) /\ ts = map task_of kt /\ Forall2 calling_ok ths kc.

Definition req_of (x : item) : RpcMessage := set_deadline (request_message (idof x) x.2) (c_controller x.2).
Definition serv_ok (w : served) (x : item) : Prop :=
  sv_id w = idof x /\ resolve x.2 = Some (sv_method w, sv_request w).
Definition resp_ok (m : RpcMessage) (x : item) : Prop :=
  exists a r, resolve x.2 = Some (a, r) /\
    m = mkRpcMessage kResponse (idof x) None None None (Some (SerializeResponse (serve a r))) None None.
Definition ran_ok (e : closure * msg_ptr * Response) (c : call) : Prop :=
  exists a r d p, resolve c = Some (a, r) /\ c_done c = Some d /\ c_response c = Some p /\ e = (d, p, serve a r).

(** The outstanding calls are those under way that have a done and whose
    deadline has not expired. *)
Definition calls_spec (m : gmap Z OutstandingCall) (live kx : list item) : Prop :=
  forall id oc, m !! id = Some oc <->
    exists x, x ∈ live /\ (x ∉ kx) /\ id = idof x /\ c_done x.2 <> None /\
      oc = mkOutstandingCall (c_response x.2) (c_done x.2).

Record rpc_inv (calls : list call) (s : system) (kt kw ks kr kd kx kran : list item) : Prop := {
  ri_id : id_ (client s) + Z.of_nat (pending (calling s)) = id0 + Z.of_nat (length calls) /\ (pending (calling s) <= 1)%nat;
  ri_services : services_ (server s) = services;
  ri_ok : Forall call_ok calls;
  ri_perm : Permutation (kt ++ kw ++ ks ++ kr ++ kd) (items calls);
  ri_tasks : waiting_calls (tasks s) (calling s) kt;
  ri_sent : sent (client s) = map req_of kw;
  ri_serving : Forall2 serv_ok (serving (server s)) ks;
  ri_resp : Forall2 resp_ok (sent (server s)) kr;
  ri_calls : calls_spec (outstanding_calls_ (client s)) (kw ++ ks ++ kr) kx;
  ri_ran : Forall2 (fun e x => ran_ok e x.2) (ran (client s)) kran;
  ri_ran_nodup : NoDup kran /\ kran ⊆ kd;
  ri_done : forall x, x ∈ kd -> c_done x.2 <> None -> x ∈ kran \/ x ∈ kx;
  ri_expired : forall x, x ∈ kx -> x ∈ kw ++ ks ++ kr ++ kd /\ c_controller x.2 <> INVALID_DEADLINE;
  ri_timers : forall t, t ∈ timers (client s) ->
    exists x, x ∈ kw ++ ks ++ kr ++ kd /\ t.2 = idof x /\ c_controller x.2 <> INVALID_DEADLINE
}.

Lemma item_lookup calls x : x ∈ items calls <-> calls !! x.1 = Some x.2.
Proof.
  unfold items. destruct x as [k c]. rewrite list_elem_of_lookup. split.
  - intros (i & E). rewrite list_lookup_imap in E. apply fmap_Some in E as (c' & E & [= -> ->]). done.
  - intros E. exists k. rewrite list_lookup_imap. cbn in E. by rewrite E.
Qed.

Lemma items_snoc calls c : items (calls ++ [c]) = items calls ++ [(length calls, c)].
Proof. unfold items. rewrite imap_app. cbn. by rewrite Nat.add_0_r. Qed.

Lemma items_NoDup calls : NoDup (items calls).
Proof.
  apply NoDup_alt. intros i j x Hi Hj. unfold items in *. rewrite list_lookup_imap in Hi, Hj.
  apply fmap_Some in Hi as (c & _ & ->). apply fmap_Some in Hj as (c' & _ & [= -> _]). done.
Qed.

Lemma idof_inj calls x y : x ∈ items calls -> y ∈ items calls -> idof x = idof y -> x = y.
Proof.
  rewrite !item_lookup. destruct x as [i c], y as [j d]. unfold idof. cbn. intros Hx Hy E.
  assert (i = j) as -> by lia. congruence.
Qed.

Lemma request_served c m r (ch : channel) x :
  services_ ch = services -> resolve c = Some (m, r) -> x.2 = c ->
  exists w, OnRpcMessageForRequest FindMethodByName ParseRequest ch (req_of x) = serve_call ch w /\ serv_ok w x.
Proof.
  intros Hs E <-. unfold resolve in E. apply bind_Some in E as (sv & E1 & E). apply bind_Some in E as (m' & E2 & E).
  apply bind_Some in E as (r' & E3 & [= -> ->]).
  assert (m_request (req_of x) = Some (c_request x.2) /\ m_service (req_of x) = Some (c_service x.2) /\
    m_method (req_of x) = Some (c_method x.2) /\ m_id (req_of x) = idof x) as (F1 & F2 & F3 & F4)
    by (unfold req_of, set_deadline; by destruct (negb _)).
  unfold OnRpcMessageForRequest. rewrite F1, F2, F3, F4, Hs, E1, E2, E3. eexists. split; [done|].
  split; [done|]. unfold resolve. rewrite E1. cbn. rewrite E2. cbn. by rewrite E3.
Qed.

Lemma req_of_type x : m_type (req_of x) = kRequest.
Proof. unfold req_of, set_deadline. by destruct (negb _). Qed.

Lemma SendRpcRequest_spec (ch : channel) x :
  call_ok x.2 ->
  exists ch', SendRpcRequest ch (task_of x) = Some ch' /\ id_ ch' = id_ ch /\
    outstanding_calls_ ch' = (match c_done x.2 with
      | Some d => emplace_call (outstanding_calls_ ch) (idof x) (mkOutstandingCall (c_response x.2) (Some d))
      | None => outstanding_calls_ ch end) /\
    sent ch' = sent ch ++ [req_of x] /\ ran ch' = ran ch /\
    (forall t, t ∈ timers ch' -> t ∈ timers ch \/ t.2 = idof x /\ c_controller x.2 <> INVALID_DEADLINE).
Proof.
  intros (_ & Hr & _). unfold SendRpcRequest. cbn [t_done t_response t_message t_controller task_of m_id request_message].
  assert (forall c1 : channel, exists ch', Some (if negb (c_controller x.2 =? INVALID_DEADLINE)
      then mkRpcChannel (id_ c1) (services_ c1) (outstanding_calls_ c1) (sent c1)
             (timers c1 ++ [(swrap 64 (c_controller x.2 * 1000), m_id (req_of x))]) (serving c1) (ran c1) else c1) = Some ch' /\
    id_ ch' = id_ c1 /\ outstanding_calls_ ch' = outstanding_calls_ c1 /\ sent ch' = sent c1 /\ ran ch' = ran c1 /\
    (forall t, t ∈ timers ch' -> t ∈ timers c1 \/ t.2 = idof x /\ c_controller x.2 <> INVALID_DEADLINE)) as Htail.
  { intros c1. eexists. split; [done|]. destruct (Z.eqb_spec (c_controller x.2) INVALID_DEADLINE) as [E|E]; cbn [negb].
    - split_and!; try done. by left.
    - split_and!; try done. cbn. intros t Ht. apply elem_of_app in Ht as [Ht|Ht]; [by left|]. right.
      apply list_elem_of_singleton in Ht as ->. cbn. split; [|done]. unfold req_of, set_deadline. by destruct (negb _). }
  assert (c_done x.2 = None -> negb (bool_decide (is_Some (c_response x.2))) = true) as Hnone.
  { intros E. apply negb_true_iff, bool_decide_eq_false_2. intros H. apply Hr in H. rewrite E in H. by destruct H. }
  destruct (c_done x.2) as [d|] eqn:Ed; cbn [mbind option_bind].
  - destruct (Htail (codec_Send (with_calls ch (emplace_call (outstanding_calls_ ch) (idof x) (mkOutstandingCall (c_response x.2) (Some d)))) (req_of x)))
      as (ch' & E & H1 & H2 & H3 & H4 & H5). exists ch'. split; [exact E|]. by split_and!.
  - rewrite (Hnone eq_refl). cbn [check mbind option_bind].
    destruct (Htail (codec_Send ch (req_of x))) as (ch' & E & H1 & H2 & H3 & H4 & H5). exists ch'. split; [exact E|]. by split_and!.
Qed.

Lemma calls_spec_ext m live live' kx :
  calls_spec m live kx -> (forall y, y ∈ live' <-> y ∈ live) -> calls_spec m live' kx.
Proof. intros H E id oc. rewrite (H id oc). by setoid_rewrite E. Qed.

Lemma calls_spec_add m live live' kx x :
  calls_spec m live kx -> (x ∉ kx) -> (forall y, y ∈ live -> idof y <> idof x) ->
  (forall y, y ∈ live' <-> y ∈ live \/ y = x) ->
  calls_spec (match c_done x.2 with
    | Some d => emplace_call m (idof x) (mkOutstandingCall (c_response x.2) (Some d)) | None => m end) live' kx.
Proof.
  intros H Hx Hid Hl id oc.
  assert (m !! idof x = None) as Hnone.
  { destruct (m !! idof x) as [oc'|] eqn:E; [|done]. apply H in E as (y & Hy & _ & E & _). by destruct (Hid y Hy). }
  destruct (c_done x.2) as [d|] eqn:Ed.
  - unfold emplace_call. rewrite Hnone. destruct (decide (id = idof x)) as [->|Hne].
    + rewrite lookup_insert_eq. split.
      * intros [= <-]. exists x. rewrite Ed. split_and!; try done. apply Hl. by right.
      * intros (y & Hy & _ & E & Hd & ->). apply Hl in Hy as [Hy| ->]; [by destruct (Hid y Hy)|]. by rewrite Ed.
    + rewrite lookup_insert_ne by done. rewrite (H id oc). split; intros (y & Hy & Hr).
      * exists y. split; [|done]. apply Hl. by left.
      * apply Hl in Hy as [Hy| ->]; [by exists y|]. destruct Hr as (_ & E & _). done.
  - rewrite (H id oc). split; intros (y & Hy & Hr).
    + exists y. split; [|done]. apply Hl. by left.
    + apply Hl in Hy as [Hy| ->]; [by exists y|]. destruct Hr as (_ & _ & E & _). done.
Qed.

(** Erasing the id of [x]: it is expired, or no longer under way. *)
Lemma calls_spec_erase m live live' kx kx' x :
  calls_spec m live kx -> (forall y, y ∈ live -> idof y = idof x -> y = x) ->
  (forall y, y ∈ live' /\ y ∉ kx' <-> y ∈ live /\ (y ∉ kx) /\ y <> x) ->
  calls_spec (delete (idof x) m) live' kx'.
Proof.
  intros H Hid Hl id oc. rewrite lookup_delete_Some, (H id oc). split.
  - intros (Hne & y & Hy & Hk & -> & Hr). exists y. assert (y <> x) as Hyx by (by intros ->).
    destruct (proj2 (Hl y) (conj Hy (conj Hk Hyx))) as [H1 H2]. by repeat split; try apply Hr.
  - intros (y & Hy & Hk & -> & Hr). destruct (proj1 (Hl y) (conj Hy Hk)) as (H1 & H2 & H3).
    split; [|by exists y]. intros E. by destruct H3; apply Hid.
Qed.

Lemma perm_move {A} (a b c d : list A) x : Permutation (a ++ x :: b ++ c ++ d) (a ++ b ++ (c ++ [x]) ++ d).
Proof. f_equiv. rewrite <- (app_assoc c). cbn. rewrite !app_assoc. apply Permutation_middle. Qed.

Section step.
Context {calls : list call} {s : system} {kt kw ks kr kd kx kran : list item}.
Hypothesis I : rpc_inv calls s kt kw ks kr kd kx kran.

Lemma all_NoDup : NoDup (kt ++ kw ++ ks ++ kr ++ kd).
Proof. rewrite (ri_perm _ _ _ _ _ _ _ _ _ I). apply items_NoDup. Qed.

Lemma in_items x : x ∈ kt ++ kw ++ ks ++ kr ++ kd -> x ∈ items calls.
Proof. by rewrite (ri_perm _ _ _ _ _ _ _ _ _ I). Qed.

Lemma item_ok x : x ∈ kt ++ kw ++ ks ++ kr ++ kd -> call_ok x.2.
Proof.
  intros H%in_items%item_lookup. pose proof (ri_ok _ _ _ _ _ _ _ _ _ I) as Hok. by eapply (Forall_lookup_1 _ _ _ _ Hok).
Qed.

Lemma unique x y : x ∈ kt ++ kw ++ ks ++ kr ++ kd -> y ∈ kt ++ kw ++ ks ++ kr ++ kd -> idof x = idof y -> x = y.
Proof. intros Hx%in_items Hy%in_items. by eapply idof_inj. Qed.

(** A call is sent, from the queue or at once: [kt'] is what stays unsent. *)
Lemma send_step kt' x ts ths :
  Permutation kt (x :: kt') -> waiting_calls ts ths kt' -> pending ths = pending (calling s) ->
  exists cl', SendRpcRequest (client s) (task_of x) = Some cl' /\
    rpc_inv calls (mkSystem cl' (server s) ts ths) kt' (kw ++ [x]) ks kr kd kx kran.
Proof.
  intros Hk Hw Hpe. pose proof I as [I1 I2 I3 I4 I5 I6 I7 I8 I9 I10 I11 I12 I13 I14].
  assert (Permutation (x :: kt' ++ kw ++ ks ++ kr ++ kd) (items calls)) as Hp by (rewrite <- I4, Hk; done).
  assert (NoDup (x :: kt' ++ kw ++ ks ++ kr ++ kd)) as Hnd by (rewrite Hp; apply items_NoDup).
  apply NoDup_cons in Hnd as [Hnx Hnd].
  assert (forall y, y ∈ x :: kt' ++ kw ++ ks ++ kr ++ kd -> y ∈ items calls) as Hin by (intros y Hy; by rewrite <- Hp).
  assert (x ∈ items calls) as Hx by (apply Hin; left).
  assert (call_ok x.2) as Hokx by (apply item_lookup in Hx; by eapply (Forall_lookup_1 _ _ _ _ I3)).
  destruct (SendRpcRequest_spec (client s) x Hokx) as (cl' & E & H1 & H2 & H3 & H4 & H5). exists cl'. split; [done|].
  split; cbn [client server tasks calling]; try done.
  - by rewrite H1, Hpe.
  - rewrite <- Hp. symmetry. apply (perm_move [] kt' kw (ks ++ kr ++ kd) x).
  - by rewrite H3, I6, map_app.
  - rewrite H2. apply (calls_spec_add _ (kw ++ ks ++ kr)); [done| | |].
    + intros Hkx. apply I13 in Hkx as [Hkx _]. apply Hnx. clear - Hkx. set_solver.
    + intros y Hy Eid. assert (y = x) as ->; [|apply Hnx; clear - Hy; set_solver].
      eapply (idof_inj calls); [apply Hin; clear - Hy; set_solver|done|done].
    + intros y. clear. set_solver.
  - by rewrite H4.
  - intros y Hy. destruct (I13 y Hy) as [Hkx Hc]. split; [clear - Hkx; set_solver|done].
  - intros t Hin'. apply H5 in Hin' as [Hin'|Hin'].
    + destruct (I14 t Hin') as (y & Hy & Hr'). exists y. split; [clear - Hy; set_solver|done].
    + exists x. split; [clear; set_solver|done].
Qed.

(** The unsent calls in another order. *)
Lemma reorder_step kt' ts ths cl :
  Permutation kt kt' -> waiting_calls ts ths kt' ->
  id_ cl + Z.of_nat (pending ths) = id0 + Z.of_nat (length calls) -> (pending ths <= 1)%nat ->
  outstanding_calls_ cl = outstanding_calls_ (client s) ->
  sent cl = sent (client s) -> timers cl = timers (client s) -> ran cl = ran (client s) ->
  rpc_inv calls (mkSystem cl (server s) ts ths) kt' kw ks kr kd kx kran.
Proof.
  intros Hk Hw Hid Hpe Ho Hs Ht Hr. pose proof I as [I1 I2 I3 I4 I5 I6 I7 I8 I9 I10 I11 I12 I13 I14].
  split; cbn [client server tasks calling]; try done; try congruence.
  - by rewrite <- Hk.
  - by rewrite Ho.
  - by rewrite Ht.
Qed.

Lemma load_step in_loop c :
  call_ok c -> Forall (fun th => th_added th = true) (calling s) ->
  exists s' x, exec (LLoad in_loop c) s = Some s' /\ rpc_inv (calls ++ [c]) s' (x :: kt) kw ks kr kd kx kran.
Proof.
  intros Hc Hap. pose proof I as [[I1 _] I2 I3 I4 I5 I6 I7 I8 I9 I10 I11 I12 I13 I14].
  assert (pending (calling s) = 0%nat) as Hz.
  { unfold pending. clear - Hap. induction Hap as [|th ths Hth _ IH]; cbn; [done|]. by rewrite Hth. }
  eexists _, (length calls, c). split; [reflexivity|]. split; cbn [client server tasks calling]; try done.
  - unfold pending in *. rewrite List.filter_app, length_app, Hz, length_app. cbn. split; [lia|done].
  - apply Forall_app. split; [done|]. by constructor.
  - rewrite items_snoc, <- I4. cbn. apply Permutation_cons_append.
  - destruct I5 as (kc & kt0 & Hp & Ht & Hf). exists (kc ++ [(length calls, c)]), kt0. split; [|split; [done|]].
    + rewrite <- app_assoc. cbn. rewrite Hp. apply Permutation_middle.
    + apply Forall2_app; [done|]. constructor; [|constructor]. split; [|done]. cbn. unfold load_id, idof. cbn. lia.
Qed.

Lemma pending_add ths i th :
  ths !! i = Some th -> th_added th = false ->
  S (pending (<[i := mkCalling (th_call th) (th_in_loop th) (th_id th) true]> ths)) = pending ths.
Proof.
  unfold pending. revert i. induction ths as [|t ths IH]; intros [|i] E Ha; cbn in *; try done.
  - injection E as ->. by rewrite Ha.
  - specialize (IH i E Ha). destruct (th_added t); cbn; [done|]. by f_equal.
Qed.

Lemma pending_delete ths i th :
  ths !! i = Some th -> th_added th = true -> pending (delete i ths) = pending ths.
Proof.
  unfold pending. revert i. induction ths as [|t ths IH]; intros [|i] E Ha; cbn in *; try done.
  - injection E as ->. by rewrite Ha.
  - specialize (IH i E Ha). destruct (th_added t); cbn; [done|]. by f_equal.
Qed.

Lemma add_step i :
  0 <= id0 -> id0 + Z.of_nat (length calls) < 2 ^ 64 -> enabled (LAdd i) s = true ->
  exists s', exec (LAdd i) s = Some s' /\ rpc_inv calls s' kt kw ks kr kd kx kran.
Proof.
  intros H0 Hb En. cbn [enabled] in En. destruct (calling s !! i) as [th|] eqn:Eth; [|done]. apply negb_true_iff in En.
  pose proof (pending_add _ _ _ Eth En) as Hpe. destruct (ri_id _ _ _ _ _ _ _ _ _ I) as [I1 I1'].
  destruct (ri_tasks _ _ _ _ _ _ _ _ _ I) as (kc & kt0 & Hp & Ht & Hf).
  destruct (Forall2_lookup_l _ _ _ _ _ Hf Eth) as (x & Ex & Hx).
  assert (0 < length calls)%nat as Hlen.
  { assert (x ∈ kt) as Hin by (rewrite Hp; apply elem_of_app; left; by eapply list_elem_of_lookup_2).
    assert (x ∈ items calls) as Hit by (apply in_items; set_solver). apply item_lookup, lookup_lt_Some in Hit. lia. }
  cbn [Rpc.exec]. rewrite Eth. cbn [mbind option_bind CallMethod_add]. eexists. split; [done|].
  apply reorder_step; try done; [|change (id_ (fetch_add_id (client s))) with (u64 (id_ (client s) + 1)); rewrite u64_id by lia; lia|lia].
  exists kc, kt0. split; [done|]. split; [done|]. rewrite <- (list_insert_id kc i x) by done. by apply Forall2_insert.
Qed.

Lemma submit_step i :
  enabled (LSubmit i) s = true ->
  exists s' kt' kw', exec (LSubmit i) s = Some s' /\ rpc_inv calls s' kt' kw' ks kr kd kx kran.
Proof.
  intros En. cbn [enabled] in En. destruct (calling s !! i) as [th|] eqn:Eth; [|done].
  pose proof (pending_delete _ _ _ Eth En) as Hpe. destruct (ri_id _ _ _ _ _ _ _ _ _ I) as [I1 I1'].
  destruct (ri_tasks _ _ _ _ _ _ _ _ _ I) as (kc & kt0 & Hp & Ht & Hf).
  destruct (Forall2_lookup_l _ _ _ _ _ Hf Eth) as (x & Ex & Hid & Hcall).
  assert (CallMethod_task th = task_of x) as Etask by (unfold CallMethod_task, task_of; by rewrite Hid, Hcall).
  assert (Permutation kc (x :: delete i kc)) as Hkc by (by apply delete_Permutation).
  assert (Forall2 calling_ok (delete i (calling s)) (delete i kc)) as Hf'
    by (rewrite !delete_take_drop; apply Forall2_app; [by apply Forall2_take|by apply Forall2_drop]).
  cbn [Rpc.exec]. rewrite Eth. cbn [mbind option_bind]. rewrite Etask. destruct (th_in_loop th).
  - destruct (send_step (delete i kc ++ kt0) x (tasks s) (delete i (calling s))) as (cl' & E & Hinv); try done.
    + etransitivity; [exact Hp|]. exact (Permutation_app_tail kt0 Hkc).
    + by exists (delete i kc), kt0.
    + rewrite E. cbn [mbind option_bind]. by eexists _, _, _.
  - eexists _, (delete i kc ++ kt0 ++ [x]), kw. split; [done|]. apply reorder_step; try done; [| |by rewrite Hpe|by rewrite Hpe].
    + etransitivity; [exact Hp|]. etransitivity; [exact (Permutation_app_tail kt0 Hkc)|].
      rewrite app_assoc. cbn. apply Permutation_cons_append.
    + exists (delete i kc), (kt0 ++ [x]). split; [done|]. split; [|done]. by rewrite Ht, map_app.
Qed.

Lemma task_step :
  enabled LTask s = true -> exists s' kt' x, exec LTask s = Some s' /\ rpc_inv calls s' kt' (kw ++ [x]) ks kr kd kx kran.
Proof.
  intros En. cbn in En. apply negb_true_iff, bool_decide_eq_false in En.
  destruct (ri_tasks _ _ _ _ _ _ _ _ _ I) as (kc & kt0 & Hp & Ht & Hf). rewrite Ht in En.
  destruct kt0 as [|x kt0]; [done|].
  destruct (send_step (kc ++ kt0) x (map task_of kt0) (calling s)) as (cl' & E & Hinv); try done.
  - rewrite Hp. symmetry. apply Permutation_middle.
  - by exists kc, kt0.
  - cbn [Rpc.exec]. rewrite Ht. cbn [map]. rewrite E. cbn. by eexists _, _, x.
Qed.

Lemma request_step :
  enabled LRequest s = true -> exists s' kw' x, exec LRequest s = Some s' /\ rpc_inv calls s' kt kw' (ks ++ [x]) kr kd kx kran.
Proof.
  intros En. pose proof I as [I1 I2 I3 I4 I5 I6 I7 I8 I9 I10 I11 I12 I13 I14]. cbn [enabled] in En. apply Nat.ltb_lt in En. rewrite I6, length_map in En.
  assert (exists x kw', kw = x :: kw') as (x & kw' & Ekw) by (clear - En; destruct kw as [|x kw']; [cbn in En; lia|by exists x, kw']).
  assert (call_ok x.2) as ([[m r] Hres] & _) by (apply item_ok; rewrite Ekw; set_solver).
  destruct (request_served x.2 m r (server s) x I2 Hres eq_refl) as (w & Ew & Hw).
  cbn [Rpc.exec]. unfold take_sent, OnRpcMessage. rewrite I6, Ekw. cbn [map mbind option_bind]. rewrite req_of_type, Ew. cbn [mbind option_bind].
  eexists _, kw', x. split; [done|]. split; cbn; try done.
  - rewrite <- I4, Ekw. symmetry. apply (perm_move kt kw' ks (kr ++ kd) x).
  - apply Forall2_app; [done|]. by constructor.
  - apply (calls_spec_ext _ (kw ++ ks ++ kr)); [done|]. intros y. rewrite Ekw. set_solver.
  - intros y Hy. destruct (I13 y Hy) as [Hk Hc]. rewrite Ekw in Hk. split; [clear - Hk; set_solver|done].
  - intros t Ht. destruct (I14 t Ht) as (y & Hk & Hc). rewrite Ekw in Hk. exists y. split; [clear - Hk; set_solver|done].
Qed.

Lemma finish_step i :
  enabled (LFinish i) s = true ->
  exists s' ks' x, exec (LFinish i) s = Some s' /\ rpc_inv calls s' kt kw ks' (kr ++ [x]) kd kx kran.
Proof.
  intros En. pose proof I as [I1 I2 I3 I4 I5 I6 I7 I8 I9 I10 I11 I12 I13 I14]. cbn [enabled] in En. apply Nat.ltb_lt in En.
  destruct (lookup_lt_is_Some_2 (serving (server s)) i En) as (w & Ew).
  destruct (Forall2_lookup_l _ _ _ _ _ I7 Ew) as (x & Ex & Hid & Hres).
  assert (ks = take i ks ++ x :: drop (S i) ks) as Eks by (by rewrite take_drop_middle).
  cbn [Rpc.exec]. rewrite Ew. cbn [mbind option_bind]. eexists _, (take i ks ++ drop (S i) ks), x. split; [done|].
  split; cbn; try done.
  - rewrite <- I4. rewrite Eks at 3. rewrite <- !app_assoc. do 2 f_equiv. symmetry.
    pose proof (perm_move (take i ks) (drop (S i) ks) kr kd x) as Hp. rewrite <- (app_assoc kr) in Hp. exact Hp.
  - rewrite delete_take_drop. apply Forall2_app; [by apply Forall2_take|by apply Forall2_drop].
  - apply Forall2_app; [done|]. constructor; [|constructor]. exists (sv_method w), (sv_request w). split; [done|]. by rewrite Hid.
  - apply (calls_spec_ext _ (kw ++ ks ++ kr)); [done|]. intros y. rewrite Eks at 3. set_solver.
  - intros y Hy. destruct (I13 y Hy) as [Hk Hc]. rewrite Eks in Hk. split; [clear - Hk; set_solver|done].
  - intros t Ht. destruct (I14 t Ht) as (y & Hk & Hc). rewrite Eks in Hk. exists y. split; [clear - Hk; set_solver|done].
Qed.

Lemma response_step :
  id0 + Z.of_nat (length calls) < 2 ^ 64 -> enabled LResponse s = true ->
  exists s' kr' x kran', exec LResponse s = Some s' /\ rpc_inv calls s' kt kw ks kr' (kd ++ [x]) kx kran'.
Proof.
  intros Hb En. pose proof I as [I1 I2 I3 I4 I5 I6 I7 I8 I9 I10 [I11 I11'] I12 I13 I14]. cbn [enabled] in En. apply Nat.ltb_lt in En.
  destruct (sent (server s)) as [|m ms] eqn:Esent; [cbn in En; lia|].
  pose proof I8 as I8'. inversion I8' as [|? x ? kr' Hm Hms Em Ekr]. subst m ms. clear I8'.
  destruct Hm as (a & r & Hres & Em). symmetry in Ekr.
  pose proof all_NoDup as Hnd. rewrite Ekr in Hnd.
  assert (x ∈ kt ++ kw ++ ks ++ kr ++ kd) as Hx by (rewrite Ekr; set_solver).
  assert (forall y, y ∈ kw ++ ks ++ kr -> idof y = idof x -> y = x) as Hu by (intros y Hy Ey; apply unique; [clear - Hy; set_solver|done|done]).
  assert (x ∉ kw ++ ks ++ kr' ++ kd) as Hnx.
  { assert (Permutation (kt ++ kw ++ ks ++ (x :: kr') ++ kd) (x :: kt ++ kw ++ ks ++ kr' ++ kd)) as Hp.
    { pose proof (Permutation_middle (kt ++ kw ++ ks) (kr' ++ kd) x) as Hp. rewrite <- !app_assoc in Hp. symmetry. exact Hp. }
    rewrite Hp in Hnd. apply NoDup_cons in Hnd as [Hnd _]. clear - Hnd. set_solver. }
  assert (Permutation (kt ++ kw ++ ks ++ kr' ++ kd ++ [x]) (items calls)) as Hperm.
  { rewrite <- I4, Ekr. pose proof (perm_move (kt ++ kw ++ ks) kr' kd [] x) as Hp. rewrite !app_nil_r, <- !app_assoc in Hp. symmetry. exact Hp. }
  assert ((idof x <=? id_ (client s)) = true) as Hle.
  { apply Z.leb_le. apply in_items, item_lookup, lookup_lt_Some in Hx. unfold idof. lia. }
  assert (forall y, y ∈ kw ++ ks ++ kr ++ kd -> y ∈ kw ++ ks ++ kr' ++ kd ++ [x]) as Hsub by (intros y; rewrite Ekr; clear; set_solver).
  cbn [Rpc.exec]. unfold take_sent, OnRpcMessage. rewrite Esent, Em. cbn [mbind option_bind m_type].
  unfold OnRpcMessageForResponse. cbn [m_error m_response m_id mbind option_bind]. rewrite Hle. cbn [check mbind option_bind].
  destruct (outstanding_calls_ (client s) !! idof x) as [oc|] eqn:Eoc.
  - pose proof Eoc as Eoc'. apply I9 in Eoc' as (y & Hy & Hk & Ey & Hd & ->). symmetry in Ey. apply Hu in Ey as ->; [|done].
    destruct (item_ok x Hx) as (_ & Hrd & _). destruct (c_done x.2) as [d|] eqn:Ed; [|done].
    destruct (c_response x.2) as [p|] eqn:Ep; [|destruct (proj2 Hrd) as [? ?]; done].
    cbn [oc_response oc_done mbind option_bind]. rewrite response_roundtrip. cbn [mbind option_bind].
    eexists _, kr', x, (kran ++ [x]). split; [done|]. split; cbn; try done.
    + apply (calls_spec_erase _ (kw ++ ks ++ kr) _ kx); [done|done|]. intros y. rewrite Ekr. clear - Hnx. set_solver.
    + apply Forall2_app; [done|]. constructor; [|constructor]. by exists a, r, d, p.
    + split; [|clear - I11'; set_solver]. apply NoDup_app. split; [done|]. split; [|apply NoDup_singleton]. clear - I11' Hnx. set_solver.
    + intros y Hy' Hdy. apply elem_of_app in Hy' as [Hy'|Hy']; [|left; apply elem_of_app; by right]. destruct (I12 y Hy' Hdy) as [H|H]; [left; apply elem_of_app; by left|by right].
    + intros y Hy'. destruct (I13 y Hy') as [Hk' Hc]. split; [by apply Hsub|done].
    + intros t Ht. destruct (I14 t Ht) as (y & Hk' & Hc). exists y. split; [by apply Hsub|done].
  - eexists _, kr', x, kran. split; [done|]. split; cbn; try done.
    + intros id oc. rewrite (I9 id oc). split; intros (y & Hy & Hr).
      * exists y. split; [|done]. destruct (decide (y = x)) as [->|Hne]; [|rewrite Ekr in Hy; clear - Hy Hne; set_solver].
        exfalso. destruct Hr as (Hk & Hid & Hd & Hoc). assert (outstanding_calls_ (client s) !! idof x = Some oc) as E
          by (apply I9; exists x; split_and!; done || set_solver). congruence.
      * exists y. split; [|done]. rewrite Ekr. clear - Hy. set_solver.
    + split; [done|]. clear - I11'. set_solver.
    + intros y Hy Hd. apply elem_of_app in Hy as [Hy|Hy]; [by apply I12|]. apply list_elem_of_singleton in Hy as ->.
      right. destruct (decide (x ∈ kx)) as [H|H]; [done|]. exfalso.
      assert (outstanding_calls_ (client s) !! idof x = Some (mkOutstandingCall (c_response x.2) (c_done x.2))) as E
        by (apply I9; exists x; split_and!; try done; rewrite Ekr; set_solver). congruence.
    + intros y Hy. destruct (I13 y Hy) as [Hk' Hc]. split; [by apply Hsub|done].
    + intros t Ht. destruct (I14 t Ht) as (y & Hk' & Hc). exists y. split; [by apply Hsub|done].
Qed.

Lemma deadline_step i :
  enabled (LDeadline i) s = true ->
  exists s' kx', exec (LDeadline i) s = Some s' /\ rpc_inv calls s' kt kw ks kr kd kx' kran.
Proof.
  intros En. pose proof I as [I1 I2 I3 I4 I5 I6 I7 I8 I9 I10 I11 I12 I13 I14]. cbn [enabled] in En. apply Nat.ltb_lt in En.
  destruct (lookup_lt_is_Some_2 (timers (client s)) i En) as (t & Et).
  destruct (I14 t) as (x & Hx & Hid & Hc); [by eapply list_elem_of_lookup_2|].
  cbn [Rpc.exec]. rewrite Et. cbn [mbind option_bind]. eexists _, (x :: kx). split; [done|]. split; cbn; try done.
  - rewrite Hid. apply (calls_spec_erase _ (kw ++ ks ++ kr) _ kx); [done| |intros y; rewrite not_elem_of_cons; tauto].
    intros y Hy Ey. apply unique; [clear - Hy; set_solver|clear - Hx; set_solver|done].
  - intros y Hy Hd. destruct (I12 y Hy Hd); [by left|right; by right].
  - intros y Hy. apply elem_of_cons in Hy as [->|Hy]; [done|by apply I13].
  - intros t' Ht'. apply I14. rewrite delete_take_drop in Ht'. rewrite <- (take_drop i), elem_of_app.
    apply elem_of_app in Ht' as [Ht'|Ht']; [by left|]. right. rewrite <- (take_drop 1 (drop i _)), drop_drop, elem_of_app.
    right. by replace (i + 1)%nat with (S i) by lia.
Qed.

End step.

Lemma exec_inv calls s kt kw ks kr kd kx kran l :
  rpc_inv calls s kt kw ks kr kd kx kran -> label_ok l -> loads_apart l s -> 0 <= id0 ->
  id0 + Z.of_nat (length (calls ++ calls_of [l])) < 2 ^ 64 -> enabled l s = true ->
  exists s' kt' kw' ks' kr' kd' kx' kran', exec l s = Some s' /\ rpc_inv (calls ++ calls_of [l]) s' kt' kw' ks' kr' kd' kx' kran'.
Proof.
  intros I Hok Hap H0 Hb En. rewrite length_app in Hb.
  destruct l as [b c|i|i| | |i| |i]; cbn [calls_of omap list_omap length] in *; rewrite ?app_nil_r.
  - destruct (load_step I b c Hok Hap) as (s' & x & E & I'). by eexists _, _, _, _, _, _, _, _.
  - destruct (add_step I i) as (s' & E & I'); [done|lia|done|]. by eexists _, _, _, _, _, _, _, _.
  - destruct (submit_step I i En) as (s' & kt' & kw' & E & I'). by eexists _, _, _, _, _, _, _, _.
  - destruct (task_step I En) as (s' & kt' & x & E & I'). by eexists _, _, _, _, _, _, _, _.
  - destruct (request_step I En) as (s' & kw' & x & E & I'). by eexists _, _, _, _, _, _, _, _.
  - destruct (finish_step I i En) as (s' & ks' & x & E & I'). by eexists _, _, _, _, _, _, _, _.
  - destruct (response_step I ltac:(lia) En) as (s' & kr' & x & kran' & E & I'). by eexists _, _, _, _, _, _, _, _.
  - destruct (deadline_step I i En) as (s' & kx' & E & I'). by eexists _, _, _, _, _, _, _, _.
Qed.

Lemma calls_of_app ls ls' : calls_of (ls ++ ls') = calls_of ls ++ calls_of ls'.
Proof. apply omap_app. Qed.

Lemma run_inv ls calls s kt kw ks kr kd kx kran s' :
  rpc_inv calls s kt kw ks kr kd kx kran -> Forall label_ok ls -> ids_apart s ls -> 0 <= id0 ->
  id0 + Z.of_nat (length (calls ++ calls_of ls)) < 2 ^ 64 -> run s ls = Some s' ->
  exists kt' kw' ks' kr' kd' kx' kran', rpc_inv (calls ++ calls_of ls) s' kt' kw' ks' kr' kd' kx' kran'.
Proof.
  revert calls s kt kw ks kr kd kx kran. induction ls as [|l ls IH]; intros calls s kt kw ks kr kd kx kran I Hok Hap H0 Hb E.
  - injection E as <-. cbn. rewrite app_nil_r. by eexists _, _, _, _, _, _, _.
  - apply Forall_cons in Hok as [Hl Hok]. destruct Hap as [Ha Hap]. cbn [Rpc.run] in E. apply bind_Some in E as ([] & En & E).
    destruct (enabled l s) eqn:El; [|discriminate].
    assert (calls_of (l :: ls) = calls_of [l] ++ calls_of ls) as Ec by apply (calls_of_app [l]). rewrite Ec, app_assoc in Hb |- *.
    destruct (exec_inv _ _ _ _ _ _ _ _ _ l I Hl Ha H0) as (s1 & kt1 & kw1 & ks1 & kr1 & kd1 & kx1 & kran1 & E1 & I1);
      [rewrite length_app in Hb; lia|done|].
    rewrite E1 in E. cbn in E. eapply IH; eauto.
Qed.

Lemma init_inv : rpc_inv [] init [] [] [] [] [] [] [].
Proof.
  split; cbn; try done.
  - split; lia.
  - by exists [], [].
  - intros id oc. rewrite lookup_empty. split; [done|]. intros (x & Hx & _). by apply not_elem_of_nil in Hx.
  - split; [constructor|done].
  - intros x Hx. by apply not_elem_of_nil in Hx.
  - intros x Hx. by apply not_elem_of_nil in Hx.
  - intros x Hx. by apply not_elem_of_nil in Hx.
Qed.

(** Nothing is under way in either direction. *)
Definition quiescent (s : system) : Prop :=
  calling s = [] /\ tasks s = [] /\ sent (client s) = [] /\ serving (server s) = [] /\ sent (server s) = [].

(** C13 However calls, messages, completions of services and expirations of deadlines
    interleave, as long as no thread reads the channel's id between another thread's
    reading and incrementing it in [CallMethod] and the ids stay below 2^64, and for
    calls of methods that the server has: the done of a call is run at most once, with
    the response its own service computed for its own request; when nothing is under way
    every call without a deadline had its done run; and no enabled step of the two
    channels fails. *)
Theorem rpc_exactly_once ls s :
  0 <= id0 -> id0 + Z.of_nat (length (calls_of ls)) < 2 ^ 64 -> Forall label_ok ls -> ids_apart init ls ->
  run init ls = Some s ->
  (exists ks : list nat, NoDup ks /\
    Forall2 (fun e k => exists c, calls_of ls !! k = Some c /\ ran_ok e c) (ran (client s)) ks /\
    (quiescent s -> forall k c, calls_of ls !! k = Some c -> c_done c <> None ->
      k ∈ ks \/ c_controller c <> INVALID_DEADLINE)) /\
  (forall l, label_ok l -> id0 + Z.of_nat (length (calls_of (ls ++ [l]))) < 2 ^ 64 -> enabled l s = true -> is_Some (exec l s)).
Proof.
  intros H0 Hb Hok Hap E. destruct (run_inv ls _ _ _ _ _ _ _ _ _ s init_inv Hok Hap H0 Hb E) as (kt & kw & ks & kr & kd & kx & kran & I).
  cbn [app] in I. split.
  - assert (forall x, x ∈ kran -> x ∈ items (calls_of ls)) as Hin.
    { intros x Hx. apply (in_items I). apply (proj2 (ri_ran_nodup _ _ _ _ _ _ _ _ _ I)) in Hx. set_solver. }
    exists (kran.*1). split; [|split].
    + apply NoDup_fmap_2_strong; [|apply I]. intros [i c] [j d] Hx%Hin%item_lookup Hy%Hin%item_lookup. cbn in *. intros ->. congruence.
    + apply Forall2_fmap_r, Forall2_same_length_lookup_2; [eapply Forall2_length, I|].
      intros i e x He Hx. cbn. exists x.2. split; [apply item_lookup, Hin; by eapply list_elem_of_lookup_2|].
      by apply (Forall2_lookup_lr _ _ _ _ _ _ (ri_ran _ _ _ _ _ _ _ _ _ I) He Hx).
    + intros (Q0 & Q1 & Q2 & Q3 & Q4) k c Hk Hd. pose proof I as [I1 I2 I3 I4 I5 I6 I7 I8 I9 I10 I11 I12 I13 I14].
      destruct I5 as (kc & kt0 & Hp & Ht & Hf). rewrite Q1 in Ht. symmetry in Ht. apply map_eq_nil in Ht as ->.
      rewrite Q0 in Hf. apply Forall2_nil_inv_l in Hf as ->. apply Permutation_nil_r in Hp as ->. rewrite Q2 in I6. symmetry in I6. apply map_eq_nil in I6 as ->.
      rewrite Q3 in I7. apply Forall2_nil_inv_l in I7 as ->. rewrite Q4 in I8. apply Forall2_nil_inv_l in I8 as ->.
      assert ((k, c) ∈ kd) as Hkd by (apply (item_lookup _ (k, c)) in Hk; by rewrite <- I4 in Hk).
      destruct (I12 _ Hkd Hd) as [H|H]; [left|right; by apply (I13 _ H)]. apply list_elem_of_fmap. by exists (k, c).
  - intros l Hl Hbl En. rewrite calls_of_app in Hbl.
    assert (is_Some (exec l s) \/ loads_apart l s) as [?|Hla]; [destruct l; [left; eexists; reflexivity|right; exact Logic.I..]|done|].
    destruct (exec_inv _ _ _ _ _ _ _ _ _ l I Hl Hla H0 Hbl En) as (s' & _ & _ & _ & _ & _ & _ & _ & E' & _). by exists s'.
Qed.

End exactly_once.

(** ** Requests that cannot be served *)

Section errors.
Context {Service Method Request Response : Type}.
Context (FindMethodByName : Service -> list byte -> option Method).
Context (ParseRequest : Method -> list byte -> option Request).
Context (ParseResponse : list byte -> option Response).

(** A request is either handed to its service, under its own id and deadline
    and with nothing sent, or answered with one message: its id and the code of
    the first check that failed, which is never kNoError. *)
Theorem request_error_codes (ch ch' : @RpcChannel Service Method Request Response) m :
  m_type m = kRequest -> OnRpcMessage FindMethodByName ParseRequest ParseResponse ch m = Some ch' ->
  (exists w, serving ch' = serving ch ++ [w] /\ sent ch' = sent ch /\ sv_id w = m_id m /\
    (m_deadline m = None -> sv_controller w = INVALID_DEADLINE) /\
    (forall d, m_deadline m = Some d -> 0 <= d < 2 ^ 64 -> sv_controller w = d)) \/
  (exists e, serving ch' = serving ch /\ e <> kNoError /\
    sent ch' = sent ch ++ [mkRpcMessage kResponse (m_id m) None None None None (Some e) None] /\
    (e = kInvalidMessage <-> m_request m = None \/ m_service m = None \/ m_method m = None) /\
    (e = kNoService -> exists sv, m_service m = Some sv /\ services_ ch !! sv = None) /\
    (e = kNoMethod -> exists sv s mt, m_service m = Some sv /\ services_ ch !! sv = Some s /\ m_method m = Some mt /\
      FindMethodByName s mt = None) /\
    (e = kInvalidRequest -> exists a r, m_request m = Some r /\ ParseRequest a r = None)).
Proof.
  intros Ht E. unfold OnRpcMessage in E. rewrite Ht in E. injection E as <-. unfold OnRpcMessageForRequest.
  destruct (m_request m) as [r|]; [|right; exists kInvalidMessage; split_and!; (done || naive_solver)].
  destruct (m_service m) as [sv|]; [|right; exists kInvalidMessage; split_and!; (done || naive_solver)].
  destruct (m_method m) as [mt|]; [|right; exists kInvalidMessage; split_and!; (done || naive_solver)].
  destruct (services_ ch !! sv) as [s|] eqn:Es; [|right; exists kNoService; split_and!; (done || naive_solver)].
  destruct (FindMethodByName s mt) as [a|] eqn:Ea; [|right; exists kNoMethod; split_and!; (done || naive_solver)].
  destruct (ParseRequest a r) as [q|] eqn:Eq; [|right; exists kInvalidRequest; split_and!; (done || naive_solver)].
  left. eexists. split; [done|]. split; [done|]. split; [done|]. cbn. split; [by intros ->|].
  intros d -> Hd. unfold SetDeadline. by apply u64_id.
Qed.

(** A client ends at the first error it gets back. *)
Lemma error_response_ends_client (ch : @RpcChannel Service Method Request Response) id e :
  OnRpcMessage FindMethodByName ParseRequest ParseResponse ch (mkRpcMessage kResponse id None None None None (Some e) None) = None.
Proof. done. Qed.

End errors.

(** ** A concrete system: one service whose method doubles its request *)

Definition echo_find (_ : unit) (name : list byte) : option unit := if decide (name = str "Double") then Some tt else None.
Definition echo_parse (_ : unit) (bs : list byte) : option (list byte) := Some bs.
Definition echo_serve (_ : unit) (r : list byte) : list byte := r ++ r.
Definition echo_services : gmap (list byte) unit := AddServices ∅ (str "Echo") tt.

Definition echo_call (k : nat) (deadline : Z) : call :=
  mkCall (str "Echo") (str "Double") [Z_to_byte (Z.of_nat k)] (Some k) (Some k) deadline.

(** Three calls, two of them by threads that interleave after their increments; the
    second and third are completed in the other order, and the deadline of the third
    expires before its response. *)
Definition echo_labels : list label :=
  [LLoad false (echo_call 0 INVALID_DEADLINE); LAdd 0; LLoad false (echo_call 1 INVALID_DEADLINE); LAdd 1; LSubmit 1;
   LSubmit 0; LTask; LTask; LLoad true (echo_call 2 5); LAdd 0; LSubmit 0;
   LRequest; LRequest; LRequest; LFinish 0; LFinish 1; LFinish 0; LResponse; LDeadline 0; LResponse; LResponse].

Abbreviation echo_run :=
  (run echo_find echo_parse id Some echo_serve (init echo_services 7) echo_labels).

(** Evaluates whether a run ended with nothing under way and [n] dones run. *)
Definition run_okb (n : nat) (o : option (@system unit unit (list byte) (list byte))) : bool :=
  match o with
  | Some s => bool_decide (length (calling s) = 0%nat) && bool_decide (length (tasks s) = 0%nat) && bool_decide (length (sent (client s)) = 0%nat) &&
      bool_decide (length (serving (server s)) = 0%nat) && bool_decide (length (sent (server s)) = 0%nat) &&
      bool_decide (length (ran (client s)) = n)
  | None => false
  end.

Lemma run_okb_sound n o : run_okb n o = true -> exists s, o = Some s /\ quiescent s /\ length (ran (client s)) = n.
Proof.
  intros H. destruct o as [s|]; [|discriminate]. cbn [run_okb] in H. bool_prop.
  repeat match goal with H : bool_decide _ = true |- _ => apply bool_decide_eq_true_1 in H end.
  exists s. split; [done|]. split; [|done]. unfold quiescent. split_and!; by apply nil_length_inv.
Qed.

Lemma echo_run_ok : exists s, echo_run = Some s /\ quiescent s /\ length (ran (client s)) = 2%nat.
Proof. apply run_okb_sound. vm_compute. reflexivity. Qed.

Lemma rpc_exactly_once_witness :
  exists s, echo_run = Some s /\ quiescent s /\
  (exists ks : list nat, NoDup ks /\
    Forall2 (fun e k => exists c, calls_of echo_labels !! k = Some c /\ ran_ok echo_find echo_parse echo_serve echo_services e c)
      (ran (client s)) ks /\
    (quiescent s -> forall k c, calls_of echo_labels !! k = Some c -> c_done c <> None ->
      k ∈ ks \/ c_controller c <> INVALID_DEADLINE)) /\
  (forall l, label_ok echo_find echo_parse echo_services l -> 7 + Z.of_nat (length (calls_of (echo_labels ++ [l]))) < 2 ^ 64 ->
    enabled l s = true -> is_Some (exec echo_find echo_parse id Some echo_serve l s)).
Proof.
  destruct echo_run_ok as (s & E & Q & _).
  exists s. split; [exact E|]. split; [exact Q|].
  assert (Forall (label_ok echo_find echo_parse echo_services) echo_labels) as Hok.
  { assert (forall k d, 0 <= d < 2 ^ 64 -> call_ok echo_find echo_parse echo_services (echo_call k d)) as Hok.
    { intros k d Hd. split; [vm_compute; by eexists|]. split; [|done]. split; by eexists. }
    unfold echo_labels. repeat (apply Forall_cons; split); try exact Logic.I; try (apply Hok; unfold INVALID_DEADLINE; lia). by apply Forall_nil. }
  assert (7 + Z.of_nat (length (calls_of echo_labels)) < 2 ^ 64) as Hb by (vm_compute; reflexivity).
  assert (ids_apart echo_find echo_parse id Some echo_serve (init echo_services 7) echo_labels) as Hap by (apply ids_apartb_sound; vm_compute; reflexivity).
  exact (rpc_exactly_once echo_find echo_parse id Some echo_serve echo_services 7 (fun r => eq_refl) echo_labels s ltac:(lia) Hb Hok Hap E).
Defined.

Lemma request_error_codes_witness :
  exists ch', OnRpcMessage echo_find echo_parse (Some : list byte -> option (list byte)) (make_RpcChannel 0 echo_services)
      (mkRpcMessage kRequest 3 (Some (str "Echo")) (Some (str "Halve")) (Some []) None None None) = Some ch' /\
  ((exists w, serving ch' = [w] /\ sent ch' = []) \/ (exists e, serving ch' = [] /\ e <> kNoError)).
Proof.
  eexists. split; [reflexivity|].
  destruct (request_error_codes echo_find echo_parse Some (make_RpcChannel 0 echo_services) _
    (mkRpcMessage kRequest 3 (Some (str "Echo")) (Some (str "Halve")) (Some []) None None None) eq_refl eq_refl)
    as [(w & H1 & H2 & _)|(e & H1 & H2 & _)]; [left; exists w; by split|right; exists e; by split].
Defined.

(** Two threads that both read the id before either increments it give two calls
    the same id: the second call is not registered, and when nothing is under way only
    one of the two dones has run. *)
Lemma concurrent_calls_share_id :
  exists s, run echo_find echo_parse id Some echo_serve (init echo_services 7)
      [LLoad false (echo_call 1 INVALID_DEADLINE); LLoad false (echo_call 2 INVALID_DEADLINE); LAdd 0; LAdd 1; LSubmit 0;
       LSubmit 0; LTask; LTask; LRequest; LRequest; LFinish 0; LFinish 0; LResponse; LResponse] = Some s /\
    quiescent s /\ length (ran (client s)) = 1%nat.
Proof. apply run_okb_sound. vm_compute. reflexivity. Qed.

(** The id of a channel made by the default constructor is not initialised: from
    the largest one the first response fails the assertion on ids. *)
Lemma uninitialised_id_fails :
  run echo_find echo_parse id Some echo_serve (init echo_services (2 ^ 64 - 1))
    [LLoad true (echo_call 0 INVALID_DEADLINE); LAdd 0; LSubmit 0; LRequest; LFinish 0; LResponse] = None.
Proof. vm_compute. reflexivity. Qed.
