(* ===== verification/Threads.v ===== *)
(** * Threads: kanon/thread/thread.{h,cc}, condition.h, thread_pool.{h,cc},
      count_down_latch.h, kanon/net/event_loop_thread.cc

    Threads that meet at a mutex and condition variables.  A critical section is
    one step; a thread in [Condition::Wait] is waiting until it is signalled,
    and then has to take the mutex again.  A signal wakes one waiting thread if
    there is one, the label says which; a wait may also end for no reason.  The
    objects of class Thread own POSIX threads, which they join or detach. *)

From Stdlib Require Import ZArith Lia.
From S2P Require Import Prelude.

(** Where a call that uses a condition variable is. *)
Inductive wait_state (A : Type) :=
  | Ready          (* about to take the mutex *)
  | Waiting        (* in Wait() *)
  | Signalled      (* woken, about to take the mutex again *)
  | Finished (a : A).
Arguments Ready {A}.
Arguments Waiting {A}.
Arguments Signalled {A}.
Arguments Finished {A} a.

Definition is_waiting {A} (w : wait_state A) : bool := match w with Waiting => true | _ => false end.
Definition is_signalled {A} (w : wait_state A) : bool := match w with Signalled => true | _ => false end.
Definition can_run {A} (w : wait_state A) : bool := match w with Ready | Signalled => true | _ => false end.

(** [Condition::Notify], which wakes thread [j], and [Condition::NotifyAll]. *)
Definition Notify {A} (j : nat) (ws : list (wait_state A)) : list (wait_state A) :=
  match ws !! j with Some Waiting => <[j := Signalled]> ws | _ => ws end.
Definition NotifyAll {A} (ws : list (wait_state A)) : list (wait_state A) :=
  map (fun w => if is_waiting w then Signalled else w) ws.

(** A signal is not lost on a thread that does not wait. *)
Definition notify_ok {A} (j : nat) (ws : list (wait_state A)) : bool :=
  negb (existsb is_waiting ws) || match ws !! j with Some w => is_waiting w | None => false end.

(** ** ThreadPool *)

Definition task := nat.

Record ThreadPool := mkThreadPool {
  max_queue_size_ : Z;
  tasks_ : list task;
  workers : list (wait_state task);            (* the calls of Pop: one per thread *)
  producers : list (task * wait_state unit);   (* the calls of Push *)
  pushed : list task;                          (* in the order of the critical sections *)
  popped : list task
}.

Definition make_ThreadPool (max_queue_size : Z) : ThreadPool := mkThreadPool max_queue_size [] [] [] [] [].

Definition SetMaxQueueSize (p : ThreadPool) (num : Z) : ThreadPool :=
  if 0 <? num then mkThreadPool num (tasks_ p) (workers p) (producers p) (pushed p) (popped p) else p.

(** The threads are started; each pops one task and runs it. *)
Definition StartRun (p : ThreadPool) (thread_num : nat) : ThreadPool :=
  mkThreadPool (max_queue_size_ p) (tasks_ p) (workers p ++ repeat Ready thread_num) (producers p) (pushed p) (popped p).

(** The i-th call of [Push] has the mutex; [j] is the worker its signal wakes. *)
Definition Push_step (p : ThreadPool) (i j : nat) (t : task) : ThreadPool :=
  if zlen (tasks_ p) =? max_queue_size_ p then
    mkThreadPool (max_queue_size_ p) (tasks_ p) (workers p) (<[i := (t, Waiting)]> (producers p)) (pushed p) (popped p)
  else
    mkThreadPool (max_queue_size_ p) (tasks_ p ++ [t]) (Notify j (workers p)) (<[i := (t, Finished tt)]> (producers p))
      (pushed p ++ [t]) (popped p).

Definition notify_producer (j : nat) (ps : list (task * wait_state unit)) : list (task * wait_state unit) :=
  match ps !! j with Some (t, Waiting) => <[j := (t, Signalled)]> ps | _ => ps end.

(** The i-th call of [Pop] has the mutex; [j] is the producer its signal wakes. *)
Definition Pop_step (p : ThreadPool) (i j : nat) : ThreadPool :=
  match tasks_ p with
  | [] => mkThreadPool (max_queue_size_ p) (tasks_ p) (<[i := Waiting]> (workers p)) (producers p) (pushed p) (popped p)
  | t :: ts =>
    mkThreadPool (max_queue_size_ p) ts (<[i := Finished t]> (workers p)) (notify_producer j (producers p))
      (pushed p) (popped p ++ [t])
  end.

Inductive pool_label :=
  | LStart (n : nat)
  | LPush (t : task)             (* a thread calls Push *)
  | LProducer (i j : nat)
  | LWorker (i j : nat)
  | LSpuriousP (i : nat)         (* a wait of a producer ends without a signal *)
  | LSpuriousW (i : nat).

Definition waitingp (x : task * wait_state unit) : bool := is_waiting x.2.
Definition signalledp (x : task * wait_state unit) : bool := is_signalled x.2.

Definition pool_step (p : ThreadPool) (l : pool_label) : option ThreadPool :=
  match l with
  | LStart n => Some (StartRun p n)
  | LPush t =>
    Some (mkThreadPool (max_queue_size_ p) (tasks_ p) (workers p) (producers p ++ [(t, Ready)]) (pushed p) (popped p))
  | LProducer i j =>
    '(t, w) ← producers p !! i;
    assert! can_run w && notify_ok j (workers p);
    Some (Push_step p i j t)
  | LWorker i j =>
    w ← workers p !! i;
    assert! can_run w && notify_ok j (map snd (producers p));
    Some (Pop_step p i j)
  | LSpuriousP i =>
    '(t, w) ← producers p !! i;
    assert! is_waiting w;
    Some (mkThreadPool (max_queue_size_ p) (tasks_ p) (workers p) (<[i := (t, Signalled)]> (producers p)) (pushed p) (popped p))
  | LSpuriousW i =>
    w ← workers p !! i;
    assert! is_waiting w;
    Some (mkThreadPool (max_queue_size_ p) (tasks_ p) (<[i := Signalled]> (workers p)) (producers p) (pushed p) (popped p))
  end.

Fixpoint pool_run (p : ThreadPool) (ls : list pool_label) : option ThreadPool :=
  match ls with [] => Some p | l :: ls => p ← pool_step p l; pool_run p ls end.

(** ** CountDownLatch *)

Record CountDownLatch := mkLatch { count_ : Z; waiters : list (wait_state unit) }.

(** [int] arithmetic; overflow is undefined. *)
Definition int_ok (z : Z) : bool := (- 2 ^ 31 <=? z) && (z <? 2 ^ 31).

Definition Countdown (l : CountDownLatch) : option CountDownLatch :=
  let count := count_ l - 1 in
  assert! int_ok count;
  Some (mkLatch count (if count =? 0 then NotifyAll (waiters l) else waiters l)).

Definition Add (l : CountDownLatch) (count : Z) : option CountDownLatch :=
  let count := count_ l + count in
  assert! int_ok count;
  Some (mkLatch count (waiters l)).

Definition latch_Reset (l : CountDownLatch) (count : Z) : CountDownLatch := mkLatch count (waiters l).

Definition Incr (l : CountDownLatch) : option CountDownLatch := Add l 1.
Definition Minus (l : CountDownLatch) (count : Z) : option CountDownLatch := Add l (- count).
Definition Decr (l : CountDownLatch) : option CountDownLatch := Add l (-1).

(** The second half of the combined calls, in the same critical section. *)
Definition then_wait (l : CountDownLatch) : CountDownLatch :=
  mkLatch (count_ l) (waiters l ++ [if 0 <? count_ l then Waiting else Finished tt]).

Definition ResetAndWait (l : CountDownLatch) (count : Z) : CountDownLatch := then_wait (latch_Reset l count).
Definition AddAndWait (l : CountDownLatch) (count : Z) : option CountDownLatch := then_wait <$> Add l count.
Definition IncrAndWait (l : CountDownLatch) : option CountDownLatch := then_wait <$> Incr l.

(** The i-th call of [Wait] has the mutex: the test is made once. *)
Definition Wait_step (l : CountDownLatch) (i : nat) (w : wait_state unit) : CountDownLatch :=
  match w with
  | Ready => mkLatch (count_ l) (<[i := if 0 <? count_ l then Waiting else Finished tt]> (waiters l))
  | Signalled => mkLatch (count_ l) (<[i := Finished tt]> (waiters l))
  | _ => l
  end.

Inductive latch_label :=
  | LWaitCall                 (* a thread calls Wait *)
  | LWait (i : nat)           (* its i-th call takes the mutex *)
  | LCountdown
  | LAdd (n : Z)
  | LReset (n : Z)
  | LIncr
  | LMinus (n : Z)
  | LDecr
  | LResetAndWait (n : Z)
  | LAddAndWait (n : Z)
  | LIncrAndWait
  | LSpurious (i : nat).

Definition latch_step (l : CountDownLatch) (a : latch_label) : option CountDownLatch :=
  match a with
  | LWaitCall => Some (mkLatch (count_ l) (waiters l ++ [Ready]))
  | LWait i => w ← waiters l !! i; assert! can_run w; Some (Wait_step l i w)
  | LCountdown => Countdown l
  | LAdd n => Add l n
  | LReset n => Some (latch_Reset l n)
  | LIncr => Incr l
  | LMinus n => Minus l n
  | LDecr => Decr l
  | LResetAndWait n => Some (ResetAndWait l n)
  | LAddAndWait n => AddAndWait l n
  | LIncrAndWait => IncrAndWait l
  | LSpurious i => w ← waiters l !! i; assert! is_waiting w; Some (mkLatch (count_ l) (<[i := Signalled]> (waiters l)))
  end.

Fixpoint latch_run (l : CountDownLatch) (ls : list latch_label) : option CountDownLatch :=
  match ls with [] => Some l | a :: ls => l ← latch_step l a; latch_run l ls end.

(** ** EventLoopThread::StartRun

    The thread that calls it waits for the loop's address; the new thread
    publishes it, runs the loop and clears it when the loop ends. *)

Inductive background := BNew | BPublished | BEnded.

Record EventLoopThread := mkLoopThread {
  loop_ : option nat;                      (* the address of the loop *)
  bg : background;
  caller : wait_state (option nat)         (* what StartRun returned *)
}.

Definition make_EventLoopThread : EventLoopThread := mkLoopThread None BNew Ready.

Inductive elt_label := EPublish | EEnd | ECaller | ESpurious.

(** The caller reads [loop_] again for its return value, after the mutex: the
    read is taken with the last test here. *)
Definition elt_step (s : EventLoopThread) (l : elt_label) : option EventLoopThread :=
  match l with
  | EPublish =>
    match bg s with
    | BNew => Some (mkLoopThread (Some 1%nat) BPublished (if is_waiting (caller s) then Signalled else caller s))
    | _ => None
    end
  | EEnd => match bg s with BPublished => Some (mkLoopThread None BEnded (caller s)) | _ => None end
  | ECaller =>
    assert! can_run (caller s);
    Some (mkLoopThread (loop_ s) (bg s) (match loop_ s with None => Waiting | Some a => Finished (Some a) end))
  | ESpurious =>
    assert! is_waiting (caller s);
    Some (mkLoopThread (loop_ s) (bg s) Signalled)
  end.

Fixpoint elt_run (s : EventLoopThread) (ls : list elt_label) : option EventLoopThread :=
  match ls with [] => Some s | l :: ls => s ← elt_step s l; elt_run s ls end.

(** ** Thread

    The object and the POSIX thread it starts.  The identifiers the library
    gives out are positive; [PRun] is a thread that nobody joined or detached. *)

Inductive pthread_state := PRun | PJoined | PDetached.

Record Thread := mkThread {
  func_ : option nat;         (* the callable, None when empty or moved from *)
  is_started_ : bool;
  is_joined_ : bool;
  pthreadId_ : nat;
  name_ : list byte
}.

Record thread_world := mkThreadWorld {
  pthreads : list pthread_state;     (* identifier i + 1 *)
  objects : list (option Thread);    (* None after the destructor *)
  numCreated_ : Z
}.

(** The text ["KanonThread%d"]; [dec] is the conversion of the number. *)
Definition SetDefaultName (dec : Z -> list byte) (created : Z) (name : list byte) : list byte :=
  match name with [] => str "KanonThread" ++ dec created | _ => name end.

Definition make_Thread (dec : Z -> list byte) (w : thread_world) (f : option nat) (name : list byte) : thread_world :=
  let created := u32 (numCreated_ w + 1) in
  mkThreadWorld (pthreads w) (objects w ++ [Some (mkThread f false false 0 (SetDefaultName dec created name))]) created.

(** [pthread_join] and [pthread_detach]; of an identifier that is not that of a
    joinable thread they are undefined. *)
Definition reap (w : thread_world) (id : nat) (how : pthread_state) : option thread_world :=
  match id with
  | O => None
  | S i =>
    match pthreads w !! i with
    | Some PRun => Some (mkThreadWorld (<[i := how]> (pthreads w)) (objects w) (numCreated_ w))
    | _ => None
    end
  end.

Definition put_object (w : thread_world) (i : nat) (o : option Thread) : thread_world :=
  mkThreadWorld (pthreads w) (<[i := o]> (objects w)) (numCreated_ w).

(** [pthread_create] succeeds; the process exits when it does not. *)
Definition thread_StartRun (w : thread_world) (i : nat) (t : Thread) : option thread_world :=
  assert! negb (is_started_ t);
  let w := mkThreadWorld (pthreads w ++ [PRun]) (objects w) (numCreated_ w) in
  Some (put_object w i (Some (mkThread (func_ t) true (is_joined_ t) (length (pthreads w)) (name_ t)))).

Definition Join (w : thread_world) (i : nat) (t : Thread) : option thread_world :=
  assert! is_started_ t;
  assert! negb (is_joined_ t);
  reap (put_object w i (Some (mkThread (func_ t) (is_started_ t) true (pthreadId_ t) (name_ t)))) (pthreadId_ t) PJoined.

Definition drop_Thread (w : thread_world) (i : nat) (t : Thread) : option thread_world :=
  w ← (if is_started_ t && negb (is_joined_ t) then reap w (pthreadId_ t) PDetached else Some w);
  Some (put_object w i None).

(** [Thread(Thread &&)]: a new object; the old one keeps [is_started_]. *)
Definition move_Thread (w : thread_world) (i : nat) (t : Thread) : thread_world :=
  let w := put_object w i (Some (mkThread None (is_started_ t) (is_joined_ t) 0 [])) in
  mkThreadWorld (pthreads w) (objects w ++ [Some t]) (numCreated_ w).

(** [operator=(Thread &&)] of object [j] with object [i]. *)
Definition assign_Thread (w : thread_world) (i j : nat) (t : Thread) : thread_world :=
  put_object (put_object w j (Some t)) i (Some (mkThread None false (is_joined_ t) 0 [])).

Inductive thread_label :=
  | TCreate (f : option nat) (name : list byte)
  | TStart (i : nat)
  | TJoin (i : nat)
  | TDrop (i : nat)
  | TMove (i : nat)
  | TAssign (i j : nat).

Definition thread_step (dec : Z -> list byte) (w : thread_world) (l : thread_label) : option thread_world :=
  let get i := o ← objects w !! i; o in
  match l with
  | TCreate f name => Some (make_Thread dec w f name)
  | TStart i => t ← get i; thread_StartRun w i t
  | TJoin i => t ← get i; Join w i t
  | TDrop i => t ← get i; drop_Thread w i t
  | TMove i => t ← get i; Some (move_Thread w i t)
  | TAssign i j => t ← get i; _ ← get j; Some (assign_Thread w i j t)
  end.

Fixpoint thread_run (dec : Z -> list byte) (w : thread_world) (ls : list thread_label) : option thread_world :=
  match ls with [] => Some w | l :: ls => w ← thread_step dec w l; thread_run dec w ls end.

Definition no_threads : thread_world := mkThreadWorld [] [] 0.

(** ** Counting threads *)

Definition zc {A} (f : A -> bool) (l : list A) : Z := zlen (List.filter f l).

Lemma zc_app {A} (f : A -> bool) l m : zc f (l ++ m) = zc f l + zc f m.
Proof. unfold zc. by rewrite List.filter_app, zlen_app. Qed.

Lemma zc_cons {A} (f : A -> bool) x l : zc f (x :: l) = Z.b2z (f x) + zc f l.
Proof. unfold zc. cbn [List.filter]. destruct (f x); cbn [Z.b2z]; rewrite ?zlen_cons; lia. Qed.

Lemma zc_nonneg {A} (f : A -> bool) l : 0 <= zc f l.
Proof. apply zlen_nonneg. Qed.

Lemma zc_insert {A} (f : A -> bool) l i x y :
  l !! i = Some x -> zc f (<[i := y]> l) = zc f l - Z.b2z (f x) + Z.b2z (f y).
Proof.
  revert i. induction l as [|z l IH]; intros [|i] E; [done..| |].
  - injection E as ->. change (<[0%nat := y]> (x :: l)) with (y :: l). rewrite !zc_cons. lia.
  - cbn in E. change (<[S i := y]> (z :: l)) with (z :: <[i := y]> l). rewrite !zc_cons, (IH i E). lia.
Qed.

Lemma zc_existsb {A} (f : A -> bool) l : existsb f l = true <-> 0 < zc f l.
Proof.
  induction l as [|x l IH]; [done|]. cbn [existsb]. rewrite zc_cons. pose proof (zc_nonneg f l).
  destruct (f x); cbn [orb Z.b2z]; [lia|]. rewrite IH. lia.
Qed.

Lemma zc_repeat {A} (f : A -> bool) x n : f x = false -> zc f (repeat x n) = 0.
Proof. intros H. induction n as [|n IH]; [done|]. cbn [repeat]. rewrite zc_cons, H, IH. done. Qed.

Lemma zc_map {A B} (g : A -> B) (f : B -> bool) l : zc f (map g l) = zc (fun x => f (g x)) l.
Proof. induction l as [|x l IH]; [done|]. cbn [map]. by rewrite !zc_cons, IH. Qed.

(** A signal moves one thread from waiting to signalled, if there is one. *)
Lemma Notify_counts {A} j (ws : list (wait_state A)) :
  notify_ok j ws = true -> 0 < zc is_waiting ws ->
  zc is_waiting (Notify j ws) = zc is_waiting ws - 1 /\ zc is_signalled (Notify j ws) = zc is_signalled ws + 1.
Proof.
  intros Hok Hw. apply zc_existsb in Hw. unfold notify_ok in Hok. rewrite Hw in Hok. cbn [negb orb] in Hok.
  unfold Notify. destruct (ws !! j) as [[| | |a]|] eqn:E; try discriminate. rewrite !(zc_insert _ _ _ _ _ E). cbn. lia.
Qed.

Lemma Notify_none {A} j (ws : list (wait_state A)) : zc is_waiting ws = 0 -> Notify j ws = ws.
Proof.
  intros H. unfold Notify. destruct (ws !! j) as [[| | |a]|] eqn:E; try done. exfalso.
  assert (0 < zc is_waiting ws); [|lia]. apply zc_existsb, existsb_exists. exists Waiting. split; [|done].
  apply list_elem_of_In. by eapply list_elem_of_lookup_2.
Qed.

Lemma notify_producer_snd j ps : map snd (notify_producer j ps) = Notify j (map snd ps).
Proof.
  unfold notify_producer, Notify. change (map snd ps) with (ps.*2). rewrite list_lookup_fmap.
  destruct (ps !! j) as [[t [| | |a]]|]; try done. cbn. change (map snd ?l) with (l.*2). by rewrite list_fmap_insert.
Qed.

(** ** The pool's invariant *)

Definition finished {A} (w : wait_state A) : option A := match w with Finished a => Some a | _ => None end.

Lemma omap_insert {A B} (f : A -> option B) l i x y :
  l !! i = Some x -> f x = None ->
  Permutation (omap f (<[i := y]> l)) (omap f l ++ match f y with Some b => [b] | None => [] end).
Proof.
  intros E Hx. rewrite (insert_take_drop l i y) by (by eapply lookup_lt_Some).
  rewrite <- (take_drop_middle l i x E) at 3. rewrite !omap_app. cbn. rewrite Hx.
  destruct (f y); [|by rewrite app_nil_r]. rewrite <- app_assoc. f_equiv. apply Permutation_cons_append.
Qed.

Record pool_inv (p : ThreadPool) : Prop := {
  pi_fifo : pushed p = popped p ++ tasks_ p;
  pi_bound : zlen (tasks_ p) <= max_queue_size_ p;
  pi_workers : 0 < zc is_waiting (workers p) -> zlen (tasks_ p) <= zc is_signalled (workers p);
  pi_producers : 0 < zc waitingp (producers p) -> max_queue_size_ p - zlen (tasks_ p) <= zc signalledp (producers p);
  pi_once : Permutation (popped p) (omap finished (workers p))
}.

Lemma can_run_counts {A} (w : wait_state A) : can_run w = true -> is_waiting w = false /\ finished w = None.
Proof. by destruct w. Qed.

Lemma Push_step_inv p i j t w :
  pool_inv p -> producers p !! i = Some (t, w) -> can_run w = true -> notify_ok j (workers p) = true ->
  pool_inv (Push_step p i j t).
Proof.
  intros [Hf Hb Hw Hp Ho] E Hr Hn. apply can_run_counts in Hr as [Hr _].
  pose proof (zc_insert signalledp _ _ _ (t, Finished tt) E) as S1. pose proof (zc_insert waitingp _ _ _ (t, Finished tt) E) as W1.
  pose proof (zc_insert signalledp _ _ _ (t, Waiting) E) as S2. unfold signalledp, waitingp in S1, S2, W1. cbn [snd is_signalled is_waiting] in *.
  assert (0 <= Z.b2z (is_signalled w) <= 1) by (destruct (is_signalled w); cbn; lia). rewrite Hr in W1. cbn [Z.b2z] in *.
  unfold Push_step. destruct (Z.eqb_spec (zlen (tasks_ p)) (max_queue_size_ p)) as [Eq|Eq].
  - split; cbn; try done. intros _. pose proof (zc_nonneg signalledp (<[i:=(t, Waiting)]> (producers p))). lia.
  - assert (zlen (tasks_ p ++ [t]) = zlen (tasks_ p) + 1) as Hz by (by rewrite zlen_app).
    split; cbn [pushed popped tasks_ max_queue_size_ workers producers]; rewrite ?Hz.
    + by rewrite Hf, app_assoc.
    + lia.
    + destruct (Z.eq_dec (zc is_waiting (workers p)) 0) as [Z0|Z0]; [rewrite Notify_none by done; lia|].
      pose proof (zc_nonneg is_waiting (workers p)). destruct (Notify_counts j (workers p) Hn) as [N1 N2]; [lia|]. lia.
    + unfold signalledp, waitingp in *. intros HW. rewrite S1. rewrite W1 in HW. specialize (Hp ltac:(lia)). lia.
    + rewrite Ho. unfold Notify. destruct (workers p !! j) as [[| | |a]|] eqn:Ej; try done.
      rewrite (omap_insert finished _ _ _ Signalled Ej) by done. by rewrite app_nil_r.
Qed.

Lemma zc_ext {A} (f g : A -> bool) l : (forall x, f x = g x) -> zc f l = zc g l.
Proof. intros H. induction l as [|x l IH]; [done|]. by rewrite !zc_cons, H, IH. Qed.

Lemma Pop_step_inv p i j w :
  pool_inv p -> 0 < max_queue_size_ p -> workers p !! i = Some w -> can_run w = true ->
  notify_ok j (map snd (producers p)) = true -> pool_inv (Pop_step p i j).
Proof.
  intros [Hf Hb Hw Hp Ho] Hmax E Hr Hn. apply can_run_counts in Hr as [Hr Hfin].
  unfold Pop_step. destruct (tasks_ p) as [|t ts] eqn:Et.
  - split; cbn; rewrite ?Et; try done.
    + intros _. pose proof (zc_nonneg is_signalled (<[i:=Waiting]> (workers p))). change (zlen []) with 0. lia.
    + rewrite Ho, (omap_insert finished _ _ _ Waiting E) by done. by rewrite app_nil_r.
  - pose proof (zc_insert is_signalled _ _ _ (Finished t) E) as S1. pose proof (zc_insert is_waiting _ _ _ (Finished t) E) as W1.
    rewrite Hr in W1. cbn [Z.b2z is_signalled is_waiting] in *.
    assert (0 <= Z.b2z (is_signalled w) <= 1) by (destruct (is_signalled w); cbn; lia). rewrite zlen_cons in *.
    split; cbn [pushed popped tasks_ max_queue_size_ workers producers].
    + by rewrite Hf, <- app_assoc.
    + lia.
    + intros HW. specialize (Hw ltac:(lia)). lia.
    + assert (forall ps, zc waitingp ps = zc is_waiting (map snd ps) /\ zc signalledp ps = zc is_signalled (map snd ps)) as Hsnd
        by (intros ps; rewrite !zc_map; split; by apply zc_ext).
      destruct (Hsnd (notify_producer j (producers p))) as [-> ->]. destruct (Hsnd (producers p)) as [A1 A2]. rewrite A1, A2 in Hp.
      rewrite notify_producer_snd. set (ws := map snd (producers p)) in *.
      destruct (Z.eq_dec (zc is_waiting ws) 0) as [Z0|Z0]; [rewrite Notify_none by done; lia|].
      pose proof (zc_nonneg is_waiting ws). destruct (Notify_counts j ws Hn) as [N1 N2]; [lia|]. intros _. specialize (Hp ltac:(lia)). lia.
    + rewrite Ho. by rewrite (omap_insert finished _ _ _ (Finished t) E).
Qed.

Lemma pool_step_inv p l p' : pool_inv p -> 0 < max_queue_size_ p -> pool_step p l = Some p' -> pool_inv p' /\ max_queue_size_ p' = max_queue_size_ p.
Proof.
  intros I Hmax E. destruct l as [n|t|i j|i j|i|i]; cbn [pool_step] in E.
  - injection E as <-. split; [|done]. destruct I as [Hf Hb Hw Hp Ho]. split; cbn; try done.
    + rewrite !zc_app, !zc_repeat by done. by rewrite !Z.add_0_r.
    + rewrite omap_app. assert (omap finished (repeat (Ready : wait_state task) n) = []) as ->; [|by rewrite app_nil_r].
      by induction n.
  - injection E as <-. split; [|done]. destruct I as [Hf Hb Hw Hp Ho]. split; cbn; try done. rewrite !zc_app. cbn. by rewrite !Z.add_0_r.
  - apply bind_Some in E as ([t w] & E1 & E). apply bind_Some in E as ([] & Hc & [= <-]).
    destruct (can_run w && notify_ok j (workers p)) eqn:Hb; [|discriminate]. apply andb_true_iff in Hb as [H1 H2].
    split; [by eapply Push_step_inv|]. unfold Push_step. by destruct (_ =? _).
  - apply bind_Some in E as (w & E1 & E). apply bind_Some in E as ([] & Hc & [= <-]).
    destruct (can_run w && notify_ok j (map snd (producers p))) eqn:Hb; [|discriminate]. apply andb_true_iff in Hb as [H1 H2].
    split; [by eapply Pop_step_inv|]. unfold Pop_step. by destruct (tasks_ p).
  - apply bind_Some in E as ([t w] & E1 & E). apply bind_Some in E as ([] & Hc & [= <-]). destruct w; try discriminate.
    split; [|done]. destruct I as [Hf Hb Hw Hp Ho]. split; cbn; try done.
    rewrite !(zc_insert _ _ _ _ _ E1). unfold waitingp, signalledp in *. cbn. intros HW. specialize (Hp ltac:(lia)). lia.
  - apply bind_Some in E as (w & E1 & E). apply bind_Some in E as ([] & Hc & [= <-]). destruct w; try discriminate.
    split; [|done]. destruct I as [Hf Hb Hw Hp Ho]. split; cbn; try done.
    + rewrite !(zc_insert _ _ _ _ _ E1). cbn. intros HW. specialize (Hw ltac:(lia)). lia.
    + rewrite Ho, (omap_insert finished _ _ _ Signalled E1) by done. by rewrite app_nil_r.
Qed.

Lemma pool_run_inv ls p p' :
  pool_inv p -> 0 < max_queue_size_ p -> pool_run p ls = Some p' -> pool_inv p' /\ max_queue_size_ p' = max_queue_size_ p.
Proof.
  revert p. induction ls as [|l ls IH]; intros p I Hmax E; cbn in E; [by injection E as <-|].
  apply bind_Some in E as (p1 & E1 & E). destruct (pool_step_inv p l p1 I Hmax E1) as [I1 H1].
  destruct (IH p1 I1 ltac:(lia) E) as [I2 H2]. split; [done|congruence].
Qed.

(** C15 The tasks are popped in the order they were pushed, each by one worker,
    and at most max_queue_size of them are queued; a worker that waits while
    there are tasks, and a producer that waits while there is room, find one of
    their kind already woken; so workers and producers never all wait for each
    other.  The size of the queue does not change while the pool is used. *)
Theorem pool_no_lost_wakeup n ls p :
  0 < n -> pool_run (make_ThreadPool n) ls = Some p ->
  pushed p = popped p ++ tasks_ p /\ zlen (tasks_ p) <= n /\ Permutation (popped p) (omap finished (workers p)) /\
  (tasks_ p <> [] -> existsb is_waiting (workers p) = true -> existsb is_signalled (workers p) = true) /\
  (zlen (tasks_ p) < n -> existsb waitingp (producers p) = true -> existsb signalledp (producers p) = true) /\
  (existsb is_waiting (workers p) = true -> existsb waitingp (producers p) = true ->
    existsb is_signalled (workers p) = true \/ existsb signalledp (producers p) = true).
Proof.
  intros Hn E. assert (pool_inv (make_ThreadPool n)) as I0 by (split; cbn; try done; change (zlen []) with 0; lia).
  destruct (pool_run_inv ls _ _ I0 Hn E) as [[Hf Hb Hw Hp Ho] Hm]. cbn in Hm. rewrite Hm in *.
  assert (tasks_ p <> [] -> 0 < zlen (tasks_ p)) as Hne.
  { intros H. destruct (tasks_ p); [done|]. rewrite zlen_cons. pose proof (zlen_nonneg l). lia. }
  split_and!; [done|done|done| | |].
  - intros H. rewrite !zc_existsb. intros HW. specialize (Hw HW). specialize (Hne H). lia.
  - intros H. rewrite !zc_existsb. intros HP. specialize (Hp HP). lia.
  - rewrite !zc_existsb. intros HW HP. specialize (Hw HW). specialize (Hp HP).
    destruct (Z.eq_dec (zlen (tasks_ p)) 0); [right; lia|left]. pose proof (zlen_nonneg (tasks_ p)). lia.
Qed.

(** Two workers wait, two tasks are pushed into a queue of one. *)
Definition pool_demo : list pool_label :=
  [LStart 2; LWorker 0 0; LWorker 1 0; LPush 7%nat; LPush 8%nat; LProducer 0 0; LProducer 1 1; LSpuriousP 1; LWorker 0 0; LProducer 1 1].

Lemma pool_no_lost_wakeup_witness :
  exists p, pool_run (make_ThreadPool 1) pool_demo = Some p /\ tasks_ p = [8%nat] /\ popped p = [7%nat] /\
  pushed p = popped p ++ tasks_ p /\ zlen (tasks_ p) <= 1 /\ Permutation (popped p) (omap finished (workers p)) /\
  (tasks_ p <> [] -> existsb is_waiting (workers p) = true -> existsb is_signalled (workers p) = true) /\
  (zlen (tasks_ p) < 1 -> existsb waitingp (producers p) = true -> existsb signalledp (producers p) = true) /\
  (existsb is_waiting (workers p) = true -> existsb waitingp (producers p) = true ->
    existsb is_signalled (workers p) = true \/ existsb signalledp (producers p) = true).
Proof.
  eexists. split; [vm_compute; reflexivity|]. split; [reflexivity|]. split; [reflexivity|].
  apply (pool_no_lost_wakeup 1 pool_demo); [lia|vm_compute; reflexivity].
Defined.

(** ** The latch *)

Definition waiter_ok (count : Z) (w : wait_state unit) : Prop :=
  match w with Ready => True | Waiting => 0 < count | Signalled | Finished _ => count <= 0 end.

Definition plain (a : latch_label) : bool := match a with LWaitCall | LWait _ | LCountdown => true | _ => false end.

Lemma latch_step_inv l a l' :
  Forall (waiter_ok (count_ l)) (waiters l) -> plain a = true -> latch_step l a = Some l' ->
  Forall (waiter_ok (count_ l')) (waiters l').
Proof.
  intros I Hp E. destruct a as [|i| |n|n| |n| |n|n| |i]; try discriminate; cbn [latch_step] in E.
  - injection E as <-. cbn. apply Forall_app. split; [done|]. by constructor.
  - apply bind_Some in E as (w & E1 & E). apply bind_Some in E as ([] & Hc & [= <-]).
    pose proof (Forall_lookup_1 _ _ _ _ I E1) as Hw. destruct w; try discriminate; cbn [Wait_step count_ waiters]; apply Forall_insert; try done.
    destruct (Z.ltb_spec 0 (count_ l)); done.
  - unfold Countdown in E. apply bind_Some in E as ([] & _ & [= <-]). cbn. destruct (Z.eqb_spec (count_ l - 1) 0) as [E0|E0].
    + unfold NotifyAll. apply Forall_fmap. eapply Forall_impl; [exact I|]. intros w Hw. cbn. destruct w; cbn in *; lia || done.
    + eapply Forall_impl; [exact I|]. intros w Hw. destruct w; cbn in *; lia || done.
Qed.

(** As long as a latch is only counted down and waited for, and no wait ends
    without a signal, a call of Wait has returned only if the count is at most
    zero, and at that count no call is left waiting. *)
Theorem latch_wait_returns n ls l :
  forallb plain ls = true -> latch_run (mkLatch n []) ls = Some l ->
  (Finished tt ∈ waiters l -> count_ l <= 0) /\ (count_ l <= 0 -> Waiting ∉ waiters l).
Proof.
  intros Hp E. assert (Forall (waiter_ok (count_ l)) (waiters l)) as I.
  { assert (Forall (waiter_ok (count_ (mkLatch n []))) (waiters (mkLatch n []))) as I0 by constructor.
    revert I0 E. generalize (mkLatch n []). induction ls as [|a ls IH]; intros l0 I0 E; cbn in E; [by injection E as <-|].
    cbn in Hp. apply andb_true_iff in Hp as [H1 H2]. apply bind_Some in E as (l1 & E1 & E).
    apply (IH H2 l1); [by eapply latch_step_inv|done]. }
  rewrite Forall_forall in I. split.
  - intros H%I. done.
  - intros Hc H%I. cbn in H. lia.
Qed.

Lemma latch_wait_returns_witness :
  exists l, latch_run (mkLatch 2 []) [LWaitCall; LWait 0; LCountdown; LCountdown; LWait 0] = Some l /\ Finished tt ∈ waiters l /\
  (Finished tt ∈ waiters l -> count_ l <= 0) /\ (count_ l <= 0 -> Waiting ∉ waiters l).
Proof.
  eexists. split; [vm_compute; reflexivity|]. split; [left|].
  apply (latch_wait_returns 2 [LWaitCall; LWait 0; LCountdown; LCountdown; LWait 0]); vm_compute; reflexivity.
Defined.

(** ** Defects *)

(** [Wait] tests the count once: a wait that ends without a signal returns while
    the count is positive. *)
Lemma latch_spurious :
  latch_run (mkLatch 1 []) [LWaitCall; LWait 0; LSpurious 0; LWait 0] = Some (mkLatch 1 [Finished tt]).
Proof. vm_compute. reflexivity. Qed.

(** [Minus] and [Decr] take the count to zero without waking the calls that wait
    for it. *)
Lemma decr_leaves_waiting :
  exists l, latch_run (mkLatch 1 []) [LWaitCall; LWait 0; LDecr] = Some l /\ count_ l = 0 /\ waiters l = [Waiting].
Proof. eexists. split; [vm_compute; reflexivity|]. by split. Qed.

(** A thread of the pool ends after one task: with one thread and a queue of one,
    the third task's producer waits and nobody is left to make room. *)
Lemma pool_exhausted :
  exists p, pool_run (make_ThreadPool 1)
      [LStart 1; LPush 1%nat; LProducer 0 0; LWorker 0 0; LPush 2%nat; LProducer 1 0; LPush 3%nat; LProducer 2 0] = Some p /\
    workers p = [Finished 1%nat] /\ tasks_ p = [2%nat] /\ existsb waitingp (producers p) = true.
Proof. eexists. split; [vm_compute; reflexivity|]. by split_and!. Qed.

(** [Push] waits only while the size is equal to the bound: a bound lowered below
    the size is never reached again. *)
Lemma lowered_bound_ignored :
  exists p p', pool_run (make_ThreadPool 2) [LPush 1%nat; LProducer 0 0; LPush 2%nat; LProducer 1 0; LPush 3%nat] = Some p /\
    pool_run (SetMaxQueueSize p 1) [LProducer 2 0] = Some p' /\ max_queue_size_ p' = 1 /\ zlen (tasks_ p') = 3.
Proof. eexists _, _. split; [vm_compute; reflexivity|]. split; [vm_compute; reflexivity|]. by split. Qed.

(** A loop that ends before the caller of [StartRun] has seen its address leaves
    the caller waiting. *)
Lemma short_loop_blocks_caller :
  elt_run make_EventLoopThread [ECaller; EPublish; EEnd; ECaller] = Some (mkLoopThread None BEnded Waiting).
Proof. vm_compute. reflexivity. Qed.

(** While the loop runs, the caller gets its address. *)
Lemma start_returns_loop ls s :
  elt_run make_EventLoopThread ls = Some s -> bg s = BPublished ->
  loop_ s = Some 1%nat /\ caller s <> Waiting /\ (forall a, caller s = Finished a -> a = Some 1%nat).
Proof.
  assert (forall s, (bg s = BNew -> loop_ s = None /\ finished (caller s) = None) ->
    (bg s = BPublished -> loop_ s = Some 1%nat /\ caller s <> Waiting /\ (forall a, caller s = Finished a -> a = Some 1%nat)) ->
    forall ls s', elt_run s ls = Some s' -> bg s' = BPublished ->
    loop_ s' = Some 1%nat /\ caller s' <> Waiting /\ (forall a, caller s' = Finished a -> a = Some 1%nat)) as Hgen.
  { clear. intros s H1 H2 ls. revert s H1 H2. induction ls as [|l ls IH]; intros s H1 H2 s' E Hb; cbn in E; [injection E as <-; by apply H2|].
    apply bind_Some in E as (s1 & E1 & E). apply (IH s1); [| |done|done].
    all: destruct s as [lp b c], l, b, c; cbn in *; try discriminate; injection E1 as <-; cbn; try (intuition congruence).
    all: destruct lp; cbn; intuition congruence. }
  intros E Hb. by apply (Hgen make_EventLoopThread) with (ls := ls).
Qed.

(** ** Thread: every POSIX thread is joined or detached once *)

(** The object at [i] answers for the POSIX thread [id]. *)
Definition responsible (w : thread_world) (i id : nat) : Prop :=
  exists t, objects w !! i = Some (Some t) /\ is_started_ t = true /\ is_joined_ t = false /\ pthreadId_ t = S id.

Record thread_inv (w : thread_world) : Prop := {
  ti_fresh : forall i t, objects w !! i = Some (Some t) -> is_started_ t = false -> is_joined_ t = false;
  ti_alive : forall i t, objects w !! i = Some (Some t) -> is_started_ t = true -> is_joined_ t = false ->
    exists id, pthreadId_ t = S id /\ pthreads w !! id = Some PRun;
  ti_owned : forall id, pthreads w !! id = Some PRun -> exists i, responsible w i id;
  ti_single : forall i j id, responsible w i id -> responsible w j id -> i = j
}.

Lemma responsible_put w i o o' j id :
  objects w !! i = Some o -> i <> j -> responsible (put_object w i o') j id <-> responsible w j id.
Proof. intros Ho Hne. unfold responsible, put_object. cbn [objects]. by rewrite list_lookup_insert_ne. Qed.

Lemma make_Thread_inv dec w f name : thread_inv w -> thread_inv (make_Thread dec w f name).
Proof.
  intros [H1 H2 H3 H4]. assert (forall i id, responsible (make_Thread dec w f name) i id <-> responsible w i id) as Hr.
  { intros i id. unfold responsible, make_Thread. cbn [objects]. split; intros (t & Ht & Hs & Hq).
    - apply lookup_snoc_Some in Ht as [[_ Ht]|[_ [= <-]]]; [eauto|done].
    - exists t. split; [|done]. by apply lookup_app_l_Some. }
  split.
  - intros i t Ht Hs. apply lookup_snoc_Some in Ht as [[_ Ht]|[_ [= <-]]]; [eauto|done].
  - intros i t Ht Hs. apply lookup_snoc_Some in Ht as [[_ Ht]|[_ [= <-]]]; [eauto|done].
  - intros id Hid. destruct (H3 id Hid) as [i Hi]. exists i. by apply Hr.
  - intros i j id Hi Hj. apply Hr in Hi, Hj. by eapply H4.
Qed.

Lemma thread_StartRun_inv w i t w' :
  thread_inv w -> objects w !! i = Some (Some t) -> thread_StartRun w i t = Some w' -> thread_inv w'.
Proof.
  intros [H1 H2 H3 H4] Ho H. unfold thread_StartRun in H. inv_monad. apply negb_true_iff in Hchk.
  pose proof (H1 _ _ Ho Hchk) as Hj. pose proof (lookup_lt_Some _ _ _ Ho).
  set (w2 := put_object _ _ _). set (n := length (pthreads w)).
  assert (length (pthreads w ++ [PRun]) = S n) as En by (rewrite length_app; cbn; unfold n; lia).
  assert (forall k id, responsible w2 k id <-> (k = i /\ id = n) \/ (k <> i /\ responsible w k id)) as Hr.
  { intros k id. destruct (decide (k = i)) as [->|Hk].
    - unfold responsible, w2, put_object. cbn [objects]. rewrite list_lookup_insert_eq by done. split.
      + intros (? & [= <-] & _ & _ & E). cbn [pthreadId_ pthreads] in E. rewrite En in E. left. split; [done|lia].
      + intros [[_ ->]|[? _]]; [|done]. eexists. split; [done|]. cbn [is_started_ is_joined_ pthreadId_ pthreads]. by rewrite Hj, En.
    - unfold w2. rewrite responsible_put by done. unfold responsible. cbn [objects]. tauto. }
  split.
  - intros k u Hu Hs. cbn [w2 put_object objects] in Hu. apply list_lookup_insert_Some in Hu as [(-> & [= <-] & _)|[_ Hu]]; [done|eauto].
  - intros k u Hu Hs Hq. cbn [w2 put_object objects pthreads] in *.
    apply list_lookup_insert_Some in Hu as [(-> & [= <-] & _)|[_ Hu]].
    + cbn [pthreadId_]. exists n. split; [apply En|]. apply lookup_snoc_Some. by right.
    + destruct (H2 _ _ Hu Hs Hq) as (id & E & Hid). exists id. split; [done|]. by apply lookup_app_l_Some.
  - intros id Hid. cbn [w2 put_object pthreads] in Hid. apply lookup_snoc_Some in Hid as [[_ Hid]|[-> _]].
    + destruct (H3 id Hid) as [k Hk]. exists k. apply Hr. right. split; [|done]. intros ->.
      destruct Hk as (u & Hu & Hs & _). congruence.
    + exists i. apply Hr. by left.
  - assert (forall k, ~ responsible w k n) as Hn.
    { intros k (u & Hu & Hs & Hq & E). destruct (H2 _ _ Hu Hs Hq) as (id & E' & Hid). apply lookup_lt_Some in Hid. unfold n in *. lia. }
    intros k l id Hk Hl. apply Hr in Hk as [[-> ->]|[Hki Hk]], Hl as [[-> E]|[Hli Hl]]; try done; [by apply Hn in Hl|subst id; by apply Hn in Hk|eauto].
Qed.

(** Joining or detaching the thread of the object that answers for it, which
    becomes [o]. *)
Lemma reap_inv w i t o how :
  thread_inv w -> objects w !! i = Some (Some t) -> is_started_ t = true -> is_joined_ t = false ->
  how <> PRun -> (forall u, o = Some u -> is_started_ u = true /\ is_joined_ u = true) ->
  exists w', reap (put_object w i o) (pthreadId_ t) how = Some w' /\ thread_inv w' /\ objects w' = <[i := o]> (objects w).
Proof.
  intros [H1 H2 H3 H4] Ho Hs Hj Hhow Hout. destruct (H2 _ _ Ho Hs Hj) as (id & E & Hid).
  unfold reap. rewrite E. cbn [put_object pthreads]. rewrite Hid. eexists. split; [done|]. split; [|done].
  assert (responsible w i id) as Hown by (exists t; done).
  set (w2 := mkThreadWorld _ _ _).
  assert (forall k n, responsible w2 k n <-> k <> i /\ responsible w k n) as Hr.
  { intros k n. unfold responsible, w2. cbn [objects put_object]. destruct (decide (k = i)) as [->|Hk].
    - rewrite list_lookup_insert_eq by (by eapply lookup_lt_Some). split; [|tauto].
      intros (u & [= ->] & _ & Hq & _). destruct (Hout u eq_refl). congruence.
    - rewrite list_lookup_insert_ne by done. tauto. }
  split; cbn [w2 objects put_object pthreads].
  - intros k u Hu Hsu. apply list_lookup_insert_Some in Hu as [(-> & -> & _)|[_ Hu]]; [|eauto].
    destruct (Hout u eq_refl). congruence.
  - intros k u Hu Hsu Hq. apply list_lookup_insert_Some in Hu as [(-> & -> & _)|[Hk Hu]];
      [destruct (Hout u eq_refl); congruence|].
    destruct (H2 _ _ Hu Hsu Hq) as (n & En & Hn). exists n. split; [done|].
    rewrite list_lookup_insert_ne; [done|]. intros ->. apply Hk. eapply H4; [done|]. by exists u.
  - intros n Hn. apply list_lookup_insert_Some in Hn as [(_ & ? & _)|[Hne Hn]]; [done|].
    destruct (H3 n Hn) as [k Hk]. exists k. apply Hr. split; [|done]. intros ->.
    destruct Hown as (? & ? & _ & _ & ?), Hk as (? & ? & _ & _ & ?). simplify_eq. congruence.
  - intros k l n Hk Hl. apply Hr in Hk as [_ Hk], Hl as [_ Hl]. eauto.
Qed.

Lemma put_none_inv w i t :
  thread_inv w -> objects w !! i = Some (Some t) -> is_started_ t && negb (is_joined_ t) = false ->
  thread_inv (put_object w i None).
Proof.
  intros [H1 H2 H3 H4] Ho Hs.
  assert (forall k n, responsible (put_object w i None) k n <-> responsible w k n) as Hr.
  { intros k n. destruct (decide (i = k)) as [<-|Hk]; [|by eapply responsible_put].
    unfold responsible, put_object. cbn [objects]. rewrite list_lookup_insert_eq by (by eapply lookup_lt_Some).
    split; [by intros (? & ? & _)|]. intros (u & Hu & Hsu & Hq & _). simplify_eq. by rewrite Hsu, Hq in Hs. }
  split; cbn [objects put_object pthreads].
  - intros k u Hu. apply list_lookup_insert_Some in Hu as [(_ & ? & _)|[_ Hu]]; [done|eauto].
  - intros k u Hu. apply list_lookup_insert_Some in Hu as [(_ & ? & _)|[_ Hu]]; [done|eauto].
  - intros n Hn. destruct (H3 n Hn) as [k Hk]. exists k. by apply Hr.
  - intros k l n Hk Hl. apply Hr in Hk, Hl. eauto.
Qed.

(** Neither move of an object. *)
Definition unmoved (l : thread_label) : bool := match l with TMove _ | TAssign _ _ => false | _ => true end.

Lemma get_object w i (t : Thread) :
  (o ← objects w !! i; o) = Some t -> objects w !! i = Some (Some t).
Proof. intros (o & Ho & ->)%bind_Some. done. Qed.

Lemma thread_step_inv dec w l w' :
  thread_inv w -> unmoved l = true -> thread_step dec w l = Some w' -> thread_inv w'.
Proof.
  intros Hi Hm H. destruct l as [f name|i|i|i| |]; try discriminate Hm; cbn [thread_step] in H.
  - injection H as <-. by apply make_Thread_inv.
  - apply bind_Some in H as (t & Ht%get_object & H). by eapply thread_StartRun_inv.
  - apply bind_Some in H as (t & Ht%get_object & H). unfold Join in H.
    apply bind_Some in H as ([] & Hs & H). apply bind_Some in H as ([] & Hj & H).
    destruct (is_started_ t) eqn:Es, (is_joined_ t) eqn:Ej; try done.
    destruct (reap_inv w i t (Some (mkThread (func_ t) true true (pthreadId_ t) (name_ t))) PJoined)
      as (w1 & E & Hw1 & _); [done..|by intros u [= <-]|]. rewrite E in H. by injection H as <-.
  - apply bind_Some in H as (t & Ht%get_object & H). unfold drop_Thread in H.
    destruct (is_started_ t && negb (is_joined_ t)) eqn:E.
    + apply andb_true_iff in E as [Es Ej%negb_true_iff]. apply bind_Some in H as (w1 & H1 & H). injection H as <-.
      destruct (reap_inv w i t None PDetached) as (w2 & E2 & Hw2 & Ho2); [done..|].
      unfold reap, put_object in *. cbn [pthreads objects numCreated_] in *.
      destruct (pthreadId_ t) as [|n]; [done|]. destruct (pthreads w !! n) as [[]|]; try done.
      injection H1 as <-. by injection E2 as <-.
    + injection H as <-. by eapply put_none_inv.
Qed.

(** Whatever objects are created, started, joined and destroyed, no call joins
    or detaches a thread that is not joinable: the destructor of every live
    object succeeds, and once all objects are destroyed every thread that was
    started has been joined or detached. *)
Lemma threads_reaped dec ls w :
  forallb unmoved ls = true -> thread_run dec no_threads ls = Some w ->
  (forall i t, objects w !! i = Some (Some t) -> is_Some (thread_step dec w (TDrop i))) /\
  (Forall (fun o => o = None) (objects w) -> PRun ∉ pthreads w).
Proof.
  intros Hm Hr. assert (thread_inv w) as Hi.
  { assert (thread_inv no_threads) as H0 by (split; [done|done|done|]; by intros i j id (? & ? & _)).
    revert Hm Hr H0. generalize no_threads. induction ls as [|l ls IH]; intros w0 Hm Hr H0; cbn in Hm, Hr; [by injection Hr as <-|].
    apply andb_true_iff in Hm as [Hm1 Hm2]. apply bind_Some in Hr as (w1 & H1 & Hr).
    apply (IH w1); [done|done|]. by eapply thread_step_inv. }
  split.
  - intros i t Ho. cbn [thread_step]. rewrite Ho. cbn [mbind option_bind]. unfold drop_Thread.
    destruct (is_started_ t && negb (is_joined_ t)) eqn:E; [|eauto].
    apply andb_true_iff in E as [Es Ej%negb_true_iff].
    destruct (ti_alive _ Hi _ _ Ho Es Ej) as (id & -> & Hid). cbn [reap]. rewrite Hid. eauto.
  - intros Hn Hin. apply list_elem_of_lookup in Hin as [id Hid].
    destruct (ti_owned _ Hi _ Hid) as (i & t & Ho & _). eapply Forall_lookup in Hn; [|exact Ho]. done.
Qed.

(** The move constructor leaves [is_started_] set in the object it empties:
    its destructor detaches thread 0. *)
Lemma moved_thread_detaches_zero dec :
  exists w, thread_run dec no_threads [TCreate (Some 7%nat) []; TStart 0; TMove 0] = Some w /\
    thread_step dec w (TDrop 0) = None.
Proof. eexists. split; reflexivity. Qed.

(** Move assignment to an object whose thread runs forgets that thread. *)
Lemma assigned_thread_lost dec :
  exists w, thread_run dec no_threads
      [TCreate (Some 7%nat) []; TStart 0; TCreate None []; TAssign 1 0; TDrop 0; TDrop 1] = Some w /\
    objects w = [None; None] /\ pthreads w = [PRun].
Proof. eexists. split; [reflexivity|]. split; reflexivity. Qed.
