(* ===== verification/Locks.v ===== *)
(** * Locks: kanon/thread/mutex_lock.h, kanon/thread/rw_lock.{h,cc},
      kanon/thread/condition.cc

    The deadline of a timed wait; [MutexLock] with the holder it records around the POSIX mutex, as steps of
    single memory accesses, and [RWLock] as critical sections of threads that
    wait at its two condition variables. *)

From Stdlib Require Import ZArith Lia.
From S2P Require Import Prelude Threads.

(** ** Condition::WaitForSeconds *)

Definition NANOSECONDS : Z := 1000000000.

(** The absolute time a wait of [ns] nanoseconds (the product
    [seconds * NANOSECONDS] as an unsigned integer) ends, from the time of the
    clock. *)
Definition WaitForSeconds_deadline (tv_sec tv_nsec ns : Z) : Z * Z :=
  (tv_sec + u64 (u64 tv_nsec + ns) / NANOSECONDS, u64 (u64 tv_nsec + ns) mod NANOSECONDS).

(** The deadline is exactly [ns] later, and a valid [timespec]. *)
Lemma WaitForSeconds_deadline_spec tv_sec tv_nsec ns :
  0 <= tv_nsec < NANOSECONDS -> 0 <= ns < 2 ^ 64 - NANOSECONDS ->
  let '(s, n) := WaitForSeconds_deadline tv_sec tv_nsec ns in
  0 <= n < NANOSECONDS /\ s * NANOSECONDS + n = tv_sec * NANOSECONDS + tv_nsec + ns.
Proof.
  unfold WaitForSeconds_deadline, NANOSECONDS. intros H1 H2. rewrite (u64_id tv_nsec), u64_id by lia.
  pose proof (Z.div_mod (tv_nsec + ns) 1000000000). pose proof (Z.mod_pos_bound (tv_nsec + ns) 1000000000). lia.
Qed.

(** ** MutexLock *)

Definition tid := Z.

(** Where a thread is in a member function of the lock. *)
Inductive mutex_pc :=
  | MOut
  | MAcquiring      (* in Lock: the holder is assigned, pthread_mutex_lock is next *)
  | MIn             (* owns the mutex *)
  | MReleased.      (* in Unlock: the mutex is released, unassignHolder is next *)

Record MutexLock := mkMutexLock {
  mutex_ : option tid;       (* who owns the pthread mutex *)
  holder_ : option Z         (* not initialised by the constructor *)
}.

Definition make_MutexLock : MutexLock := mkMutexLock None None.

Definition assignHolder (t : tid) (m : MutexLock) : MutexLock := mkMutexLock (mutex_ m) (Some t).
Definition unassignHolder (m : MutexLock) : MutexLock := mkMutexLock (mutex_ m) (Some 0).

Inductive mutex_label :=
  | MLock (t : tid)        (* Lock: assignHolder *)
  | MAcquire (t : tid)     (* pthread_mutex_lock returns *)
  | MTryLock (t : tid)
  | MUnlock (t : tid)      (* pthread_mutex_unlock *)
  | MUnassign (t : tid)    (* the end of Unlock *)
  | MAssertLocked (t : tid).

Record mutex_state := mkMutexState { lock : MutexLock; pcs : list (tid * mutex_pc) }.

Definition pc_of (s : mutex_state) (t : tid) : mutex_pc :=
  match List.find (fun x => fst x =? t) (pcs s) with Some (_, pc) => pc | None => MOut end.

Definition at_pc (s : mutex_state) (t : tid) (m : MutexLock) (pc : mutex_pc) : mutex_state :=
  mkMutexState m ((t, pc) :: List.filter (fun x => negb (fst x =? t)) (pcs s)).

(** [IsLockedInThisThread]; reading an indeterminate value is undefined. *)
Definition IsLockedInThisThread (t : tid) (m : MutexLock) : option bool :=
  h ← holder_ m; Some (h =? t).

(** [ASSERT(IsLockedInThisThread())]: the macro [ASSERT] of kanon/util/check.h
    takes an error number, and aborts when it is not zero. *)
Definition AssertLocked (t : tid) (m : MutexLock) : option unit :=
  b ← IsLockedInThisThread t m; assert! negb b; Some tt.

Definition TryLock (t : tid) (m : MutexLock) : bool * MutexLock :=
  match mutex_ m with
  | Some _ => (false, m)
  | None => (true, unassignHolder (mkMutexLock (Some t) (holder_ m)))
  end.

Definition mutex_step (s : mutex_state) (l : mutex_label) : option mutex_state :=
  match l with
  | MLock t =>
    match pc_of s t with MOut => Some (at_pc s t (assignHolder t (lock s)) MAcquiring) | _ => None end
  | MAcquire t =>
    match pc_of s t, mutex_ (lock s) with
    | MAcquiring, None => Some (at_pc s t (mkMutexLock (Some t) (holder_ (lock s))) MIn)
    | _, _ => None
    end
  | MTryLock t =>
    match pc_of s t with
    | MOut => let '(b, m) := TryLock t (lock s) in Some (at_pc s t m (if b then MIn else MOut))
    | _ => None
    end
  | MUnlock t =>
    match pc_of s t with
    | MIn => Some (at_pc s t (mkMutexLock None (holder_ (lock s))) MReleased)
    | _ => None
    end
  | MUnassign t =>
    match pc_of s t with MReleased => Some (at_pc s t (unassignHolder (lock s)) MOut) | _ => None end
  | MAssertLocked t => _ ← AssertLocked t (lock s); Some s
  end.

Fixpoint mutex_run (s : mutex_state) (ls : list mutex_label) : option mutex_state :=
  match ls with [] => Some s | l :: ls => s ← mutex_step s l; mutex_run s ls end.

Definition mutex_start : mutex_state := mkMutexState make_MutexLock [].

(** ** RWLock *)

Definition MAX_READER_NUM : Z := 2 ^ 32 - 1.

(** Where a thread is in a member function of the lock. *)
Inductive rw_pc :=
  | Out
  | RStart | RWait | RWoken   (* in RLock: before the first test, in cond_w_.Wait, woken *)
  | RHold
  | WStart | WWait | WWoken   (* in the first loop of WLock, at cond_w_ *)
  | WDrain | WDrainWoken      (* in the second loop of WLock, at cond_r_ *)
  | WHold.

Definition at_cond_w (pc : rw_pc) : bool := match pc with RWait | WWait => true | _ => false end.
Definition at_cond_r (pc : rw_pc) : bool := match pc with WDrain => true | _ => false end.
Definition wake (pc : rw_pc) : rw_pc :=
  match pc with RWait => RWoken | WWait => WWoken | WDrain => WDrainWoken | pc => pc end.

Record RWLock := mkRWLock {
  has_writer_ : bool;
  reader_num_ : Z;
  rw_threads : list rw_pc
}.

Definition make_RWLock (n : nat) : RWLock := mkRWLock false 0 (repeat Out n).

(** [Notify] at the condition variable whose waiters satisfy [at_cond]; [j] is
    the thread it wakes. *)
Definition rw_notify (at_cond : rw_pc -> bool) (j : nat) (ts : list rw_pc) : list rw_pc :=
  match ts !! j with Some pc => if at_cond pc then <[j := wake pc]> ts else ts | None => ts end.
Definition rw_notify_all (at_cond : rw_pc -> bool) (ts : list rw_pc) : list rw_pc :=
  map (fun pc => if at_cond pc then wake pc else pc) ts.
Definition rw_notify_ok (at_cond : rw_pc -> bool) (j : nat) (ts : list rw_pc) : bool :=
  negb (existsb at_cond ts) || match ts !! j with Some pc => at_cond pc | None => false end.

Section max.
Context (max_reader_num : Z).

(** Thread [i] has the mutex in [RLock]. *)
Definition RLock (s : RWLock) (i : nat) : RWLock :=
  if has_writer_ s || (reader_num_ s =? max_reader_num)
  then mkRWLock (has_writer_ s) (reader_num_ s) (<[i := RWait]> (rw_threads s))
  else mkRWLock (has_writer_ s) (u32 (reader_num_ s + 1)) (<[i := RHold]> (rw_threads s)).

(** [j] is the thread the signal wakes, if there is one. *)
Definition RUnlock (s : RWLock) (i j : nat) : option RWLock :=
  let num := u32 (reader_num_ s - 1) in
  let ts := <[i := Out]> (rw_threads s) in
  if has_writer_ s then
    if num =? 0 then
      assert! rw_notify_ok at_cond_r j ts;
      Some (mkRWLock (has_writer_ s) num (rw_notify at_cond_r j ts))
    else Some (mkRWLock (has_writer_ s) num ts)
  else if num =? max_reader_num - 1 then
    assert! rw_notify_ok at_cond_w j ts;
    Some (mkRWLock (has_writer_ s) num (rw_notify at_cond_w j ts))
  else Some (mkRWLock (has_writer_ s) num ts).

(** The second loop of [WLock]. *)
Definition WLock_drain (s : RWLock) (i : nat) : RWLock :=
  mkRWLock (has_writer_ s) (reader_num_ s)
    (<[i := if 0 <? reader_num_ s then WDrain else WHold]> (rw_threads s)).

Definition WLock (s : RWLock) (i : nat) : RWLock :=
  if has_writer_ s then mkRWLock (has_writer_ s) (reader_num_ s) (<[i := WWait]> (rw_threads s))
  else WLock_drain (mkRWLock true (reader_num_ s) (rw_threads s)) i.

Definition WUnlock (s : RWLock) (i : nat) : RWLock :=
  mkRWLock false (reader_num_ s) (rw_notify_all at_cond_w (<[i := Out]> (rw_threads s))).

Inductive rw_label :=
  | CallRLock (i : nat)
  | CallWLock (i : nat)
  | TakeMutex (i : nat)        (* the thread enters, or enters again after a wait *)
  | CallRUnlock (i j : nat)
  | CallWUnlock (i : nat)
  | SpuriousWake (i : nat).

Definition rw_step (s : RWLock) (l : rw_label) : option RWLock :=
  let put i pc := Some (mkRWLock (has_writer_ s) (reader_num_ s) (<[i := pc]> (rw_threads s))) in
  match l with
  | CallRLock i => match rw_threads s !! i with Some Out => put i RStart | _ => None end
  | CallWLock i => match rw_threads s !! i with Some Out => put i WStart | _ => None end
  | TakeMutex i =>
    match rw_threads s !! i with
    | Some RStart | Some RWoken => Some (RLock s i)
    | Some WStart | Some WWoken => Some (WLock s i)
    | Some WDrainWoken => Some (WLock_drain s i)
    | _ => None
    end
  | CallRUnlock i j => match rw_threads s !! i with Some RHold => RUnlock s i j | _ => None end
  | CallWUnlock i => match rw_threads s !! i with Some WHold => Some (WUnlock s i) | _ => None end
  | SpuriousWake i =>
    pc ← rw_threads s !! i; assert! (at_cond_w pc || at_cond_r pc); put i (wake pc)
  end.

Fixpoint rw_run (s : RWLock) (ls : list rw_label) : option RWLock :=
  match ls with [] => Some s | l :: ls => s ← rw_step s l; rw_run s ls end.
End max.

(** ** The invariant of RWLock *)

Definition rholds (pc : rw_pc) : bool := match pc with RHold => true | _ => false end.
Definition wholds (pc : rw_pc) : bool := match pc with WHold => true | _ => false end.
(** The writer that set [has_writer_]. *)
Definition wowns (pc : rw_pc) : bool := match pc with WDrain | WDrainWoken | WHold => true | _ => false end.

Record rw_inv (n : nat) (s : RWLock) : Prop := {
  rw_len : length (rw_threads s) = n;
  rw_readers : reader_num_ s = zc rholds (rw_threads s);
  rw_writer : Z.b2z (has_writer_ s) = zc wowns (rw_threads s);
  rw_exclusive : 0 < zc wholds (rw_threads s) -> reader_num_ s = 0;
  rw_drain : 0 < zc at_cond_r (rw_threads s) -> 0 < reader_num_ s;
  rw_blocked : 0 < zc at_cond_w (rw_threads s) -> has_writer_ s = true
}.

Lemma zc_le {A} (f g : A -> bool) l : (forall x, f x = true -> g x = true) -> zc f l <= zc g l.
Proof.
  intros H. induction l as [|x l IH]; [done|]. rewrite !zc_cons.
  specialize (H x). destruct (f x), (g x); cbn; lia.
Qed.

Lemma zc_lt_length {A} (f : A -> bool) l i x : l !! i = Some x -> f x = false -> zc f l < zlen l.
Proof.
  intros E Hx. assert (forall m, zc (fun _ : A => true) m = zlen m) as Hall.
  { intros m. induction m as [|y m IH]; [done|]. rewrite zc_cons, zlen_cons, IH. cbn. lia. }
  rewrite <- Hall. clear Hall. revert i E. induction l as [|y l IH]; intros [|i] E; [done..| |].
  - injection E as ->. rewrite !zc_cons, Hx. pose proof (zc_le f (fun _ => true) l ltac:(done)). cbn. lia.
  - cbn in E. rewrite !zc_cons. specialize (IH _ E).
    destruct (f y); cbn; lia.
Qed.

Lemma zc_pos {A} (f : A -> bool) l i x : l !! i = Some x -> f x = true -> 0 < zc f l.
Proof.
  intros E Hx. apply zc_existsb, existsb_exists. exists x. split; [|done]. apply list_elem_of_In. by eapply list_elem_of_lookup_2.
Qed.

Lemma zc_zero {A} (f : A -> bool) l i x : zc f l = 0 -> l !! i = Some x -> f x = false.
Proof. intros H E. destruct (f x) eqn:Hx; [|done]. pose proof (zc_pos f l i x E Hx). lia. Qed.

Lemma rw_notify_none at_cond j ts : zc at_cond ts = 0 -> rw_notify at_cond j ts = ts.
Proof.
  intros H. unfold rw_notify. destruct (ts !! j) as [pc|] eqn:E; [|done]. by rewrite (zc_zero _ _ _ _ H E).
Qed.

(** Signalling the drained writer: no other thread waits at [cond_r_]. *)
Lemma rw_notify_drain j ts (g : rw_pc -> bool) :
  rw_notify_ok at_cond_r j ts = true -> zc at_cond_r ts <= 1 -> (g WDrain = g WDrainWoken) ->
  zc at_cond_r (rw_notify at_cond_r j ts) = 0 /\ zc g (rw_notify at_cond_r j ts) = zc g ts.
Proof.
  intros Hok Hle Hg. destruct (Z.eq_dec (zc at_cond_r ts) 0) as [H0|H0].
  { by rewrite rw_notify_none by done. }
  pose proof (zc_nonneg at_cond_r ts). assert (existsb at_cond_r ts = true) as Hx by (apply zc_existsb; lia).
  unfold rw_notify_ok in Hok. rewrite Hx in Hok. cbn [negb orb] in Hok. unfold rw_notify.
  destruct (ts !! j) as [pc|] eqn:E; [|done]. rewrite Hok. destruct pc; try discriminate Hok.
  rewrite !(zc_insert _ _ _ _ _ E), Hg. cbn. lia.
Qed.

Lemma rw_notify_all_count at_cond g ts :
  (forall pc, at_cond pc = true -> g (wake pc) = g pc) -> zc g (rw_notify_all at_cond ts) = zc g ts.
Proof.
  intros H. unfold rw_notify_all. rewrite zc_map. apply zc_ext. intros pc.
  destruct (at_cond pc) eqn:E; [by apply H|done].
Qed.

Lemma rw_notify_all_none ts : zc at_cond_w (rw_notify_all at_cond_w ts) = 0.
Proof.
  unfold rw_notify_all. rewrite zc_map. induction ts as [|pc ts IH]; [done|].
  rewrite zc_cons, IH. by destruct pc.
Qed.

Lemma rw_notify_length at_cond j ts : length (rw_notify at_cond j ts) = length ts.
Proof. unfold rw_notify. destruct (ts !! j) as [pc|]; [|done]. destruct (at_cond pc); [by rewrite length_insert|done]. Qed.

(** The facts about counts that every step uses. *)
Lemma rw_facts n s : rw_inv n s ->
  zc wholds (rw_threads s) <= zc wowns (rw_threads s) <= 1 /\
  zc at_cond_r (rw_threads s) + zc wholds (rw_threads s) <= zc wowns (rw_threads s) /\
  0 <= zc at_cond_r (rw_threads s) /\ 0 <= zc at_cond_w (rw_threads s) /\ 0 <= zc wholds (rw_threads s) /\
  0 <= zc rholds (rw_threads s).
Proof.
  intros [_ _ Hw _ _ _]. pose proof (zc_nonneg at_cond_r (rw_threads s)). pose proof (zc_nonneg wholds (rw_threads s)).
  assert (zc at_cond_r (rw_threads s) + zc wholds (rw_threads s) <= zc wowns (rw_threads s)).
  { clear. induction (rw_threads s) as [|pc ts IH]; [done|]. rewrite !zc_cons. destruct pc; cbn; lia. }
  pose proof (zc_nonneg at_cond_w (rw_threads s)). pose proof (zc_nonneg rholds (rw_threads s)).
  destruct (has_writer_ s); cbn in Hw; split_and!; lia.
Qed.

Ltac rw_counts E := rewrite ?(zc_insert _ _ _ _ _ E); cbn [rholds wholds wowns at_cond_w at_cond_r Z.b2z].

Section inv.
Context (n : nat) (Hn : Z.of_nat n <= MAX_READER_NUM).

(** A thread changes from one program point to another where it holds nothing. *)
Lemma rw_put_inv s i pc pc' :
  rw_inv n s -> rw_threads s !! i = Some pc ->
  rholds pc' = rholds pc -> wholds pc' = wholds pc -> wowns pc' = wowns pc ->
  (at_cond_r pc' = true -> at_cond_r pc = true) ->
  (at_cond_w pc' = true -> at_cond_w pc = true \/ has_writer_ s = true) ->
  rw_inv n (mkRWLock (has_writer_ s) (reader_num_ s) (<[i := pc']> (rw_threads s))).
Proof using.
  intros Hi E H1 H2 H3 H4 H5. destruct Hi as [Hl Hr Hw Hx Hd Hb].
  split; cbn [rw_threads has_writer_ reader_num_]; rewrite ?length_insert, ?(zc_insert _ _ _ _ _ E), ?H1, ?H2, ?H3.
  - done.
  - lia.
  - lia.
  - intros H. apply Hx. lia.
  - intros H. apply Hd. destruct (at_cond_r pc'), (at_cond_r pc); cbn in H; lia.
  - intros H. destruct (at_cond_w pc') eqn:E'; [destruct (H5 eq_refl) as [E2| ]; [|done]|]; apply Hb.
    + rewrite E2 in H. lia.
    + destruct (at_cond_w pc); cbn in H; lia.
Qed.

Lemma RLock_inv s i pc : rw_inv n s -> rw_threads s !! i = Some pc ->
  pc = RStart \/ pc = RWoken -> rw_inv n (RLock MAX_READER_NUM s i).
Proof using Hn.
  intros Hi E Hpc. unfold RLock. destruct (has_writer_ s) eqn:Ew; cbn [orb].
  { rewrite <- Ew. destruct Hpc as [-> | ->]; (eapply rw_put_inv; [done|done|..]); cbn; auto. }
  pose proof (zc_lt_length rholds _ i pc E) as Hlt. destruct (Hi) as [Hl Hr Hw Hx Hd Hb].
  unfold zlen in Hlt. rewrite Hl, <- Hr in Hlt.
  assert (reader_num_ s < MAX_READER_NUM) as Hm by (destruct Hpc as [-> | ->]; specialize (Hlt eq_refl); lia).
  replace (reader_num_ s =? MAX_READER_NUM) with false by lia.
  pose proof (rw_facts n s Hi). pose proof (zc_nonneg wowns (rw_threads s)).
  assert (~ 0 < zc at_cond_w (rw_threads s)) by (intros H'; specialize (Hb H'); congruence).
  rewrite Ew in Hw. cbn in Hw. unfold MAX_READER_NUM in *. rewrite u32_id by lia.
  split; cbn [rw_threads has_writer_ reader_num_]; rewrite ?length_insert; try done;
    rw_counts E; destruct Hpc as [-> | ->]; cbn; try lia; intros H'; lia.
Qed.

Lemma RUnlock_inv s i j s' : rw_inv n s -> rw_threads s !! i = Some RHold ->
  RUnlock MAX_READER_NUM s i j = Some s' -> rw_inv n s'.
Proof using Hn.
  intros Hi E. pose proof (rw_facts n s Hi) as Hf. destruct (Hi) as [Hl Hr Hw Hx Hd Hb].
  pose proof (zc_pos rholds _ _ _ E eq_refl). pose proof (zc_le rholds (fun _ => true) (rw_threads s) ltac:(done)) as Hle.
  assert (zc (fun _ : rw_pc => true) (rw_threads s) = Z.of_nat n) as Ha.
  { rewrite <- Hl. clear. induction (rw_threads s) as [|y m IH]; [done|]. rewrite zc_cons, IH. cbn. lia. }
  unfold RUnlock. unfold MAX_READER_NUM in *. rewrite u32_id by lia.
  set (ts := <[i := Out]> (rw_threads s)).
  assert (rw_inv n (mkRWLock (has_writer_ s) (reader_num_ s - 1) ts) \/
          has_writer_ s = true /\ reader_num_ s - 1 = 0) as Hmid.
  { destruct (decide (reader_num_ s - 1 = 0 /\ has_writer_ s = true)) as [[? ?]|Hne]; [by right|left].
    assert (0 < zc at_cond_r (rw_threads s) -> has_writer_ s = true) as Hdw.
    { intros H'. destruct (has_writer_ s); [done|]. cbn in Hw. lia. }
    split; cbn [rw_threads has_writer_ reader_num_]; unfold ts; rewrite ?length_insert; try done; rw_counts E; try lia.
    - intros H'. assert (has_writer_ s = true) by (apply Hdw; lia). destruct (decide (reader_num_ s - 1 = 0)); [tauto|lia].
    - intros H'. apply Hb. lia. }
  destruct (has_writer_ s) eqn:Ew.
  - cbn in Hw. destruct (Z.eqb_spec (reader_num_ s - 1) 0) as [H0|H0]; intros H'; inv_monad.
    + destruct (rw_notify_drain j ts wowns) as [D1 D2]; [done|unfold ts; rw_counts E; lia|done|].
      destruct (rw_notify_drain j ts rholds) as [_ D3]; [done|unfold ts; rw_counts E; lia|done|].
      destruct (rw_notify_drain j ts wholds) as [_ D4]; [done|unfold ts; rw_counts E; lia|done|].
      split; cbn [rw_threads has_writer_ reader_num_]; rewrite ?rw_notify_length, ?D1, ?D2, ?D3, ?D4;
        unfold ts; rewrite ?length_insert; try done; rw_counts E; try lia.
    + destruct Hmid as [?|[_ ?]]; [done|lia].
  - destruct Hmid as [Hm|[? _]]; [|done]. case_bool; intros H'; inv_monad; [|done].
    rewrite rw_notify_none; [done|]. destruct Hm as [_ _ _ _ _ Hb']. cbn [rw_threads has_writer_] in Hb'.
    pose proof (zc_nonneg at_cond_w ts). destruct (decide (0 < zc at_cond_w ts)); [|lia]. by specialize (Hb' ltac:(lia)).
Qed.

Lemma WLock_drain_inv s i pc : rw_inv n s -> rw_threads s !! i = Some pc ->
  pc = WDrainWoken -> rw_inv n (WLock_drain s i).
Proof using.
  intros Hi E ->. unfold WLock_drain. pose proof (rw_facts n s Hi) as Hf. destruct Hi as [Hl Hr Hw Hx Hd Hb].
  split; cbn [rw_threads has_writer_ reader_num_]; rewrite ?length_insert; try done; rw_counts E.
  - case_bool; cbn; lia.
  - case_bool; cbn; lia.
  - case_bool; cbn; lia.
  - case_bool; cbn; [lia|]. intros H'. apply Hd. lia.
  - intros H'. apply Hb. revert H'. case_bool; cbn; lia.
Qed.

Lemma WLock_inv s i pc : rw_inv n s -> rw_threads s !! i = Some pc ->
  pc = WStart \/ pc = WWoken -> rw_inv n (WLock s i).
Proof using.
  intros Hi E Hpc. unfold WLock. destruct (has_writer_ s) eqn:Ew.
  { rewrite <- Ew. destruct Hpc as [-> | ->]; (eapply rw_put_inv; [done|done|..]); cbn; auto. }
  pose proof (rw_facts n s Hi) as Hf. destruct Hi as [Hl Hr Hw Hx Hd Hb]. rewrite Ew in Hw. cbn in Hw.
  unfold WLock_drain. split; cbn [rw_threads has_writer_ reader_num_]; rewrite ?length_insert; try done; rw_counts E;
    destruct Hpc as [-> | ->]; case_bool; cbn; lia.
Qed.

Lemma WUnlock_inv s i : rw_inv n s -> rw_threads s !! i = Some WHold -> rw_inv n (WUnlock s i).
Proof using.
  intros Hi E. pose proof (rw_facts n s Hi) as Hf. destruct Hi as [Hl Hr Hw Hx Hd Hb].
  pose proof (zc_pos wholds _ _ _ E eq_refl). pose proof (zc_nonneg wowns (rw_threads s)).
  unfold WUnlock. split; cbn [rw_threads has_writer_ reader_num_].
  - unfold rw_notify_all. by rewrite length_map, length_insert.
  - rewrite rw_notify_all_count by (by intros []). rw_counts E. lia.
  - rewrite rw_notify_all_count by (by intros []). rw_counts E. destruct (has_writer_ s); cbn in Hw; lia.
  - intros _. apply Hx. lia.
  - rewrite rw_notify_all_count by (by intros []). rw_counts E. intros H'. apply Hd. lia.
  - rewrite rw_notify_all_none. lia.
Qed.

Lemma rw_step_inv s l s' : rw_inv n s -> rw_step MAX_READER_NUM s l = Some s' -> rw_inv n s'.
Proof using Hn.
  intros Hi. destruct l as [i|i|i|i j|i|i]; cbn [rw_step].
  - destruct (rw_threads s !! i) as [[]|] eqn:E; intros H; try discriminate H; inv_monad. by eapply rw_put_inv.
  - destruct (rw_threads s !! i) as [[]|] eqn:E; intros H; try discriminate H; inv_monad. by eapply rw_put_inv.
  - destruct (rw_threads s !! i) as [[]|] eqn:E; intros H; try discriminate H; inv_monad;
      first [eapply RLock_inv | eapply WLock_inv | eapply WLock_drain_inv]; eauto.
  - destruct (rw_threads s !! i) as [[]|] eqn:E; intros H; try discriminate H. by eapply RUnlock_inv.
  - destruct (rw_threads s !! i) as [[]|] eqn:E; intros H; try discriminate H; inv_monad. by apply WUnlock_inv.
  - intros H. inv_monad. eapply rw_put_inv; [done|done|..]; by destruct r.
Qed.

Lemma rw_run_inv ls s s' : rw_inv n s -> rw_run MAX_READER_NUM s ls = Some s' -> rw_inv n s'.
Proof using Hn.
  revert s. induction ls as [|l ls IH]; intros s Hi H; cbn [rw_run] in H; inv_monad; [done|].
  eapply IH; [|done]. by eapply rw_step_inv.
Qed.
End inv.

Lemma make_RWLock_inv n : rw_inv n (make_RWLock n).
Proof.
  split; cbn [make_RWLock rw_threads has_writer_ reader_num_]; rewrite ?zc_repeat by done; try done.
  apply repeat_length.
Qed.

Lemma zc_two (f : rw_pc -> bool) ts i j pc pc' :
  f Out = false -> ts !! i = Some pc -> ts !! j = Some pc' -> i <> j -> f pc = true -> f pc' = true -> 2 <= zc f ts.
Proof.
  intros H0 Ei Ej Hne Hf Hf'. pose proof (zc_insert f ts i pc Out Ei) as H. rewrite H0, Hf in H. cbn in H.
  assert (0 < zc f (<[i := Out]> ts)); [|lia]. eapply (zc_pos _ _ j); [|done]. by rewrite list_lookup_insert_ne.
Qed.

Lemma zc_witness {A} (f : A -> bool) l : 0 < zc f l -> exists i x, l !! i = Some x /\ f x = true.
Proof.
  intros H. apply zc_existsb, existsb_exists in H as (x & Hx & Hf).
  apply list_elem_of_In, list_elem_of_lookup in Hx as [i Hi]. eauto.
Qed.

(** ** Properties *)

(** C16 The read-write lock, for up to 2^32 - 1 threads and every interleaving
    of their critical sections, signals and spurious wakeups: a thread that
    holds the lock for writing is the only holder, and no wakeup is lost, that
    is, whenever a thread waits at one of the condition variables another
    thread holds the lock or is the woken writer next in line. *)
Theorem rw_lock_safe (n : nat) (ls : list rw_label) (s : RWLock) :
  Z.of_nat n <= MAX_READER_NUM -> rw_run MAX_READER_NUM (make_RWLock n) ls = Some s ->
  (forall i j pc, rw_threads s !! i = Some WHold -> rw_threads s !! j = Some pc -> j <> i ->
     pc <> RHold /\ pc <> WHold) /\
  (forall i pc, rw_threads s !! i = Some pc -> at_cond_w pc = true \/ at_cond_r pc = true ->
     exists j pc', rw_threads s !! j = Some pc' /\ (pc' = RHold \/ pc' = WHold \/ pc' = WDrainWoken)).
Proof.
  intros Hn Hr. pose proof (rw_run_inv n Hn _ _ _ (make_RWLock_inv n) Hr) as Hi.
  pose proof (rw_facts n s Hi) as Hf. destruct Hi as [_ Hrd Hw Hx Hd Hb].
  assert (0 < zc at_cond_r (rw_threads s) -> exists j pc', rw_threads s !! j = Some pc' /\ pc' = RHold) as Hdr.
  { intros H. destruct (zc_witness rholds (rw_threads s)) as (j & pc & Ej & Hh); [specialize (Hd H); lia|].
    destruct pc; try discriminate Hh. eauto. }
  split.
  - intros i j pc Ei Ej Hne. pose proof (zc_pos wholds _ _ _ Ei eq_refl) as Hp. split; intros ->.
    + pose proof (zc_pos rholds _ _ _ Ej eq_refl). specialize (Hx Hp). lia.
    + pose proof (zc_two wholds _ _ _ _ _ eq_refl Ei Ej (not_eq_sym Hne) eq_refl eq_refl). lia.
  - intros i pc Ei [Hc|Hc].
    + pose proof (zc_pos at_cond_w _ _ _ Ei Hc) as Hp. rewrite (Hb Hp) in Hw. cbn in Hw.
      destruct (zc_witness wowns (rw_threads s)) as (j & pc' & Ej & Hh); [lia|].
      destruct pc'; try discriminate Hh; eauto 6.
      destruct Hdr as (k & ? & Ek & ->); [by eapply zc_pos|eauto].
    + destruct Hdr as (k & ? & Ek & ->); [by eapply zc_pos|eauto].
Qed.

(** Two readers inside, a writer that drains them, a reader held back. *)
Definition demo_rw_labels : list rw_label :=
  [CallRLock 0; TakeMutex 0; CallRLock 1; TakeMutex 1; CallWLock 2; TakeMutex 2;
   CallRLock 3; TakeMutex 3; CallRUnlock 0 2; CallRUnlock 1 2; TakeMutex 2].

Lemma rw_lock_safe_witness :
  exists s, rw_run MAX_READER_NUM (make_RWLock 4) demo_rw_labels = Some s /\
    rw_threads s = [Out; Out; WHold; RWait] /\
  (forall i j pc, rw_threads s !! i = Some WHold -> rw_threads s !! j = Some pc -> j <> i ->
     pc <> RHold /\ pc <> WHold) /\
  (forall i pc, rw_threads s !! i = Some pc -> at_cond_w pc = true \/ at_cond_r pc = true ->
     exists j pc', rw_threads s !! j = Some pc' /\ (pc' = RHold \/ pc' = WHold \/ pc' = WDrainWoken)).
Proof.
  eexists. split; [reflexivity|]. split; [reflexivity|].
  apply (rw_lock_safe 4 demo_rw_labels); [done|reflexivity].
Defined.

(** ** MutexLock: what its holder says *)

Lemma pc_of_at_pc s u m pc t : pc_of (at_pc s u m pc) t = if u =? t then pc else pc_of s t.
Proof.
  unfold pc_of, at_pc. cbn [pcs List.find fst]. destruct (Z.eqb_spec u t) as [ |Hne]; [done|].
  induction (pcs s) as [|[v q] l IH]; [done|]. cbn [List.filter List.find fst].
  destruct (Z.eqb_spec v u) as [->|Hv]; cbn [negb].
  - destruct (Z.eqb_spec u t); [done|]. apply IH.
  - cbn [List.find fst]. destruct (v =? t); [done|]. apply IH.
Qed.

Definition owner_inside (s : mutex_state) : Prop :=
  forall t, pc_of s t = MIn <-> mutex_ (lock s) = Some t.

Lemma mutex_step_owner s l s' : owner_inside s -> mutex_step s l = Some s' -> owner_inside s'.
Proof.
  intros H0 Hs t. destruct l as [u|u|u|u|u|u]; cbn [mutex_step] in Hs; [..|by inv_monad];
    destruct (pc_of s u) eqn:Ep; try discriminate;
    pose proof (H0 t) as Ht; pose proof (H0 u) as Hu; rewrite Ep in Hu;
    unfold TryLock in Hs; destruct (mutex_ (lock s)) eqn:Em; try discriminate;
    injection Hs as <-; rewrite pc_of_at_pc; cbn [lock at_pc mutex_ assignHolder unassignHolder];
    rewrite ?Em; destruct (Z.eqb_spec u t) as [<-|]; try done;
    split; intros; try done; try (by apply Hu); try (by apply Ht); try congruence.
  all: try (destruct (proj1 Hu); congruence).
  all: apply Ht in H; try congruence. pose proof (proj1 Hu eq_refl). congruence.
Qed.

(** The POSIX mutex excludes: a thread inside owns it. *)
Lemma mutex_owner ls s t :
  mutex_run mutex_start ls = Some s -> pc_of s t = MIn <-> mutex_ (lock s) = Some t.
Proof.
  assert (forall s0, owner_inside s0 -> mutex_run s0 ls = Some s -> owner_inside s) as H;
    [|intros Hr; by eapply H; [|done]].
  induction ls as [|l ls IH]; intros s0 H0 Hr; cbn [mutex_run] in Hr; inv_monad; [done|].
  eapply IH; [|done]. by eapply mutex_step_owner.
Qed.

(** ** Defects *)

(** [AssertLocked] aborts in the thread that has just locked, and passes in a
    thread that has not. *)
Lemma assert_locked_inverted :
  exists s, mutex_run mutex_start [MLock 1; MAcquire 1] = Some s /\ mutex_ (lock s) = Some 1 /\
    AssertLocked 1 (lock s) = None /\ AssertLocked 2 (lock s) = Some tt.
Proof. eexists. split; [reflexivity|]. repeat split; reflexivity. Qed.

(** [Lock] records the caller as the holder before it has the mutex: while one
    thread owns the lock and another one is about to block in [Lock], the first
    is told that it does not hold the lock and the second that it does. *)
Lemma waiting_thread_takes_holder :
  exists s, mutex_run mutex_start [MLock 1; MAcquire 1; MLock 2] = Some s /\ mutex_ (lock s) = Some 1 /\
    IsLockedInThisThread 1 (lock s) = Some false /\ IsLockedInThisThread 2 (lock s) = Some true.
Proof. eexists. split; [reflexivity|]. repeat split; reflexivity. Qed.

(** [Unlock] clears the holder after it has released the mutex, and so the
    holder a thread that locked it in between has recorded. *)
Lemma unlock_clears_next_holder :
  exists s, mutex_run mutex_start [MLock 1; MAcquire 1; MUnlock 1; MLock 2; MAcquire 2; MUnassign 1] = Some s /\
    mutex_ (lock s) = Some 2 /\ IsLockedInThisThread 2 (lock s) = Some false.
Proof. eexists. split; [reflexivity|]. split; reflexivity. Qed.

(** A successful [TryLock] clears the holder instead of recording it. *)
Lemma try_lock_not_holder :
  exists s, mutex_run mutex_start [MTryLock 1] = Some s /\
    mutex_ (lock s) = Some 1 /\ IsLockedInThisThread 1 (lock s) = Some false.
Proof. eexists. split; [reflexivity|]. split; reflexivity. Qed.

(** At the limit of readers one reader is woken per step down from the limit
    only: with a limit of two, two readers held back and two that leave, the
    second one stays waiting at a lock that nobody holds any more. *)
Lemma reader_limit_leaves_waiting :
  exists s, rw_run 2 (make_RWLock 4)
      [CallRLock 0; TakeMutex 0; CallRLock 1; TakeMutex 1; CallRLock 2; TakeMutex 2; CallRLock 3; TakeMutex 3;
       CallRUnlock 0 2; CallRUnlock 1 3; TakeMutex 2; CallRUnlock 2 3] = Some s /\
    has_writer_ s = false /\ reader_num_ s = 0 /\ rw_threads s = [Out; Out; Out; RWait].
Proof. eexists. split; [reflexivity|]. repeat split; reflexivity. Qed.
